(* ===== verification/_CoqProject ===== *)
-Q . S2P
Prelude.v
Bytes.v
Text.v
Libc.v
F64.v
State.v
Io.v
Cli.v
Durable.v
Engine.v
EngineFacts.v
CrashSafety.v
Lifetimes.v
Torn.v
EngineSpec.v
Transfer.v
Cadence.v
KvRecovery.v
Typing.v
Workload.v
Cluster.v
StateGuarantees.v
Guarantees.v
ClusterGuarantees.v
FabricSpec.v
FabricCluster.v
Demo.v
Bench.v
Ordering.v
Latency.v
Capture.v
Interpose.v
CaptureReplay.v
VirtualTime.v
Detsched.v
DetschedSpec.v
DetschedLive.v
DetschedGuarantees.v
Rngdet.v
Linearizability.v
Net.v
Service.v
Serving.v
Server.v
Threads.v
Resp.v
RespSession.v
RespGuarantees.v
Lincheck.v
Txn.v
TxnSession.v
Streamlog.v
StreamSession.v
Memcache.v
MemcacheSession.v
Http.v
HttpSession.v
Jepsen.v
AppJepsen.v
AppCheck.v
Recovery.v
Sim.v
Experiments.v
EngineTests.v
FrontendTests.v
BenchTests.v
