(* ===== verification/Prelude.v ===== *)
(** * OneBarrier: a verification of the crate [crates/onebarrier]

    ** The program

    OneBarrier replays a totally ordered stream of operations deterministically. Under
    it, an external fabric ([onepipe_core], [onepipe_net]) stamps and orders messages;
    above it, five front-ends serve network clients. The parts are:

    - [state.rs]: operations, their wire format, the trait [StateMachine] and the
      key-value store;
    - [durable.rs]: an ordered log and a snapshot in one directory;
    - [lib.rs]: the engine. It applies each operation once per client number, logs it
      before it answers, cuts snapshots, and recovers by loading the snapshot and
      replaying the log with the same deduplication;
    - [cluster.rs]: replicas that apply the fabric's deliveries, one of which may crash
      and be caught up from a peer;
    - [server.rs]: one executor thread that owns an engine, an accept loop that numbers
      connections, and the trait of protocol handlers; [resp.rs] (Redis), [memcache.rs],
      [http.rs], [txn.rs], [streamlog.rs] are the handlers;
    - [linearizability.rs]: a checker of register histories; [bin/ob_lincheck.rs],
      [bin/ob_jepsen.rs], [bin/ob_app_jepsen.rs] test servers with it;
    - [bench.rs], [sim.rs], [recovery.rs]: measurements, a queueing simulation and an
      analytic model, and the experiment binaries over them;
    - [interpose/obpreload.c]: a library that captures what an unmodified server receives and
      makes its clock repeatable; [interpose/rngdet.c] and [interpose/detsched.c]: libraries that
      make its random numbers and the order of its locks repeatable; [bin/ob_replay.rs]: replay
      of captured requests;
    - [spec/OneBarrierEngine.tla], [spec/OnePipeTotalOrder.tla]: specifications of the
      engine and of the fabric.

    ** How code is modelled

    A pure function is a function. Code that mutates or fails runs in [Io.M], a state
    monad with four results: [Ok], an [io::Error], a panic, and the process killed. A
    [World] holds the files of a directory and the fate of the system calls to come:
    each succeeds, fails, or is where the process dies, and a write that does not
    finish leaves any prefix of its bytes. Machine integers are [Z] with their width
    written out; [arith_mode] says whether overflow panics (debug build) or wraps
    (release build). A slice out of range and a remainder by 0 panic ([Durable.slice],
    [Engine.u64_rem]). Bytes are [list byte], a [String] is its UTF-8 bytes ([Bytes]),
    a [HashMap] or [BTreeMap] is a [gmap], [f64] is IEEE binary64 on the Standard
    Library's [SpecFloat] ([F64]).

    Loops over input have fuel: one more than the length of the input, enough because
    every iteration consumes something ([Net.loop_ends]; the theorems on connections
    include that fuel never runs out). The search of the linearizability checker has
    the number of operations as fuel. Loops that poll the fabric run over the list of what
    the polls return.

    ** Files

    - [Prelude], [Bytes], [Text], [F64]: widths, notations, tactics, the hint database
      [ob]; encodings and UTF-8; strings and numbers; floating point.
    - [State]: [state.rs]. [StateGuarantees]: encoding round trips, the store (C10 to
      C12, C14).
    - [Io], [Durable], [Engine]: system calls, [durable.rs], [lib.rs].
      [EngineFacts], [CrashSafety], [Lifetimes], [Torn], [Transfer], [Cadence], [KvRecovery],
      [Typing]: the engine as a fold over deduplicated operations, what any crash leaves on
      disk, any number of processes one after the other, a process that starts behind a torn
      record, state transfer, snapshot frequency, recovery of arbitrary files, the widths of
      the fields of a recovered engine. [Guarantees]: what the engine promises (C1 to C3, C5,
      C6).
    - [EngineSpec]: the TLA+ specification as a step relation, safe in every reachable
      state (C25), and refined by the engine (C32).
    - [Workload], [Cluster], [ClusterGuarantees]: [cluster.rs].
    - [FabricSpec]: the fabric's TLA+ specification as a step relation, its safety and that it
      can always deliver everything (C13, C28). [FabricCluster]: cluster runs over a run of
      that specification (C7, C8).
    - [Bench], [Latency], [Ordering]: bodies of [bench.rs] (C33, C37). [Experiments]: the
      experiment binaries and the sweeps they print.
    - [Capture]: [ob_replay]. [Interpose]: [obpreload.c]. [CaptureReplay]: what the one writes
      the other sends again (C35). [VirtualTime]: the virtual clock across a crash (C40), and
      recorded results (C20).
    - [Detsched]: [detsched.c] as a machine whose steps are one atomic operation of one thread,
      over programs of synchronisation calls. [DetschedSpec]: the reference, in which threads
      take turns, and the simulation of it; [DetschedLive]: every state can be continued to the
      end; [DetschedGuarantees]: the order of locks (C9) and that the scheduler does not
      deadlock (C34), the microbenchmark of [det-mt.sh] with the hash it prints, and programs
      whose order depends on timing. [Rngdet], [Libc]: [rngdet.c].
    - [Linearizability]: the checker decides linearizability (C15). [Lincheck]: its driver,
      with the server, passes and ends (C21, C30).
    - [Net], [Service], [Serving], [Server]: a connection, the executor behind the class
      [KvService], and connections that share it. Handlers are written against
      [KvService]; the executor and a scripted service that records what it is asked are
      its instances. [Threads]: the accept, handler, executor and stopping threads and the
      channel between them as a step relation (C22, C36).
    - [Resp], [RespSession], [RespGuarantees] (C16 to C19); [Txn], [TxnSession]
      (C24, C26); [Streamlog], [StreamSession] (C27); [Memcache], [MemcacheSession] (C29);
      [Http], [HttpSession] (C31): each front-end, its connection loop, and the
      refinement of an abstract specification by a session served by the executor.
    - [Jepsen] (C23), [AppJepsen]: the crash-consistency checks. [AppCheck]: the second one
      with the interception library and the replay (C4).
    - [Recovery] (C39), [Sim] (C38): the analytic model and the simulation.
    - [Cli]: the arguments of the server binaries. [Demo]: [bin/ob_demo.rs].
    - [EngineTests], [FrontendTests], [BenchTests]: the unit tests of the crate, evaluated or
      shown to pass in every environment they are written for.

    ** What the theorems show

    Crash safety: after any sequence of processes that end anywhere, each started on a log
    that does not end inside a record ([Lifetimes.clean_starts]), recovery rebuilds what the
    reference oracle gives for the acknowledged operations and at most one more of each
    process (C1), and an acknowledged operation is never applied again (C2). The condition
    is needed: the program never cuts a torn record off, and a process that starts behind
    one can lose all it acknowledges (C6). C23 and C32 have the same condition. A lagging
    replica catches up (C3); recovery of any bytes whatsoever gives exactly what they hold,
    with no slice out of range (C5). Replication: over the specified fabric all replicas end
    equal, with every key that was incremented at its sum, also across a crash, and the
    program reports it as correct exactly when a client has at least as many operations as
    there are keys (C7, C8); the fabric's order is safe and complete (C13, C28).
    Concurrent connections, however the server's threads interleave, are served by one store
    that suppresses the repeated numbers of a connection, which for rising numbers is
    exactly-once service, and the server stops in order (C36, C22); refinement of the front-ends
    (C16, C26, C27, C29, C31), numbering and termination of every connection (C18, and
    [StreamSession.stream_numbers_increase], [Txn.txn_numbers_increase],
    [Memcache.mc_numbers_increase], [Http.http_numbers_increase]). Unmodified servers: capture
    into a new log, with [recvmsg] into one buffer, and replay give every connection back what
    it sent (C35); virtual time (C40) and recorded results repeat, the requests for random
    bytes that failed left out (C20); and no acknowledged write of the application check is lost (C4). Threads
    that enter one critical section at a time take their locks in the same order in every run
    (C9) and can always finish (C34); random numbers repeat after a restart
    ([Rngdet.random_replays]) and do not repeat before it ([Rngdet.stream_distinct]).
    Round trips (C10 to C12, C17). The checker is sound and
    complete (C15); the linearizability test and the crash test pass on the modelled
    server, however its threads interleave and wherever it crashes (C21, C23), and the
    former ends when every client gets its turns (C30). The latency benchmark samples every
    operation once, with true times (C37); in the simulation OneBarrier is behind no other
    scheme, but for Remus when the barrier takes longer than Remus's hold (C38). Some theorems show defects:
    C6, C24 (a commit is acknowledged also when the service is gone), and
    [Guarantees.import_garbage_loses_store], [RespGuarantees.del_skips_other_keys],
    [RespGuarantees.timeout_desynchronises], [CaptureReplay.restart_merges_connections],
    [CaptureReplay.recvmsg_captures_wrong_bytes], [VirtualTime.coalesced_replay_skews_time],
    [VirtualTime.failed_random_shifts_replay], [AppCheck.replay_reorders_register],
    [HttpSession.incr_query_ignored], [RespGuarantees.error_reply_splits],
    [MemcacheSession.add_overwrites], [MemcacheSession.decr_stores_negative],
    [AppJepsen.app_check_false_alarm], [Ordering.stamps_collide],
    [DetschedGuarantees.late_threads_race], [DetschedGuarantees.nested_sections_race],
    [DetschedGuarantees.trylock_races], [DetschedGuarantees.too_many_threads_overrun].

    ** Assumptions, and what is not modelled

    - The fabric's implementation ([onepipe_core], [onepipe_net]) is external: its timestamps are
      a type with [as_nanos], its deliveries are inputs; theorems on clusters take them from
      a run of its TLA+ specification.
    - Threads: interleavings are explicit sequences of steps. That a client stops sending is
      what lets [ServerHandle::stop] end: a handler reads the flag only when a read times
      out. Clocks are inputs.
    - Disk: a write that returned is on disk; loss of written bytes at a power failure,
      and so the difference [fsync] makes, is not modelled.
    - The network: a [BufWriter] is an unbounded buffer that fails only when flushed.
      Allocation is bounded by a parameter [memory].
    - Connection and operation counters ([u64]) are unbounded where they would need more
      than [2 ^ 64] requests to wrap.
    - [f64::ln] and [f64::powf] are parameters; [ln] is assumed finite and not positive on
      (0, 1].
    - The application that [ob_app_jepsen] checks is a parameter: any server that stores what
      [SET] gives it and executes the whole commands of a connection in order.
    - The virtual clock of [obpreload.c] does not pass the range of [long long].
    - Atomic operations are sequentially consistent, as the libraries request them; the logical
      clocks of [detsched.c] ([long]) do not overflow. A thread accesses shared data only under
      the lock that guards it. What the kernel lets the supervisor of [rngdet.c] do to the
      caller's memory is an input.
    - Process control, sockets, the layout of printed tables, CPU accounting, the shell scripts
      and the RDMA benchmark. In the unit tests a comparison of measured times is a condition. *)

From stdpp Require Export gmap list sorting strings.
From coqutil Require Export Byte Word.LittleEndianList.

(** Notations of the development live in this scope. *)
Declare Scope ob_scope.
Delimit Scope ob_scope with ob.

(** ** Machine-width integers *)

Section Widths.
Local Open Scope Z_scope.

Definition U16_MAX : Z := 65535.
Definition U32_MAX : Z := 4294967295.
Definition U64_MAX : Z := 18446744073709551615.
Definition I64_MIN : Z := -9223372036854775808.
Definition I64_MAX : Z := 9223372036854775807.
(** [isize::MAX]: the largest allocation in bytes a [Vec] may ask for. *)
Definition ISIZE_MAX : Z := 9223372036854775807.

Definition is_u16 (z : Z) : Prop := 0 <= z <= U16_MAX.
Definition is_u32 (z : Z) : Prop := 0 <= z <= U32_MAX.
Definition is_u64 (z : Z) : Prop := 0 <= z <= U64_MAX.
Definition is_i64 (z : Z) : Prop := I64_MIN <= z <= I64_MAX.

(** Two's-complement reading of a 64-bit pattern. *)
Definition i64_wrap (z : Z) : Z := (z + 2 ^ 63) mod 2 ^ 64 - 2 ^ 63.

(** The behaviour of [+], [-] and unary [-] on overflow depends on the build
    profile: a debug build panics, a release build wraps. *)
Inductive arith_mode := Checked | Wrapping.

(** The result of an [i64] operation whose exact result is [z];
    [None] is a panic. *)
Definition i64_arith (am : arith_mode) (z : Z) : option Z :=
  if bool_decide (is_i64 z) then Some z
  else match am with Checked => None | Wrapping => Some (i64_wrap z) end.

(** [usize] arithmetic, the same way. *)
Definition usize_arith (am : arith_mode) (z : Z) : option Z :=
  if bool_decide (is_u64 z) then Some z
  else match am with Checked => None | Wrapping => Some (z mod 2 ^ 64) end.
End Widths.

#[export] Instance is_u16_dec z : Decision (is_u16 z) := _.
#[export] Instance is_u32_dec z : Decision (is_u32 z) := _.
#[export] Instance is_u64_dec z : Decision (is_u64 z) := _.
#[export] Instance is_i64_dec z : Decision (is_i64 z) := _.
#[export] Instance arith_mode_eq_dec : EqDecision arith_mode.
Proof. solve_decision. Defined.

(** Unfold every width predicate and close the goal with [lia]. *)
Ltac width_lia :=
  unfold is_u16, is_u32, is_u64, is_i64, U16_MAX, U32_MAX, U64_MAX, I64_MIN, I64_MAX,
    ISIZE_MAX in *; lia.

(** The length of a list as an integer, as [Vec::len] gives it. *)
Abbreviation len l := (Z.of_nat (length l)).

(** ** Byte strings *)

Abbreviation byte := Byte.byte.
Abbreviation bytes := (list Byte.byte).

#[export] Instance byte_eq_decision : EqDecision byte := Byte.byte_eq_dec.
#[export] Program Instance byte_countable : Countable byte :=
  inj_countable Byte.to_N Byte.of_N _.
Next Obligation. intros b. apply Byte.of_to_N. Qed.

(** [b"..."]: the bytes of a literal. *)
Definition bs (s : string) : bytes := String.list_byte_of_string s.

(** ** Automation *)

(** [ob]: the lemmas that close the routine goals of the components;
    [ob_len]: rewriting rules that compute lengths. *)
Create HintDb ob discriminated.
Create Rewrite HintDb ob_len.

#[export] Hint Rewrite @length_app @length_cons @length_nil @length_take @length_drop
  @length_map @length_le_split : ob_len.

(** Compute every length in the goal and the context, then [lia]. *)
Ltac len_lia :=
  repeat autorewrite with ob_len in *; cbn [length] in *; width_lia.

(** Split conjunctions in the context and substitute equations. *)
Ltac inv_all :=
  repeat match goal with
  | H : _ ∧ _ |- _ => destruct H
  | H : ∃ _, _ |- _ => destruct H
  | H : Some _ = Some _ |- _ => injection H as H
  | H : (_, _) = (_, _) |- _ => injection H as H
  | H : Some _ = None |- _ => discriminate H
  | H : None = Some _ |- _ => discriminate H
  end; subst.

(** Prove a decidable closed proposition by running its decision procedure. *)
Ltac by_decision := apply (bool_decide_unpack _); vm_compute; exact I.

(** ** Generic lemmas on lists *)

Section Lists.
Context {A : Type}.
Implicit Types l : list A.

Lemma take_len_app l1 l2 : take (length l1) (l1 ++ l2) = l1.
Proof. apply take_app_length. Qed.

Lemma drop_len_app l1 l2 : drop (length l1) (l1 ++ l2) = l2.
Proof. apply drop_app_length. Qed.

(** A proper prefix taken from a list, with what is left of it. *)
Lemma take_split n l : ∃ r, l = take n l ++ r.
Proof. exists (drop n l). symmetry. apply take_drop. Qed.

Lemma fold_left_snoc {B} (f : B → A → B) l x b :
  fold_left f (l ++ [x]) b = f (fold_left f l b) x.
Proof. by rewrite fold_left_app. Qed.

Lemma Forall_snoc_iff (P : A → Prop) l x : Forall P (l ++ [x]) ↔ Forall P l ∧ P x.
Proof. rewrite Forall_app, Forall_singleton. done. Qed.

(** [mapM] succeeds when every element does. *)
Lemma mapM_related {B} (f : A → option B) (R : A → B → Prop) l :
  (∀ x, x ∈ l → ∃ y, f x = Some y ∧ R x y) → ∃ k, mapM f l = Some k ∧ Forall2 R l k.
Proof.
  induction l as [|x l IH]; intros H; [by exists []|].
  destruct (H x) as (y & Ey & Ry); [constructor|]. destruct IH as (k & Ek & Rk); [intros; apply H; by constructor|].
  exists (y :: k). cbn. rewrite Ey. cbn. rewrite Ek. split; [done|by constructor].
Qed.

Lemma StronglySorted_filter (R : relation A) (P : A → Prop) `{∀ x, Decision (P x)} l :
  StronglySorted R l → StronglySorted R (filter P l).
Proof.
  induction 1 as [|x l _ IH Hx]; [constructor|]. rewrite filter_cons. case_decide; [|done].
  constructor; [done|]. rewrite Forall_forall in Hx |- *. intros y [_ Hy]%list_elem_of_filter. by apply Hx.
Qed.

Lemma omap_indexed {B} (f : A → option B) l (ys : list B) :
  length l = length ys → (∀ k x, l !! k = Some x → f x = ys !! k) → omap f l = ys.
Proof.
  revert ys; induction l as [|x l IH]; intros [|y ys] Hl Hf; try done. cbn [omap list_omap].
  rewrite (Hf 0%nat x eq_refl). cbn. f_equal. apply IH; [by injection Hl|]. intros k z Hz. by apply (Hf (S k)).
Qed.

Lemma filter_omap {B} (f : A → option B) (P : B → Prop) (Q : A → Prop)
    `{∀ y, Decision (P y)} `{∀ x, Decision (Q x)} (l : list A) :
  (∀ x y, f x = Some y → P y ↔ Q x) → filter P (omap f l) = omap f (filter Q l).
Proof.
  intros Hf. induction l as [|x l IH]; [done|]. cbn [omap list_omap]. rewrite filter_cons.
  destruct (f x) as [y|] eqn:E.
  - rewrite filter_cons, IH. destruct (decide (P y)) as [Hy|Hy].
    + rewrite decide_True by by apply (Hf x y). cbn [omap list_omap]. by rewrite E.
    + rewrite decide_False; [done|]. intros Hx. by apply Hy, (Hf x y).
  - rewrite IH. case_decide; [|done]. cbn [omap list_omap]. by rewrite E.
Qed.

Lemma elem_of_list_prod {B} l (k : list B) x y : (x, y) ∈ list_prod l k ↔ x ∈ l ∧ y ∈ k.
Proof. rewrite !list_elem_of_In. apply in_prod_iff. Qed.
End Lists.

#[export] Hint Rewrite @take_len_app @drop_len_app : ob_len.

(** ** [BTreeMap]: a finite map iterated in key order *)

(** What a [BTreeMap] needs of its key type ([Ord]): a decidable total order. *)
Class KeyOrder (K : Type) `{EqDecision K} := {
  key_le : relation K;
  #[global] key_le_dec :: RelDecision key_le;
  #[global] key_le_trans :: Transitive key_le;
  #[global] key_le_total :: Total key_le;
  #[global] key_le_antisymm :: AntiSymm (=) key_le;
}.

Section BTree.
Context {K V : Type} `{Countable K} {KO : KeyOrder K}.

Definition entry_le (x y : K * V) : Prop := key_le x.1 y.1.
#[local] Instance entry_le_dec x y : Decision (entry_le x y) :=
  key_le_dec x.1 y.1.

(** The entries of a map in ascending key order ([for (k, v) in &map]). *)
Definition btree_iter (m : gmap K V) : list (K * V) :=
  merge_sort entry_le (map_to_list m).

(** [map.insert(k, v)] repeated over a list, first entry first. *)
Definition btree_extend (m : gmap K V) (l : list (K * V)) : gmap K V :=
  fold_left (λ m kv, <[kv.1 := kv.2]> m) l m.

Lemma btree_iter_perm m : btree_iter m ≡ₚ map_to_list m.
Proof. apply merge_sort_Permutation. Qed.

Lemma length_btree_iter m : length (btree_iter m) = size m.
Proof. rewrite btree_iter_perm. apply length_map_to_list. Qed.

Lemma elem_of_btree_iter m k v : (k, v) ∈ btree_iter m ↔ m !! k = Some v.
Proof. rewrite btree_iter_perm. apply elem_of_map_to_list. Qed.

Lemma btree_iter_NoDup m : NoDup (btree_iter m).*1.
Proof. rewrite btree_iter_perm. apply NoDup_fst_map_to_list. Qed.

Lemma btree_iter_sorted m : StronglySorted entry_le (btree_iter m).
Proof.
  apply StronglySorted_merge_sort.
  - intros x y z; apply (transitivity (R := key_le)).
  - intros x y; apply (total key_le).
Qed.

Lemma btree_extend_app m l1 l2 :
  btree_extend m (l1 ++ l2) = btree_extend (btree_extend m l1) l2.
Proof. apply fold_left_app. Qed.

Lemma btree_extend_fresh l m :
  NoDup l.*1 → (∀ k, k ∈ l.*1 → m !! k = None) →
  btree_extend m l = list_to_map l ∪ m.
Proof.
  revert m; induction l as [|[k v] l IH]; intros m Hnd Hfr; cbn.
  - by rewrite map_empty_union.
  - apply NoDup_cons in Hnd as [Hk Hnd].
    unfold btree_extend in IH. rewrite IH; [| done |].
    + rewrite <- insert_union_l. apply map_eq; intros k'.
      destruct (decide (k = k')) as [->|Hne].
      * rewrite lookup_insert_eq, lookup_union_r, lookup_insert_eq; [done|].
        by apply not_elem_of_list_to_map.
      * rewrite lookup_insert_ne, !lookup_union, lookup_insert_ne by done. done.
    + intros k' Hk'. rewrite lookup_insert_ne by (intros ->; done).
      apply Hfr. cbn. apply elem_of_cons. by right.
Qed.

(** Reading the entries back, in any order, rebuilds the map. *)
Lemma btree_extend_iter m : btree_extend ∅ (btree_iter m) = m.
Proof.
  rewrite btree_extend_fresh.
  - rewrite map_union_empty, (list_to_map_proper _ (map_to_list m)).
    + apply list_to_map_to_list.
    + apply btree_iter_NoDup.
    + apply btree_iter_perm.
  - apply btree_iter_NoDup.
  - intros k _. apply lookup_empty.
Qed.
End BTree.

#[export] Program Instance Z_key_order : KeyOrder Z := {| key_le := Z.le |}.

(** ** Counted loops with an early exit *)

(** How an iteration ends, with the variables of the loop as it leaves them. *)
Inductive Flow (A : Type) := Continue (a : A) | Break (a : A).
Arguments Continue {A} a.
Arguments Break {A} a.

(** [for _ in 0..n { body }] where [body] may [break]. The fuel bounds the
    iterations: every loop of the program that uses this consumes input, so one more
    than the input left is enough ([for_break_fuel]). *)
Fixpoint for_break {A} (fuel : nat) (n : Z) (body : A → Flow A) (a : A) : A :=
  if (n <=? 0)%Z then a
  else match fuel with
       | O => a
       | S fuel =>
           match body a with
           | Break a' => a'
           | Continue a' => for_break fuel (n - 1) body a'
           end
       end.

(** Fuel above a measure that [body] decreases changes nothing. *)
Lemma for_break_fuel {A} (μ : A → nat) (body : A → Flow A) :
  (∀ a a', body a = Continue a' → μ a' < μ a) →
  ∀ f1 f2 n a, μ a < f1 → μ a < f2 → for_break f1 n body a = for_break f2 n body a.
Proof.
  intros Hμ f1; induction f1 as [|f1 IH]; intros [|f2] n a H1 H2; try lia.
  cbn. destruct (n <=? 0)%Z; [done|].
  destruct (body a) as [a'|] eqn:E; [|done].
  apply Hμ in E. apply IH; lia.
Qed.

(** The loop counted by the length of a list, one item per iteration. *)
Lemma for_break_nil {A} (body : A → Flow A) fuel a : for_break fuel 0 body a = a.
Proof. by destruct fuel. Qed.

Lemma for_break_cons {A B} (body : A → Flow A) (x : B) (l : list B) fuel a a' :
  body a = Continue a' →
  for_break (S fuel) (len (x :: l)) body a = for_break fuel (len l) body a'.
Proof.
  intros E. cbn [for_break length].
  destruct (Z.leb_spec (Z.of_nat (S (length l))) 0); [lia|]. rewrite E.
  f_equal. lia.
Qed.

(** A property that every iteration keeps. *)
Lemma for_break_inv {A} (P : A → Prop) (body : A → Flow A) fuel n a :
  (∀ x, P x → match body x with Continue y | Break y => P y end) → P a → P (for_break fuel n body a).
Proof.
  intros Hb; revert n a; induction fuel as [|fuel IH]; intros n a Ha; cbn; case_match; try done.
  specialize (Hb a Ha). destruct (body a) as [a'|a']; [|done]. eauto.
Qed.
