(* ===== verification/Bytes.v ===== *)
(** * Bytes: what the program uses of Rust's [u8], [str] and [String]

    - little-endian encodings ([to_le_bytes], [from_le_bytes]);
    - the byte-wise order of [String] keys, which a [BTreeMap] iterates in;
    - UTF-8: [String::from_utf8] and [String::from_utf8_lossy].

    A [String] is modelled by its bytes; that they are valid UTF-8 is the
    predicate [utf8]. *)

From S2P Require Import Prelude.
Local Open Scope Z_scope.

(** ** Little-endian integers *)

Definition to_le_bytes (n : nat) (z : Z) : bytes := le_split n z.
Definition from_le_bytes (b : bytes) : Z := le_combine b.

(** [i64::from_le_bytes] reads the pattern as two's complement. *)
Definition i64_from_le_bytes (b : bytes) : Z := i64_wrap (from_le_bytes b).

Lemma length_to_le_bytes n z : length (to_le_bytes n z) = n.
Proof. apply length_le_split. Qed.
#[export] Hint Rewrite length_to_le_bytes : ob_len.

Lemma take_to_le_bytes n z l : take n (to_le_bytes n z ++ l) = to_le_bytes n z.
Proof. rewrite <- (length_to_le_bytes n z) at 1. apply take_len_app. Qed.
Lemma drop_to_le_bytes n z l : drop n (to_le_bytes n z ++ l) = l.
Proof. rewrite <- (length_to_le_bytes n z) at 1. apply drop_len_app. Qed.

Lemma from_to_le_bytes n z :
  0 <= z < 2 ^ (Z.of_nat n * 8) → from_le_bytes (to_le_bytes n z) = z.
Proof. intros. unfold from_le_bytes, to_le_bytes. rewrite le_combine_split. by apply Z.mod_small. Qed.

Lemma from_to_le_u16 z : is_u16 z → from_le_bytes (to_le_bytes 2 z) = z.
Proof. intros. apply from_to_le_bytes. width_lia. Qed.
Lemma from_to_le_u32 z : is_u32 z → from_le_bytes (to_le_bytes 4 z) = z.
Proof. intros. apply from_to_le_bytes. width_lia. Qed.
Lemma from_to_le_u64 z : is_u64 z → from_le_bytes (to_le_bytes 8 z) = z.
Proof. intros. apply from_to_le_bytes. width_lia. Qed.

Lemma i64_wrap_mod z : is_i64 z → i64_wrap (z mod 2 ^ 64) = z.
Proof.
  intros Hz. unfold i64_wrap.
  rewrite Zplus_mod_idemp_l, Z.mod_small by width_lia. lia.
Qed.

Lemma i64_from_to_le z : is_i64 z → i64_from_le_bytes (to_le_bytes 8 z) = z.
Proof.
  intros Hz. unfold i64_from_le_bytes, from_le_bytes, to_le_bytes.
  rewrite le_combine_split. by apply i64_wrap_mod.
Qed.

Lemma i64_wrap_range z : is_i64 (i64_wrap z).
Proof.
  unfold i64_wrap. pose proof (Z.mod_pos_bound (z + 2 ^ 63) (2 ^ 64)) as H.
  width_lia.
Qed.

Lemma i64_arith_range am z z' : i64_arith am z = Some z' → is_i64 z'.
Proof.
  unfold i64_arith. case_bool_decide; [naive_solver|].
  destruct am; intros [= <-]. apply i64_wrap_range.
Qed.

Lemma i64_arith_exact am z : is_i64 z → i64_arith am z = Some z.
Proof. intros. unfold i64_arith. by rewrite bool_decide_eq_true_2. Qed.

(** A release build always wraps; wrapping a result in range changes nothing. *)
Lemma i64_arith_wrapping z : i64_arith Wrapping z = Some (i64_wrap z).
Proof.
  unfold i64_arith. case_bool_decide as Hi; [|done]. f_equal.
  rewrite <- (i64_wrap_mod z Hi) at 1. unfold i64_wrap. by rewrite Zplus_mod_idemp_l.
Qed.

Lemma i64_wrap_small z : is_i64 z → i64_wrap z = z.
Proof.
  intros Hz. pose proof (i64_arith_exact Wrapping z Hz) as E. rewrite i64_arith_wrapping in E. by injection E.
Qed.

Lemma usize_arith_in am z : is_u64 z → usize_arith am z = Some z.
Proof. intros H. unfold usize_arith. rewrite bool_decide_true; [done|]. width_lia. Qed.

Lemma usize_arith_wrapping z : usize_arith Wrapping z = Some (z mod 2 ^ 64).
Proof.
  unfold usize_arith. case_bool_decide as Hi; [|done]. f_equal. symmetry. apply Z.mod_small. width_lia.
Qed.

Lemma from_le_bytes_range b : 0 <= from_le_bytes b < 2 ^ (8 * len b).
Proof. apply le_combine_bound. Qed.

(** [uN::try_from(n).unwrap_or(uN::MAX)]. *)
Definition try_from_or_max (max n : Z) : Z := if n <=? max then n else max.

Lemma try_from_or_max_small max n : n <= max → try_from_or_max max n = n.
Proof. intros. unfold try_from_or_max. by rewrite (proj2 (Z.leb_le _ _)). Qed.

#[export] Hint Resolve from_to_le_u16 from_to_le_u32 from_to_le_u64 i64_from_to_le
  try_from_or_max_small : ob.

(** The part after the last separator. *)
Lemma split_last_sep (c : byte) a b x y :
  c ∉ x → c ∉ y → a ++ c :: x = b ++ c :: y → a = b ∧ x = y.
Proof.
  intros Hx Hy. revert b; induction a as [|h a IH]; intros [|h' b] E; cbn in E.
  - by injection E.
  - injection E as -> E. destruct Hx. rewrite E. apply elem_of_app. right. constructor.
  - injection E as -> E. destruct Hy. rewrite <- E. apply elem_of_app. right. constructor.
  - injection E as -> E. apply IH in E as [-> ->]. done.
Qed.

(** ** The order of keys *)

Definition byte_val (b : byte) : Z := byte.unsigned b.

Lemma byte_val_range b : 0 <= byte_val b < 256.
Proof. apply byte.unsigned_range. Qed.

Lemma byte_val_inj b1 b2 : byte_val b1 = byte_val b2 → b1 = b2.
Proof. apply byte.unsigned_inj. Qed.

(** [Ord] of [String]: lexicographic on the bytes. *)
Fixpoint bytes_leb (x y : bytes) : bool :=
  match x, y with
  | [], _ => true
  | _ :: _, [] => false
  | a :: x, b :: y =>
      if byte_val a =? byte_val b then bytes_leb x y else byte_val a <? byte_val b
  end.

Definition bytes_le (x y : bytes) : Prop := bytes_leb x y = true.

#[export] Instance bytes_le_dec : RelDecision bytes_le.
Proof. intros x y. unfold bytes_le. apply _. Defined.

Lemma bytes_le_trans x y z : bytes_le x y → bytes_le y z → bytes_le x z.
Proof.
  unfold bytes_le. revert y z.
  induction x as [|a x IH]; intros [|b y] [|c z]; cbn; try done.
  repeat match goal with |- context [Z.eqb ?u ?v] => destruct (Z.eqb_spec u v) end;
    rewrite ?Z.ltb_lt; try lia; eauto.
Qed.

Lemma bytes_le_total x y : bytes_le x y ∨ bytes_le y x.
Proof.
  unfold bytes_le. revert y; induction x as [|a x IH]; intros [|b y]; cbn; auto.
  rewrite (Z.eqb_sym (byte_val b)). destruct (Z.eqb_spec (byte_val a) (byte_val b)).
  - apply IH.
  - rewrite !Z.ltb_lt. lia.
Qed.

Lemma bytes_le_antisymm x y : bytes_le x y → bytes_le y x → x = y.
Proof.
  unfold bytes_le. revert y; induction x as [|a x IH]; intros [|b y]; cbn; try done.
  rewrite (Z.eqb_sym (byte_val b)). destruct (Z.eqb_spec (byte_val a) (byte_val b)) as [E|].
  - apply byte_val_inj in E as ->. intros. f_equal. by apply IH.
  - rewrite !Z.ltb_lt. lia.
Qed.

#[export] Instance bytes_key_order : KeyOrder bytes := {|
  key_le := bytes_le;
  key_le_trans := bytes_le_trans;
  key_le_total := bytes_le_total;
  key_le_antisymm := bytes_le_antisymm;
|}.

(** ** UTF-8 *)

Definition in_range (lo hi : Z) (b : byte) : bool :=
  (lo <=? byte_val b) && (byte_val b <=? hi).

(** The ranges the bytes after a leading byte must fall in; [None] when no
    character starts with this byte. *)
Definition continuation (b : byte) : option (list (Z * Z)) :=
  let c := (128, 191) in
  if in_range 0 127 b then Some []
  else if in_range 194 223 b then Some [c]
  else if in_range 224 224 b then Some [(160, 191); c]
  else if in_range 237 237 b then Some [(128, 159); c]
  else if in_range 225 239 b then Some [c; c]
  else if in_range 240 240 b then Some [(144, 191); c; c]
  else if in_range 241 243 b then Some [c; c; c]
  else if in_range 244 244 b then Some [(128, 143); c; c]
  else None.

(** Consume the continuation bytes: what was consumed, the rest, and whether the
    character is complete. *)
Fixpoint continue_char (rs : list (Z * Z)) (l : bytes) : bytes * bytes * bool :=
  match rs with
  | [] => ([], l, true)
  | (lo, hi) :: rs =>
      match l with
      | [] => ([], [], false)
      | b :: l' =>
          if in_range lo hi b then
            let '(c, r, ok) := continue_char rs l' in (b :: c, r, ok)
          else ([], l, false)
      end
  end.

(** The first chunk of a byte string: a whole character ([true]) or the maximal
    prefix of a broken one ([false]), with the rest. *)
Definition next_chunk (b : byte) (l : bytes) : bytes * bytes * bool :=
  match continuation b with
  | None => ([b], l, false)
  | Some rs => let '(c, r, ok) := continue_char rs l in (b :: c, r, ok)
  end.

Fixpoint chunks_fuel (fuel : nat) (l : bytes) : list (bytes * bool) :=
  match fuel, l with
  | S fuel, b :: l =>
      let '(c, r, ok) := next_chunk b l in (c, ok) :: chunks_fuel fuel r
  | _, _ => []
  end.

Definition utf8_chunks (l : bytes) : list (bytes * bool) := chunks_fuel (length l) l.

(** [str::from_utf8(b).is_ok()] *)
Definition utf8_valid (l : bytes) : bool := forallb snd (utf8_chunks l).
Definition utf8 (l : bytes) : Prop := utf8_valid l = true.

(** [String::from_utf8(b).ok()] *)
Definition from_utf8 (l : bytes) : option bytes := if utf8_valid l then Some l else None.

(** U+FFFD, the replacement character. *)
Definition replacement : bytes := [Byte.xef; Byte.xbf; Byte.xbd].

(** [String::from_utf8_lossy] *)
Definition from_utf8_lossy (l : bytes) : bytes :=
  concat (map (λ ch : bytes * bool, if ch.2 then ch.1 else replacement) (utf8_chunks l)).

(** The characters of a valid string, each as its bytes. *)
Definition chars (l : bytes) : list bytes := map fst (utf8_chunks l).

#[export] Instance utf8_dec l : Decision (utf8 l).
Proof. unfold utf8. apply _. Defined.

#[global] Arguments utf8_chunks : simpl never.

Section Utf8.
Implicit Types l c r : bytes.

Lemma continue_char_app rs l c r ok : continue_char rs l = (c, r, ok) → l = c ++ r.
Proof.
  revert l c r ok; induction rs as [|[lo hi] rs IH]; intros l c r ok; cbn.
  - intros. by inv_all.
  - destruct l as [|b l]; [intros; by inv_all|].
    destruct (in_range lo hi b); [|intros; by inv_all].
    destruct (continue_char rs l) as [[c' r'] ok'] eqn:E.
    intros. inv_all. cbn. f_equal. eauto.
Qed.

Lemma continue_char_extend rs l c r r' :
  continue_char rs l = (c, r, true) → continue_char rs (c ++ r') = (c, r', true).
Proof.
  revert l c r; induction rs as [|[lo hi] rs IH]; intros l c r; cbn.
  - intros. by inv_all.
  - destruct l as [|b l]; [done|].
    destruct (in_range lo hi b) eqn:Hb; [|done].
    destruct (continue_char rs l) as [[c' s'] ok'] eqn:E.
    intros. inv_all. cbn. by rewrite Hb, (IH _ _ _ E).
Qed.

Lemma next_chunk_app b l c r ok :
  next_chunk b l = (c, r, ok) → b :: l = c ++ r ∧ ∃ c', c = b :: c'.
Proof.
  unfold next_chunk. destruct (continuation b) as [rs|].
  - destruct (continue_char rs l) as [[c' s'] ok'] eqn:E.
    intros. inv_all. apply continue_char_app in E as ->. eauto.
  - intros. inv_all. eauto.
Qed.

(** A byte sequence that is one character. *)
Definition is_char (c : bytes) : Prop :=
  ∃ b l, c = b :: l ∧ next_chunk b l = (c, [], true).

Lemma next_chunk_is_char b l c r : next_chunk b l = (c, r, true) → is_char c.
Proof.
  unfold is_char, next_chunk. destruct (continuation b) as [rs|] eqn:Hc; [|done].
  destruct (continue_char rs l) as [[c' s'] ok'] eqn:E. intros. inv_all.
  exists b, c'. rewrite Hc. pose proof (continue_char_extend _ _ _ _ [] E) as E'.
  rewrite app_nil_r in E'. by rewrite E'.
Qed.

Lemma is_char_next b c' r : is_char (b :: c') → next_chunk b (c' ++ r) = (b :: c', r, true).
Proof.
  intros (b0 & l & [= <- <-] & E). unfold next_chunk in *.
  destruct (continuation b) as [rs|]; [|done].
  destruct (continue_char rs c') as [[c s] ok] eqn:Ec. inv_all.
  by rewrite (continue_char_extend _ _ _ _ r Ec).
Qed.

Lemma chunks_fuel_irrel f l : (length l ≤ f)%nat → chunks_fuel f l = utf8_chunks l.
Proof.
  unfold utf8_chunks. remember (length l) as n eqn:Hn. revert f l Hn.
  induction n as [n IH] using lt_wf_ind. intros f l Hn Hf.
  destruct l as [|b l]; [subst; by destruct f|].
  destruct f as [|f]; [cbn in Hn; lia|]. subst. cbn [length chunks_fuel].
  destruct (next_chunk b l) as [[c r] ok] eqn:E. f_equal.
  apply next_chunk_app in E as [E [c' ->]]. injection E as El. subst.
  rewrite (IH (length r)), <- (IH (length r) ltac:(len_lia) (length (c' ++ r)));
    solve [done | len_lia].
Qed.

Lemma utf8_chunks_cons b l c r ok :
  next_chunk b l = (c, r, ok) → utf8_chunks (b :: l) = (c, ok) :: utf8_chunks r.
Proof.
  intros E. unfold utf8_chunks at 1. cbn [length chunks_fuel]. rewrite E. f_equal.
  apply chunks_fuel_irrel. apply next_chunk_app in E as [E [c' ->]].
  injection E as ->. len_lia.
Qed.

(** Induction along the chunks of a string. *)
Lemma chunk_ind (P : bytes → Prop) :
  P [] →
  (∀ b l c r ok, next_chunk b l = (c, r, ok) → b :: l = c ++ r → P r → P (b :: l)) →
  ∀ l, P l.
Proof.
  intros H0 HS l. remember (length l) as n eqn:Hn. revert l Hn.
  induction n as [n IH] using lt_wf_ind. intros [|b l] ->; [done|].
  destruct (next_chunk b l) as [[c r] ok] eqn:E.
  pose proof (next_chunk_app _ _ _ _ _ E) as [Ea [c' ->]].
  eapply HS; [done|done|]. apply (IH (length r)); [|done].
  injection Ea as ->. len_lia.
Qed.

Lemma concat_utf8_chunks l : concat (map fst (utf8_chunks l)) = l.
Proof.
  induction l as [|b l c r ok E Ea IH] using chunk_ind; [done|].
  rewrite (utf8_chunks_cons _ _ _ _ _ E). cbn. rewrite IH. done.
Qed.

Lemma concat_chars l : concat (chars l) = l.
Proof. apply concat_utf8_chunks. Qed.

Lemma utf8_chunks_chars cs :
  Forall is_char cs → utf8_chunks (concat cs) = map (λ c, (c, true)) cs.
Proof.
  induction 1 as [|c cs Hc _ IH]; [done|].
  destruct Hc as (b & l & -> & E). cbn.
  rewrite (utf8_chunks_cons b (l ++ concat cs) (b :: l) (concat cs) true).
  - by rewrite IH.
  - apply is_char_next. by exists b, l.
Qed.

Lemma chars_is_char l : utf8 l → Forall is_char (chars l).
Proof.
  unfold utf8, utf8_valid, chars.
  induction l as [|b l c r ok E Ea IH] using chunk_ind; [constructor|].
  rewrite (utf8_chunks_cons _ _ _ _ _ E). cbn. intros [-> H]%andb_prop.
  constructor; [by eapply next_chunk_is_char | by apply IH].
Qed.

Lemma utf8_concat cs : Forall is_char cs → utf8 (concat cs).
Proof.
  intros H. unfold utf8, utf8_valid. rewrite utf8_chunks_chars by done.
  clear. induction cs; done.
Qed.

Lemma chars_concat cs : Forall is_char cs → chars (concat cs) = cs.
Proof.
  intros H. unfold chars. rewrite utf8_chunks_chars by done.
  rewrite map_map. apply map_id.
Qed.

Lemma utf8_app l1 l2 : utf8 l1 → utf8 l2 → utf8 (l1 ++ l2).
Proof.
  intros H1 H2. rewrite <- (concat_chars l1), <- (concat_chars l2), <- concat_app.
  apply utf8_concat, Forall_app. split; by apply chars_is_char.
Qed.

Lemma chars_app l1 l2 : utf8 l1 → utf8 l2 → chars (l1 ++ l2) = chars l1 ++ chars l2.
Proof.
  intros H1 H2. rewrite <- (concat_chars l1), <- (concat_chars l2) at 1.
  rewrite <- concat_app. apply chars_concat, Forall_app. split; by apply chars_is_char.
Qed.

Definition is_ascii (b : byte) : Prop := byte_val b < 128.

Lemma ascii_is_char b : is_ascii b → is_char [b].
Proof.
  intros H. exists b, []. unfold next_chunk, continuation, in_range.
  pose proof (byte_val_range b). unfold is_ascii in H.
  by rewrite !(proj2 (Z.leb_le _ _)) by lia.
Qed.

Lemma utf8_ascii l : Forall is_ascii l → utf8 l.
Proof.
  intros H. replace l with (concat (map (λ b, [b]) l)).
  - apply utf8_concat, Forall_map. eapply Forall_impl; [exact H|]. apply ascii_is_char.
  - clear. induction l; cbn; congruence.
Qed.

Lemma chars_ascii l : Forall is_ascii l → chars l = map (λ b, [b]) l.
Proof.
  intros H. assert (E : l = concat (map (λ b, [b]) l)).
  { clear. induction l; cbn; congruence. }
  rewrite E at 1. apply chars_concat, Forall_map.
  eapply Forall_impl; [exact H|]. apply ascii_is_char.
Qed.

Lemma utf8_nil : utf8 [].
Proof. done. Qed.

Lemma replacement_char : is_char replacement.
Proof. by do 2 eexists. Qed.

Lemma from_utf8_valid l : utf8 l → from_utf8 l = Some l.
Proof. unfold utf8, from_utf8. by intros ->. Qed.

Lemma from_utf8_Some l s : from_utf8 l = Some s → s = l ∧ utf8 l.
Proof. unfold from_utf8, utf8. destruct (utf8_valid l); naive_solver. Qed.

(** [from_utf8_lossy] always produces a valid string ... *)
Lemma utf8_lossy l : utf8 (from_utf8_lossy l).
Proof.
  unfold from_utf8_lossy. apply utf8_concat.
  induction l as [|b l c r ok E Ea IH] using chunk_ind; [constructor|].
  rewrite (utf8_chunks_cons _ _ _ _ _ E). cbn. constructor; [|done].
  destruct ok; [by eapply next_chunk_is_char|apply replacement_char].
Qed.

(** ... and is the identity on a valid one. *)
Lemma lossy_valid l : utf8 l → from_utf8_lossy l = l.
Proof.
  unfold utf8, utf8_valid, from_utf8_lossy.
  induction l as [|b l c r ok E Ea IH] using chunk_ind; [done|].
  rewrite (utf8_chunks_cons _ _ _ _ _ E). cbn. intros [-> H]%andb_prop.
  by rewrite (IH H).
Qed.
End Utf8.

#[export] Hint Resolve utf8_app utf8_nil utf8_lossy from_utf8_valid : ob.
