(* ===== verification/Text.v ===== *)
(** * Text: what the program uses of Rust's [str] and number formatting

    [trim], [split_whitespace], [split], [splitn] and the ASCII case functions;
    [i64::to_string] with [str::parse], and their round trip. *)

From S2P Require Import Prelude Bytes.
Local Open Scope Z_scope.

(** ** Single bytes *)

Definition CR : byte := Byte.x0d.
Definition LF : byte := Byte.x0a.
Definition SP : byte := Byte.x20.
Definition CRLF : bytes := [CR; LF].

(** [u8::is_ascii_whitespace] *)
Definition is_ascii_whitespace (b : byte) : bool :=
  bool_decide (b ∈ [Byte.x20; Byte.x09; Byte.x0a; Byte.x0c; Byte.x0d]).

Definition ascii_upper (b : byte) : byte :=
  if in_range 97 122 b then byte.of_Z (byte_val b - 32) else b.
Definition ascii_lower (b : byte) : byte :=
  if in_range 65 90 b then byte.of_Z (byte_val b + 32) else b.

Definition to_ascii_uppercase (l : bytes) : bytes := map ascii_upper l.
Definition to_ascii_lowercase (l : bytes) : bytes := map ascii_lower l.
Definition eq_ignore_ascii_case (x y : bytes) : bool :=
  bool_decide (to_ascii_lowercase x = to_ascii_lowercase y).

(** [s.starts_with(p)] *)
Fixpoint starts_with (p s : bytes) : bool :=
  match p, s with
  | [], _ => true
  | a :: p, b :: s => bool_decide (a = b) && starts_with p s
  | _, _ => false
  end.

(** ** Splitting *)

(** [s.split(f)]: the pieces between the items [f] accepts. *)
Fixpoint split_on {A} (f : A → bool) (l : list A) : list (list A) :=
  match l with
  | [] => [[]]
  | x :: l =>
      match split_on f l with
      | p :: ps => if f x then [] :: p :: ps else (x :: p) :: ps
      | [] => [[]]
      end
  end.

(** [.filter(|s| !s.is_empty())] *)
Definition nonempty {A} (ps : list (list A)) : list (list A) :=
  List.filter (λ p, match p with [] => false | _ => true end) ps.

(** Split at the first [k] occurrences of [c]. *)
Fixpoint split_seps (k : nat) (c : byte) (l : bytes) : list bytes :=
  match l, k with
  | [], _ => [[]]
  | _, O => [l]
  | x :: l, S k' =>
      if bool_decide (x = c) then [] :: split_seps k' c l
      else match split_seps k c l with
           | p :: ps => (x :: p) :: ps
           | [] => [[x]]
           end
  end.

(** [s.splitn(n, c)]: at most [n] pieces, the last holding the rest. *)
Definition splitn (n : nat) (c : byte) (l : bytes) : list bytes :=
  match n with O => [] | S k => split_seps k c l end.

(** ** White space *)

(** The characters with the Unicode property White_Space ([char::is_whitespace]). *)
Definition whitespace : list bytes :=
  map (λ b, [b]) [Byte.x09; Byte.x0a; Byte.x0b; Byte.x0c; Byte.x0d; Byte.x20] ++
  [[Byte.xc2; Byte.x85]; [Byte.xc2; Byte.xa0]; [Byte.xe1; Byte.x9a; Byte.x80]] ++
  map (λ b, [Byte.xe2; Byte.x80; b])
    [Byte.x80; Byte.x81; Byte.x82; Byte.x83; Byte.x84; Byte.x85; Byte.x86; Byte.x87;
     Byte.x88; Byte.x89; Byte.x8a; Byte.xa8; Byte.xa9; Byte.xaf] ++
  [[Byte.xe2; Byte.x81; Byte.x9f]; [Byte.xe3; Byte.x80; Byte.x80]].

Definition is_whitespace (c : bytes) : bool := bool_decide (c ∈ whitespace).

Fixpoint drop_while {A} (f : A → bool) (l : list A) : list A :=
  match l with
  | [] => []
  | x :: l' => if f x then drop_while f l' else l
  end.

Definition drop_while_end {A} (f : A → bool) (l : list A) : list A :=
  rev (drop_while f (rev l)).

(** [str::trim] and [str::trim_end] *)
Definition trim (s : bytes) : bytes :=
  concat (drop_while_end is_whitespace (drop_while is_whitespace (chars s))).
Definition trim_end (s : bytes) : bytes :=
  concat (drop_while_end is_whitespace (chars s)).

(** [str::split_whitespace] *)
Definition split_whitespace (s : bytes) : list bytes :=
  map (λ cs, concat cs) (nonempty (split_on is_whitespace (chars s))).

(** ** Decimal numbers *)

Definition digit (z : Z) : byte := byte.of_Z (48 + z).
Definition digit_val (b : byte) : option Z :=
  if in_range 48 57 b then Some (byte_val b - 48) else None.

(** The digits of [z >= 0], most significant first. *)
Fixpoint dec_digits (fuel : nat) (z : Z) : bytes :=
  match fuel with
  | O => []
  | S fuel => if z <? 10 then [digit z] else dec_digits fuel (z / 10) ++ [digit (z mod 10)]
  end.

Definition nat_to_string (z : Z) : bytes := dec_digits (S (Z.to_nat (Z.log2 z))) z.

(** [z.to_string()] *)
Definition to_string (z : Z) : bytes :=
  if z <? 0 then Byte.x2d :: nat_to_string (- z) else nat_to_string z.

Fixpoint digits_val (acc : Z) (l : bytes) : option Z :=
  match l with
  | [] => Some acc
  | b :: l => d ← digit_val b; digits_val (acc * 10 + d) l
  end.

(** The digits of a number after its sign: at least one. *)
Definition parse_digits (l : bytes) : option Z :=
  match l with [] => None | _ => digits_val 0 l end.

Definition check_range (lo hi : Z) (z : Z) : option Z :=
  if (lo <=? z) && (z <=? hi) then Some z else None.

Definition MINUS : byte := Byte.x2d.
Definition COLON : byte := Byte.x3a.
Definition PLUS : byte := Byte.x2b.

(** [s.parse::<i64>().ok()]: an optional sign, then digits, within range. *)
Definition parse_i64 (s : bytes) : option Z :=
  match s with
  | [] => None
  | b :: l =>
      if bool_decide (b = MINUS) then
        z ← parse_digits l; check_range I64_MIN I64_MAX (- z)
      else
        z ← parse_digits (if bool_decide (b = PLUS) then l else s);
        check_range I64_MIN I64_MAX z
  end.

(** [s.parse::<usize>().ok()] (64-bit): no sign but [+] is accepted. *)
Definition parse_usize (s : bytes) : option Z :=
  match s with
  | [] => None
  | b :: l =>
      z ← parse_digits (if bool_decide (b = PLUS) then l else s);
      check_range 0 U64_MAX z
  end.

(** [str::from_utf8(v).ok()?.trim().parse().ok()] *)
Definition parse_trimmed (v : bytes) : option Z :=
  s ← from_utf8 v; parse_i64 (trim s).
(** [str::from_utf8(v).ok().and_then(|s| s.parse().ok())] *)
Definition parse_untrimmed (v : bytes) : option Z :=
  s ← from_utf8 v; parse_i64 s.

(** ** Lemmas: printing and parsing decimals *)

#[global] Arguments nat_to_string : simpl never.
#[global] Arguments to_string : simpl never.
#[global] Arguments parse_digits : simpl never.
#[global] Arguments chars : simpl never.

Definition is_digit (b : byte) : Prop := 48 <= byte_val b <= 57.

Lemma byte_val_digit d : 0 <= d < 10 → byte_val (digit d) = 48 + d.
Proof.
  intros. unfold byte_val, digit. rewrite byte.unsigned_of_Z.
  unfold byte.wrap. apply Z.mod_small. lia.
Qed.

Lemma digit_val_digit d : 0 <= d < 10 → digit_val (digit d) = Some d.
Proof.
  intros. unfold digit_val, in_range. rewrite byte_val_digit by done.
  rewrite !(proj2 (Z.leb_le _ _)) by lia. cbn. f_equal. lia.
Qed.

Lemma digits_val_app acc l1 l2 :
  digits_val acc (l1 ++ l2) = digits_val acc l1 ≫= λ a, digits_val a l2.
Proof.
  revert acc; induction l1 as [|b l1 IH]; intros acc; [done|].
  cbn. destruct (digit_val b); [apply IH|done].
Qed.

Lemma div10_bound f z : 0 <= z < 2 ^ Z.of_nat (S f) → 10 <= z → 0 <= z / 10 < 2 ^ Z.of_nat f.
Proof.
  intros H Hz. rewrite Nat2Z.inj_succ, Z.pow_succ_r in H by lia.
  split; [apply Z.div_pos; lia|]. apply Z.div_lt_upper_bound; lia.
Qed.

Lemma dec_digits_val f z : 0 <= z < 2 ^ Z.of_nat f → digits_val 0 (dec_digits f z) = Some z.
Proof.
  revert z; induction f as [|f IH]; intros z Hz; cbn [dec_digits].
  - assert (z = 0) as -> by (cbn in Hz; lia). done.
  - destruct (Z.ltb_spec z 10).
    + cbn. rewrite digit_val_digit by lia. done.
    + rewrite digits_val_app, IH by (apply div10_bound; lia).
      cbn. rewrite digit_val_digit by (apply Z.mod_pos_bound; lia).
      cbn. f_equal. pose proof (Z.div_mod z 10). lia.
Qed.

Lemma dec_digits_digit f z : 0 <= z → Forall is_digit (dec_digits f z).
Proof.
  revert z; induction f as [|f IH]; intros z Hz; cbn [dec_digits]; [constructor|].
  unfold is_digit. destruct (Z.ltb_spec z 10).
  - constructor; [|constructor]. rewrite byte_val_digit; lia.
  - apply Forall_snoc_iff. split; [apply IH, Z.div_pos; lia|].
    pose proof (Z.mod_pos_bound z 10). rewrite byte_val_digit; lia.
Qed.

Lemma dec_digits_length f z k :
  0 <= z < 10 ^ Z.of_nat (S k) → (length (dec_digits f z) ≤ S k)%nat.
Proof.
  revert z k; induction f as [|f IH]; intros z k Hz; cbn [dec_digits]; [cbn; lia|].
  destruct (Z.ltb_spec z 10); [cbn; lia|].
  destruct k as [|k]; [cbn in Hz; lia|].
  rewrite length_app; cbn [length]. enough (length (dec_digits f (z / 10)) ≤ S k)%nat by lia.
  apply IH. rewrite (Nat2Z.inj_succ (S k)), Z.pow_succ_r in Hz by lia.
  split; [apply Z.div_pos; lia|]. apply Z.div_lt_upper_bound; lia.
Qed.

Lemma nat_to_string_cons z : ∃ b l, nat_to_string z = b :: l.
Proof.
  unfold nat_to_string. cbn [dec_digits]. destruct (z <? 10); [eauto|].
  destruct (dec_digits _ (z / 10)); cbn; eauto.
Qed.

Lemma log2_bound z : 0 <= z → 0 <= z < 2 ^ Z.of_nat (S (Z.to_nat (Z.log2 z))).
Proof.
  intros Hz. rewrite Nat2Z.inj_succ, Z2Nat.id by apply Z.log2_nonneg.
  destruct (decide (z = 0)) as [->|]; [done|].
  pose proof (Z.log2_spec z). lia.
Qed.

Lemma parse_nat_to_string z : 0 <= z → parse_digits (nat_to_string z) = Some z.
Proof.
  intros Hz. pose proof (nat_to_string_cons z) as (b & l & E).
  unfold parse_digits. rewrite E, <- E.
  apply dec_digits_val, log2_bound, Hz.
Qed.

Lemma nat_to_string_digit z : 0 <= z → Forall is_digit (nat_to_string z).
Proof. apply dec_digits_digit. Qed.

Lemma check_range_ok lo hi z : lo <= z <= hi → check_range lo hi z = Some z.
Proof. intros. unfold check_range. by rewrite !(proj2 (Z.leb_le _ _)) by lia. Qed.

Lemma digit_not_sign b : is_digit b → b ≠ MINUS ∧ b ≠ PLUS.
Proof. intros [H1 H2]. split; intros ->; by vm_compute in H1; apply H1. Qed.

Lemma parse_i64_to_string z : is_i64 z → parse_i64 (to_string z) = Some z.
Proof.
  intros Hz. unfold to_string. destruct (Z.ltb_spec z 0).
  - cbn. rewrite bool_decide_eq_true_2 by done. rewrite parse_nat_to_string by lia.
    cbn. rewrite Z.opp_involutive. by apply check_range_ok.
  - pose proof (nat_to_string_cons z) as (b & l & E).
    pose proof (nat_to_string_digit z ltac:(lia)) as Hd. rewrite E in Hd.
    apply Forall_cons in Hd as [[Hm Hp]%digit_not_sign _].
    unfold parse_i64. rewrite E. rewrite !bool_decide_eq_false_2 by done. rewrite <- E.
    rewrite parse_nat_to_string by lia. by apply check_range_ok.
Qed.

Lemma parse_usize_to_string z : is_u64 z → parse_usize (to_string z) = Some z.
Proof.
  intros Hz. unfold to_string. destruct (Z.ltb_spec z 0); [width_lia|].
  pose proof (nat_to_string_cons z) as (b & l & E).
  pose proof (nat_to_string_digit z ltac:(lia)) as Hd. rewrite E in Hd.
  apply Forall_cons in Hd as [[Hm Hp]%digit_not_sign _].
  unfold parse_usize. rewrite E. rewrite !bool_decide_eq_false_2 by done. rewrite <- E.
  rewrite parse_nat_to_string by lia. by apply check_range_ok.
Qed.

Lemma length_to_string z : is_i64 z → len (to_string z) <= 20.
Proof.
  intros Hz. assert (Hl : ∀ x, 0 <= x <= 2 ^ 63 → (length (nat_to_string x) ≤ 19)%nat).
  { intros x Hx. apply (dec_digits_length _ _ 18). lia. }
  unfold to_string. destruct (Z.ltb_spec z 0); cbn [length];
    [specialize (Hl (- z)) | specialize (Hl z)]; width_lia.
Qed.

(** ASCII bytes that are not white space, as the digits and the sign are. *)
Definition plain (b : byte) : Prop := is_ascii b ∧ is_whitespace [b] = false.

Lemma digit_plain b : is_digit b → plain b.
Proof.
  intros [H1 H2]. split; [unfold is_ascii; lia|].
  destruct b; first [reflexivity | by vm_compute in H1; destruct H1 | by vm_compute in H2; destruct H2].
Qed.

Lemma to_string_plain z : Forall plain (to_string z).
Proof.
  unfold to_string. destruct (Z.ltb_spec z 0).
  - constructor; [done|]. eapply Forall_impl; [apply nat_to_string_digit; lia|]. apply digit_plain.
  - eapply Forall_impl; [by apply nat_to_string_digit|]. apply digit_plain.
Qed.

Lemma plain_ascii l : Forall plain l → Forall is_ascii l.
Proof. intros H. eapply Forall_impl; [exact H|]. by intros ? []. Qed.

Lemma utf8_to_string z : utf8 (to_string z).
Proof. apply utf8_ascii, plain_ascii, to_string_plain. Qed.

Lemma drop_while_none {A} (f : A → bool) l : Forall (λ x, f x = false) l → drop_while f l = l.
Proof. intros [|x l' H _]; cbn; [done|]. by rewrite H. Qed.

Lemma concat_singletons (l : bytes) : concat (map (λ b, [b]) l) = l.
Proof. induction l; cbn; congruence. Qed.

Lemma trim_plain l : Forall plain l → trim l = l.
Proof.
  intros H. unfold trim, drop_while_end. rewrite chars_ascii by by apply plain_ascii.
  assert (Hw : Forall (λ c, is_whitespace c = false) (map (λ b, [b]) l)).
  { apply Forall_map. eapply Forall_impl; [exact H|]. by intros ? []. }
  rewrite (drop_while_none _ _ Hw), drop_while_none by by apply Forall_rev.
  rewrite rev_involutive. apply concat_singletons.
Qed.

Lemma trim_to_string z : trim (to_string z) = to_string z.
Proof. apply trim_plain, to_string_plain. Qed.

Lemma parse_trimmed_to_string z : is_i64 z → parse_trimmed (to_string z) = Some z.
Proof.
  intros. unfold parse_trimmed. rewrite from_utf8_valid by apply utf8_to_string. cbn.
  rewrite trim_to_string. by apply parse_i64_to_string.
Qed.

Lemma parse_untrimmed_to_string z : is_i64 z → parse_untrimmed (to_string z) = Some z.
Proof.
  intros. unfold parse_untrimmed. rewrite from_utf8_valid by apply utf8_to_string. cbn.
  by apply parse_i64_to_string.
Qed.

(** A parsed integer is in range. *)
Lemma check_range_Some lo hi z z' : check_range lo hi z = Some z' → z' = z ∧ lo <= z <= hi.
Proof.
  unfold check_range. destruct (Z.leb_spec lo z), (Z.leb_spec z hi); cbn; naive_solver.
Qed.

Lemma parse_i64_range s z : parse_i64 s = Some z → is_i64 z.
Proof.
  destruct s as [|b l]; [done|]. unfold parse_i64.
  destruct (bool_decide (b = MINUS)); intros (x & _ & [-> ?]%check_range_Some)%bind_Some; done.
Qed.

Lemma parse_trimmed_range v z : parse_trimmed v = Some z → is_i64 z.
Proof. intros (s & _ & H)%bind_Some. by eapply parse_i64_range. Qed.

Lemma to_string_inj z1 z2 : is_i64 z1 → is_i64 z2 → to_string z1 = to_string z2 → z1 = z2.
Proof.
  intros H1 H2 E. apply parse_i64_to_string in H1, H2. congruence.
Qed.

Lemma to_string_no_colon z : COLON ∉ to_string z.
Proof.
  intros Hin. assert (HF : Forall (λ b, is_digit b ∨ b = MINUS) (to_string z)).
  { unfold to_string. destruct (Z.ltb_spec z 0); [constructor; [by right|]|];
      (eapply Forall_impl; [apply nat_to_string_digit; lia|]; auto). }
  rewrite Forall_forall in HF. apply HF in Hin as [[_ H]|H]; [by vm_compute in H|done].
Qed.

#[export] Hint Resolve utf8_to_string parse_trimmed_to_string parse_untrimmed_to_string
  parse_trimmed_range : ob.

(** ** Lemmas: splitting *)

Lemma split_on_cons {A} (f : A → bool) l : ∃ p ps, split_on f l = p :: ps.
Proof.
  induction l as [|x l (p & ps & IH)]; cbn; [eauto|]. rewrite IH. destruct (f x); eauto.
Qed.

Lemma split_on_sep {A} (f : A → bool) a x b :
  Forall (λ y, f y = false) a → f x = true → split_on f (a ++ x :: b) = a :: split_on f b.
Proof.
  intros Ha Hx. destruct (split_on_cons f b) as (p & ps & E).
  induction Ha as [|y a Hy _ IH]; cbn [app split_on]; [by rewrite E, Hx|]. by rewrite IH, Hy.
Qed.

(** A token: what white space separates. *)
Definition token (t : bytes) : Prop := t ≠ [] ∧ Forall plain t.

#[export] Instance plain_dec b : Decision (plain b).
Proof. unfold plain, is_ascii. apply _. Defined.
#[export] Instance token_dec t : Decision (token t).
Proof. unfold token. apply _. Defined.

(** Tokens separated by one space; a line of them. *)
Definition joined (ts : list bytes) : bytes :=
  match ts with
  | [] => []
  | t :: ts => t ++ concat (map (λ u, SP :: u) ts)
  end.
Definition line_of (ts : list bytes) : bytes := joined ts ++ [LF].

Lemma joined_ascii ts : Forall token ts → Forall is_ascii (joined ts).
Proof.
  intros H. destruct H as [|t ts [_ Ht] Hts]; [constructor|]. apply Forall_app. split; [by apply plain_ascii|].
  induction Hts as [|u ts [_ Hu] _ IH]; cbn; constructor; [done|].
  apply Forall_app. split; [by apply plain_ascii|done].
Qed.

Lemma line_of_ascii ts : Forall token ts → Forall is_ascii (line_of ts).
Proof. intros H. apply Forall_app. split; [by apply joined_ascii|by repeat constructor]. Qed.

Lemma joined_no_lf ts : Forall token ts → LF ∉ joined ts.
Proof.
  intros H Hin.
  assert (Hlf : ∀ t, token t → LF ∉ t).
  { intros t [_ Ht] Hx. rewrite Forall_forall in Ht. apply Ht in Hx as [_ Hx]. by vm_compute in Hx. }
  destruct H as [|t ts Ht Hts]; [by apply elem_of_nil in Hin|].
  apply elem_of_app in Hin as [Hin|Hin]; [by apply (Hlf t)|].
  induction Hts as [|u ts Hu _ IH]; cbn in Hin; [by apply elem_of_nil in Hin|].
  apply elem_of_cons in Hin as [?|Hin]; [done|]. apply elem_of_app in Hin as [Hin|Hin]; [by apply (Hlf u)|auto].
Qed.

Lemma line_of_no_lf ts : Forall token ts → ∃ l, line_of ts = l ++ [LF] ∧ LF ∉ l.
Proof. intros H. exists (joined ts). split; [done|by apply joined_no_lf]. Qed.

Abbreviation singletons := (map (λ b : byte, [b])).

Lemma split_line_of t ts :
  Forall token (t :: ts) →
  split_on is_whitespace (singletons (line_of (t :: ts))) = map (λ u, singletons u) (t :: ts) ++ [[]].
Proof.
  intros HF. apply Forall_cons in HF as [[_ Ht] Hts].
  assert (Hw : ∀ u, Forall plain u → Forall (λ c, is_whitespace c = false) (singletons u)).
  { intros u Hu. apply Forall_map. eapply Forall_impl; [exact Hu|]. by intros b []. }
  unfold line_of, joined. rewrite <- app_assoc, map_app. revert t Ht.
  induction Hts as [|u ts [_ Hu] _ IH]; intros t Ht; cbn [map concat app].
  - rewrite split_on_sep by (done || by apply Hw). done.
  - rewrite split_on_sep by (done || by apply Hw). f_equal.
    rewrite <- app_assoc, map_app. by apply IH.
Qed.

(** Splitting such a line gives its tokens. *)
Lemma split_whitespace_line_of ts : Forall token ts → split_whitespace (line_of ts) = ts.
Proof.
  intros HF. unfold split_whitespace. rewrite chars_ascii by by apply line_of_ascii.
  destruct ts as [|t ts]; [done|]. rewrite split_line_of by done.
  unfold nonempty. rewrite List.filter_app. cbn [List.filter]. rewrite app_nil_r.
  induction HF as [|u l [Hu _] _ IH]; [done|]. cbn [map List.filter].
  destruct u as [|b u]; [done|]. cbn [map]. rewrite IH. f_equal. exact (concat_singletons (b :: u)).
Qed.

Lemma split_seps_none k c l : c ∉ l → split_seps k c l = [l].
Proof.
  revert k; induction l as [|x l IH]; intros [|k] Hn; try done. apply not_elem_of_cons in Hn as [Hx Hn].
  cbn. rewrite bool_decide_false by congruence. by rewrite IH.
Qed.

Lemma split_seps_sep k c a b : c ∉ a → split_seps (S k) c (a ++ c :: b) = a :: split_seps k c b.
Proof.
  intros Hn. induction a as [|x a IH].
  - cbn. by rewrite bool_decide_true.
  - apply not_elem_of_cons in Hn as [Hx Hn]. cbn [app split_seps].
    rewrite bool_decide_false by congruence. by rewrite IH.
Qed.

Lemma trim_end_plain l : Forall plain l → trim_end l = l.
Proof.
  intros H. unfold trim_end, drop_while_end. rewrite chars_ascii by by apply plain_ascii.
  assert (Hw : Forall (λ c, is_whitespace c = false) (map (λ b, [b]) l)).
  { apply Forall_map. eapply Forall_impl; [exact H|]. by intros ? []. }
  rewrite drop_while_none by by apply Forall_rev. rewrite rev_involutive. apply concat_singletons.
Qed.

Lemma token_no b t : token t → ¬ plain b → b ∉ t.
Proof. intros [_ Ht] Hb Hin. rewrite Forall_forall in Ht. by apply Hb, Ht. Qed.

(** White space at the end of a line changes neither its words nor what [trim_end]
    leaves. *)
Lemma split_on_snoc {A} (f : A → bool) l x : f x = true → split_on f (l ++ [x]) = split_on f l ++ [[]].
Proof.
  intros Hx. induction l as [|y l IH]; cbn [app split_on]; [by rewrite Hx|]. rewrite IH.
  destruct (split_on_cons f l) as (p & ps & ->). cbn. by destruct (f y).
Qed.

Lemma split_on_none {A} (f : A → bool) l : Forall (λ y, f y = false) l → split_on f l = [l].
Proof. induction 1 as [|y l Hy _ IH]; [done|]. cbn. by rewrite IH, Hy. Qed.

Lemma chars_snoc l b : Forall is_ascii l → is_ascii b → chars (l ++ [b]) = chars l ++ [[b]].
Proof.
  intros Hl Hb. rewrite !chars_ascii, map_app; [done|done|]. apply Forall_app. split; [done|by repeat constructor].
Qed.

Lemma split_whitespace_snoc l b :
  Forall is_ascii l → is_ascii b → is_whitespace [b] = true → split_whitespace (l ++ [b]) = split_whitespace l.
Proof.
  intros Hl Ha Hb. unfold split_whitespace. rewrite chars_snoc, split_on_snoc by done.
  unfold nonempty. rewrite List.filter_app. cbn [List.filter]. by rewrite app_nil_r.
Qed.

Lemma trim_end_snoc l b :
  Forall is_ascii l → is_ascii b → is_whitespace [b] = true → trim_end (l ++ [b]) = trim_end l.
Proof.
  intros Hl Ha Hb. unfold trim_end, drop_while_end. rewrite chars_snoc, rev_app_distr by done.
  cbn [rev app drop_while]. by rewrite Hb.
Qed.

Lemma trim_end_last l b : Forall is_ascii l → plain b → trim_end (l ++ [b]) = l ++ [b].
Proof.
  intros Hl [Ha Hb]. unfold trim_end, drop_while_end. rewrite chars_snoc, rev_app_distr by done.
  cbn [rev app drop_while]. rewrite Hb. cbn [rev]. rewrite rev_involutive, concat_app, chars_ascii by done.
  by rewrite concat_singletons.
Qed.

Lemma trim_space l : Forall plain l → trim (SP :: l) = l.
Proof.
  intros H. rewrite <- (trim_plain l H) at 2. unfold trim.
  change (SP :: l) with ([SP] ++ l). rewrite chars_app; [done|done|by apply utf8_ascii, plain_ascii].
Qed.

Lemma split_whitespace_crlf ts : Forall token ts → split_whitespace (joined ts ++ CRLF) = ts.
Proof.
  intros H. pose proof (joined_ascii ts H) as Ha. rewrite <- (split_whitespace_line_of ts H) at 2.
  unfold CRLF, line_of. rewrite (app_assoc _ [CR] [LF] : joined ts ++ [CR; LF] = _).
  rewrite !split_whitespace_snoc; try done. apply Forall_app. split; [done|by repeat constructor].
Qed.

Lemma plain_last l b : Forall plain l → last l = Some b → plain b.
Proof. intros HF Hl. apply last_Some_elem_of in Hl. rewrite Forall_forall in HF. auto. Qed.

Lemma not_plain_space : ¬ plain SP.
Proof. by intros [_ H]; vm_compute in H. Qed.
Lemma not_plain_lf : ¬ plain LF.
Proof. by intros [_ H]; vm_compute in H. Qed.
Lemma not_plain_cr : ¬ plain CR.
Proof. by intros [_ H]; vm_compute in H. Qed.

Lemma token_to_string z : token (to_string z).
Proof.
  split; [|apply to_string_plain]. unfold to_string. destruct (z <? 0); [done|].
  by destruct (nat_to_string_cons z) as (b & l & ->).
Qed.

(** A line of tokens ends in a visible byte, and splits back at its spaces. *)
Lemma joined_last ts b : Forall token ts → last (joined ts) = Some b → plain b.
Proof.
  intros HF. destruct HF as [|t ts [_ Ht] HF]; [done|]. cbn [joined].
  induction ts as [|u ts _] using rev_ind; cbn [map concat]; [rewrite app_nil_r; by apply plain_last|].
  apply Forall_app in HF as [_ [[Hne Hu] _]%Forall_cons].
  rewrite map_app, concat_app. cbn [map concat]. rewrite app_nil_r, app_assoc.
  change (SP :: u) with ([SP] ++ u). rewrite app_assoc, last_app.
  destruct (last u) as [y|] eqn:E; [|by apply last_None in E].
  intros [= <-]. by apply (plain_last u).
Qed.

Lemma split_joined ts :
  Forall token ts → nonempty (split_on (λ b, bool_decide (b = SP)) (joined ts)) = ts.
Proof.
  intros HF. assert (Hno : ∀ t, token t → Forall (λ b, bool_decide (b = SP) = false) t).
  { intros t Ht. apply Forall_forall. intros b Hb. apply bool_decide_eq_false. intros ->.
    by apply (token_no _ _ Ht not_plain_space). }
  destruct HF as [|t ts Ht HF]; [done|]. revert t Ht.
  induction HF as [|u ts Hu _ IH]; intros t Ht; cbn [joined map concat].
  - rewrite app_nil_r, split_on_none by auto. by destruct t; [destruct Ht|].
  - change ((SP :: u) ++ concat (map (λ u0, SP :: u0) ts)) with (SP :: joined (u :: ts)).
    rewrite split_on_sep by (done || by apply Hno). unfold nonempty in *. cbn [List.filter].
    rewrite (IH u Hu). by destruct t; [destruct Ht|].
Qed.
