(* ===== verification/Libc.v ===== *)
(** * Libc: numbers as the C library reads them

    What the libraries of [interpose] use of [atol] and [fscanf]. *)

From S2P Require Import Prelude Bytes Text.
Local Open Scope Z_scope.

(** [isspace] in the C locale. *)
Definition is_space (b : byte) : bool := bool_decide (byte_val b = 32 ∨ 9 <= byte_val b <= 13).

(** The value of the digits a text starts with. *)
Fixpoint leading_digits (acc : Z) (l : bytes) : Z :=
  match l with
  | [] => acc
  | b :: l => if digit_val b is Some d then leading_digits (acc * 10 + d) l else acc
  end.

(** White space and a sign: whether it is negative, and what follows. *)
Definition skip_sign (l : bytes) : bool * bytes :=
  match drop_while is_space l with
  | b :: l => if bool_decide (b = MINUS) then (true, l) else if bool_decide (b = PLUS) then (false, l) else (false, b :: l)
  | [] => (false, [])
  end.

(** [atol], which clamps a value out of range. *)
Definition atol (l : bytes) : Z :=
  let '(neg, l) := skip_sign l in
  let z := leading_digits 0 l in
  Z.max I64_MIN (Z.min I64_MAX (if neg then - z else z)).

(** [fscanf(f, "%llu", &z)]: at least one digit; a value out of range is the largest, and a
    minus sign negates modulo [2 ^ 64]. *)
Definition scan_ull (l : bytes) : option Z :=
  let '(neg, l) := skip_sign l in
  match l with
  | b :: _ =>
      if digit_val b is Some _ then
        let z := leading_digits 0 l in
        Some (if U64_MAX <? z then U64_MAX else if neg then (- z) mod 2 ^ 64 else z)
      else None
  | [] => None
  end.

Lemma leading_digits_val l acc z rest :
  digits_val acc l = Some z → (if rest is b :: _ then digit_val b else None) = None → leading_digits acc (l ++ rest) = z.
Proof.
  revert acc; induction l as [|b l IH]; intros acc; cbn.
  - intros [= ->] Hr. destruct rest as [|b rest]; [done|]. cbn. by rewrite Hr.
  - destruct (digit_val b) as [d|]; [|done]. cbn. apply IH.
Qed.

Lemma is_digit_val b : is_digit b → is_Some (digit_val b) ∧ is_space b = false ∧ b ≠ MINUS ∧ b ≠ PLUS.
Proof.
  intros Hb. unfold is_digit in Hb. split_and!.
  - unfold digit_val, in_range. destruct (Z.leb_spec 48 (byte_val b)); [|lia]. destruct (Z.leb_spec (byte_val b) 57); [|lia]. by eexists.
  - unfold is_space. apply bool_decide_eq_false. lia.
  - intros ->. by vm_compute in Hb; destruct Hb.
  - intros ->. by vm_compute in Hb; destruct Hb.
Qed.

(** A number printed with ["%llu\n"] is read back. *)
Lemma scan_printed z : is_u64 z → scan_ull (to_string z ++ [LF]) = Some z.
Proof.
  intros Hz. unfold to_string. destruct (Z.ltb_spec z 0); [width_lia|].
  pose proof (nat_to_string_digit z ltac:(lia)) as Hd. pose proof (parse_nat_to_string z ltac:(lia)) as Hp.
  destruct (nat_to_string_cons z) as (b & l & E). rewrite E in *.
  apply Forall_cons in Hd as [Hb _]. destruct (is_digit_val b Hb) as ([d Hdv] & Hs & Hm & Hpl).
  unfold scan_ull, skip_sign. cbn [app drop_while]. rewrite Hs, !bool_decide_false by done. rewrite Hdv.
  change (b :: l ++ [LF]) with ((b :: l) ++ [LF]). rewrite (leading_digits_val (b :: l) 0 z [LF]); [|exact Hp|done].
  destruct (Z.ltb_spec U64_MAX z); [width_lia|done].
Qed.
