(* ===== verification/F64.v ===== *)
(** * F64: binary64 arithmetic

    Rust's [f64] on the Standard Library's executable specification of IEEE 754
    ([SpecFloat], precision 53, maximal exponent 1024), with the conversions and the
    comparison the crate uses, and what its clients need of rounding: every operation
    is the exact result rounded by a monotone function. Values are measured in units of
    the smallest positive number, [2 ^ -1074], so that they are integers. *)

From Stdlib Require Import Floats.SpecFloat.
From S2P Require Import Prelude.
Local Open Scope Z_scope.

(** ** Operations *)

Definition f64 : Type := spec_float.
Definition f64_add : f64 → f64 → f64 := SFadd 53 1024.
Definition f64_sub : f64 → f64 → f64 := SFsub 53 1024.
Definition f64_mul : f64 → f64 → f64 := SFmul 53 1024.
Definition f64_div : f64 → f64 → f64 := SFdiv 53 1024.
Definition f64_neg : f64 → f64 := SFopp.
Definition f64_le : f64 → f64 → bool := SFleb.
Definition partial_cmp : f64 → f64 → option comparison := SFcompare.

(** [f64::max]: a NaN loses against the other argument. *)
Definition f64_max (x y : f64) : f64 :=
  match partial_cmp x y with
  | Some Lt => y
  | Some _ => x
  | None => if x is S754_nan then y else x
  end.

(** A decimal literal with the exact value [m * 10 ^ -k], and [n as f64]: rounded to
    the nearest, ties to even. *)
Definition f64_lit (m : positive) (k : nat) : f64 :=
  f64_div (binary_normalize 53 1024 (Zpos m) 0 false) (binary_normalize 53 1024 (10 ^ Z.of_nat k) 0 false).
Definition f64_of_u64 (n : Z) : f64 := binary_normalize 53 1024 n 0 false.

(** [f64::round]: to the nearest integer, ties away from zero. *)
Definition f64_round (x : f64) : f64 :=
  match x with
  | S754_finite s m e =>
      if 0 <=? e then x
      else
        match Zpos m / 2 ^ (- e) + (if 2 ^ (- e) <=? 2 * (Zpos m mod 2 ^ (- e)) then 1 else 0) with
        | Zpos n => binary_normalize 53 1024 (if s then Zneg n else Zpos n) 0 false
        | _ => S754_zero s
        end
  | _ => x
  end.

(** [x as usize]: truncated, saturating; NaN is 0. *)
Definition f64_as_usize (x : f64) : Z :=
  match x with
  | S754_finite false m e => Z.min (if 0 <=? e then Zpos m * 2 ^ e else Zpos m / 2 ^ (- e)) U64_MAX
  | S754_infinity false => U64_MAX
  | _ => 0
  end.

(** ** Rounding, as a function on exact quotients *)

(** The nearest integer to [n / d], ties to even. *)
Definition rne (n d : Z) : Z :=
  let q := n / d in
  match 2 * (n mod d) ?= d with
  | Lt => q
  | Eq => if Z.even q then q else q + 1
  | Gt => q + 1
  end.

(** How many low bits of [n / d] do not fit the significand. *)
Definition excess (n d : Z) : Z := Z.max (Z.log2 (n / d) - 52) 0.

(** The nearest representable value to [n / d], in units, exponents unbounded above. *)
Definition rnd (n d : Z) : Z := rne n (d * 2 ^ excess n d) * 2 ^ excess n d.

Lemma rne_bounds n d : 0 < d → n / d <= rne n d <= n / d + 1.
Proof. intros. unfold rne. repeat case_match; lia. Qed.

Lemma rne_exact n d : 0 < d → rne (n * d) d = n.
Proof.
  intros. unfold rne. rewrite Z.div_mul, Z.mod_mul by lia. rewrite (proj2 (Z.compare_lt_iff _ _)); lia.
Qed.

Lemma rne_mono n d n' d' : 0 < d → 0 < d' → n * d' <= n' * d → rne n d <= rne n' d'.
Proof.
  intros Hd Hd' H. pose proof (Z.div_mod n d ltac:(lia)) as E. pose proof (Z.div_mod n' d' ltac:(lia)) as E'.
  pose proof (Z.mod_pos_bound n d Hd) as B. pose proof (Z.mod_pos_bound n' d' Hd') as B'.
  unfold rne. set (q := n / d) in *. set (q' := n' / d') in *. set (r := n mod d) in *. set (r' := n' mod d') in *.
  assert (Hq : q < q' + 1).
  { apply (Z.mul_lt_mono_pos_r (d * d')); [nia|]. assert (q * d * d' <= n * d') by nia.
    assert (n' * d < (q' + 1) * d' * d) by nia. lia. }
  destruct (Z.eq_dec q q') as [<-|Hne].
  - assert (r * d' <= r' * d) by nia.
    destruct (Z.compare_spec (2 * r) d), (Z.compare_spec (2 * r') d'); try case_match; nia.
  - destruct (2 * r ?= d), (2 * r' ?= d'); repeat case_match; lia.
Qed.

Lemma rne_scale n d k : 0 < d → 0 < k → rne (n * k) (d * k) = rne n d.
Proof.
  intros. apply Z.le_antisymm; apply rne_mono; nia.
Qed.

Lemma excess_ge0 n d : 0 <= excess n d.
Proof. unfold excess. lia. Qed.

Lemma div_div_pow n d k : 0 < d → 0 <= k → n / (d * 2 ^ k) = n / d / 2 ^ k.
Proof. intros. rewrite Z.div_div; lia. Qed.

Lemma div_pow_bounds q k : 0 < q → 0 <= k <= Z.log2 q → 2 ^ (Z.log2 q - k) <= q / 2 ^ k < 2 ^ (Z.log2 q - k + 1).
Proof.
  intros Hq Hk. pose proof (Z.log2_spec q Hq) as [H1 H2]. split.
  - apply Z.div_le_lower_bound; [lia|]. rewrite <- Z.pow_add_r by lia. by replace (k + _) with (Z.log2 q) by lia.
  - apply Z.div_lt_upper_bound; [lia|]. rewrite <- Z.pow_add_r by lia.
    by replace (k + _) with (Z.succ (Z.log2 q)) by lia.
Qed.

(** The significand of a rounded value has at most 53 bits. *)
Lemma rnd_significand n d : 0 <= n → 0 < d → 0 <= rne n (d * 2 ^ excess n d) <= 2 ^ 53.
Proof.
  intros Hn Hd. pose proof (excess_ge0 n d) as He. pose proof (Z.div_pos n d Hn Hd) as Hq.
  assert (0 < d * 2 ^ excess n d) by (apply Z.mul_pos_pos; lia).
  pose proof (rne_bounds n (d * 2 ^ excess n d) ltac:(lia)) as B. rewrite div_div_pow in B by lia.
  assert (0 <= n / d / 2 ^ excess n d) by (apply Z.div_pos; lia).
  assert (n / d / 2 ^ excess n d < 2 ^ 53); [|lia].
  destruct (Z.eq_dec (n / d) 0) as [->|]; [by rewrite Z.div_0_l by lia|].
  unfold excess in *. destruct (Z.le_gt_cases (Z.log2 (n / d)) 52) as [Hl|Hl].
  - rewrite Z.max_r, Z.div_1_r by lia. apply Z.log2_lt_pow2; lia.
  - rewrite Z.max_l in * by lia. pose proof (div_pow_bounds (n / d) (Z.log2 (n / d) - 52) ltac:(lia) ltac:(lia)) as [_ L].
    by replace (Z.log2 (n / d) - _ + 1) with 53 in L by lia.
Qed.

Lemma rnd_mono n d n' d' : 0 <= n → 0 < d → 0 < d' → n * d' <= n' * d → rnd n d <= rnd n' d'.
Proof.
  intros Hn Hd Hd' H. assert (Hn' : 0 <= n') by nia.
  assert (Hq : n / d <= n' / d').
  { apply Z.div_le_lower_bound; [lia|]. pose proof (Z.mul_div_le n d ltac:(lia)). nia. }
  pose proof (excess_ge0 n d) as He. pose proof (excess_ge0 n' d') as He'.
  pose proof (Z.log2_le_mono _ _ Hq) as Hl. unfold rnd.
  destruct (Z.eq_dec (excess n d) (excess n' d')) as [<-|Hne].
  { apply Z.mul_le_mono_nonneg_r; [lia|]. apply rne_mono; [nia..|].
    rewrite !Z.mul_assoc. apply Z.mul_le_mono_nonneg_r; lia. }
  assert (Hx : excess n d + 1 <= excess n' d') by (unfold excess in *; lia).
  pose proof (rnd_significand n d Hn Hd) as [_ B].
  trans (2 ^ 53 * 2 ^ excess n d); [apply Z.mul_le_mono_nonneg_r; lia|].
  trans (2 ^ 52 * 2 ^ excess n' d').
  { rewrite <- !Z.pow_add_r by lia. apply Z.pow_le_mono_r; lia. }
  apply Z.mul_le_mono_nonneg_r; [lia|]. trans (n' / (d' * 2 ^ excess n' d')); [|apply rne_bounds; nia].
  rewrite div_div_pow by lia. assert (Hex : excess n' d' = Z.log2 (n' / d') - 52) by (unfold excess in *; lia).
  rewrite Hex in *. assert (0 < n' / d').
  { destruct (Z.eq_dec (n' / d') 0) as [E|]; [rewrite E in *; cbn in *; lia|]. pose proof (Z.div_pos n' d'). lia. }
  pose proof (div_pow_bounds (n' / d') (Z.log2 (n' / d') - 52) ltac:(lia) ltac:(lia)) as [L _].
  by replace (Z.log2 (n' / d') - _) with 52 in L by lia.
Qed.

(** A representable value is its own rounding. *)
Lemma rnd_exact m k d : 0 <= m < 2 ^ 53 → 0 <= k → 0 < d → rnd (m * 2 ^ k * d) d = m * 2 ^ k.
Proof.
  intros Hm Hk Hd. unfold rnd, excess. rewrite Z.div_mul by lia.
  destruct (Z.eq_dec m 0) as [->|]; [|].
  { rewrite !Z.mul_0_l. set (x := Z.max _ 0). pose proof (rne_exact 0 (d * 2 ^ x) ltac:(lia)) as E.
    rewrite Z.mul_0_l in E. by rewrite E. }
  rewrite Z.log2_mul_pow2 by lia. assert (Hl : Z.log2 m < 53) by (apply Z.log2_lt_pow2; lia).
  set (x := Z.max _ 0). assert (Hx : 0 <= x <= k) by lia.
  replace (m * 2 ^ k * d) with (m * 2 ^ (k - x) * (d * 2 ^ x)).
  - rewrite rne_exact by nia. rewrite <- Z.mul_assoc, <- Z.pow_add_r by lia. do 2 f_equal; lia.
  - replace k with (k - x + x) at 2 by lia. rewrite Z.pow_add_r by lia. ring.
Qed.

Lemma rnd_exact_le m k d : 0 <= m <= 2 ^ 53 → 0 <= k → 0 < d → rnd (m * 2 ^ k * d) d = m * 2 ^ k.
Proof.
  intros Hm Hk Hd. destruct (Z.eq_dec m (2 ^ 53)) as [->|]; [|apply rnd_exact; lia].
  assert (2 ^ 53 * 2 ^ k = 2 ^ 52 * 2 ^ (k + 1)) as -> by (rewrite <- !Z.pow_add_r by lia; f_equal; lia).
  apply rnd_exact; lia.
Qed.

Lemma rnd_scale n d k : 0 <= n → 0 < d → 0 < k → rnd (n * k) (d * k) = rnd n d.
Proof. intros. apply Z.le_antisymm; apply rnd_mono; nia. Qed.

(** ** The executable operations round exactly *)

(** The location of [n / d] between [n / d] and its successor. *)
Definition loc_of (n d : Z) : location :=
  if n mod d =? 0 then loc_Exact else loc_Inexact (2 * (n mod d) ?= d).

Lemma round_nearest_even_rne n d : 0 < d → round_nearest_even (n / d) (loc_of n d) = rne n d.
Proof.
  intros. unfold loc_of, rne. destruct (Z.eqb_spec (n mod d) 0) as [->|]; [|done].
  by rewrite (proj2 (Z.compare_lt_iff _ _)) by lia.
Qed.

Lemma loc_of_shr_record_of_loc m l : loc_of_shr_record (shr_record_of_loc m l) = l.
Proof. by destruct l as [|[]]. Qed.
Lemma shr_m_of_loc m l : shr_m (shr_record_of_loc m l) = m.
Proof. by destruct l as [|[]]. Qed.

(** One more bit dropped: whether it was set and whether anything was below it. *)
Lemma loc_of_double n d : 0 <= n → 0 < d →
  loc_of n (d * 2) =
    match Z.odd (n / d), n mod d =? 0 with
    | false, true => loc_Exact
    | false, false => loc_Inexact Lt
    | true, true => loc_Inexact Eq
    | true, false => loc_Inexact Gt
    end.
Proof.
  intros Hn Hd. pose proof (Z.mod_pos_bound n d Hd) as B. unfold loc_of.
  rewrite Z.rem_mul_r, Zmod_odd by lia.
  destruct (Z.odd (n / d)), (Z.eqb_spec (n mod d) 0) as [->|]; cbn [Z.eqb];
    match goal with |- (if ?b then _ else _) = _ => destruct b eqn:E; [apply Z.eqb_eq in E|apply Z.eqb_neq in E]; try lia end;
    [f_equal; apply Z.compare_eq_iff; lia|f_equal; apply Z.compare_gt_iff; lia|done|f_equal; apply Z.compare_lt_iff; lia].
Qed.

Lemma shr_1_loc n d : 0 <= n → 0 < d →
  shr_1 (shr_record_of_loc (n / d) (loc_of n d)) = shr_record_of_loc (n / (d * 2)) (loc_of n (d * 2)).
Proof.
  intros Hn Hd. pose proof (Z.div_pos n d Hn Hd) as Hq. rewrite <- Z.div_div, loc_of_double by lia.
  unfold loc_of. destruct (n / d) as [|p|p]; [| |lia]; destruct (n mod d =? 0).
  1,2: by destruct (2 * (n mod d) ?= d).
  all: destruct p as [p|p|]; cbn [Z.odd];
    [replace (Zpos p~1 / 2) with (Zpos p) by (by rewrite <- Z.div2_div)
    |replace (Zpos p~0 / 2) with (Zpos p) by (by rewrite <- Z.div2_div)|]; by try destruct (2 * (n mod d) ?= d).
Qed.

Lemma iter_pos_iter {A} (f : A → A) p x : SpecFloat.iter_pos f p x = Pos.iter f x p.
Proof.
  revert x; induction p as [p IH|p IH|]; intros x; cbn; [|by rewrite !IH|done].
  by rewrite !IH, !Pos.iter_swap.
Qed.

Lemma iter_shr_1_loc p n d : 0 <= n → 0 < d →
  SpecFloat.iter_pos shr_1 p (shr_record_of_loc (n / d) (loc_of n d)) =
  shr_record_of_loc (n / (d * 2 ^ Zpos p)) (loc_of n (d * 2 ^ Zpos p)).
Proof.
  intros Hn Hd. rewrite iter_pos_iter. induction p as [|p IH] using Pos.peano_ind; [by apply shr_1_loc|].
  rewrite Pos.iter_succ, IH, shr_1_loc by nia. by rewrite Pos2Z.inj_succ, Z.pow_succ_r, (Z.mul_comm 2), Z.mul_assoc by lia.
Qed.

Abbreviation fexp64 := (fexp 53 1024).

Lemma fexp64_eq e : fexp64 e = Z.max (e - 53) (-1074).
Proof. done. Qed.

Lemma digits2_pos_log2 p : Zpos (digits2_pos p) = Z.log2 (Zpos p) + 1.
Proof.
  induction p as [p IH|p IH|]; cbn [digits2_pos]; [| |done]; rewrite Pos2Z.inj_succ, IH.
  - rewrite Pos2Z.inj_xI, Z.log2_succ_double by lia. lia.
  - rewrite Pos2Z.inj_xO, Z.log2_double by lia. lia.
Qed.

Lemma Zdigits2_log2 q : 0 < q → Zdigits2 q = Z.log2 q + 1.
Proof. destruct q; [lia| |lia]. intros _. apply digits2_pos_log2. Qed.

Lemma shr_fexp_loc n d e : 0 <= n → 0 < d → e <= fexp64 (Zdigits2 (n / d) + e) →
  let k := fexp64 (Zdigits2 (n / d) + e) - e in
  shr_fexp 53 1024 (n / d) e (loc_of n d) = (shr_record_of_loc (n / (d * 2 ^ k)) (loc_of n (d * 2 ^ k)), e + k).
Proof.
  intros Hn Hd He k. unfold shr_fexp, shr. fold k. assert (Hk : 0 <= k) by lia.
  destruct k as [|p|p]; [|by rewrite iter_shr_1_loc|lia]. by rewrite Z.pow_0_r, Z.mul_1_r, Z.add_0_r.
Qed.

(** Normalising a significand of at most 53 bits, or exactly [2 ^ 53]. *)
Lemma shr_fexp_exact m e : 0 <= m <= 2 ^ 53 → -1074 <= e →
  shr_fexp 53 1024 m e loc_Exact =
    if m =? 2 ^ 53 then (shr_record_of_loc (2 ^ 52) loc_Exact, e + 1) else (shr_record_of_loc m loc_Exact, e).
Proof.
  intros Hm He. destruct (Z.eqb_spec m (2 ^ 53)) as [->|Hne].
  - unfold shr_fexp. replace (fexp64 _ - e) with 1; [done|]. rewrite fexp64_eq. cbn [Z.pow Z.pow_pos Pos.iter Z.mul Pos.mul].
    change (Zdigits2 _) with 54. lia.
  - assert (Hd : Zdigits2 m <= 53).
    { destruct (Z.eq_dec m 0) as [->|]; [done|]. rewrite Zdigits2_log2 by lia.
      assert (Z.log2 m < 53); [|lia]. apply Z.log2_lt_pow2; lia. }
    unfold shr_fexp, shr. destruct (fexp64 (Zdigits2 m + e) - e) eqn:E; try done.
    rewrite fexp64_eq in E. lia.
Qed.

(** The exponent in units of a quotient's first 53 bits. *)
Lemma excess_units n d e : 0 <= n → 0 < d → e <= fexp64 (Zdigits2 (n / d) + e) →
  excess (n * 2 ^ Z.max (e + 1074) 0) (d * 2 ^ Z.max (- (e + 1074)) 0) = fexp64 (Zdigits2 (n / d) + e) + 1074.
Proof.
  intros Hn Hd He. rewrite fexp64_eq in *. unfold excess. pose proof (Z.div_pos n d Hn Hd) as Hq.
  pose proof (Z.log2_nonneg (n / d)) as Hl.
  destruct (Z.le_gt_cases 0 (e + 1074)) as [HE|HE].
  - rewrite (Z.max_l (e + 1074)), (Z.max_r (- _)), Z.pow_0_r, Z.mul_1_r by lia.
    destruct (Z.eq_dec (n / d) 0) as [E|E].
    { rewrite E in *. cbn [Zdigits2] in *. replace (e + 1074) with 0 by lia. rewrite Z.pow_0_r, Z.mul_1_r, E. cbn. lia. }
    rewrite Zdigits2_log2 in * by lia. rewrite (Z.log2_unique (n * 2 ^ (e + 1074) / d) (Z.log2 (n / d) + (e + 1074))); [lia|lia|].
    pose proof (Z.log2_spec (n / d) ltac:(lia)) as [L U]. split.
    + apply Z.div_le_lower_bound; [lia|].
      rewrite Z.pow_add_r, Z.mul_assoc by lia.
      apply Z.mul_le_mono_nonneg_r; [lia|]. trans (d * (n / d)); [apply Z.mul_le_mono_nonneg_l; lia|by apply Z.mul_div_le].
    + apply Z.div_lt_upper_bound; [lia|]. rewrite <- Z.add_succ_l, (Z.pow_add_r 2 (Z.succ _)), Z.mul_assoc by lia.
      apply Z.mul_lt_mono_pos_r; [lia|]. apply Z.lt_le_trans with (d * Z.succ (n / d)); [by apply Z.mul_succ_div_gt|].
      apply Z.mul_le_mono_nonneg_l; lia.
  - rewrite (Z.max_r (e + 1074)), (Z.max_l (- _)), Z.pow_0_r, Z.mul_1_r by lia.
    rewrite div_div_pow by lia. rewrite <- Z.shiftr_div_pow2 by lia.
    destruct (Z.eq_dec (n / d) 0) as [E|E].
    { rewrite E, Z.shiftr_0_l. cbn. lia. }
    rewrite Z.log2_shiftr, Zdigits2_log2 by lia. lia.
Qed.

(** ** Values *)

(** What exceeds every finite value; the infinities have it as their magnitude. *)
Definition INF : Z := 2 ^ 2098.

Definition signed (s : bool) (z : Z) : Z := if s then - z else z.

(** The value of a float that is not a NaN, in units. *)
Definition ival (x : f64) : option Z :=
  match x with
  | S754_zero _ => Some 0
  | S754_infinity s => Some (signed s INF)
  | S754_nan => None
  | S754_finite s m e => Some (signed s (Zpos m * 2 ^ (e + 1074)))
  end.

Definition valid (x : f64) : Prop := valid_binary 53 1024 x = true.

(** [x] is a valid float of value [v]. *)
Definition denotes (x : f64) (v : Z) : Prop := valid x ∧ ival x = Some v.

Lemma valid_finite s m e :
  valid (S754_finite s m e) ↔ e = fexp64 (Z.log2 (Zpos m) + 1 + e) ∧ e <= 971.
Proof.
  unfold valid, valid_binary, bounded, canonical_mantissa. rewrite andb_true_iff, Z.eqb_eq, Z.leb_le, digits2_pos_log2.
  lia.
Qed.

Lemma valid_bounds s m e : valid (S754_finite s m e) →
  0 < Zpos m < 2 ^ 53 ∧ -1074 <= e <= 971 ∧ (-1074 < e → 2 ^ 52 <= Zpos m).
Proof.
  rewrite valid_finite, fexp64_eq. intros [He Hm]. split_and!; try lia.
  - apply Z.log2_lt_pow2; lia.
  - intros. apply Z.log2_le_pow2; lia.
Qed.

Lemma denotes_lt_INF s m e v : denotes (S754_finite s m e) (signed s v) → 0 < v < INF.
Proof.
  intros [(Hm & He & _)%valid_bounds [= E]]. assert (v = Zpos m * 2 ^ (e + 1074)) as -> by (destruct s; cbn in E; lia).
  split; [apply Z.mul_pos_pos; lia|]. unfold INF. change (2 ^ 2098) with (2 ^ (53 + 2045)). rewrite (Z.pow_add_r 2 53) by lia.
  assert (2 ^ (e + 1074) <= 2 ^ 2045) by (apply Z.pow_le_mono_r; lia).
  apply Z.lt_le_trans with (2 ^ 53 * 2 ^ (e + 1074)); [apply Z.mul_lt_mono_pos_r; lia|].
  apply Z.mul_le_mono_nonneg_l; lia.
Qed.

(** A rounded significand and its exponent as a float. *)
Lemma denotes_round s m e :
  0 <= m < 2 ^ 53 → -1074 <= e → (-1074 < e → 2 ^ 52 <= m) →
  denotes (match m with
           | Z0 => S754_zero s
           | Zpos m => if e <=? 971 then S754_finite s m e else S754_infinity s
           | Zneg _ => S754_nan
           end) (signed s (Z.min (m * 2 ^ (e + 1074)) INF)).
Proof.
  intros Hm He Hn. destruct m as [|m|m]; [by destruct s|..|lia].
  destruct (Z.leb_spec e 971) as [Hle|Hgt].
  - assert (Hv : valid (S754_finite s m e)).
    { apply valid_finite. split; [|done]. rewrite fexp64_eq. assert (Z.log2 (Zpos m) < 53) by (apply Z.log2_lt_pow2; lia).
      destruct (Z.eq_dec e (-1074)); [lia|]. assert (52 <= Z.log2 (Zpos m)) by (apply Z.log2_le_pow2; lia). lia. }
    rewrite Z.min_l; [done|]. apply Z.lt_le_incl, (denotes_lt_INF s m e). done.
  - split; [done|]. cbn [ival]. rewrite Z.min_r; [done|]. change INF with (2 ^ (52 + 2046)).
    rewrite (Z.pow_add_r 2 52) by lia. apply Z.mul_le_mono_nonneg; [lia|lia|lia|]. apply Z.pow_le_mono_r; lia.
Qed.

Lemma rnd_eq n d n' d' : 0 <= n → 0 < d → 0 < d' → n * d' = n' * d → rnd n d = rnd n' d'.
Proof. intros. assert (0 <= n') by nia. apply Z.le_antisymm; apply rnd_mono; lia. Qed.

(** The heart of every operation: the result is the exact quotient [n / d * 2 ^ e],
    rounded. *)
Lemma binary_round_aux_spec s n d e :
  0 <= n → 0 < d → e <= fexp64 (Zdigits2 (n / d) + e) →
  denotes (binary_round_aux 53 1024 s (n / d) e (loc_of n d))
    (signed s (Z.min (rnd (n * 2 ^ Z.max (e + 1074) 0) (d * 2 ^ Z.max (- (e + 1074)) 0)) INF)).
Proof.
  intros Hn Hd He. unfold binary_round_aux. rewrite shr_fexp_loc by done. cbn zeta beta iota.
  rewrite shr_m_of_loc, loc_of_shr_record_of_loc.
  pose proof (excess_units n d e Hn Hd He) as Hx. set (N := n * _) in *. set (D := d * 2 ^ Z.max (- _) 0) in *.
  set (k := fexp64 (Zdigits2 (n / d) + e) - e) in *. assert (Hk : 0 <= k) by lia.
  rewrite round_nearest_even_rne by nia.
  assert (HN : 0 <= N) by (apply Z.mul_nonneg_nonneg; lia). assert (HD : 0 < D) by (apply Z.mul_pos_pos; lia).
  pose proof (excess_ge0 N D) as Hx0. assert (Hk0 : 0 <= e + 1074 + k) by lia.
  assert (Hm : rne N (D * 2 ^ excess N D) = rne n (d * 2 ^ k)).
  { rewrite Hx. replace (fexp64 _ + 1074) with (e + 1074 + k) by lia. unfold N, D.
    destruct (Z.le_gt_cases 0 (e + 1074)).
    - rewrite Z.max_l, Z.max_r, Z.pow_0_r, Z.mul_1_r, (Z.pow_add_r 2 (e + 1074) k) by lia.
      rewrite (Z.mul_comm (2 ^ (e + 1074))), Z.mul_assoc. apply rne_scale; lia.
    - rewrite Z.max_r, Z.max_l, Z.pow_0_r, Z.mul_1_r, <- Z.mul_assoc, <- Z.pow_add_r by lia.
      do 3 f_equal. lia. }
  pose proof (rnd_significand N D HN HD) as Hs. rewrite Hm in Hs.
  assert (He' : e + k = excess N D - 1074) by lia.
  unfold rnd. rewrite Hm. rewrite shr_fexp_exact, He' by lia.
  destruct (Z.eqb_spec (rne n (d * 2 ^ k)) (2 ^ 53)) as [->|Hne].
  - change (shr_m _) with (2 ^ 52). replace (2 ^ 53 * _) with (2 ^ 52 * 2 ^ (excess N D - 1074 + 1 + 1074)).
    + apply (denotes_round s (2 ^ 52)); lia.
    + rewrite <- !Z.pow_add_r by lia. f_equal. lia.
  - change (shr_m _) with (rne n (d * 2 ^ k)).
    replace (2 ^ excess N D) with (2 ^ (excess N D - 1074 + 1074)) by (f_equal; lia).
    apply denotes_round; [lia|lia|]. intros Hpos. rewrite <- Hm.
    trans (N / (D * 2 ^ excess N D)); [|apply rne_bounds; nia]. rewrite div_div_pow by lia.
    assert (Hex : excess N D = Z.log2 (N / D) - 52) by (unfold excess in *; lia). rewrite Hex in *.
    assert (HQ : 0 < N / D).
    { destruct (Z.eq_dec (N / D) 0) as [E|]; [rewrite E in Hpos; cbn in Hpos; lia|]. pose proof (Z.div_pos N D). lia. }
    pose proof (div_pow_bounds (N / D) (Z.log2 (N / D) - 52) HQ ltac:(lia)) as [L _].
    by replace (Z.log2 (N / D) - _) with 52 in L by lia.
Qed.

(** ** Addition and subtraction *)

(** Rounding of an exact sum. *)
Definition sround (z : Z) : Z := signed (z <? 0) (Z.min (rnd (Z.abs z) 1) INF).

Lemma sround_nonneg z : 0 <= z → sround z = Z.min (rnd z 1) INF.
Proof. intros. unfold sround. rewrite (proj2 (Z.ltb_ge z 0)), Z.abs_eq by lia. done. Qed.

Lemma sround_opp z : sround (- z) = - sround z.
Proof.
  unfold sround. rewrite Z.abs_opp. destruct (Z.ltb_spec z 0), (Z.ltb_spec (- z) 0); cbn; try lia.
  assert (z = 0) as -> by lia. done.
Qed.

Lemma pos_iter_xO m d : Zpos (Pos.iter xO m d) = Zpos m * 2 ^ Zpos d.
Proof.
  induction d as [|d IH] using Pos.peano_ind; [cbn; lia|].
  rewrite Pos.iter_succ, Pos2Z.inj_xO, IH, Pos2Z.inj_succ, Z.pow_succ_r by lia. lia.
Qed.

Lemma shl_align_spec m e e' :
  (shl_align m e e').2 = Z.min e e' ∧ Zpos (shl_align m e e').1 = Zpos m * 2 ^ (e - Z.min e e').
Proof.
  unfold shl_align. destruct (e' - e) as [|p|p] eqn:E; cbn [fst snd].
  1,2: by rewrite Z.min_l, Z.sub_diag, Z.mul_1_r by lia.
  rewrite Z.min_r, pos_iter_xO by lia. split; [done|]. do 2 f_equal. lia.
Qed.

Lemma binary_round_spec s m e :
  -1074 <= e → denotes (binary_round 53 1024 s m e) (signed s (Z.min (rnd (Zpos m * 2 ^ (e + 1074)) 1) INF)).
Proof.
  intros He. unfold binary_round.
  pose proof (shl_align_spec m e (fexp64 (Zpos (digits2_pos m) + e))) as [E2 E1].
  destruct (shl_align _ _ _) as [mz ez]; cbn [fst snd] in *.
  rewrite digits2_pos_log2, fexp64_eq in *. assert (Hez : -1074 <= ez <= e) by lia.
  assert (Hl : Zdigits2 (Zpos mz) + ez = Z.log2 (Zpos m) + 1 + e).
  { rewrite Zdigits2_log2, E1, Z.log2_mul_pow2 by lia. lia. }
  pose proof (binary_round_aux_spec s (Zpos mz) 1 ez) as H. unfold loc_of in H. rewrite Z.div_1_r, Z.mod_1_r, Z.mul_1_l in H.
  rewrite (Z.max_l (ez + 1074)), (Z.max_r (- _)) in H by lia.
  replace (Zpos m * 2 ^ (e + 1074)) with (Zpos mz * 2 ^ (ez + 1074)).
  - apply H; [lia..|]. rewrite fexp64_eq. lia.
  - rewrite E1, <- E2, <- Z.mul_assoc, <- Z.pow_add_r by lia. do 2 f_equal. lia.
Qed.

Lemma binary_normalize_spec m e sz : -1074 <= e → denotes (binary_normalize 53 1024 m e sz) (sround (m * 2 ^ (e + 1074))).
Proof.
  intros He. unfold sround. assert (0 < 2 ^ (e + 1074)) by lia. destruct m as [|m|m]; cbn [binary_normalize].
  - by destruct sz.
  - rewrite (proj2 (Z.ltb_ge _ 0)), Z.abs_eq by nia. by apply (binary_round_spec false).
  - rewrite (proj2 (Z.ltb_lt _ 0)), Z.abs_mul, (Z.abs_eq (2 ^ _)) by nia. by apply (binary_round_spec true).
Qed.

(** A value that is already representable is not changed. *)
Lemma sround_denotes x v : denotes x v → sround v = v.
Proof.
  assert (Hinf : Z.min (rnd INF 1) INF = INF).
  { unfold INF. pose proof (rnd_exact 1 2098 1 ltac:(lia) ltac:(lia) ltac:(lia)) as E.
    rewrite Z.mul_1_l, Z.mul_1_r in E. rewrite E. apply Z.min_id. }
  intros Hd. assert (Hs : ∀ s z, 0 <= z → Z.min (rnd z 1) INF = z → sround (signed s z) = signed s z).
  { intros [] z Hz Ez; cbn [signed]; rewrite ?sround_opp, sround_nonneg by done; lia. }
  destruct x as [s|s| |s m e]; destruct Hd as [Hv [= <-]].
  - done.
  - by apply Hs.
  - pose proof (valid_bounds _ _ _ Hv) as (Hm & He & _).
    pose proof (denotes_lt_INF s m e _ (conj Hv eq_refl)) as [Hpos Hlt].
    apply Hs; [lia|]. pose proof (rnd_exact (Zpos m) (e + 1074) 1 ltac:(lia) ltac:(lia) ltac:(lia)) as E.
    rewrite Z.mul_1_r in E. rewrite E. lia.
Qed.

Lemma INF_pos : 0 < INF.
Proof. done. Qed.

Lemma denotes_range x v : denotes x v → - INF <= v <= INF.
Proof.
  pose proof INF_pos. destruct x as [s|s| |s m e]; intros [Hv [= <-]]; [lia|destruct s; cbn [signed]; lia|].
  pose proof (denotes_lt_INF s m e _ (conj Hv eq_refl)). destruct s; cbn [signed]; lia.
Qed.

Lemma denotes_infinity s v : denotes (S754_infinity s) v ↔ v = signed s INF.
Proof. split; [by intros [_ [= <-]]|by intros ->]. Qed.

Lemma denotes_finite s m e v :
  denotes (S754_finite s m e) v → v = signed s (Zpos m * 2 ^ (e + 1074)) ∧ -1074 <= e ∧ Z.abs v < INF.
Proof.
  intros [Hv [= <-]]. pose proof (valid_bounds _ _ _ Hv) as (_ & He & _).
  pose proof (denotes_lt_INF s m e _ (conj Hv eq_refl)) as [L U]. split_and!; [done|lia|].
  destruct s; cbn [signed]; lia.
Qed.

Lemma cond_Zopp_aligned s m e z :
  z <= e → -1074 <= z → cond_Zopp s (Zpos (shl_align m e z).1) * 2 ^ (z + 1074) = signed s (Zpos m * 2 ^ (e + 1074)).
Proof.
  intros Hz H0. pose proof (shl_align_spec m e z) as [_ ->]. rewrite Z.min_r by lia.
  replace (e + 1074) with (e - z + (z + 1074)) by lia. rewrite (Z.pow_add_r 2 (e - z)) by lia.
  destruct s; cbn [cond_Zopp signed]; ring.
Qed.

Lemma f64_add_finite x y a b :
  denotes x a → denotes y b → Z.abs a < INF → Z.abs b < INF → denotes (f64_add x y) (sround (a + b)).
Proof.
  intros Hx Hy Ha Hb. pose proof (sround_denotes x a Hx) as Sa. pose proof (sround_denotes y b Hy) as Sb.
  destruct x as [s|s| |s m e]; [|apply denotes_infinity in Hx; subst a; destruct s; cbn [signed] in Ha; lia
    |by destruct Hx|]; (destruct y as [s'|s'| |s' m' e'];
      [|apply denotes_infinity in Hy; subst b; destruct s'; cbn [signed] in Hb; lia|by destruct Hy|]).
  - destruct Hx as [_ [= <-]], Hy as [_ [= <-]]. by destruct s, s'.
  - destruct Hx as [_ [= <-]]. by rewrite Z.add_0_l, Sb.
  - destruct Hy as [_ [= <-]]. by rewrite Z.add_0_r, Sa.
  - apply denotes_finite in Hx as (-> & He & _). apply denotes_finite in Hy as (-> & He' & _).
    cbn [f64_add SFadd]. rewrite <- (cond_Zopp_aligned s m e (Z.min e e')), <- (cond_Zopp_aligned s' m' e' (Z.min e e')) by lia.
    rewrite <- Z.mul_add_distr_r. apply binary_normalize_spec. lia.
Qed.

Lemma denotes_INF x : denotes x INF → x = S754_infinity false.
Proof.
  intros Hx. pose proof INF_pos. destruct x as [s|[]| |s m e]; [destruct Hx as [_ [= ?]]; lia| |done|by destruct Hx|].
  - apply denotes_infinity in Hx. cbn [signed] in Hx. lia.
  - apply denotes_finite in Hx as (_ & _ & Hx). rewrite Z.abs_eq in Hx; lia.
Qed.

Lemma f64_add_infinite x y a : denotes x INF → denotes y a → a ≠ - INF → denotes (f64_add x y) INF ∧ denotes (f64_add y x) INF.
Proof.
  intros ->%denotes_INF Hy Ha. destruct y as [s|[]| |s m e]; try (by split); [|by destruct Hy].
  apply denotes_infinity in Hy. done.
Qed.

Lemma rnd_INF z : INF <= z → INF <= rnd z 1.
Proof.
  intros. change INF with (1 * 2 ^ 2098) at 1. rewrite <- (rnd_exact 1 2098 1) by lia.
  apply rnd_mono; [lia..|]. change (1 * 2 ^ 2098 * 1) with INF. lia.
Qed.

Definition add_round (a b : Z) : Z := Z.min (rnd (a + b) 1) INF.

Lemma f64_add_nonneg x y a b :
  denotes x a → denotes y b → 0 <= a → 0 <= b → denotes (f64_add x y) (add_round a b).
Proof.
  intros Hx Hy Ha Hb. pose proof (denotes_range x a Hx). pose proof (denotes_range y b Hy). pose proof INF_pos.
  unfold add_round. destruct (Z.eq_dec a INF) as [->|]; [|destruct (Z.eq_dec b INF) as [->|]].
  - rewrite Z.min_r by (apply rnd_INF; lia). apply (f64_add_infinite x y b); [done..|lia].
  - rewrite Z.min_r by (apply rnd_INF; lia). apply (f64_add_infinite y x a); [done..|lia].
  - rewrite <- sround_nonneg by lia. apply f64_add_finite; [done..|lia|lia].
Qed.

Lemma SFsub_add x y : f64_sub x y = f64_add x (f64_neg y).
Proof. by destruct x as [[]|[]| |? ? ?], y as [[]|[]| |[] ? ?]. Qed.

Lemma denotes_neg x v : denotes x v → denotes (f64_neg x) (- v).
Proof. by destruct x as [[]|[]| |[] ? ?]; intros [Hv [= <-]]; split; cbn [ival f64_neg SFopp negb signed]; rewrite ?Z.opp_involutive. Qed.

(** A difference of nonnegative numbers, the second finite and not larger. *)
Definition sub_round (a b : Z) : Z := if a =? INF then INF else Z.min (rnd (a - b) 1) INF.

Lemma f64_sub_nonneg x y a b :
  denotes x a → denotes y b → 0 <= b <= a → b < INF → denotes (f64_sub x y) (sub_round a b).
Proof.
  intros Hx Hy Hab Hb. rewrite SFsub_add. apply denotes_neg in Hy as Hy'. pose proof (denotes_range x a Hx).
  unfold sub_round. destruct (Z.eqb_spec a INF) as [->|].
  - apply (f64_add_infinite x _ (- b)); [done..|lia].
  - rewrite <- sround_nonneg by lia. apply f64_add_finite; [done..|lia|lia].
Qed.

(** ** Order *)

Lemma magnitude_compare s m e s' m' e' :
  valid (S754_finite s m e) → valid (S754_finite s' m' e') →
  match e ?= e' with Lt => Lt | Gt => Gt | Eq => Pos.compare_cont Eq m m' end =
  (Zpos m * 2 ^ (e + 1074) ?= Zpos m' * 2 ^ (e' + 1074)).
Proof.
  assert (Hlt : ∀ s m e s' m' e', valid (S754_finite s m e) → valid (S754_finite s' m' e') → e < e' →
            Zpos m * 2 ^ (e + 1074) < Zpos m' * 2 ^ (e' + 1074)).
  { clear. intros s m e s' m' e' (Hm & He & _)%valid_bounds (Hm' & He' & Hn)%valid_bounds Hlt.
    apply Z.lt_le_trans with (2 ^ 52 * 2 ^ (e + 1 + 1074)).
    - replace (e + 1 + 1074) with (1 + (e + 1074)) by lia. rewrite (Z.pow_add_r 2 1), Z.mul_assoc by lia.
      apply Z.mul_lt_mono_pos_r; lia.
    - apply Z.mul_le_mono_nonneg; [lia|lia|lia|]. apply Z.pow_le_mono_r; lia. }
  intros H H'. destruct (Z.compare_spec e e') as [<-|He|He]; symmetry.
  - change (Pos.compare_cont Eq m m') with (Zpos m ?= Zpos m'). symmetry. apply Zmult_compare_compat_r.
    apply valid_bounds in H. lia.
  - apply Z.compare_lt_iff. by apply (Hlt s _ _ s').
  - apply Z.compare_gt_iff. by apply (Hlt s' _ _ s).
Qed.

Ltac compare_by_sign :=
  cbn [signed]; symmetry;
  first [by apply Z.compare_eq_iff | apply Z.compare_lt_iff; lia | apply Z.compare_gt_iff; lia].

Lemma partial_cmp_denotes x y a b : denotes x a → denotes y b → partial_cmp x y = Some (a ?= b).
Proof.
  intros Hx Hy. pose proof INF_pos as HI.
  assert (Hf : ∀ s m e, valid (S754_finite s m e) → 0 < Zpos m * 2 ^ (e + 1074) < INF).
  { intros s m e Hv. apply (denotes_lt_INF s m e). done. }
  destruct x as [s|s| |s m e], y as [s'|s'| |s' m' e']; destruct Hx as [Hx [= <-]], Hy as [Hy [= <-]];
    try apply Hf in Hx as Hx'; try apply Hf in Hy as Hy'; cbn [partial_cmp SFcompare]; f_equal.
  1-7: try destruct s; try destruct s'; compare_by_sign.
  pose proof (magnitude_compare _ _ _ _ _ _ Hx Hy) as E.
  destruct s, s'; [|compare_by_sign..|done]. cbn [signed]. rewrite Z.compare_opp, (Z.compare_antisym (Zpos m * _)), <- E.
  by destruct (e ?= e').
Qed.

Lemma f64_le_denotes x y a b : denotes x a → denotes y b → f64_le x y = (a <=? b).
Proof. intros Hx Hy. unfold f64_le, SFleb. change (SFcompare x y) with (partial_cmp x y). by rewrite (partial_cmp_denotes x y a b Hx Hy). Qed.

Lemma f64_max_denotes x y a b : denotes x a → denotes y b → denotes (f64_max x y) (Z.max a b).
Proof.
  intros Hx Hy. unfold f64_max. rewrite (partial_cmp_denotes x y a b Hx Hy).
  destruct (Z.compare_spec a b); [rewrite Z.max_l by lia|rewrite Z.max_r by lia|rewrite Z.max_l by lia]; done.
Qed.

(** ** Monotonicity *)

Lemma add_round_mono a b a' b' : 0 <= a <= a' → 0 <= b <= b' → add_round a b <= add_round a' b'.
Proof. intros. unfold add_round. apply Z.min_le_compat_r, rnd_mono; lia. Qed.

Lemma add_round_nonneg a b : 0 <= a → 0 <= b → 0 <= add_round a b.
Proof.
  intros. pose proof INF_pos. unfold add_round. assert (rnd 0 1 <= rnd (a + b) 1) by (apply rnd_mono; lia).
  change (rnd 0 1) with 0 in *. lia.
Qed.

(** Adding what is not negative never gives less. *)
Lemma add_round_ge x a b : denotes x a → 0 <= a → 0 <= b → a <= add_round a b.
Proof.
  intros Hx Ha Hb. pose proof (sround_denotes x a Hx) as E. rewrite sround_nonneg in E by done.
  rewrite <- E at 1. unfold add_round. apply Z.min_le_compat_r, rnd_mono; lia.
Qed.

Lemma add_round_comm a b : add_round a b = add_round b a.
Proof. unfold add_round. by rewrite Z.add_comm. Qed.

Lemma sub_round_mono a b a' : 0 <= b <= a → a <= a' <= INF → sub_round a b <= sub_round a' b.
Proof.
  intros. unfold sub_round. destruct (Z.eqb_spec a INF), (Z.eqb_spec a' INF); try lia.
  apply Z.min_le_compat_r, rnd_mono; lia.
Qed.

Lemma sub_round_nonneg a b : 0 <= b <= a → 0 <= sub_round a b.
Proof.
  intros. pose proof INF_pos. unfold sub_round. case_match; [lia|].
  assert (rnd 0 1 <= rnd (a - b) 1) by (apply rnd_mono; lia). change (rnd 0 1) with 0 in *. lia.
Qed.

(** ** Multiplication and division of positive numbers *)

Lemma positive_finite x a : denotes x a → 0 < a < INF →
  ∃ m e, x = S754_finite false m e ∧ a = Zpos m * 2 ^ (e + 1074) ∧ valid x.
Proof.
  intros Hx Ha. destruct x as [s|s| |s m e]; [destruct Hx as [_ [= ?]]; lia| |by destruct Hx|].
  - apply denotes_infinity in Hx. destruct s; cbn [signed] in Hx; lia.
  - pose proof (denotes_finite _ _ _ _ Hx) as (E & He & _). assert (0 < 2 ^ (e + 1074)) by lia.
    destruct s; cbn [signed] in E; [nia|]. exists m, e. by destruct Hx.
Qed.

Lemma f64_mul_pos x y a b :
  denotes x a → denotes y b → 0 < a < INF → 0 < b < INF → denotes (f64_mul x y) (Z.min (rnd (a * b) (2 ^ 1074)) INF).
Proof.
  intros Hx Hy Ha Hb. destruct (positive_finite x a Hx Ha) as (m & e & -> & -> & Hv).
  destruct (positive_finite y b Hy Hb) as (m' & e' & -> & -> & Hv').
  cbn [f64_mul SFmul xorb]. pose proof (binary_round_aux_spec false (Zpos (m * m')) 1 (e + e')) as H.
  unfold loc_of in H. rewrite Z.div_1_r, Z.mod_1_r, Z.mul_1_l in H.
  pose proof (valid_bounds _ _ _ Hv) as (Hm & He & Hn). pose proof (valid_bounds _ _ _ Hv') as (Hm' & He' & Hn').
  rewrite (rnd_eq _ _ (Zpos (m * m') * 2 ^ Z.max (e + e' + 1074) 0) (2 ^ Z.max (- (e + e' + 1074)) 0)).
  - apply H; [lia..|]. rewrite fexp64_eq, Zdigits2_log2 by lia.
    pose proof (Z.log2_nonneg (Zpos (m * m'))).
    assert (Hl : -1074 < e ∨ -1074 < e' → 52 <= Z.log2 (Zpos (m * m'))).
    { intros Ho. apply Z.log2_le_pow2; [lia|]. rewrite Pos2Z.inj_mul. destruct Ho as [Ho|Ho]; [specialize (Hn Ho)|specialize (Hn' Ho)]; nia. }
    destruct (Z.eq_dec e (-1074)), (Z.eq_dec e' (-1074)); lia.
  - lia.
  - lia.
  - lia.
  - rewrite Pos2Z.inj_mul.
    transitivity (Zpos m * Zpos m' * (2 ^ (e + 1074) * 2 ^ (e' + 1074) * 2 ^ Z.max (- (e + e' + 1074)) 0)); [ring|].
    transitivity (Zpos m * Zpos m' * (2 ^ Z.max (e + e' + 1074) 0 * 2 ^ 1074)); [|ring].
    f_equal. rewrite <- !Z.pow_add_r by lia. f_equal. lia.
Qed.

Lemma SFdiv_core_spec m e m' e' :
  let '(q, z, l) := SFdiv_core_binary 53 1024 (Zpos m) e (Zpos m') e' in
  ∃ n, 0 <= n ∧ q = n / Zpos m' ∧ l = loc_of n (Zpos m') ∧ n = Zpos m * 2 ^ (e - e' - z) ∧ z <= e - e' ∧
    z <= fexp64 (Zdigits2 q + z).
Proof.
  unfold SFdiv_core_binary. cbn zeta. set (z := Z.min _ (e - e')). set (s := e - e' - z).
  assert (Hs : 0 <= s) by lia.
  replace (match s with Z0 => Zpos m | Zpos _ => Z.shiftl (Zpos m) s | Zneg _ => 0 end) with (Zpos m * 2 ^ s).
  2: { rewrite Z.shiftl_mul_pow2 by lia. destruct s; [cbn; lia|done|lia]. }
  set (n := Zpos m * 2 ^ s). assert (Hn : 0 < n) by (apply Z.mul_pos_pos; lia).
  pose proof (Z.div_mod n (Zpos m') ltac:(lia)) as E. pose proof (Z.mod_pos_bound n (Zpos m') ltac:(lia)) as B.
  rewrite (surjective_pairing (Z.div_eucl n (Zpos m'))).
  replace (Z.div_eucl n (Zpos m')).1 with (n / Zpos m') by (unfold Z.div; by destruct (Z.div_eucl _ _)).
  replace (Z.div_eucl n (Zpos m')).2 with (n mod Zpos m') by (unfold Z.modulo; by destruct (Z.div_eucl _ _)).
  exists n. split_and!; [lia|done| |done|lia|].
  - unfold loc_of, new_location, new_location_even, new_location_odd. set (r := n mod Zpos m') in *.
    destruct (Z.even (Zpos m')) eqn:Ee; [done|]. destruct (r =? 0); [done|]. f_equal.
    assert (Zpos m' = 2 * (Zpos m' / 2) + 1).
    { rewrite (Z.div_mod (Zpos m') 2) at 1 by lia. rewrite Zmod_odd, <- Z.negb_even, Ee. done. }
    destruct (Z.compare_spec (2 * r + 1) (Zpos m')), (Z.compare_spec (2 * r) (Zpos m')); (done || lia).
  - rewrite fexp64_eq. destruct (Z.le_gt_cases z (-1074)) as [|Hz]; [lia|].
    assert (Hb : 53 + Z.log2 (Zpos m') + 1 <= Z.log2 (Zpos m) + 1 + s).
    { assert (Ez : z <= fexp64 (Zdigits2 (Zpos m) + e - (Zdigits2 (Zpos m') + e'))) by apply Z.le_min_l.
      rewrite fexp64_eq, !Zdigits2_log2 in Ez by lia. lia. }
    assert (Hq : 2 ^ 52 <= n / Zpos m').
    { apply Z.div_le_lower_bound; [lia|].
      pose proof (Z.log2_spec (Zpos m') ltac:(lia)) as [_ U]. pose proof (Z.log2_spec (Zpos m) ltac:(lia)) as [L _].
      trans (2 ^ Z.succ (Z.log2 (Zpos m')) * 2 ^ 52); [apply Z.mul_le_mono_nonneg_r; lia|].
      trans (2 ^ Z.log2 (Zpos m) * 2 ^ s); [|apply Z.mul_le_mono_nonneg_r; lia].
      pose proof (Z.log2_nonneg (Zpos m')). pose proof (Z.log2_nonneg (Zpos m)).
      rewrite <- !Z.pow_add_r by lia. apply Z.pow_le_mono_r; lia. }
    rewrite Zdigits2_log2 by lia. assert (52 <= Z.log2 (n / Zpos m')) by (apply Z.log2_le_pow2; lia). lia.
Qed.

Lemma f64_div_pos x y a b :
  denotes x a → denotes y b → 0 < a < INF → 0 < b < INF → denotes (f64_div x y) (Z.min (rnd (a * 2 ^ 1074) b) INF).
Proof.
  intros Hx Hy Ha Hb. destruct (positive_finite x a Hx Ha) as (m & e & -> & -> & Hv).
  destruct (positive_finite y b Hy Hb) as (m' & e' & -> & -> & Hv').
  cbn [f64_div SFdiv xorb]. pose proof (SFdiv_core_spec m e m' e') as H.
  destruct (SFdiv_core_binary _ _ _ _ _ _) as [[q z] l]. destruct H as (n & Hn & -> & -> & En & Hz & Hp).
  pose proof (binary_round_aux_spec false n (Zpos m') z Hn ltac:(lia) Hp) as H.
  pose proof (valid_bounds _ _ _ Hv) as (_ & He & _). pose proof (valid_bounds _ _ _ Hv') as (_ & He' & _).
  rewrite (rnd_eq _ _ (n * 2 ^ Z.max (z + 1074) 0) (Zpos m' * 2 ^ Z.max (- (z + 1074)) 0)); [done|lia|lia|lia|].
  rewrite En.
  transitivity (Zpos m * Zpos m' * (2 ^ (e + 1074) * 2 ^ 1074 * 2 ^ Z.max (- (z + 1074)) 0)); [ring|].
  transitivity (Zpos m * Zpos m' * (2 ^ (e - e' - z) * 2 ^ Z.max (z + 1074) 0 * 2 ^ (e' + 1074))); [|ring].
  f_equal. rewrite <- !Z.pow_add_r by lia. f_equal. lia.
Qed.

(** ** Finite numbers *)

(** A finite number above zero, or not below it. *)
Definition fpos (x : f64) : bool :=
  match x with S754_finite false _ _ => valid_binary 53 1024 x | _ => false end.
Definition fnonneg (x : f64) : bool :=
  match x with S754_zero _ => true | _ => fpos x end.

Lemma fpos_denotes x : fpos x = true ↔ ∃ v, denotes x v ∧ 0 < v < INF.
Proof.
  split.
  - destruct x as [|[]| |[] m e]; try done. intros Hv. eexists. split; [done|]. cbn [signed].
    by apply (denotes_lt_INF false m e).
  - intros (v & Hx & Hv). by destruct (positive_finite x v Hx Hv) as (m & e & -> & _ & Hv').
Qed.

Lemma denotes_zero x : denotes x 0 ↔ ∃ s, x = S754_zero s.
Proof.
  split; [|by intros [s ->]]. intros Hx. destruct x as [s|s| |s m e]; [by exists s|..].
  - apply denotes_infinity in Hx. by destruct s.
  - by destruct Hx.
  - apply denotes_finite in Hx as (E & He & _). assert (0 < 2 ^ (e + 1074)) by lia. destruct s; cbn [signed] in E; nia.
Qed.

Lemma fnonneg_denotes x : fnonneg x = true ↔ ∃ v, denotes x v ∧ 0 <= v < INF.
Proof.
  pose proof INF_pos. split.
  - intros Hx. assert (x = S754_zero true ∨ x = S754_zero false ∨ fpos x = true) as [->|[->|Hp]]
      by (destruct x as [[]|[]| |[] ? ?]; auto).
    1,2: exists 0; split; [done|lia]. apply fpos_denotes in Hp as (v & ? & ?). exists v. split; [done|lia].
  - intros (v & Hx & Hv). destruct (Z.eq_dec v 0) as [->|]; [by apply denotes_zero in Hx as [s ->]|].
    assert (fpos x = true) as Hp by (apply fpos_denotes; exists v; split; [done|lia]). by destruct x as [|[]| |[]].
Qed.

Lemma f64_mul_nonneg x y a b :
  denotes x a → denotes y b → 0 <= a < INF → 0 <= b < INF → denotes (f64_mul x y) (Z.min (rnd (a * b) (2 ^ 1074)) INF).
Proof.
  intros Hx Hy Ha Hb. destruct (Z.eq_dec a 0) as [->|]; [|destruct (Z.eq_dec b 0) as [->|]].
  - rewrite Z.mul_0_l. apply denotes_zero in Hx as [s ->]. destruct y as [s'|s'| |s' m' e']; try done; [|by destruct Hy].
    apply denotes_infinity in Hy. destruct s'; cbn [signed] in Hy; lia.
  - rewrite Z.mul_0_r. apply denotes_zero in Hy as [s ->]. destruct x as [s'|s'| |s' m' e']; try done; [|by destruct Hx].
    apply denotes_infinity in Hx. destruct s'; cbn [signed] in Hx; lia.
  - apply f64_mul_pos; [done..|lia|lia].
Qed.

(** A quotient by a positive finite number. *)
Definition div_round (a b : Z) : Z := if a =? INF then INF else Z.min (rnd (a * 2 ^ 1074) b) INF.

Lemma f64_div_nonneg x y a b :
  denotes x a → denotes y b → 0 <= a → 0 < b < INF → denotes (f64_div x y) (div_round a b).
Proof.
  intros Hx Hy Ha Hb. unfold div_round. pose proof (denotes_range x a Hx).
  destruct (positive_finite y b Hy Hb) as (m & e & -> & _ & _). destruct (Z.eqb_spec a INF) as [->|].
  - by apply denotes_INF in Hx as ->.
  - destruct (Z.eq_dec a 0) as [->|]; [|apply f64_div_pos; [done..|lia|lia]].
    apply denotes_zero in Hx as [s ->]. rewrite Z.mul_0_l. assert (rnd 0 b = 0) as ->; [|by destruct s].
    rewrite <- (rnd_exact 0 0 b) at 2 by lia. done.
Qed.

Lemma div_round_mono a b a' b' : 0 <= a <= a' → a' <= INF → 0 < b' <= b → div_round a b <= div_round a' b'.
Proof.
  intros. unfold div_round. destruct (Z.eqb_spec a INF), (Z.eqb_spec a' INF); try lia.
  apply Z.min_le_compat_r, rnd_mono; nia.
Qed.

Lemma div_round_nonneg a b : 0 <= a → 0 < b → 0 <= div_round a b.
Proof.
  intros. pose proof INF_pos. unfold div_round. case_match; [lia|].
  assert (rnd 0 1 <= rnd (a * 2 ^ 1074) b) by (apply rnd_mono; lia). change (rnd 0 1) with 0 in *. lia.
Qed.

Lemma f64_of_u64_exact k : 0 <= k <= 2 ^ 53 → denotes (f64_of_u64 k) (k * 2 ^ 1074).
Proof.
  intros Hk. replace (k * 2 ^ 1074) with (sround (k * 2 ^ (0 + 1074))); [by apply binary_normalize_spec|].
  rewrite sround_nonneg by lia. change (0 + 1074) with 1074.
  pose proof (rnd_exact_le k 1074 1 ltac:(lia) ltac:(lia) ltac:(lia)) as E. rewrite Z.mul_1_r in E. rewrite E.
  apply Z.min_l. change INF with (2 ^ 1024 * 2 ^ 1074). apply Z.mul_le_mono_nonneg_r; [lia|].
  assert (2 ^ 53 <= 2 ^ 1024) by (apply Z.pow_le_mono_r; lia). lia.
Qed.

Lemma denotes_one : denotes (f64_of_u64 1) (2 ^ 1074).
Proof. by apply (f64_of_u64_exact 1). Qed.

(** ** Rounding to an integer *)

(** [x.round() as usize] of a finite number that is not negative: the nearest integer,
    ties up, saturating. *)
Definition nearest (v : Z) : Z := (2 * v + 2 ^ 1074) / (2 * 2 ^ 1074).

Lemma f64_as_usize_spec x v : denotes x v → 0 <= v < INF → f64_as_usize x = Z.min (v / 2 ^ 1074) U64_MAX.
Proof.
  intros Hx Hv. destruct (Z.eq_dec v 0) as [->|]; [by apply denotes_zero in Hx as [s ->]|].
  destruct (positive_finite x v Hx ltac:(lia)) as (m & e & -> & -> & Hval).
  pose proof (valid_bounds _ _ _ Hval) as (_ & He & _). cbn [f64_as_usize]. f_equal.
  destruct (Z.leb_spec 0 e).
  - rewrite Z.pow_add_r, Z.mul_assoc, Z.div_mul by lia. done.
  - assert (2 ^ 1074 = 2 ^ (- e) * 2 ^ (e + 1074)) as -> by (rewrite <- Z.pow_add_r by lia; f_equal; lia).
    by rewrite Z.div_mul_cancel_r by lia.
Qed.

Lemma nearest_scale m P Q : 0 < P → 0 < Q →
  (2 * (m * Q) + P * Q) / (2 * (P * Q)) = m / P + (if P <=? 2 * (m mod P) then 1 else 0).
Proof.
  intros HP HQ. replace (2 * (m * Q) + P * Q) with ((2 * m + P) * Q) by ring.
  replace (2 * (P * Q)) with (2 * P * Q) by ring. rewrite Z.div_mul_cancel_r by lia.
  pose proof (Z.div_mod m P ltac:(lia)) as E. pose proof (Z.mod_pos_bound m P HP).
  symmetry. destruct (Z.leb_spec P (2 * (m mod P))).
  - apply Z.div_unique with (2 * (m mod P) - P); lia.
  - apply Z.div_unique with (2 * (m mod P) + P); lia.
Qed.

Lemma f64_round_spec x v : denotes x v → 0 <= v < INF → f64_as_usize (f64_round x) = Z.min (nearest v) U64_MAX.
Proof.
  intros Hx Hv. destruct (Z.eq_dec v 0) as [->|Hne]; [by apply denotes_zero in Hx as [s ->]|].
  destruct (positive_finite x v Hx ltac:(lia)) as (m & e & -> & Ev & Hval).
  pose proof (valid_bounds _ _ _ Hval) as (Hm & He & _). cbn [f64_round]. unfold nearest.
  destruct (Z.leb_spec 0 e).
  - rewrite (f64_as_usize_spec _ v Hx Hv). f_equal. rewrite Ev, Z.pow_add_r, Z.mul_assoc, Z.div_mul by lia.
    set (U := 2 ^ 1074). assert (0 < U) by done. apply Z.div_unique with U; lia.
  - assert (EU : 2 ^ 1074 = 2 ^ (- e) * 2 ^ (e + 1074)) by (rewrite <- Z.pow_add_r by lia; f_equal; lia).
    rewrite Ev, EU, nearest_scale by lia. set (P := 2 ^ (- e)). assert (HP : 2 <= P) by (apply (Z.pow_le_mono_r 2 1); lia).
    set (n := Zpos m / P + _). pose proof (Z.mod_pos_bound (Zpos m) P ltac:(lia)).
    assert (Hn : 0 <= n <= 2 ^ 53).
    { assert (0 <= Zpos m / P) by (apply Z.div_pos; lia). assert (Zpos m / P <= Zpos m) by (apply Z.div_le_upper_bound; nia).
      unfold n. case_match; lia. }
    destruct n as [|p|p]; [done| |lia].
    pose proof (f64_of_u64_exact (Zpos p) Hn) as D. assert (Zpos p * 2 ^ 1074 < INF).
    { change INF with (2 ^ 1024 * 2 ^ 1074). apply Z.mul_lt_mono_pos_r; [done|].
      apply Z.le_lt_trans with (2 ^ 53); [lia|]. apply Z.pow_lt_mono_r; lia. }
    change (binary_normalize _ _ _ _ _) with (f64_of_u64 (Zpos p)). rewrite (f64_as_usize_spec _ _ D) by lia.
    by rewrite Z.div_mul by lia.
Qed.

Lemma nearest_mono v w : v <= w → nearest v <= nearest w.
Proof. intros. apply Z.div_le_mono; lia. Qed.

(** The position of a percentile in a sorted list whose last position is [last]. *)
Definition pct_index (last : Z) (q : f64) : Z := Z.min (f64_as_usize (f64_round (f64_mul (f64_of_u64 last) q))) last.

(** It is in range, and higher percentiles are at higher positions. *)
Lemma pct_index_range last q : 0 <= last → 0 <= pct_index last q <= last.
Proof.
  intros. unfold pct_index. assert (0 <= f64_as_usize (f64_round (f64_mul (f64_of_u64 last) q))); [|lia].
  generalize (f64_round (f64_mul (f64_of_u64 last) q)). intros [|[]| |[] m e]; cbn [f64_as_usize]; try width_lia.
  destruct (Z.leb_spec 0 e); [width_lia|]. assert (0 <= Zpos m / 2 ^ (- e)) by (apply Z.div_pos; lia). width_lia.
Qed.

Lemma f64_of_u64_pos n : 0 < n <= U64_MAX → ∃ v, denotes (f64_of_u64 n) v ∧ 0 < v < INF.
Proof.
  intros Hn. pose proof (binary_normalize_spec n 0 false ltac:(lia)) as H. eexists. split; [exact H|].
  rewrite sround_nonneg by lia. change (0 + 1074) with 1074. split.
  - apply Z.min_glb_lt; [|apply INF_pos]. apply Z.lt_le_trans with (rnd (2 ^ 1074) 1); [by vm_compute|]. apply rnd_mono; lia.
  - apply Z.le_lt_trans with (rnd (2 ^ 64 * 2 ^ 1074) 1); [|by vm_compute].
    etrans; [apply Z.le_min_l|]. apply rnd_mono; [lia..|]. rewrite !Z.mul_1_r. apply Z.mul_le_mono_nonneg_r; width_lia.
Qed.

(** A positive integer converts to a number between one and [2 ^ 64]. *)
Lemma f64_of_u64_range n : 1 <= n <= U64_MAX → ∃ v, denotes (f64_of_u64 n) v ∧ 2 ^ 1074 <= v <= 2 ^ 64 * 2 ^ 1074.
Proof.
  intros Hn. pose proof (binary_normalize_spec n 0 false ltac:(lia)) as H. eexists. split; [exact H|].
  rewrite sround_nonneg by lia. change (0 + 1074) with 1074. split.
  - apply Z.min_glb; [|by vm_compute]. replace (2 ^ 1074) with (rnd (2 ^ 1074) 1) at 1 by by vm_compute. apply rnd_mono; lia.
  - etrans; [apply Z.le_min_l|]. replace (2 ^ 64 * 2 ^ 1074) with (rnd (2 ^ 64 * 2 ^ 1074) 1) by by vm_compute.
    apply rnd_mono; [lia..|]. rewrite !Z.mul_1_r. apply Z.mul_le_mono_nonneg_r; width_lia.
Qed.

Lemma f64_of_u64_nonneg n : 0 <= n <= U64_MAX → ∃ v, denotes (f64_of_u64 n) v ∧ 0 <= v < INF.
Proof.
  intros Hn. destruct (Z.eq_dec n 0) as [->|]; [by exists 0|].
  destruct (f64_of_u64_pos n ltac:(lia)) as (v & Hv & Hv'). exists v. split; [done|lia].
Qed.

(** A percentile given as a fraction. *)
Definition fraction (q : f64) : Prop := fnonneg q = true ∧ f64_le q (f64_of_u64 1) = true.

Lemma pct_index_mono last q q' :
  0 <= last <= U64_MAX → fraction q → fraction q' → f64_le q q' = true → pct_index last q <= pct_index last q'.
Proof.
  intros Hl [(b & Hb & Bb)%fnonneg_denotes H1] [(b' & Hb' & Bb')%fnonneg_denotes H1'] Hle.
  rewrite (f64_le_denotes _ _ _ _ Hb denotes_one) in H1. rewrite (f64_le_denotes _ _ _ _ Hb' denotes_one) in H1'.
  rewrite (f64_le_denotes _ _ _ _ Hb Hb') in Hle. apply Z.leb_le in H1, H1', Hle.
  destruct (f64_of_u64_nonneg last Hl) as (a & Ha & Ba). unfold pct_index.
  assert (Hfin : ∀ z, 0 <= z <= 2 ^ 1074 → 0 <= Z.min (rnd (a * z) (2 ^ 1074)) INF < INF).
  { intros z Hz. pose proof (sround_denotes _ a Ha) as E. rewrite sround_nonneg in E by lia. split.
    - apply Z.min_glb; [|lia]. change 0 with (rnd 0 1). apply rnd_mono; nia.
    - apply Z.le_lt_trans with a; [|lia]. rewrite <- E at 2. apply Z.min_le_compat_r, rnd_mono; [nia|done|done|nia]. }
  rewrite (f64_round_spec _ _ (f64_mul_nonneg _ _ _ _ Ha Hb Ba Bb) (Hfin b ltac:(lia))).
  rewrite (f64_round_spec _ _ (f64_mul_nonneg _ _ _ _ Ha Hb' Ba Bb') (Hfin b' ltac:(lia))).
  apply Z.min_le_compat_r, Z.min_le_compat_r, nearest_mono, Z.min_le_compat_r, rnd_mono; nia.
Qed.
