(* ===== verification/State.v ===== *)
(** * State: operations, their wire format and the key-value store
    ([crates/onebarrier/src/state.rs])

    - [Op], [OpKind], [Output]: requests and results;
    - [Reader]: the bounds-checked little-endian reader;
    - [encode] and [decode]: the wire and log format of an operation;
    - [StateMachine]: the trait the engine replicates, with the laws it relies
      on ([StateMachineOk]);
    - [KvStore]: the Redis-like store that implements the trait. *)

From S2P Require Import Prelude Bytes Text.
Local Open Scope Z_scope.

(** ** Operations *)

Inductive OpKind :=
  | KSet (key : bytes) (val : bytes)
  | KIncr (key : bytes) (delta : Z)
  | KDel (key : bytes)
  | KGet (key : bytes)
  | KTxn (writes : list (bytes * option bytes)).

Record Op := mkOp { op_client : Z; op_seq : Z; op_kind : OpKind }.

Inductive Output :=
  | OutOk
  | OutValue (v : option Z)
  | OutBytes (v : option bytes)
  | OutSuppressed.

#[export] Instance OpKind_eq_dec : EqDecision OpKind.
Proof. solve_decision. Defined.
#[export] Instance Op_eq_dec : EqDecision Op.
Proof. solve_decision. Defined.
#[export] Instance Output_eq_dec : EqDecision Output.
Proof. solve_decision. Defined.

Definition op_set_bytes (c s : Z) (key val : bytes) : Op := mkOp c s (KSet key val).
Definition op_set (c s : Z) (key : bytes) (val : Z) : Op := op_set_bytes c s key (to_string val).
Definition op_incr (c s : Z) (key : bytes) (delta : Z) : Op := mkOp c s (KIncr key delta).
Definition op_del (c s : Z) (key : bytes) : Op := mkOp c s (KDel key).
Definition op_get (c s : Z) (key : bytes) : Op := mkOp c s (KGet key).
Definition op_txn (c s : Z) (writes : list (bytes * option bytes)) : Op := mkOp c s (KTxn writes).

(** ** The reader *)

Record Reader := mkReader { rd_b : bytes; rd_pos : nat }.

Definition reader_new (b : bytes) : Reader := mkReader b 0.

(** A reading step: [None] past the end. *)
Definition Rd (A : Type) := Reader → option (A * Reader).
#[export] Instance Rd_ret : MRet Rd := λ A a r, Some (a, r).
#[export] Instance Rd_bind : MBind Rd := λ A B k m r, '(a, r') ← m r; k a r'.

Definition rd_fail {A} : Rd A := λ _, None.
(** [e?] on an [Option] that is not a read. *)
Definition rd_opt {A} (o : option A) : Rd A := λ r, (λ a, (a, r)) <$> o.

Definition rd_u8 : Rd byte := λ r,
  v ← rd_b r !! rd_pos r; Some (v, mkReader (rd_b r) (S (rd_pos r))).

Definition rd_bytes (n : nat) : Rd bytes := λ r,
  if (rd_pos r + n <=? length (rd_b r))%nat
  then Some (take n (drop (rd_pos r) (rd_b r)), mkReader (rd_b r) (rd_pos r + n))
  else None.

Definition rd_uint (n : nat) : Rd Z := b ← rd_bytes n; mret (from_le_bytes b).
Definition rd_u16 : Rd Z := rd_uint 2.
Definition rd_u32 : Rd Z := rd_uint 4.
Definition rd_u64 : Rd Z := rd_uint 8.
Definition rd_i64 : Rd Z := b ← rd_bytes 8; mret (i64_from_le_bytes b).

(** [r.bytes(n as usize)] for an integer just read *)
Definition rd_slice (n : Z) : Rd bytes := rd_bytes (Z.to_nat n).

(** A read whose [Option] is kept: one that fails does not move the reader. *)
Definition try_read {A} (m : Rd A) (r : Reader) : option A * Reader :=
  match m r with
  | Some (a, r') => (Some a, r')
  | None => (None, r)
  end.

(** [for _ in 0..n { .. v.push(..) }] *)
Fixpoint rd_repeat {A} (n : nat) (m : Rd A) : Rd (list A) :=
  match n with
  | O => mret []
  | S n => a ← m; l ← rd_repeat n m; mret (a :: l)
  end.

(** ** The wire format *)

(** [u16::try_from(l.len()).unwrap_or(u16::MAX)] and the [u32] variant, as bytes *)
Definition len16 {A} (l : list A) : bytes := to_le_bytes 2 (try_from_or_max U16_MAX (len l)).
Definition len32 {A} (l : list A) : bytes := to_le_bytes 4 (try_from_or_max U32_MAX (len l)).

Definition encode_write (w : bytes * option bytes) : bytes :=
  len16 w.1 ++ w.1 ++
  match w.2 with
  | Some v => [Byte.x01] ++ len32 v ++ v
  | None => [Byte.x00]
  end.

Definition op_tag (k : OpKind) : byte * bytes :=
  match k with
  | KSet k _ => (Byte.x00, k)
  | KIncr k _ => (Byte.x01, k)
  | KGet k => (Byte.x02, k)
  | KDel k => (Byte.x03, k)
  | KTxn _ => (Byte.x04, [])
  end.

Definition encode_body (k : OpKind) : bytes :=
  match k with
  | KSet _ v => len32 v ++ v
  | KIncr _ d => to_le_bytes 8 d
  | KGet _ | KDel _ => []
  | KTxn ws => len16 ws ++ concat (map encode_write ws)
  end.

Definition encode (op : Op) : bytes :=
  let '(tag, key) := op_tag (op_kind op) in
  [tag] ++ to_le_bytes 4 (op_client op) ++ to_le_bytes 8 (op_seq op) ++
  len16 key ++ key ++ encode_body (op_kind op).

Definition decode_write : Rd (bytes * option bytes) :=
  kl ← rd_u16;
  kb ← rd_slice kl;
  k ← rd_opt (from_utf8 kb);
  t ← rd_u8;
  v ← match t with
      | Byte.x01 => vl ← rd_u32; v ← rd_slice vl; mret (Some v)
      | _ => mret None
      end;
  mret (k, v).

Definition decode_kind (tag : byte) (key : bytes) : Rd OpKind :=
  match tag with
  | Byte.x00 => vl ← rd_u32; v ← rd_slice vl; mret (KSet key v)
  | Byte.x01 => d ← rd_i64; mret (KIncr key d)
  | Byte.x02 => mret (KGet key)
  | Byte.x03 => mret (KDel key)
  | Byte.x04 => n ← rd_u16; ws ← rd_repeat (Z.to_nat n) decode_write; mret (KTxn ws)
  | _ => rd_fail
  end.

Definition decode_op : Rd Op :=
  tag ← rd_u8;
  c ← rd_u32;
  s ← rd_u64;
  klen ← rd_u16;
  kb ← rd_slice klen;
  key ← rd_opt (from_utf8 kb);
  kind ← decode_kind tag key;
  mret (mkOp c s kind).

Definition decode (b : bytes) : option Op := fst <$> decode_op (reader_new b).

(** ** The state machine trait *)

(** [apply] returning [None] is a panic; [snapshot] and [restore] are total. *)
Class StateMachine (S : Type) := {
  sm_default : S;
  sm_apply : S → Op → option (S * Output);
  sm_snapshot : S → bytes;
  sm_restore : bytes → S;
}.

(** ** The key-value store *)

Record KvStore := mkKv { kv_map : gmap bytes bytes }.

#[export] Instance KvStore_eq_dec : EqDecision KvStore.
Proof. solve_decision. Defined.

Definition kv_default : KvStore := mkKv ∅.
Definition get_bytes (s : KvStore) (key : bytes) : option bytes := kv_map s !! key.
Definition get_int (s : KvStore) (key : bytes) : option Z := v ← kv_map s !! key; parse_trimmed v.
Definition kv_len (s : KvStore) : Z := Z.of_nat (size (kv_map s)).
Definition kv_is_empty (s : KvStore) : bool := bool_decide (kv_map s = ∅).

Definition entries (s : KvStore) : list (bytes * Z) :=
  omap (λ kv, (λ z, (kv.1, z)) <$> parse_trimmed kv.2) (btree_iter (kv_map s)).

Definition apply_write (m : gmap bytes bytes) (w : bytes * option bytes) : gmap bytes bytes :=
  match w.2 with
  | Some v => <[w.1 := v]> m
  | None => delete w.1 m
  end.

Definition kv_apply (am : arith_mode) (s : KvStore) (op : Op) : option (KvStore * Output) :=
  match op_kind op with
  | KSet k v => Some (mkKv (<[k := v]> (kv_map s)), OutOk)
  | KIncr k d =>
      let cur := default 0 (get_int s k) in
      next ← i64_arith am (cur + d);
      Some (mkKv (<[k := to_string next]> (kv_map s)), OutValue (Some next))
  | KDel k =>
      let n := if kv_map s !! k is Some _ then 1 else 0 in
      Some (mkKv (delete k (kv_map s)), OutValue (Some n))
  | KGet k => Some (s, OutBytes (kv_map s !! k))
  | KTxn ws =>
      Some (mkKv (fold_left apply_write ws (kv_map s)), OutValue (Some (len ws)))
  end.

Definition encode_entry (kv : bytes * bytes) : bytes :=
  len16 kv.1 ++ kv.1 ++ len32 kv.2 ++ kv.2.

Definition kv_snapshot (s : KvStore) : bytes :=
  to_le_bytes 4 (try_from_or_max U32_MAX (Z.of_nat (size (kv_map s)))) ++
  concat (map encode_entry (btree_iter (kv_map s))).

(** One iteration of the loop of [restore]; a failed read breaks, and a read that
    fails does not move the reader. *)
Definition restore_entry (mr : gmap bytes bytes * Reader) : Flow (gmap bytes bytes * Reader) :=
  let '(m, r) := mr in
  match rd_u16 r with
  | None => Break (m, r)
  | Some (klen, r) =>
      match rd_slice klen r with
      | None => Break (m, r)
      | Some (kb, r) =>
          match rd_u32 r with
          | None => Break (m, r)
          | Some (vlen, r) =>
              match rd_slice vlen r with
              | None => Break (m, r)
              | Some (vb, r) => Continue (if from_utf8 kb is Some k then <[k := vb]> m else m, r)
              end
          end
      end
  end.

Definition kv_restore (b : bytes) : KvStore :=
  match rd_u32 (reader_new b) with
  | None => mkKv ∅
  | Some (n, r) => mkKv (for_break (S (length b)) n restore_entry (∅, r)).1
  end.

(** [impl StateMachine for KvStore], compiled with overflow behaviour [am]. *)
Definition KvStore_StateMachine (am : arith_mode) : StateMachine KvStore := {|
  sm_default := kv_default;
  sm_apply := kv_apply am;
  sm_snapshot := kv_snapshot;
  sm_restore := kv_restore;
|}.

(** ** Well-formed operations *)

(** What the types of an [Op] and the fields of its encoding allow: the widths,
    UTF-8 keys of at most [u16::MAX] bytes, values of at most [u32::MAX] bytes,
    at most [u16::MAX] writes in a transaction. *)
Definition wf_key (k : bytes) : Prop := utf8 k ∧ len k <= U16_MAX.
Definition wf_val (v : bytes) : Prop := len v <= U32_MAX.
Definition wf_write (w : bytes * option bytes) : Prop :=
  wf_key w.1 ∧ match w.2 with Some v => wf_val v | None => True end.

Definition wf_kind (k : OpKind) : Prop :=
  match k with
  | KSet k v => wf_key k ∧ wf_val v
  | KIncr k d => wf_key k ∧ is_i64 d
  | KDel k | KGet k => wf_key k
  | KTxn ws => Forall wf_write ws ∧ len ws <= U16_MAX
  end.

Definition wf_op (op : Op) : Prop :=
  is_u32 (op_client op) ∧ is_u64 (op_seq op) ∧ wf_kind (op_kind op).

#[export] Instance wf_key_dec k : Decision (wf_key k) := _.
#[export] Instance wf_val_dec v : Decision (wf_val v) := _.
#[export] Instance wf_write_dec w : Decision (wf_write w).
Proof. unfold wf_write. destruct (w.2); apply _. Defined.
#[export] Instance wf_kind_dec k : Decision (wf_kind k).
Proof. destruct k; cbn [wf_kind]; apply _. Defined.
#[export] Instance wf_op_dec op : Decision (wf_op op) := _.

(** ** What the engine relies on in a state machine *)

(** [sm_inv] is the representation invariant; [sm_weight op] bounds what applying
    [op] adds to the encoded snapshot. A snapshot of less than [2^32] bytes
    restores to the state it was taken from. *)
Class StateMachineOk (S : Type) {SM : StateMachine S} := {
  sm_inv : S → Prop;
  sm_weight : Op → Z;
  sm_base : Z;
  sm_inv_default : sm_inv sm_default;
  sm_inv_apply s op s' o : wf_op op → sm_inv s → sm_apply s op = Some (s', o) → sm_inv s';
  sm_not_suppressed s op s' o : sm_apply s op = Some (s', o) → o ≠ OutSuppressed;
  sm_weight_pos op : 1 <= sm_weight op;
  sm_base_default : len (sm_snapshot sm_default) <= sm_base;
  sm_snapshot_grow s op s' o :
    sm_inv s → sm_apply s op = Some (s', o) →
    len (sm_snapshot s') <= len (sm_snapshot s) + sm_weight op;
  sm_restore_snapshot s :
    sm_inv s → len (sm_snapshot s) <= U32_MAX → sm_restore (sm_snapshot s) = s;
}.

(** ** Lemmas on the reader *)

(** [r] stands inside its input and [y] is what is left to read. *)
Definition ahead (r : Reader) (y : bytes) : Prop :=
  (rd_pos r ≤ length (rd_b r))%nat ∧ drop (rd_pos r) (rd_b r) = y.

Lemma ahead_new b : ahead (reader_new b) b.
Proof. split; [cbn; lia|done]. Qed.

(** [m] reads exactly the bytes [x], whatever follows them, and returns [a]. *)
Definition reads {A} (m : Rd A) (x : bytes) (a : A) : Prop :=
  ∀ r y, ahead r (x ++ y) → ∃ r', m r = Some (a, r') ∧ ahead r' y.

Lemma reads_ret {A} (a : A) : reads (mret a) [] a.
Proof. intros r y E. by exists r. Qed.

Lemma reads_bind {A B} (m : Rd A) (k : A → Rd B) x y a b :
  reads m x a → reads (k a) y b → reads (m ≫= k) (x ++ y) b.
Proof.
  intros Hm Hk r z E. rewrite <- app_assoc in E.
  destruct (Hm r (y ++ z) E) as (r1 & E1 & R1).
  destruct (Hk r1 z R1) as (r2 & E2 & R2).
  exists r2. unfold mbind, Rd_bind. by rewrite E1.
Qed.

Lemma reads_bind_nil {A B} (m : Rd A) (k : A → Rd B) x a b :
  reads m x a → reads (k a) [] b → reads (m ≫= k) x b.
Proof. intros. rewrite <- (app_nil_r x). by eapply reads_bind. Qed.

Lemma reads_bind_opt {A B} (o : option A) (k : A → Rd B) y a b :
  o = Some a → reads (k a) y b → reads (rd_opt o ≫= k) y b.
Proof. intros -> Hk r z E. apply Hk, E. Qed.

Lemma reads_bytes n x : length x = n → reads (rd_bytes n) x x.
Proof.
  intros <- r y [Hp E]. unfold rd_bytes.
  pose proof (f_equal length E) as El.
  destruct (Nat.leb_spec (rd_pos r + length x) (length (rd_b r))); [|len_lia].
  rewrite E, take_len_app. eexists. split; [done|]. split; [done|].
  cbn. by rewrite <- drop_drop, E, drop_len_app.
Qed.

Lemma reads_u8 b : reads rd_u8 [b] b.
Proof.
  intros r y [Hp E]. unfold rd_u8.
  assert (rd_b r !! rd_pos r = Some b) as Hb.
  { rewrite <- (Nat.add_0_r (rd_pos r)), <- lookup_drop, E. done. }
  rewrite Hb. eexists. split; [done|].
  split; [by apply lookup_lt_Some in Hb|]. cbn.
  rewrite <- Nat.add_1_r, <- drop_drop, E. done.
Qed.

Lemma reads_uint n z :
  0 <= z < 2 ^ (Z.of_nat n * 8) → reads (rd_uint n) (to_le_bytes n z) z.
Proof.
  intros Hz. unfold rd_uint. eapply reads_bind_nil; [apply reads_bytes, length_to_le_bytes|].
  rewrite from_to_le_bytes by done. apply reads_ret.
Qed.

Lemma reads_u16 z : is_u16 z → reads rd_u16 (to_le_bytes 2 z) z.
Proof. intros. apply reads_uint. width_lia. Qed.
Lemma reads_u32 z : is_u32 z → reads rd_u32 (to_le_bytes 4 z) z.
Proof. intros. apply reads_uint. width_lia. Qed.
Lemma reads_u64 z : is_u64 z → reads rd_u64 (to_le_bytes 8 z) z.
Proof. intros. apply reads_uint. width_lia. Qed.

Lemma reads_i64 z : is_i64 z → reads rd_i64 (to_le_bytes 8 z) z.
Proof.
  intros Hz. unfold rd_i64. eapply reads_bind_nil; [apply reads_bytes, length_to_le_bytes|].
  rewrite i64_from_to_le by done. apply reads_ret.
Qed.

Lemma reads_slice (x : bytes) : reads (rd_slice (len x)) x x.
Proof. apply reads_bytes. by rewrite Nat2Z.id. Qed.

Lemma reads_repeat {A} (m : Rd A) (enc : A → bytes) l :
  Forall (λ a, reads m (enc a) a) l →
  reads (rd_repeat (length l) m) (concat (map enc l)) l.
Proof.
  induction 1 as [|a l Ha _ IH]; [apply reads_ret|].
  eapply reads_bind; [exact Ha|]. eapply reads_bind_nil; [exact IH|]. apply reads_ret.
Qed.
#[export] Hint Resolve reads_ret reads_u8 reads_u16 reads_u32 reads_u64 reads_i64
  reads_slice : ob.

Lemma len16_small {A} (l : list A) : len l <= U16_MAX → len16 l = to_le_bytes 2 (len l).
Proof. intros. unfold len16. by rewrite try_from_or_max_small. Qed.
Lemma len32_small {A} (l : list A) : len l <= U32_MAX → len32 l = to_le_bytes 4 (len l).
Proof. intros. unfold len32. by rewrite try_from_or_max_small. Qed.

Lemma reads_len16 {A} (l : list A) : len l <= U16_MAX → reads rd_u16 (len16 l) (len l).
Proof. intros. rewrite len16_small by done. apply reads_u16. width_lia. Qed.
Lemma reads_len32 {A} (l : list A) : len l <= U32_MAX → reads rd_u32 (len32 l) (len l).
Proof. intros. rewrite len32_small by done. apply reads_u32. width_lia. Qed.

(** One step of a reading program: read the next field and go on. *)
Ltac reads_step :=
  first
  [ eapply reads_bind; [solve [auto using reads_len16, reads_len32 with ob] |]
  | eapply reads_bind_opt; [solve [auto with ob] |]
  | eapply reads_bind_nil; [solve [auto using reads_len16, reads_len32 with ob] |]
  | solve [auto with ob] ].

(** ** Round trip of the wire format *)

Lemma reads_write w : wf_write w → reads decode_write (encode_write w) w.
Proof.
  destruct w as [k [v|]]; intros [[Hu Hl] Hv]; cbn [fst snd] in *;
    unfold decode_write, encode_write; cbn [fst snd]; do 3 reads_step.
  - reads_step. eapply reads_bind_nil; [|reads_step]. do 3 reads_step.
  - reads_step. eapply reads_bind_nil; reads_step.
Qed.

Lemma reads_kind k :
  wf_kind k → reads (decode_kind (op_tag k).1 (op_tag k).2) (encode_body k) k.
Proof.
  destruct k as [k v|k d|k|k|ws]; cbn; intros H; inv_all; try solve [do 3 reads_step].
  reads_step. rewrite Nat2Z.id. eapply reads_bind_nil; [|reads_step].
  apply reads_repeat. eapply Forall_impl; [done|]. apply reads_write.
Qed.

Lemma op_tag_key k : wf_kind k → wf_key (op_tag k).2.
Proof. destruct k; cbn; intros; inv_all; done. Qed.

Lemma reads_op op : wf_op op → reads decode_op (encode op) op.
Proof.
  destruct op as [c s k]. intros (Hc & Hs & Hk). cbn in *.
  pose proof (op_tag_key k Hk) as [Hu Hl]. pose proof (reads_kind k Hk) as HR.
  unfold decode_op, encode. cbn [op_kind op_client op_seq].
  destruct (op_tag k) as [tag key]. cbn [fst snd] in *. do 6 reads_step.
  eapply reads_bind_nil; [exact HR|reads_step].
Qed.

Lemma decode_encode op tail : wf_op op → decode (encode op ++ tail) = Some op.
Proof.
  intros H. destruct (reads_op op H _ tail (ahead_new _)) as (r & E & _).
  unfold decode. by rewrite E.
Qed.

(** ** What [decode] can return *)

Lemma Rd_bind_Some {A B} (m : Rd A) (k : A → Rd B) r b r' :
  (m ≫= k) r = Some (b, r') → ∃ a r1, m r = Some (a, r1) ∧ k a r1 = Some (b, r').
Proof. unfold mbind, Rd_bind. intros ([a r1] & ? & ?)%bind_Some. eauto. Qed.

Lemma rd_bytes_length n r x r' : rd_bytes n r = Some (x, r') → length x = n.
Proof.
  unfold rd_bytes. destruct (Nat.leb_spec (rd_pos r + n) (length (rd_b r))); [|done].
  intros. inv_all. len_lia.
Qed.

Lemma rd_slice_length z r x r' : 0 <= z → rd_slice z r = Some (x, r') → len x = z.
Proof. intros ? H%rd_bytes_length. lia. Qed.

Lemma rd_uint_range n r z r' : rd_uint n r = Some (z, r') → 0 <= z < 2 ^ (Z.of_nat n * 8).
Proof.
  intros (b & r1 & H%rd_bytes_length & [= <- _])%Rd_bind_Some.
  pose proof (from_le_bytes_range b). subst. by rewrite Z.mul_comm.
Qed.

Lemma rd_u16_range r z r' : rd_u16 r = Some (z, r') → is_u16 z.
Proof. intros ?%rd_uint_range. width_lia. Qed.
Lemma rd_u32_range r z r' : rd_u32 r = Some (z, r') → is_u32 z.
Proof. intros ?%rd_uint_range. width_lia. Qed.
Lemma rd_u64_range r z r' : rd_u64 r = Some (z, r') → is_u64 z.
Proof. intros ?%rd_uint_range. width_lia. Qed.
Lemma rd_i64_range r z r' : rd_i64 r = Some (z, r') → is_i64 z.
Proof. intros (b & r1 & _ & [= <- _])%Rd_bind_Some. apply i64_wrap_range. Qed.

Lemma rd_opt_Some {A} (o : option A) r a r' : rd_opt o r = Some (a, r') → o = Some a.
Proof. unfold rd_opt. intros (x & ? & ?)%fmap_Some. by inv_all. Qed.

Lemma mret_Some {A} (a : A) r b r' : (mret a : Rd A) r = Some (b, r') → a = b.
Proof. unfold mret, Rd_ret. intros. by inv_all. Qed.

(** Take a successful read apart, step by step, collecting the facts above. *)
Ltac rd_inv :=
  repeat match goal with
  | H : (_ ≫= _) _ = Some _ |- _ => apply Rd_bind_Some in H as (? & ? & ? & ?)
  | H : rd_u16 _ = Some _ |- _ => apply rd_u16_range in H
  | H : rd_u32 _ = Some _ |- _ => apply rd_u32_range in H
  | H : rd_u64 _ = Some _ |- _ => apply rd_u64_range in H
  | H : rd_i64 _ = Some _ |- _ => apply rd_i64_range in H
  | H : rd_slice _ _ = Some _ |- _ => apply rd_slice_length in H; [|width_lia]
  | H : rd_opt _ _ = Some _ |- _ => apply rd_opt_Some in H
  | H : from_utf8 _ = Some _ |- _ => apply from_utf8_Some in H as [-> ?]
  | H : mret _ _ = Some _ |- _ => apply mret_Some in H
  end; subst.

Lemma decode_write_wf r w r' : decode_write r = Some (w, r') → wf_write w.
Proof.
  unfold decode_write. intros H. rd_inv.
  split; cbn; [split; [done|width_lia]|].
  match goal with H : _ = Some (?v, _) |- context [?v] => rename H into Hv; revert Hv end.
  case_match; intros Hv; rd_inv; unfold wf_val; try done; width_lia.
Qed.

Lemma rd_repeat_spec {A} (m : Rd A) (P : A → Prop) :
  (∀ r a r', m r = Some (a, r') → P a) →
  ∀ n r l r', rd_repeat n m r = Some (l, r') → Forall P l ∧ length l = n.
Proof.
  intros Hm n; induction n as [|n IH]; intros r l r' H; cbn in H; rd_inv; [done|].
  match goal with H : rd_repeat _ _ _ = _ |- _ => apply IH in H as [? ?] end.
  split; [constructor; eauto|cbn; congruence].
Qed.

Lemma decode_kind_wf tag key r k r' :
  wf_key key → decode_kind tag key r = Some (k, r') → wf_kind k.
Proof.
  intros Hk. unfold decode_kind.
  repeat match goal with |- context [match ?t with _ => _ end] => destruct t end;
    intros H; try discriminate H; rd_inv; cbn; try done;
    try (split; [done|unfold wf_val; width_lia]).
  match goal with H : rd_repeat _ _ _ = _ |- _ =>
    apply (rd_repeat_spec _ wf_write) in H as [? ?]; [|apply decode_write_wf] end.
  split; [done|width_lia].
Qed.

(** Whatever the bytes, a decoded operation is well-formed. *)
Lemma decode_wf b op : decode b = Some op → wf_op op.
Proof.
  unfold decode. intros ([op' r'] & H & ->)%fmap_Some. unfold decode_op in H. cbn.
  rd_inv. match goal with H : decode_kind _ _ _ = _ |- _ => apply decode_kind_wf in H end.
  - repeat split; cbn; try done; width_lia.
  - split; [done|width_lia].
Qed.

(** ** The key-value store meets the laws of the trait *)

Section KvLaws.
Implicit Types (m : gmap bytes bytes) (s : KvStore).

(** Keys fit their length field and are strings. *)
Definition kv_inv (s : KvStore) : Prop := ∀ k v, kv_map s !! k = Some v → wf_key k.

Definition entry_size (kv : bytes * bytes) : Z := 6 + len kv.1 + len kv.2.
Fixpoint sumZ {A} (f : A → Z) (l : list A) : Z :=
  match l with [] => 0 | x :: l => f x + sumZ f l end.
Definition kv_size (m : gmap bytes bytes) : Z := sumZ entry_size (map_to_list m).

Definition write_size (w : bytes * option bytes) : Z :=
  match w.2 with Some v => 6 + len w.1 + len v | None => 0 end.

(** What applying an operation can add to the snapshot. *)
Definition kv_weight (op : Op) : Z :=
  1 + match op_kind op with
      | KSet k v => 6 + len k + len v
      | KIncr k _ => 26 + len k
      | KTxn ws => sumZ write_size ws
      | KDel _ | KGet _ => 0
      end.

Lemma sumZ_perm {A} (f : A → Z) l1 l2 : l1 ≡ₚ l2 → sumZ f l1 = sumZ f l2.
Proof. induction 1; cbn; lia. Qed.

Lemma sumZ_nonneg {A} (f : A → Z) l : (∀ x, 0 <= f x) → 0 <= sumZ f l.
Proof. intros Hf. induction l as [|x l IH]; cbn; [lia|]. specialize (Hf x). lia. Qed.

Lemma kv_size_nonneg m : 0 <= kv_size m.
Proof. apply sumZ_nonneg. intros. unfold entry_size. lia. Qed.

Lemma kv_size_insert_fresh m k v :
  m !! k = None → kv_size (<[k:=v]> m) = entry_size (k, v) + kv_size m.
Proof.
  intros H. unfold kv_size. by rewrite (sumZ_perm _ _ _ (map_to_list_insert m k v H)).
Qed.

Lemma kv_size_delete m k : kv_size (delete k m) <= kv_size m.
Proof.
  destruct (m !! k) as [v|] eqn:E.
  - rewrite <- (insert_delete_id m k v E) at 2.
    rewrite kv_size_insert_fresh by apply lookup_delete_eq. unfold entry_size. lia.
  - rewrite delete_id by done. lia.
Qed.

Lemma kv_size_insert m k v : kv_size (<[k:=v]> m) <= kv_size m + 6 + len k + len v.
Proof.
  rewrite <- insert_delete_eq, kv_size_insert_fresh by apply lookup_delete_eq.
  pose proof (kv_size_delete m k). unfold entry_size. cbn. lia.
Qed.

Lemma kv_size_writes ws m : kv_size (fold_left apply_write ws m) <= kv_size m + sumZ write_size ws.
Proof.
  revert m; induction ws as [|[k [v|]] ws IH]; intros m; cbn; [lia| |].
  - etrans; [apply IH|]. pose proof (kv_size_insert m k v). unfold write_size. cbn. lia.
  - etrans; [apply IH|]. pose proof (kv_size_delete m k). unfold write_size. cbn. lia.
Qed.

Lemma length_concat_map {A B} (f : A → list B) l : len (concat (map f l)) = sumZ (λ x, len (f x)) l.
Proof. induction l as [|x l IH]; [done|]. cbn. rewrite length_app. lia. Qed.

Lemma len_kv_snapshot s : len (kv_snapshot s) = 4 + kv_size (kv_map s).
Proof.
  unfold kv_snapshot, kv_size. rewrite length_app, length_to_le_bytes, Nat2Z.inj_add, length_concat_map.
  rewrite (sumZ_perm _ _ _ (btree_iter_perm (kv_map s))). f_equal.
  induction (map_to_list (kv_map s)) as [|[k v] l IH]; [done|]. cbn. rewrite IH.
  f_equal. unfold encode_entry, entry_size, len16, len32. len_lia.
Qed.

(** A store whose snapshot fits has few enough entries and short enough values. *)
Lemma kv_size_entry m k v : m !! k = Some v → 6 + len k + len v <= kv_size m.
Proof.
  intros E. rewrite <- (insert_delete_id m k v E).
  rewrite kv_size_insert_fresh by apply lookup_delete_eq.
  pose proof (kv_size_nonneg (delete k m)). unfold entry_size. cbn. lia.
Qed.

Lemma kv_size_count m : Z.of_nat (size m) <= kv_size m.
Proof.
  unfold kv_size. rewrite <- length_map_to_list.
  induction (map_to_list m) as [|[k v] l IH]; cbn; [lia|]. unfold entry_size at 1; cbn; lia.
Qed.

Lemma kv_inv_insert m k v : kv_inv (mkKv m) → wf_key k → kv_inv (mkKv (<[k:=v]> m)).
Proof.
  intros Hm Hk k' v'. cbn. rewrite lookup_insert. case_decide; [naive_solver|]. apply Hm.
Qed.

Lemma kv_inv_delete m k : kv_inv (mkKv m) → kv_inv (mkKv (delete k m)).
Proof. intros Hm k' v'. cbn. rewrite lookup_delete_Some. intros [_ ?]. by eapply Hm. Qed.

Lemma kv_inv_writes ws m :
  kv_inv (mkKv m) → Forall wf_write ws → kv_inv (mkKv (fold_left apply_write ws m)).
Proof.
  intros Hm Hw; revert m Hm. induction Hw as [|[k [v|]] ws [Hk _] _ IH]; intros m Hm; cbn; [done| |];
    apply IH; unfold apply_write; cbn; auto using kv_inv_insert, kv_inv_delete.
Qed.

Lemma kv_inv_apply am s op s' o :
  wf_op op → kv_inv s → kv_apply am s op = Some (s', o) → kv_inv s'.
Proof.
  intros (_ & _ & Hk) Hs. destruct s as [m]. unfold kv_apply. destruct (op_kind op); cbn in *; inv_all.
  - intros. inv_all. auto using kv_inv_insert.
  - intros (z & _ & ?)%bind_Some. inv_all. auto using kv_inv_insert.
  - intros. inv_all. auto using kv_inv_delete.
  - intros. by inv_all.
  - intros. inv_all. auto using kv_inv_writes.
Qed.

Lemma kv_snapshot_grow am s op s' o :
  kv_apply am s op = Some (s', o) → len (kv_snapshot s') <= len (kv_snapshot s) + kv_weight op.
Proof.
  rewrite !len_kv_snapshot. destruct s as [m]. unfold kv_apply, kv_weight.
  destruct (op_kind op); cbn; intros E.
  - inv_all. pose proof (kv_size_insert m key val). cbn. lia.
  - apply bind_Some in E as (z & Hz%i64_arith_range & ?). inv_all.
    pose proof (kv_size_insert m key (to_string z)). pose proof (length_to_string z Hz). cbn. lia.
  - inv_all. pose proof (kv_size_delete m key). cbn. lia.
  - inv_all. cbn. lia.
  - inv_all. pose proof (kv_size_writes writes m). cbn. lia.
Qed.

Lemma kv_not_suppressed am s op s' o : kv_apply am s op = Some (s', o) → o ≠ OutSuppressed.
Proof.
  unfold kv_apply. destruct (op_kind op); cbn; try (intros; by inv_all).
  intros (z & _ & ?)%bind_Some. by inv_all.
Qed.

Lemma restore_entry_ok m r k v y :
  wf_key k → wf_val v → ahead r (encode_entry (k, v) ++ y) →
  ∃ r', restore_entry (m, r) = Continue (<[k:=v]> m, r') ∧ ahead r' y.
Proof.
  intros [Hu Hl] Hv HA. unfold encode_entry in HA. cbn [fst snd] in HA. rewrite <- !app_assoc in HA.
  destruct (reads_len16 k Hl _ _ HA) as (r1 & E1 & HA1).
  destruct (reads_slice k _ _ HA1) as (r2 & E2 & HA2).
  destruct (reads_len32 v Hv _ _ HA2) as (r3 & E3 & HA3).
  destruct (reads_slice v _ _ HA3) as (r4 & E4 & HA4).
  exists r4. split; [|done]. unfold restore_entry. by rewrite E1, E2, E3, E4, from_utf8_valid.
Qed.

Lemma restore_loop l fuel m r :
  (length l ≤ fuel)%nat → ahead r (concat (map encode_entry l)) →
  Forall (λ kv, wf_key kv.1 ∧ wf_val kv.2) l →
  (for_break fuel (len l) restore_entry (m, r)).1 = btree_extend m l.
Proof.
  revert fuel m r; induction l as [|[k v] l IH]; intros fuel m r Hf HA Hw.
  - by rewrite for_break_nil.
  - destruct fuel as [|fuel]; [cbn in Hf; lia|].
    apply Forall_cons in Hw as [[Hk Hv] Hw].
    destruct (restore_entry_ok m r k v _ Hk Hv HA) as (r' & E & HA').
    rewrite (for_break_cons _ _ _ _ _ _ E). apply IH; [cbn in Hf; lia|done|done].
Qed.

Lemma kv_restore_snapshot s :
  kv_inv s → len (kv_snapshot s) <= U32_MAX → kv_restore (kv_snapshot s) = s.
Proof.
  destruct s as [m]. intros Hi Hl. pose proof (len_kv_snapshot (mkKv m)) as Hs.
  cbn [kv_map] in Hs. pose proof (kv_size_count m) as Hc.
  assert (is_u32 (Z.of_nat (size m))) as Hu by width_lia.
  remember (kv_snapshot (mkKv m)) as b eqn:Eb. unfold kv_restore.
  unfold kv_snapshot in Eb. cbn [kv_map] in Eb. rewrite try_from_or_max_small in Eb by width_lia.
  destruct (reads_u32 _ Hu (reader_new b) (concat (map encode_entry (btree_iter m))))
    as (r & E & HA); [rewrite Eb; apply ahead_new|].
  rewrite E. f_equal. rewrite <- (length_btree_iter m).
  rewrite restore_loop; [apply btree_extend_iter| |done|].
  - rewrite length_btree_iter. lia.
  - apply Forall_forall. intros [k v] Hin%elem_of_btree_iter.
    split; [by eapply Hi|]. pose proof (kv_size_entry m k v Hin). unfold wf_val. cbn. lia.
Qed.
End KvLaws.

#[export] Instance KvStore_StateMachineOk am : StateMachineOk KvStore (SM := KvStore_StateMachine am).
Proof.
  apply (Build_StateMachineOk KvStore (KvStore_StateMachine am) kv_inv kv_weight 4).
  - done.
  - apply kv_inv_apply.
  - apply kv_not_suppressed.
  - intros op. unfold kv_weight. destruct (op_kind op); try lia.
    assert (0 <= sumZ write_size writes); [|lia].
    apply sumZ_nonneg. intros [k [v|]]; unfold write_size; cbn; lia.
  - done.
  - intros s op s' o _. apply kv_snapshot_grow.
  - apply kv_restore_snapshot.
Defined.
