(* ===== verification/Io.v ===== *)
(** * Io: the operating system under the program

    Fallible, stateful code runs in the monad [M σ]: it threads the state [σ] of
    the objects it mutates and ends in [Ok], in an [io::Error], in a panic, or
    killed. A [World] holds the files of the store's directory and the fate of
    the system calls to come: each call succeeds, fails, or is where the process
    is killed, and a write that does not finish leaves any prefix of its bytes. *)

From S2P Require Import Prelude.

(** ** Results *)

(** The [io::ErrorKind]s the program tells apart. *)
Inductive ErrorKind := NotFound | WouldBlock | TimedOut | InvalidData | UnexpectedEof | Other.

#[export] Instance ErrorKind_eq_dec : EqDecision ErrorKind.
Proof. solve_decision. Defined.

Inductive Res (A : Type) :=
  | Ok (a : A)
  | Err (e : ErrorKind)
  | Panic
  | Killed.
Arguments Ok {A} a.
Arguments Err {A} e.
Arguments Panic {A}.
Arguments Killed {A}.

#[export] Instance Res_eq_dec {A} `{EqDecision A} : EqDecision (Res A).
Proof. solve_decision. Defined.

Definition M (σ A : Type) : Type := σ → Res A * σ.

#[export] Instance M_ret σ : MRet (M σ) := λ A a s, (Ok a, s).
#[export] Instance M_bind σ : MBind (M σ) := λ A B k m s,
  match m s with
  | (Ok a, s') => k a s'
  | (Err e, s') => (Err e, s')
  | (Panic, s') => (Panic, s')
  | (Killed, s') => (Killed, s')
  end.

Definition get {σ} : M σ σ := λ s, (Ok s, s).
Definition modify {σ} (f : σ → σ) : M σ unit := λ s, (Ok tt, f s).
(** An [Option] whose [None] is a panic. *)
Definition unwrap {σ A} (o : option A) : M σ A := λ s,
  match o with Some a => (Ok a, s) | None => (Panic, s) end.

(** Run a computation on a part of the state. *)
Definition zoom {σ τ A} (view : σ → τ) (upd : τ → σ → σ) (m : M τ A) : M σ A := λ s,
  let '(r, t) := m (view s) in (r, upd t s).

(** ** The directory and its system calls *)

(** What happens to a system call. [Fail n] and [Kill n] let a write put [n]
    bytes in the file first; for a call that is not a write, [Kill n] with
    [n > 0] takes effect before the process dies. *)
Inductive fault := Fine | Fail (n : nat) | Kill (n : nat).

#[export] Instance fault_eq_dec : EqDecision fault.
Proof. solve_decision. Defined.

Abbreviation Dir := (gmap string bytes).

Record World := mkWorld { files : Dir; faults : list fault }.

Definition next_fault (w : World) : fault * World :=
  match faults w with
  | [] => (Fine, w)
  | f :: fs => (f, mkWorld (files w) fs)
  end.

Definition on_files (f : Dir → Dir) (w : World) : World := mkWorld (f (files w)) (faults w).

(** A call with an atomic effect on the directory (create, rename, remove, sync). *)
Definition sys_atomic (eff : Dir → Dir) : M World unit := λ w,
  let '(f, w) := next_fault w in
  match f with
  | Fine => (Ok tt, on_files eff w)
  | Fail _ => (Err Other, w)
  | Kill O => (Killed, w)
  | Kill (S _) => (Killed, on_files eff w)
  end.

Definition append_to (name : string) (b : bytes) (d : Dir) : Dir :=
  <[name := default [] (d !! name) ++ b]> d.

(** [write_all] at the end of an open file. *)
Definition sys_write_all (name : string) (b : bytes) : M World unit := λ w,
  let '(f, w) := next_fault w in
  match f with
  | Fine => (Ok tt, on_files (append_to name b) w)
  | Fail n => (Err Other, on_files (append_to name (take n b)) w)
  | Kill n => (Killed, on_files (append_to name (take n b)) w)
  end.

(** Open and read a whole file; [None] when it does not exist. *)
Definition sys_read (name : string) : M World (option bytes) := λ w,
  let '(f, w) := next_fault w in
  match f with
  | Fine => (Ok (files w !! name), w)
  | Fail _ => (Err Other, w)
  | Kill _ => (Killed, w)
  end.

(** [OpenOptions::new().create(true).append(true).open(name)] *)
Definition sys_open_append (name : string) : M World unit :=
  sys_atomic (λ d, match d !! name with Some _ => d | None => <[name := []]> d end).
(** [File::create(name)]: create or truncate *)
Definition sys_create (name : string) : M World unit := sys_atomic (λ d, <[name := []]> d).
(** [fs::rename(from, to)] *)
Definition sys_rename (from to : string) : M World unit :=
  sys_atomic (λ d, match d !! from with Some b => <[to := b]> (delete from d) | None => d end).
(** [fs::remove_file(name)] *)
Definition sys_remove (name : string) : M World unit := sys_atomic (delete name).
(** [f.sync_all()] *)
Definition sys_sync : M World unit := sys_atomic id.
(** [fs::create_dir_all(dir)]: the directory of the model always exists *)
Definition sys_create_dir : M World unit := sys_atomic id.

(** [let _ = call;]: the error, if any, is dropped. *)
Definition ignore_err {σ} (m : M σ unit) : M σ unit := λ s,
  match m s with
  | (Err _, s') => (Ok tt, s')
  | r => r
  end.

(** ** Running *)

Section Running.
Context {σ : Type}.

Lemma run_bind {A B} (m : M σ A) (k : A → M σ B) s :
  (m ≫= k) s = match m s with
               | (Ok a, s') => k a s'
               | (Err e, s') => (Err e, s')
               | (Panic, s') => (Panic, s')
               | (Killed, s') => (Killed, s')
               end.
Proof. done. Qed.

Lemma run_bind_ok {A B} (m : M σ A) (k : A → M σ B) s a s' :
  m s = (Ok a, s') → (m ≫= k) s = k a s'.
Proof. intros E. by rewrite run_bind, E. Qed.
End Running.

(** A world in which every call succeeds. *)
Definition calm (d : Dir) : World := mkWorld d [].

(** The faults of a run are those left of the schedule it started with. *)
Lemma next_fault_files w f w' : next_fault w = (f, w') → files w' = files w.
Proof. unfold next_fault. destruct (faults w); intros; by inv_all. Qed.
