(* ===== verification/Cli.v ===== *)
(** * Cli: the arguments of the server binaries ([crates/onebarrier/src/bin/ob_kv.rs],
    [ob_http.rs], [ob_mc.rs], [ob_txn.rs], [ob_log.rs])

    The five servers share one loop over their arguments; three of them also print a
    help text. *)

From S2P Require Import Prelude Bytes Text.
Local Open Scope Z_scope.

Record ServerConfig := mkServerConfig { cfg_port : Z; cfg_dir : bytes; cfg_snap_interval : Z; cfg_fsync : bool }.

(** [v.parse::<u16>().ok()] *)
Definition parse_u16 (v : bytes) : option Z := parse_usize v ≫= check_range 0 U16_MAX.

(** The loop over the arguments; [None]: the help text was printed and the program ends.
    A value that is missing or does not parse leaves the setting as it was; what is not
    an option is skipped. *)
Fixpoint parse_args (has_help : bool) (c : ServerConfig) (args : list bytes) : option ServerConfig :=
  match args with
  | [] => Some c
  | a :: args =>
      if bool_decide (a = bs "--port") then
        match args with
        | [] => Some c
        | v :: args =>
            parse_args has_help
              (mkServerConfig (default (cfg_port c) (parse_u16 v)) (cfg_dir c) (cfg_snap_interval c) (cfg_fsync c)) args
        end
      else if bool_decide (a = bs "--dir") then
        match args with
        | [] => Some c
        | v :: args => parse_args has_help (mkServerConfig (cfg_port c) v (cfg_snap_interval c) (cfg_fsync c)) args
        end
      else if bool_decide (a = bs "--fsync") then
        parse_args has_help (mkServerConfig (cfg_port c) (cfg_dir c) (cfg_snap_interval c) true) args
      else if bool_decide (a = bs "--snap-interval") then
        match args with
        | [] => Some c
        | v :: args =>
            parse_args has_help
              (mkServerConfig (cfg_port c) (cfg_dir c) (default (cfg_snap_interval c) (parse_usize v)) (cfg_fsync c)) args
        end
      else if has_help && (bool_decide (a = bs "--help") || bool_decide (a = bs "-h")) then None
      else parse_args has_help c args
  end.

(** The configuration each binary hands to [run], from its arguments after the first. *)
Definition ob_kv (args : list bytes) : option ServerConfig :=
  parse_args true (mkServerConfig 6399 (bs "/tmp/ob-kv-data") 10000 false) args.
Definition ob_http (args : list bytes) : option ServerConfig :=
  parse_args true (mkServerConfig 8088 (bs "/tmp/ob-http-data") 10000 false) args.
Definition ob_mc (args : list bytes) : option ServerConfig :=
  parse_args true (mkServerConfig 11311 (bs "/tmp/ob-mc-data") 10000 false) args.
Definition ob_txn (args : list bytes) : option ServerConfig :=
  parse_args false (mkServerConfig 7099 (bs "/tmp/ob-txn-data") 10000 false) args.
Definition ob_log (args : list bytes) : option ServerConfig :=
  parse_args false (mkServerConfig 7199 (bs "/tmp/ob-log-data") 10000 false) args.

(** ** Settings *)

(** A configuration within its types. *)
Definition wf_config (c : ServerConfig) : Prop := is_u16 (cfg_port c) ∧ is_u64 (cfg_snap_interval c).

Lemma parse_u16_range v z : parse_u16 v = Some z → is_u16 z.
Proof.
  unfold parse_u16, check_range. intros (y & _ & E)%bind_Some. destruct (_ && _) eqn:Eb; [|done].
  injection E as <-. apply andb_true_iff in Eb as [?%Z.leb_le ?%Z.leb_le]. width_lia.
Qed.

Lemma parse_usize_range v z : parse_usize v = Some z → is_u64 z.
Proof.
  unfold parse_usize, check_range. destruct v; [done|]. intros (y & _ & E)%bind_Some. destruct (_ && _) eqn:Eb; [|done].
  injection E as <-. apply andb_true_iff in Eb as [?%Z.leb_le ?%Z.leb_le]. width_lia.
Qed.

(** Whatever the arguments are, the settings stay within their types. *)
Lemma parse_args_wf h args : ∀ c c', wf_config c → parse_args h c args = Some c' → wf_config c'.
Proof.
  induction args as [args IH] using (induction_ltof1 _ (@length bytes)). unfold ltof in IH. intros c c' [Hp Hs] E.
  destruct args as [|a args]; [by injection E as <-|]. cbn [parse_args] in E.
  repeat case_match; simplify_eq; try done; (eapply IH; [|..|exact E]; [cbn; lia|split; cbn; try done]).
  - destruct (parse_u16 _) eqn:Ep; [by apply parse_u16_range in Ep|done].
  - destruct (parse_usize _) eqn:Ep; [by apply parse_usize_range in Ep|done].
Qed.

(** The arguments that ask for a configuration. *)
Definition render_args (c : ServerConfig) : list bytes :=
  [bs "--port"; to_string (cfg_port c); bs "--dir"; cfg_dir c; bs "--snap-interval"; to_string (cfg_snap_interval c)] ++
  (if cfg_fsync c then [bs "--fsync"] else []).

Lemma parse_u16_to_string z : is_u16 z → parse_u16 (to_string z) = Some z.
Proof.
  intros Hz. unfold parse_u16. rewrite parse_usize_to_string by width_lia. cbn. apply check_range_ok. width_lia.
Qed.

(** Asking for a configuration gives it, whatever the defaults, and also after any
    settings or unknown words given before it. *)
Theorem parse_render h d c pre d' :
  wf_config c → cfg_fsync d' = cfg_fsync c ∨ cfg_fsync c = true →
  (∀ rest, parse_args h d (pre ++ rest) = parse_args h d' rest) →
  parse_args h d (pre ++ render_args c) = Some c.
Proof.
  intros [Hp Hs] Hf Hpre. rewrite Hpre. destruct c as [port dir snap fs]. cbn [cfg_port cfg_snap_interval cfg_fsync] in *.
  unfold render_args. cbn [cfg_port cfg_dir cfg_snap_interval cfg_fsync app].
  transitivity (parse_args h (mkServerConfig (default (cfg_port d') (parse_u16 (to_string port))) dir
    (default (cfg_snap_interval d') (parse_usize (to_string snap))) (cfg_fsync d')) (if fs then [bs "--fsync"] else []));
    [reflexivity|]. rewrite parse_u16_to_string, parse_usize_to_string by done.
  destruct fs; [done|]. destruct Hf as [->|]; done.
Qed.
