(* ===== verification/Durable.v ===== *)
(** * Durable: the ordered log and the snapshot on disk
    ([crates/onebarrier/src/durable.rs])

    A [Durable] owns one directory: the append-only file [oplog], the file
    [snapshot], and [snapshot.tmp] while a snapshot is being written. *)

From S2P Require Import Prelude Bytes Io.
Local Open Scope Z_scope.

Definition LOG : string := "oplog".
Definition SNAP : string := "snapshot".
Definition TMP : string := "snapshot.tmp".

(** [log] is whether the append handle is cached. *)
Record Durable := mkDurable { fsync : bool; log : bool }.

(** Methods of [Durable] run on the object and the world. *)
Definition on_world {σ A} (m : M World A) : M (σ * World) A :=
  zoom snd (λ w s, (s.1, w)) m.
Definition set_log (b : bool) : M (Durable * World) unit :=
  modify (λ s, (mkDurable (fsync s.1) b, s.2)).

Definition durable_open (fs : bool) : M World Durable :=
  _ ← sys_create_dir; mret (mkDurable fs false).

(** One record: [ts(8) len(4) op_bytes]. *)
Definition record (ts : Z) (op_bytes : bytes) : bytes :=
  to_le_bytes 8 ts ++ to_le_bytes 4 (try_from_or_max U32_MAX (len op_bytes)) ++ op_bytes.

Definition append (ts : Z) (op_bytes : bytes) : M (Durable * World) unit :=
  s ← get;
  _ ← (if log s.1 then mret tt
       else _ ← on_world (sys_open_append LOG); set_log true);
  _ ← on_world (sys_write_all LOG (record ts op_bytes));
  if fsync s.1 then on_world sys_sync else mret tt.

Definition write_snapshot (b : bytes) : M (Durable * World) unit :=
  s ← get;
  _ ← on_world (sys_create TMP);
  _ ← on_world (sys_write_all TMP b);
  _ ← (if fsync s.1 then on_world sys_sync else mret tt);
  _ ← on_world (sys_rename TMP SNAP);
  _ ← set_log false;
  on_world (ignore_err (sys_remove LOG)).

Definition read_snapshot : M World (option bytes) := sys_read SNAP.

(** [raw[a..b]]: a range that is not within the bytes panics. *)
Definition slice {σ} (raw : bytes) (a b : nat) : M σ bytes :=
  unwrap (if ((a <=? b) && (b <=? length raw))%nat then Some (take (b - a) (drop a raw)) else None).

(** The loop of [read_log] from position [p]: stop at a truncated record. Every
    iteration consumes at least 12 bytes, so the length of the file is enough fuel
    ([read_records_parse]). *)
Fixpoint read_records {σ} (fuel : nat) (raw : bytes) (p : nat) : M σ (list (Z * bytes)) :=
  match fuel with
  | O => mret []
  | S fuel =>
      if (p + 12 <=? length raw)%nat then
        ts ← slice raw p (p + 8);
        n ← slice raw (p + 8) (p + 12);
        let n := Z.to_nat (from_le_bytes n) in
        let p := (p + 12)%nat in
        if (length raw <? p + n)%nat then mret []
        else
          b ← slice raw p (p + n);
          out ← read_records fuel raw (p + n);
          mret ((from_le_bytes ts, b) :: out)
      else mret []
  end.

Definition read_log : M World (list (Z * bytes)) :=
  raw ← sys_read LOG;
  match raw with
  | Some b => read_records (length b) b 0
  | None => mret []
  end.

(** ** The format of the log *)

(** The records the bytes of a log hold, without positions and slices: what
    [read_records] reads ([read_records_parse]). *)
Fixpoint parse_log_from (fuel : nat) (raw : bytes) : list (Z * bytes) :=
  match fuel with
  | O => []
  | S fuel =>
      if (12 <=? length raw)%nat then
        let ts := from_le_bytes (take 8 raw) in
        let n := Z.to_nat (from_le_bytes (take 4 (drop 8 raw))) in
        let raw := drop 12 raw in
        if (length raw <? n)%nat then []
        else (ts, take n raw) :: parse_log_from fuel (drop n raw)
      else []
  end.

Definition parse_log (raw : bytes) : list (Z * bytes) := parse_log_from (length raw) raw.

(** ** Lemmas *)

#[global] Arguments record : simpl never.
#[global] Arguments parse_log : simpl never.

Lemma parse_log_from_fuel f g raw :
  (length raw ≤ f)%nat → (length raw ≤ g)%nat → parse_log_from f raw = parse_log_from g raw.
Proof.
  revert g raw; induction f as [|f IH]; intros [|g] raw Hf Hg; cbn [parse_log_from];
    try (rewrite (proj2 (Nat.leb_gt 12 (length raw))) by lia); [done..|].
  destruct (Nat.leb_spec 12 (length raw)); [|done].
  case_match; [done|]. f_equal. apply IH; len_lia.
Qed.

Lemma parse_log_fuel f raw : (length raw ≤ f)%nat → parse_log_from f raw = parse_log raw.
Proof. intros. by apply parse_log_from_fuel. Qed.

(** The unfolding of the loop, free of fuel. *)
Lemma parse_log_unfold raw :
  parse_log raw =
    if (12 <=? length raw)%nat then
      let n := Z.to_nat (from_le_bytes (take 4 (drop 8 raw))) in
      if (length (drop 12 raw) <? n)%nat then []
      else (from_le_bytes (take 8 raw), take n (drop 12 raw)) :: parse_log (drop n (drop 12 raw))
    else [].
Proof.
  destruct (length raw) as [|f] eqn:E.
  - unfold parse_log. by rewrite E.
  - rewrite <- (parse_log_fuel (S f)) by lia. cbn [parse_log_from]. rewrite E.
    destruct (12 <=? S f)%nat eqn:El; [|done]. cbn zeta. case_match; [done|].
    f_equal. apply parse_log_fuel. apply Nat.leb_le in El. len_lia.
Qed.

Lemma slice_ok {σ} raw a b (s : σ) :
  (a ≤ b ≤ length raw)%nat → slice raw a b s = (Ok (take (b - a) (drop a raw)), s).
Proof.
  intros [Hab Hb]. unfold slice. by rewrite (proj2 (Nat.leb_le _ _) Hab), (proj2 (Nat.leb_le _ _) Hb).
Qed.

(** The loop never slices out of range, and reads what the format says. *)
Lemma read_records_parse {σ} fuel raw p (s : σ) :
  (length raw - p ≤ fuel)%nat → read_records fuel raw p s = (Ok (parse_log (drop p raw)), s).
Proof.
  revert p; induction fuel as [|fuel IH]; intros p Hf; rewrite parse_log_unfold, length_drop; cbn [read_records].
  { by rewrite (proj2 (Nat.leb_gt _ _)) by lia. }
  destruct (Nat.leb_spec (p + 12) (length raw)) as [Hl|Hl]; [|by rewrite (proj2 (Nat.leb_gt _ _)) by lia].
  rewrite (proj2 (Nat.leb_le 12 _)) by lia.
  rewrite (run_bind_ok _ _ _ _ _ (slice_ok raw p (p + 8) s ltac:(lia))).
  rewrite (run_bind_ok _ _ _ _ _ (slice_ok raw (p + 8) (p + 12) s ltac:(lia))).
  rewrite !drop_drop. replace (p + 8 - p)%nat with 8%nat by lia. replace (p + 12 - (p + 8))%nat with 4%nat by lia.
  cbn zeta. set (n := Z.to_nat _). rewrite length_drop.
  destruct (Nat.ltb_spec (length raw) (p + 12 + n)); [by rewrite (proj2 (Nat.ltb_lt _ _)) by lia|].
  rewrite (proj2 (Nat.ltb_ge _ _)) by lia.
  rewrite (run_bind_ok _ _ _ _ _ (slice_ok raw (p + 12) (p + 12 + n) s ltac:(lia))).
  rewrite (run_bind_ok _ _ _ _ _ (IH (p + 12 + n)%nat ltac:(lia))).
  by replace (p + 12 + n - (p + 12))%nat with n by lia.
Qed.

Lemma length_record ts b : length (record ts b) = (12 + length b)%nat.
Proof. unfold record. len_lia. Qed.
#[export] Hint Rewrite length_record : ob_len.

(** The fields of a record read back from its start. *)
Lemma record_fields ts b tail :
  is_u64 ts → len b <= U32_MAX →
  take 8 (record ts b ++ tail) = to_le_bytes 8 ts ∧
  take 4 (drop 8 (record ts b ++ tail)) = to_le_bytes 4 (len b) ∧
  drop 12 (record ts b ++ tail) = b ++ tail.
Proof.
  intros Hts Hb. unfold record. rewrite try_from_or_max_small by done. rewrite <- !app_assoc.
  assert (H8 : ∀ l, take 8 (to_le_bytes 8 ts ++ l) = to_le_bytes 8 ts ∧
                    drop 8 (to_le_bytes 8 ts ++ l) = l).
  { intros l. pose proof (length_to_le_bytes 8 ts) as H.
    split; [by rewrite <- H at 1; rewrite take_len_app | by rewrite <- H at 1; rewrite drop_len_app]. }
  destruct (H8 (to_le_bytes 4 (len b) ++ b ++ tail)) as [-> E8].
  split; [done|]. rewrite E8.
  pose proof (length_to_le_bytes 4 (len b)) as H4.
  split; [by rewrite <- H4 at 1; rewrite take_len_app|].
  change 12%nat with (8 + 4)%nat. rewrite <- drop_drop, E8.
  by rewrite <- H4 at 1; rewrite drop_len_app.
Qed.

(** A whole record at the front is read back, whatever follows it. *)
Lemma parse_log_record ts b tail :
  is_u64 ts → len b <= U32_MAX →
  parse_log (record ts b ++ tail) = (ts, b) :: parse_log tail.
Proof.
  intros Hts Hb. rewrite parse_log_unfold.
  destruct (record_fields ts b tail Hts Hb) as (-> & -> & ->). cbn zeta.
  rewrite from_to_le_u64, from_to_le_u32, Nat2Z.id by width_lia.
  rewrite (proj2 (Nat.leb_le _ _)) by len_lia.
  rewrite (proj2 (Nat.ltb_ge _ _)) by len_lia.
  by rewrite take_len_app, drop_len_app.
Qed.

(** A torn record at the end is dropped. *)
Lemma parse_log_torn ts b n :
  is_u64 ts → len b <= U32_MAX → (n < length (record ts b))%nat →
  parse_log (take n (record ts b)) = [].
Proof.
  intros Hts Hb Hn. rewrite length_record in Hn. rewrite parse_log_unfold.
  destruct (Nat.leb_spec 12 (length (take n (record ts b)))) as [Hl|]; [|done].
  rewrite length_take, length_record in Hl.
  destruct (record_fields ts b [] Hts Hb) as (_ & E4 & _). rewrite app_nil_r in E4.
  cbn zeta. rewrite !skipn_firstn_comm, take_take, Nat.min_l, E4 by lia.
  rewrite from_to_le_u32, Nat2Z.id by width_lia.
  by rewrite (proj2 (Nat.ltb_lt _ _)) by len_lia.
Qed.

(** The whole log: records one after the other, then a tail no record starts. *)
Lemma parse_log_records (rs : list (Z * bytes)) tail :
  Forall (λ r, is_u64 r.1 ∧ len r.2 <= U32_MAX) rs →
  parse_log (concat (map (λ r, record r.1 r.2) rs) ++ tail) = rs ++ parse_log tail.
Proof.
  induction 1 as [|[ts b] rs [Hts Hb] _ IH]; [done|]. cbn in *.
  rewrite <- app_assoc, parse_log_record by done. by rewrite IH.
Qed.
