(* ===== verification/Engine.v ===== *)
(** * Engine: the deterministic-replay engine ([crates/onebarrier/src/lib.rs])

    [Engine] applies a totally ordered stream of operations to a state machine
    exactly once, logs each one, cuts snapshots and recovers from them. It is
    generic in the state machine ([StateMachine]) and in the timestamps of the
    fabric, whose type belongs to the crate [onepipe_core]: only
    [Timestamp::as_nanos], a [u64], is used, and it is a parameter here. *)

From S2P Require Import Prelude Bytes Io State Durable.
Local Open Scope Z_scope.

(** ** State *)

Record Stats := mkStats {
  st_applied : Z; st_suppressed : Z; st_snapshots : Z; st_replayed : Z }.

Record Engine (S : Type) := mkEngine {
  state : S;
  applied : gmap Z Z;
  last_ts : Z;
  dur : Durable;
  snap_interval : Z;
  ops_since_snap : Z;
  stats : Stats;
}.
Arguments mkEngine {S}.
Arguments state {S}.
Arguments applied {S}.
Arguments last_ts {S}.
Arguments dur {S}.
Arguments snap_interval {S}.
Arguments ops_since_snap {S}.
Arguments stats {S}.

#[export] Instance Durable_eq_dec : EqDecision Durable.
Proof. solve_decision. Defined.
#[export] Instance Stats_eq_dec : EqDecision Stats.
Proof. solve_decision. Defined.
#[export] Instance Engine_eq_dec {S} `{EqDecision S} : EqDecision (Engine S).
Proof. solve_decision. Defined.

Definition stats_default : Stats := mkStats 0 0 0 0.

Section Updates.
Context {S : Type}.
Implicit Types e : Engine S.

Definition set_vol e (s : S) (a : gmap Z Z) (t : Z) : Engine S :=
  mkEngine s a t (dur e) (snap_interval e) (ops_since_snap e) (stats e).
Definition set_dur e (d : Durable) : Engine S :=
  mkEngine (state e) (applied e) (last_ts e) d (snap_interval e) (ops_since_snap e) (stats e).
Definition set_ops e (n : Z) : Engine S :=
  mkEngine (state e) (applied e) (last_ts e) (dur e) (snap_interval e) n (stats e).
Definition set_stats e (st : Stats) : Engine S :=
  mkEngine (state e) (applied e) (last_ts e) (dur e) (snap_interval e) (ops_since_snap e) st.

Definition count_suppressed e : Engine S :=
  let s := stats e in
  set_stats e (mkStats (st_applied s) (st_suppressed s + 1) (st_snapshots s) (st_replayed s)).
Definition count_applied e : Engine S :=
  let s := stats e in
  set_stats e (mkStats (st_applied s + 1) (st_suppressed s) (st_snapshots s) (st_replayed s)).
Definition count_snapshot e : Engine S :=
  let s := stats e in
  set_stats e (mkStats (st_applied s) (st_suppressed s) (st_snapshots s + 1) (st_replayed s)).
Definition set_replayed e (n : Z) : Engine S :=
  let s := stats e in
  set_stats e (mkStats (st_applied s) (st_suppressed s) (st_snapshots s) n).

(** Methods run on the engine and the world. *)
Definition on_eng {A} (m : M (Engine S) A) : M (Engine S * World) A :=
  zoom fst (λ e s, (e, s.2)) m.
Definition on_dur {A} (m : M (Durable * World) A) : M (Engine S * World) A :=
  zoom (λ s, (dur s.1, s.2)) (λ d s, (set_dur s.1 d.1, d.2)) m.
(** Run a method on a local object. *)
Definition run_local {σ τ A} (m : M τ A) (t : τ) : M σ (A * τ) := λ s,
  match m t with
  | (Ok a, t') => (Ok (a, t'), s)
  | (Err e, _) => (Err e, s)
  | (Panic, _) => (Panic, s)
  | (Killed, _) => (Killed, s)
  end.
End Updates.

(** ** Operations *)

Section Operations.
Context {S : Type} {SM : StateMachine S}.
Context {Timestamp : Type} (as_nanos : Timestamp → Z).

Definition fresh (d : Durable) (interval : Z) : Engine S :=
  mkEngine sm_default ∅ 0 d (Z.max interval 1) 0 stats_default.

Definition create (interval : Z) (fs : bool) : M World (Engine S) :=
  d ← durable_open fs; mret (fresh d interval).

(** The high-water mark of a client: [applied.get(&c).copied().unwrap_or(0)]. *)
Definition hw (a : gmap Z Z) (c : Z) : Z := default 0 (a !! c).

(** [None] is a duplicate. *)
Definition apply_dedup (ts_ns : Z) (op : Op) : M (Engine S) (option Output) :=
  e ← get;
  if op_seq op <=? hw (applied e) (op_client op) then mret None
  else
    '(s, out) ← unwrap (sm_apply (state e) op);
    _ ← modify (λ e,
          set_vol e s (<[op_client op := op_seq op]> (applied e))
            (if last_ts e <? ts_ns then ts_ns else last_ts e));
    mret (Some out).

Definition encode_mark (cs : Z * Z) : bytes := to_le_bytes 4 cs.1 ++ to_le_bytes 8 cs.2.

Definition encode_snapshot (e : Engine S) : bytes :=
  let sm := sm_snapshot (state e) in
  to_le_bytes 8 (last_ts e) ++
  to_le_bytes 4 (try_from_or_max U32_MAX (Z.of_nat (size (applied e)))) ++
  concat (map encode_mark (btree_iter (applied e))) ++
  len32 sm ++ sm.

(** One iteration of the loop of [load_snapshot] over the marks:
    [let (Some(c), Some(s)) = (r.u32(), r.u64()) else { break }]. Both reads are
    evaluated before the match, so a break may leave the reader past the first. *)
Definition load_mark (ar : gmap Z Z * Reader) : Flow (gmap Z Z * Reader) :=
  let '(a, r) := ar in
  let '(c, r) := try_read rd_u32 r in
  let '(s, r) := try_read rd_u64 r in
  match c, s with
  | Some c, Some s => Continue (<[c := s]> a, r)
  | _, _ => Break (a, r)
  end.

(** A snapshot too short to parse leaves the engine as it was. *)
Definition load_snapshot (b : bytes) (e : Engine S) : Engine S :=
  match rd_u64 (reader_new b) with
  | None => e
  | Some (ts, r) =>
      match rd_u32 r with
      | None => e
      | Some (n, r) =>
          let '(a, r) := for_break (Datatypes.S (length b)) n load_mark (∅, r) in
          match rd_u32 r with
          | None => e
          | Some (smlen, r) =>
              match rd_slice smlen r with
              | None => e
              | Some (sm, _) => set_vol e (sm_restore sm) a ts
              end
          end
      end
  end.

Definition snapshot : M (Engine S * World) unit :=
  s ← get;
  _ ← on_dur (write_snapshot (encode_snapshot s.1));
  on_eng (modify (λ e, count_snapshot (set_ops e 0))).

(** Replay the log, counting the records applied. *)
Fixpoint replay (l : list (Z * bytes)) (n : Z) : M (Engine S) Z :=
  match l with
  | [] => mret n
  | (ts, b) :: l =>
      match decode b with
      | None => replay l n
      | Some op =>
          r ← apply_dedup ts op;
          replay l (if r is Some _ then n + 1 else n)
      end
  end.

(** [a % b], which panics when [b] is 0. *)
Definition u64_rem (a b : Z) : option Z := if b =? 0 then None else Some (a mod b).

Definition recover (interval : Z) (fs : bool) : M World (Engine S) :=
  d ← durable_open fs;
  snap ← read_snapshot;
  let eng := match snap with
             | Some b => load_snapshot b (fresh d interval)
             | None => fresh d interval
             end in
  l ← read_log;
  '(replayed, eng) ← run_local (replay l 0) eng;
  since ← unwrap (u64_rem replayed (snap_interval eng));
  mret (set_ops (set_replayed eng replayed) since).

Definition deliver (ts : Timestamp) (op : Op) : M (Engine S * World) Output :=
  let ts_ns := as_nanos ts in
  r ← on_eng (apply_dedup ts_ns op);
  match r with
  | None => _ ← on_eng (modify count_suppressed); mret OutSuppressed
  | Some out =>
      _ ← on_eng (modify count_applied);
      _ ← on_dur (append ts_ns (encode op));
      _ ← on_eng (modify (λ e, set_ops e (ops_since_snap e + 1)));
      s ← get;
      _ ← (if snap_interval s.1 <=? ops_since_snap s.1 then snapshot else mret tt);
      mret out
  end.

(** [applied.keys().copied().max().unwrap_or(0)] *)
Definition max_client (e : Engine S) : Z :=
  match (btree_iter (applied e)).*1 with
  | [] => 0
  | c :: cs => fold_left Z.max cs c
  end.

Definition export_state (e : Engine S) : bytes := encode_snapshot e.

Definition import_state (b : bytes) : M (Engine S * World) unit :=
  _ ← on_eng (modify (load_snapshot b));
  _ ← on_dur (write_snapshot b);
  on_eng (modify (λ e, set_ops e 0)).

(** The oracle: the same deduplication, no persistence; [None] is a panic. *)
Definition reference_step (acc : option (S * gmap Z Z)) (op : Op) : option (S * gmap Z Z) :=
  '(s, a) ← acc;
  if hw a (op_client op) <? op_seq op then
    '(s', _) ← sm_apply s op;
    Some (s', <[op_client op := op_seq op]> a)
  else Some (s, a).

Definition reference_apply (ops : list Op) : option S :=
  fst <$> fold_left reference_step ops (Some (sm_default, ∅)).
End Operations.
