(* ===== verification/EngineFacts.v ===== *)
(** * EngineFacts: the engine as a fold over deduplicated operations

    The volatile part of an engine is its [Image]: the state, the high-water
    marks, the horizon. [step] is the effect of one delivered operation on it;
    [apply_dedup], [replay] and [load_snapshot] are described in terms of images,
    and a snapshot is shown to hold its image. *)

From S2P Require Import Prelude Bytes Io State Durable Engine.
Local Open Scope Z_scope.

Record Image (S : Type) := mkImage { im_state : S; im_hw : gmap Z Z; im_ts : Z }.
Arguments mkImage {S}.
Arguments im_state {S}.
Arguments im_hw {S}.
Arguments im_ts {S}.

Section Images.
Context {S : Type} {SM : StateMachine S}.
Implicit Types (e : Engine S) (v : Image S).

Definition image e : Image S := mkImage (state e) (applied e) (last_ts e).
Definition with_image e v : Engine S := set_vol e (im_state v) (im_hw v) (im_ts v).
Definition image0 : Image S := mkImage sm_default ∅ 0.

Definition covered v (op : Op) : bool := op_seq op <=? hw (im_hw v) (op_client op).

(** One delivered operation: the next image and the output ([None]: duplicate). *)
Definition step_out v (r : Z * Op) : option (Image S * option Output) :=
  if covered v r.2 then Some (v, None)
  else
    '(s, o) ← sm_apply (im_state v) r.2;
    Some (mkImage s (<[op_client r.2 := op_seq r.2]> (im_hw v))
            (if im_ts v <? r.1 then r.1 else im_ts v), Some o).
Definition step v r : option (Image S) := fst <$> step_out v r.

Fixpoint steps v (rs : list (Z * Op)) : option (Image S) :=
  match rs with
  | [] => Some v
  | r :: rs => v' ← step v r; steps v' rs
  end.

Lemma image_with_image e v : image (with_image e v) = v.
Proof. by destruct v. Qed.
Lemma with_image_image e : with_image e (image e) = e.
Proof. by destruct e. Qed.
Lemma with_image_twice e v v' : with_image (with_image e v) v' = with_image e v'.
Proof. done. Qed.

Lemma apply_dedup_eq ts op e :
  apply_dedup ts op e =
    match step_out (image e) (ts, op) with
    | None => (Panic, e)
    | Some (v, o) => (Ok o, with_image e v)
    end.
Proof.
  unfold apply_dedup, step_out, covered. rewrite run_bind. cbn.
  case_match; [by rewrite with_image_image|].
  rewrite run_bind. unfold unwrap. by destruct (sm_apply (state e) op) as [[s o]|].
Qed.

Lemma steps_app v rs1 rs2 : steps v (rs1 ++ rs2) = steps v rs1 ≫= λ v', steps v' rs2.
Proof.
  revert v; induction rs1 as [|r rs1 IH]; intros v; [done|].
  cbn. destruct (step v r); [apply IH|done].
Qed.

Lemma steps_snoc v rs r : steps v (rs ++ [r]) = steps v rs ≫= λ v', step v' r.
Proof. rewrite steps_app. destruct (steps v rs); cbn; [by destruct (step i r)|done]. Qed.

Lemma step_covered v r : covered v r.2 = true → step v r = Some v.
Proof. intros H. unfold step, step_out. by rewrite H. Qed.

Lemma steps_covered v rs : Forall (λ r, covered v r.2 = true) rs → steps v rs = Some v.
Proof. induction 1 as [|r rs H _ IH]; [done|]. cbn. by rewrite step_covered. Qed.

Lemma hw_insert a c s c' : hw (<[c := s]> a) c' = if decide (c = c') then s else hw a c'.
Proof. unfold hw. rewrite lookup_insert. by case_decide. Qed.

(** Marks only grow, and a delivered operation is covered from then on. *)
Lemma step_mono v r v' op : step v r = Some v' → covered v op = true → covered v' op = true.
Proof.
  unfold step, step_out. destruct (covered v r.2) eqn:Er; [by intros [= <-]|].
  destruct (sm_apply _ _) as [[s o]|]; [|done]. intros [= <-].
  unfold covered in *. cbn. rewrite hw_insert. apply Z.leb_gt in Er.
  case_decide as Hc; [|done]. rewrite <- Hc, !Z.leb_le. lia.
Qed.

Lemma step_covers v r v' : step v r = Some v' → covered v' r.2 = true.
Proof.
  unfold step, step_out. destruct (covered v r.2) eqn:Er; [by intros [= <-]|].
  destruct (sm_apply _ _) as [[s o]|]; [|done]. intros [= <-].
  unfold covered. cbn. rewrite hw_insert, decide_True by done. apply Z.leb_refl.
Qed.

Lemma steps_mono rs v v' op : steps v rs = Some v' → covered v op = true → covered v' op = true.
Proof.
  revert v; induction rs as [|r rs IH]; intros v; cbn; [by intros [= <-]|].
  intros (v1 & E & Hs)%bind_Some Hc. by eapply IH, step_mono.
Qed.

Lemma steps_covers rs v v' : steps v rs = Some v' → Forall (λ r, covered v' r.2 = true) rs.
Proof.
  revert v; induction rs as [|r rs IH]; intros v; cbn; [by constructor|].
  intros (v1 & E & Hs)%bind_Some. constructor; [|by eapply IH].
  by eapply steps_mono, step_covers.
Qed.

(** Replaying what an image already covers changes nothing. *)
Lemma steps_idem rs v v' : steps v rs = Some v' → steps v' rs = Some v'.
Proof. intros. by eapply steps_covered, steps_covers. Qed.

(** A duplicate is answered without touching the state, the log or the disk. *)
Lemma deliver_covered {Timestamp} (as_nanos : Timestamp → Z) ts op e w :
  covered (image e) op = true →
  deliver as_nanos ts op (e, w) = (Ok OutSuppressed, (count_suppressed e, w)).
Proof.
  intros Hc. unfold deliver. rewrite run_bind. unfold on_eng at 1, zoom. cbn [fst snd].
  rewrite apply_dedup_eq. unfold step_out. cbn [snd]. rewrite Hc, with_image_image. done.
Qed.

(** ** Images and the reference oracle *)

Lemma reference_step_step v r :
  reference_step (Some (im_state v, im_hw v)) r.2 = (λ v', (im_state v', im_hw v')) <$> step v r.
Proof.
  unfold step, step_out, covered. cbn. rewrite Z.leb_antisym.
  destruct (_ <? _); cbn; [|done]. by destruct (sm_apply _ _) as [[s o]|].
Qed.

Lemma reference_steps rs v :
  fold_left reference_step rs.*2 (Some (im_state v, im_hw v)) =
    (λ v', (im_state v', im_hw v')) <$> steps v rs.
Proof.
  revert v; induction rs as [|r rs IH]; intros v; [done|].
  cbn [fold_left fmap list_fmap]. rewrite reference_step_step. cbn.
  destruct (step v r) as [v'|]; cbn; [apply IH|].
  clear. induction rs as [|r rs IH]; [done|]. apply IH.
Qed.

Lemma reference_apply_steps rs : reference_apply rs.*2 = im_state <$> steps image0 rs.
Proof.
  unfold reference_apply.
  change (Some (sm_default, ∅)) with (Some (im_state image0, im_hw image0)).
  rewrite (reference_steps rs image0).
  by destruct (steps image0 rs).
Qed.

(** ** Replay *)

Fixpoint decoded (l : list (Z * bytes)) : list (Z * Op) :=
  match l with
  | [] => []
  | (ts, b) :: l => if decode b is Some op then (ts, op) :: decoded l else decoded l
  end.

Lemma replay_eq l n e :
  match steps (image e) (decoded l) with
  | None => ∃ e', replay l n e = (Panic, e')
  | Some v => ∃ n', replay l n e = (Ok n', with_image e v) ∧ n <= n' <= n + len l
  end.
Proof.
  revert n e; induction l as [|[ts b] l IH]; intros n e.
  - exists n. cbn. rewrite with_image_image. split; [done|lia].
  - cbn. destruct (decode b) as [op|]; cbn.
    + unfold step. rewrite run_bind, apply_dedup_eq.
      destruct (step_out (image e) (ts, op)) as [[v o]|]; cbn; [|eauto].
      specialize (IH (if o is Some _ then n + 1 else n) (with_image e v)).
      rewrite image_with_image in IH. destruct (steps v (decoded l)); [|exact IH].
      destruct IH as (n' & -> & Hn). exists n'. split; [done|]. destruct o; lia.
    + specialize (IH n e). destruct (steps (image e) (decoded l)); [|exact IH].
      destruct IH as (n' & -> & Hn). exists n'. split; [done|]. lia.
Qed.

(** ** Snapshots *)

Lemma load_snapshot_frame b e : load_snapshot b e = with_image e (image (load_snapshot b e)).
Proof. unfold load_snapshot. repeat case_match; by rewrite ?with_image_image. Qed.

Lemma load_snapshot_image b e e' :
  image e = image e' → image (load_snapshot b e) = image (load_snapshot b e').
Proof. intros H. unfold load_snapshot. by repeat case_match. Qed.
End Images.

(** ** Well-formed images *)

Section Wf.
Context {S : Type} {SM : StateMachine S} {SMok : StateMachineOk S}.
Implicit Types (e : Engine S) (v : Image S).

(** [B] bounds what the length fields of a snapshot of the image must hold. *)
Record wf_image (B : Z) v : Prop := {
  wf_inv : sm_inv (im_state v);
  wf_marks c s : im_hw v !! c = Some s → is_u32 c ∧ is_u64 s;
  wf_ts : is_u64 (im_ts v);
  wf_clients : Z.of_nat (size (im_hw v)) <= B;
  wf_size : len (sm_snapshot (im_state v)) <= B;
}.

Definition wf_rec (r : Z * Op) : Prop :=
  is_u64 r.1 ∧ wf_op r.2 ∧ len (encode r.2) <= U32_MAX.

#[export] Instance wf_rec_dec r : Decision (wf_rec r).
Proof. unfold wf_rec. apply _. Defined.

Lemma wf_image0 : wf_image (Z.max 0 sm_base) image0.
Proof.
  split; cbn.
  - apply sm_inv_default.
  - intros c s H. by rewrite lookup_empty in H.
  - width_lia.
  - rewrite map_size_empty. lia.
  - pose proof sm_base_default. lia.
Qed.

Lemma wf_image_weaken B B' v : B <= B' → wf_image B v → wf_image B' v.
Proof. intros ? []. split; try done; lia. Qed.

Lemma step_wf B v r v' :
  wf_rec r → wf_image B v → step v r = Some v' → wf_image (B + sm_weight r.2) v'.
Proof.
  intros (Hts & Hop & _) Hv. unfold step, step_out. pose proof (sm_weight_pos r.2).
  destruct (covered v r.2) eqn:Ec.
  { intros [= <-]. by eapply wf_image_weaken; [|done]; lia. }
  destruct (sm_apply _ _) as [[s o]|] eqn:Ea; [|done]. intros [= <-].
  destruct Hv as [Hi Hm Ht Hc Hz]. pose proof (sm_snapshot_grow _ _ _ _ Hi Ea). split; cbn.
  - by eapply sm_inv_apply.
  - intros c q. rewrite lookup_insert. case_decide as Heq; [|apply Hm].
    intros [= <-]. subst c. by destruct Hop as (? & ? & _).
  - by case_match.
  - rewrite map_size_insert. destruct (im_hw v !! op_client r.2); cbn; lia.
  - lia.
Qed.

Definition weights (rs : list (Z * Op)) : Z := sumZ (λ r, sm_weight r.2) rs.

Lemma weights_nonneg rs : 0 <= weights rs.
Proof. apply sumZ_nonneg. intros r. pose proof (sm_weight_pos r.2). lia. Qed.

Lemma steps_wf B v rs v' :
  Forall wf_rec rs → wf_image B v → steps v rs = Some v' → wf_image (B + weights rs) v'.
Proof.
  intros Hrs; revert B v; induction Hrs as [|r rs Hr _ IH]; intros B v Hv; cbn.
  - intros [= <-]. by rewrite Z.add_0_r.
  - intros (v1 & E & Hs)%bind_Some. rewrite Z.add_assoc.
    eapply IH; [|done]. by eapply step_wf.
Qed.

(** ** A snapshot holds its image *)

Lemma load_mark_ok a r c s y :
  is_u32 c → is_u64 s → ahead r (encode_mark (c, s) ++ y) →
  ∃ r', load_mark (a, r) = Continue (<[c := s]> a, r') ∧ ahead r' y.
Proof.
  intros Hc Hs HA. unfold encode_mark in HA. cbn [fst snd] in HA. rewrite <- app_assoc in HA.
  destruct (reads_u32 c Hc _ _ HA) as (r1 & E1 & HA1).
  destruct (reads_u64 s Hs _ _ HA1) as (r2 & E2 & HA2).
  exists r2. split; [|done]. unfold load_mark, try_read. by rewrite E1, E2.
Qed.

Lemma load_marks l fuel a r y :
  (length l ≤ fuel)%nat → ahead r (concat (map encode_mark l) ++ y) →
  Forall (λ cs, is_u32 cs.1 ∧ is_u64 cs.2) l →
  ∃ r', for_break fuel (len l) load_mark (a, r) = (btree_extend a l, r') ∧ ahead r' y.
Proof.
  revert fuel a r; induction l as [|[c s] l IH]; intros fuel a r Hf HA Hw.
  - exists r. by rewrite for_break_nil.
  - destruct fuel as [|fuel]; [cbn in Hf; lia|].
    apply Forall_cons in Hw as [[Hc Hs] Hw]. cbn [map concat] in HA. rewrite <- app_assoc in HA.
    destruct (load_mark_ok a r c s _ Hc Hs HA) as (r' & E & HA').
    rewrite (for_break_cons _ _ _ _ _ _ E). apply IH; [cbn in Hf; lia|done|done].
Qed.

Lemma load_encode_snapshot B e e' :
  wf_image B (image e) → B <= U32_MAX →
  load_snapshot (encode_snapshot e) e' = with_image e' (image e).
Proof.
  intros [Hinv Hmarks Hts Hcl Hsz] HB. cbn in *.
  remember (encode_snapshot e) as b eqn:Eb. unfold encode_snapshot in Eb.
  rewrite try_from_or_max_small in Eb by lia.
  set (sm := sm_snapshot (state e)) in *.
  assert (Hu : is_u32 (Z.of_nat (size (applied e)))) by width_lia.
  assert (Hm : Forall (λ cs, is_u32 cs.1 ∧ is_u64 cs.2) (btree_iter (applied e))).
  { apply Forall_forall. intros [c s] Hin%elem_of_btree_iter. by apply Hmarks. }
  assert (Hl : (length (btree_iter (applied e)) ≤ Datatypes.S (length b))%nat).
  { assert (∀ l, length (concat (map encode_mark l)) = (12 * length l)%nat) as Hlen.
    { intros l. induction l as [|x l IH]; [done|]. cbn [map concat length].
      unfold encode_mark at 1. len_lia. }
    pose proof (Hlen (btree_iter (applied e))). rewrite Eb. len_lia. }
  unfold load_snapshot.
  destruct (reads_u64 (last_ts e) Hts (reader_new b) _ ltac:(rewrite Eb; apply ahead_new))
    as (r1 & -> & HA1).
  destruct (reads_u32 _ Hu _ _ HA1) as (r2 & -> & HA2).
  rewrite <- (length_btree_iter (applied e)).
  destruct (load_marks _ _ ∅ _ _ Hl HA2 Hm) as (r3 & -> & HA3).
  destruct (reads_len32 sm ltac:(lia) _ _ HA3) as (r4 & -> & HA4).
  destruct (reads_slice sm r4 []) as (r5 & -> & _); [by rewrite app_nil_r|].
  rewrite btree_extend_iter. unfold sm. rewrite sm_restore_snapshot by (done || unfold sm in *; lia).
  done.
Qed.
End Wf.
