(* ===== verification/CrashSafety.v ===== *)
(** * CrashSafety: what a crash leaves on disk, and what recovery makes of it

    [Stored d rs tail v]: the directory [d] holds a snapshot and the records [rs]
    (then torn bytes [tail]) from which recovery rebuilds the image [v]. Every
    system call of the engine, whether it succeeds, fails, or is where the process
    dies, leaves the directory holding the image before the operation or the one
    after it. *)

From S2P Require Import Prelude Bytes Io State Durable Engine EngineFacts.
Local Open Scope Z_scope.

(** The two files recovery reads. *)
Definition logc (d : Dir) : bytes := default [] (d !! LOG).
Definition snapc (d : Dir) : option bytes := d !! SNAP.

#[global] Arguments logc : simpl never.
#[global] Arguments snapc : simpl never.

Definition same_disk (d d' : Dir) : Prop := logc d' = logc d ∧ snapc d' = snapc d.

(** ** The durable store, call by call *)

Section Calls.
Implicit Types (w : World) (du : Durable).

Lemma logc_append b (d : Dir) : logc (append_to LOG b d) = logc d ++ b.
Proof. unfold logc, append_to. by rewrite lookup_insert_eq. Qed.
Lemma snapc_append b (d : Dir) : snapc (append_to LOG b d) = snapc d.
Proof. unfold snapc, append_to. by rewrite lookup_insert_ne. Qed.

(** Touching [snapshot.tmp] is invisible to recovery. *)
Lemma same_disk_tmp b (d : Dir) : same_disk d (<[TMP := b]> d).
Proof. split; unfold logc, snapc; by rewrite lookup_insert_ne. Qed.

Lemma same_disk_refl d : same_disk d d.
Proof. done. Qed.
Lemma same_disk_trans d1 d2 d3 : same_disk d1 d2 → same_disk d2 d3 → same_disk d1 d3.
Proof. intros [] []. split; congruence. Qed.

Lemma same_disk_open (d : Dir) :
  same_disk d (match d !! LOG with Some _ => d | None => <[LOG := []]> d end).
Proof.
  destruct (d !! LOG) eqn:E; [done|].
  split; unfold logc, snapc; [by rewrite lookup_insert_eq, E | by rewrite lookup_insert_ne].
Qed.

(** A call with an atomic effect [eff] leaves the directory as it was or as [eff]
    makes it; it never panics. *)
Lemma sys_atomic_spec eff w :
  match sys_atomic eff w with
  | (Ok _, w') => files w' = eff (files w)
  | (Panic, _) => False
  | (_, w') => files w' = files w ∨ files w' = eff (files w)
  end.
Proof.
  unfold sys_atomic. destruct (next_fault w) as [f w1] eqn:E.
  apply next_fault_files in E. destruct f as [|n|[|n]]; cbn; rewrite ?E; auto.
Qed.

Lemma sys_write_spec name b w :
  match sys_write_all name b w with
  | (Ok _, w') => files w' = append_to name b (files w)
  | (Panic, _) => False
  | (_, w') => ∃ n, files w' = append_to name (take n b) (files w)
  end.
Proof.
  unfold sys_write_all. destruct (next_fault w) as [f w1] eqn:E.
  apply next_fault_files in E. destruct f; cbn; rewrite ?E; eauto.
Qed.

(** Binding keeps a property of the final world, whatever the outcome. *)
Definition ends {σ A} (m : M σ A) (s : σ) (Qok : A → σ → Prop) (Qerr : σ → Prop) : Prop :=
  match m s with
  | (Ok a, s') => Qok a s'
  | (Panic, _) => False
  | (_, s') => Qerr s'
  end.

Lemma ends_bind {σ A B} (m : M σ A) (k : A → M σ B) s Qm Qok Qerr :
  ends m s Qm Qerr → (∀ a s', Qm a s' → ends (k a) s' Qok Qerr) → ends (m ≫= k) s Qok Qerr.
Proof.
  unfold ends. rewrite run_bind. intros Hm Hk.
  destruct (m s) as [[a|e| |] s']; [exact (Hk _ _ Hm)|done..].
Qed.

Lemma ends_ret {σ A} (a : A) (s : σ) (Qok : A → σ → Prop) Qerr : Qok a s → ends (mret a) s Qok Qerr.
Proof. done. Qed.

Lemma ends_impl {σ A} (m : M σ A) s (Q Q' : A → σ → Prop) (R R' : σ → Prop) :
  (∀ a s', Q a s' → Q' a s') → (∀ s', R s' → R' s') → ends m s Q R → ends m s Q' R'.
Proof. unfold ends. intros HQ HR. destruct (m s) as [[| | |] ?]; auto. Qed.

Lemma ends_atomic du eff w :
  ends (on_world (sys_atomic eff)) (du, w)
    (λ _ s, s.1 = du ∧ files s.2 = eff (files w))
    (λ s, files s.2 = files w ∨ files s.2 = eff (files w)).
Proof.
  unfold ends, on_world, zoom. cbn. pose proof (sys_atomic_spec eff w) as H.
  destruct (sys_atomic eff w) as [[| | |] ?]; cbn; auto.
Qed.

Lemma ends_write du name b w :
  ends (on_world (sys_write_all name b)) (du, w)
    (λ _ s, s.1 = du ∧ files s.2 = append_to name b (files w))
    (λ s, ∃ n, files s.2 = append_to name (take n b) (files w)).
Proof.
  unfold ends, on_world, zoom. cbn. pose proof (sys_write_spec name b w) as H.
  destruct (sys_write_all name b w) as [[| | |] ?]; cbn; auto.
Qed.

(** [append]: the record is at the end of the log, or a prefix of it is. *)
Lemma append_ends du ts b w :
  ends (append ts b) (du, w)
    (λ _ s, logc (files s.2) = logc (files w) ++ record ts b ∧ snapc (files s.2) = snapc (files w))
    (λ s, ∃ n, logc (files s.2) = logc (files w) ++ take n (record ts b) ∧
               snapc (files s.2) = snapc (files w)).
Proof.
  unfold append. eapply (ends_bind _ _ _ (λ s s', s = (du, w) ∧ s' = (du, w))); [by split|].
  intros ? ? [-> ->]. cbn [fst].
  eapply (ends_bind _ _ _ (λ _ s, same_disk (files w) (files s.2))).
  { destruct (log du); [done|].
    eapply ends_bind; [eapply ends_impl; [intros ? ? H; exact H| |apply ends_atomic]|].
    - intros s Hs. exists 0%nat. rewrite take_0, app_nil_r.
      destruct Hs as [->| ->]; [done|]. apply same_disk_open.
    - intros _ [du' w'] [_ H]. unfold ends, set_log, modify. cbn in *. rewrite H.
      apply same_disk_open. }
  intros _ [du1 w1] [Hl1 Hs1]. cbn [snd] in Hl1, Hs1.
  eapply ends_bind; [eapply ends_impl; [intros ? ? H; exact H| |apply ends_write]|].
  - intros s [n H]. exists n. rewrite H, logc_append, snapc_append. by rewrite Hl1, Hs1.
  - intros _ [du2 w2] [_ H2]. cbn [snd] in H2.
    assert (logc (files w2) = logc (files w) ++ record ts b ∧ snapc (files w2) = snapc (files w)) as Hw2.
    { rewrite H2, logc_append, snapc_append. by rewrite Hl1, Hs1. }
    destruct (fsync du); [|done].
    eapply ends_impl; [| |apply ends_atomic].
    + intros _ [? w3] [_ H3]. cbn in *. by rewrite H3.
    + intros [? w3] H3. cbn in *. exists (length (record ts b)). rewrite firstn_all.
      by destruct H3 as [-> | ->].
Qed.

(** What installing the snapshot [b] may leave: nothing new, or [b] with the old
    log still there or already removed. *)
Definition installed (b : bytes) (d d' : Dir) : Prop :=
  snapc d' = Some b ∧ (logc d' = [] ∨ logc d' = logc d).

Lemma installed_rename b d d' :
  same_disk d d' → d' !! TMP = Some b →
  installed b d (match d' !! TMP with Some b => <[SNAP := b]> (delete TMP d') | None => d' end).
Proof.
  intros [Hl Hs] ->. split; [unfold snapc; by rewrite lookup_insert_eq|right].
  rewrite <- Hl. unfold logc. by rewrite lookup_insert_ne, lookup_delete_ne.
Qed.

Lemma installed_remove b d d' : installed b d d' → installed b d (delete LOG d').
Proof.
  intros [Hs _]. split; [unfold snapc; by rewrite lookup_delete_ne|left].
  unfold logc. by rewrite lookup_delete_eq.
Qed.

Lemma ends_remove du w :
  ends (on_world (ignore_err (sys_remove LOG))) (du, w)
    (λ _ s, files s.2 = files w ∨ files s.2 = delete LOG (files w))
    (λ s, files s.2 = files w ∨ files s.2 = delete LOG (files w)).
Proof.
  unfold ends, on_world, zoom, ignore_err. cbn. pose proof (sys_atomic_spec (delete LOG) w) as H.
  unfold sys_remove. destruct (sys_atomic (delete LOG) w) as [[| | |] ?]; cbn; auto.
Qed.

Lemma ends_rename_remove b d du w :
  same_disk d (files w) → files w !! TMP = Some b →
  ends (_ ← on_world (sys_rename TMP SNAP); _ ← set_log false; on_world (ignore_err (sys_remove LOG)))
    (du, w) (λ _ s, installed b d (files s.2))
    (λ s, same_disk d (files s.2) ∨ installed b d (files s.2)).
Proof.
  intros Hd Ht. pose proof (installed_rename b d _ Hd Ht) as Hr.
  eapply ends_bind; [eapply ends_impl; [intros ? ? H; exact H| |apply ends_atomic]|].
  - intros s [-> | ->]; auto.
  - intros _ [du2 w2] [_ H2]. cbn [snd] in H2.
    eapply (ends_bind _ _ _ (λ _ s, s.2 = w2)); [done|].
    intros _ [du3 w3] E. cbn [snd] in E. subst w3.
    rewrite <- H2 in Hr. eapply ends_impl; [| |apply ends_remove].
    + intros _ s [-> | ->]; auto using installed_remove.
    + intros s [-> | ->]; auto using installed_remove.
Qed.

Lemma write_snapshot_ends du b w :
  ends (write_snapshot b) (du, w)
    (λ _ s, installed b (files w) (files s.2))
    (λ s, same_disk (files w) (files s.2) ∨ installed b (files w) (files s.2)).
Proof.
  unfold write_snapshot. eapply (ends_bind _ _ _ (λ s s', s = (du, w) ∧ s' = (du, w))); [by split|].
  intros ? ? [-> ->]. cbn [fst].
  eapply ends_bind; [eapply ends_impl; [intros ? ? H; exact H| |apply ends_atomic]|].
  { intros s [-> | ->]; left; auto using same_disk_refl, same_disk_tmp. }
  intros _ [du1 w1] [_ H1]. cbn [snd] in H1.
  assert (same_disk (files w) (files w1)) as Hd1 by (rewrite H1; apply same_disk_tmp).
  assert (Ht1 : files w1 !! TMP = Some []) by by rewrite H1, lookup_insert_eq.
  eapply ends_bind; [eapply ends_impl; [intros ? ? H; exact H| |apply ends_write]|].
  { intros s [n ->]. left. eapply same_disk_trans; [exact Hd1|apply same_disk_tmp]. }
  intros _ [du2 w2] [_ H2]. cbn [snd] in H2.
  assert (same_disk (files w) (files w2)) as Hd2.
  { rewrite H2. eapply same_disk_trans; [exact Hd1|apply same_disk_tmp]. }
  assert (Ht2 : files w2 !! TMP = Some b).
  { rewrite H2. unfold append_to. by rewrite lookup_insert_eq, Ht1. }
  eapply (ends_bind _ _ _ (λ _ s, files s.2 = files w2)).
  { destruct (fsync du); [|done]. eapply ends_impl; [| |apply ends_atomic].
    - by intros _ s [_ ->].
    - intros s [-> | ->]; by left. }
  intros _ [du3 w3] H3. cbn [snd] in H3. apply ends_rename_remove; by rewrite H3.
Qed.
End Calls.

(** ** What the directory holds *)

Section Stored.
Context {S : Type} {SM : StateMachine S} {SMok : StateMachineOk S}.
Implicit Types (e : Engine S) (v : Image S) (d : Dir) (rs : list (Z * Op)).

Definition log_bytes rs : bytes := concat (map (λ r, record r.1 (encode r.2)) rs).

(** The image the snapshot file holds. *)
Definition base d : Image S :=
  match snapc d with
  | Some b => image (load_snapshot b (fresh (mkDurable false false) 1))
  | None => image0
  end.

Record Stored d rs (tail : bytes) v : Prop := {
  st_log : logc d = log_bytes rs ++ tail;
  st_tail : parse_log tail = [];
  st_wf : Forall wf_rec rs;
  st_steps : steps (base d) rs = Some v;
}.

(** Recovery from [d] rebuilds [v]. *)
Definition Holds d v : Prop := ∃ rs tail, Stored d rs tail v.

(** The engine runs and its directory holds its image, with no torn record. *)
Record Live e d : Prop := {
  live_stored : ∃ rs, Stored d rs [] (image e);
  live_interval : 1 <= snap_interval e;
  live_ops : 0 <= ops_since_snap e < snap_interval e;
}.

Lemma Live_Holds e d : Live e d → Holds d (image e).
Proof. intros [[rs H] _ _]. by exists rs, []. Qed.

Lemma log_bytes_app rs1 rs2 : log_bytes (rs1 ++ rs2) = log_bytes rs1 ++ log_bytes rs2.
Proof. unfold log_bytes. by rewrite map_app, concat_app. Qed.

Lemma decoded_encoded rs :
  Forall wf_rec rs → decoded (map (λ r, (r.1, encode r.2)) rs) = rs.
Proof.
  induction 1 as [|[ts op] rs (_ & Hop & _) _ IH]; [done|]. cbn in *.
  rewrite <- (app_nil_r (encode op)), decode_encode by done. by rewrite IH.
Qed.

Lemma Stored_decoded d rs tail v : Stored d rs tail v → decoded (parse_log (logc d)) = rs.
Proof.
  intros [Hl Ht Hwf _]. rewrite Hl. unfold log_bytes.
  pose proof (parse_log_records (map (λ r, (r.1, encode r.2)) rs) tail) as H.
  rewrite map_map in H. cbn in H. rewrite H, Ht, app_nil_r; [by apply decoded_encoded|].
  apply Forall_map. eapply Forall_impl; [exact Hwf|]. by intros r (? & ? & ?).
Qed.

Lemma read_log_calm d : read_log (calm d) = (Ok (parse_log (logc d)), calm d).
Proof.
  unfold read_log, logc. rewrite run_bind. cbn. destruct (d !! LOG); [|done].
  by rewrite read_records_parse by lia.
Qed.

(** The engine recovery has built when it starts on the log. *)
Definition opened d (i : Z) (fs : bool) : Engine S :=
  match snapc d with
  | Some b => load_snapshot b (fresh (mkDurable fs false) i)
  | None => fresh (mkDurable fs false) i
  end.

Lemma opened_image d i fs : image (opened d i fs) = base d.
Proof. unfold opened, base. destruct (snapc d); [|done]. by apply load_snapshot_image. Qed.

Lemma opened_frame d i fs :
  snap_interval (opened d i fs) = Z.max i 1 ∧ dur (opened d i fs) = mkDurable fs false.
Proof. unfold opened. destruct (snapc d); [|done]. by rewrite load_snapshot_frame. Qed.

Lemma opened_rem d i fs n : u64_rem n (snap_interval (opened d i fs)) = Some (n mod Z.max i 1).
Proof.
  destruct (opened_frame d i fs) as [-> _]. unfold u64_rem. by rewrite (proj2 (Z.eqb_neq _ _)) by lia.
Qed.

(** Recovery when no call fails is the replay of the log on that engine. *)
Lemma recover_calm d i fs n v :
  replay (parse_log (logc d)) 0 (opened d i fs) = (Ok n, with_image (opened d i fs) v) →
  recover i fs (calm d) =
    (Ok (set_ops (set_replayed (with_image (opened d i fs) v) n) (n mod Z.max i 1)), calm d).
Proof.
  intros HR. unfold recover. erewrite run_bind_ok by done.
  rewrite (run_bind_ok read_snapshot _ _ (snapc d) (calm d)) by done.
  rewrite (run_bind_ok read_log _ _ _ _ (read_log_calm d)).
  rewrite run_bind. unfold run_local. fold (opened d i fs). rewrite HR, run_bind.
  change (snap_interval (with_image (opened d i fs) v)) with (snap_interval (opened d i fs)).
  by rewrite opened_rem.
Qed.

(** Recovery, when no call fails, rebuilds the image and changes no file. *)
Lemma recover_Holds d v i fs :
  Holds d v →
  ∃ e, recover i fs (calm d) = (Ok e, calm d) ∧ image e = v ∧
       snap_interval e = Z.max i 1 ∧ 0 <= ops_since_snap e < snap_interval e ∧
       dur e = mkDurable fs false ∧ ops_since_snap e <= len (parse_log (logc d)).
Proof.
  intros (rs & tail & HS). pose proof (Stored_decoded _ _ _ _ HS) as Hd. destruct HS as [_ _ _ Hs].
  pose proof (replay_eq (parse_log (logc d)) 0 (opened d i fs)) as HR.
  rewrite opened_image, Hd, Hs in HR. destruct HR as (n' & HR & Hn).
  destruct (opened_frame d i fs) as [Hi Hdur].
  eexists. split; [exact (recover_calm _ _ _ _ _ HR)|].
  pose proof (Z.mod_le n' (Z.max i 1) ltac:(lia) ltac:(lia)). pose proof (Z.mod_pos_bound n' (Z.max i 1) ltac:(lia)).
  cbn. rewrite Hi, Hdur. repeat split; try done; [by destruct v|lia..].
Qed.

Lemma Stored_append d d' rs v ts op n :
  Stored d rs [] v → wf_rec (ts, op) →
  logc d' = logc d ++ take n (record ts (encode op)) → snapc d' = snapc d →
  (∃ tail, Stored d' rs tail v) ∨
  (∀ v', step v (ts, op) = Some v' → Stored d' (rs ++ [(ts, op)]) [] v').
Proof.
  intros [Hl _ Hwf Hs] Hr Hl' Hs'. pose proof Hr as (Hts & Hop & Hlen). rewrite app_nil_r in Hl.
  assert (Hb : base d' = base d) by (unfold base; by rewrite Hs').
  destruct (decide (n < length (record ts (encode op)))%nat) as [Hn|Hn].
  - left. exists (take n (record ts (encode op))). split; try done.
    + by rewrite Hl', Hl.
    + by apply parse_log_torn.
    + by rewrite Hb.
  - right. intros v' Hv'. split; try done.
    + rewrite Hl', Hl, take_ge by lia. rewrite log_bytes_app, app_nil_r.
      f_equal. unfold log_bytes. cbn. by rewrite app_nil_r.
    + apply Forall_snoc_iff. done.
    + rewrite Hb, steps_snoc, Hs. done.
Qed.

Lemma Stored_append_full d d' rs v ts op v' :
  Stored d rs [] v → wf_rec (ts, op) → step v (ts, op) = Some v' →
  logc d' = logc d ++ record ts (encode op) → snapc d' = snapc d →
  Stored d' (rs ++ [(ts, op)]) [] v'.
Proof.
  intros [Hl _ Hwf Hs] Hr Hv' Hl' Hs'. rewrite app_nil_r in Hl. split; try done.
  - rewrite Hl', Hl, log_bytes_app, app_nil_r. f_equal. unfold log_bytes. cbn. by rewrite app_nil_r.
  - apply Forall_snoc_iff. done.
  - unfold base. rewrite Hs'. fold (base d). by rewrite steps_snoc, Hs.
Qed.

(** Installing a snapshot keeps what the directory holds, cleared log or not. *)
Lemma Stored_installed B d d' rs e :
  Stored d rs [] (image e) → wf_image B (image e) → B <= U32_MAX →
  installed (encode_snapshot e) d d' → ∃ rs', Stored d' rs' [] (image e).
Proof.
  intros [Hl _ Hwf Hs] Hv HB [Hs' Hl'].
  assert (Hb : base d' = image e).
  { unfold base. rewrite Hs', (load_encode_snapshot B) by done. apply image_with_image. }
  destruct Hl' as [Hl'|Hl'].
  - exists []. split; [done..|]. by rewrite Hb.
  - exists rs. split; [by rewrite Hl', Hl|done..|]. rewrite Hb. by eapply steps_idem.
Qed.

Lemma same_disk_Stored d d' rs tail v : same_disk d d' → Stored d rs tail v → Stored d' rs tail v.
Proof. intros [Hl Hs] []. split; try done; [by rewrite Hl|]. unfold base. by rewrite Hs. Qed.

(** ** The engine's operations *)

Lemma zoom_ends {σ τ A} (view : σ → τ) (upd : τ → σ → σ) (m : M τ A) s Q R :
  ends m (view s) (λ a t, Q a (upd t s)) (λ t, R (upd t s)) → ends (zoom view upd m) s Q R.
Proof. unfold ends, zoom. destruct (m (view s)) as [[| | |] ?]; auto. Qed.

Lemma snapshot_ends B e w rs :
  Stored (files w) rs [] (image e) → wf_image B (image e) → B <= U32_MAX →
  ends snapshot (e, w)
    (λ _ s, image s.1 = image e ∧ snap_interval s.1 = snap_interval e ∧ ops_since_snap s.1 = 0 ∧
            ∃ rs', Stored (files s.2) rs' [] (image e))
    (λ s, Holds (files s.2) (image e)).
Proof.
  intros HS Hv HB. unfold snapshot.
  eapply (ends_bind _ _ _ (λ s s', s = (e, w) ∧ s' = (e, w))); [by split|].
  intros ? ? [-> ->]. cbn [fst].
  eapply (ends_bind _ _ _ (λ _ s, (∃ du, s.1 = set_dur e du) ∧
    ∃ rs', Stored (files s.2) rs' [] (image e))).
  - apply zoom_ends. eapply ends_impl; [| |apply write_snapshot_ends].
    + intros _ [du w'] Hi. cbn in *. split; [by eexists|]. by eapply Stored_installed.
    + intros [du w'] [Hd|Hi]; cbn in *.
      * exists rs, []. by eapply same_disk_Stored.
      * destruct (Stored_installed _ _ _ _ _ HS Hv HB Hi) as [rs' ?]. by exists rs', [].
  - intros _ [e' w'] [[du Ee] Hrs]. cbn in Ee. by subst e'.
Qed.

(** The last part of [deliver]: count the operation and maybe cut a snapshot. *)
Lemma finish_ends B e w rs (out : Output) :
  Stored (files w) rs [] (image e) → wf_image B (image e) → B <= U32_MAX →
  1 <= snap_interval e → 0 <= ops_since_snap e < snap_interval e →
  ends (_ ← on_eng (modify (λ e, set_ops e (ops_since_snap e + 1)));
        s ← get;
        _ ← (if snap_interval s.1 <=? ops_since_snap s.1 then snapshot else mret tt);
        mret out) (e, w)
    (λ o s, o = out ∧ image s.1 = image e ∧ Live s.1 (files s.2))
    (λ s, Holds (files s.2) (image e)).
Proof.
  intros HS Hv HB Hi Ho. set (e1 := set_ops e (ops_since_snap e + 1)).
  eapply (ends_bind _ _ _ (λ _ s, s = (e1, w))); [done|]. intros _ ? ->.
  eapply (ends_bind _ _ _ (λ s s', s = (e1, w) ∧ s' = (e1, w))); [by split|].
  intros ? ? [-> ->]. cbn [fst].
  eapply (ends_bind _ _ _ (λ _ s, image s.1 = image e ∧ Live s.1 (files s.2))).
  - destruct (Z.leb_spec (snap_interval e1) (ops_since_snap e1)) as [Hle|Hgt].
    + eapply ends_impl; [| |apply (snapshot_ends B e1 w rs HS Hv HB)].
      * intros _ [e' w'] (Him & Hi' & Ho' & Hrs). cbn in *. split; [done|].
        split; [by rewrite Him|lia..].
      * done.
    + split; [done|]. split; cbn in *; [by exists rs|lia..].
  - intros _ s [Him HL]. done.
Qed.

Section Deliver.
Context {Timestamp : Type} (as_nanos : Timestamp → Z).

(** [deliver], whatever happens to its system calls: it returns with the engine
    live on the next image; or it panics with nothing on disk changed; or it stops
    with the directory holding the image before or the image after. *)
Lemma deliver_spec B e w ts op :
  Live e (files w) → wf_rec (as_nanos ts, op) →
  wf_image B (image e) → B + sm_weight op <= U32_MAX →
  match deliver as_nanos ts op (e, w) with
  | (Ok out, (e', w')) =>
      Live e' (files w') ∧
      ∃ o, step_out (image e) (as_nanos ts, op) = Some (image e', o) ∧ out = default OutSuppressed o
  | (Panic, (e', w')) => step_out (image e) (as_nanos ts, op) = None ∧ w' = w
  | (_, (_, w')) =>
      Holds (files w') (image e) ∨
      ∃ v, step (image e) (as_nanos ts, op) = Some v ∧ Holds (files w') v
  end.
Proof.
  intros [[rs HS] Hi Ho] Hr Hv HB. unfold deliver. rewrite run_bind. unfold on_eng at 1, zoom. cbn [fst snd].
  rewrite apply_dedup_eq. destruct (step_out (image e) (as_nanos ts, op)) as [[v o]|] eqn:Es; [|done].
  assert (Hst : step (image e) (as_nanos ts, op) = Some v) by (unfold step; by rewrite Es).
  pose proof (step_wf B _ _ _ Hr Hv Hst) as Hv'. cbn [snd] in Hv'.
  destruct o as [out|].
  - set (e1 := count_applied (with_image e v)).
    assert (He1 : image e1 = v) by by destruct v.
    enough (ends (_ ← on_eng (modify count_applied); _ ← on_dur (append (as_nanos ts) (encode op));
        _ ← on_eng (modify (λ e, set_ops e (ops_since_snap e + 1))); s ← get;
        _ ← (if snap_interval s.1 <=? ops_since_snap s.1 then snapshot else mret tt); mret out)
      (with_image e v, w)
      (λ o s, o = out ∧ image s.1 = v ∧ Live s.1 (files s.2))
      (λ s, Holds (files s.2) (image e) ∨ Holds (files s.2) v)) as H.
    { revert H. unfold ends. match goal with |- context [match ?t with _ => _ end] => 
        destruct t as [[a|?| |] [e' w']] end; intros H; cbn in H; [| |done|].
      - destruct H as (-> & <- & HL). split; [done|]. by exists (Some out).
      - destruct H; [by left|right; eauto].
      - destruct H; [by left|right; eauto]. }
    eapply (ends_bind _ _ _ (λ _ s, s = (e1, w))); [done|]. intros _ ? ->.
    eapply (ends_bind _ _ _ (λ _ s, (∃ du, s.1 = set_dur e1 du) ∧
      Stored (files s.2) (rs ++ [(as_nanos ts, op)]) [] v)).
    + apply zoom_ends. eapply ends_impl; [| |apply append_ends].
      * intros _ [du w'] [Hl Hs]. cbn [fst snd] in *. split; [by eexists|].
        by eapply Stored_append_full.
      * intros [du w'] (n & Hl & Hs). cbn [fst snd] in *.
        destruct (Stored_append _ _ _ _ _ _ _ HS Hr Hl Hs) as [[tail ?]|H].
        -- left. by exists rs, tail.
        -- right. exists (rs ++ [(as_nanos ts, op)]), []. by apply H.
    + intros _ [e2 w2] [[du E2] HS2]. cbn [fst snd] in *. subst e2.
      assert (He2 : image (set_dur e1 du) = v) by by destruct v.
      eapply ends_impl; [| |apply (finish_ends (B + sm_weight op) (set_dur e1 du) w2 (rs ++ [(as_nanos ts, op)]) out)];
        try done; rewrite ?He2; try done.
      intros s Hs. by right.
  - rewrite run_bind. cbn. split; [|exists None; by destruct v].
    assert (v = image e) as ->.
    { revert Es. unfold step_out. destruct (covered _ _); [by intros [= <-]|].
      by destruct (sm_apply _ _) as [[]|]. }
    split; cbn; [exists rs; by rewrite with_image_image|lia..].
Qed.
End Deliver.
End Stored.
