(* ===== verification/Lifetimes.v ===== *)
(** * Lifetimes: the engine over any number of crashes

    One process opens the store ([boot], as the executor of [server.rs] does),
    delivers operations, acknowledges them, and ends: normally, with an error, in
    a panic, or killed in the middle of any system call. The next process starts
    from the directory it left. *)

From S2P Require Import Prelude Bytes Io State Durable Engine EngineFacts CrashSafety.
Local Open Scope Z_scope.

(** What [read_log] leaves unread at the end of the file. *)
Fixpoint log_rest_from (fuel : nat) (raw : bytes) : bytes :=
  match fuel with
  | O => raw
  | S fuel =>
      if (12 <=? length raw)%nat then
        let n := Z.to_nat (from_le_bytes (take 4 (drop 8 raw))) in
        if (length (drop 12 raw) <? n)%nat then raw else log_rest_from fuel (drop n (drop 12 raw))
      else raw
  end.
Definition log_rest (raw : bytes) : bytes := log_rest_from (length raw) raw.
#[global] Arguments log_rest : simpl never.

(** The log ends at the end of a record. *)
Definition untorn (d : Dir) : Prop := log_rest (logc d) = [].

#[export] Instance untorn_dec d : Decision (untorn d).
Proof. unfold untorn. apply _. Defined.

Lemma log_rest_from_fuel f g raw :
  (length raw ≤ f)%nat → (length raw ≤ g)%nat → log_rest_from f raw = log_rest_from g raw.
Proof.
  revert g raw; induction f as [|f IH]; intros [|g] raw Hf Hg; cbn [log_rest_from];
    try (rewrite (proj2 (Nat.leb_gt 12 (length raw))) by lia); [done..|].
  destruct (Nat.leb_spec 12 (length raw)); [|done].
  case_match; [done|]. apply IH; len_lia.
Qed.

Lemma log_rest_nothing raw : parse_log raw = [] → log_rest raw = raw.
Proof.
  rewrite parse_log_unfold. unfold log_rest. destruct (length raw) as [|f] eqn:E; [done|].
  cbn [log_rest_from]. rewrite E. destruct (12 <=? S f)%nat; [|done]. cbn zeta. by case_match.
Qed.

Lemma log_rest_record ts b tail :
  is_u64 ts → len b <= U32_MAX → log_rest (record ts b ++ tail) = log_rest tail.
Proof.
  intros Hts Hb. unfold log_rest. destruct (length (record ts b ++ tail)) as [|f] eqn:E; [len_lia|].
  cbn [log_rest_from]. rewrite E. rewrite length_app, length_record in E.
  destruct (record_fields ts b tail Hts Hb) as (_ & -> & ->). cbn zeta.
  rewrite from_to_le_u32, Nat2Z.id by width_lia.
  rewrite (proj2 (Nat.leb_le _ _)) by lia.
  rewrite (proj2 (Nat.ltb_ge _ _)) by len_lia.
  rewrite drop_len_app. apply log_rest_from_fuel; lia.
Qed.

Section Lifetimes.
Context {S : Type} {SM : StateMachine S} {SMok : StateMachineOk S}.
Context {Timestamp : Type} (as_nanos : Timestamp → Z).
Implicit Types (e : Engine S) (v : Image S) (d : Dir) (rs : list (Z * Op)).
Local Abbreviation deliver := (deliver (S:=S) as_nanos).

(** How the executor thread opens its store. *)
Definition boot (interval : Z) (fs : bool) : M World (Engine S) := λ w,
  if bool_decide (is_Some (files w !! SNAP)) || bool_decide (is_Some (files w !! LOG))
  then recover interval fs w
  else create interval fs w.

(** Deliver operations in order; the outputs are those handed back before the
    first call that does not return one. *)
Fixpoint deliver_all (ops : list (Timestamp * Op)) (s : Engine S * World)
    : list Output * Res unit * (Engine S * World) :=
  match ops with
  | [] => ([], Ok tt, s)
  | (ts, op) :: ops =>
      match deliver ts op s with
      | (Ok o, s) => let '(os, r, s) := deliver_all ops s in (o :: os, r, s)
      | (Err k, s) => ([], Err k, s)
      | (Panic, s) => ([], Panic, s)
      | (Killed, s) => ([], Killed, s)
      end
  end.

(** One process: its configuration, the fate of its system calls, its input. *)
Record Run := mkRun {
  run_interval : Z; run_fsync : bool; run_faults : list fault; run_ops : list (Timestamp * Op) }.

Definition run_once d (r : Run) : list Output * Dir :=
  match boot (run_interval r) (run_fsync r) (mkWorld d (run_faults r)) with
  | (Ok e, w) => let '(os, _, (_, w)) := deliver_all (run_ops r) (e, w) in (os, files w)
  | (_, w) => ([], files w)
  end.

(** Processes one after the other. *)
Inductive Lifetimes : Dir → list Run → list (list Output) → Dir → Prop :=
  | lf_nil d : Lifetimes d [] [] d
  | lf_cons d d1 d2 r rl os osl :
      run_once d r = (os, d1) → Lifetimes d1 rl osl d2 →
      Lifetimes d (r :: rl) (os :: osl) d2.

(** No process is started on a log that ends inside a record. A process may leave such
    a log; nothing in the program cuts it back to its last whole record, and what
    the next process appends behind it can be lost ([torn_log_loses_acknowledged]). *)
Fixpoint clean_starts d (rl : list Run) : Prop :=
  match rl with
  | [] => True
  | r :: rl => untorn d ∧ clean_starts (run_once d r).2 rl
  end.

#[export] Instance clean_starts_dec d rl : Decision (clean_starts d rl).
Proof. revert d; induction rl as [|r rl IH]; intros d; cbn; apply _. Defined.

(** ** The specification: an atomic, exactly-once service *)

Definition stamped (ops : list (Timestamp * Op)) : list (Z * Op) :=
  map (λ x, (as_nanos x.1, x.2)) ops.

(** The outputs of the deduplicated run from [v]. *)
Fixpoint outputs v rs : list Output :=
  match rs with
  | [] => []
  | r :: rs =>
      match step_out v r with
      | Some (v', o) => default OutSuppressed o :: outputs v' rs
      | None => []
      end
  end.

(** Each process executes its acknowledged operations and at most the one it was
    working on; its acknowledgements are the outputs of that execution. *)
Inductive Executed : Image S → list Run → list (list Output) → list (Z * Op) → Image S → Prop :=
  | ex_nil v : Executed v [] [] [] v
  | ex_cons v v1 v2 r rl os osl k h :
      (length os ≤ k ≤ Datatypes.S (length os))%nat →
      os = outputs v (take (length os) (stamped (run_ops r))) →
      steps v (take k (stamped (run_ops r))) = Some v1 →
      Executed v1 rl osl h v2 →
      Executed v (r :: rl) (os :: osl) (take k (stamped (run_ops r)) ++ h) v2.

(** ** Proofs *)

Lemma stamped_app l1 l2 : stamped (l1 ++ l2) = stamped l1 ++ stamped l2.
Proof. apply map_app. Qed.

Lemma untorn_tail d rs tail v : untorn d → Stored d rs tail v → tail = [].
Proof.
  unfold untorn. intros Hu [Hl Ht Hwf _]. rewrite Hl in Hu.
  rewrite <- Hu. clear Hl Hu. symmetry. unfold log_bytes.
  induction Hwf as [|r rs (Hts & _ & Hlen) _ IH]; cbn; [by apply log_rest_nothing|].
  by rewrite <- app_assoc, log_rest_record.
Qed.

Lemma ends_read name w :
  ends (sys_read name) w (λ o w', files w' = files w ∧ o = files w !! name)
    (λ w', files w' = files w).
Proof.
  unfold ends, sys_read. destruct (next_fault w) as [f w1] eqn:E.
  apply next_fault_files in E. destruct f; by rewrite ?E.
Qed.

Lemma ends_open fs w :
  ends (durable_open fs) w (λ du w', files w' = files w ∧ du = mkDurable fs false)
    (λ w', files w' = files w).
Proof.
  unfold durable_open. eapply (ends_bind _ _ _ (λ _ w', files w' = files w)).
  - pose proof (sys_atomic_spec id w) as H. unfold ends, sys_create_dir.
    destruct (sys_atomic id w) as [[| | |] ?]; cbn in *; [done|by destruct H| |by destruct H]; done.
  - intros _ w' H. by apply ends_ret.
Qed.

Definition booted i v e : Prop :=
  image e = v ∧ snap_interval e = Z.max i 1 ∧ 0 <= ops_since_snap e < snap_interval e.

(** Recovery under any fault schedule: it rebuilds the image or stops, it never
    panics, and no file changes. *)
Lemma recover_ends_log i fs w v :
  Holds (files w) v →
  ends (recover i fs) w
    (λ e w', files w' = files w ∧ booted i v e ∧ ops_since_snap e <= len (parse_log (logc (files w))))
    (λ w', files w' = files w).
Proof.
  intros HH. destruct (recover_Holds _ _ i fs HH) as (e0 & Hr & Him & Hsi & Hops & Hdu & Hlog).
  set (d := files w) in *. unfold recover in *.
  eapply ends_bind; [apply ends_open|]. intros du w1 [E1 ->].
  eapply ends_bind; [eapply ends_impl; [intros ? ? H; exact H| |apply ends_read]; intros ? H; by rewrite H|].
  intros snap w2 [E2 ->]. rewrite E1 in E2 |- *.
  eapply (ends_bind _ _ _ (λ l w', files w' = d ∧ l = parse_log (logc d))).
  { unfold read_log. eapply ends_bind; [eapply ends_impl; [intros ? ? H; exact H| |apply ends_read]|].
    - intros ? H. by rewrite H.
    - intros raw w' [E ->]. rewrite E2. fold d. unfold ends, logc.
      destruct (d !! LOG); [rewrite read_records_parse by lia|]; cbn; by rewrite E, E2. }
  intros l w3 [E3 ->].
  rewrite (run_bind_ok (durable_open fs) _ _ (mkDurable fs false) (calm d)) in Hr by done.
  rewrite (run_bind_ok read_snapshot _ _ (d !! SNAP) (calm d)) in Hr by done.
  rewrite (run_bind_ok read_log _ _ _ _ (read_log_calm d)) in Hr.
  revert Hr. rewrite run_bind. unfold ends. rewrite run_bind. unfold run_local.
  destruct (replay _ _ _) as [[n| | |] e1]; [|done..]. rewrite !run_bind.
  destruct (u64_rem _ _); [|done]. cbn. intros [= <-]. done.
Qed.

Lemma recover_ends i fs w v :
  Holds (files w) v →
  ends (recover i fs) w (λ e w', files w' = files w ∧ booted i v e) (λ w', files w' = files w).
Proof. intros HH. eapply ends_impl; [| |by apply recover_ends_log]; [by intros ? ? (? & ? & _)|done]. Qed.

Lemma log_bytes_nil rs : log_bytes rs = [] → rs = [].
Proof.
  destruct rs as [|r rs]; [done|]. intros H%(f_equal length). unfold log_bytes in H.
  cbn [map concat] in H. rewrite length_app, length_record in H. cbn in H. lia.
Qed.

Lemma boot_ends i fs w rs v :
  Stored (files w) rs [] v →
  ends (boot i fs) w (λ e w', files w' = files w ∧ booted i v e) (λ w', files w' = files w).
Proof.
  intros HS. unfold ends, boot.
  destruct (bool_decide (is_Some (files w !! SNAP)) || bool_decide (is_Some (files w !! LOG))) eqn:Eb.
  - apply recover_ends. by exists rs, [].
  - apply orb_false_iff in Eb as [Es%bool_decide_eq_false El%bool_decide_eq_false].
    apply eq_None_not_Some in Es, El. destruct HS as [Hl _ _ Hs].
    unfold logc in Hl. rewrite El, app_nil_r in Hl. symmetry in Hl. apply log_bytes_nil in Hl as ->.
    unfold base, snapc in Hs. rewrite Es in Hs. injection Hs as <-.
    eapply (ends_bind _ _ _ _ (λ e w', files w' = files w ∧ booted i image0 e)); [apply ends_open|].
    intros du w' [E ->]. apply ends_ret. split; [done|]. unfold booted, fresh. cbn. repeat split; lia.
Qed.

Lemma weights_cons (r : Z * Op) rs : weights (r :: rs) = sm_weight r.2 + weights rs.
Proof. done. Qed.

Lemma deliver_all_spec ops B e w :
  Live e (files w) → Forall wf_rec (stamped ops) → wf_image B (image e) →
  B + weights (stamped ops) <= U32_MAX →
  let '(os, r, (e', w')) := deliver_all ops (e, w) in
  os = outputs (image e) (take (length os) (stamped ops)) ∧
  ∃ k v, (length os ≤ k ≤ Datatypes.S (length os))%nat ∧
    steps (image e) (take k (stamped ops)) = Some v ∧ Holds (files w') v ∧
    (r = Ok tt → length os = length ops ∧ Live e' (files w') ∧ image e' = v).
Proof.
  revert B e w; induction ops as [|[ts op] ops IH]; intros B e w HL Hwf Hv HB.
  { split; [done|]. exists 0%nat, (image e). split_and!; [done|cbn; lia|done|by apply Live_Holds|done]. }
  change (stamped ((ts, op) :: ops)) with ((as_nanos ts, op) :: stamped ops) in *.
  rewrite weights_cons in HB. cbn [snd] in HB. apply Forall_cons in Hwf as [Hr Hwf].
  pose proof (weights_nonneg (stamped ops)) as Hnn.
  pose proof (deliver_spec as_nanos B e w ts op HL Hr Hv ltac:(lia)) as HD.
  cbn [deliver_all]. destruct (deliver ts op (e, w)) as [[out|er| |] [e1 w1]].
  - destruct HD as (HL1 & o & Hs & ->).
    assert (Hst : step (image e) (as_nanos ts, op) = Some (image e1)) by (unfold step; by rewrite Hs).
    specialize (IH _ e1 w1 HL1 Hwf (step_wf _ _ _ _ Hr Hv Hst) ltac:(cbn; lia)).
    destruct (deliver_all ops (e1, w1)) as [[os r] [e2 w2]]. destruct IH as (Hos & k & v & Hk & Hsv & HH & Hok).
    split; [cbn; rewrite Hs; by f_equal|]. exists (Datatypes.S k), v.
    split_and!; [cbn; lia..| |done|].
    + cbn. by rewrite Hst.
    + intros E. destruct (Hok E) as (? & ? & ?). split_and!; [cbn; lia|done..].
  - split; [done|]. destruct HD as [HH|(v & Hs & HH)];
      [exists 0%nat, (image e)|exists 1%nat, v]; split_and!; cbn; try done; try lia; by rewrite Hs.
  - split; [done|]. destruct HD as [_ ->]. exists 0%nat, (image e).
    split_and!; cbn; try done; try lia. by apply Live_Holds.
  - split; [done|]. destruct HD as [HH|(v & Hs & HH)];
      [exists 0%nat, (image e)|exists 1%nat, v]; split_and!; cbn; try done; try lia; by rewrite Hs.
Qed.

Lemma run_once_spec d rs v r B os d' :
  Stored d rs [] v → Forall wf_rec (stamped (run_ops r)) → wf_image B v →
  B + weights (stamped (run_ops r)) <= U32_MAX →
  run_once d r = (os, d') →
  os = outputs v (take (length os) (stamped (run_ops r))) ∧
  ∃ k v', (length os ≤ k ≤ Datatypes.S (length os))%nat ∧
    steps v (take k (stamped (run_ops r))) = Some v' ∧ Holds d' v'.
Proof.
  intros HS Hwf Hv HB. unfold run_once.
  pose proof (boot_ends (run_interval r) (run_fsync r) (mkWorld d (run_faults r)) rs v HS) as HE.
  unfold ends in HE. destruct (boot _ _ _) as [[e| | |] w]; cbn [files] in HE; [|..].
  - destruct HE as (Ef & <- & Hi & Ho).
    assert (HL : Live e (files w)) by (split; [exists rs; by rewrite Ef|lia..]).
    pose proof (deliver_all_spec _ B e w HL Hwf Hv HB) as HD.
    destruct (deliver_all _ _) as [[os0 r0] [e' w']]. intros [= <- <-].
    destruct HD as (? & k & v' & ? & ? & ? & _). eauto 10.
  - intros [= <- <-]. split; [done|]. exists 0%nat, v. rewrite HE.
    split_and!; cbn; try done; [lia|by exists rs, []].
  - done.
  - intros [= <- <-]. split; [done|]. exists 0%nat, v. rewrite HE.
    split_and!; cbn; try done; [lia|by exists rs, []].
Qed.

Definition all_ops (rl : list Run) : list (Z * Op) := concat (map (λ r, stamped (run_ops r)) rl).

Lemma weights_app rs1 rs2 : weights (rs1 ++ rs2) = weights rs1 + weights rs2.
Proof. unfold weights. induction rs1 as [|r rs1 IH]; cbn; lia. Qed.

Lemma weights_take k rs : weights (take k rs) <= weights rs.
Proof.
  rewrite <- (take_drop k rs) at 2. rewrite weights_app. pose proof (weights_nonneg (drop k rs)). lia.
Qed.

Lemma lifetimes_Executed d rl osl d' B v :
  Lifetimes d rl osl d' → clean_starts d rl → Forall wf_rec (all_ops rl) → wf_image B v →
  B + weights (all_ops rl) <= U32_MAX → Holds d v →
  ∃ h v', Executed v rl osl h v' ∧ Holds d' v'.
Proof.
  intros HL. revert B v; induction HL as [d|d d1 d2 r rl os osl Hr _ IH];
    intros B v Hcl Hwf Hv HB HH; [by exists [], v; split; [constructor|]|].
  cbn [clean_starts] in Hcl. rewrite Hr in Hcl. destruct Hcl as [Hu Hcl].
  destruct HH as (rs & tail & HS). pose proof (untorn_tail _ _ _ _ Hu HS) as ->.
  cbn [all_ops map concat] in Hwf, HB. apply Forall_app in Hwf as [Hw1 Hw2].
  unfold all_ops in HB. cbn [map concat] in HB. rewrite weights_app in HB.
  fold (all_ops rl) in HB.
  pose proof (weights_nonneg (all_ops rl)).
  destruct (run_once_spec _ _ _ _ _ _ _ HS Hw1 Hv ltac:(lia) Hr) as (Hos & k & v1 & Hk & Hs & HH1).
  pose proof (weights_take k (stamped (run_ops r))).
  destruct (IH (B + weights (take k (stamped (run_ops r)))) v1) as (h & v' & HE & HH2);
    [done|done| |lia|done|].
  - eapply steps_wf; [|done|done]. by apply Forall_take.
  - exists (take k (stamped (run_ops r)) ++ h), v'. split; [by econstructor|done].
Qed.

Lemma Executed_steps v rl osl h v' : Executed v rl osl h v' → steps v h = Some v'.
Proof. induction 1 as [|v v1 v2 r rl os osl k h _ _ Hs _ IH]; [done|]. by rewrite steps_app, Hs. Qed.

Lemma Holds_empty : Holds ∅ image0.
Proof. exists [], []. by split. Qed.
End Lifetimes.
