(* ===== verification/Torn.v ===== *)
(** * Torn: a process that starts on a log that ends inside a record

    [read_log] stops at a torn record but nothing removes it, so the next process
    appends behind it. When the header of the torn record is whole, the bytes that
    follow are taken for the missing part of its payload. *)

From S2P Require Import Prelude Bytes Io State Durable Engine EngineFacts CrashSafety Lifetimes.
Local Open Scope Z_scope.

(** The first record of the file claims more bytes than there are. *)
Lemma parse_log_swallows ts b n x :
  is_u64 ts → len b <= U32_MAX → (12 ≤ n)%nat → (n + length x < length (record ts b))%nat →
  parse_log (take n (record ts b) ++ x) = [].
Proof.
  intros Hts Hb Hn Hx. rewrite length_record in Hx. rewrite parse_log_unfold.
  destruct (record_fields ts b [] Hts Hb) as (_ & E4 & _). rewrite app_nil_r in E4.
  rewrite (proj2 (Nat.leb_le 12 _)) by len_lia. cbn zeta.
  assert (Hf : take 4 (drop 8 (take n (record ts b) ++ x)) = to_le_bytes 4 (len b)).
  { rewrite <- E4, !take_drop_commute. cbn [Nat.add].
    by rewrite take_app_le, take_take, Nat.min_l by len_lia. }
  rewrite Hf, from_to_le_u32, Nat2Z.id by width_lia.
  by rewrite (proj2 (Nat.ltb_lt _ _)) by len_lia.
Qed.

Section Torn.
Context {S : Type} {SM : StateMachine S} {SMok : StateMachineOk S}.
Context {Timestamp : Type} (as_nanos : Timestamp → Z).
Implicit Types (e : Engine S) (v : Image S) (d : Dir).
Local Abbreviation deliver := (deliver (S:=S) as_nanos).

(** [d'] is [d] with at most [n] bytes more in the log. *)
Definition grown (n : nat) d d' : Prop :=
  snapc d' = snapc d ∧ ∃ x, logc d' = logc d ++ x ∧ (length x ≤ n)%nat.

Lemma grown_refl n d : grown n d d.
Proof. split; [done|]. exists []. rewrite app_nil_r. split; [done|cbn; lia]. Qed.

Lemma grown_trans n m d1 d2 d3 : grown n d1 d2 → grown m d2 d3 → grown (n + m) d1 d3.
Proof.
  intros [H1 (x & E1 & L1)] [H2 (y & E2 & L2)]. split; [congruence|]. exists (x ++ y).
  rewrite E2, E1, app_assoc. split; [done|len_lia].
Qed.

Lemma grown_weaken n m d d' : (n ≤ m)%nat → grown n d d' → grown m d d'.
Proof. intros H [? (x & ? & ?)]. split; [done|]. exists x. split; [done|lia]. Qed.

(** The bytes the operations take in the log. *)
Definition logged (ops : list (Timestamp * Op)) : nat := length (log_bytes (stamped as_nanos ops)).

Lemma logged_cons ts op ops :
  logged ((ts, op) :: ops) = (length (record (as_nanos ts) (encode op)) + logged ops)%nat.
Proof. unfold logged, log_bytes, stamped. cbn [map concat fst snd]. by rewrite length_app. Qed.

(** A delivery that is not due for a snapshot, whatever the log holds. *)
Lemma deliver_grows e w ts op :
  ops_since_snap e + 1 < snap_interval e →
  let n := length (record (as_nanos ts) (encode op)) in
  match deliver ts op (e, w) with
  | (Ok out, (e', w')) =>
      grown n (files w) (files w') ∧ snap_interval e' = snap_interval e ∧
      ops_since_snap e' <= ops_since_snap e + 1 ∧
      ∃ o, step_out (image e) (as_nanos ts, op) = Some (image e', o) ∧ out = default OutSuppressed o
  | (_, (_, w')) => grown n (files w) (files w')
  end.
Proof.
  intros Hi n. unfold deliver. rewrite run_bind. unfold on_eng at 1, zoom. cbn [fst snd].
  rewrite apply_dedup_eq. destruct (step_out (image e) (as_nanos ts, op)) as [[v [o|]]|]; [..|apply grown_refl].
  2: { rewrite run_bind. cbn. split; [apply grown_refl|]. split; [done|]. split; [lia|]. exists None. by destruct v. }
  rewrite (run_bind_ok _ _ _ tt (count_applied (with_image e v), w)) by done. set (e1 := count_applied (with_image e v)).
  rewrite run_bind. unfold on_dur, zoom. cbn [fst snd].
  pose proof (append_ends (dur e1) (as_nanos ts) (encode op) w) as Ha. unfold ends in Ha.
  destruct (append _ _ _) as [[[]| | |] [du w1]]; cbn [fst snd] in Ha |- *; [|destruct Ha as (k & Hl & Hs)|done|destruct Ha as (k & Hl & Hs)].
  2, 3: split; [done|]; exists (take k (record (as_nanos ts) (encode op))); split; [done|subst n; rewrite length_take; lia].
  destruct Ha as [Hl Hs]. assert (Hg : grown n (files w) (files w1)) by (split; [done|]; eauto).
  rewrite run_bind. cbn [on_eng zoom modify fst snd]. set (e2 := set_ops _ _).
  rewrite (run_bind_ok get _ _ (e2, w1) (e2, w1)) by done. cbn [fst].
  change (snap_interval e2) with (snap_interval e). change (ops_since_snap e2) with (ops_since_snap e + 1).
  rewrite (proj2 (Z.leb_gt _ _)) by done. rewrite (run_bind_ok _ _ _ tt (e2, w1)) by done.
  cbn [mret M_ret]. split; [done|]. split; [done|]. split; [done|]. exists (Some o). by destruct v.
Qed.

Lemma deliver_all_grows ops e w :
  ops_since_snap e + len ops < snap_interval e →
  let '(os, _, (_, w')) := deliver_all as_nanos ops (e, w) in
  os = outputs (image e) (take (length os) (stamped as_nanos ops)) ∧ grown (logged ops) (files w) (files w').
Proof.
  revert e w; induction ops as [|[ts op] ops IH]; intros e w Hi; [split; [done|apply grown_refl]|].
  rewrite length_cons, Nat2Z.inj_succ in Hi.
  pose proof (deliver_grows e w ts op ltac:(lia)) as HD. cbn zeta in HD. rewrite logged_cons.
  change (stamped as_nanos ((ts, op) :: ops)) with ((as_nanos ts, op) :: stamped as_nanos ops).
  cbn [deliver_all]. destruct (deliver ts op (e, w)) as [[out| | |] [e1 w1]].
  2, 3, 4: split; [done|]; eapply grown_weaken; [|exact HD]; lia.
  destruct HD as (Hg & Hsi & Hops & o & Hs & ->).
  specialize (IH e1 w1 ltac:(lia)). destruct (deliver_all as_nanos ops (e1, w1)) as [[os r] [e2 w2]].
  destruct IH as [Hos Hg2]. split; [cbn; rewrite Hs; by f_equal|by eapply grown_trans].
Qed.

(** A process whose appends fit the hole in the torn record. *)
Lemma run_on_torn d rs v ts op n r :
  let torn := record ts (encode op) in
  Stored d rs (take n torn) v → wf_rec (ts, op) → (12 ≤ n)%nat → (n + logged (run_ops r) < length torn)%nat →
  len rs + len (run_ops r) < run_interval r →
  let '(os, d') := run_once (S := S) as_nanos d r in
  os = outputs v (take (length os) (stamped as_nanos (run_ops r))) ∧ Holds d' v.
Proof.
  intros torn HS (Hts & _ & Hlen) Hn Hfit Hi.
  assert (HH : Holds d v) by by exists rs, (take n torn).
  pose proof HS as [Hl Ht Hwf Hs].
  assert (Hg : ∀ d', grown (logged (run_ops r)) d d' → Holds d' v).
  { intros d' [Hs' (x & Hl' & Hx)]. exists rs, (take n torn ++ x). split; [by rewrite Hl', Hl, app_assoc| |done|].
    - apply parse_log_swallows; [done..|]. fold torn. lia.
    - unfold base. by rewrite Hs'. }
  assert (Hlog : is_Some (d !! LOG)).
  { destruct (d !! LOG) eqn:E; [done|]. unfold logc in Hl. rewrite E in Hl. apply (f_equal length) in Hl.
    rewrite length_app, length_take in Hl. cbn in Hl. lia. }
  assert (Hrec : len (parse_log (logc d)) = len rs).
  { rewrite Hl. unfold log_bytes. pose proof (parse_log_records (map (λ r, (r.1, encode r.2)) rs) (take n torn)) as HP.
    rewrite map_map in HP. cbn in HP. rewrite HP, Ht, app_nil_r, length_map; [done|].
    apply Forall_map. eapply Forall_impl; [exact Hwf|]. by intros ? (? & ? & ?). }
  unfold run_once, boot. cbn [files]. rewrite (bool_decide_true (is_Some (d !! LOG))), orb_true_r by done.
  pose proof (recover_ends_log (run_interval r) (run_fsync r) (mkWorld d (run_faults r)) v HH) as HR. unfold ends in HR.
  destruct (recover _ _ _) as [[e| | |] w]; cbn [files] in HR; [| |done|].
  2, 3: rewrite HR; split; [done|]; apply Hg, grown_refl.
  destruct HR as (Hf & (Him & Hsi & _) & Hops). rewrite Hrec in Hops.
  pose proof (deliver_all_grows (run_ops r) e w ltac:(lia)) as HD. rewrite Him in HD.
  destruct (deliver_all _ _ _) as [[os r0] [e' w']]. destruct HD as [Hos HD]. rewrite Hf in HD. split; [done|]. by apply Hg.
Qed.
End Torn.
