(* ===== verification/EngineSpec.v ===== *)
(** * EngineSpec: the repository's TLA+ specification of the engine
    ([spec/OneBarrierEngine.tla])

    A counter incremented through the engine, with crashes and recoveries between any
    two steps. The specification is a step relation; the four properties it states are
    invariants of every reachable state, for any set of clients and any bound; and every
    history of processes that run the Rust engine is a behaviour of it. *)

From S2P Require Import Prelude Bytes Text Io State Durable Engine EngineFacts CrashSafety Lifetimes.
Local Open Scope Z_scope.

(** An operation is its client and number. *)
Abbreviation TOp := (Z * Z)%type.

(** The variables of the specification; a mark that is absent is 0. *)
Record TState := mkT {
  t_value : Z; t_hw : gmap Z Z; t_applied : gset TOp; t_acked : gset TOp; durLog : list TOp;
  snapVal : Z; snapHW : gmap Z Z; snapApplied : gset TOp; crashed : bool }.

Definition t_init : TState := mkT 0 ∅ ∅ ∅ [] 0 ∅ ∅ false.

(** The volatile part: the counter, the applied operations, the marks. *)
Record TVol := mkVol { vol_value : Z; vol_applied : gset TOp; vol_hw : gmap Z Z }.

(** [Replay] *)
Fixpoint t_replay (s : list TOp) (r : TVol) : TVol :=
  match s with
  | [] => r
  | op :: s =>
      if hw (vol_hw r) op.1 <? op.2
      then t_replay s (mkVol (vol_value r + 1) ({[op]} ∪ vol_applied r) (<[op.1 := op.2]> (vol_hw r)))
      else t_replay s r
  end.

Definition t_deliver (op : TOp) (t : TState) : TState :=
  if hw (t_hw t) op.1 <? op.2
  then mkT (t_value t + 1) (<[op.1 := op.2]> (t_hw t)) ({[op]} ∪ t_applied t) ({[op]} ∪ t_acked t)
         (durLog t ++ [op]) (snapVal t) (snapHW t) (snapApplied t) (crashed t)
  else t.
Definition t_snapshot (t : TState) : TState :=
  mkT (t_value t) (t_hw t) (t_applied t) (t_acked t) [] (t_value t) (t_hw t) (t_applied t) (crashed t).
Definition t_crash (t : TState) : TState :=
  mkT 0 ∅ ∅ (t_acked t) (durLog t) (snapVal t) (snapHW t) (snapApplied t) true.
Definition t_snap (t : TState) : TVol := mkVol (snapVal t) (snapApplied t) (snapHW t).
Definition t_recover (t : TState) : TState :=
  let r := t_replay (durLog t) (t_snap t) in
  mkT (vol_value r) (vol_hw r) (vol_applied r) (t_acked t) (durLog t) (snapVal t) (snapHW t) (snapApplied t) false.

(** [Next] *)
Inductive t_step (Clients : gset Z) (MaxSeq : Z) : TState → TState → Prop :=
  | TDeliver op t :
      crashed t = false → op.1 ∈ Clients → 1 <= op.2 <= MaxSeq → op.2 <= hw (t_hw t) op.1 + 1 →
      t_step Clients MaxSeq t (t_deliver op t)
  | TSnapshot t : crashed t = false → t_step Clients MaxSeq t (t_snapshot t)
  | TCrash t : crashed t = false → t_step Clients MaxSeq t (t_crash t)
  | TRecover t : crashed t = true → t_step Clients MaxSeq t (t_recover t).

(** The properties. *)
Definition TypeOK (Clients : gset Z) (MaxSeq : Z) (t : TState) : Prop :=
  let counter z := 0 <= z <= Z.of_nat (size Clients) * MaxSeq in
  let marks (h : gmap Z Z) := ∀ c, 0 <= hw h c <= MaxSeq in
  let ops (s : gset TOp) := ∀ op, op ∈ s → op.1 ∈ Clients ∧ 1 <= op.2 <= MaxSeq in
  counter (t_value t) ∧ marks (t_hw t) ∧ ops (t_applied t) ∧ ops (t_acked t) ∧
  (∀ op, op ∈ durLog t → op.1 ∈ Clients ∧ 1 <= op.2 <= MaxSeq) ∧
  counter (snapVal t) ∧ marks (snapHW t) ∧ ops (snapApplied t).
Definition ExactlyOnce (t : TState) : Prop :=
  crashed t = false → t_value t = Z.of_nat (size (t_applied t)).
Definition NoLostAck (t : TState) : Prop := crashed t = false → t_acked t ⊆ t_applied t.
Definition SnapshotConsistent (t : TState) : Prop := snapVal t = Z.of_nat (size (snapApplied t)).
Definition AckedDurable (t : TState) : Prop := ∀ op, op ∈ t_acked t → op ∈ snapApplied t ∨ op ∈ durLog t.

(** ** The inductive invariant *)

Section Invariant.
Context (Clients : gset Z) (MaxSeq : Z).

(** The applied operations are exactly those the marks cover, and are counted once. *)
Record counted (r : TVol) : Prop := {
  co_value : vol_value r = Z.of_nat (size (vol_applied r));
  co_hw : ∀ c, 0 <= hw (vol_hw r) c;
  co_applied : ∀ c s, (c, s) ∈ vol_applied r ↔ 1 <= s <= hw (vol_hw r) c;
  co_ops : ∀ op, op ∈ vol_applied r → op.1 ∈ Clients ∧ 1 <= op.2 <= MaxSeq;
}.

Definition t_vol (t : TState) : TVol := mkVol (t_value t) (t_applied t) (t_hw t).

Record t_inv (t : TState) : Prop := {
  ti_snap : counted (t_snap t);
  ti_durable : counted (t_replay (durLog t) (t_snap t));
  ti_acked : t_acked t = vol_applied (t_replay (durLog t) (t_snap t));
  ti_log : ∀ op, op ∈ durLog t → op.1 ∈ Clients ∧ 1 <= op.2 <= MaxSeq;
  ti_live : t_vol t = if crashed t then mkVol 0 ∅ ∅ else t_replay (durLog t) (t_snap t);
}.

(** One more record of the log. *)
Definition t_apply (op : TOp) (r : TVol) : TVol :=
  if hw (vol_hw r) op.1 <? op.2
  then mkVol (vol_value r + 1) ({[op]} ∪ vol_applied r) (<[op.1 := op.2]> (vol_hw r)) else r.

Lemma t_replay_snoc s op r : t_replay (s ++ [op]) r = t_apply op (t_replay s r).
Proof. revert r; induction s as [|o s IH]; intros r; cbn [app t_replay]; [done|]. by case_match. Qed.

Lemma counted_nil : counted (mkVol 0 ∅ ∅).
Proof.
  split; cbn; [by rewrite size_empty|done| |set_solver].
  intros c s. unfold hw. rewrite lookup_empty. cbn. split; [set_solver|lia].
Qed.

Lemma counted_apply op r :
  counted r → op.1 ∈ Clients → 1 <= op.2 <= MaxSeq → op.2 <= hw (vol_hw r) op.1 + 1 → counted (t_apply op r).
Proof.
  intros [Hv Hh Ha Ho] Hc Hs Hg. unfold t_apply. destruct (Z.ltb_spec (hw (vol_hw r) op.1) op.2) as [Hlt|]; [|by split].
  destruct op as [c s]. cbn [fst snd] in *. split; cbn [vol_value vol_applied vol_hw].
  - rewrite size_union, size_singleton; [lia|]. intros [c' s'] E%elem_of_singleton Hin. injection E as -> ->.
    apply Ha in Hin. lia.
  - intros c'. rewrite hw_insert. case_decide; [lia|apply Hh].
  - intros c' s'. rewrite elem_of_union, elem_of_singleton, Ha, hw_insert. specialize (Hh c').
    case_decide as Hd; [subst c'|]; split.
    + intros [[= ->]|?]; lia.
    + intros ?. destruct (decide (s' = s)) as [->|]; [by left|right; lia].
    + intros [[= -> ->]|?]; [done|lia].
    + intros ?. by right.
  - intros op [Eo%elem_of_singleton|Hin]%elem_of_union; [by subst op|by apply Ho].
Qed.

Lemma t_inv_init : t_inv t_init.
Proof. split; [apply counted_nil..|done|set_solver|done]. Qed.

Lemma t_inv_step t t' : t_step Clients MaxSeq t t' → t_inv t → t_inv t'.
Proof.
  intros Hst [Hsn Hdu Hac Hlo Hli]. destruct Hst as [op t Hcr Hc Hs Hg|t Hcr|t Hcr|t Hcr]; rewrite Hcr in Hli.
  - assert (Ehw : vol_hw (t_replay (durLog t) (t_snap t)) = t_hw t) by by rewrite <- Hli.
    unfold t_deliver. destruct (Z.ltb_spec (hw (t_hw t) op.1) op.2) as [Hlt|]; [|split; try done; by rewrite Hcr].
    split; cbn [durLog t_acked crashed]; rewrite ?t_replay_snoc;
      change (t_snap (mkT _ _ _ _ _ _ _ _ _)) with (t_snap t).
    + done.
    + apply counted_apply; [done..|by rewrite Ehw].
    + unfold t_apply. rewrite Ehw, (proj2 (Z.ltb_lt _ _)) by done. cbn. by rewrite <- Hac.
    + intros o [?|Eo%list_elem_of_singleton]%elem_of_app; [by apply Hlo|by subst o].
    + rewrite Hcr. unfold t_apply. rewrite <- Hli at 1. cbn [vol_hw t_vol]. rewrite (proj2 (Z.ltb_lt _ _)) by done. by rewrite <- Hli.
  - assert (Esn : t_snap (t_snapshot t) = t_vol t) by done.
    split; cbn [durLog t_replay t_acked crashed t_snapshot]; rewrite ?Esn, ?Hcr, ?Hli; try done. set_solver.
  - split; done.
  - split; try done. cbn [crashed t_recover durLog]. change (t_snap (t_recover t)) with (t_snap t).
    unfold t_vol, t_recover. cbn. by destruct (t_replay _ _).
Qed.

Lemma t_inv_steps t t' : rtc (t_step Clients MaxSeq) t t' → t_inv t → t_inv t'.
Proof. induction 1 as [|t0 t1 t Hs _ IH]; [done|]. intros Hi. by apply IH, (t_inv_step t0). Qed.

(** The applied operations are within the clients and numbers there are. *)
Lemma counted_bound r : counted r → 0 <= vol_value r <= Z.of_nat (size Clients) * Z.max 0 MaxSeq.
Proof.
  intros [Hv _ _ Ho]. split; [lia|]. rewrite Hv. unfold size at 1, set_size. cbn [compose].
  assert (Hsub : elements (vol_applied r) ⊆+ list_prod (elements Clients) (seqZ 1 MaxSeq)).
  { apply NoDup_submseteq; [apply NoDup_elements|]. intros [c s] Hin%elem_of_elements.
    apply Ho in Hin as [Hc Hs]. cbn in *. apply list_elem_of_In, in_prod; apply list_elem_of_In.
    - by apply elem_of_elements.
    - apply elem_of_seqZ. lia. }
  apply submseteq_length in Hsub. rewrite length_prod, length_seqZ in Hsub.
  change (size Clients) with (length (elements Clients)). nia.
Qed.
End Invariant.

Lemma t_replay_applied s r op : op ∈ vol_applied (t_replay s r) → op ∈ vol_applied r ∨ op ∈ s.
Proof.
  revert r; induction s as [|o s IH]; intros r; cbn [t_replay]; [by left|].
  case_match; intros [Hin|Hin]%IH; [|by right; right|by left|by right; right].
  cbn [vol_applied] in Hin. apply elem_of_union in Hin as [Ho%elem_of_singleton|Hin]; [right; subst; by left|by left].
Qed.

(** C25: The TLA+ specification is safe, for every set of clients and every bound on their
    numbers: in every reachable state the variables have their types; while the engine
    runs the counter equals the number of operations applied and every acknowledged
    operation is applied; the snapshot is consistent; and an acknowledged operation is
    in the snapshot or in the log. *)
Theorem spec_safe Clients MaxSeq t :
  1 <= MaxSeq → rtc (t_step Clients MaxSeq) t_init t →
  TypeOK Clients MaxSeq t ∧ ExactlyOnce t ∧ NoLostAck t ∧ SnapshotConsistent t ∧ AckedDurable t.
Proof.
  intros Hm Hr. destruct (t_inv_steps _ _ _ _ Hr (t_inv_init Clients MaxSeq)) as [Hsn Hdu Hac Hlo Hli].
  assert (Hvol : counted Clients MaxSeq (t_vol t)) by (rewrite Hli; destruct (crashed t); [apply counted_nil|done]).
  assert (Hty : ∀ r, counted Clients MaxSeq r → 0 <= vol_value r <= Z.of_nat (size Clients) * MaxSeq ∧
    (∀ c, 0 <= hw (vol_hw r) c <= MaxSeq) ∧ (∀ op, op ∈ vol_applied r → op.1 ∈ Clients ∧ 1 <= op.2 <= MaxSeq)).
  { intros r Hco. pose proof (counted_bound _ _ _ Hco) as Hb. rewrite Z.max_r in Hb by lia.
    destruct Hco as [_ Hh Ha Ho]. split; [done|]. split; [|done]. intros c. specialize (Hh c). split; [done|].
    destruct (decide (hw (vol_hw r) c = 0)) as [->|]; [lia|].
    assert (Hin : (c, hw (vol_hw r) c) ∈ vol_applied r) by (apply Ha; lia). apply Ho in Hin. cbn in Hin. lia. }
  destruct (Hty _ Hvol) as (V1 & V2 & V3). destruct (Hty _ Hsn) as (S1 & S2 & S3). destruct (Hty _ Hdu) as (_ & _ & D3).
  split; [|split; [|split; [|split]]].
  - unfold TypeOK. rewrite Hac. exact (conj V1 (conj V2 (conj V3 (conj D3 (conj Hlo (conj S1 (conj S2 S3))))))).
  - intros _. apply Hvol.
  - intros Hcr. rewrite Hcr in Hli. rewrite Hac, <- Hli. done.
  - apply Hsn.
  - intros op Hin. rewrite Hac in Hin. exact (t_replay_applied _ _ _ Hin).
Qed.

(** ** The engine implements the specification *)

Definition op_id (r : Z * Op) : TOp := (op_client r.2, op_seq r.2).

(** A client sends a number when it knows the answer to the one before it; an operation
    already sent may be sent again at any time. *)
Fixpoint in_order (known : gset TOp) (ops : list TOp) : Prop :=
  match ops with
  | [] => True
  | (c, s) :: ops => 1 <= s ∧ (s = 1 ∨ (c, s - 1) ∈ known) ∧ in_order ({[(c, s)]} ∪ known) ops
  end.
#[export] Instance in_order_dec ops : ∀ known, Decision (in_order known ops).
Proof. induction ops as [|[c s] ops IH]; intros known; cbn [in_order]; apply _. Defined.

Lemma in_order_take k known ops : in_order known ops → in_order known (take k ops).
Proof.
  revert k known; induction ops as [|[c s] ops IH]; intros [|k] known; cbn [take in_order]; [done..|].
  intros (? & ? & ?). auto.
Qed.

Section Refinement.
Context (am : arith_mode) {Timestamp : Type} (as_nanos : Timestamp → Z).
Context (key : bytes) (Clients : gset Z) (MaxSeq : Z).
#[local] Hint Extern 0 (StateMachine _) => exact (KvStore_StateMachine am) : typeclass_instances.
Implicit Types (t : TState) (v : Image KvStore) (r : Z * Op).
Local Abbreviation reaches := (rtc (t_step Clients MaxSeq)).

(** The operations of the specification: increments of one counter. *)
Definition counts r : Prop :=
  op_kind r.2 = KIncr key 1 ∧ op_client r.2 ∈ Clients ∧ op_seq r.2 <= MaxSeq.

Definition represents t v : Prop := t_value t = default 0 (get_int (im_state v) key) ∧ t_hw t = im_hw v.

Lemma deliver_simulates t v r v' :
  0 <= t_value t < I64_MAX → op_kind r.2 = KIncr key 1 → represents t v → step v r = Some v' →
  represents (t_deliver (op_id r) t) v' ∧ t_value (t_deliver (op_id r) t) <= t_value t + 1.
Proof.
  intros Hb Hk [Hv Hh]. unfold step, step_out, covered, t_deliver, op_id. cbn [fst snd]. rewrite Hh, (Z.ltb_antisym _ (hw (im_hw v) (op_client r.2))).
  destruct (op_seq r.2 <=? hw (im_hw v) (op_client r.2)); cbn [negb]; [intros [= <-]; split; [by split|lia]|].
  change (sm_apply (im_state v) r.2) with (kv_apply am (im_state v) r.2). unfold kv_apply. rewrite Hk.
  rewrite <- Hv. unfold i64_arith. rewrite bool_decide_true by width_lia. intros [= <-].
  split; [|cbn; lia]. split; [|by cbn]. cbn [t_value im_state]. unfold get_int. cbn [kv_map].
  rewrite lookup_insert_eq. cbn [mbind option_bind]. by rewrite parse_trimmed_to_string by width_lia.
Qed.

(** The operations a process delivers: the specification follows, and has applied them. *)
Lemma deliveries_simulate rs t v v' known :
  t_inv Clients MaxSeq t → crashed t = false → represents t v → known ⊆ t_applied t →
  in_order known (map op_id rs) → Forall counts rs → t_value t + len rs <= I64_MAX → steps v rs = Some v' →
  ∃ t', reaches t t' ∧ crashed t' = false ∧ represents t' v' ∧
    list_to_set (map op_id rs) ∪ known ⊆ t_applied t' ∧ t_value t' <= t_value t + len rs.
Proof.
  revert t v known; induction rs as [|r rs IH]; intros t v known HI Hcr HR Hkn Hord HF Hb Hs.
  { injection Hs as <-. exists t. split_and!; [constructor|done..|clear -Hkn; set_solver|cbn; lia]. }
  cbn [map in_order] in Hord. unfold op_id at 1 in Hord. destruct Hord as (H1 & Hprev & Hord).
  apply Forall_cons in HF as [(Hk & Hc & Hm) HF]. cbn [steps] in Hs. apply bind_Some in Hs as (v1 & Hs1 & Hs).
  rewrite length_cons in Hb |- *. pose proof HI as [_ Hco _ _ Hli]. rewrite Hcr in Hli. rewrite <- Hli in Hco.
  destruct Hco as [Hcv Hch Hca _]. cbn [vol_value vol_hw vol_applied t_vol] in *.
  destruct (deliver_simulates t v r v1 ltac:(lia) Hk HR Hs1) as [HR1 Hb1].
  assert (Hst : t_step Clients MaxSeq t (t_deliver (op_id r) t)).
  { apply TDeliver; [done|done|done|]. cbn. destruct Hprev as [->|Hp]; [specialize (Hch (op_client r.2)); lia|].
    apply Hkn, Hca in Hp. lia. }
  assert (Hin : {[op_id r]} ∪ known ⊆ t_applied (t_deliver (op_id r) t)).
  { unfold t_deliver. destruct (Z.ltb_spec (hw (t_hw t) (op_id r).1) (op_id r).2); [cbn; clear -Hkn; set_solver|].
    assert (Hid : op_id r ∈ t_applied t) by (by apply Hca). clear -Hkn Hid. set_solver. }
  destruct (IH (t_deliver (op_id r) t) v1 ({[op_id r]} ∪ known)) as (t' & Hr & Hcr' & HR' & Hin' & Hb'); try done.
  - by eapply t_inv_step.
  - unfold t_deliver. by case_match.
  - lia.
  - exists t'. split; [by eapply rtc_l|]. split_and!; [done|done|cbn [map list_to_set]; clear -Hin'; set_solver|lia].
Qed.

(** A crash followed by a recovery changes nothing that is volatile. *)
Lemma reboot_simulates t :
  t_inv Clients MaxSeq t → crashed t = false → ∃ t', reaches t t' ∧ crashed t' = false ∧ t_vol t' = t_vol t.
Proof.
  intros [_ _ _ _ Hli] Hcr. rewrite Hcr in Hli. exists (t_recover (t_crash t)).
  split; [|split; [done|]].
  - eapply rtc_l; [by apply TCrash|]. eapply rtc_l; [by apply TRecover|]. constructor.
  - rewrite Hli. unfold t_vol, t_recover. cbn. change (t_snap (t_crash t)) with (t_snap t). by destruct (t_replay _ _).
Qed.

(** What the clients know after each process: the answers it gave. *)
Definition acked_in (r : Run) (os : list Output) : gset TOp :=
  list_to_set (take (length os) (map op_id (stamped as_nanos (run_ops r)))).
Fixpoint clients_in_order (known : gset TOp) (rl : list Run) (osl : list (list Output)) : Prop :=
  match rl, osl with
  | r :: rl, os :: osl =>
      in_order known (map op_id (stamped as_nanos (run_ops r))) ∧ clients_in_order (acked_in r os ∪ known) rl osl
  | _, _ => True
  end.
Fixpoint acknowledged (rl : list Run) (osl : list (list Output)) : gset TOp :=
  match rl, osl with
  | r :: rl, os :: osl => acked_in r os ∪ acknowledged rl osl
  | _, _ => ∅
  end.

Lemma executed_simulates v rl osl h v' t known :
  Executed as_nanos v rl osl h v' → t_inv Clients MaxSeq t → crashed t = false → represents t v →
  known ⊆ t_applied t → clients_in_order known rl osl → Forall counts (all_ops as_nanos rl) →
  t_value t + len (all_ops as_nanos rl) <= I64_MAX →
  ∃ t', reaches t t' ∧ crashed t' = false ∧ represents t' v' ∧ acknowledged rl osl ∪ known ⊆ t_applied t'.
Proof.
  intros HE; revert t known; induction HE as [v|v v1 v2 r rl os osl k h Hk _ Hs _ IH];
    intros t known HI Hcr HR Hkn Hord HF Hb.
  { exists t. split_and!; [constructor|done..|cbn; clear -Hkn; set_solver]. }
  unfold all_ops in HF, Hb. cbn [map concat] in HF, Hb. fold (all_ops as_nanos rl) in HF, Hb.
  apply Forall_app in HF as [HF1 HF2]. rewrite length_app in Hb. destruct Hord as [Ho1 Ho2].
  set (ops := stamped as_nanos (run_ops r)) in *.
  assert (Hlk : (length (take k ops) ≤ length ops)%nat) by (rewrite length_take; lia).
  destruct (deliveries_simulate (take k ops) t v v1 known HI Hcr HR Hkn) as (t1 & Hr1 & Hcr1 & HR1 & Hin1 & Hb1).
  - rewrite <- firstn_map. by apply in_order_take.
  - by apply Forall_take.
  - lia.
  - done.
  - pose proof (t_inv_steps _ _ _ _ Hr1 HI) as HI1.
    destruct (reboot_simulates t1 HI1 Hcr1) as (t2 & Hr2 & Hcr2 & Ev). injection Ev as Ev Ea Eh.
    destruct (IH t2 (acked_in r os ∪ known)) as (t' & Hr' & Hcr' & HR' & Hin'); try done.
    + by eapply t_inv_steps.
    + unfold represents. by rewrite Ev, Eh.
    + rewrite Ea. etrans; [|exact Hin1]. apply union_mono_r. unfold acked_in. intros o.
      rewrite !elem_of_list_to_set, <- firstn_map, (list_elem_of_lookup (take (length os) _)).
      intros (j & Hj). apply lookup_take_Some in Hj as [Hj ?]. apply list_elem_of_lookup. exists j.
      apply lookup_take_Some. split; [done|lia].
    + rewrite Ev. lia.
    + exists t'. split; [etrans; [exact Hr1|]; by etrans|]. split_and!; [done|done|].
      cbn [acknowledged]. clear -Hin'. set_solver.
Qed.

(** A weight is at least 1, so the size bound also bounds the number of operations. *)
Lemma len_weights (rs : list (Z * Op)) : len rs <= weights rs.
Proof.
  induction rs as [|r rs IH]; [done|]. rewrite weights_cons, length_cons. pose proof (sm_weight_pos r.2). lia.
Qed.

(** C32: The engine refines the TLA+ specification. Take any history of processes that
    run the engine over the store, each started on a log that does not end inside a
    record and ending at any point of any system call, whose clients increment one
    counter and send a number only after the answer to the one before it (or send
    again). Then the specification has a behaviour, of deliveries,
    crashes and recoveries, that ends running, with the counter and the marks that
    recovery of the directory gives, with every acknowledged operation applied and with
    the counter equal to the number of operations applied. *)
Theorem engine_refines_spec rl osl d :
  Lifetimes (S := KvStore) as_nanos ∅ rl osl d → clean_starts (S := KvStore) as_nanos ∅ rl →
  Forall wf_rec (all_ops as_nanos rl) →
  4 + weights (all_ops as_nanos rl) <= U32_MAX →
  Forall counts (all_ops as_nanos rl) → clients_in_order ∅ rl osl →
  ∃ t, reaches t_init t ∧ crashed t = false ∧ acknowledged rl osl ⊆ t_applied t ∧
    ∀ i fs, ∃ e, recover i fs (calm d) = (Ok e, calm d) ∧ applied e = t_hw t ∧
      default 0 (get_int (state e) key) = t_value t ∧ t_value t = Z.of_nat (size (t_applied t)).
Proof.
  intros HL Hcl Hwf HB HF Hord.
  destruct (lifetimes_Executed (SMok := KvStore_StateMachineOk am) as_nanos _ _ _ _ _ _ HL Hcl Hwf wf_image0 HB Holds_empty)
    as (h & v & HE & HH).
  pose proof (len_weights (all_ops as_nanos rl)).
  destruct (executed_simulates image0 rl osl h v t_init ∅ HE) as (t & Hr & Hcr & [Hv Hh] & Hin); try done.
  - apply t_inv_init.
  - cbn. width_lia.
  - exists t. split; [done|]. split; [done|]. split; [clear -Hin; set_solver|]. intros i fs.
    destruct (recover_Holds _ _ i fs HH) as (e & Hrec & Him & _). exists e. split; [done|].
    pose proof (t_inv_steps _ _ _ _ Hr (t_inv_init _ _)) as [_ Hco _ _ Hli]. rewrite Hcr in Hli. rewrite <- Hli in Hco.
    rewrite <- Him in Hv, Hh. split_and!; [done..|apply Hco].
Qed.
End Refinement.

(** ** Witnesses *)

(** Two clients; a snapshot between their operations, a crash, a recovery, a duplicate. *)
Definition spec_w : TState :=
  t_deliver (1, 1) (t_recover (t_crash (t_deliver (2, 1) (t_snapshot (t_deliver (1, 1) t_init))))).

Lemma spec_safe_witness :
  TypeOK {[1; 2]} 3 spec_w ∧ ExactlyOnce spec_w ∧ NoLostAck spec_w ∧ SnapshotConsistent spec_w ∧ AckedDurable spec_w.
Proof.
  apply spec_safe; [lia|]. unfold spec_w.
  eapply rtc_l; [apply (TDeliver _ _ (1, 1)); [done|set_solver|cbn; lia|by vm_compute]|].
  eapply rtc_l; [by apply TSnapshot|].
  eapply rtc_l; [apply (TDeliver _ _ (2, 1)); [done|set_solver|cbn; lia|by vm_compute]|].
  eapply rtc_l; [by apply TCrash|]. eapply rtc_l; [by apply TRecover|].
  eapply rtc_l; [apply (TDeliver _ _ (1, 1)); [done|set_solver|cbn; lia|by vm_compute]|]. constructor.
Defined.

Section Witness.
#[local] Hint Extern 0 (StateMachine _) => exact (KvStore_StateMachine Wrapping) : typeclass_instances.

(** A process that dies before it renames the snapshot of its second operation; its
    successor is sent that operation again, then two more, and dies inside a record. *)
Definition inc_w (c s : Z) : Op := op_incr c s (bs "n") 1.
Definition spec_run1 : Run (Timestamp := Z) :=
  mkRun 2 false [Fine; Fine; Fine; Fine; Fine; Fine; Kill 0] [(1, inc_w 1 1); (2, inc_w 1 2)].
Definition spec_run2 : Run (Timestamp := Z) :=
  mkRun 5 false [Fine; Fine; Fine; Fine; Fine; Kill 6] [(3, inc_w 1 2); (4, inc_w 2 1); (5, inc_w 1 3)].
Definition spec_d1 : Dir := (run_once (S := KvStore) id ∅ spec_run1).2.
Definition spec_d2 : Dir := (run_once (S := KvStore) id spec_d1 spec_run2).2.
Definition spec_os : list (list Output) := [[OutValue (Some 1)]; [OutSuppressed; OutValue (Some 3)]].

Lemma spec_lifetimes_w : Lifetimes (S := KvStore) id ∅ [spec_run1; spec_run2] spec_os spec_d2.
Proof.
  assert (Hp : ∀ (p : list Output * Dir) os, p.1 = os → p = (os, p.2)) by by intros [] ? <-.
  apply (lf_cons _ _ spec_d1); [by apply Hp; vm_compute|].
  apply (lf_cons _ _ spec_d2); [by apply Hp; vm_compute|]. constructor.
Qed.

Lemma engine_refines_spec_witness :
  ∃ t, rtc (t_step {[1; 2]} 3) t_init t ∧ crashed t = false ∧
    acknowledged id [spec_run1; spec_run2] spec_os ⊆ t_applied t ∧
    ∀ i fs, ∃ e : Engine KvStore, recover i fs (calm spec_d2) = (Ok e, calm spec_d2) ∧ applied e = t_hw t ∧
      default 0 (get_int (state e) (bs "n")) = t_value t ∧ t_value t = Z.of_nat (size (t_applied t)).
Proof.
  apply (engine_refines_spec Wrapping id (bs "n") {[1; 2]} 3 _ _ _ spec_lifetimes_w).
  - by_decision.
  - by_decision.
  - by vm_compute.
  - repeat constructor; by_decision.
  - by_decision.
Defined.
End Witness.
