(* ===== verification/Transfer.v ===== *)
(** * Transfer: catching a lagging replica up ([Engine::export_state], [import_state])

    A recovered replica adopts the exported state of a peer. The snapshot it
    installs supersedes its own log, also when the process dies between the
    installation and the removal of the log, because the peer has already applied
    everything in that log. *)

From S2P Require Import Prelude Bytes Io State Durable Engine EngineFacts CrashSafety.
Local Open Scope Z_scope.

Section Transfer.
Context {S : Type} {SM : StateMachine S} {SMok : StateMachineOk S}.
Implicit Types (e : Engine S) (v : Image S) (d : Dir) (rs : list (Z * Op)).

(** [v] has applied everything [v'] has. *)
Definition behind v' v : Prop := ∀ c, hw (im_hw v') c <= hw (im_hw v) c.

#[export] Instance behind_preorder : PreOrder behind.
Proof. split; [intros v c; lia|]. intros v1 v2 v3 H1 H2 c. specialize (H1 c). specialize (H2 c). lia. Qed.

Lemma behind_covered v' v op : behind v' v → covered v' op = true → covered v op = true.
Proof. unfold covered. rewrite !Z.leb_le. intros H. by specialize (H (op_client op)); lia. Qed.

Lemma step_behind v r v' : step v r = Some v' → behind v v'.
Proof.
  unfold step, step_out. destruct (covered v r.2) eqn:Ec; [intros [= <-]; reflexivity|].
  destruct (sm_apply _ _) as [[s o]|]; [|done]. intros [= <-] c. cbn. rewrite hw_insert.
  case_decide as Hc; [|lia]. subst c. apply Z.leb_gt in Ec. lia.
Qed.

Lemma steps_behind rs v v' : steps v rs = Some v' → behind v v'.
Proof.
  revert v; induction rs as [|r rs IH]; intros v; cbn; [intros [= <-]; reflexivity|].
  intros (v1 & E & Hs)%bind_Some. etrans; [by eapply step_behind|by apply IH].
Qed.

Lemma Stored_imported B d d' rs e v' :
  Stored d rs [] v' → behind v' (image e) → wf_image B (image e) → B <= U32_MAX →
  installed (encode_snapshot e) d d' → ∃ rs', Stored d' rs' [] (image e).
Proof.
  intros [Hl _ Hwf Hs] Hb Hv HB [Hs' Hl'].
  assert (Hbase : base d' = image e).
  { unfold base. rewrite Hs', (load_encode_snapshot B) by done. apply image_with_image. }
  destruct Hl' as [Hl'|Hl'].
  - exists []. split; [done..|]. by rewrite Hbase.
  - exists rs. split; [by rewrite Hl', Hl|done..|]. rewrite Hbase.
    apply steps_covered. eapply Forall_impl; [by eapply steps_covers|].
    intros r. by apply behind_covered.
Qed.

Lemma import_ends B e e2 w :
  Live e2 (files w) → behind (image e2) (image e) → wf_image B (image e) → B <= U32_MAX →
  ends (import_state (export_state e)) (e2, w)
    (λ _ s, image s.1 = image e ∧ Live s.1 (files s.2))
    (λ s, Holds (files s.2) (image e2) ∨ Holds (files s.2) (image e)).
Proof.
  intros [[rs HS] Hi Ho] Hb Hv HB. unfold import_state, export_state.
  set (e3 := with_image e2 (image e)).
  eapply (ends_bind _ _ _ (λ _ s, s = (e3, w))).
  { unfold ends, on_eng, zoom, modify. cbn [fst snd].
    by rewrite (load_encode_snapshot B) by done. }
  intros _ ? ->.
  eapply (ends_bind _ _ _ (λ _ s, (∃ du, s.1 = set_dur e3 du) ∧
    ∃ rs', Stored (files s.2) rs' [] (image e))).
  - apply zoom_ends. eapply ends_impl; [| |apply write_snapshot_ends].
    + intros _ [du w'] Hin. cbn in *. split; [by eexists|]. by eapply Stored_imported.
    + intros [du w'] [Hd|Hin]; cbn in *.
      * left. exists rs, []. by eapply same_disk_Stored.
      * right. destruct (Stored_imported _ _ _ _ _ _ HS Hb Hv HB Hin) as [rs' ?]. by exists rs', [].
  - intros _ [e' w'] [[du Ee] Hrs]. cbn in Ee. subst e'.
    unfold ends, on_eng, zoom, modify. cbn [fst snd]. split; [by destruct (image e)|].
    split; cbn; [by destruct e|lia..].
Qed.
End Transfer.
