(* ===== verification/Cadence.v ===== *)
(** * Cadence: how often the engine snapshots and how much recovery replays

    When no call fails, an engine with interval [I] that has applied [n] new
    operations has cut [n / I] snapshots, its log holds the [n mod I] records
    since the last one, and recovery replays exactly those. *)

From S2P Require Import Prelude Bytes Io State Durable Engine EngineFacts CrashSafety Lifetimes.
Local Open Scope Z_scope.

Section Cadence.
Context {S : Type} {SM : StateMachine S} {SMok : StateMachineOk S}.
Context {Timestamp : Type} (as_nanos : Timestamp → Z).
Implicit Types (e : Engine S) (v : Image S) (d : Dir) (rs : list (Z * Op)).
Local Abbreviation deliver := (deliver (S:=S) as_nanos).
Local Abbreviation deliver_all := (deliver_all (S:=S) as_nanos).

(** No operation of the run is a duplicate and none panics. *)
Fixpoint fresh_from v rs : Prop :=
  match rs with
  | [] => True
  | r :: rs =>
      match step_out v r with
      | Some (v', Some _) => fresh_from v' rs
      | _ => False
      end
  end.

Lemma fresh_from_steps v rs : fresh_from v rs → is_Some (steps v rs).
Proof.
  revert v; induction rs as [|r rs IH]; intros v H; [by eexists|]. cbn in *.
  unfold step. destruct (step_out v r) as [[v' [o|]]|]; [|done..]. by apply IH.
Qed.

Lemma fresh_from_app v rs1 rs2 :
  fresh_from v (rs1 ++ rs2) ↔
    fresh_from v rs1 ∧ ∃ v1, steps v rs1 = Some v1 ∧ fresh_from v1 rs2.
Proof.
  revert v; induction rs1 as [|r rs1 IH]; intros v; cbn.
  - split; [eauto|]. by intros (_ & v1 & [= <-] & ?).
  - unfold step. destruct (step_out v r) as [[v' [o|]]|]; cbn; [apply IH|split; [done|by intros []]..].
Qed.

Lemma fresh_from_snoc v rs r :
  fresh_from v (rs ++ [r]) ↔
    fresh_from v rs ∧ ∃ v1 v2 o, steps v rs = Some v1 ∧ step_out v1 r = Some (v2, Some o).
Proof.
  revert v; induction rs as [|r' rs IH]; intros v; cbn.
  - split.
    + destruct (step_out v r) as [[v' [o|]]|] eqn:E; [|done..]. eauto 10.
    + intros (_ & v1 & v2 & o & [= <-] & ->). done.
  - unfold step. destruct (step_out v r') as [[v' [o|]]|] eqn:E; cbn; [apply IH|split; [done|by intros []]..].
Qed.

(** Replay counts what it applies. *)
Lemma replay_count l n e v :
  fresh_from (image e) (decoded l) → steps (image e) (decoded l) = Some v →
  replay l n e = (Ok (n + len (decoded l)), with_image e v).
Proof.
  revert n e; induction l as [|[ts b] l IH]; intros n e Hf Hs.
  - injection Hs as <-. cbn. by rewrite with_image_image, Z.add_0_r.
  - cbn in *. destruct (decode b) as [op|]; [|by apply IH].
    cbn in Hf, Hs. unfold step in Hs. rewrite run_bind, apply_dedup_eq.
    destruct (step_out (image e) (ts, op)) as [[v' [o|]]|]; [|done..]. cbn in Hs.
    rewrite (IH (n + 1) (with_image e v')) by by rewrite image_with_image.
    rewrite with_image_twice. do 2 f_equal. cbn. lia.
Qed.

(** ** Calls that succeed *)

Lemma append_calm du ts b d :
  ∃ d', append ts b (du, calm d) = (Ok tt, (mkDurable (fsync du) true, calm d')) ∧
    logc d' = logc d ++ record ts b ∧ snapc d' = snapc d.
Proof.
  pose proof (append_ends du ts b (calm d)) as H. unfold ends in H.
  assert (∃ d', append ts b (du, calm d) = (Ok tt, (mkDurable (fsync du) true, calm d'))) as [d' E].
  { destruct du as [[] []]; unfold append; eexists; reflexivity. }
  rewrite E in H. cbn in H. eauto.
Qed.

Lemma write_snapshot_calm du b d :
  ∃ d', write_snapshot b (du, calm d) = (Ok tt, (mkDurable (fsync du) false, calm d')) ∧
    logc d' = [] ∧ snapc d' = Some b.
Proof.
  pose proof (write_snapshot_ends du b (calm d)) as H. unfold ends in H.
  assert (∃ d', write_snapshot b (du, calm d) =
    (Ok tt, (mkDurable (fsync du) false, calm (delete LOG d')))) as [d' E].
  { destruct du as [[] lg]; unfold write_snapshot; eexists; reflexivity. }
  rewrite E in H. cbn in H. exists (delete LOG d'). split; [done|].
  destruct H as [Hs _]. split; [|done]. unfold logc. by rewrite lookup_delete_eq.
Qed.

(** [deliver] of a new operation when no call fails. *)
Lemma deliver_calm e d ts op v o :
  step_out (image e) (as_nanos ts, op) = Some (v, Some o) →
  ∃ e' d', deliver ts op (e, calm d) = (Ok o, (e', calm d')) ∧ image e' = v.
Proof.
  intros Hst. unfold deliver. rewrite run_bind. unfold on_eng at 1, zoom. cbn [fst snd].
  rewrite apply_dedup_eq, Hst. rewrite (run_bind_ok _ _ _ tt (count_applied (with_image e v), calm d)) by done.
  set (e1 := count_applied (with_image e v)).
  destruct (append_calm (dur e1) (as_nanos ts) (encode op) d) as (d1 & Ea & _).
  erewrite (run_bind_ok (on_dur _)); [|unfold on_dur, zoom; cbn [fst snd]; rewrite Ea; reflexivity].
  rewrite run_bind. cbn [on_eng zoom modify fst snd]. set (e2 := set_ops _ _).
  assert (He2 : image e2 = v) by by destruct v.
  rewrite (run_bind_ok get _ _ (e2, calm d1) (e2, calm d1)) by done. cbn [fst].
  destruct (snap_interval e2 <=? ops_since_snap e2).
  - unfold snapshot. destruct (write_snapshot_calm (dur e2) (encode_snapshot e2) d1) as (d2 & Ew & _).
    rewrite run_bind. rewrite (run_bind_ok get _ _ (e2, calm d1) (e2, calm d1)) by done. cbn [fst].
    erewrite (run_bind_ok (on_dur _)); [|unfold on_dur, zoom; cbn [fst snd]; rewrite Ew; reflexivity].
    eexists _, d2. split; [reflexivity|]. exact He2.
  - by exists e2, d1.
Qed.

(** ** The invariant *)

Record Cadence (I n : Z) e d : Prop := {
  cad_interval : snap_interval e = I;
  cad_ops : ops_since_snap e = n mod I;
  cad_snaps : st_snapshots (stats e) = n / I;
  cad_stored : ∃ rs, Stored d rs [] (image e) ∧ fresh_from (base d) rs ∧ len rs = n mod I;
}.

Lemma succ_mod_div I n :
  1 <= I → 0 <= n →
  (n mod I + 1 < I ∧ (n + 1) mod I = n mod I + 1 ∧ (n + 1) / I = n / I) ∨
  (n mod I + 1 = I ∧ (n + 1) mod I = 0 ∧ (n + 1) / I = n / I + 1).
Proof.
  intros HI Hn. pose proof (Z.mod_pos_bound n I ltac:(lia)). pose proof (Z.div_mod n I ltac:(lia)).
  destruct (decide (n mod I + 1 < I)).
  - left. split; [done|]. split; symmetry;
      [apply (Z.mod_unique _ _ (n / I))|apply (Z.div_unique _ _ _ (n mod I + 1))]; lia.
  - right. split; [lia|]. split; symmetry;
      [apply (Z.mod_unique _ _ (n / I + 1))|apply (Z.div_unique _ _ _ 0)]; lia.
Qed.

Lemma deliver_cadence B I n e d ts op v o :
  Cadence I n e d → 1 <= I → 0 <= n → wf_rec (as_nanos ts, op) →
  wf_image B (image e) → B + sm_weight op <= U32_MAX →
  step_out (image e) (as_nanos ts, op) = Some (v, Some o) →
  ∃ e' d', deliver ts op (e, calm d) = (Ok o, (e', calm d')) ∧ image e' = v ∧ Cadence I (n + 1) e' d'.
Proof.
  intros [HI Hops Hsn (rs & HS & Hf & Hrs)] HI1 Hn Hr Hv HB Hst.
  assert (Hstep : step (image e) (as_nanos ts, op) = Some v) by (unfold step; by rewrite Hst).
  pose proof (step_wf B _ _ _ Hr Hv Hstep) as Hv'. cbn [snd] in Hv'.
  unfold deliver. rewrite run_bind. unfold on_eng at 1, zoom. cbn [fst snd].
  rewrite apply_dedup_eq, Hst. rewrite (run_bind_ok _ _ _ tt (count_applied (with_image e v), calm d)) by done.
  set (e1 := count_applied (with_image e v)).
  assert (He1 : image e1 = v) by by destruct v.
  destruct (append_calm (dur e1) (as_nanos ts) (encode op) d) as (d1 & Ea & Hl1 & Hs1).
  erewrite (run_bind_ok (on_dur _)); [|unfold on_dur, zoom; cbn [fst snd]; rewrite Ea; reflexivity].
  assert (HS1 : Stored d1 (rs ++ [(as_nanos ts, op)]) [] v) by by eapply Stored_append_full.
  rewrite run_bind. cbn [on_eng zoom modify fst snd].
  set (e2 := set_ops _ _).
  assert (He2 : image e2 = v) by by destruct v.
  rewrite (run_bind_ok get _ _ (e2, calm d1) (e2, calm d1)) by done. cbn [fst].
  change (snap_interval e2) with (snap_interval e). change (ops_since_snap e2) with (ops_since_snap e + 1).
  rewrite HI, Hops.
  assert (Hf1 : fresh_from (base d1) (rs ++ [(as_nanos ts, op)])).
  { unfold base. rewrite Hs1. fold (base d). apply fresh_from_snoc. split; [done|].
    destruct HS as [_ _ _ Hs]. eauto. }
  destruct (succ_mod_div I n HI1 Hn) as [(Hlt & Em & Ed)|(Heq & Em & Ed)].
  - rewrite (proj2 (Z.leb_gt _ _)) by done.
    exists e2, d1. split; [done|]. split; [done|]. split; [done|by rewrite Em, <- Hops|by rewrite Ed, <- Hsn|].
    exists (rs ++ [(as_nanos ts, op)]). rewrite He2. split_and!; [done..|]. len_lia.
  - rewrite (proj2 (Z.leb_le _ _)) by lia. unfold snapshot.
    destruct (write_snapshot_calm (dur e2) (encode_snapshot e2) d1) as (d2 & Ew & Hl2 & Hs2).
    rewrite run_bind. rewrite (run_bind_ok get _ _ (e2, calm d1) (e2, calm d1)) by done. cbn [fst].
    erewrite (run_bind_ok (on_dur _)); [|unfold on_dur, zoom; cbn [fst snd]; rewrite Ew; reflexivity].
    eexists _, d2. split; [reflexivity|].
    assert (Hb : base d2 = v).
    { unfold base. rewrite Hs2, (load_encode_snapshot (B + sm_weight op)) by (by rewrite ?He2).
      by rewrite image_with_image. }
    split; [exact He2|]. split; cbn; [done|by rewrite Em|rewrite Ed; by rewrite <- Hsn|].
    exists []. change (image _) with (image e2) at 1. rewrite He2, Em. split; [|done].
    split; [by rewrite Hl2|done..|by rewrite Hb].
Qed.

(** A whole run of new operations on a fresh store. *)
Lemma deliver_all_cadence ops B I n e d :
  Cadence I n e d → 1 <= I → 0 <= n → Forall wf_rec (stamped as_nanos ops) →
  wf_image B (image e) → B + weights (stamped as_nanos ops) <= U32_MAX →
  fresh_from (image e) (stamped as_nanos ops) →
  ∃ os e' d', deliver_all ops (e, calm d) = (os, Ok tt, (e', calm d')) ∧
    steps (image e) (stamped as_nanos ops) = Some (image e') ∧
    Cadence I (n + len ops) e' d'.
Proof.
  revert B n e d; induction ops as [|[ts op] ops IH]; intros B n e d HC HI Hn Hwf Hv HB Hf.
  { exists [], e, d. rewrite Z.add_0_r. done. }
  change (stamped as_nanos ((ts, op) :: ops)) with ((as_nanos ts, op) :: stamped as_nanos ops) in *.
  rewrite weights_cons in HB. cbn [snd] in HB. apply Forall_cons in Hwf as [Hr Hwf].
  pose proof (weights_nonneg (stamped as_nanos ops)) as Hnn.
  cbn in Hf. destruct (step_out _ _) as [[v' [o|]]|] eqn:Es; [|done..].
  destruct (deliver_cadence B I n e d ts op v' o HC HI Hn Hr Hv ltac:(lia) Es)
    as (e1 & d1 & Ed & <- & HC1).
  assert (Hst : step (image e) (as_nanos ts, op) = Some (image e1)) by (unfold step; by rewrite Es).
  destruct (IH _ (n + 1) e1 d1 HC1 HI ltac:(lia) Hwf (step_wf _ _ _ _ Hr Hv Hst) ltac:(cbn; lia) Hf)
    as (os & e2 & d2 & E2 & Hs2 & HC2).
  exists (o :: os), e2, d2. cbn [Lifetimes.deliver_all]. rewrite Ed, E2. split; [done|].
  split; [cbn [steps]; by rewrite Hst|]. rewrite length_cons, Nat2Z.inj_succ.
  by replace (n + Z.succ (len ops)) with (n + 1 + len ops) by lia.
Qed.

Lemma create_calm i fs : create i fs (calm ∅) = (Ok (fresh (mkDurable fs false) i), calm ∅).
Proof. done. Qed.

Lemma create_cadence i fs : Cadence (Z.max i 1) 0 (fresh (mkDurable fs false) i) ∅.
Proof.
  split; try done; cbn; try by rewrite ?Z.mod_0_l, ?Z.div_0_l by lia.
  exists []. split_and!; [|done|cbn; rewrite Z.mod_0_l by lia; done]. by split.
Qed.

(** Recovery after a run replays the records since the last snapshot. *)
Lemma recover_cadence I n e d i fs :
  Cadence I n e d →
  ∃ e', recover i fs (calm d) = (Ok e', calm d) ∧ image e' = image e ∧
    st_replayed (stats e') = n mod I.
Proof.
  intros [_ _ _ (rs & HS & Hf & Hrs)]. pose proof (Stored_decoded _ _ _ _ HS) as Hd.
  destruct HS as [_ _ _ Hs].
  rewrite <- (opened_image d i fs), <- Hd in Hf, Hs.
  pose proof (replay_count (parse_log (logc d)) 0 (opened d i fs) (image e) Hf Hs) as HR.
  eexists. split; [exact (recover_calm _ _ _ _ _ HR)|].
  split; [by destruct (image e)|]. cbn. by rewrite Hd, Hrs.
Qed.
End Cadence.
