(* ===== verification/KvRecovery.v ===== *)
(** * KvRecovery: opening the key-value store in a release build

    With wrapping arithmetic no operation of the store panics, so recovery succeeds
    on whatever the files hold. *)

From S2P Require Import Prelude Bytes Text Io State Durable Engine EngineFacts CrashSafety Lifetimes Cadence.
Local Open Scope Z_scope.

Section Kv.
#[local] Hint Extern 0 (StateMachine _) => exact (KvStore_StateMachine Wrapping) : typeclass_instances.

Lemma kv_apply_total (s : KvStore) op : is_Some (kv_apply Wrapping s op).
Proof.
  unfold kv_apply. destruct (op_kind op); try by eexists. unfold i64_arith. case_bool_decide; by eexists.
Qed.

Lemma kv_step_total (v : Image KvStore) r : is_Some (step v r).
Proof.
  unfold step, step_out. destruct (covered v r.2); [by eexists|].
  destruct (kv_apply_total (im_state v) r.2) as [[s o] Hx].
  change (sm_apply (im_state v) r.2) with (kv_apply Wrapping (im_state v) r.2). rewrite Hx. by eexists.
Qed.

Lemma kv_steps_total rs (v : Image KvStore) : is_Some (steps v rs).
Proof.
  revert v; induction rs as [|r rs IH]; intros v; [by eexists|].
  cbn. destruct (kv_step_total v r) as [v' ->]. apply IH.
Qed.
End Kv.

(** ** Recovery in either build *)

Section Image.
Context (am : arith_mode).
#[local] Hint Extern 0 (StateMachine _) => exact (KvStore_StateMachine am) : typeclass_instances.

(** The image recovery builds: the snapshot's, then every record that decodes. *)
Lemma kv_recover_image d i fs (v : Image KvStore) :
  steps (base d) (decoded (parse_log (logc d))) = Some v →
  ∃ e : Engine KvStore, recover i fs (calm d) = (Ok e, calm d) ∧ image e = v ∧
    0 <= ops_since_snap e < snap_interval e.
Proof.
  intros Hv. pose proof (replay_eq (parse_log (logc d)) 0 (opened d i fs : Engine KvStore)) as HR.
  rewrite opened_image, Hv in HR. destruct HR as (n & HR & _). destruct (opened_frame (S := KvStore) d i fs) as [Hi _].
  eexists. split; [exact (recover_calm _ _ _ _ _ HR)|]. split; [by destruct v|].
  cbn. rewrite Hi. apply Z.mod_pos_bound. lia.
Qed.

Lemma kv_recover_panics d i fs :
  steps (base (S := KvStore) d) (decoded (parse_log (logc d))) = None →
  recover (S := KvStore) i fs (calm d) = (Panic, calm d).
Proof.
  intros Hv. pose proof (replay_eq (parse_log (logc d)) 0 (opened d i fs : Engine KvStore)) as HR.
  rewrite opened_image, Hv in HR. destruct HR as (e' & HR). unfold recover. erewrite run_bind_ok by done.
  rewrite (run_bind_ok read_snapshot _ _ (snapc d) (calm d)) by done.
  rewrite (run_bind_ok read_log _ _ _ _ (read_log_calm d)).
  rewrite run_bind. unfold run_local. fold (opened d i fs : Engine KvStore). by rewrite HR.
Qed.
End Image.

Section Boot.
#[local] Hint Extern 0 (StateMachine _) => exact (KvStore_StateMachine Wrapping) : typeclass_instances.

(** Opening a directory, whatever it holds. *)
Lemma kv_boot_image d i fs :
  ∃ e : Engine KvStore, boot i fs (calm d) = (Ok e, calm d) ∧
    (image e = image0 ∨ steps (base d) (decoded (parse_log (logc d))) = Some (image e)).
Proof.
  unfold boot. case_match.
  { destruct (kv_steps_total (decoded (parse_log (logc d))) (base d)) as [v Hv].
    destruct (kv_recover_image Wrapping d i fs v Hv) as (e & He & Him & _). exists e. split; [done|]. right. by rewrite Him. }
  eexists. split; [reflexivity|by left].
Qed.
End Boot.
