(* ===== verification/Typing.v ===== *)
(** * Typing: the values an engine over the key-value store can hold

    The model keeps machine integers as unbounded ones; this is where the widths of
    the Rust types are shown to hold: client ids are 32 bits wide, numbers and
    timestamps 64, keys are strings that fit their length field. Recovery
    establishes this from any bytes, every delivery preserves it. *)

From S2P Require Import Prelude Bytes Text Io State Durable Engine EngineFacts CrashSafety Lifetimes Cadence KvRecovery.
Local Open Scope Z_scope.

Record Typed (v : Image KvStore) : Prop := {
  ty_state : kv_inv (im_state v);
  ty_marks : map_Forall (λ c s, is_u32 c ∧ is_u64 s) (im_hw v);
  ty_ts : is_u64 (im_ts v);
}.

Lemma parse_log_from_u64 fuel raw : Forall (λ r, is_u64 r.1) (parse_log_from fuel raw).
Proof.
  revert raw; induction fuel as [|fuel IH]; intros raw; [constructor|]. cbn [parse_log_from].
  destruct (Nat.leb_spec 12 (length raw)); [|constructor]. case_match; constructor; [|apply IH].
  cbn [fst]. pose proof (from_le_bytes_range (take 8 raw)) as Hr. rewrite length_take_le in Hr by lia. width_lia.
Qed.

Lemma kv_inv_empty : kv_inv (mkKv ∅).
Proof. intros k v H. cbn in H. by rewrite lookup_empty in H. Qed.

Section Typing.
Context (am : arith_mode).
#[local] Hint Extern 0 (StateMachine _) => exact (KvStore_StateMachine am) : typeclass_instances.

Lemma kv_restore_typed b : kv_inv (kv_restore b).
Proof.
  unfold kv_restore. destruct (rd_u32 _) as [[n r]|]; [|apply kv_inv_empty].
  apply (for_break_inv (λ mr, kv_inv (mkKv mr.1))); [|apply kv_inv_empty].
  intros [m r0] Hm. unfold restore_entry. destruct (rd_u16 r0) as [[klen r1]|] eqn:E1; [|done].
  destruct (rd_slice klen r1) as [[kb r2]|] eqn:E2; [|done]. destruct (rd_u32 r2) as [[vlen r3]|]; [|done].
  destruct (rd_slice vlen r3) as [[vb r4]|]; [|done]. cbn [fst] in *. destruct (from_utf8 kb) as [k|] eqn:Ek; [|done].
  apply from_utf8_Some in Ek as [-> Hu]. apply kv_inv_insert; [done|]. split; [done|].
  apply rd_u16_range in E1. apply rd_slice_length in E2; width_lia.
Qed.

Lemma typed_image0 : Typed image0.
Proof. split; [apply kv_inv_empty|apply map_Forall_empty|done]. Qed.

Lemma load_snapshot_typed b (e : Engine KvStore) : Typed (image e) → Typed (image (load_snapshot b e)).
Proof.
  intros He. unfold load_snapshot. destruct (rd_u64 _) as [[ts r]|] eqn:Et; [|done].
  destruct (rd_u32 r) as [[n r1]|]; [|done].
  destruct (for_break _ n load_mark (∅, r1)) as [a r2] eqn:Ea.
  assert (Ha : map_Forall (λ c s, is_u32 c ∧ is_u64 s) a).
  { change a with (a, r2).1. rewrite <- Ea.
    apply (for_break_inv (λ ar, map_Forall (λ c s, is_u32 c ∧ is_u64 s) ar.1)); [|apply map_Forall_empty].
    intros [a0 r0] H0. unfold load_mark, try_read. destruct (rd_u32 r0) as [[c r3]|] eqn:E1.
    2: by destruct (rd_u64 r0) as [[]|].
    destruct (rd_u64 r3) as [[s r4]|] eqn:E2; [|done]. cbn [fst] in *.
    apply map_Forall_insert_2; [|done]. split; [by eapply rd_u32_range|by eapply rd_u64_range]. }
  destruct (rd_u32 r2) as [[smlen r3]|]; [|done]. destruct (rd_slice smlen r3) as [[sm r4]|]; [|done].
  split; cbn; [apply kv_restore_typed|done|by eapply rd_u64_range].
Qed.

Lemma step_typed v r v' : Typed v → is_u64 r.1 → wf_op r.2 → step v r = Some v' → Typed v'.
Proof.
  intros [Hs Hm Ht] Hts Hop. unfold step, step_out. destruct (covered v r.2); [by intros [= <-]|].
  change (sm_apply (im_state v) r.2) with (kv_apply am (im_state v) r.2).
  destruct (kv_apply am (im_state v) r.2) as [[s o]|] eqn:E; [|done]. intros [= <-].
  split; cbn; [by eapply kv_inv_apply| |by case_match].
  apply map_Forall_insert_2; [|done]. split; apply Hop.
Qed.

Lemma steps_typed rs v v' :
  Typed v → Forall (λ r, is_u64 r.1 ∧ wf_op r.2) rs → steps v rs = Some v' → Typed v'.
Proof.
  intros Hv HF; revert v Hv; induction HF as [|r rs [Hts Hop] _ IH]; intros v Hv; [by intros [= <-]|].
  cbn. destruct (step v r) as [v1|] eqn:E; [|done]. apply IH. by eapply step_typed.
Qed.

Lemma decoded_typed l : Forall (λ r, is_u64 r.1) l → Forall (λ r, is_u64 r.1 ∧ wf_op r.2) (decoded l).
Proof.
  induction 1 as [|[ts b] l Hts _ IH]; [constructor|]. cbn. destruct (decode b) as [op|] eqn:E; [|done].
  constructor; [|done]. split; [done|by eapply decode_wf].
Qed.

(** ** Deliveries *)

Lemma image_on_dur {A} (m : M (Durable * World) A) (s : Engine KvStore * World) :
  image (on_dur m s).2.1 = image s.1.
Proof. unfold on_dur, zoom. destruct (m _) as [r [du w]]. by destruct r. Qed.

(** A computation that changes only counters and files. *)
Definition keeps_image {A} (m : M (Engine KvStore * World) A) : Prop := ∀ s, image (m s).2.1 = image s.1.

Lemma keeps_bind {A B} (m : M (Engine KvStore * World) A) (k : A → M (Engine KvStore * World) B) :
  keeps_image m → (∀ a, keeps_image (k a)) → keeps_image (m ≫= k).
Proof.
  intros Hm Hk s. rewrite run_bind. specialize (Hm s). destruct (m s) as [[a| | |] s1]; cbn in *; [|done..].
  by rewrite Hk.
Qed.

Lemma keeps_modify (f : Engine KvStore → Engine KvStore) :
  (∀ e, image (f e) = image e) → keeps_image (on_eng (modify f)).
Proof. intros Hf s. apply Hf. Qed.

Lemma keeps_snapshot : keeps_image snapshot.
Proof.
  unfold snapshot. apply keeps_bind; [by intros s|]. intros s.
  apply keeps_bind; [intros s'; apply image_on_dur|]. intros _. by apply keeps_modify.
Qed.

Lemma deliver_typed {Timestamp} (as_nanos : Timestamp → Z) ts op e w :
  Typed (image e) → is_u64 (as_nanos ts) → wf_op op →
  Typed (image (deliver as_nanos ts op (e, w)).2.1).
Proof.
  intros He Hts Hop. unfold deliver. rewrite run_bind. unfold on_eng at 1, zoom at 1. cbn [fst].
  rewrite apply_dedup_eq. destruct (step_out (image e) (as_nanos ts, op)) as [[v o]|] eqn:E; [|done].
  assert (Hv : Typed v).
  { eapply (step_typed (image e) (as_nanos ts, op)); [done..|]. unfold step. by rewrite E. }
  cbn [fst snd]. rewrite <- (image_with_image e v) in Hv. revert Hv. generalize (with_image e v) as e1. intros e1 Hv.
  set (k := match o with Some out => _ | None => _ end).
  assert (Hk : keeps_image k); [|by rewrite Hk].
  destruct o; apply keeps_bind; try (by apply keeps_modify); intros _; [|by intros s].
  apply keeps_bind; [intros s; apply image_on_dur|]. intros _.
  apply keeps_bind; [by apply keeps_modify|]. intros _.
  apply keeps_bind; [by intros s|]. intros s. apply keeps_bind; [|by intros _ s'].
  case_match; [apply keeps_snapshot|by intros s'].
Qed.
End Typing.

(** ** Opening a store *)

Section Opening.
#[local] Hint Extern 0 (StateMachine _) => exact (KvStore_StateMachine Wrapping) : typeclass_instances.

Lemma recovered_typed d v :
  steps (base d) (decoded (parse_log (logc d))) = Some v → Typed v.
Proof.
  apply (steps_typed Wrapping); [|apply decoded_typed, parse_log_from_u64].
  unfold base. destruct (snapc d) as [b|]; [apply (load_snapshot_typed Wrapping)|]; apply (typed_image0 Wrapping).
Qed.

Lemma kv_boot_typed d i fs :
  ∃ e : Engine KvStore, boot i fs (calm d) = (Ok e, calm d) ∧ Typed (image e).
Proof.
  destruct (kv_boot_image d i fs) as (e & E & [Hi|Hs]); exists e; split; try done.
  - rewrite Hi. apply (typed_image0 Wrapping).
  - by eapply recovered_typed.
Qed.

(** The highest client id is one the type has. *)
Lemma max_client_u32 (e : Engine KvStore) : Typed (image e) → is_u32 (max_client e).
Proof.
  intros [_ Hm _]. unfold max_client.
  assert (HF : Forall is_u32 (btree_iter (applied e)).*1).
  { apply Forall_forall. intros c ([c' s] & -> & Hc)%list_elem_of_fmap.
    apply elem_of_btree_iter in Hc. by apply (Hm c' s). }
  destruct (btree_iter (applied e)).*1 as [|c cs]; [done|].
  apply Forall_cons in HF as [Hc HF]. revert c Hc. induction HF as [|x l Hx _ IH]; intros c Hc; cbn; [done|].
  apply IH. width_lia.
Qed.
End Opening.
