(* ===== verification/Workload.v ===== *)
(** * Workload: the deterministic INCR workload of the cluster and the benches
    ([crates/onebarrier/src/cluster.rs], [client_ops] and [expected_state])

    Every client increments keys round-robin, numbering its operations from 1.
    Whatever total order the fabric gives these operations, the store ends with
    each key at the number of increments it received. *)

From S2P Require Import Prelude Bytes Text State Engine EngineFacts Cadence.
Local Open Scope Z_scope.

(** [format!("k{}", n)] *)
Definition key_name (n : Z) : bytes := bs "k" ++ to_string n.

(** The operations of client [c]; [keys] is not zero ([i % keys] would panic). *)
Definition client_ops (c ops keys : Z) : list Op :=
  map (λ i, op_incr c (i + 1) (key_name (i mod keys)) 1) (seqZ 0 ops).

(** [(0..ops).filter(|i| i % keys == k).count()] *)
Definition count_on (ops keys k : Z) : Z := len (filter (λ i, i mod keys = k) (seqZ 0 ops)).

(** [Vec<(String, i64)>::sort]: tuples in lexicographic order. *)
Definition pair_le (x y : bytes * Z) : Prop :=
  bytes_le x.1 y.1 ∧ (x.1 = y.1 → x.2 <= y.2).
#[export] Instance pair_le_dec : RelDecision pair_le.
Proof. intros x y. unfold pair_le. apply _. Defined.

Definition expected_state (clients ops keys : Z) : list (bytes * Z) :=
  merge_sort pair_le
    (map (λ k, (key_name k, fold_left (λ sum _, sum + count_on ops keys k) (seqZ 0 clients) 0))
       (seqZ 0 keys)).

(** ** Increments numbered per client *)

Definition op_key (op : Op) : bytes :=
  match op_kind op with KSet k _ | KIncr k _ | KDel k | KGet k => k | KTxn _ => [] end.

Definition by_client (c : Z) (l : list Op) : list Op := filter (λ op, op_client op = c) l.
Definition on_key (k : bytes) (l : list Op) : Z := len (filter (λ op, op_key op = k) l).

(** A total order of increments by one, each client's in its own order. *)
Inductive Workload : list Op → Prop :=
  | wl_nil : Workload []
  | wl_snoc l c k : Workload l → Workload (l ++ [op_incr c (len (by_client c l) + 1) k 1]).

Lemma by_client_snoc c l op :
  by_client c (l ++ [op]) = by_client c l ++ (if decide (op_client op = c) then [op] else []).
Proof. unfold by_client. rewrite filter_app, filter_cons, filter_nil. by case_decide. Qed.

Lemma on_key_snoc k l op :
  on_key k (l ++ [op]) = on_key k l + (if decide (op_key op = k) then 1 else 0).
Proof.
  unfold on_key. rewrite filter_app, filter_cons, filter_nil.
  case_decide; rewrite length_app; cbn; lia.
Qed.

Lemma on_key_bound k l : 0 <= on_key k l <= len l.
Proof. unfold on_key. pose proof (length_filter (λ op, op_key op = k) l). lia. Qed.

(** ** Running a workload *)

Section Run.
Context (am : arith_mode).
#[local] Hint Extern 0 (StateMachine _) => exact (KvStore_StateMachine am) : typeclass_instances.
Implicit Types (v : Image KvStore) (l : list Op) (rs : list (Z * Op)).

(** What the store holds after the increments [l]. *)
Definition tallies l v : Prop :=
  (∀ c, hw (im_hw v) c = len (by_client c l)) ∧
  (∀ k, kv_map (im_state v) !! k = if decide (on_key k l = 0) then None else Some (to_string (on_key k l))).

Lemma tallies_get_int l v k :
  tallies l v → len l <= I64_MAX → default 0 (get_int (im_state v) k) = on_key k l.
Proof.
  intros [_ H] Hl. unfold get_int. rewrite H. pose proof (on_key_bound k l).
  case_decide as Hz; cbn; [lia|]. rewrite parse_trimmed_to_string; [done|width_lia].
Qed.

Lemma workload_steps rs :
  Workload rs.*2 → len rs <= I64_MAX →
  fresh_from image0 rs ∧
  ∃ v, steps image0 rs = Some v ∧ tallies rs.*2 v.
Proof.
  induction rs as [|r rs IH] using rev_ind; intros HW Hl.
  - split; [done|]. exists image0. split; [done|]. split; [done|]. intros k. done.
  - rewrite fmap_app in HW. rewrite length_app in Hl. cbn in Hl.
    inversion HW as [E|l c k HW' E]; [by destruct (rs.*2)|].
    apply app_inj_tail in E as [-> Er].
    destruct (IH HW' ltac:(lia)) as (Hf & v & Hs & HT).
    assert (Hr : ∃ v' o, step_out v r = Some (v', Some o) ∧
                  tallies ((rs ++ [r]).*2) v').
    { unfold step_out, covered. rewrite <- Er. cbn [op_client op_seq op_incr].
      pose proof HT as [Hhw Hkv]. rewrite Hhw. rewrite (proj2 (Z.leb_gt _ _)) by lia.
      assert (length rs.*2 = length rs) as Hlr by apply length_fmap.
      pose proof (on_key_bound k rs.*2).
      change (sm_apply (im_state v)) with (kv_apply am (im_state v)).
      unfold kv_apply. cbn [op_kind op_incr]. rewrite (tallies_get_int rs.*2) by (done || lia).
      rewrite i64_arith_exact by width_lia. cbn.
      eexists _, _. split; [reflexivity|]. rewrite fmap_app. cbn [fmap list_fmap]. rewrite <- Er.
      split; cbn.
      - intros c'. rewrite hw_insert, by_client_snoc. cbn. case_decide as Hc.
        + subst. rewrite length_app. cbn. lia.
        + rewrite app_nil_r. apply Hhw.
      - intros k'. rewrite on_key_snoc. cbn. rewrite lookup_insert. pose proof (on_key_bound k' rs.*2).
        case_decide as Hk.
        + subst k'. rewrite decide_False by lia. done.
        + rewrite Hkv, Z.add_0_r. done. }
    destruct Hr as (v' & o & Hst & HT'). split.
    + apply fresh_from_snoc. eauto 10.
    + exists v'. split; [|done]. rewrite steps_snoc, Hs. cbn. unfold step. by rewrite Hst.
Qed.
End Run.

(** ** Sorted pairs *)

#[export] Instance pair_le_trans : Transitive pair_le.
Proof.
  intros [k1 z1] [k2 z2] [k3 z3] [H1 E1] [H2 E2]. cbn in *.
  split; cbn; [by eapply bytes_le_trans|]. intros <-.
  assert (k1 = k2) as <- by by apply bytes_le_antisymm. specialize (E1 eq_refl). specialize (E2 eq_refl). lia.
Qed.
#[export] Instance pair_le_total : Total pair_le.
Proof.
  intros [k1 z1] [k2 z2]. destruct (decide (k1 = k2)) as [<-|Hne].
  - assert (bytes_le k1 k1) by (destruct (bytes_le_total k1 k1); done).
    destruct (Z.le_ge_cases z1 z2); [left|right]; by split.
  - destruct (bytes_le_total k1 k2); [left|right]; by split; cbn; [|intros ?; subst].
Qed.
#[export] Instance pair_le_antisymm : AntiSymm (=) pair_le.
Proof.
  intros [k1 z1] [k2 z2] [H1 E1] [H2 E2]. cbn in *.
  assert (k1 = k2) as <- by by apply bytes_le_antisymm.
  specialize (E1 eq_refl). specialize (E2 eq_refl). f_equal. lia.
Qed.

(** Keys in order and all different put the pairs in order. *)
Lemma sorted_pairs (l : list (bytes * Z)) :
  StronglySorted (λ x y, bytes_le x.1 y.1) l → NoDup l.*1 → StronglySorted pair_le l.
Proof.
  induction 1 as [|x l HS IH Hx]; intros Hnd; constructor; cbn in Hnd;
    apply NoDup_cons in Hnd as [Hn Hnd]; [by apply IH|].
  eapply Forall_impl; [apply Forall_and; split; [exact Hx|]|].
  - apply Forall_forall. intros y Hy. exact Hy.
  - intros y [Hle Hy]. split; [done|]. intros E. exfalso. apply Hn. rewrite E.
    apply list_elem_of_fmap. eauto.
Qed.

Lemma entries_keys s : (entries s).*1 `sublist_of` (btree_iter (kv_map s)).*1.
Proof.
  unfold entries. induction (btree_iter (kv_map s)) as [|[k b] l IH]; cbn; [done|].
  destruct (parse_trimmed b); cbn; [by apply sublist_skip|by apply sublist_cons].
Qed.

Lemma entries_NoDup s : NoDup (entries s).*1.
Proof. eapply sublist_NoDup; [exact (btree_iter_NoDup (kv_map s))|apply entries_keys]. Qed.

Lemma elem_of_entries s k z :
  (k, z) ∈ entries s ↔ ∃ b, kv_map s !! k = Some b ∧ parse_trimmed b = Some z.
Proof.
  unfold entries. rewrite list_elem_of_omap. split.
  - intros ([k' b] & Hin%elem_of_btree_iter & (z' & Hp & [= <- <-])%fmap_Some). eauto.
  - intros (b & Hb & Hp). exists (k, b). split; [by apply elem_of_btree_iter|]. cbn. by rewrite Hp.
Qed.

Lemma StronglySorted_sublist_fst (l1 : list (bytes * Z)) (l2 : list (bytes * bytes)) :
  l1.*1 `sublist_of` l2.*1 → StronglySorted entry_le l2 →
  StronglySorted (λ x y, bytes_le x.1 y.1) l1.
Proof.
  intros Hsub H2.
  assert (H3 : StronglySorted bytes_le l2.*1).
  { clear Hsub. induction H2 as [|x l HS IH Hx]; cbn; [constructor|]. constructor; [done|]. by apply Forall_fmap. }
  clear H2. remember l2.*1 as ks eqn:E. clear E l2. revert ks Hsub H3.
  induction l1 as [|x l1 IH]; intros ks Hsub H3; [constructor|]. cbn in Hsub.
  apply sublist_cons_l in Hsub as (ks1 & ks2 & -> & Hsub).
  assert (StronglySorted bytes_le (x.1 :: ks2)) as H4.
  { clear -H3. induction ks1; [done|]. cbn in H3. apply StronglySorted_inv in H3 as [? _]. auto. }
  apply StronglySorted_inv in H4 as [HS HF]. constructor; [by eapply IH|].
  apply Forall_forall. intros y Hy. rewrite Forall_forall in HF. apply HF.
  eapply elem_of_sublist; [|exact Hsub]. apply list_elem_of_fmap. eauto.
Qed.

Lemma entries_sorted s : StronglySorted pair_le (entries s).
Proof.
  apply sorted_pairs; [|apply entries_NoDup].
  eapply StronglySorted_sublist_fst; [apply entries_keys|apply btree_iter_sorted].
Qed.

(** A store's entries are determined by membership. *)
Lemma entries_unique s l :
  StronglySorted pair_le l → NoDup l → (∀ x, x ∈ l ↔ x ∈ entries s) → entries s = l.
Proof.
  intros Hs Hnd Hin. eapply (StronglySorted_unique pair_le); [apply entries_sorted|done|].
  apply NoDup_Permutation; [|done|by intros x; symmetry].
  eapply NoDup_fmap_1, entries_NoDup.
Qed.

(** ** Interleavings of the clients' operations *)

Lemma length_filter_map {A B} (f : A → B) (P : B → Prop) `{∀ x, Decision (P x)} (l : list A) :
  length (filter P (map f l)) = length (filter (λ x, P (f x)) l).
Proof.
  induction l as [|x l IH]; [done|]. cbn [map]. rewrite !filter_cons.
  case_decide; cbn [length]; by rewrite IH.
Qed.

Lemma sumZ_ext {A} (f g : A → Z) l : (∀ x, x ∈ l → f x = g x) → sumZ f l = sumZ g l.
Proof.
  induction l as [|x l IH]; intros H; [done|]. cbn. rewrite H by constructor.
  f_equal. apply IH. intros y Hy. apply H. by constructor.
Qed.
Lemma sumZ_const {A} (z : Z) (l : list A) : sumZ (λ _, z) l = len l * z.
Proof. induction l as [|x l IH]; [done|]. cbn [sumZ]. rewrite IH, length_cons, Nat2Z.inj_succ, Z.mul_succ_l. lia. Qed.

Lemma fold_sum (z : Z) (l : list Z) a : fold_left (λ sum _, sum + z) l a = a + len l * z.
Proof. revert a; induction l as [|x l IH]; intros a; cbn [fold_left]; [cbn; lia|]. rewrite IH, length_cons, Nat2Z.inj_succ, Z.mul_succ_l. lia. Qed.

Section Interleavings.
Context (ops keys : Z).
Implicit Types (l : list Op) (cs : list Z).

(** A prefix of a total order: of each client, its first operations in order. *)
Definition partial_order l : Prop := ∀ c, by_client c l `prefix_of` client_ops c ops keys.

(** A total order of all the operations of the clients [cs]. *)
Definition total_order cs l : Prop :=
  (∀ c, c ∈ cs → by_client c l = client_ops c ops keys) ∧
  Forall (λ op, op_client op ∈ cs) l.

Lemma client_ops_lookup c n op :
  client_ops c ops keys !! n = Some op →
  op = op_incr c (Z.of_nat n + 1) (key_name (Z.of_nat n mod keys)) 1 ∧ Z.of_nat n < ops.
Proof.
  unfold client_ops. rewrite list_lookup_fmap. intros (i & Hi & ->)%fmap_Some.
  apply lookup_seqZ in Hi as [-> ?]. done.
Qed.

Lemma partial_order_workload l : partial_order l → Workload l.
Proof.
  induction l as [|op l IH] using rev_ind; intros HP; [constructor|].
  pose proof (HP (op_client op)) as [k Hk]. rewrite by_client_snoc, decide_True in Hk by done.
  assert (client_ops (op_client op) ops keys !! length (by_client (op_client op) l) = Some op) as Hop.
  { rewrite Hk, <- app_assoc, lookup_app_r by lia. by rewrite Nat.sub_diag. }
  apply client_ops_lookup in Hop as [Hop _]. rewrite Hop. cbn [op_client op_incr].
  set (c := op_client op) in *. apply wl_snoc. apply IH. intros c'.
  pose proof (HP c') as HP'. rewrite by_client_snoc in HP'. etrans; [|exact HP']. by apply prefix_app_r.
Qed.

Lemma partial_order_app l1 l2 : partial_order (l1 ++ l2) → partial_order l1.
Proof.
  intros HP c. etrans; [|apply (HP c)]. unfold by_client. rewrite filter_app. by apply prefix_app_r.
Qed.

Lemma by_client_absent c l : Forall (λ op, op_client op ≠ c) l → by_client c l = [].
Proof.
  unfold by_client. induction 1 as [|op l Hop _ IH]; [done|]. rewrite filter_cons. by rewrite decide_False.
Qed.

Lemma by_client_all c l : Forall (λ op, op_client op = c) l → by_client c l = l.
Proof.
  unfold by_client. induction 1 as [|op l Hop _ IH]; [done|].
  rewrite filter_cons, decide_True by done. by f_equal.
Qed.

Lemma total_order_partial cs l : total_order cs l → partial_order l.
Proof.
  intros [Heq Hall] c. destruct (decide (c ∈ cs)) as [Hc|Hc]; [by rewrite Heq|].
  rewrite by_client_absent; [apply prefix_nil|]. eapply Forall_impl; [exact Hall|].
  intros op Hop E. apply Hc. by rewrite <- E.
Qed.

(** The operations, grouped by client. *)
Lemma group_by_client cs l :
  NoDup cs → Forall (λ op, op_client op ∈ cs) l → l ≡ₚ concat (map (λ c, by_client c l) cs).
Proof.
  revert l; induction cs as [|c cs IH]; intros l Hnd Hall.
  - destruct l as [|op l]; [done|]. apply Forall_cons in Hall as [H _]. by apply elem_of_nil in H.
  - apply NoDup_cons in Hnd as [Hc Hnd]. cbn [map concat].
    set (rest := filter (λ op, op_client op ≠ c) l).
    assert (Hp : by_client c l ++ rest ≡ₚ l) by apply filter_app_complement.
    rewrite <- Hp at 1. apply Permutation_app_head. rewrite (IH rest Hnd).
    + erewrite map_ext_in; [reflexivity|]. intros c' Hin. cbn.
      unfold by_client, rest. rewrite list_filter_filter. apply list_filter_iff. intros op.
      split; [by intros []|]. intros <-. split; [done|]. intros E. apply Hc. rewrite <- E. by apply list_elem_of_In.
    + unfold rest. apply Forall_forall. intros op [Hne Hin]%list_elem_of_filter.
      rewrite Forall_forall in Hall. specialize (Hall op Hin). by apply elem_of_cons in Hall as [?|?].
Qed.

Lemma on_key_perm k l1 l2 : l1 ≡ₚ l2 → on_key k l1 = on_key k l2.
Proof. intros H. unfold on_key. by rewrite H. Qed.

Lemma on_key_app k l1 l2 : on_key k (l1 ++ l2) = on_key k l1 + on_key k l2.
Proof. unfold on_key. rewrite filter_app, length_app. lia. Qed.

Lemma key_name_inj j k : 0 <= j <= I64_MAX → 0 <= k <= I64_MAX → key_name j = key_name k → j = k.
Proof. intros Hj Hk H. apply (inj (app (bs "k"))) in H. apply to_string_inj in H; width_lia. Qed.

Hypothesis (Hkeys : 1 <= keys <= I64_MAX).

Lemma on_key_client_ops c k :
  0 <= k < keys → on_key (key_name k) (client_ops c ops keys) = count_on ops keys k.
Proof.
  intros Hk. unfold on_key, client_ops, count_on. rewrite length_filter_map.
  do 2 f_equal. apply list_filter_iff. intros i. cbn.
  pose proof (Z.mod_pos_bound i keys ltac:(lia)). split; [|by intros <-].
  intros Hn%key_name_inj; lia.
Qed.

Lemma on_key_client_other c key :
  on_key key (client_ops c ops keys) ≠ 0 → ∃ k, 0 <= k < keys ∧ key = key_name k.
Proof.
  unfold on_key. destruct (filter _ _) as [|op l] eqn:E; [done|]. intros _.
  assert (op ∈ filter (λ op, op_key op = key) (client_ops c ops keys)) as [<- Hin]%list_elem_of_filter
    by (rewrite E; constructor).
  unfold client_ops in Hin. apply list_elem_of_fmap in Hin as (i & -> & _). cbn.
  exists (i mod keys). split; [apply Z.mod_pos_bound; lia|done].
Qed.

(** A key's increments over a whole run. *)
Lemma on_key_total cs l key :
  NoDup cs → total_order cs l → on_key key l = sumZ (λ c, on_key key (client_ops c ops keys)) cs.
Proof.
  intros Hnd [Heq Hall]. rewrite (on_key_perm _ _ _ (group_by_client cs l Hnd Hall)).
  clear Hall Hnd. induction cs as [|c cs IH]; [done|]. cbn. rewrite on_key_app, Heq by constructor.
  rewrite IH; [done|]. intros c' Hc'. apply Heq. by constructor.
Qed.

Lemma on_key_partial l key : partial_order l → on_key key l ≠ 0 → ∃ k, 0 <= k < keys ∧ key = key_name k.
Proof.
  intros HP. unfold on_key. destruct (filter _ _) as [|op l'] eqn:E; [done|]. intros _.
  assert (op ∈ filter (λ op, op_key op = key) l) as [<- Hin]%list_elem_of_filter
    by (rewrite E; constructor).
  assert (op ∈ by_client (op_client op) l) as Hb by (by apply list_elem_of_filter).
  apply (elem_of_prefix _ _ _ Hb) in HP as Hc. unfold client_ops in Hc.
  apply list_elem_of_fmap in Hc as (i & E' & _). exists (i mod keys).
  split; [apply Z.mod_pos_bound; lia|]. by rewrite E'.
Qed.

(** Enough operations touch every key. *)
Lemma count_on_pos k : keys <= ops → 0 <= k < keys → 1 <= count_on ops keys k.
Proof.
  intros Ho Hk. unfold count_on. destruct (filter _ _) eqn:E; [|cbn; lia].
  assert (k ∈ filter (λ i, i mod keys = k) (seqZ 0 ops)) as H.
  { apply list_elem_of_filter. split; [apply Z.mod_small; lia|]. apply elem_of_seqZ. lia. }
  rewrite E in H. by apply elem_of_nil in H.
Qed.

Lemma expected_NoDup (f : Z → Z) : NoDup (map (λ k, (key_name k, f k)) (seqZ 0 keys)).*1.
Proof.
  rewrite <- list_fmap_compose. apply NoDup_fmap_2_strong; [|apply NoDup_seqZ].
  intros x y Hx%elem_of_seqZ Hy%elem_of_seqZ. cbn. apply key_name_inj; lia.
Qed.

Lemma expected_total cs l k :
  NoDup cs → total_order cs l → 0 <= k < keys →
  on_key (key_name k) l = len cs * count_on ops keys k.
Proof.
  intros Hnd HT Hk. rewrite (on_key_total cs) by done. rewrite <- sumZ_const. apply sumZ_ext.
  intros c _. by apply on_key_client_ops.
Qed.

Lemma elem_of_expected clients key z :
  0 <= clients →
  (key, z) ∈ expected_state clients ops keys ↔
    ∃ k, 0 <= k < keys ∧ key = key_name k ∧ z = clients * count_on ops keys k.
Proof.
  intros Hc. unfold expected_state. rewrite merge_sort_Permutation, list_elem_of_fmap. split.
  - intros (k & [= -> ->] & Hk%elem_of_seqZ). exists k. rewrite fold_sum, length_seqZ, Z2Nat.id by lia. split_and!; lia || done.
  - intros (k & Hk & -> & ->). exists k. rewrite fold_sum, length_seqZ, elem_of_seqZ, Z2Nat.id by lia. split; [f_equal; lia|lia].
Qed.

(** The keys that are incremented at all: the expected state without the keys whose sum
    is 0. *)
Definition touched_state (clients : Z) : list (bytes * Z) :=
  filter (λ kv, kv.2 ≠ 0) (expected_state clients ops keys).

Lemma count_on_last : 0 <= ops < keys → count_on ops keys (keys - 1) = 0.
Proof.
  intros Ho. unfold count_on. destruct (filter _ _) as [|i l] eqn:E; [done|].
  assert (Hi : i ∈ filter (λ i, i mod keys = keys - 1) (seqZ 0 ops)) by (rewrite E; constructor).
  apply list_elem_of_filter in Hi as [Hm Hi%elem_of_seqZ]. rewrite Z.mod_small in Hm; lia.
Qed.

(** Every key is touched exactly when a client has at least as many operations as there
    are keys. *)
Lemma touched_expected clients :
  1 <= clients → 0 <= ops → touched_state clients = expected_state clients ops keys ↔ keys <= ops.
Proof.
  intros Hc Ho. unfold touched_state. split.
  - intros E. destruct (decide (keys <= ops)) as [|Hk]; [done|]. exfalso.
    assert (Hin : (key_name (keys - 1), 0) ∈ expected_state clients ops keys).
    { apply elem_of_expected; [lia|]. exists (keys - 1). rewrite count_on_last by lia. split_and!; lia || done. }
    rewrite <- E in Hin. apply list_elem_of_filter in Hin as [Hz _]. by apply Hz.
  - intros Hk.
    assert (HF : Forall (λ kv, kv.2 ≠ 0) (expected_state clients ops keys)).
    { apply Forall_forall. intros [key z] (k & Hk' & -> & ->)%elem_of_expected; [|lia]. cbn.
      pose proof (count_on_pos k Hk ltac:(lia)). nia. }
    induction HF as [|kv l Hkv _ IH]; [done|]. rewrite filter_cons, decide_True by done. by f_equal.
Qed.

(** The store after all the operations of [cs] holds the keys they touch. *)
Lemma tallies_expected cs l v :
  NoDup cs → total_order cs l → tallies l v → len l <= I64_MAX →
  entries (im_state v) = touched_state (len cs).
Proof.
  intros Hnd HT [_ Hkv] Hl. pose proof (total_order_partial _ _ HT) as HP.
  assert (Hsum : ∀ k, 0 <= k < keys → on_key (key_name k) l = len cs * count_on ops keys k)
    by (intros; by apply expected_total).
  apply entries_unique.
  - apply StronglySorted_filter, StronglySorted_merge_sort; apply _.
  - unfold touched_state, expected_state. rewrite merge_sort_Permutation. eapply NoDup_filter, NoDup_fmap_1, expected_NoDup.
  - intros [key z]. unfold touched_state. rewrite list_elem_of_filter, elem_of_expected, elem_of_entries by lia. cbn [snd].
    pose proof (on_key_bound key l) as Hb. rewrite Hkv. split.
    + intros (Hz & k & Hk & -> & ->). rewrite Hsum in Hb |- * by done. rewrite decide_False by done.
      eexists; split; [done|]. by rewrite parse_trimmed_to_string by width_lia.
    + intros (b & Hb' & Hz). case_decide as Hn; [done|]. injection Hb' as <-.
      rewrite parse_trimmed_to_string in Hz by width_lia. injection Hz as <-. split; [done|].
      destruct (on_key_partial l key HP Hn) as (k & Hk & ->). exists k. by rewrite Hsum.
Qed.

End Interleavings.
