(* ===== verification/Cluster.v ===== *)
(** * Cluster: replicas applying the fabric's total order
    ([crates/onebarrier/src/cluster.rs], and the sweep of [bench.rs])

    Each replica polls the fabric, decodes what it delivers and hands it to its
    engine; a poll that the model gives a replica is the batch [ReliableHost::poll]
    returned and whether the run's timeout had elapsed when it was checked. Replicas
    share no state (each has its own directory): the shared flag [done] is only
    read by a replica that has just set it, so the exit condition of a replica
    depends on its own count. *)

From S2P Require Import Prelude Bytes Text Io State Durable Engine EngineFacts CrashSafety Lifetimes Transfer Cadence Workload.
Local Open Scope Z_scope.

Section Replica.
Context (am : arith_mode) {Timestamp : Type} (as_nanos : Timestamp → Z) (from_nanos : Z → Timestamp).
#[local] Hint Extern 0 (StateMachine _) => exact (KvStore_StateMachine am) : typeclass_instances.

Abbreviation Delivery := (Timestamp * bytes)%type.
Record Poll := mkPoll { batch : list Delivery; elapsed : bool }.
Abbreviation EW := (Engine KvStore * World)%type.

(** Run a method on an engine the function owns. *)
Definition with_engine {A} (e : Engine KvStore) (m : M EW A) : M World (A * Engine KvStore) := λ w,
  match m (e, w) with
  | (Ok a, (e', w')) => (Ok (a, e'), w')
  | (Err k, (_, w')) => (Err k, w')
  | (Panic, (_, w')) => (Panic, w')
  | (Killed, (_, w')) => (Killed, w')
  end.

Definition on_delivery (d : Delivery) (applied : Z) : M EW Z :=
  match decode d.2 with
  | Some op =>
      out ← deliver as_nanos d.1 op;
      mret (if decide (out = OutSuppressed) then applied else applied + 1)
  | None => mret applied
  end.

Fixpoint on_batch (ds : list Delivery) (applied : Z) : M EW Z :=
  match ds with
  | [] => mret applied
  | d :: ds => applied ← on_delivery d applied; on_batch ds applied
  end.

(** The replica's loop; [false] when the polls run out before it ends. *)
Fixpoint replica_loop (total : Z) (drain : list Delivery) (polls : list Poll) (applied : Z) : M EW bool :=
  match polls with
  | [] => mret false
  | p :: polls =>
      applied ← on_batch (batch p) applied;
      if (total <=? applied) || elapsed p then
        _ ← on_batch drain applied; mret true
      else replica_loop total drain polls applied
  end.

Definition run_replica (total interval : Z) (polls : list Poll) (drain : list Delivery)
    : M World (option (list (bytes * Z))) :=
  e ← create interval false;
  '(ended, e) ← with_engine e (replica_loop total drain polls 0);
  mret (if ended : bool then Some (entries (state e)) else None).

(** A client's thread: what it hands to [host.send], in order, before it waits for the
    replicas; [done] is what it reads of the shared flag after each poll, with whether
    the timeout had elapsed, and the result says whether it ended. *)
Definition client_thread (me replicas ops keys : Z) (waits : list (bool * bool)) : list (list Z * bytes) * bool :=
  (map (λ op, (seqZ 0 replicas, encode op)) (client_ops me ops keys), existsb (λ w, w.1 || w.2) waits).

(** ** The report *)

Record ClusterReport := mkReport {
  replica_states : list (list (bytes * Z));
  expected : list (bytes * Z);
  converged : bool;
  correct : bool;
  timed_out : bool;
}.

(** [states.windows(2).all(|w| w[0] == w[1])] *)
Fixpoint windows_equal (l : list (list (bytes * Z))) : bool :=
  match l with
  | x :: (y :: _) as l' => bool_decide (x = y) && windows_equal l'
  | _ => true
  end.

Definition cluster_report (clients ops keys : Z) (states : list (list (bytes * Z))) : ClusterReport :=
  let exp := expected_state clients ops keys in
  let ok := forallb (λ s, bool_decide (s = exp)) states in
  mkReport states exp (windows_equal states && negb (bool_decide (states = []))) ok (negb ok).

(** The configuration; the host's parameters are the fabric's, and the timeout is the
    [elapsed] of the polls. *)
Record ClusterConfig := mkCfg {
  replicas : Z; clients : Z; ops_per_client : Z; keys : Z; snap_interval : Z }.
Definition cluster_default : ClusterConfig := mkCfg 3 2 200 8 64.

(** The nodes: every one knows the address of every other; the replicas have the first
    ids. [bind] opens a node's socket and gives its address; [None] when one fails. *)
Record Node (Addr : Type) := mkNode { node_id : Z; node_peers : list (Z * Addr); is_replica : bool }.
#[global] Arguments mkNode {_} _ _ _. #[global] Arguments node_id {_} _.
#[global] Arguments node_peers {_} _. #[global] Arguments is_replica {_} _.
Definition cluster_nodes {Addr : Type} (cfg : ClusterConfig) (bind : Z → option Addr) : option (list (Node Addr)) :=
  let n := replicas cfg + clients cfg in
  addrs ← mapM bind (seqZ 0 n);
  mapM (λ i, peers ← mapM (λ j, pair j <$> addrs !! Z.to_nat j) (filter (λ j, j ≠ i) (seqZ 0 n));
             Some (mkNode i peers (i <? replicas cfg))) (seqZ 0 n).

(** What happens to one replica: its directory, its polls, its drain. *)
Record ReplicaInput := mkInput {
  in_world : World; in_polls : list Poll; in_drain : list Delivery }.

(** One thread for each replica, the ids of the clients after theirs; the threads are
    joined, and the states sorted, in the order of their ids. [None]: the product
    overflows, or a replica failed or has not ended. *)
Definition run_cluster (cfg : ClusterConfig) (reps : list ReplicaInput) : option ClusterReport :=
  if negb (len reps =? replicas cfg) then None else
  total_ops ← usize_arith am (ops_per_client cfg * clients cfg);
  states ← mapM (λ r,
      match run_replica total_ops (snap_interval cfg) (in_polls r) (in_drain r) (in_world r) with
      | (Ok (Some s), _) => Some s
      | _ => None
      end) reps;
  Some (cluster_report (clients cfg) (ops_per_client cfg) (keys cfg) states).

(** ** A run in which a replica crashes *)

(** A replica's loop: the victim stops, without draining, once it has applied
    [crash_after] operations; the result says whether it crashed, [None] when the
    polls run out. *)
Fixpoint crash_loop (is_victim : bool) (total crash_after : Z) (drain : list Delivery) (polls : list Poll)
    (applied : Z) : M EW (option bool) :=
  match polls with
  | [] => mret None
  | p :: polls =>
      applied ← on_batch (batch p) applied;
      if is_victim && (crash_after <=? applied) then mret (Some true)
      else if negb is_victim && (total <=? applied) then
        _ ← on_batch drain applied; mret (Some false)
      else if elapsed p then mret (Some false)
      else crash_loop is_victim total crash_after drain polls applied
  end.

(** A client's thread in such a run: it waits for all the survivors. *)
Definition crash_client_thread (me replicas ops keys : Z) (waits : list (Z * bool)) : list (list Z * bytes) * bool :=
  (map (λ i, (seqZ 0 replicas, encode (op_incr me (i + 1) (key_name (i mod keys)) 1))) (seqZ 0 ops),
   existsb (λ w, negb ((w.1 <? replicas - 1) && negb w.2)) waits).

(** What a replica's thread returns. *)
Abbreviation Joined := (list (bytes * Z) * bytes * bool)%type.

Definition crash_replica (is_victim : bool) (total crash_after interval : Z) (polls : list Poll)
    (drain : list Delivery) : M World (option Joined) :=
  e ← create interval false;
  '(crashed, e) ← with_engine e (crash_loop is_victim total crash_after drain polls 0);
  mret ((λ c, (entries (state e), export_state e, c)) <$> crashed).

(** Joining the threads in the order of their ids: the first survivor, and the state
    of the victim. *)
Definition collect (acc : option (list (bytes * Z) * bytes) * list (bytes * Z)) (r : Joined)
    : option (list (bytes * Z) * bytes) * list (bytes * Z) :=
  let '(survivor, prefix) := acc in
  let '(ents, export, crashed) := r in
  if crashed : bool then (survivor, ents)
  else (if survivor is Some s then Some s else Some (ents, export), prefix).

Record CrashReport := mkCrashReport {
  cr_expected : list (bytes * Z);
  survivor_state : list (bytes * Z);
  victim_prefix : list (bytes * Z);
  victim_caught_up : list (bytes * Z);
  survivor_correct : bool;
  victim_prefix_consistent : bool;
  recovered_ok : bool;
}.

(** Recover the victim's own prefix, then adopt a survivor's export. *)
Definition catch_up (interval : Z) (survivor_export : bytes) : M World (list (bytes * Z)) :=
  e ← recover interval false;
  '(_, e) ← with_engine e (import_state survivor_export);
  mret (entries (state e)).

(** [victim_prefix.iter().all(|(k, v)| exp_map.get(k).is_some_and(|e| v <= e))];
    [exp_map] is [expected] collected into a map. *)
Definition prefix_consistent (prefix expected : list (bytes * Z)) : bool :=
  let exp_map : gmap bytes Z := btree_extend ∅ expected in
  forallb (λ kv, if exp_map !! kv.1 is Some e then kv.2 <=? e else false) prefix.

(** [None]: a replica failed or has not ended, no replica survived, or the victim could
    not recover. [victim] is the id of a replica. *)
Definition run_cluster_with_crash (cfg : ClusterConfig) (victim : nat) (crash_after : Z)
    (reps : list ReplicaInput) : option CrashReport :=
  if negb (len reps =? replicas cfg) then None else
  total ← usize_arith am (ops_per_client cfg * clients cfg);
  rs ← mapM (λ ir : nat * ReplicaInput,
      match crash_replica (bool_decide (ir.1 = victim)) total crash_after (snap_interval cfg)
              (in_polls ir.2) (in_drain ir.2) (in_world ir.2) with
      | (Ok (Some r), w) => Some (r, w)
      | _ => None
      end) (imap pair reps);
  let '(survivor, prefix) := fold_left collect rs.*1 (None, []) in
  '(survivor_state, survivor_export) ← survivor;
  let exp := expected_state (clients cfg) (ops_per_client cfg) (keys cfg) in
  '(_, w) ← rs !! victim;
  match catch_up (snap_interval cfg) survivor_export w with
  | (Ok caught_up, _) =>
      let ok := bool_decide (survivor_state = exp) in
      Some (mkCrashReport exp survivor_state prefix caught_up ok (prefix_consistent prefix exp)
              (bool_decide (caught_up = survivor_state) && ok))
  | _ => None
  end.

(** ** The snapshot-interval sweep of [bench.rs] *)

Definition sweep_ops (ops keys : Z) : list (Timestamp * Op) :=
  map (λ i, (from_nanos (i + 1), op_incr 1 (i + 1) (key_name (i mod keys)) 1)) (seqZ 0 ops).

(** One interval: [Some (snapshots, replay_records)], or [None] for an
    [unwrap] that panics. *)
Definition sweep_one (interval ops keys : Z) (w : World) : option (Z * Z) :=
  match create interval false w with
  | (Ok e, w) =>
      match deliver_all as_nanos (sweep_ops ops keys) (e, w) with
      | (_, Ok _, (e, w)) =>
          match recover interval false w with
          | (Ok er, _) => Some (st_snapshots (stats e), st_replayed (stats (er : Engine KvStore)))
          | _ => None
          end
      | _ => None
      end
  | _ => None
  end.

(** ** Proofs *)

(** What the fabric carries for operations sent in this order. *)
Definition sent (xs : list (Timestamp * Op)) : list Delivery := map (λ x, (x.1, encode x.2)) xs.

Lemma on_delivery_op x a s :
  wf_op x.2 →
  on_delivery (x.1, encode x.2) a s =
    (out ← deliver as_nanos x.1 x.2;
     mret (if decide (out = OutSuppressed) then a else a + 1)) s.
Proof.
  intros H. unfold on_delivery. cbn [fst snd].
  by rewrite <- (app_nil_r (encode x.2)), decode_encode.
Qed.

Lemma on_batch_app ds1 ds2 a s : on_batch (ds1 ++ ds2) a s = (a' ← on_batch ds1 a; on_batch ds2 a') s.
Proof.
  revert a s; induction ds1 as [|d ds1 IH]; intros a s; [done|]. cbn [app on_batch].
  rewrite !run_bind. destruct (on_delivery d a s) as [[a1| | |] s1]; [apply IH|done..].
Qed.

(** A batch of new operations applies them all. *)
Lemma on_batch_fresh xs B I n e d a :
  Cadence I n e d → 1 <= I → 0 <= n → Forall wf_rec (stamped as_nanos xs) →
  wf_image B (image e) → B + weights (stamped as_nanos xs) <= U32_MAX →
  fresh_from (image e) (stamped as_nanos xs) →
  ∃ e' d', on_batch (sent xs) a (e, calm d) = (Ok (a + len xs), (e', calm d')) ∧
    steps (image e) (stamped as_nanos xs) = Some (image e') ∧ Cadence I (n + len xs) e' d'.
Proof.
  revert B n e d a; induction xs as [|[ts op] xs IH]; intros B n e d a HC HI Hn Hwf Hv HB Hf.
  { exists e, d. cbn. rewrite !Z.add_0_r. done. }
  change (stamped as_nanos ((ts, op) :: xs)) with ((as_nanos ts, op) :: stamped as_nanos xs) in *.
  rewrite weights_cons in HB. cbn [snd] in HB. apply Forall_cons in Hwf as [Hr Hwf].
  pose proof (weights_nonneg (stamped as_nanos xs)) as Hnn.
  cbn in Hf. destruct (step_out _ _) as [[v' [o|]]|] eqn:Es; [|done..].
  destruct (deliver_cadence as_nanos B I n e d ts op v' o HC HI Hn Hr Hv ltac:(lia) Es)
    as (e1 & d1 & Ed & <- & HC1).
  assert (Hst : step (image e) (as_nanos ts, op) = Some (image e1)) by (unfold step; by rewrite Es).
  destruct (IH _ (n + 1) e1 d1 (a + 1) HC1 HI ltac:(lia) Hwf (step_wf _ _ _ _ Hr Hv Hst) ltac:(cbn [snd]; lia) Hf)
    as (e2 & d2 & E2 & Hs2 & HC2).
  exists e2, d2. cbn [sent map on_batch]. rewrite run_bind, (on_delivery_op (ts, op)) by apply Hr.
  rewrite run_bind. cbn [fst snd]. rewrite Ed.
  assert (o ≠ OutSuppressed) as Ho.
  { revert Es. unfold step_out. destruct (covered _ _); [done|]. cbn [snd im_state].
    destruct (sm_apply _ _) as [[s' o']|] eqn:Ea; [|done]. intros Hx.
    assert (o' = o) as -> by (cbn in Hx; congruence).
    exact (kv_not_suppressed am _ _ _ _ Ea). }
  rewrite decide_False by done. cbn [mret M_ret]. fold (sent xs). rewrite E2.
  rewrite length_cons, Nat2Z.inj_succ. split; [do 2 f_equal; lia|].
  split; [cbn [steps]; by rewrite Hst|].
  by replace (n + Z.succ (len xs)) with (n + 1 + len xs) by lia.
Qed.

(** Deliveries of operations already applied change nothing but a counter. *)
Lemma on_batch_covered ds a e w :
  Forall (λ d, ∃ op, wf_op op ∧ d.2 = encode op ∧ covered (image e) op = true) ds →
  ∃ e', on_batch ds a (e, w) = (Ok a, (e', w)) ∧ image e' = image e.
Proof.
  intros H; remember (image e) as v eqn:Ev. revert e Ev. induction H as [|[ts b] ds (op & Hw & Hb & Hc) _ IH]; intros e ->.
  { by exists e. }
  cbn in Hb. subst b. destruct (IH (count_suppressed e) eq_refl) as (e' & E & Him).
  exists e'. cbn [on_batch]. rewrite run_bind, (on_delivery_op (ts, op)) by done.
  rewrite run_bind. cbn [fst snd]. rewrite deliver_covered by done. done.
Qed.

(** Polls that end with the whole order leave the loop having applied it once,
    whatever the batches are and whatever duplicates the drain brings. *)
Lemma replica_loop_fresh polls total drain xs B I n e d a :
  Cadence I n e d → 1 <= I → 0 <= n → Forall wf_rec (stamped as_nanos xs) →
  wf_image B (image e) → B + weights (stamped as_nanos xs) <= U32_MAX →
  fresh_from (image e) (stamped as_nanos xs) →
  Forall (λ p, elapsed p = false) polls → concat (map batch polls) = sent xs →
  xs ≠ [] → a + len xs = total →
  Forall (λ dl, ∃ op, wf_op op ∧ dl.2 = encode op ∧
     ∀ v, steps (image e) (stamped as_nanos xs) = Some v → covered v op = true) drain →
  ∃ e' d', replica_loop total drain polls a (e, calm d) = (Ok true, (e', calm d')) ∧
    steps (image e) (stamped as_nanos xs) = Some (image e').
Proof.
  revert xs B n e d a; induction polls as [|p polls IH];
    intros xs B n e d a HC HI Hn Hwf Hv HB Hf Hel Hcat Hne Htot Hdr.
  { cbn in Hcat. symmetry in Hcat. apply fmap_nil_inv in Hcat. done. }
  apply Forall_cons in Hel as [Hp Hel]. cbn [map concat] in Hcat. symmetry in Hcat.
  apply fmap_app_inv in Hcat as (xs1 & xs2 & E1 & E2 & ->). cbn [replica_loop].
  change (batch p = sent xs1) in E1. change (concat (map batch polls) = sent xs2) in E2.
  rewrite stamped_app in *. apply Forall_app in Hwf as [Hw1 Hw2]. rewrite weights_app in HB.
  pose proof (weights_nonneg (stamped as_nanos xs2)). apply fresh_from_app in Hf as (Hf1 & v1 & Hs1 & Hf2).
  destruct (on_batch_fresh xs1 B I n e d a HC HI Hn Hw1 Hv ltac:(lia) Hf1) as (e1 & d1 & Eb & Hs1' & HC1).
  assert (v1 = image e1) as -> by congruence.
  rewrite run_bind. rewrite E1, Eb, Hp, orb_false_r. rewrite length_app, Nat2Z.inj_add in Htot.
  assert (Hst : steps (image e) (stamped as_nanos xs1 ++ stamped as_nanos xs2) =
                steps (image e1) (stamped as_nanos xs2)) by by rewrite steps_app, Hs1.
  rewrite Hst in *.
  destruct (Z.leb_spec total (a + len xs1)) as [Hle|Hgt].
  - assert (xs2 = []) as -> by (destruct xs2; [done|cbn in *; lia]).
    destruct (on_batch_covered drain (a + len xs1) e1 (calm d1)) as (e2 & Ed & Him).
    { eapply Forall_impl; [exact Hdr|]. intros dl (op & ? & ? & Hc). exists op. auto. }
    exists e2, d1. rewrite run_bind, Ed. by rewrite Him.
  - eapply (IH xs2 (B + weights (stamped as_nanos xs1))); try done; try lia.
    + by eapply steps_wf.
    + by intros ->; cbn in *; lia.
Qed.

(** The nodes know each other: node [i] of [n] has exactly the other ids as peers, and is
    a replica when its id is among the first. *)
Lemma cluster_nodes_ids {Addr} cfg (bind : Z → option Addr) nodes :
  cluster_nodes cfg bind = Some nodes →
  map node_id nodes = seqZ 0 (replicas cfg + clients cfg) ∧
  ∀ nd, nd ∈ nodes → (node_peers nd).*1 = filter (λ j, j ≠ node_id nd) (seqZ 0 (replicas cfg + clients cfg)) ∧
    is_replica nd = (node_id nd <? replicas cfg).
Proof.
  unfold cluster_nodes. intros (addrs & _ & Hm)%bind_Some. apply mapM_Some in Hm. split.
  - remember (seqZ 0 (replicas cfg + clients cfg)) as ids eqn:E in Hm at 2. rewrite <- E. clear E. induction Hm as [|i nd k nodes Hi _ IH]; [done|].
    apply bind_Some in Hi as (ps & _ & [= <-]). cbn. by rewrite IH.
  - intros nd Hin. apply list_elem_of_lookup in Hin as [k Hk].
    destruct (Forall2_lookup_r _ _ _ _ _ Hm Hk) as (i & _ & (ps & Hps & [= <-])%bind_Some). cbn. split; [|done].
    apply mapM_Some in Hps. clear -Hps. induction Hps as [|j q js ps Hj _ IH]; [done|].
    apply fmap_Some in Hj as (a & _ & ->). cbn. by rewrite IH.
Qed.

(** A survivor's loop differs from a replica's only in what a timeout does. *)
Lemma crash_loop_survivor total c drain polls a s :
  Forall (λ p, elapsed p = false) polls →
  crash_loop false total c drain polls a s =
    (b ← replica_loop total drain polls a; mret (if b : bool then Some false else None)) s.
Proof.
  intros Hel; revert a s; induction Hel as [|p polls Hp _ IH]; intros a s; [done|].
  cbn [crash_loop replica_loop]. rewrite !run_bind. destruct (on_batch (batch p) a s) as [[a1| | |] s1]; [|done..].
  cbn [andb negb]. rewrite Hp, orb_false_r. destruct (total <=? a1).
  - rewrite !run_bind. by destruct (on_batch drain a1 s1) as [[| | |] ?].
  - rewrite IH, run_bind. done.
Qed.

(** The victim stops with a prefix of the order applied, logged and countable. *)
Lemma crash_loop_victim polls total crash_after drain xs B I n e d a :
  Cadence I n e d → 1 <= I → 0 <= n → Forall wf_rec (stamped as_nanos xs) →
  wf_image B (image e) → B + weights (stamped as_nanos xs) <= U32_MAX →
  fresh_from (image e) (stamped as_nanos xs) →
  Forall (λ p, elapsed p = false) polls → concat (map batch polls) = sent xs →
  a < crash_after <= a + len xs →
  ∃ xs1 xs2 e' d', xs = xs1 ++ xs2 ∧
    crash_loop true total crash_after drain polls a (e, calm d) = (Ok (Some true), (e', calm d')) ∧
    steps (image e) (stamped as_nanos xs1) = Some (image e') ∧ Cadence I (n + len xs1) e' d'.
Proof.
  revert xs B n e d a; induction polls as [|p polls IH];
    intros xs B n e d a HC HI Hn Hwf Hv HB Hf Hel Hcat Ha.
  { symmetry in Hcat. apply fmap_nil_inv in Hcat as ->. cbn in Ha. lia. }
  apply Forall_cons in Hel as [Hp Hel]. cbn [map concat] in Hcat. symmetry in Hcat.
  apply fmap_app_inv in Hcat as (xs1 & xs2 & E1 & E2 & ->). cbn [crash_loop].
  change (batch p = sent xs1) in E1. change (concat (map batch polls) = sent xs2) in E2.
  rewrite stamped_app in *. apply Forall_app in Hwf as [Hw1 Hw2]. rewrite weights_app in HB.
  pose proof (weights_nonneg (stamped as_nanos xs2)). apply fresh_from_app in Hf as (Hf1 & v1 & Hs1 & Hf2).
  destruct (on_batch_fresh xs1 B I n e d a HC HI Hn Hw1 Hv ltac:(lia) Hf1) as (e1 & d1 & Eb & Hs1' & HC1).
  assert (v1 = image e1) as -> by congruence.
  rewrite run_bind, E1, Eb. cbn [andb negb]. rewrite Hp.
  destruct (Z.leb_spec crash_after (a + len xs1)) as [Hle|Hgt].
  - by exists xs1, xs2, e1, d1.
  - rewrite length_app, Nat2Z.inj_add in Ha.
    destruct (IH xs2 (B + weights (stamped as_nanos xs1)) (n + len xs1) e1 d1 (a + len xs1))
      as (ys & zs & e' & d' & -> & El & Hst & HC'); try done; try lia.
    { by eapply steps_wf. }
    exists (xs1 ++ ys), zs, e', d'. rewrite <- app_assoc, stamped_app, steps_app, Hs1.
    rewrite length_app, Nat2Z.inj_add, !Z.add_assoc. split_and!; done.
Qed.

(** What joining the threads keeps: the survivor is one that did not crash, the prefix
    one that did. *)
Lemma collect_cases js acc :
  let r := fold_left collect js acc in
  match r.1 with
  | Some x => acc.1 = Some x ∨ (x, false) ∈ js
  | None => acc.1 = None ∧ Forall (λ j, j.2 = true) js
  end ∧ (r.2 = acc.2 ∨ ∃ b, (r.2, b, true) ∈ js).
Proof.
  revert acc; induction js as [|[[ents b] c] js IH]; intros [s p]; cbn.
  { split; [destruct s; auto|auto]. }
  destruct (IH (collect (s, p) (ents, b, c))) as [H1 H2]. cbn in H1, H2. split.
  - destruct (fold_left _ _ _).1 as [x|].
    + destruct H1 as [H1|H1]; [|right; by constructor].
      destruct c, s as [x'|]; cbn in H1; auto; try done. injection H1 as <-. right. constructor.
    + destruct H1 as [H1 HF]. destruct c, s as [x'|]; cbn in H1; try done. by split; [|constructor].
  - destruct H2 as [H2|(b' & H2)]; [|right; exists b'; by constructor].
    destruct c; cbn in H2; [|auto]. right. exists b. rewrite H2. constructor.
Qed.

Lemma import_calm B e e2 d :
  wf_image B (image e) → B <= U32_MAX →
  ∃ e' d', import_state (export_state e) (e2, calm d) = (Ok tt, (e', calm d')) ∧ image e' = image e.
Proof.
  intros Hv HB. unfold import_state, export_state.
  rewrite (run_bind_ok _ _ _ tt (with_image e2 (image e), calm d)).
  2: { unfold on_eng, zoom, modify. cbn [fst snd]. by rewrite (load_encode_snapshot B). }
  destruct (write_snapshot_calm (dur (with_image e2 (image e))) (encode_snapshot e) d) as (d' & Ew & _).
  erewrite (run_bind_ok (on_dur _)); [|unfold on_dur, zoom; cbn [fst snd]; rewrite Ew; reflexivity].
  eexists _, d'. split; [reflexivity|]. by destruct e.
Qed.

(** The victim ends with the survivor's state. *)
Lemma catch_up_calm B I n ev d es i :
  Cadence I n ev d → wf_image B (image es) → B <= U32_MAX →
  ∃ d', catch_up i (export_state es) (calm d) = (Ok (entries (state es)), calm d').
Proof.
  intros HC Hv HB. destruct (recover_cadence _ _ _ _ i false HC) as (e & Er & _ & _).
  destruct (import_calm B es e d Hv HB) as (e' & d' & Ei & Him). exists d'.
  unfold catch_up. rewrite (run_bind_ok _ _ _ _ _ Er), run_bind. unfold with_engine. rewrite Ei.
  unfold mret, M_ret. change (state es) with (im_state (image es)). by rewrite <- Him.
Qed.

(** An operation of the workload is well-formed and adds at most 48 bytes to a
    snapshot. *)
Lemma client_op_wf c ops keys op ts :
  op ∈ client_ops c ops keys → is_u32 c → ops <= I64_MAX → 1 <= keys <= I64_MAX → is_u64 ts →
  wf_rec (ts, op) ∧ kv_weight op <= 48.
Proof.
  intros Hin Hc Ho Hk Hts. unfold client_ops in Hin.
  apply list_elem_of_fmap in Hin as (i & -> & Hi%elem_of_seqZ).
  pose proof (Z.mod_pos_bound i keys ltac:(lia)).
  assert (Hl : len (key_name (i mod keys)) <= 21).
  { unfold key_name. pose proof (length_to_string (i mod keys)). rewrite length_app. cbn. width_lia. }
  assert (Hu : utf8 (key_name (i mod keys))) by (apply utf8_app; [done|apply utf8_to_string]).
  split; [|unfold kv_weight; cbn [op_kind op_incr]; lia].
  split; [done|]. split; [split; [done|]; split; [cbn; width_lia|]; split; [split; [done|width_lia]|width_lia]|].
  unfold encode, op_incr. cbn [op_kind op_tag op_client op_seq encode_body]. unfold len16.
  cbn [snd op_kind op_tag op_client op_seq encode_body]. len_lia.
Qed.

Section TotalOrder.
Context (cs : list Z) (ops keys : Z).
Context (Hnd : NoDup cs) (Hcs : Forall is_u32 cs) (Hkeys : 1 <= keys <= I64_MAX) (Hops : 1 <= ops) (Hne : 1 <= len cs)
  (Hbudget : 4 + 48 * (len cs * ops) <= U32_MAX) (Hns : ∀ ts, is_u64 (as_nanos ts)).

Lemma ops_bound : ops <= I64_MAX ∧ len cs * ops <= I64_MAX.
Proof. unfold U32_MAX, I64_MAX in *. nia. Qed.

Lemma total_order_length l : total_order ops keys cs l → len l = len cs * ops.
Proof.
  intros [Heq Hall]. rewrite (Permutation_length (group_by_client cs l Hnd Hall)).
  rewrite length_concat_map. rewrite <- sumZ_const. apply sumZ_ext. intros c Hc. rewrite Heq by done.
  unfold client_ops. rewrite length_fmap, length_seqZ. lia.
Qed.

Lemma partial_order_wf xs :
  partial_order ops keys xs.*2 → Forall (λ op, op_client op ∈ cs) xs.*2 →
  Forall wf_rec (stamped as_nanos xs) ∧ weights (stamped as_nanos xs) <= 48 * len xs.
Proof.
  intros HP Hall. pose proof ops_bound as [Ho _].
  assert (Hx : ∀ x, x ∈ xs → wf_rec (as_nanos x.1, x.2) ∧ kv_weight x.2 <= 48).
  { intros x Hin. assert (x.2 ∈ xs.*2) as Hin2 by (apply list_elem_of_fmap; eauto).
    rewrite Forall_forall in Hall. specialize (Hall _ Hin2). rewrite Forall_forall in Hcs.
    apply (client_op_wf (op_client x.2) ops keys); [|by apply Hcs|done|width_lia|done].
    eapply elem_of_prefix; [|apply HP]. by apply list_elem_of_filter. }
  clear HP Hall. induction xs as [|x xs IH]; [by split|].
  destruct IH as [IH1 IH2]; [intros y Hy; apply Hx; by constructor|].
  destruct (Hx x ltac:(constructor)) as [Hw Hz]. split; [by constructor|].
  change (stamped as_nanos (x :: xs)) with ((as_nanos x.1, x.2) :: stamped as_nanos xs).
  rewrite weights_cons, length_cons, Nat2Z.inj_succ. cbn [snd].
  change (sm_weight x.2) with (kv_weight x.2). lia.
Qed.

(** A whole prefix of the order, applied batch by batch from a fresh store. *)
Lemma partial_order_runs xs :
  partial_order ops keys xs.*2 → Forall (λ op, op_client op ∈ cs) xs.*2 →
  len xs <= len cs * ops →
  Forall wf_rec (stamped as_nanos xs) ∧ Z.max 0 4 + weights (stamped as_nanos xs) <= U32_MAX ∧
  fresh_from image0 (stamped as_nanos xs) ∧
  ∃ v, steps image0 (stamped as_nanos xs) = Some v ∧ tallies xs.*2 v.
Proof.
  intros HP Hall Hl. destruct (partial_order_wf xs HP Hall) as [Hwf Hw].
  pose proof ops_bound as [_ Hlo]. split; [done|]. split; [lia|].
  assert (E : (stamped as_nanos xs).*2 = xs.*2) by (unfold stamped; rewrite <- list_fmap_compose; done).
  rewrite <- E in HP |- *. apply workload_steps; [by eapply partial_order_workload|].
  unfold stamped. rewrite length_fmap. width_lia.
Qed.

Lemma total_order_entries (xs : list (Timestamp * Op)) v :
  total_order ops keys cs xs.*2 → tallies xs.*2 v →
  entries (im_state v) = touched_state ops keys (len cs).
Proof.
  intros HT Htal. pose proof ops_bound as [Ho Hl]. pose proof (total_order_length _ HT) as Hlen.
  apply (tallies_expected ops keys Hkeys cs xs.*2); done || lia.
Qed.

(** The deliveries a replica may still drain: duplicates of the order. *)
Definition duplicates (xs : list (Timestamp * Op)) (drain : list Delivery) : Prop :=
  Forall (λ dl, ∃ x, x ∈ xs ∧ dl.2 = encode x.2) drain.

Lemma wf_image0_kv : wf_image 4 image0.
Proof. exact wf_image0. Qed.

#[local] Hint Resolve wf_image0_kv : core.

(** A replica that is given the whole order ends with it applied. *)
Lemma survivor_image xs polls drain i fs :
  total_order ops keys cs xs.*2 → concat (map batch polls) = sent xs →
  Forall (λ p, elapsed p = false) polls → duplicates xs drain →
  ∃ e d, replica_loop (len cs * ops) drain polls 0 (fresh (mkDurable fs false) i, calm ∅) =
      (Ok true, (e, calm d)) ∧
    entries (state e) = touched_state ops keys (len cs) ∧ tallies xs.*2 (image e) ∧
    wf_image U32_MAX (image e).
Proof.
  intros HT Hcat Hel Hdup. pose proof (total_order_length _ HT) as Hlen. rewrite length_fmap in Hlen.
  destruct HT as [HT1 Hall]. pose proof (total_order_partial _ _ _ _ (conj HT1 Hall)) as HP.
  destruct (partial_order_runs xs HP Hall ltac:(lia)) as (Hwf & HB & Hf & v & Hs & Htal).
  assert (Hx : xs ≠ []) by (intros ->; cbn in Hlen; nia).
  destruct (replica_loop_fresh polls (len cs * ops) drain xs 4 (Z.max i 1) 0
    (fresh (mkDurable fs false) i) ∅ 0) as (e & d & El & Hs'); try done; try lia.
  - apply create_cadence.
  - eapply Forall_impl; [exact Hdup|]. intros dl (x & Hin & Hb). exists x.2.
    assert ((as_nanos x.1, x.2) ∈ stamped as_nanos xs) as Hin2.
    { apply list_elem_of_fmap. eauto. }
    split; [rewrite Forall_forall in Hwf; by apply (Hwf _ Hin2)|]. split; [done|].
    intros v' Hv'%steps_covers. rewrite Forall_forall in Hv'. by apply (Hv' _ Hin2).
  - change (image (fresh _ _)) with (image0 (S := KvStore)) in Hs'.
    rewrite Hs in Hs'. injection Hs' as ->. exists e, d. split; [done|].
    split; [by apply (total_order_entries xs (image e))|]. split; [done|].
    eapply wf_image_weaken; [exact HB|]. eapply steps_wf; [exact Hwf|exact wf_image0_kv|exact Hs].
Qed.

Lemma run_replica_total xs polls drain i :
  total_order ops keys cs xs.*2 → concat (map batch polls) = sent xs →
  Forall (λ p, elapsed p = false) polls → duplicates xs drain →
  ∃ d, run_replica (len cs * ops) i polls drain (calm ∅) =
    (Ok (Some (touched_state ops keys (len cs))), calm d).
Proof.
  intros HT Hcat Hel Hdup. destruct (survivor_image xs polls drain i false HT Hcat Hel Hdup) as (e & d & El & He & _).
  exists d. unfold run_replica. rewrite (run_bind_ok _ _ _ _ _ (create_calm i false)).
  rewrite run_bind. unfold with_engine. rewrite El. unfold mret, M_ret. by rewrite He.
Qed.

(** A prefix is consistent with the final state, key by key. *)
Lemma prefix_consistent_ok (xs1 xs2 : list (Timestamp * Op)) v1 :
  total_order ops keys cs (xs1 ++ xs2).*2 → tallies xs1.*2 v1 →
  prefix_consistent (entries (im_state v1)) (expected_state (len cs) ops keys) = true.
Proof.
  intros HT [_ Hkv]. pose proof (total_order_length _ HT) as Hlen. pose proof ops_bound as [Ho Hlo].
  rewrite fmap_app in HT, Hlen. rewrite length_app in Hlen.
  unfold prefix_consistent. apply forallb_forall. intros [k z] Hin%list_elem_of_In.
  apply elem_of_entries in Hin as (b & Hb & Hz). rewrite Hkv in Hb. case_decide as Hn; [done|].
  injection Hb as <-. pose proof (on_key_bound k xs1.*2). pose proof (on_key_bound k xs2.*2).
  rewrite parse_trimmed_to_string in Hz by width_lia. injection Hz as <-. cbn [fst snd].
  assert (Hk : on_key k (xs1.*2 ++ xs2.*2) ≠ 0) by (rewrite on_key_app; lia).
  destruct (on_key_partial ops keys ltac:(lia) _ k (total_order_partial _ _ _ _ HT) Hk) as (j & Hj & ->).
  rewrite btree_extend_fresh.
  - rewrite map_union_empty. unfold expected_state.
    rewrite (elem_of_list_to_map_1 _ (key_name j) (len cs * count_on ops keys j)).
    + apply Z.leb_le. erewrite <- (expected_total ops keys); [|lia|exact Hnd|exact HT|done].
      rewrite on_key_app. lia.
    + rewrite merge_sort_Permutation. apply expected_NoDup. lia.
    + rewrite merge_sort_Permutation. apply list_elem_of_fmap. exists j.
      rewrite fold_sum, length_seqZ. split; [f_equal; lia|apply elem_of_seqZ; lia].
  - unfold expected_state. rewrite merge_sort_Permutation. apply expected_NoDup. lia.
  - intros k _. apply lookup_empty.
Qed.

(** The threads of the crash run: a survivor returns the keys touched and an export
    of its state, the victim a consistent prefix that it can recover. *)
Lemma crash_replica_survivor xs crash_after polls drain i :
  total_order ops keys cs xs.*2 → concat (map batch polls) = sent xs →
  Forall (λ p, elapsed p = false) polls → duplicates xs drain →
  ∃ e d, crash_replica false (len cs * ops) crash_after i polls drain (calm ∅) =
      (Ok (Some (touched_state ops keys (len cs), export_state e, false)), calm d) ∧
    entries (state e) = touched_state ops keys (len cs) ∧ wf_image U32_MAX (image e).
Proof.
  intros HT Hcat Hel Hdup. destruct (survivor_image xs polls drain i false HT Hcat Hel Hdup) as (e & d & El & He & _ & Hwf).
  exists e, d. split; [|done]. unfold crash_replica. rewrite (run_bind_ok _ _ _ _ _ (create_calm i false)).
  rewrite run_bind. unfold with_engine. rewrite crash_loop_survivor, run_bind, El by done.
  unfold mret, M_ret. cbn. by rewrite He.
Qed.

Lemma crash_replica_victim xs1 xs2 polls crash_after drain i :
  total_order ops keys cs (xs1 ++ xs2).*2 → concat (map batch polls) = sent xs1 →
  Forall (λ p, elapsed p = false) polls → 1 <= crash_after <= len xs1 →
  ∃ e d n, crash_replica true (len cs * ops) crash_after i polls drain (calm ∅) =
      (Ok (Some (entries (state e), export_state e, true)), calm d) ∧
    Cadence (Z.max i 1) n e d ∧
    prefix_consistent (entries (state e)) (expected_state (len cs) ops keys) = true.
Proof.
  intros HT Hcat Hel Hca. pose proof (total_order_length _ HT) as Hlen. pose proof HT as [_ Hall].
  pose proof (total_order_partial _ _ _ _ HT) as HP. rewrite fmap_app in HP, Hall, Hlen.
  rewrite length_app, !length_fmap in Hlen. apply partial_order_app in HP. apply Forall_app in Hall as [Hall _].
  destruct (partial_order_runs xs1 HP Hall ltac:(lia)) as (Hwf & HB & Hf & _).
  destruct (crash_loop_victim polls (len cs * ops) crash_after drain xs1 4 (Z.max i 1) 0
    (fresh (mkDurable false false) i) ∅ 0) as (ys & zs & e & d & -> & El & Hs & HC); try done; try lia.
  { apply create_cadence. }
  exists e, d, (0 + len ys). split.
  { unfold crash_replica. rewrite (run_bind_ok _ _ _ _ _ (create_calm i false)).
    rewrite run_bind. unfold with_engine. by rewrite El. }
  split; [done|]. rewrite fmap_app in HP, Hall. apply partial_order_app in HP. apply Forall_app in Hall as [Hall _].
  rewrite length_app in Hlen.
  destruct (partial_order_runs ys HP Hall ltac:(lia)) as (_ & _ & _ & v & Hs' & Htal).
  change (image (fresh _ _)) with (image0 (S := KvStore)) in Hs. rewrite Hs in Hs'. injection Hs' as <-.
  apply (prefix_consistent_ok ys (zs ++ xs2) (image e)); [by rewrite app_assoc|done].
Qed.
End TotalOrder.

(** Increments numbered from 1 by one client, delivered to a fresh engine. *)
Lemma sweep_delivered interval ops keys :
  1 <= keys <= ops → 4 + 48 * ops <= U32_MAX → (∀ ts, is_u64 (as_nanos ts)) →
  ∃ os e d,
    deliver_all as_nanos (sweep_ops ops keys) (fresh (mkDurable false false) interval, calm ∅) =
      (os, Ok tt, (e, calm d)) ∧
    Forall wf_rec (stamped as_nanos (sweep_ops ops keys)) ∧
    steps image0 (stamped as_nanos (sweep_ops ops keys)) = Some (image e) ∧
    Cadence (Z.max interval 1) ops e d.
Proof.
  intros Hk Hb Hns. set (xs := sweep_ops ops keys).
  assert (E2 : xs.*2 = client_ops 1 ops keys).
  { unfold xs, sweep_ops, client_ops. by rewrite <- list_fmap_compose. }
  assert (Hlen : len xs = ops) by (unfold xs, sweep_ops; rewrite length_map, length_seqZ; lia).
  assert (Hone : Forall (λ op, op_client op = 1) (client_ops 1 ops keys)).
  { apply Forall_forall. intros op Hin. unfold client_ops in Hin. by apply list_elem_of_fmap in Hin as (i & -> & _). }
  assert (HT : total_order ops keys [1] xs.*2).
  { rewrite E2. split.
    - intros c ->%list_elem_of_singleton. by apply by_client_all.
    - eapply Forall_impl; [exact Hone|]. intros op ->. constructor. }
  destruct (partial_order_runs [1] ops keys ltac:(repeat constructor; width_lia) ltac:(width_lia) ltac:(lia) ltac:(done)
    ltac:(cbn; lia) Hns xs (total_order_partial _ _ _ _ HT) (proj2 HT) ltac:(cbn; lia))
    as (Hwf & HB & Hf & v & Hs & _).
  destruct (deliver_all_cadence as_nanos xs 4 (Z.max interval 1) 0 (fresh (mkDurable false false) interval) ∅)
    as (os & e & d & Ed & Hse & HC); try done; try lia.
  { apply create_cadence. }
  exists os, e, d. rewrite Hlen in HC. done.
Qed.

(** The sweep, on a directory of its own: [ops / interval] snapshots while
    running, [ops mod interval] records replayed on recovery. *)
Lemma sweep_one_calm interval ops keys :
  1 <= keys <= ops → 4 + 48 * ops <= U32_MAX → (∀ ts, is_u64 (as_nanos ts)) →
  sweep_one interval ops keys (calm ∅) =
    Some (ops / Z.max interval 1, ops mod Z.max interval 1).
Proof.
  intros Hk Hb Hns. unfold sweep_one. rewrite create_calm.
  destruct (sweep_delivered interval ops keys Hk Hb Hns) as (os & e & d & -> & _ & _ & HC).
  destruct (recover_cadence _ _ _ _ interval false HC) as (er & -> & _ & ->).
  by destruct HC as [_ _ -> _].
Qed.
End Replica.
