(* ===== verification/StateGuarantees.v ===== *)
(** * StateGuarantees: the wire format, the log format and the store

    Which operations survive encoding, which logs read back, and what the
    operations of the key-value store do to it. *)

From S2P Require Import Prelude Bytes Text State Io Durable Engine EngineFacts CrashSafety Lifetimes.
Local Open Scope Z_scope.

(** C10: The wire format is exact: an operation decodes from its own encoding if and
    only if it fits the format (32-bit client, 64-bit sequence number, UTF-8 keys of
    at most 65535 bytes, values below 4 GiB, at most 65535 writes). In particular a
    longer key, which the types allow, is acknowledged but not read back. *)
Theorem decode_encode_iff op : decode (encode op) = Some op ↔ wf_op op.
Proof.
  split; [apply decode_wf|]. intros H. rewrite <- (app_nil_r (encode op)). by apply decode_encode.
Qed.

(** C11: A log of whole records followed by any part of one more record reads back as
    exactly the whole records, without a panic, and what is left unread is exactly
    that part. *)
Theorem log_torn_roundtrip (rs : list (Z * bytes)) ts b n :
  Forall (λ r, is_u64 r.1 ∧ len r.2 <= U32_MAX) rs → is_u64 ts → len b <= U32_MAX →
  (n < length (record ts b))%nat →
  let raw := concat (map (λ r, record r.1 r.2) rs) ++ take n (record ts b) in
  (∀ d, read_log (calm (<[LOG := raw]> d)) = (Ok rs, calm (<[LOG := raw]> d))) ∧
  parse_log raw = rs ∧ log_rest raw = take n (record ts b).
Proof.
  intros Hrs Hts Hb Hn raw. pose proof (parse_log_torn ts b n Hts Hb Hn) as Ht.
  assert (Hp : parse_log raw = rs) by (unfold raw; by rewrite parse_log_records, Ht, app_nil_r).
  split; [|split; [done|]].
  - intros d. rewrite read_log_calm. unfold logc. rewrite lookup_insert_eq. cbn. by rewrite Hp.
  - clear Hp. unfold raw. induction Hrs as [|r rs [Hr1 Hr2] _ IH]; [by apply log_rest_nothing|].
    cbn. by rewrite <- app_assoc, log_rest_record.
Qed.

(** C12: A snapshot of an engine loads back as the same state, high-water marks and
    horizon, whatever engine loads it, as long as its length fields suffice. *)
Theorem snapshot_roundtrip {S} {SM : StateMachine S} {SMok : StateMachineOk S} (e e' : Engine S) B :
  wf_image B (image e) → B <= U32_MAX →
  image (load_snapshot (encode_snapshot e) e') = image e.
Proof. intros Hv HB. rewrite (load_encode_snapshot B) by done. apply image_with_image. Qed.

(** The last write of a transaction to a key ([Some None]: a deletion). *)
Definition last_write (k : bytes) (ws : list (bytes * option bytes)) : option (option bytes) :=
  snd <$> last (filter (λ w, w.1 = k) ws).

(** A transaction is atomic and ordered: in one step every key takes its last
    write (or is deleted by it), every other key keeps its value, and the result is
    the number of writes. *)
Theorem txn_last_write_wins am s c q ws :
  ∃ s', kv_apply am s (op_txn c q ws) = Some (s', OutValue (Some (len ws))) ∧
    ∀ k, get_bytes s' k = match last_write k ws with Some v => v | None => get_bytes s k end.
Proof.
  eexists. split; [reflexivity|]. intros k. unfold get_bytes. cbn [kv_map].
  induction ws as [|[k' v] ws IH] using rev_ind; [done|].
  rewrite fold_left_snoc. unfold last_write in *. rewrite filter_app, filter_cons, filter_nil. cbn [fst].
  unfold apply_write. cbn [fst snd]. case_decide as Hk.
  - subst k'. rewrite last_snoc. cbn. destruct v; [by rewrite lookup_insert_eq|by rewrite lookup_delete_eq].
  - rewrite app_nil_r, <- IH. destruct v; [by rewrite lookup_insert_ne|by rewrite lookup_delete_ne].
Qed.

(** C14: The counter's width: [apply] panics exactly when an INCR of a debug build
    overflows [i64]; otherwise INCR stores the decimal of the result (wrapped in a
    release build), which reads back as that integer. *)
Theorem incr_width am s c q k d :
  let exact := default 0 (get_int s k) + d in
  match kv_apply am s (op_incr c q k d) with
  | None => am = Checked ∧ ¬ is_i64 exact
  | Some (s', out) =>
      ∃ z, out = OutValue (Some z) ∧ is_i64 z ∧ get_int s' k = Some z ∧
        (is_i64 exact → z = exact) ∧ (¬ is_i64 exact → am = Wrapping ∧ z = i64_wrap exact)
  end.
Proof.
  intros exact. unfold kv_apply. cbn [op_kind op_incr]. fold exact.
  destruct (i64_arith am exact) as [z|] eqn:E; cbn.
  - pose proof (i64_arith_range _ _ _ E) as Hz. exists z. split_and!; [done|done| | |].
    + unfold get_int. cbn. rewrite lookup_insert_eq. cbn. by apply parse_trimmed_to_string.
    + intros Hi. rewrite i64_arith_exact in E by done. congruence.
    + intros Hn. unfold i64_arith in E. rewrite bool_decide_false in E by done.
      destruct am; [done|]. by injection E.
  - unfold i64_arith in E. case_bool_decide; [done|]. by destruct am.
Qed.

(** ** Witnesses *)

Lemma log_torn_roundtrip_witness :
  let raw := concat (map (λ r, record r.1 r.2) [(5, bs "ab")]) ++ take 13 (record 6 (bs "xyz")) in
  (∀ d, read_log (calm (<[LOG := raw]> d)) = (Ok [(5, bs "ab")], calm (<[LOG := raw]> d))) ∧
  parse_log raw = [(5, bs "ab")] ∧ log_rest raw = take 13 (record 6 (bs "xyz")).
Proof.
  apply (log_torn_roundtrip [(5, bs "ab")] 6 (bs "xyz") 13);
    [by_decision|by vm_compute|by vm_compute|by_decision].
Defined.

(** An engine with a key and a client, loaded by one that holds something else. *)
Definition engine_w : Engine KvStore :=
  mkEngine (mkKv {[bs "a" := bs "1"]}) {[1 := 2]} 7 (mkDurable false false) 4 1 stats_default.

Lemma engine_w_wf : wf_image (SMok := KvStore_StateMachineOk Checked) 100 (image engine_w).
Proof.
  split; [| |by vm_compute..].
  - intros k v. change (({[bs "a" := bs "1"]} : gmap bytes bytes) !! k = Some v → wf_key k).
    rewrite lookup_singleton_Some. intros [<- _]. by_decision.
  - intros c s. change (({[1 := 2]} : gmap Z Z) !! c = Some s → is_u32 c ∧ is_u64 s).
    rewrite lookup_singleton_Some. intros [<- <-]. by vm_compute.
Qed.

Lemma snapshot_roundtrip_witness :
  image (load_snapshot (SM := KvStore_StateMachine Checked)
    (encode_snapshot (SM := KvStore_StateMachine Checked) engine_w)
    (mkEngine (mkKv {[bs "b" := bs "x"]}) {[3 := 1]} 9 (mkDurable false false) 4 1 stats_default)) = image engine_w.
Proof.
  apply (snapshot_roundtrip (SM := KvStore_StateMachine Checked) engine_w _ 100 engine_w_wf). by vm_compute.
Defined.
