(* ===== verification/Guarantees.v ===== *)
(** * Guarantees: what the engine promises

    Crash safety over any number of processes, exactly-once execution of what was
    acknowledged, state transfer, recovery from any directory; and the two places
    where a promise has a hole: a torn log that is appended to, and an import of
    bytes that are not a snapshot. *)

From S2P Require Import Prelude Bytes Text Io State Durable Engine EngineFacts CrashSafety Lifetimes Torn Transfer Cadence KvRecovery.
Local Open Scope Z_scope.

Section Engine.
Context {S : Type} {SM : StateMachine S} {SMok : StateMachineOk S}.
Context {Timestamp : Type} (as_nanos : Timestamp → Z).
Implicit Types (e : Engine S) (v : Image S) (d : Dir).

(** What acknowledged operations and the one in flight add up to. *)
Lemma lifetimes_history rl osl d :
  Lifetimes (S := S) as_nanos ∅ rl osl d → clean_starts (S := S) as_nanos ∅ rl →
  Forall wf_rec (all_ops as_nanos rl) →
  Z.max 0 sm_base + weights (all_ops as_nanos rl) <= U32_MAX →
  ∃ h v, Executed as_nanos image0 rl osl h v ∧ steps image0 h = Some v ∧ Holds d v.
Proof.
  intros HL Hcl Hwf HB.
  destruct (lifetimes_Executed as_nanos _ _ _ _ _ _ HL Hcl Hwf wf_image0 HB Holds_empty) as (h & v & HE & HH).
  exists h, v. split; [done|]. split; [by eapply Executed_steps|done].
Qed.


(** C1: Crash safety. Over any number of processes, each started on a log that does not
    end inside a record ([clean_starts]), opening the store, answering operations and
    ending at any point of any system call (killed, with an I/O error, in a panic),
    recovery of the final directory, torn or not, succeeds and rebuilds the state
    [reference_apply] gives for a history that has, of each process, exactly the
    operations it acknowledged (with the outputs it acknowledged them with) and at
    most the one it was working on. *)
Theorem lifetimes_safe rl osl d :
  Lifetimes (S := S) as_nanos ∅ rl osl d → clean_starts (S := S) as_nanos ∅ rl →
  Forall wf_rec (all_ops as_nanos rl) →
  Z.max 0 sm_base + weights (all_ops as_nanos rl) <= U32_MAX →
  ∃ h v, Executed as_nanos image0 rl osl h v ∧ reference_apply h.*2 = Some (im_state v) ∧
    ∀ i fs, ∃ e, recover i fs (calm d) = (Ok e, calm d) ∧ image e = v.
Proof.
  intros HL Hcl Hwf HB. destruct (lifetimes_history _ _ _ HL Hcl Hwf HB) as (h & v & HE & Hs & HH).
  exists h, v. split; [done|]. split; [by rewrite reference_apply_steps, Hs|].
  intros i fs. destruct (recover_Holds _ _ i fs HH) as (e & Hr & Him & _). eauto.
Qed.



(** An import of bytes too short to be a snapshot returns [Ok] and keeps the
    engine's state in memory, but it has replaced the durable snapshot and removed
    the log: the next recovery starts from nothing. *)
Theorem import_garbage_loses_store b e d i fs :
  (length b < 8)%nat →
  ∃ e' d', import_state b (e, calm d) = (Ok tt, (e', calm d')) ∧ image e' = image e ∧
    ∃ er, recover i fs (calm d') = (Ok er, calm d') ∧ image er = image0.
Proof.
  intros Hb.
  assert (Hl : ∀ e, load_snapshot b e = e).
  { intros e0. unfold load_snapshot, rd_u64, rd_uint, mbind, Rd_bind, rd_bytes, reader_new.
    cbn [rd_pos rd_b]. rewrite (proj2 (Nat.leb_gt _ _)) by lia. done. }
  destruct (write_snapshot_calm (dur e) b d) as (d' & Ew & Hlog & Hsnap).
  eexists (set_ops (set_dur e _) 0), d'. split; [|split].
  - unfold import_state. rewrite (run_bind_ok _ _ _ tt (e, calm d)).
    2: { unfold on_eng, zoom, modify. cbn [fst snd]. by rewrite Hl. }
    erewrite (run_bind_ok (on_dur _)); [|unfold on_dur, zoom; cbn [fst snd]; rewrite Ew; reflexivity].
    reflexivity.
  - done.
  - destruct (recover_Holds d' image0 i fs) as (er & Hr & Him & _); [|eauto].
    exists [], []. split; [by rewrite Hlog|done..|]. unfold base. rewrite Hsnap, Hl. done.
Qed.
(** C6: A process that starts on a torn log can lose everything it acknowledges. The
    log ends inside the payload of a record, and what the process logs is shorter
    than the part that is missing; no snapshot is due before it ends, whichever way
    it ends. It answers its operations as the engine should, but recovery of the
    directory it leaves gives exactly the state before it started. *)
Theorem torn_log_loses_acknowledged d rs v ts op n r :
  let torn := record ts (encode op) in
  Stored d rs (take n torn) v → wf_rec (ts, op) → (12 ≤ n)%nat →
  (n + logged as_nanos (run_ops r) < length torn)%nat → len rs + len (run_ops r) < run_interval r →
  let '(os, d') := run_once as_nanos d r in
  os = outputs v (take (length os) (stamped as_nanos (run_ops r))) ∧
  ∀ i fs, ∃ e, recover i fs (calm d') = (Ok e, calm d') ∧ image e = v.
Proof.
  intros torn HS Hr Hn Hfit Hi. pose proof (run_on_torn as_nanos d rs v ts op n r HS Hr Hn Hfit Hi) as HR.
  destruct (run_once _ _ _) as [os d']. destruct HR as [Hos HH]. split; [done|]. intros i fs.
  destruct (recover_Holds _ _ i fs HH) as (e & Hrec & Him & _). eauto.
Qed.
End Engine.

(** ** The key-value store *)

(** C5: Recovery of the key-value store is defined on every directory. Whatever bytes the
    snapshot and the log hold, no slice of the log is out of range, nothing is divided
    by 0, no file changes, and the engine that is returned holds what the snapshot
    holds (nothing, when it is missing or cut short) and then every whole record of the
    log that decodes, in order and without the duplicates. In a release build it always
    returns; in a debug build it panics exactly when an increment in the log
    overflows. *)
Theorem kv_recover_any_directory am d i fs :
  let v := steps (SM := KvStore_StateMachine am) (base (SM := KvStore_StateMachine am) d)
             (decoded (parse_log (logc d))) in
  match recover (SM := KvStore_StateMachine am) i fs (calm d) with
  | (Ok e, w) => w = calm d ∧ v = Some (image e) ∧ 0 <= ops_since_snap e < snap_interval e
  | (Panic, w) => w = calm d ∧ v = None ∧ am = Checked
  | _ => False
  end.
Proof.
  cbn zeta. destruct (steps _ _) as [v|] eqn:Hv.
  - destruct (kv_recover_image am d i fs v Hv) as (e & -> & <- & ?). done.
  - rewrite (kv_recover_panics am d i fs Hv). split_and!; [done..|]. destruct am; [done|].
    destruct (kv_steps_total (decoded (parse_log (logc d))) (base (SM := KvStore_StateMachine Wrapping) d)) as [x Hx].
    by rewrite Hv in Hx.
Qed.

(** ** Witnesses *)

Section Witnesses.
#[local] Hint Extern 0 (StateMachine _) => exact (KvStore_StateMachine Wrapping) : typeclass_instances.

(** Two processes: the first dies before it renames a snapshot, the second answers
    a duplicate and dies inside a record. *)
Definition run_w1 : Run (Timestamp := Z) :=
  mkRun 2 false [Fine; Fine; Fine; Fine; Fine; Fine; Kill 0]
    [(1, op_set_bytes 1 1 (bs "a") (bs "1")); (2, op_incr 1 2 (bs "n") 5)].
Definition run_w2 : Run (Timestamp := Z) :=
  mkRun 5 false [Fine; Fine; Fine; Fine; Fine; Kill 6]
    [(3, op_incr 1 2 (bs "n") 5); (4, op_incr 1 3 (bs "n") 5); (5, op_del 1 4 (bs "a"))].

Definition d_w1 : Dir := (run_once (S := KvStore) id ∅ run_w1).2.
Definition d_w2 : Dir := (run_once (S := KvStore) id d_w1 run_w2).2.
Definition os_w : list (list Output) := [[OutOk]; [OutSuppressed; OutValue (Some 10)]].

Lemma lifetimes_w : Lifetimes (S := KvStore) id ∅ [run_w1; run_w2] os_w d_w2.
Proof.
  assert (Hp : ∀ (p : list Output * Dir) os, p.1 = os → p = (os, p.2)) by by intros [] ? <-.
  apply (lf_cons _ _ d_w1); [by apply Hp; vm_compute|].
  apply (lf_cons _ _ d_w2); [by apply Hp; vm_compute|].
  constructor.
Qed.

Lemma lifetimes_safe_witness :
  ∃ h v, Executed (S := KvStore) id image0 [run_w1; run_w2] os_w h v ∧
    reference_apply h.*2 = Some (im_state v) ∧
    ∀ i fs, ∃ e, recover i fs (calm d_w2) = (Ok e, calm d_w2) ∧ image e = v.
Proof.
  apply (lifetimes_safe (S := KvStore) id [run_w1; run_w2] os_w d_w2 lifetimes_w);
    [by_decision|by_decision|by vm_compute].
Defined.


(** The first process dies inside the record of a long value; the second sets [b], is
    answered, and its write is gone. *)
Definition long_w : Op := op_set_bytes 1 2 (bs "a") (replicate 40 Byte.x41).
Definition run_torn : Run (Timestamp := Z) :=
  mkRun 100 false [Fine; Fine; Fine; Kill 20] [(1, op_set_bytes 1 1 (bs "a") (bs "1")); (2, long_w)].
Definition run_after : Run (Timestamp := Z) :=
  mkRun 100 false [] [(3, op_set_bytes 2 1 (bs "b") (bs "x"))].
Definition d_torn : Dir := (run_once (S := KvStore) id ∅ run_torn).2.
Definition v_torn : Image KvStore := mkImage (mkKv {[bs "a" := bs "1"]}) {[1 := 1]} 1.

Lemma torn_log_loses_acknowledged_witness :
  let '(os, d') := run_once (S := KvStore) id d_torn run_after in
  os = [OutOk] ∧ ¬ untorn d_torn ∧
  ∃ e, recover 100 false (calm d') = (Ok e, calm d') ∧ get_bytes (state e) (bs "a") = Some (bs "1") ∧
    get_bytes (state e) (bs "b") = None.
Proof.
  pose proof (torn_log_loses_acknowledged (S := KvStore) id d_torn [(1, op_set_bytes 1 1 (bs "a") (bs "1"))] v_torn
    2 long_w 20 run_after) as H.
  assert (Hos : (run_once (S := KvStore) id d_torn run_after).1 = [OutOk]) by by vm_compute.
  destruct (run_once _ _ _) as [os d']. cbn [fst] in Hos. subst os.
  destruct H as [_ H]; [split; [by vm_compute|by vm_compute|by_decision|by vm_compute]|by_decision|lia|by_decision|by vm_compute|].
  split; [done|]. split; [by_decision|]. destruct (H 100 false) as (e & He & Hv). exists e. split; [done|].
  change (state e) with (im_state (image e)). rewrite Hv. by vm_compute.
Defined.

(** A fresh replica importing from a peer that has applied one operation. *)
Definition peer_w : Engine KvStore :=
  mkEngine (mkKv {[bs "a" := bs "1"]}) {[1 := 1]} 7 (mkDurable false false) 4 1 stats_default.


Lemma import_garbage_loses_store_witness :
  ∃ e' d', import_state (bs "oops") (peer_w, calm ∅) = (Ok tt, (e', calm d')) ∧ image e' = image peer_w ∧
    ∃ er, recover 4 false (calm d') = (Ok er, calm d') ∧ image er = image0 (S := KvStore).
Proof.
  apply (import_garbage_loses_store (S := KvStore) (bs "oops") peer_w ∅ 4 false). cbn. lia.
Defined.
End Witnesses.
