(* ===== verification/ClusterGuarantees.v ===== *)
(** * ClusterGuarantees: what the replicated runs show

    Replicas that are given the same total order converge on the expected state;
    a replica that crashed recovers a consistent prefix and catches up. The fabric is
    outside the program: that it delivers one total order to all replicas, each
    client's operations in order, is a hypothesis on the polls here, which
    [FabricCluster] discharges for the specified fabric. *)

From S2P Require Import Prelude Bytes Text Io State Durable Engine EngineFacts CrashSafety Lifetimes Transfer Cadence Workload Cluster.
Local Open Scope Z_scope.

Section Guarantees.
Context (am : arith_mode) {Timestamp : Type} (as_nanos : Timestamp → Z) (from_nanos : Z → Timestamp).
Context (Hns : ∀ ts, is_u64 (as_nanos ts)).
#[local] Hint Extern 0 (StateMachine _) => exact (KvStore_StateMachine am) : typeclass_instances.

(** The polls of a replica bring the operations [xs] in this order, however they
    are batched, before the timeout; what it drains afterwards are duplicates. *)
Definition follows (xs : list (Timestamp * Op)) (r : ReplicaInput) : Prop :=
  in_world r = calm ∅ ∧ concat (map batch (in_polls r)) = sent xs ∧
  Forall (λ p, elapsed p = false) (in_polls r) ∧ duplicates xs (in_drain r).

Lemma workload_u64 clients ops :
  1 <= clients → 1 <= ops → 4 + 48 * (clients * ops) <= U32_MAX → is_u64 (ops * clients).
Proof. intros Hc Ho HB. assert (0 <= ops * clients) by nia. rewrite Z.mul_comm in HB. width_lia. Qed.

Lemma windows_equal_const l (s : list (bytes * Z)) : Forall (λ x, x = s) l → windows_equal l = true.
Proof.
  induction 1 as [|x l -> Hl IH]; [done|]. cbn. destruct l as [|y l]; [done|].
  apply Forall_cons in Hl as [-> _]. by rewrite bool_decide_true.
Qed.

(** Replicas converge. If the fabric gives every replica the same total order of
    all the clients' increments, then every replica ends and all hold the same state:
    every key that was incremented, with its expected sum; nothing lost, nothing applied
    twice. The report calls this correct when no key is left untouched. *)
Lemma cluster_converges replicas clients ops keys interval xs (reps : list (ReplicaInput)) :
  1 <= replicas → 1 <= clients → replicas + clients <= U32_MAX → 1 <= keys <= I64_MAX → 1 <= ops →
  4 + 48 * (clients * ops) <= U32_MAX → len reps = replicas →
  total_order ops keys (seqZ replicas clients) xs.*2 → Forall (follows xs) reps →
  ∃ report, run_cluster am as_nanos (mkCfg replicas clients ops keys interval) reps = Some report ∧
    replica_states report = replicate (length reps) (touched_state ops keys clients) ∧
    converged report = true ∧ correct report = (keys <=? ops) ∧ timed_out report = negb (keys <=? ops).
Proof.
  intros Hr Hc Hid Hk Ho HB Hreps HT Hall. set (s := touched_state ops keys clients).
  assert (Hlen : len (seqZ replicas clients) = clients) by (rewrite length_seqZ; lia).
  assert (Hid' : Forall is_u32 (seqZ replicas clients)).
  { apply Forall_forall. intros c Hin%elem_of_seqZ. width_lia. }
  assert (Hm : ∃ states, mapM (λ r,
      match run_replica am as_nanos (ops * clients) interval (in_polls r) (in_drain r) (in_world r) with
      | (Ok (Some s), _) => Some s
      | _ => None
      end) reps = Some states ∧ Forall (λ x, x = s) states ∧ length states = length reps).
  { edestruct (mapM_related (λ r, match run_replica am as_nanos (ops * clients) interval (in_polls r)
        (in_drain r) (in_world r) with (Ok (Some s), _) => Some s | _ => None end) (λ _ x, x = s) reps)
      as (states & Em & HR).
    - intros r Hin. rewrite Forall_forall in Hall. destruct (Hall r Hin) as (Hw & Hcat & Hel & Hd).
      destruct (run_replica_total am as_nanos (seqZ replicas clients) ops keys (NoDup_seqZ _ _) Hid' Hk Ho
        ltac:(lia) ltac:(by rewrite Hlen) Hns xs (in_polls r) (in_drain r) interval HT Hcat Hel Hd) as (d & Er).
      rewrite Hlen, (Z.mul_comm clients) in Er. exists s. by rewrite Hw, Er.
    - exists states. split; [done|]. split; [|symmetry; by eapply Forall2_length].
      eapply Forall2_Forall_r; [exact HR|]. by apply Forall_true. }
  destruct Hm as (states & Em & Hs & El). eexists. unfold run_cluster.
  cbn [Cluster.replicas Cluster.clients Cluster.keys ops_per_client snap_interval].
  rewrite (proj2 (Z.eqb_eq _ _) Hreps), usize_arith_in by by eapply workload_u64. cbn [negb mbind option_bind].
  setoid_rewrite Em. split; [reflexivity|].
  assert (Est : states = replicate (length reps) s).
  { symmetry. apply replicate_as_Forall_2; [done|]. eapply Forall_impl; [exact Hs|]. by intros ? ->. }
  assert (Hok : forallb (λ x, bool_decide (x = expected_state clients ops keys)) states = (keys <=? ops)).
  { apply eq_true_iff_eq. rewrite forallb_forall, Z.leb_le, <- (touched_expected ops keys Hk clients) by lia. fold s. split.
    - intros H. apply (bool_decide_eq_true_1 _), H. rewrite Est. apply list_elem_of_In, elem_of_replicate. split; [done|lia].
    - intros E x Hx%list_elem_of_In. rewrite Forall_forall in Hs. rewrite <- E. by apply bool_decide_eq_true, Hs. }
  unfold cluster_report. cbn. rewrite Hok, (windows_equal_const states s Hs). split_and!; try done.
  rewrite bool_decide_false; [done|]. intros ->. cbn in El. lia.
Qed.

(** The victim's polls bring the operations [xs]. *)
Definition follows_victim (xs : list (Timestamp * Op)) (r : ReplicaInput) : Prop :=
  in_world r = calm ∅ ∧ concat (map batch (in_polls r)) = sent xs ∧ Forall (λ p, elapsed p = false) (in_polls r).

(** What the thread of replica [ir.1] returns, and its directory afterwards. *)
Definition joined_as (interval : Z) (fin exp : list (bytes * Z)) (victim : nat)
    (ir : nat * ReplicaInput (Timestamp := Timestamp))
    (jw : (list (bytes * Z) * bytes * bool) * World) : Prop :=
  if decide (ir.1 = victim) then
    ∃ (e : Engine KvStore) d n, jw = (entries (state e), export_state e, true, calm d) ∧
      Cadence (Z.max interval 1) n e d ∧ prefix_consistent (entries (state e)) exp = true
  else
    ∃ (e : Engine KvStore) d, jw = (fin, export_state e, false, calm d) ∧ entries (state e) = fin ∧
      wf_image U32_MAX (image e).

Section CrashRun.
Context (cs : list Z) (ops keys interval crash_after : Z) (victim : nat) (xs1 xs2 : list (Timestamp * Op)).
Context (Hnd : NoDup cs) (Hcs : Forall is_u32 cs) (Hkeys : 1 <= keys <= I64_MAX) (Hops : 1 <= ops) (Hne : 1 <= len cs)
  (Hbudget : 4 + 48 * (len cs * ops) <= U32_MAX) (HT : total_order ops keys cs (xs1 ++ xs2).*2)
  (Hca : 1 <= crash_after <= len xs1).

Lemma crash_threads (reps : list ReplicaInput) :
  (∀ i r, reps !! i = Some r → if decide (i = victim) then follows_victim xs1 r else follows (xs1 ++ xs2) r) →
  ∃ rs, mapM (λ ir : nat * ReplicaInput,
      match crash_replica am as_nanos (bool_decide (ir.1 = victim)) (ops * len cs) crash_after interval
              (in_polls ir.2) (in_drain ir.2) (in_world ir.2) with
      | (Ok (Some r), w) => Some (r, w)
      | _ => None
      end) (imap pair reps) = Some rs ∧
    Forall2 (joined_as interval (touched_state ops keys (len cs)) (expected_state (len cs) ops keys) victim)
      (imap pair reps) rs.
Proof.
  intros Hreps. apply mapM_related. intros [i r] (i' & r' & [= <- <-] & Hi)%elem_of_lookup_imap.
  specialize (Hreps i r Hi). unfold joined_as. rewrite (Z.mul_comm ops). cbn [fst snd]. case_decide as Hiv.
  - destruct Hreps as (Hw & Hcat & Hel). rewrite bool_decide_true, Hw by done.
    destruct (crash_replica_victim am as_nanos cs ops keys Hnd Hcs Hkeys Hops Hne Hbudget Hns xs1 xs2 (in_polls r)
      crash_after (in_drain r) interval HT Hcat Hel Hca) as (e & d & n & -> & HC & Hp). eauto 10.
  - destruct Hreps as (Hw & Hcat & Hel & Hd). rewrite bool_decide_false, Hw by done.
    destruct (crash_replica_survivor am as_nanos cs ops keys Hnd Hcs Hkeys Hops Hne Hbudget Hns (xs1 ++ xs2) crash_after
      (in_polls r) (in_drain r) interval HT Hcat Hel Hd) as (e & d & -> & He & Hwf). eauto 10.
Qed.
End CrashRun.

(** Joining them finds a survivor and the victim's prefix. *)
Lemma crash_collected interval fin exp victim reps rs :
  Forall2 (joined_as interval fin exp victim) (imap pair reps) rs → (victim < length reps)%nat → (2 <= length reps)%nat →
  ∃ (e : Engine KvStore) prefix, fold_left collect rs.*1 (None, []) = (Some (fin, export_state e), prefix) ∧
    entries (state e) = fin ∧ wf_image U32_MAX (image e) ∧ prefix_consistent prefix exp = true.
Proof.
  intros HR Hv H2. destruct (collect_cases rs.*1 (None, [])) as [Hs Hp].
  assert (Hin : ∀ j, j ∈ rs.*1 → ∃ ir w, joined_as interval fin exp victim ir (j, w)).
  { intros j ([j' w] & -> & Hw)%list_elem_of_fmap. apply list_elem_of_lookup in Hw as [i Hi].
    destruct (Forall2_lookup_r _ _ _ _ _ HR Hi) as (ir & _ & H). eauto. }
  destruct (fold_left collect rs.*1 (None, [])) as [[x|] prefix]; cbn [fst snd] in Hs, Hp.
  - destruct Hs as [Hs|Hs]; [done|]. destruct (Hin _ Hs) as (ir & w & Hj). unfold joined_as in Hj.
    case_decide; [by destruct Hj as (? & ? & ? & ? & _)|]. destruct Hj as (e & d & [= -> ->] & He & Hwf).
    exists e, prefix. split_and!; [done..|]. destruct Hp as [->|(b & Hb)]; [done|].
    destruct (Hin _ Hb) as (ir' & w' & Hj). unfold joined_as in Hj.
    case_decide; [|by destruct Hj as (? & ? & ? & _)]. by destruct Hj as (e' & d' & n & [= -> _ _] & _ & Hpc).
  - exfalso. destruct Hs as [_ Hall]. rewrite Forall_forall in Hall.
    set (i := if decide (victim = 0)%nat then 1%nat else 0%nat).
    assert (Hi : (i < length (imap pair reps))%nat ∧ i ≠ victim).
    { rewrite length_imap. unfold i. case_decide; lia. }
    destruct Hi as [Hi Hiv]. apply lookup_lt_is_Some in Hi as [ir Hi].
    destruct (Forall2_lookup_l _ _ _ _ _ HR Hi) as ([j w] & Hj & HJ).
    assert (Hir : ir.1 = i) by (rewrite list_lookup_imap in Hi; destruct (reps !! i); [by injection Hi as <-|done]).
    unfold joined_as in HJ. rewrite Hir, decide_False in HJ by done. destruct HJ as (e & d & [= -> _] & _).
    specialize (Hall (fin, export_state e, false)). cbn in Hall.
    apply diff_false_true, Hall, list_elem_of_fmap. eexists (_, w). split; [done|]. by eapply list_elem_of_lookup_2.
Qed.

(** A crash run recovers. The victim stops inside a prefix of the order while every
    other replica gets all of it; then a survivor holds every key that was incremented,
    with its expected sum, the victim's state is consistent with that (no key ahead),
    and after recovering its own directory and importing the survivor's export the
    victim holds exactly what the survivor holds. The report calls the survivor correct,
    and the recovery successful, when no key is left untouched. *)
Lemma crashed_replica_catches_up replicas clients ops keys interval victim crash_after xs1 xs2 reps :
  2 <= replicas → 1 <= clients → replicas + clients <= U32_MAX → 1 <= keys <= I64_MAX → 1 <= ops →
  4 + 48 * (clients * ops) <= U32_MAX → len reps = replicas →
  total_order ops keys (seqZ replicas clients) (xs1 ++ xs2).*2 →
  (victim < length reps)%nat → 1 <= crash_after <= len xs1 →
  (∀ i r, reps !! i = Some r → if decide (i = victim) then follows_victim xs1 r else follows (xs1 ++ xs2) r) →
  ∃ report, run_cluster_with_crash am as_nanos (mkCfg replicas clients ops keys interval) victim crash_after reps = Some report ∧
    survivor_state report = touched_state ops keys clients ∧
    victim_caught_up report = touched_state ops keys clients ∧ victim_prefix_consistent report = true ∧
    survivor_correct report = (keys <=? ops) ∧ recovered_ok report = (keys <=? ops).
Proof.
  intros Hr Hc Hid Hk Ho HB Hlr HT Hv Hca Hreps.
  set (exp := expected_state clients ops keys). set (fin := touched_state ops keys clients).
  assert (Hlen : len (seqZ replicas clients) = clients) by (rewrite length_seqZ; lia).
  assert (Hid' : Forall is_u32 (seqZ replicas clients)).
  { apply Forall_forall. intros c Hin%elem_of_seqZ. width_lia. }
  destruct (crash_threads (seqZ replicas clients) ops keys interval crash_after victim xs1 xs2 (NoDup_seqZ _ _) Hid'
    Hk Ho ltac:(lia) ltac:(by rewrite Hlen) HT Hca reps Hreps) as (rs & Em & HR).
  rewrite Hlen in Em, HR. fold exp fin in HR.
  destruct (crash_collected interval fin exp victim reps rs HR Hv ltac:(lia)) as (e & prefix & Ef & He & Hwf & Hp).
  unfold run_cluster_with_crash.
  cbn [Cluster.replicas Cluster.clients Cluster.keys ops_per_client snap_interval].
  rewrite (proj2 (Z.eqb_eq _ _) Hlr), usize_arith_in by by eapply workload_u64. cbn [negb mbind option_bind].
  setoid_rewrite Em. cbn [mbind option_bind]. rewrite Ef. fold exp.
  assert (Hl : (victim < length (imap pair reps))%nat) by by rewrite length_imap.
  apply lookup_lt_is_Some in Hl as [ir Hi]. destruct (Forall2_lookup_l _ _ _ _ _ HR Hi) as ([j w] & Hj & HJ).
  assert (Hir : ir.1 = victim) by (rewrite list_lookup_imap in Hi; destruct (reps !! victim); [by injection Hi as <-|done]).
  unfold joined_as in HJ. rewrite decide_True in HJ by done. destruct HJ as (ev & d & n & [= -> ->] & HC & _).
  rewrite Hj. destruct (catch_up_calm am U32_MAX _ n ev d e interval HC Hwf ltac:(done)) as (d' & Ec).
  cbn [mbind option_bind]. rewrite Ec, He. eexists. split; [reflexivity|]. cbn.
  rewrite (bool_decide_true (fin = fin)) by done. cbn [andb].
  assert (Hok : bool_decide (fin = exp) = (keys <=? ops)); [|by rewrite Hok].
  apply eq_true_iff_eq. rewrite bool_decide_eq_true, Z.leb_le. by apply (touched_expected ops keys Hk clients); lia.
Qed.

End Guarantees.

(** A clock for the witnesses. *)
Definition ns_w (z : Z) : Z := z mod 2 ^ 64.
Lemma ns_w_u64 z : is_u64 (ns_w z).
Proof. unfold ns_w. pose proof (Z.mod_pos_bound z (2 ^ 64)). width_lia. Qed.
