(* ===== verification/FabricSpec.v ===== *)
(** * FabricSpec: the repository's TLA+ specification of the fabric
    ([spec/OnePipeTotalOrder.tla])

    Processes send messages stamped with their clocks; a receiver learns, sender by
    sender, a barrier below which nothing more will arrive, and delivers its smallest
    message below all of them. The specification is a step relation; its properties are
    invariants of every reachable state, for every set of processes and every bound on
    the clocks. Beyond what the specification states: what a receiver has delivered is a
    prefix of the sorted messages, so of any two receivers one is behind the other, and
    every message can still be delivered to everyone. *)

From stdpp Require Import functions.
From S2P Require Import Prelude.
Local Open Scope Z_scope.

(** A message is its timestamp and its sender. *)
Record Msg := mkMsg { m_ts : Z; m_src : Z }.
#[export] Instance Msg_eq_dec : EqDecision Msg.
Proof. solve_decision. Defined.
#[export] Instance Msg_countable : Countable Msg.
Proof. refine (inj_countable' (λ m, (m_ts m, m_src m)) (λ p, mkMsg p.1 p.2) _). by intros []. Defined.

(** The global order: by timestamp, ties by sender. *)
Definition Before (m1 m2 : Msg) : Prop := m_ts m1 < m_ts m2 ∨ (m_ts m1 = m_ts m2 ∧ m_src m1 < m_src m2).
#[export] Instance Before_dec : RelDecision Before.
Proof. intros m1 m2. unfold Before. apply _. Defined.

Record FState := mkF {
  f_clock : Z → Z;
  f_sent : gset Msg;
  f_known : Z → Z → Z;
  f_buffer : Z → gset Msg;
  f_delivered : Z → list Msg }.

Definition f_init : FState := mkF (λ _, 1) ∅ (λ _ _, 0) (λ _, ∅) (λ _, []).

Inductive FAction := ASend (p : Z) | ATick (p : Z) | AReceive (r : Z) (m : Msg)
  | ALearnBarrier (r s : Z) | ADeliver (r : Z) (m : Msg).

Section Spec.
Context (Procs : gset Z) (MaxTs : Z).

(** The least of [known[r][s]] over the senders; [Procs] is not empty where it is used. *)
Definition Barrier (t : FState) (r : Z) : Z :=
  match map (f_known t r) (elements Procs) with
  | [] => 0
  | v :: vs => fold_left Z.min vs v
  end.

(** The guard of each action. *)
Definition enabled (a : FAction) (t : FState) : Prop :=
  match a with
  | ASend p | ATick p => p ∈ Procs ∧ f_clock t p <= MaxTs
  | AReceive r m => r ∈ Procs ∧ m ∈ f_sent t ∧ (m ∉ f_buffer t r) ∧ m ∉ f_delivered t r
  | ALearnBarrier r s =>
      r ∈ Procs ∧ s ∈ Procs ∧ f_known t r s < f_clock t s ∧
      set_Forall (λ m, m_src m = s ∧ m_ts m < f_clock t s → m ∈ f_buffer t r ∨ m ∈ f_delivered t r) (f_sent t)
  | ADeliver r m =>
      r ∈ Procs ∧ m ∈ f_buffer t r ∧ m_ts m < Barrier t r ∧
      set_Forall (λ m2, m2 ≠ m → Before m m2) (f_buffer t r)
  end.
#[export] Instance enabled_dec a t : Decision (enabled a t).
Proof. destruct a; cbn; apply _. Defined.

(** What each action changes. *)
Definition fire (a : FAction) (t : FState) : FState :=
  match a with
  | ASend p =>
      mkF (<[p := f_clock t p + 1]> (f_clock t)) (f_sent t ∪ {[mkMsg (f_clock t p) p]})
        (f_known t) (f_buffer t) (f_delivered t)
  | ATick p =>
      mkF (<[p := f_clock t p + 1]> (f_clock t)) (f_sent t) (f_known t) (f_buffer t) (f_delivered t)
  | AReceive r m =>
      mkF (f_clock t) (f_sent t) (f_known t) (<[r := f_buffer t r ∪ {[m]}]> (f_buffer t)) (f_delivered t)
  | ALearnBarrier r s =>
      mkF (f_clock t) (f_sent t) (<[r := <[s := f_clock t s]> (f_known t r)]> (f_known t))
        (f_buffer t) (f_delivered t)
  | ADeliver r m =>
      mkF (f_clock t) (f_sent t) (f_known t) (<[r := f_buffer t r ∖ {[m]}]> (f_buffer t))
        (<[r := f_delivered t r ++ [m]]> (f_delivered t))
  end.

(** [Next] *)
Inductive f_step : FState → FState → Prop :=
  | f_act a t : enabled a t → f_step t (fire a t).

(** A sequence of actions, each enabled when it is taken. *)
Fixpoint f_run (acts : list FAction) (t : FState) : option FState :=
  match acts with
  | [] => Some t
  | a :: acts => if decide (enabled a t) then f_run acts (fire a t) else None
  end.

(** The properties of the specification. *)
Definition is_Msg (m : Msg) : Prop := 1 <= m_ts m <= MaxTs ∧ m_src m ∈ Procs.
Definition F_TypeOK (t : FState) : Prop :=
  (∀ p, p ∈ Procs → 1 <= f_clock t p <= MaxTs + 1) ∧
  set_Forall is_Msg (f_sent t) ∧
  (∀ r s, r ∈ Procs → s ∈ Procs → 0 <= f_known t r s <= MaxTs + 1) ∧
  (∀ r, r ∈ Procs → set_Forall is_Msg (f_buffer t r)) ∧
  (∀ r, r ∈ Procs → Forall is_Msg (f_delivered t r)).
Definition F_Sorted (t : FState) : Prop :=
  ∀ r i j mi mj, r ∈ Procs → f_delivered t r !! i = Some mi → f_delivered t r !! j = Some mj →
    (i < j)%nat → Before mi mj.
Definition DownwardClosed (t : FState) : Prop :=
  ∀ r m dm, r ∈ Procs → m ∈ f_sent t → m ∉ f_delivered t r → dm ∈ f_delivered t r → ~ Before m dm.
Definition Consistent (t : FState) : Prop := F_Sorted t ∧ DownwardClosed t.
Definition Causality (t : FState) : Prop :=
  ∀ r m, r ∈ Procs → m ∈ f_delivered t r → m_ts m < f_clock t r.
Definition AgreeOrder (t : FState) : Prop :=
  ∀ r1 r2 m1 m2, r1 ∈ Procs → r2 ∈ Procs →
    m1 ∈ f_delivered t r1 → m1 ∈ f_delivered t r2 → m2 ∈ f_delivered t r1 → m2 ∈ f_delivered t r2 →
    Before m1 m2 →
    ~ ∃ i j, f_delivered t r2 !! i = Some m2 ∧ f_delivered t r2 !! j = Some m1 ∧ (i < j)%nat.

(** The one global order: everything sent, sorted. *)
Definition msg_le (m1 m2 : Msg) : Prop := Before m1 m2 ∨ m1 = m2.
#[export] Instance msg_le_dec : RelDecision msg_le.
Proof. intros m1 m2. unfold msg_le. apply _. Defined.
Definition global_order (t : FState) : list Msg := merge_sort msg_le (elements (f_sent t)).
End Spec.

(** ** The order *)

#[export] Instance Before_trans : Transitive Before.
Proof. intros m1 m2 m3. unfold Before. lia. Qed.
#[export] Instance Before_irrefl : Irreflexive Before.
Proof. intros m. unfold complement, Before. lia. Qed.

Lemma Before_total m1 m2 : Before m1 m2 ∨ m1 = m2 ∨ Before m2 m1.
Proof.
  destruct m1 as [t1 s1], m2 as [t2 s2]. unfold Before. cbn.
  destruct (decide (t1 = t2)) as [->|], (decide (s1 = s2)) as [->|]; [by right; left|lia..].
Qed.

#[export] Instance msg_le_trans : Transitive msg_le.
Proof. intros m1 m2 m3 [H12| ->] [H23| <-]; [left; by etrans|left; done..|by right]. Qed.
#[export] Instance msg_le_total : Total msg_le.
Proof. intros m1 m2. unfold msg_le. destruct (Before_total m1 m2) as [|[->|]]; auto. Qed.
#[export] Instance msg_le_antisymm : AntiSymm (=) msg_le.
Proof.
  intros m1 m2 [H12|?] [H21|?]; try done. destruct (irreflexivity Before m1). by etrans.
Qed.

Lemma sorted_before l : StronglySorted Before l → NoDup l ∧ StronglySorted msg_le l.
Proof.
  induction 1 as [|m l _ [Hnd Hs] Hm]; [split; constructor|]. split; constructor; try done.
  - intros Hin. rewrite Forall_forall in Hm. destruct (irreflexivity Before m). by apply Hm.
  - eapply Forall_impl; [exact Hm|]. by left.
Qed.

(** A sorted list that leaves out nothing ordered before its elements is a prefix of the
    sorted whole. *)
Lemma sorted_prefix (X : gset Msg) l :
  StronglySorted Before l → (∀ m, m ∈ l → m ∈ X) →
  (∀ m dm, m ∈ X → m ∉ l → dm ∈ l → ~ Before m dm) → l `prefix_of` merge_sort msg_le (elements X).
Proof.
  intros Hs Hin Hd. set (rest := merge_sort msg_le (elements (X ∖ list_to_set l))).
  assert (Hrest : ∀ m, m ∈ rest ↔ m ∈ X ∧ m ∉ l).
  { intros m. unfold rest. rewrite merge_sort_Permutation, elem_of_elements. set_solver. }
  apply sorted_before in Hs as [Hnd Hs].
  exists rest. symmetry. apply (StronglySorted_unique msg_le).
  - apply StronglySorted_app. split_and!.
    + intros m dm Hm [Hx Hn]%Hrest. specialize (Hd dm m Hx Hn Hm).
      destruct (Before_total m dm) as [|[->|]]; [by left|by right|done].
    + done.
    + apply StronglySorted_merge_sort; apply _.
  - apply StronglySorted_merge_sort; apply _.
  - rewrite (merge_sort_Permutation msg_le (elements X)). apply NoDup_Permutation.
    + apply NoDup_app. split_and!; [done|by intros m Hm [_ Hn]%Hrest|]. unfold rest. rewrite merge_sort_Permutation. apply NoDup_elements.
    + apply NoDup_elements.
    + intros m. rewrite elem_of_app, Hrest, elem_of_elements.
      destruct (decide (m ∈ l)); [|tauto]. split; [auto|by left].
Qed.

Lemma global_sorted t : StronglySorted Before (global_order t).
Proof.
  unfold global_order. set (l := merge_sort msg_le _).
  assert (Hs : StronglySorted msg_le l) by (apply StronglySorted_merge_sort; apply _).
  assert (Hnd : NoDup l) by (unfold l; rewrite merge_sort_Permutation; apply NoDup_elements).
  clearbody l. induction Hs as [|m l _ IH Hm]; [constructor|]. apply NoDup_cons in Hnd as [Hn Hnd].
  constructor; [by apply IH|]. rewrite Forall_forall in Hm |- *. intros m' Hin. by destruct (Hm m' Hin) as [|<-].
Qed.

(** ** The inductive invariant *)

Section Invariant.
Context (Procs : gset Z) (MaxTs : Z).
Implicit Types t : FState.

Lemma fold_min_le (vs : list Z) v x : x = v ∨ x ∈ vs → fold_left Z.min vs v <= x.
Proof.
  revert v x; induction vs as [|y vs IH]; intros v x; cbn.
  - intros [->|?%elem_of_nil]; [done|done].
  - intros [->|[->|Hx]%elem_of_cons].
    + transitivity (Z.min v y); [apply IH; by left|lia].
    + transitivity (Z.min v y); [apply IH; by left|lia].
    + apply IH. by right.
Qed.

Lemma Barrier_le t r s : s ∈ Procs → Barrier Procs t r <= f_known t r s.
Proof.
  intros Hs%elem_of_elements. unfold Barrier.
  assert (Hin : f_known t r s ∈ map (f_known t r) (elements Procs)) by (apply list_elem_of_fmap; eauto).
  destruct (map _ _) as [|v vs]; [by apply elem_of_nil in Hin|]. by apply fold_min_le, elem_of_cons.
Qed.

Lemma Barrier_const t r k :
  r ∈ Procs → (∀ s, s ∈ Procs → f_known t r s = k) → Barrier Procs t r = k.
Proof.
  intros Hr%elem_of_elements Hk. unfold Barrier.
  assert (Hin : ∀ x, x ∈ map (f_known t r) (elements Procs) → x = k).
  { intros x (s & -> & Hs%elem_of_elements)%list_elem_of_fmap. by apply Hk. }
  assert (Hne : map (f_known t r) (elements Procs) ≠ []) by (intros E%fmap_nil_inv; by rewrite E in Hr; apply elem_of_nil in Hr).
  destruct (map _ _) as [|v vs]; [done|]. clear Hne Hr Hk. rewrite (Hin v) by left.
  induction vs as [|x vs IH]; [done|]. cbn. rewrite (Hin x) by (right; left). rewrite Z.min_id. apply IH.
  intros y [->|Hy]%elem_of_cons; apply Hin; [left|by right; right].
Qed.

(** What holds of one receiver: nothing it has delivered can be overtaken. *)
Record receiver_inv t (r : Z) : Prop := {
  ri_buffer : f_buffer t r ⊆ f_sent t;
  ri_delivered : ∀ m, m ∈ f_delivered t r → m ∈ f_sent t;
  ri_known : ∀ s, s ∈ Procs → 0 <= f_known t r s <= f_clock t s;
  ri_fifo : ∀ m, m ∈ f_sent t → m_ts m < f_known t r (m_src m) → m ∈ f_buffer t r ∨ m ∈ f_delivered t r;
  ri_below : ∀ m s, m ∈ f_delivered t r → s ∈ Procs → m_ts m < f_known t r s;
  ri_after : ∀ m dm, m ∈ f_buffer t r → dm ∈ f_delivered t r → Before dm m;
  ri_sorted : StronglySorted Before (f_delivered t r);
}.

Record f_inv t : Prop := {
  fi_clock : ∀ p, p ∈ Procs → 1 <= f_clock t p <= MaxTs + 1;
  fi_sent : ∀ m, m ∈ f_sent t → m_src m ∈ Procs ∧ 1 <= m_ts m < f_clock t (m_src m);
  fi_receiver : ∀ r, r ∈ Procs → receiver_inv t r;
}.

Lemma f_inv_init : 1 <= MaxTs → f_inv f_init.
Proof.
  intros HM. split; cbn; [lia|set_solver|]. intros r _. split; cbn; try set_solver; [lia|constructor].
Qed.

Lemma fn_insert_case {A} (f : Z → A) a b x : <[a := x]> f b = if decide (a = b) then x else f b.
Proof. case_decide as E; [subst; apply fn_lookup_insert|by apply fn_lookup_insert_ne]. Qed.

(** Sending and ticking: clocks advance, and what is new is at or above the old clocks. *)
Lemma receiver_grow t t' r :
  f_buffer t' = f_buffer t → f_delivered t' = f_delivered t → f_known t' = f_known t →
  f_sent t ⊆ f_sent t' → (∀ p, f_clock t p <= f_clock t' p) →
  (∀ m, m ∈ f_sent t' → m ∈ f_sent t ∨ m_src m ∈ Procs ∧ f_clock t (m_src m) <= m_ts m) →
  receiver_inv t r → receiver_inv t' r.
Proof.
  intros Eb Ed Ek Hs Hc Hn [H1 H2 H3 H4 H5 H6 H7]. split; rewrite ?Eb, ?Ed, ?Ek; try done.
  - by etrans.
  - intros m Hm. by apply Hs, H2.
  - intros s Hp. specialize (H3 s Hp). specialize (Hc s). lia.
  - intros m [Hm|[Hp Hle]]%Hn Hlt; [by apply H4|]. specialize (H3 _ Hp). lia.
Qed.

Lemma send_inv p t : p ∈ Procs → f_clock t p <= MaxTs → f_inv t → f_inv (fire (ASend p) t).
Proof.
  intros Hp Hc [Hk Hm Hr].
  assert (Hmono : ∀ q, f_clock t q <= <[p := f_clock t p + 1]> (f_clock t) q)
    by (intros q; rewrite fn_insert_case; case_decide; [subst|]; lia).
  split; cbn.
  - intros q Hq. rewrite fn_insert_case. specialize (Hk q Hq). case_decide; [subst|]; lia.
  - intros m [Hin| ->%elem_of_singleton]%elem_of_union.
    + apply Hm in Hin as [? ?]. split; [done|]. specialize (Hmono (m_src m)). lia.
    + cbn. split; [done|]. rewrite fn_lookup_insert. specialize (Hk p Hp). lia.
  - intros r Hin. eapply receiver_grow; [..|exact (Hr r Hin)]; try done; cbn; [apply union_subseteq_l|].
    intros m [?| ->%elem_of_singleton]%elem_of_union; [by left|by right].
Qed.

Lemma tick_inv p t : p ∈ Procs → f_clock t p <= MaxTs → f_inv t → f_inv (fire (ATick p) t).
Proof.
  intros Hp Hc [Hk Hm Hr].
  assert (Hmono : ∀ q, f_clock t q <= <[p := f_clock t p + 1]> (f_clock t) q)
    by (intros q; rewrite fn_insert_case; case_decide; [subst|]; lia).
  split; cbn.
  - intros q Hq. rewrite fn_insert_case. specialize (Hk q Hq). case_decide; [subst|]; lia.
  - intros m Hin. apply Hm in Hin as [? ?]. split; [done|]. specialize (Hmono (m_src m)). lia.
  - intros r Hin. eapply receiver_grow; [..|exact (Hr r Hin)]; try done; cbn; [auto].
Qed.

(** An action of receiver [q] leaves the others as they were. *)
Lemma receiver_other t t' r :
  f_clock t' = f_clock t → f_sent t' = f_sent t → f_known t' r = f_known t r →
  f_buffer t' r = f_buffer t r → f_delivered t' r = f_delivered t r → receiver_inv t r → receiver_inv t' r.
Proof. intros Ec Es Ek Eb Ed [H1 H2 H3 H4 H5 H6 H7]. split; rewrite ?Ec, ?Es, ?Ek, ?Eb, ?Ed; done. Qed.

Lemma receive_inv r m t : enabled Procs MaxTs (AReceive r m) t → f_inv t → f_inv (fire (AReceive r m) t).
Proof.
  intros (Hr & Hs & Hnb & Hnd) [Hk Hm Hq]. split; [done..|]. intros q Hin. destruct (decide (r = q)) as [<-|Hne].
  - destruct (Hq r Hr) as [H1 H2 H3 H4 H5 H6 H7].
    split; cbn; rewrite ?fn_lookup_insert; try done.
    + apply union_subseteq. split; [done|]. by apply singleton_subseteq_l.
    + intros m' Hm' Hlt. destruct (H4 m' Hm' Hlt); [left; by apply elem_of_union_l|by right].
    + intros m' dm [Hb| ->%elem_of_singleton]%elem_of_union Hd; [by apply H6|].
      left. specialize (H5 dm (m_src m) Hd (proj1 (Hm m Hs))).
      destruct (Z.lt_ge_cases (m_ts m) (f_known t r (m_src m))) as [Hlt|]; [|lia].
      by destruct (H4 m Hs Hlt).
  - eapply receiver_other; [..|exact (Hq q Hin)]; cbn; rewrite ?fn_lookup_insert_ne by done; done.
Qed.

Lemma learn_inv r s t : enabled Procs MaxTs (ALearnBarrier r s) t → f_inv t → f_inv (fire (ALearnBarrier r s) t).
Proof.
  intros (Hr & Hs & Hlt & Hgate) [Hk Hm Hq]. split; [done..|]. intros q Hin. destruct (decide (r = q)) as [<-|Hne].
  - destruct (Hq r Hr) as [H1 H2 H3 H4 H5 H6 H7].
    split; cbn; rewrite ?fn_lookup_insert; try done.
    + intros s' Hs'. rewrite fn_insert_case. specialize (H3 s' Hs'). case_decide; [subst|]; lia.
    + intros m Hin' Hl. rewrite fn_insert_case in Hl. case_decide as Hd; [|by apply H4].
      by apply (Hgate m Hin').
    + intros m s' Hd Hs'. rewrite fn_insert_case. specialize (H5 m s' Hd Hs'). case_decide; [subst|]; lia.
  - eapply receiver_other; [..|exact (Hq q Hin)]; cbn; rewrite ?fn_lookup_insert_ne by done; done.
Qed.

Lemma deliver_inv r m t : enabled Procs MaxTs (ADeliver r m) t → f_inv t → f_inv (fire (ADeliver r m) t).
Proof.
  intros (Hr & Hb & Hlt & Hmin) [Hk Hm Hq]. split; [done..|]. intros q Hin. destruct (decide (r = q)) as [<-|Hne].
  - destruct (Hq r Hr) as [H1 H2 H3 H4 H5 H6 H7].
    split; cbn; rewrite ?fn_lookup_insert; try done.
    + intros m' [? _]%elem_of_difference. by apply H1.
    + intros m' [?| ->%list_elem_of_singleton]%elem_of_app; auto.
    + intros m' Hm' Hl. rewrite elem_of_app, list_elem_of_singleton, elem_of_difference, elem_of_singleton.
      destruct (decide (m' = m)); [auto|]. destruct (H4 m' Hm' Hl); auto.
    + intros m' s [Hd| ->%list_elem_of_singleton]%elem_of_app Hs; [by apply H5|].
      pose proof (Barrier_le t r s Hs). lia.
    + intros m' dm [Hb' Hn%not_elem_of_singleton]%elem_of_difference [Hd| ->%list_elem_of_singleton]%elem_of_app;
        [by apply H6|by apply Hmin].
    + apply StronglySorted_app. split_and!; [|done|repeat constructor].
      intros dm m' Hd ->%list_elem_of_singleton. by apply H6.
  - eapply receiver_other; [..|exact (Hq q Hin)]; cbn; rewrite ?fn_lookup_insert_ne by done; done.
Qed.

Lemma f_inv_step t t' : f_step Procs MaxTs t t' → f_inv t → f_inv t'.
Proof.
  intros [a t0 He]. destruct a as [p|p|r m|r s|r m];
    [destruct He; by apply send_inv|destruct He; by apply tick_inv
    |by apply receive_inv|by apply learn_inv|by apply deliver_inv].
Qed.

Lemma f_inv_steps t t' : rtc (f_step Procs MaxTs) t t' → f_inv t → f_inv t'.
Proof. induction 1 as [|t0 t1 t' Hs _ IH]; [done|]. intros Hi. by apply IH, (f_inv_step t0). Qed.

(** ** Consequences *)

Lemma f_inv_closed t : f_inv t → DownwardClosed Procs t.
Proof.
  intros [_ Hm Hq] r m dm Hr Hs Hn Hd HB. destruct (Hq r Hr) as [_ _ _ H4 H5 H6 _].
  specialize (H5 dm (m_src m) Hd (proj1 (Hm m Hs))).
  assert (m_ts m < f_known t r (m_src m)) as Hlt by (unfold Before in HB; lia).
  destruct (H4 m Hs Hlt) as [Hb|]; [|done]. specialize (H6 m dm Hb Hd).
  destruct (irreflexivity Before m). by etrans.
Qed.

(** What a receiver has delivered is a prefix of the global order. *)
Lemma delivered_prefix t r : f_inv t → r ∈ Procs → f_delivered t r `prefix_of` global_order t.
Proof.
  intros Hi Hr. pose proof (f_inv_closed t Hi) as Hd. destruct (fi_receiver _ Hi r Hr) as [_ H2 _ _ _ _ H7].
  apply sorted_prefix; [done..|]. intros m dm Hs Hn Hin. by apply (Hd r).
Qed.

Lemma sorted_lookup l i j (mi mj : Msg) :
  StronglySorted Before l → l !! i = Some mi → l !! j = Some mj → (i < j)%nat → Before mi mj.
Proof.
  intros Hs; revert i j; induction Hs as [|m l Hs IH Hm]; intros [|i] [|j] Hi Hj Hlt; try done; try lia; cbn in *.
  - simplify_eq. rewrite Forall_forall in Hm. apply Hm. by eapply list_elem_of_lookup_2.
  - apply (IH i j); [done..|lia].
Qed.

Lemma f_inv_sorted t : f_inv t → F_Sorted Procs t.
Proof. intros Hi r i j mi mj Hr. apply sorted_lookup, (fi_receiver _ Hi r Hr). Qed.

Lemma f_inv_types t : f_inv t → F_TypeOK Procs MaxTs t.
Proof.
  intros [Hk Hm Hq].
  assert (Hty : ∀ m, m ∈ f_sent t → is_Msg Procs MaxTs m).
  { intros m [Hp Ht]%Hm. split; [|done]. specialize (Hk _ Hp). lia. }
  split_and!; [done|done|..].
  - intros r s Hr Hs. specialize (Hk s Hs). pose proof (ri_known _ _ (Hq r Hr) s Hs). lia.
  - intros r Hr m Hin. by apply Hty, (ri_buffer _ _ (Hq r Hr)).
  - intros r Hr. apply Forall_forall. intros m Hin. by apply Hty, (ri_delivered _ _ (Hq r Hr)).
Qed.

(** ** Everything can be delivered *)

(** Reach a state in which every element of a list has been served, one at a time. *)
Lemma serve_all {A} (I : FState → Prop) (Q : A → FState → Prop) (l : list A) :
  (∀ t x, x ∈ l → I t → ∃ t', rtc (f_step Procs MaxTs) t t' ∧ I t' ∧ Q x t' ∧ ∀ y, Q y t → Q y t') →
  ∀ t, I t → ∃ t', rtc (f_step Procs MaxTs) t t' ∧ I t' ∧ ∀ x, x ∈ l → Q x t'.
Proof.
  intros Hone. assert (Hall : ∀ l1 l2, l = l1 ++ l2 → ∀ t, I t → (∀ x, x ∈ l1 → Q x t) →
    ∃ t', rtc (f_step Procs MaxTs) t t' ∧ I t' ∧ ∀ x, x ∈ l → Q x t').
  { intros l1 l2; revert l1; induction l2 as [|x l2 IH]; intros l1 -> t HI HQ.
    { exists t. rewrite app_nil_r. by split. }
    destruct (Hone t x) as (t1 & Hs1 & HI1 & Hx & Hk); [apply elem_of_app; right; left|done|].
    destruct (IH (l1 ++ [x]) ltac:(by rewrite <- app_assoc) t1 HI1) as (t2 & Hs2 & HI2 & HQ2).
    { intros y [Hy| ->%list_elem_of_singleton]%elem_of_app; [by apply Hk, HQ|done]. }
    exists t2. split; [by etrans|done]. }
  intros t HI. apply (Hall [] l eq_refl t HI). intros x Hx. by apply elem_of_nil in Hx.
Qed.

(** The stages: clocks at their bound, everything received, every barrier learnt. *)
Section Stages.
Context (X : gset Msg).
Definition stage0 t : Prop := f_inv t ∧ f_sent t = X.
Definition ticked (p : Z) t : Prop := f_clock t p = MaxTs + 1.
Definition stage1 t : Prop := stage0 t ∧ ∀ p, p ∈ elements Procs → ticked p t.
Definition received (rm : Z * Msg) t : Prop := rm.2 ∈ f_buffer t rm.1 ∨ rm.2 ∈ f_delivered t rm.1.
Definition stage2 t : Prop := stage1 t ∧ ∀ rm, rm ∈ list_prod (elements Procs) (elements X) → received rm t.
Definition learnt (rs : Z * Z) t : Prop := f_known t rs.1 rs.2 = MaxTs + 1.
Definition stage3 t : Prop := stage2 t ∧ ∀ rs, rs ∈ list_prod (elements Procs) (elements Procs) → learnt rs t.

Lemma act_once a t : enabled Procs MaxTs a t → f_inv t → rtc (f_step Procs MaxTs) t (fire a t) ∧ f_inv (fire a t).
Proof. intros He Hi. split; [by apply rtc_once|]. by eapply f_inv_step. Qed.

Lemma tick_all t : stage0 t → ∃ t', rtc (f_step Procs MaxTs) t t' ∧ stage1 t'.
Proof.
  apply (serve_all stage0 ticked). clear t. intros t p Hp%elem_of_elements [Hi HX].
  remember (Z.to_nat (MaxTs + 1 - f_clock t p)) as n eqn:En. revert t En Hi HX.
  induction n as [|n IH]; intros t En Hi HX; pose proof (fi_clock _ Hi p Hp) as Hc.
  { exists t. split_and!; try done. unfold ticked. lia. }
  destruct (act_once (ATick p) t) as [Hs Hi']; [split; [done|lia]|done|].
  destruct (IH (fire (ATick p) t)) as (t' & Hr & HI & HQ & Hk); try done.
  { cbn. rewrite fn_lookup_insert. lia. }
  exists t'. split; [by etrans|]. split; [done|]. split; [done|].
  intros y Hy. destruct (decide (p = y)) as [<-|Hne]; [done|]. apply Hk. unfold ticked in *. cbn.
  by rewrite fn_lookup_insert_ne.
Qed.

Lemma receive_all t : stage1 t → ∃ t', rtc (f_step Procs MaxTs) t t' ∧ stage2 t'.
Proof.
  apply (serve_all stage1 received). clear t.
  intros t [r m] [Hr%elem_of_elements Hm%elem_of_elements]%elem_of_list_prod [[Hi HX] Ht].
  destruct (decide (received (r, m) t)) as [Hd|Hn]; [exists t; by split_and!|].
  destruct (act_once (AReceive r m) t) as [Hs Hi'];
    [split_and!; [done|by rewrite HX|intros ?; apply Hn; by left|intros ?; apply Hn; by right]|done|].
  exists (fire (AReceive r m) t). split; [done|]. split; [done|]. split.
  - left. cbn. rewrite fn_lookup_insert. apply elem_of_union_r. by apply elem_of_singleton.
  - intros [r' m'] [Hb|Hb]; [left|by right]. cbn in *. rewrite fn_insert_case. case_decide; [subst|done].
    by apply elem_of_union_l.
Qed.

Lemma learn_all t : stage2 t → ∃ t', rtc (f_step Procs MaxTs) t t' ∧ stage3 t'.
Proof.
  apply (serve_all stage2 learnt). clear t.
  intros t [r s] [Hr%elem_of_elements Hs%elem_of_elements]%elem_of_list_prod [[[Hi HX] Ht] Hrec].
  destruct (decide (f_known t r s = MaxTs + 1)) as [Hd|Hn]; [exists t; by split_and!|].
  pose proof (ri_known _ _ (fi_receiver _ Hi r Hr) s Hs) as Hk.
  pose proof (Ht s ltac:(by apply elem_of_elements)) as Hc. unfold ticked in Hc.
  destruct (act_once (ALearnBarrier r s) t) as [Hst Hi'].
  { split_and!; [done..|lia|]. intros m Hm _. apply (Hrec (r, m)), elem_of_list_prod.
    split; apply elem_of_elements; [done|]. by rewrite <- HX. }
  { done. }
  exists (fire (ALearnBarrier r s) t). split; [done|]. split; [done|]. split.
  - unfold learnt. cbn. by rewrite !fn_lookup_insert.
  - intros [r' s'] Hl. unfold learnt in *. cbn in *. rewrite fn_insert_case. case_decide; [subst|done].
    rewrite fn_insert_case. by case_decide.
Qed.
End Stages.

(** With the barriers at their bound a receiver delivers its buffer, smallest first. *)
Lemma deliver_all_buffered X t : stage3 X t →
  ∃ t', rtc (f_step Procs MaxTs) t t' ∧ stage3 X t' ∧ ∀ r, r ∈ elements Procs → f_buffer t' r = ∅.
Proof.
  apply (serve_all (stage3 X) (λ r t, f_buffer t r = ∅)). clear t. intros t r Hr%elem_of_elements.
  remember (size (f_buffer t r)) as n eqn:En. revert t En. induction n as [|n IH]; intros t En H3.
  { exists t. split; [done|]. split; [done|]. split; [|done]. symmetry in En. by apply size_empty_inv, leibniz_equiv in En. }
  assert (Hne : f_buffer t r ≠ ∅) by (intros E; by rewrite E, size_empty in En).
  destruct (minimal_exists_elem_of_L msg_le (f_buffer t r) Hne) as (m & Hm & Hmin).
  destruct H3 as [[[[Hi HX] Ht] Hrec] Hl].
  destruct (act_once (ADeliver r m) t) as [Hst Hi']; [|done|].
  { split_and!; [done..| |].
    - rewrite (Barrier_const t r (MaxTs + 1)) by
        (try done; intros s Hs; apply (Hl (r, s)), elem_of_list_prod; split; by apply elem_of_elements).
      destruct (fi_sent _ Hi m) as [Hp ?]; [by apply (ri_buffer _ _ (fi_receiver _ Hi r Hr))|].
      pose proof (fi_clock _ Hi _ Hp). lia.
    - intros m2 Hin Hn. destruct (Before_total m m2) as [|[->|HB]]; [done..|].
      destruct (Hmin m2 Hin (or_introl HB)) as [|E]; [done|by subst]. }
  destruct (IH (fire (ADeliver r m) t)) as (t' & Hr' & HI & HQ & Hk).
  { cbn. rewrite fn_lookup_insert, size_difference, size_singleton by by apply singleton_subseteq_l. lia. }
  { split; [|done]. split; [done|]. intros [r' m'] Hin. specialize (Hrec _ Hin). unfold received in *. cbn in *.
    rewrite !fn_insert_case. case_decide; [subst r'|done]. destruct Hrec as [Hb|Hd]; [|right; by apply elem_of_app; left].
    destruct (decide (m' = m)) as [->|]; [right; apply elem_of_app; right; left|left; by apply elem_of_difference; rewrite elem_of_singleton]. }
  exists t'. split; [by etrans|]. split; [done|]. split; [done|]. intros y Hy. apply Hk. cbn.
  rewrite fn_insert_case. case_decide; [subst|done]. by rewrite Hy, empty_difference_L.
Qed.

Lemma all_delivered t r :
  f_inv t → r ∈ Procs → (∀ m, m ∈ f_sent t → m ∈ f_delivered t r) → f_delivered t r = global_order t.
Proof.
  intros Hi Hr Hall. pose proof (delivered_prefix t r Hi Hr) as [k Ek].
  assert (Hp : f_delivered t r ≡ₚ global_order t).
  { unfold global_order. rewrite merge_sort_Permutation. pose proof (fi_receiver _ Hi r Hr) as [_ H2 _ _ _ _ H7].
    apply NoDup_Permutation; [by apply sorted_before|apply NoDup_elements|].
    intros m. rewrite elem_of_elements. split; auto. }
  apply Permutation_length in Hp. rewrite Ek, length_app in Hp. destruct k; [by rewrite app_nil_r in Ek|cbn in Hp; lia].
Qed.
End Invariant.

(** C13: The specification of the fabric is safe, for every set of processes and every
    bound on the clocks: in every reachable state the variables have their types, every
    receiver delivers in the global order and leaves out nothing ordered before what it
    has delivered, it delivers a message only after its own clock has passed it, and
    receivers agree on the order of common messages; moreover of any two receivers one
    has delivered a prefix of what the other has. *)
Theorem fabric_safe Procs MaxTs t :
  1 <= MaxTs → rtc (f_step Procs MaxTs) f_init t →
  F_TypeOK Procs MaxTs t ∧ Consistent Procs t ∧ Causality Procs t ∧ AgreeOrder Procs t ∧
  ∀ r1 r2, r1 ∈ Procs → r2 ∈ Procs →
    f_delivered t r1 `prefix_of` f_delivered t r2 ∨ f_delivered t r2 `prefix_of` f_delivered t r1.
Proof.
  intros HM Hr. pose proof (f_inv_steps _ _ _ _ Hr (f_inv_init Procs MaxTs HM)) as Hi.
  pose proof (f_inv_sorted _ _ _ Hi) as Hs.
  split; [by apply f_inv_types|]. split; [split; [done|by eapply f_inv_closed]|]. split; [|split].
  - intros r m Hp Hd. pose proof (fi_receiver _ _ _ Hi r Hp) as [_ _ H3 _ H5 _ _].
    specialize (H5 m r Hd Hp). specialize (H3 r Hp). lia.
  - intros r1 r2 m1 m2 _ H2 _ _ _ _ HB (i & j & Hi2 & Hj & Hlt).
    destruct (irreflexivity Before m1). etrans; [exact HB|]. by apply (Hs r2 i j).
  - intros r1 r2 H1 H2. eapply prefix_weak_total; by eapply delivered_prefix.
Qed.

(** C28: No reachable state of the fabric is stuck: from each of them there is a run in
    which nothing more is sent and which ends with every process having delivered
    everything that was sent, in the global order. *)
Theorem fabric_completes Procs MaxTs t :
  1 <= MaxTs → rtc (f_step Procs MaxTs) f_init t →
  ∃ t', rtc (f_step Procs MaxTs) t t' ∧ f_sent t' = f_sent t ∧
    ∀ r, r ∈ Procs → f_delivered t' r = global_order t.
Proof.
  intros HM Hr. pose proof (f_inv_steps _ _ _ _ Hr (f_inv_init Procs MaxTs HM)) as Hi.
  destruct (tick_all Procs MaxTs (f_sent t) t (conj Hi eq_refl)) as (t1 & R1 & S1).
  destruct (receive_all _ _ _ _ S1) as (t2 & R2 & S2). destruct (learn_all _ _ _ _ S2) as (t3 & R3 & S3).
  destruct (deliver_all_buffered _ _ _ _ S3) as (t' & R4 & [[[[Hi' HX] _] Hrec] _] & Hb).
  exists t'. split; [do 3 (etrans; [eassumption|]); done|]. split; [done|].
  intros r Hp. unfold global_order. rewrite <- HX. eapply all_delivered; [done..|].
  intros m Hm. rewrite HX in Hm. destruct (Hrec (r, m)) as [Hin|]; [|cbn in Hin|done].
  - apply elem_of_list_prod. split; by apply elem_of_elements.
  - by rewrite Hb in Hin by by apply elem_of_elements.
Qed.

(** ** Witnesses: two processes, three messages sent, one delivered *)

Lemma f_run_steps Procs MaxTs acts t :
  (if f_run Procs MaxTs acts t is Some _ then true else false) = true →
  rtc (f_step Procs MaxTs) t (default t (f_run Procs MaxTs acts t)).
Proof.
  destruct (f_run Procs MaxTs acts t) as [t'|] eqn:E; [|done]. intros _. cbn. revert E.
  revert t; induction acts as [|a acts IH]; intros t; cbn; [by intros [= ->]|].
  case_decide as He; [|done]. intros Hr. eapply rtc_l; [by constructor|by apply IH].
Qed.

Definition acts_w : list FAction :=
  [ASend 1; ASend 2; ATick 1; ASend 1; AReceive 2 (mkMsg 1 1); AReceive 2 (mkMsg 1 2); AReceive 2 (mkMsg 3 1);
   ALearnBarrier 2 1; ALearnBarrier 2 2; ADeliver 2 (mkMsg 1 1)].
Definition fabric_w : FState := default f_init (f_run {[1; 2]} 3 acts_w f_init).

Lemma fabric_w_reached : rtc (f_step {[1; 2]} 3) f_init fabric_w.
Proof. apply (f_run_steps _ _ acts_w f_init). by vm_compute. Qed.

Lemma fabric_safe_witness :
  f_delivered fabric_w 2 = [mkMsg 1 1] ∧ F_TypeOK {[1; 2]} 3 fabric_w ∧ Consistent {[1; 2]} fabric_w ∧
  Causality {[1; 2]} fabric_w ∧ AgreeOrder {[1; 2]} fabric_w.
Proof.
  split; [by vm_compute|]. destruct (fabric_safe {[1; 2]} 3 fabric_w) as (H1 & H2 & H3 & H4 & _);
    [lia|exact fabric_w_reached|]. done.
Defined.

Lemma fabric_completes_witness :
  ∃ t', rtc (f_step {[1; 2]} 3) fabric_w t' ∧ f_sent t' = f_sent fabric_w ∧
    f_delivered t' 1 = [mkMsg 1 1; mkMsg 1 2; mkMsg 3 1].
Proof.
  destruct (fabric_completes {[1; 2]} 3 fabric_w) as (t' & Hr & Hs & Hd); [lia|exact fabric_w_reached|].
  exists t'. split; [done|]. split; [done|]. rewrite Hd; [by vm_compute|set_solver].
Defined.
