(* ===== verification/FabricCluster.v ===== *)
(** * FabricCluster: the cluster runs over the specified fabric
    ([crates/onebarrier/src/cluster.rs] on [spec/OnePipeTotalOrder.tla])

    The replicas are the processes [0 .. replicas), the clients those after them. The
    [k]-th message of a client carries the [k]-th payload its thread sends; a replica is
    handed what its process delivers. Every reachable state of the specified fabric then
    meets what the runs rely on: one total order, each client's operations in order. *)

From S2P Require Import Prelude Bytes Text Io State Durable Engine EngineFacts CrashSafety Lifetimes Transfer Cadence Workload Cluster ClusterGuarantees FabricSpec.
Local Open Scope Z_scope.

(** ** Ranks in a sorted list *)

(** How many messages of the same sender precede [m]. *)
Definition rank (X : gset Msg) (m : Msg) : nat :=
  length (filter (λ m', m_src m' = m_src m ∧ m_ts m' < m_ts m) (elements X)).

Lemma filter_take l k m c :
  StronglySorted Before l → Forall (λ m, m_src m = c) l → l !! k = Some m →
  filter (λ m', m_ts m' < m_ts m) l = take k l.
Proof.
  intros Hs Hc; revert k; induction Hs as [|m0 l Hs IH Hm]; intros [|k] Hk; try done.
  - injection Hk as ->. rewrite filter_cons, decide_False by lia. apply elem_of_nil_inv.
    intros m' [Hlt Hin]%list_elem_of_filter. rewrite Forall_forall in Hm. specialize (Hm m' Hin). unfold Before in Hm. lia.
  - apply Forall_cons in Hc as [Hc0 Hc]. cbn in Hk. pose proof (list_elem_of_lookup_2 _ _ _ Hk) as Hin.
    rewrite Forall_forall in Hm. specialize (Hm m Hin). unfold Before in Hm.
    pose proof (proj1 (Forall_forall _ _) Hc m Hin) as Hcm. cbn in Hcm.
    rewrite filter_cons, decide_True by lia. cbn [take]. f_equal. by apply IH.
Qed.

(** In the sorted list of all messages, the [k]-th of a sender has rank [k]. *)
Lemma rank_sorted X l c k m :
  StronglySorted Before l → l ≡ₚ elements X → filter (λ m, m_src m = c) l !! k = Some m → rank X m = k.
Proof.
  intros Hs Hp Hk. set (lc := filter (λ m, m_src m = c) l) in *.
  assert (Hlc : StronglySorted Before lc) by by apply StronglySorted_filter.
  assert (Hc : Forall (λ m, m_src m = c) lc) by (apply Forall_forall; by intros x [? _]%list_elem_of_filter).
  pose proof (list_elem_of_lookup_2 _ _ _ Hk) as Hin. rewrite Forall_forall in Hc. pose proof (Hc m Hin) as Em.
  unfold rank. rewrite <- Hp, Em.
  transitivity (length (filter (λ m', m_ts m' < m_ts m) lc)).
  - unfold lc. rewrite list_filter_filter. f_equal. apply list_filter_iff. intros x. tauto.
  - rewrite (filter_take lc k m c); [|done|by apply Forall_forall|done]. apply length_take_le.
    apply lookup_lt_Some in Hk. lia.
Qed.


Section Runs.
Context (am : arith_mode) {Timestamp : Type} (as_nanos : Timestamp → Z) (Hns : ∀ ts, is_u64 (as_nanos ts)).
Context (stamp : Z → Timestamp) (replicas clients ops keys : Z).

Definition procs : gset Z := list_to_set (seqZ 0 (replicas + clients)).

(** What the fabric hands over for message [m], when [X] has been sent. *)
Definition carried (X : gset Msg) (m : Msg) : option (Timestamp * bytes) :=
  (λ s, (stamp (m_ts m), s.2)) <$> (client_thread (m_src m) replicas ops keys []).1 !! rank X m.
Definition handed (t : FState) (r : nat) : list (Timestamp * bytes) :=
  omap (carried (f_sent t)) (f_delivered t (Z.of_nat r)).

(** Every client has sent all its operations, and only clients have sent. *)
Definition all_sent (t : FState) : Prop :=
  set_Forall (λ m, m_src m ∈ seqZ replicas clients) (f_sent t) ∧
  ∀ c, c ∈ seqZ replicas clients → len (filter (λ m, m_src m = c) (elements (f_sent t))) = ops.

(** Everything sent has been delivered to process [i]. *)
Definition complete (t : FState) (i : nat) : Prop := ∀ m, m ∈ f_sent t → m ∈ f_delivered t (Z.of_nat i).

(** Replica [i] polls what its process delivers, before the timeout; what it drains are
    messages again. *)
Definition polls_from (t : FState) (i : nat) (r : ReplicaInput) : Prop :=
  in_world r = calm ∅ ∧ concat (map batch (in_polls r)) = handed t i ∧
  Forall (λ p, elapsed p = false) (in_polls r) ∧
  Forall (λ d, ∃ m, m ∈ f_sent t ∧ carried (f_sent t) m = Some d) (in_drain r).

(** The operation of a message. *)
Definition carried_op (X : gset Msg) (m : Msg) : option (Timestamp * Op) :=
  pair (stamp (m_ts m)) <$> client_ops (m_src m) ops keys !! rank X m.

Lemma carried_spec X m : carried X m = (λ x, (x.1, encode x.2)) <$> carried_op X m.
Proof.
  unfold carried, carried_op, client_thread. cbn [fst]. rewrite list_lookup_fmap.
  by destruct (client_ops _ _ _ !! _).
Qed.

Lemma handed_sent X l : omap (carried X) l = sent (omap (carried_op X) l).
Proof.
  induction l as [|m l IH]; [done|]. cbn [omap list_omap]. rewrite carried_spec, IH.
  by destruct (carried_op X m).
Qed.

Lemma carried_op_client X m x : carried_op X m = Some x → op_client x.2 = m_src m.
Proof.
  unfold carried_op. intros (op & Ho & ->)%fmap_Some. by apply client_ops_lookup in Ho as [-> _].
Qed.

Lemma omap_snd {A} (f : A → option (Timestamp * Op)) l : (omap f l).*2 = omap (λ x, snd <$> f x) l.
Proof. induction l as [|x l IH]; [done|]. cbn [omap list_omap]. destruct (f x); cbn; by rewrite IH. Qed.

(** The global order is a total order of the clients' operations. *)
Lemma global_total t :
  0 <= ops → all_sent t → total_order ops keys (seqZ replicas clients) (omap (carried_op (f_sent t)) (global_order t)).*2.
Proof.
  intros Ho [Hsrc Hall]. set (X := f_sent t) in *. set (G := global_order t).
  assert (HG : G ≡ₚ elements X) by apply merge_sort_Permutation.
  assert (HS : StronglySorted Before G) by apply global_sorted.
  split.
  - intros c Hc. unfold by_client. rewrite omap_snd.
    rewrite (filter_omap _ (λ op, op_client op = c) (λ m, m_src m = c)).
    2: { intros m op (x & Hx & ->)%fmap_Some. by rewrite (carried_op_client _ _ _ Hx). }
    apply omap_indexed.
    + unfold client_ops. rewrite length_map, length_seqZ, HG. specialize (Hall c Hc). lia.
    + intros k m Hk. unfold carried_op. rewrite (rank_sorted X G c k m HS HG Hk).
      assert (m_src m = c) as -> by by apply list_elem_of_lookup_2, list_elem_of_filter in Hk as [? _].
      by destruct (client_ops c ops keys !! k).
  - apply Forall_forall. intros op (x & -> & Hx)%list_elem_of_fmap.
    apply list_elem_of_omap in Hx as (m & Hm & E). rewrite (carried_op_client _ _ _ E).
    apply Hsrc. by rewrite HG, elem_of_elements in Hm.
Qed.

Section Reached.
Context (MaxTs : Z) (t : FState) (HM : 1 <= MaxTs) (Hreach : rtc (f_step procs MaxTs) f_init t).

Lemma reached_inv : f_inv procs MaxTs t.
Proof. by eapply f_inv_steps, f_inv_init. Qed.

Lemma in_procs i : 0 <= i < replicas → 0 <= clients → i ∈ procs.
Proof. intros Hi Hc. unfold procs. rewrite elem_of_list_to_set, elem_of_seqZ. lia. Qed.

Definition the_order : list (Timestamp * Op) := omap (carried_op (f_sent t)) (global_order t).

(** A process to which everything was delivered follows the order. *)
Lemma complete_follows i r :
  0 <= Z.of_nat i < replicas → 0 <= clients → complete t i → polls_from t i r → follows the_order r.
Proof.
  intros Hi Hc Hco (Hw & Hp & He & Hd). split_and!; [done| |done|].
  - rewrite Hp. unfold handed, the_order.
    rewrite (all_delivered procs MaxTs t (Z.of_nat i) reached_inv (in_procs _ Hi Hc) Hco). apply handed_sent.
  - eapply Forall_impl; [exact Hd|]. intros d (m & Hm & E). rewrite carried_spec in E.
    apply fmap_Some in E as (x & Ex & ->). exists x. split; [|done]. apply list_elem_of_omap. exists m. split; [|done].
    unfold global_order. rewrite merge_sort_Permutation. by apply elem_of_elements.
Qed.

(** Any process follows a prefix of it. *)
Lemma some_follows i r :
  0 <= Z.of_nat i < replicas → 0 <= clients → polls_from t i r →
  ∃ xs1 xs2, the_order = xs1 ++ xs2 ∧ follows_victim xs1 r ∧ len xs1 = len (handed t i).
Proof.
  intros Hi Hc (Hw & Hp & He & _).
  destruct (delivered_prefix procs MaxTs t (Z.of_nat i) reached_inv (in_procs _ Hi Hc)) as [k Ek].
  exists (omap (carried_op (f_sent t)) (f_delivered t (Z.of_nat i))), (omap (carried_op (f_sent t)) k).
  split; [unfold the_order; by rewrite Ek, omap_app|]. unfold handed in *. rewrite handed_sent in *.
  split; [done|]. unfold sent. by rewrite length_map.
Qed.
End Reached.

(** C7: Replicas over the specified fabric converge. In every reachable state of the
    fabric in which every client has sent its operations and everything has been
    delivered to the replicas, the replicas that polled what was delivered to them,
    in whatever batches, all hold the same state: every key that was incremented, with
    its expected sum, nothing lost and nothing applied twice. The report says converged,
    and it says correct exactly when a client has at least as many operations as there
    are keys; with fewer, the expected state has keys with sum 0 that no replica holds
    and the same run is reported as incorrect. *)
Theorem fabric_cluster_converges MaxTs t interval (reps : list ReplicaInput) :
  1 <= replicas → 1 <= clients → replicas + clients <= U32_MAX → 1 <= keys <= I64_MAX → 1 <= ops →
  4 + 48 * (clients * ops) <= U32_MAX → len reps = replicas → 1 <= MaxTs →
  rtc (f_step procs MaxTs) f_init t → all_sent t →
  (∀ i r, reps !! i = Some r → complete t i ∧ polls_from t i r) →
  ∃ report, run_cluster am as_nanos (mkCfg replicas clients ops keys interval) reps = Some report ∧
    replica_states report = replicate (Z.to_nat replicas) (touched_state ops keys clients) ∧
    converged report = true ∧ correct report = (keys <=? ops) ∧ timed_out report = negb (keys <=? ops).
Proof.
  intros Hr Hc Hid Hk Ho HB Hl HM Hreach Hall Hreps. rewrite <- Hl, Nat2Z.id.
  apply (cluster_converges am as_nanos Hns (len reps) clients ops keys interval (the_order t) reps);
    try done; try lia; [rewrite Hl; by apply global_total; [lia|]|].
  - apply Forall_lookup. intros i r Hi. destruct (Hreps i r Hi) as [Hco Hp].
    apply (complete_follows MaxTs t HM Hreach i); [|lia|done..]. apply lookup_lt_Some in Hi. lia.
Qed.

(** C8: A replica that crashes over the specified fabric catches up. The victim stops
    after at least [crash_after] deliveries, wherever the fabric is with it, while
    everything is delivered to the other replicas. Then a survivor holds every key that
    was incremented, with its expected sum; the victim's state is consistent with the
    expected one (no key ahead); and after recovering its own directory and importing
    the survivor's export the victim holds exactly what the survivor holds. The report
    says so, [survivor_correct] and [recovered_ok], exactly when a client has at least
    as many operations as there are keys. *)
Theorem fabric_crash_recovers MaxTs t interval victim crash_after (reps : list ReplicaInput) :
  2 <= replicas → 1 <= clients → replicas + clients <= U32_MAX → 1 <= keys <= I64_MAX → 1 <= ops →
  4 + 48 * (clients * ops) <= U32_MAX → len reps = replicas → 1 <= MaxTs →
  rtc (f_step procs MaxTs) f_init t → all_sent t →
  (victim < length reps)%nat → 1 <= crash_after <= len (handed t victim) →
  (∀ i r, reps !! i = Some r → polls_from t i r ∧ (i ≠ victim → complete t i)) →
  ∃ report, run_cluster_with_crash am as_nanos (mkCfg replicas clients ops keys interval) victim crash_after reps =
      Some report ∧
    survivor_state report = touched_state ops keys clients ∧
    victim_caught_up report = touched_state ops keys clients ∧ victim_prefix_consistent report = true ∧
    survivor_correct report = (keys <=? ops) ∧ recovered_ok report = (keys <=? ops).
Proof.
  intros Hr Hc Hid Hk Ho HB Hl HM Hreach Hall Hv Hca Hreps.
  destruct (lookup_lt_is_Some_2 reps victim Hv) as [rv Hrv].
  destruct (some_follows MaxTs t HM Hreach victim rv) as (xs1 & xs2 & Eo & Hf & El); [lia|lia|by apply Hreps|].
  apply (crashed_replica_catches_up am as_nanos Hns replicas clients ops keys interval victim crash_after xs1 xs2 reps);
    try done; [by rewrite <- Eo; apply global_total; [lia|]|by rewrite El|].
  intros i r Hi. destruct (Hreps i r Hi) as [Hp Hco]. case_decide as Hd.
  - subst i. assert (r = rv) as -> by congruence. done.
  - rewrite <- Eo. apply (complete_follows MaxTs t HM Hreach i); [|lia|by apply Hco|done]. apply lookup_lt_Some in Hi. lia.
Qed.
End Runs.

(** ** Witnesses: two replicas, one client, three operations on two keys *)

Definition sends_w : list FAction := [ASend 2; ASend 2; ATick 2; ASend 2].
Definition barriers_w (r : Z) : list FAction :=
  [AReceive r (mkMsg 2 2); AReceive r (mkMsg 1 2); AReceive r (mkMsg 4 2);
   ALearnBarrier r 0; ALearnBarrier r 1; ALearnBarrier r 2].
Definition ticks_w : list FAction := concat (map (λ _, [ATick 0; ATick 1]) (seqZ 0 5)) ++ [ATick 2].
Definition cluster_acts_w : list FAction :=
  sends_w ++ ticks_w ++ barriers_w 0 ++ barriers_w 1 ++
  [ADeliver 0 (mkMsg 1 2); ADeliver 1 (mkMsg 1 2); ADeliver 1 (mkMsg 2 2)].

(** The first replica has everything, the second lacks a message; then it has it too. *)
Definition behind_w : FState :=
  default f_init (f_run (procs 2 1) 5 (cluster_acts_w ++ [ADeliver 0 (mkMsg 2 2); ADeliver 0 (mkMsg 4 2)]) f_init).
Definition complete_w : FState := fire (ADeliver 1 (mkMsg 4 2)) behind_w.

Definition polled_w (t : FState) (i : nat) : ReplicaInput :=
  mkInput (calm ∅) (map (λ d, mkPoll [d] false) (handed id 2 3 2 t i)) (take 1 (handed id 2 3 2 t i)).

Lemma behind_reached : rtc (f_step (procs 2 1) 5) f_init behind_w.
Proof.
  apply (f_run_steps _ _ (cluster_acts_w ++ [ADeliver 0 (mkMsg 2 2); ADeliver 0 (mkMsg 4 2)]) f_init). by vm_compute.
Qed.
Lemma complete_reached : rtc (f_step (procs 2 1) 5) f_init complete_w.
Proof. eapply rtc_r; [exact behind_reached|]. constructor. by_decision. Qed.

Lemma all_sent_w t : f_sent t = f_sent behind_w → all_sent 2 1 3 t.
Proof.
  intros E. unfold all_sent. rewrite E. split; [by_decision|]. intros c Hc. change (seqZ 2 1) with [2] in Hc.
  apply list_elem_of_singleton in Hc as ->. by vm_compute.
Qed.

Lemma polls_from_w t i : f_sent t = f_sent behind_w → polled_w t i = polled_w behind_w 0 ∨ polled_w t i = polled_w behind_w 1 →
  handed id 2 3 2 t i = concat (map batch (in_polls (polled_w t i))) → polls_from id 2 3 2 t i (polled_w t i).
Proof.
  intros Es Hp Hh. split_and!; [done|done| |].
  - cbn. apply Forall_map, Forall_true. done.
  - rewrite Es. assert (Hd : in_drain (polled_w t i) = in_drain (polled_w behind_w 0)).
    { destruct Hp as [->| ->]; [done|by vm_compute]. }
    rewrite Hd. apply Forall_singleton. exists (mkMsg 1 2). split; [by_decision|by vm_compute].
Qed.

Lemma fabric_cluster_converges_witness :
  ∃ report, run_cluster Checked ns_w (mkCfg 2 1 3 2 64) [polled_w complete_w 0; polled_w complete_w 1] = Some report ∧
    replica_states report = replicate 2 (touched_state 3 2 1) ∧
    converged report = true ∧ correct report = true ∧ timed_out report = false.
Proof.
  apply (fabric_cluster_converges Checked ns_w ns_w_u64 id 2 1 3 2 5 complete_w 64);
    [lia|lia|by vm_compute|width_lia|lia|by vm_compute|done|lia|exact complete_reached|by apply all_sent_w|].
  intros [|[|i]] r [= <-]; (split; [intros m; apply (bool_decide_unpack (set_Forall (λ m, m ∈ f_delivered complete_w _) _)); by vm_compute|]);
    (apply polls_from_w; [done|left; by vm_compute|by vm_compute]).
Defined.

Lemma fabric_crash_recovers_witness :
  ∃ report, run_cluster_with_crash Checked ns_w (mkCfg 2 1 3 2 2) 1 2 [polled_w behind_w 0; polled_w behind_w 1] =
      Some report ∧
    survivor_state report = touched_state 3 2 1 ∧ victim_caught_up report = touched_state 3 2 1 ∧
    victim_prefix_consistent report = true ∧ survivor_correct report = true ∧ recovered_ok report = true.
Proof.
  apply (fabric_crash_recovers Checked ns_w ns_w_u64 id 2 1 3 2 5 behind_w 2 1 2);
    [lia|lia|by vm_compute|width_lia|lia|by vm_compute|done|lia|exact behind_reached|by apply all_sent_w|cbn; lia|by vm_compute|].
  intros [|[|i]] r [= <-]; (split; [apply polls_from_w; [done|auto|by vm_compute]|]); [|done].
  intros _ m. apply (bool_decide_unpack (set_Forall (λ m, m ∈ f_delivered behind_w 0) (f_sent behind_w))). by vm_compute.
Defined.
