(* ===== verification/Demo.v ===== *)
(** * Demo: the in-process demonstration ([crates/onebarrier/src/bin/ob_demo.rs])

    A mixed workload with a snapshot every three operations, a crash, a recovery and an
    operation delivered again, with the assertions the program makes. *)

From S2P Require Import Prelude Bytes Text Io State Durable Engine EngineFacts Cluster.
Local Open Scope Z_scope.

Definition demo_ops : list Op :=
  [op_set 1 1 (bs "balance") 100; op_incr 1 2 (bs "balance") (-30); op_set 2 1 (bs "name_len") 7;
   op_incr 1 3 (bs "balance") 50; op_incr 2 2 (bs "name_len") 1].

(** [assert_eq!] *)
Definition assert_eq {σ A} `{!EqDecision A} (a b : A) : M σ unit := λ s,
  if decide (a = b) then (Ok tt, s) else (Panic, s).

Section Demo.
Context (am : arith_mode) {Timestamp : Type} (as_nanos : Timestamp → Z) (from_nanos : Z → Timestamp).
#[local] Hint Extern 0 (StateMachine _) => exact (KvStore_StateMachine am) : typeclass_instances.

(** The loop over the operations; the outputs are printed. *)
Fixpoint demo_loop (i : Z) (ops : list Op) : M (Engine KvStore * World) (list Output) :=
  match ops with
  | [] => mret []
  | op :: ops =>
      out ← deliver as_nanos (from_nanos ((i + 1) * 10)) op;
      outs ← demo_loop (i + 1) ops; mret (out :: outs)
  end.

(** What is printed: the outputs, the values and counters before the crash, the values
    and the number of records replayed after it, the output of the repeated operation. *)
Definition demo : M World (list Output * (option Z * option Z * Z * Z) * (option Z * option Z * Z) * Output) :=
  e ← create 3 false;
  '(outs, e) ← with_engine e (demo_loop 0 demo_ops);
  let before := (get_int (state e) (bs "balance"), get_int (state e) (bs "name_len"),
                 st_applied (stats e), st_snapshots (stats e)) in
  e ← recover 3 false;
  let after := (get_int (state e) (bs "balance"), get_int (state e) (bs "name_len"), st_replayed (stats e)) in
  _ ← assert_eq (get_int (state e) (bs "balance")) (Some 120);
  _ ← assert_eq (get_int (state e) (bs "name_len")) (Some 8);
  '(out, e) ← with_engine e (deliver as_nanos (from_nanos 40) (op_incr 1 3 (bs "balance") 50));
  _ ← assert_eq out OutSuppressed;
  _ ← assert_eq (get_int (state e) (bs "balance")) (Some 120);
  mret (outs, before, after, out).
End Demo.

(** The demonstration runs to its end, in both builds: no assertion fails; one snapshot
    is cut, so recovery replays two records. *)
Theorem demo_passes am :
  (demo am id id (calm ∅)).1 =
    Ok ([OutOk; OutValue (Some 70); OutOk; OutValue (Some 120); OutValue (Some 8)],
        (Some 120, Some 8, 5, 1), (Some 120, Some 8, 2), OutSuppressed).
Proof. destruct am; by vm_compute. Qed.
