(* ===== verification/Bench.v ===== *)
(** * Bench: the replication modes the benchmarks compare
    ([crates/onebarrier/src/bench.rs])

    The bodies of the benchmark threads without their clocks: an executor, a
    log-only backup (passive replication), and the two ways of fixing a replayable
    order that write to disk (OneBarrier's, and HyCoR's extra order log). *)

From S2P Require Import Prelude Bytes Text Io State Durable Engine EngineFacts CrashSafety Lifetimes Transfer Cadence Workload Cluster.
Local Open Scope Z_scope.

Section Bench.
Context (am : arith_mode) {Timestamp : Type} (as_nanos : Timestamp → Z) (from_nanos : Z → Timestamp).
#[local] Hint Extern 0 (StateMachine _) => exact (KvStore_StateMachine am) : typeclass_instances.

(** ** Passive replication *)

(** An executor thread: [ops] increments over 64 keys; the engine at the end. *)
Definition bench_executor (ops : Z) : M World (Engine KvStore) := λ w,
  match create 1000000 false w with
  | (Ok e, w) =>
      match deliver_all as_nanos (sweep_ops from_nanos ops 64) (e, w) with
      | (_, Ok _, (e, w)) => (Ok e, w)
      | (_, _, (_, w)) => (Panic, w)
      end
  | (_, w) => (Panic, w)
  end.

(** [for .. { log.append(ts, &op.encode()).unwrap() }] *)
Fixpoint append_all (rs : list (Z * bytes)) : M (Durable * World) unit :=
  match rs with
  | [] => mret tt
  | (ts, b) :: rs => _ ← append ts b; append_all rs
  end.

(** The records of a backup: the same operations, stamped with the loop's counter. *)
Definition backup_records (ops : Z) : list (Z * Op) :=
  map (λ i, (i + 1, op_incr 1 (i + 1) (key_name (i mod 64)) 1)) (seqZ 0 ops).

(** A log-only backup: nothing is applied. *)
Definition log_backup (ops : Z) : M World unit := λ w,
  match durable_open false w with
  | (Ok du, w) =>
      match append_all (map (λ r, (r.1, encode r.2)) (backup_records ops)) (du, w) with
      | (Ok _, (_, w)) => (Ok tt, w)
      | (_, (_, w)) => (Panic, w)
      end
  | (_, w) => (Panic, w)
  end.

(** ** Order establishment *)

Definition baseline_ops (n : Z) : list (Timestamp * Op) :=
  map (λ i, (from_nanos (i + 1), op_incr 1 (i + 1) (bs "k") 1)) (seqZ 0 n).

(** OneBarrier: apply and append; the order is the fabric's. *)
Definition ft_onebarrier (n : Z) : M World (Engine KvStore) := λ w,
  match create 1000000 false w with
  | (Ok e, w) =>
      match deliver_all as_nanos (baseline_ops n) (e, w) with
      | (_, Ok _, (e, w)) => (Ok e, w)
      | (_, _, (_, w)) => (Panic, w)
      end
  | (_, w) => (Panic, w)
  end.

(** HyCoR: after every operation, a record of the order in a second store. *)
Fixpoint hycor_loop (xs : list (Timestamp * Op)) (i : Z)
    : M ((Engine KvStore * World) * (Durable * World)) unit :=
  match xs with
  | [] => mret tt
  | (ts, op) :: xs =>
      _ ← zoom fst (λ a s, (a, s.2)) (deliver as_nanos ts op);
      _ ← zoom snd (λ b s, (s.1, b)) (append (i + 1) (to_le_bytes 8 (i + 1)));
      hycor_loop xs (i + 1)
  end.

Definition ft_hycor (n : Z) : M (World * World) (Engine KvStore) := λ ws,
  match create 1000000 false ws.1 with
  | (Ok e, w1) =>
      match durable_open false ws.2 with
      | (Ok du, w2) =>
          match hycor_loop (baseline_ops n) 0 ((e, w1), (du, w2)) with
          | (Ok _, ((e, w1), (_, w2))) => (Ok e, (w1, w2))
          | (_, ((_, w1), (_, w2))) => (Panic, (w1, w2))
          end
      | (_, w2) => (Panic, (w1, w2))
      end
  | (_, w1) => (Panic, (w1, ws.2))
  end.

(** ** Lemmas *)

Lemma append_all_calm rs du d :
  ∃ du' d', append_all (map (λ r, (r.1, encode r.2)) rs) (du, calm d) = (Ok tt, (du', calm d')) ∧
    logc d' = logc d ++ log_bytes rs ∧ snapc d' = snapc d.
Proof.
  revert du d; induction rs as [|r rs IH]; intros du d.
  { exists du, d. cbn. by rewrite app_nil_r. }
  destruct (append_calm du r.1 (encode r.2) d) as (d1 & E1 & Hl1 & Hs1).
  destruct (IH (mkDurable (fsync du) true) d1) as (du' & d' & E & Hl & Hs).
  exists du', d'. cbn [map append_all]. rewrite run_bind, E1. split; [exact E|]. split.
  - rewrite Hl, Hl1, <- app_assoc. done.
  - congruence.
Qed.

Lemma hycor_loop_calm xs i e w os e' w' du d :
  deliver_all as_nanos xs (e, w) = (os, Ok tt, (e', w')) →
  ∃ du' d', hycor_loop xs i ((e, w), (du, calm d)) = (Ok tt, ((e', w'), (du', calm d'))) ∧
    len (logc d') = len (logc d) + 20 * len xs.
Proof.
  revert i e w os du d; induction xs as [|[ts op] xs IH]; intros i e w os du d E.
  { injection E as <- <- <-. exists du, d. split; [done|]. cbn. lia. }
  cbn [deliver_all] in E. destruct (deliver as_nanos ts op (e, w)) as [[o| | |] [e1 w1]] eqn:Ed; try done.
  destruct (deliver_all as_nanos xs (e1, w1)) as [[os1 r1] s1] eqn:E1. injection E as <- -> ->.
  destruct (append_calm du (i + 1) (to_le_bytes 8 (i + 1)) d) as (d1 & Ea & Hl1 & _).
  destruct (IH (i + 1) e1 w1 os1 (mkDurable (fsync du) true) d1 E1) as (du' & d' & Eh & Hl).
  exists du', d'. cbn [hycor_loop]. rewrite run_bind. unfold zoom. cbn [fst snd]. rewrite Ed. rewrite run_bind.
  cbn [fst snd]. rewrite Ea. split; [exact Eh|].
  rewrite Hl, Hl1, length_app, length_record, length_to_le_bytes, length_cons. lia.
Qed.

(** Recovering a directory that holds a log and no snapshot. *)
Lemma log_only_recovers rs v d i fs :
  logc d = log_bytes rs → snapc d = None → Forall wf_rec rs → steps image0 rs = Some v →
  ∃ e, recover i fs (calm d) = (Ok e, calm d) ∧ image e = v.
Proof.
  intros Hl Hs Hwf Hst. destruct (recover_Holds d v i fs) as (e & Hr & Him & _); [|eauto].
  exists rs, []. split; [by rewrite app_nil_r|done|done|]. unfold base. by rewrite Hs.
Qed.

Section PassiveReplication.
Context (Hns : ∀ ts, is_u64 (as_nanos ts)).
(** The fabric's timestamps are 48 bits wide and hold what they are made from. *)
Context (Hmask : ∀ z, 0 <= z < 2 ^ 48 → as_nanos (from_nanos z) = z).

Lemma backup_records_stamped ops :
  ops < 2 ^ 48 → stamped as_nanos (sweep_ops from_nanos ops 64) = backup_records ops.
Proof.
  intros Hops. unfold stamped, sweep_ops, backup_records. rewrite map_map. apply map_ext_in.
  intros i Hi%list_elem_of_In%elem_of_seqZ. cbn. by rewrite Hmask by lia.
Qed.

(** C33: A log-only backup can take over. The backup of the passive mode applies
    nothing, yet recovering its directory gives the state, the high-water marks and
    the horizon the executor holds after the same operations. *)
Theorem passive_backup_takes_over ops i fs :
  64 <= ops → 4 + 48 * ops <= U32_MAX →
  ∃ e d d', bench_executor ops (calm ∅) = (Ok e, calm d) ∧ log_backup ops (calm ∅) = (Ok tt, calm d') ∧
    ∃ eb, recover i fs (calm d') = (Ok eb, calm d') ∧ image eb = image e.
Proof.
  intros Hops HB.
  destruct (sweep_delivered am as_nanos from_nanos 1000000 ops 64 ltac:(lia) HB Hns)
    as (os & e & d & Ed & Hwf & Hs & _).
  rewrite backup_records_stamped in Hwf, Hs by width_lia.
  destruct (append_all_calm (backup_records ops) (mkDurable false false) ∅) as (du & d' & Ea & Hl & Hsn).
  destruct (log_only_recovers (backup_records ops) (image e) d' i fs Hl Hsn Hwf Hs) as (eb & Er & Him).
  exists e, d, d'. split; [unfold bench_executor; by rewrite create_calm, Ed|].
  split; [|eauto]. unfold log_backup.
  change (durable_open false (calm ∅)) with (Ok (A := Durable) (mkDurable false false), calm ∅). cbv iota. by rewrite Ea.
Qed.
End PassiveReplication.

(** What the fabric's order saves. On the same operations the HyCoR mode leaves the
    same engine and the same store as OneBarrier, and its second store has grown by
    exactly 20 bytes per operation, which OneBarrier does not write. *)
Theorem hycor_writes_more n w1 w1' e d2 :
  ft_onebarrier n w1 = (Ok e, w1') → 0 <= n →
  ∃ d2', ft_hycor n (w1, calm d2) = (Ok e, (w1', calm d2')) ∧ len (logc d2') = len (logc d2) + 20 * n.
Proof.
  unfold ft_onebarrier, ft_hycor. intros E Hn. cbn [fst snd]. destruct (create 1000000 false w1) as [[e0| | |] w]; try done.
  destruct (deliver_all as_nanos (baseline_ops n) (e0, w)) as [[os [[]| | |]] [e1 w']] eqn:Ed; try done.
  injection E as -> ->.
  destruct (hycor_loop_calm (baseline_ops n) 0 e0 w os e w1' (mkDurable false false) d2 Ed) as (du & d2' & Eh & Hl).
  exists d2'. change (durable_open false (calm d2)) with (Ok (A := Durable) (mkDurable false false), calm d2).
  cbv iota. rewrite Eh. split; [done|]. rewrite Hl. unfold baseline_ops. rewrite length_map, length_seqZ. lia.
Qed.
End Bench.

(** ** Witnesses *)

(** Timestamps of 48 bits. *)
Definition ns48 (z : Z) : Z := z mod 2 ^ 48.

Lemma passive_backup_takes_over_witness :
  ∃ e d d', bench_executor Checked ns48 id 64 (calm ∅) = (Ok e, calm d) ∧ log_backup 64 (calm ∅) = (Ok tt, calm d') ∧
    ∃ eb, recover (SM := KvStore_StateMachine Checked) 10 true (calm d') = (Ok eb, calm d') ∧ image eb = image e.
Proof.
  apply (passive_backup_takes_over Checked ns48 id).
  - intros z. unfold ns48. pose proof (Z.mod_pos_bound z (2 ^ 48)). width_lia.
  - intros z Hz. by apply Z.mod_small.
  - lia.
  - by vm_compute.
Defined.

Lemma hycor_writes_more_witness :
  ∃ e w' d2', ft_hycor Checked ns48 id 3 (calm ∅, calm ∅) = (Ok e, (w', calm d2')) ∧ len (logc d2') = 60.
Proof.
  assert (Hok : (if (ft_onebarrier Checked ns48 id 3 (calm ∅)).1 is Ok _ then true else false) = true) by by vm_compute.
  destruct (ft_onebarrier Checked ns48 id 3 (calm ∅)) as [[e| | |] w'] eqn:E; [|done..].
  destruct (hycor_writes_more Checked ns48 id 3 (calm ∅) w' e ∅ E ltac:(lia)) as (d2' & H & Hl).
  exists e, w', d2'. split; [exact H|exact Hl].
Defined.
