(* ===== verification/Ordering.v ===== *)
(** * Ordering: how a replayable order is established ([crates/onebarrier/src/bench.rs],
    [bench_ordering] and the LLFT mode of [bench_ft_baselines])

    A central sequencer that every producer locks, against producers that stamp their own
    operations. The schedule of the lock and the readings of the clock are inputs. *)

From S2P Require Import Prelude Bytes Text F64 Io State Durable Engine EngineFacts CrashSafety Lifetimes Workload Cluster Bench.
Local Open Scope Z_scope.

Record OrderResult := mkOrderResult { or_mode : string; or_threads : Z; or_ops_per_sec : f64 }.

Section Ordering.
Context (am : arith_mode).

(** The threads take the lock in the order [sched]; each operation with the number it
    drew, and the counter at the end. [None] is a panic. *)
Fixpoint sequencer (g : Z) (sched : list Z) : option (list (Z * Z) * Z) :=
  match sched with
  | [] => Some ([], g)
  | tid :: sched =>
      g ← usize_arith am (g + 1);
      '(l, last) ← sequencer g sched;
      Some ((tid, g) :: l, last)
  end.

(** A producer's loop: the stamps it assigns, and its [sink]. *)
Fixpoint stamp_loop (n : nat) (local sink : Z) : option (list Z * Z) :=
  match n with
  | O => Some ([], sink)
  | S n =>
      local ← usize_arith am (local + 1);
      '(l, sink) ← stamp_loop n local (Z.lxor sink local);
      Some (local :: l, sink)
  end.

(** [(tid as u64) << 40] *)
Definition stamp_base (tid : Z) : Z := Z.shiftl tid 40 mod 2 ^ 64.
Definition producer (ops : Z) (tid : Z) : option (list Z * Z) := stamp_loop (Z.to_nat ops) (stamp_base tid) 0.

(** Both measurements; [secs] are the two elapsed times. *)
Definition bench_ordering (threads ops : Z) (sched : list Z) (secs : f64 * f64) : option (OrderResult * OrderResult) :=
  total ← usize_arith am (threads * ops);
  _ ← sequencer 0 sched;
  _ ← mapM (producer ops) (seqZ 0 threads);
  Some (mkOrderResult "central-sequencer" threads (f64_div (f64_of_u64 total) secs.1),
        mkOrderResult "fabric/timestamp" threads (f64_div (f64_of_u64 total) secs.2)).

(** ** Both give a total order *)

Lemma sequencer_numbers sched g :
  0 <= g → g + len sched <= U64_MAX → sequencer g sched = Some (zip sched (seqZ (g + 1) (len sched)), g + len sched).
Proof.
  revert g; induction sched as [|tid sched IH]; intros g Hg Hb; [cbn; by rewrite Z.add_0_r|].
  rewrite length_cons in Hb |- *. cbn [sequencer]. unfold usize_arith. rewrite bool_decide_true by width_lia. cbn [mbind option_bind].
  rewrite IH by lia. cbn [mbind option_bind]. rewrite (seqZ_cons (g + 1)) by lia. cbn [zip zip_with].
  do 2 f_equal; [|lia]. do 3 f_equal; lia.
Qed.

Lemma stamp_loop_numbers n local sink :
  0 <= local → local + Z.of_nat n <= U64_MAX → ∃ sink', stamp_loop n local sink = Some (seqZ (local + 1) (Z.of_nat n), sink').
Proof.
  revert local sink; induction n as [|n IH]; intros local sink Hl Hb; [by exists sink|]. cbn [stamp_loop].
  unfold usize_arith. rewrite bool_decide_true by width_lia. cbn [mbind option_bind].
  destruct (IH (local + 1) (Z.lxor sink (local + 1)) ltac:(lia) ltac:(lia)) as (sink' & ->). exists sink'. cbn [mbind option_bind].
  rewrite (seqZ_cons (local + 1) (Z.of_nat (S n))) by lia. do 4 f_equal; lia.
Qed.

Lemma stamp_base_small tid : 0 <= tid < 2 ^ 24 → stamp_base tid = tid * 2 ^ 40.
Proof. intros H. unfold stamp_base. rewrite Z.shiftl_mul_pow2 by lia. apply Z.mod_small. nia. Qed.

(** With at most [2 ^ 24] producers of fewer than [2 ^ 40] operations, both mechanisms
    give every operation a number of its own that grows along each producer: the
    sequencer's are 1, 2, 3 in the order of the lock, whatever that order is; the
    stamps need no lock, and every stamp of a producer is below every stamp of the
    next one. *)
Theorem ordering_total threads ops sched :
  0 <= threads <= 2 ^ 24 → 0 <= ops < 2 ^ 40 → len sched <= threads * ops →
  sequencer 0 sched = Some (zip sched (seqZ 1 (len sched)), len sched) ∧
  ∀ tid, 0 <= tid < threads →
    ∃ sink, producer ops tid = Some (seqZ (tid * 2 ^ 40 + 1) ops, sink) ∧
      ∀ tid' s s', 0 <= tid' < tid → s' ∈ seqZ (tid' * 2 ^ 40 + 1) ops → s ∈ seqZ (tid * 2 ^ 40 + 1) ops → s' < s.
Proof.
  intros Ht Ho Hs. assert (threads * ops <= 2 ^ 24 * (2 ^ 40 - 1)) by nia. split; [rewrite sequencer_numbers; [done|lia|width_lia]|]. intros tid Htid. unfold producer.
  rewrite stamp_base_small by lia.
  destruct (stamp_loop_numbers (Z.to_nat ops) (tid * 2 ^ 40) 0 ltac:(lia) ltac:(width_lia)) as (sink & E).
  exists sink. rewrite E, Z2Nat.id by lia. split; [done|]. intros tid' s s' Htid' Hs'%elem_of_seqZ Hss%elem_of_seqZ. nia.
Qed.

(** With more than [2 ^ 40] operations two producers assign the same stamp. *)
Theorem stamps_collide ops :
  2 ^ 40 < ops <= 2 ^ 63 →
  ∃ l0 sink0 l1 sink1, producer ops 0 = Some (l0, sink0) ∧ producer ops 1 = Some (l1, sink1) ∧
    (2 ^ 40 + 1) ∈ l0 ∧ (2 ^ 40 + 1) ∈ l1.
Proof.
  intros H. unfold producer. rewrite !stamp_base_small by lia.
  destruct (stamp_loop_numbers (Z.to_nat ops) (0 * 2 ^ 40) 0 ltac:(lia) ltac:(width_lia)) as (s0 & ->).
  destruct (stamp_loop_numbers (Z.to_nat ops) (1 * 2 ^ 40) 0 ltac:(lia) ltac:(width_lia)) as (s1 & ->).
  eexists _, _, _, _. split; [reflexivity|]. split; [reflexivity|]. rewrite !elem_of_seqZ. lia.
Qed.
End Ordering.

(** ** LLFT: the order of a host sequencer *)

Section Llft.
Context (am : arith_mode) {Timestamp : Type} (as_nanos : Timestamp → Z) (from_nanos : Z → Timestamp).
#[local] Hint Extern 0 (StateMachine _) => exact (KvStore_StateMachine am) : typeclass_instances.

(** One thread; [others] is how far the other threads move the shared counter before each
    of its turns. *)
Fixpoint llft_loop (xs : list (Timestamp * Op)) (others : list Z) : M ((Engine KvStore * World) * Z) unit :=
  match xs with
  | [] => mret tt
  | (ts, op) :: xs =>
      _ ← (λ s, match usize_arith am (s.2 + default 0 (head others) + 1) with
                | Some g => (Ok tt, (s.1, g))
                | None => (Panic, s)
                end);
      _ ← zoom fst (λ a s, (a, s.2)) (deliver as_nanos ts op);
      llft_loop xs (tail others)
  end.

Definition ft_llft (n : Z) (others : list Z) : M (World * Z) (Engine KvStore) := λ ws,
  match create 1000000 false ws.1 with
  | (Ok e, w) =>
      match llft_loop (baseline_ops from_nanos n) others ((e, w), ws.2) with
      | (Ok _, ((e, w), g)) => (Ok e, (w, g))
      | (_, ((_, w), g)) => (Panic, (w, g))
      end
  | (_, w) => (Panic, (w, ws.2))
  end.

Lemma llft_loop_delivers xs others e w g os e' w' :
  deliver_all as_nanos xs (e, w) = (os, Ok tt, (e', w')) → length others = length xs → Forall (λ o, 0 <= o) others →
  0 <= g → g + sumZ id others + len xs <= U64_MAX →
  llft_loop xs others ((e, w), g) = (Ok tt, ((e', w'), g + sumZ id others + len xs)).
Proof.
  revert others e w g os; induction xs as [|[ts op] xs IH]; intros [|o others] e w g os E Hlen HF Hg Hb; try done.
  { injection E as <- <- <-. cbn. do 2 f_equal. lia. }
  cbn [deliver_all] in E. destruct (deliver as_nanos ts op (e, w)) as [[out| | |] [e1 w1]] eqn:Ed; try done.
  destruct (deliver_all as_nanos xs (e1, w1)) as [[os1 r1] s1] eqn:E1. injection E as <- -> ->.
  apply Forall_cons in HF as [Ho HF]. cbn [sumZ id length] in *.
  assert (0 <= sumZ id others) by (clear -HF; induction HF; cbn; unfold id in *; lia).
  cbn [llft_loop]. rewrite run_bind. cbn [head default from_option snd]. unfold usize_arith, id.
  rewrite bool_decide_true by (unfold id in *; width_lia). rewrite run_bind. unfold zoom. cbn [fst snd]. rewrite Ed. cbn [tail].
  rewrite (IH others e1 w1 (g + o + 1) os1 E1); [|lia|done|unfold id in *; lia..]. do 2 f_equal. unfold id. lia.
Qed.

(** A thread of the LLFT mode ends with the engine and the store of OneBarrier; besides,
    it has moved the shared counter once for every operation, whatever the other threads
    do in between. *)
Theorem llft_same_engine n others w w' e g :
  ft_onebarrier am as_nanos from_nanos n w = (Ok e, w') → 0 <= n → len others = n → Forall (λ o, 0 <= o) others →
  0 <= g → g + sumZ id others + n <= U64_MAX →
  ft_llft n others (w, g) = (Ok e, (w', g + sumZ id others + n)).
Proof.
  unfold ft_onebarrier, ft_llft. intros E Hn Hl HF Hg Hb. cbn [fst snd]. destruct (create 1000000 false w) as [[e0| | |] w0]; try done.
  destruct (deliver_all as_nanos (baseline_ops from_nanos n) (e0, w0)) as [[os [[]| | |]] [e1 w1]] eqn:Ed; try done.
  injection E as -> ->.
  assert (Hx : len (baseline_ops from_nanos n) = n) by (unfold baseline_ops; rewrite length_map, length_seqZ; lia).
  rewrite (llft_loop_delivers _ others e0 w0 g os e w' Ed); [by rewrite Hx|lia|done|done|lia].
Qed.
End Llft.
