(* ===== verification/Latency.v ===== *)
(** * Latency: the latency benchmark ([crates/onebarrier/src/bench.rs], [run_bench])

    An executor that applies the fabric's deliveries and times them, and the
    percentiles of what it measured. The readings of the clocks are inputs. *)

From S2P Require Import Prelude Bytes Text F64 Io State Durable Engine EngineFacts CrashSafety Lifetimes Transfer Cadence Workload Cluster.
Local Open Scope Z_scope.

Inductive Durability := InFabricMem | Fsync.
#[export] Instance Durability_eq_dec : EqDecision Durability.
Proof. solve_decision. Defined.

Definition durability_debug (d : Durability) : string :=
  match d with InFabricMem => "InFabricMem" | Fsync => "Fsync" end.

(** The pacing, in nanoseconds, spaces a client's operations; the host's parameters are the
    fabric's, and the timeout is the [tp_elapsed] of the polls. *)
Record BenchConfig := mkBenchConfig {
  b_clients : Z; b_ops_per_client : Z; b_keys : Z; b_pace : Z; b_durability : Durability }.
Definition bench_default : BenchConfig := mkBenchConfig 2 2000 64 300000 InFabricMem.

(** A client's thread: what it hands to [host.send], in order; then it waits, reading the
    shared flag and whether the timeout has elapsed. *)
Definition bench_client (me : Z) (cfg : BenchConfig) (waits : list (bool * bool)) : list (list Z * bytes) * bool :=
  (map (λ i, ([0], encode (op_incr me (i + 1) (key_name (i mod b_keys cfg)) 1))) (seqZ 0 (b_ops_per_client cfg)),
   existsb (λ w, negb (negb w.1 && negb w.2)) waits).

Record BenchResult := mkBenchResult {
  br_durability : string; br_n : Z;
  delivery_p50 : Z; delivery_p99 : Z; durable_p50 : Z; durable_p99 : Z; commit_p50 : Z; commit_p99 : Z }.

(** [sorted[idx.min(len - 1)]] is always in range. *)
Definition pct (sorted : list Z) (p : f64) : Z :=
  match sorted with
  | [] => 0
  | d :: _ => default d (sorted !! Z.to_nat (pct_index (len sorted - 1) p))
  end.

Definition MASK48 : Z := 2 ^ 48 - 1.

(** [(now_ns() & MASK48).wrapping_sub(ts) & MASK48] *)
Definition delivery_latency (now ts : Z) : Z := Z.land ((Z.land now MASK48 - ts) mod 2 ^ 64) MASK48.

Section Executor.
Context (am : arith_mode) {Timestamp : Type} (as_nanos : Timestamp → Z) (from_nanos : Z → Timestamp).
#[local] Hint Extern 0 (StateMachine _) => exact (KvStore_StateMachine am) : typeclass_instances.

(** A delivery with the wall clock when it was handled and the time its handling took. *)
Record Timed := mkTimed { td_delivery : Timestamp * bytes; td_now : Z; td_durable : Z }.
Record TimedPoll := mkTimedPoll { tp_batch : list Timed; tp_elapsed : bool }.
Abbreviation Samples := (list (Z * Z)).
Abbreviation EW := (Engine KvStore * World)%type.

Definition bench_delivery (t : Timed) (applied : Z) (samples : Samples) : M EW (Z * Samples) :=
  let '(ts, payload) := td_delivery t in
  let delivery := delivery_latency (td_now t) (as_nanos ts) in
  match decode payload with
  | Some op =>
      out ← deliver as_nanos ts op;
      mret (if decide (out = OutSuppressed) then (applied, samples)
            else (applied + 1, samples ++ [(delivery, td_durable t)]))
  | None => mret (applied, samples)
  end.

Fixpoint bench_batch (ts : list Timed) (applied : Z) (samples : Samples) : M EW (Z * Samples) :=
  match ts with
  | [] => mret (applied, samples)
  | t :: ts => '(applied, samples) ← bench_delivery t applied samples; bench_batch ts applied samples
  end.

(** [None] when the polls run out before the loop ends. *)
Fixpoint bench_loop (total : Z) (polls : list TimedPoll) (applied : Z) (samples : Samples) : M EW (option Samples) :=
  match polls with
  | [] => mret None
  | p :: polls =>
      '(applied, samples) ← bench_batch (tp_batch p) applied samples;
      if (total <=? applied) || tp_elapsed p then mret (Some samples)
      else bench_loop total polls applied samples
  end.

(** [a + b] of a sample; [None] is a panic. *)
Definition commit_latency (s : Z * Z) : option Z := usize_arith am (s.1 + s.2).

Definition bench_result (durability : Durability) (samples : Samples) : option BenchResult :=
  commits ← mapM commit_latency samples;
  let delivery := merge_sort Z.le samples.*1 in
  let durable := merge_sort Z.le samples.*2 in
  let commit := merge_sort Z.le commits in
  Some (mkBenchResult (durability_debug durability) (len samples)
          (pct delivery (f64_lit 50 2)) (pct delivery (f64_lit 99 2))
          (pct durable (f64_lit 50 2)) (pct durable (f64_lit 99 2))
          (pct commit (f64_lit 50 2)) (pct commit (f64_lit 99 2))).

(** [None]: the executor failed, has not ended, or a product or sum overflowed. The clients' threads
    return no samples. *)
Definition run_bench (cfg : BenchConfig) (polls : list TimedPoll) (w : World) : option BenchResult :=
  total ← usize_arith am (b_ops_per_client cfg * b_clients cfg);
  match create 1000000 (bool_decide (b_durability cfg = Fsync)) w with
  | (Ok e, w) =>
      match bench_loop total polls 0 [] (e, w) with
      | (Ok (Some samples), _) => bench_result (b_durability cfg) samples
      | _ => None
      end
  | _ => None
  end.

(** ** Lemmas *)

(** The engine takes the steps of a replica; there is a sample for every operation it
    counts. *)
Lemma bench_batch_replica ts a samples s a' s' :
  on_batch am as_nanos (map td_delivery ts) a s = (Ok a', s') →
  ∃ new, bench_batch ts a samples s = (Ok (a', samples ++ new), s') ∧ len new = a' - a ∧ len new <= len ts ∧
    Forall (λ n, ∃ t, t ∈ ts ∧ n = (delivery_latency (td_now t) (as_nanos (td_delivery t).1), td_durable t)) new.
Proof.
  revert a samples s; induction ts as [|t ts IH]; intros a samples s E.
  { injection E as <- <-. exists []. rewrite app_nil_r. split_and!; [done|cbn; lia|done|constructor]. }
  cbn [map on_batch bench_batch] in *.
  rewrite run_bind in E. rewrite run_bind. unfold on_delivery in E. unfold bench_delivery.
  destruct (td_delivery t) as [tsm payload] eqn:Et. cbn [fst snd] in *.
  assert (Hskip : ∀ s1 a1 l, on_batch am as_nanos (map td_delivery ts) a1 s1 = (Ok a', s') →
    (a1 = a ∧ l = []) ∨ (a1 = a + 1 ∧ l = [(delivery_latency (td_now t) (as_nanos tsm), td_durable t)]) →
    ∃ new, bench_batch ts a1 (samples ++ l) s1 = (Ok (a', samples ++ new), s') ∧ len new = a' - a ∧ len new <= len (t :: ts) ∧
      Forall (λ n, ∃ t0, t0 ∈ t :: ts ∧ n = (delivery_latency (td_now t0) (as_nanos (td_delivery t0).1), td_durable t0)) new).
  { intros s1 a1 l E1 Hl. destruct (IH a1 (samples ++ l) s1 E1) as (new & Eb & Hn & Hle & HF).
    exists (l ++ new). rewrite app_assoc, length_app, length_cons. split_and!; [done|destruct Hl as [[-> ->]|[-> ->]]; cbn; lia..|].
    apply Forall_app. split.
    - destruct Hl as [[_ ->]|[_ ->]]; [constructor|]. apply Forall_singleton. exists t. rewrite Et. split; [constructor|done].
    - eapply Forall_impl; [exact HF|]. intros n (t0 & ? & ?). exists t0. split; [by constructor|done]. }
  destruct (decode payload) as [op|].
  - rewrite run_bind in E. rewrite run_bind. destruct (deliver as_nanos tsm op s) as [[o| | |] s1]; try done. unfold mret, M_ret in *.
    destruct (decide (o = OutSuppressed)).
    + pose proof (Hskip s1 a [] E ltac:(auto)) as H. by rewrite app_nil_r in H.
    + exact (Hskip s1 (a + 1) [_] E ltac:(auto)).
  - pose proof (Hskip s a [] E ltac:(auto)) as H. by rewrite app_nil_r in H.
Qed.

Definition untimed (p : TimedPoll) : Poll := mkPoll (map td_delivery (tp_batch p)) (tp_elapsed p).
Definition sample_of (t : Timed) : Z * Z := (delivery_latency (td_now t) (as_nanos (td_delivery t).1), td_durable t).

Lemma bench_loop_replica total polls a samples s s' :
  replica_loop am as_nanos total [] (map untimed polls) a s = (Ok true, s') →
  Forall (λ p, tp_elapsed p = false) polls →
  ∃ new, bench_loop total polls a samples s = (Ok (Some (samples ++ new)), s') ∧
    total - a <= len new <= len (concat (map tp_batch polls)) ∧
    Forall (λ n, ∃ t, t ∈ concat (map tp_batch polls) ∧ n = sample_of t) new.
Proof.
  intros E Hel; revert a samples s E; induction Hel as [|p polls Hp _ IH]; intros a samples s E; [done|].
  cbn [map replica_loop bench_loop] in *. rewrite run_bind in E. rewrite run_bind. cbn [batch untimed elapsed] in E.
  destruct (on_batch am as_nanos (map td_delivery (tp_batch p)) a s) as [[a1| | |] s1] eqn:Eb; try done.
  destruct (bench_batch_replica (tp_batch p) a samples s a1 s1 Eb) as (new & -> & Hn & Hle & HF).
  rewrite Hp, orb_false_r in *. cbn [concat]. destruct (Z.leb_spec total a1) as [Ht|Ht].
  - rewrite run_bind in E. cbn in E. injection E as <-. exists new. split; [done|]. rewrite length_app. split; [lia|].
    eapply Forall_impl; [exact HF|]. intros n (t & ? & ?). exists t. split; [by apply elem_of_app; left|done].
  - destruct (IH a1 (samples ++ new) s1 E) as (new' & -> & Hn' & HF'). exists (new ++ new'). rewrite app_assoc.
    split; [done|]. rewrite !length_app. split; [lia|]. apply Forall_app. split.
    + eapply Forall_impl; [exact HF|]. intros n (t & ? & ?). exists t. split; [by apply elem_of_app; left|done].
    + eapply Forall_impl; [exact HF'|]. intros n (t & ? & ?). exists t. split; [by apply elem_of_app; right|done].
Qed.
End Executor.

(** The 48-bit arithmetic measures the time since the message was stamped, across a wrap
    of the clock. *)
Lemma delivery_latency_exact now sent :
  0 <= sent <= now → now < 2 ^ 64 → now - sent < 2 ^ 48 →
  delivery_latency now (sent mod 2 ^ 48) = now - sent.
Proof.
  intros H Hn Hd. unfold delivery_latency, MASK48. change (2 ^ 48 - 1) with (Z.ones 48).
  rewrite !Z.land_ones by lia. rewrite Z.mod_mod_divide by (by exists (2 ^ 16)).
  rewrite <- Zminus_mod. apply Z.mod_small. lia.
Qed.

Lemma StronglySorted_lookup {A} (R : A → A → Prop) l i j x y :
  StronglySorted R l → (i < j)%nat → l !! i = Some x → l !! j = Some y → R x y.
Proof.
  intros Hs; revert i j; induction Hs as [|z l Hs IH HF]; intros i j Hij Hi Hj; [done|].
  destruct j as [|j]; [lia|]. cbn in Hj. destruct i as [|i]; [|by eapply (IH i j); [lia|..]].
  cbn in Hi. injection Hi as ->. rewrite Forall_forall in HF. apply HF. by eapply list_elem_of_lookup_2.
Qed.

Lemma pct_sorted l q q' :
  StronglySorted Z.le l → len l <= U64_MAX → fraction q → fraction q' → f64_le q q' = true →
  pct l q <= pct l q' ∧ (l ≠ [] → pct l q ∈ l).
Proof.
  intros Hs Hl Hq Hq' Hle. destruct l as [|x l]; [done|].
  assert (H0 : 0 <= len (x :: l) - 1) by (rewrite length_cons; lia).
  pose proof (pct_index_range (len (x :: l) - 1) q H0). pose proof (pct_index_range (len (x :: l) - 1) q' H0).
  pose proof (pct_index_mono (len (x :: l) - 1) q q' ltac:(lia) Hq Hq' Hle) as Hm. unfold pct.
  destruct (lookup_lt_is_Some_2 (x :: l) (Z.to_nat (pct_index (len (x :: l) - 1) q)) ltac:(lia)) as [y Ey].
  destruct (lookup_lt_is_Some_2 (x :: l) (Z.to_nat (pct_index (len (x :: l) - 1) q')) ltac:(lia)) as [y' Ey'].
  rewrite Ey, Ey'. cbn [default]. split; [|intros _; by eapply list_elem_of_lookup_2].
  destruct (decide (pct_index (len (x :: l) - 1) q = pct_index (len (x :: l) - 1) q')) as [E|Hne].
  - rewrite E in Ey. rewrite Ey in Ey'. injection Ey' as ->. done.
  - eapply (StronglySorted_lookup Z.le); [exact Hs| |exact Ey|exact Ey']. lia.
Qed.

Lemma merge_sort_zle_sorted (l : list Z) : StronglySorted Z.le (merge_sort Z.le l).
Proof. apply StronglySorted_merge_sort; intros ?; lia. Qed.

(** The percentiles of a list of measurements: ordered, and each one of them measured. *)
Lemma pct_measured l :
  len l <= U64_MAX →
  pct (merge_sort Z.le l) (f64_lit 50 2) <= pct (merge_sort Z.le l) (f64_lit 99 2) ∧
  (l ≠ [] → pct (merge_sort Z.le l) (f64_lit 50 2) ∈ l ∧ pct (merge_sort Z.le l) (f64_lit 99 2) ∈ l).
Proof.
  intros Hl. pose proof (merge_sort_Permutation Z.le l) as HP. pose proof (Permutation_length HP) as Hlen.
  assert (Hf : fraction (f64_lit 50 2) ∧ fraction (f64_lit 99 2)) by (split; split; by vm_compute). destruct Hf as [F1 F2].
  pose proof (pct_sorted _ _ _ (merge_sort_zle_sorted l) ltac:(lia) F1 F2 ltac:(by vm_compute)) as [H1 H2].
  pose proof (pct_sorted _ _ _ (merge_sort_zle_sorted l) ltac:(lia) F2 F2 ltac:(by vm_compute)) as [_ H3].
  split; [done|]. intros Hne. assert (merge_sort Z.le l ≠ []) as Hne' by (intros E; rewrite E in Hlen; by destruct l).
  assert (Hin : ∀ x, x ∈ merge_sort Z.le l → x ∈ l) by (intros x; by rewrite HP). auto.
Qed.

Section Guarantees.
Context (am : arith_mode) {Timestamp : Type} (as_nanos : Timestamp → Z).
Context (Hns : ∀ ts, is_u64 (as_nanos ts)).
#[local] Hint Extern 0 (StateMachine _) => exact (KvStore_StateMachine am) : typeclass_instances.

(** What the fabric and the clocks give the executor: the deliveries of the order [xs] in
    polls that do not time out; every message stamped with the low 48 bits of its send
    time, less than [2 ^ 48] ns ago; no handling of a day or more. *)
Definition timed (xs : list (Timestamp * Op)) (polls : list (TimedPoll (Timestamp := Timestamp))) (sent_at : Timestamp → Z) : Prop :=
  concat (map (λ p, map td_delivery (tp_batch p)) polls) = sent xs ∧ Forall (λ p, tp_elapsed p = false) polls ∧
  Forall (λ t, let ts := (td_delivery t).1 in
      as_nanos ts = sent_at ts mod 2 ^ 48 ∧ 0 <= sent_at ts <= td_now t ∧ td_now t < 2 ^ 63 ∧
      td_now t - sent_at ts < 2 ^ 48 ∧ 0 <= td_durable t < 2 ^ 48) (concat (map tp_batch polls)).

(** The samples are of deliveries, and true. *)
Lemma samples_true xs polls sent_at new :
  timed xs polls sent_at → Forall (λ n, ∃ t, t ∈ concat (map tp_batch polls) ∧ n = sample_of as_nanos t) new →
  Forall (λ n, ∃ t, t ∈ concat (map tp_batch polls) ∧ n = (td_now t - sent_at (td_delivery t).1, td_durable t) ∧
    0 <= n.1 < 2 ^ 48 ∧ 0 <= n.2 < 2 ^ 48) new.
Proof.
  intros (_ & _ & HF) HN. rewrite Forall_forall in HF. eapply Forall_impl; [exact HN|].
  intros n (t & Hin & ->). destruct (HF t Hin) as (E & Hs & Hn & Hd & Hdur). exists t. split; [done|].
  unfold sample_of. rewrite E, delivery_latency_exact by lia. split; [done|]. cbn [fst snd]. lia.
Qed.

Lemma commits_defined (samples : list (Z * Z)) :
  Forall (λ n, 0 <= n.1 < 2 ^ 48 ∧ 0 <= n.2 < 2 ^ 48) samples →
  mapM (commit_latency am) samples = Some (map (λ n, n.1 + n.2) samples).
Proof.
  induction 1 as [|n samples Hn _ IH]; [done|].
  assert (E : commit_latency am n = Some (n.1 + n.2)).
  { unfold commit_latency, usize_arith. by rewrite bool_decide_true by width_lia. }
  cbn [mapM map]. by rewrite E, IH.
Qed.

(** The executor's loop ends with one sample per operation. *)
Lemma bench_loop_total clients ops keys fs xs polls sent_at :
  1 <= clients → clients < U32_MAX → 1 <= keys <= I64_MAX → 1 <= ops → 4 + 48 * (clients * ops) <= U32_MAX →
  total_order ops keys (seqZ 1 clients) xs.*2 → timed xs polls sent_at →
  ∃ new s', bench_loop am as_nanos (ops * clients) polls 0 [] (fresh (mkDurable fs false) 1000000, calm ∅) = (Ok (Some new), s') ∧
    len new = clients * ops ∧ Forall (λ n, ∃ t, t ∈ concat (map tp_batch polls) ∧ n = sample_of as_nanos t) new.
Proof.
  intros Hc Hcu Hk Ho HB HT (Hcat & Hel & _). set (cs := seqZ 1 clients) in *.
  assert (Hlen : len cs = clients) by (unfold cs; rewrite length_seqZ; lia).
  assert (Hcs : Forall is_u32 cs) by (apply Forall_forall; intros c Hin%elem_of_seqZ; width_lia).
  assert (Hnd : NoDup cs) by apply NoDup_seqZ.
  pose proof (total_order_length cs ops keys Hnd ltac:(lia) _ HT) as Hxs. rewrite length_fmap, Hlen in Hxs.
  destruct (survivor_image am as_nanos cs ops keys Hnd Hcs ltac:(unfold U32_MAX, I64_MAX in *; nia) ltac:(lia) ltac:(lia) ltac:(by rewrite Hlen) Hns xs (map untimed polls) []
    1000000 fs HT) as (e & d & El & _).
  - rewrite map_map. exact Hcat.
  - rewrite Forall_map. exact Hel.
  - constructor.
  - rewrite Hlen, (Z.mul_comm clients) in El.
    destruct (bench_loop_replica am as_nanos _ polls 0 [] _ _ El Hel) as (new & E & Hn & HF).
    exists new, (e, calm d). split; [exact E|]. split; [|done].
    assert (Hl : len (concat (map tp_batch polls)) = clients * ops); [|lia].
    rewrite <- Hxs. rewrite <- (length_map td_delivery). rewrite concat_map, map_map, Hcat. unfold sent. by rewrite length_map.
Qed.

(** The figures of the benchmark. If the fabric delivers all the
    clients' operations in one order, the run ends with as many samples as operations;
    in every column the median is at most the 99th percentile; the delivery figures
    are true times since a message was sent, also when the 48-bit clock wraps; the
    durability figures are times taken by a delivery. *)
Lemma bench_figures clients ops keys pace durability xs polls sent_at :
  1 <= clients → clients < U32_MAX → 1 <= keys <= I64_MAX → 1 <= ops → 4 + 48 * (clients * ops) <= U32_MAX →
  total_order ops keys (seqZ 1 clients) xs.*2 → timed xs polls sent_at →
  ∃ r, run_bench am as_nanos (mkBenchConfig clients ops keys pace durability) polls (calm ∅) = Some r ∧ br_n r = clients * ops ∧
    delivery_p50 r <= delivery_p99 r ∧ durable_p50 r <= durable_p99 r ∧ commit_p50 r <= commit_p99 r ∧
    Forall (λ x, ∃ t, t ∈ concat (map tp_batch polls) ∧ x = td_now t - sent_at (td_delivery t).1)
      [delivery_p50 r; delivery_p99 r] ∧
    Forall (λ x, ∃ t, t ∈ concat (map tp_batch polls) ∧ x = td_durable t) [durable_p50 r; durable_p99 r] ∧
    Forall (λ x, ∃ t, t ∈ concat (map tp_batch polls) ∧ x = td_now t - sent_at (td_delivery t).1 + td_durable t)
      [commit_p50 r; commit_p99 r].
Proof.
  intros Hc Hcu Hk Ho HB HT HR.
  destruct (bench_loop_total clients ops keys (bool_decide (durability = Fsync)) xs polls sent_at Hc Hcu Hk Ho HB HT HR)
    as (new & s' & E & Hn & HS). pose proof (samples_true _ _ _ _ HR HS) as HF.
  assert (Hb : Forall (λ n : Z * Z, 0 <= n.1 < 2 ^ 48 ∧ 0 <= n.2 < 2 ^ 48) new).
  { eapply Forall_impl; [exact HF|]. by intros n (t & _ & _ & ?). }
  assert (Et : usize_arith am (ops * clients) = Some (ops * clients)).
  { unfold usize_arith. by rewrite bool_decide_true by (unfold U32_MAX in *; width_lia). }
  unfold run_bench. cbn [b_clients b_ops_per_client b_durability]. rewrite Et. cbn [mbind option_bind]. rewrite create_calm, E. unfold bench_result. rewrite commits_defined by done.
  cbn [mbind option_bind]. eexists. split; [reflexivity|].
  cbn [br_n delivery_p50 delivery_p99 durable_p50 durable_p99 commit_p50 commit_p99].
  assert (Hu : len new <= U64_MAX) by width_lia. assert (Hne : new ≠ []) by (intros ->; cbn in Hn; nia).
  destruct (pct_measured new.*1 ltac:(by rewrite length_fmap)) as [D1 D2].
  destruct (pct_measured new.*2 ltac:(by rewrite length_fmap)) as [D3 D4].
  destruct (pct_measured (map (λ n, n.1 + n.2) new) ltac:(by rewrite length_map)) as [D5 D6].
  destruct D6 as [D6 D6']; [by intros ->%fmap_nil_inv|].
  destruct D2 as [D2 D2']; [by intros ->%fmap_nil_inv|]. destruct D4 as [D4 D4']; [by intros ->%fmap_nil_inv|].
  rewrite Forall_forall in HF. rewrite !Forall_cons, !Forall_nil.
  assert (H1 : ∀ x, x ∈ new.*1 → ∃ t, t ∈ concat (map tp_batch polls) ∧ x = td_now t - sent_at (td_delivery t).1).
  { intros x (n & -> & Hin)%list_elem_of_fmap. destruct (HF n Hin) as (t & ? & -> & _). by exists t. }
  assert (H2 : ∀ x, x ∈ new.*2 → ∃ t, t ∈ concat (map tp_batch polls) ∧ x = td_durable t).
  { intros x (n & -> & Hin)%list_elem_of_fmap. destruct (HF n Hin) as (t & ? & -> & _). by exists t. }
  assert (H3 : ∀ x, x ∈ map (λ n, n.1 + n.2) new →
    ∃ t, t ∈ concat (map tp_batch polls) ∧ x = td_now t - sent_at (td_delivery t).1 + td_durable t).
  { intros x (n & -> & Hin)%list_elem_of_fmap. destruct (HF n Hin) as (t & ? & -> & _). by exists t. }
  split_and!; (lia || done || auto).
Qed.

(** C37: The latency benchmark measures every operation once, and truly. For any numbers
    of clients, operations and keys whose store fits the snapshot format, if the fabric
    delivers all the clients' operations in one order before the time runs out, and each
    message carries the low 48 bits of its send time, then in both builds the run ends
    with exactly one sample per operation; in each of the three columns the median is at
    most the 99th percentile; both delivery figures are the true time since one of the
    messages was sent, also when the 48-bit clock has wrapped in between (an age below
    [2 ^ 48] ns); both durability figures are the time one delivery took; and both commit
    figures are the sum of the two for one message. *)
Theorem bench_measures clients ops keys pace durability xs polls sent_at :
  1 <= clients → clients < U32_MAX → 1 <= keys <= I64_MAX → 1 <= ops → 4 + 48 * (clients * ops) <= U32_MAX →
  total_order ops keys (seqZ 1 clients) xs.*2 → timed xs polls sent_at →
  ∃ r, run_bench am as_nanos (mkBenchConfig clients ops keys pace durability) polls (calm ∅) = Some r ∧ br_n r = clients * ops ∧
    delivery_p50 r <= delivery_p99 r ∧ durable_p50 r <= durable_p99 r ∧ commit_p50 r <= commit_p99 r ∧
    Forall (λ x, ∃ t, t ∈ concat (map tp_batch polls) ∧ x = td_now t - sent_at (td_delivery t).1)
      [delivery_p50 r; delivery_p99 r] ∧
    Forall (λ x, ∃ t, t ∈ concat (map tp_batch polls) ∧ x = td_durable t) [durable_p50 r; durable_p99 r] ∧
    Forall (λ x, ∃ t, t ∈ concat (map tp_batch polls) ∧ x = td_now t - sent_at (td_delivery t).1 + td_durable t)
      [commit_p50 r; commit_p99 r].
Proof. apply bench_figures. Qed.
End Guarantees.

(** One client, two operations, sent just before the 48-bit clock wraps and handled just
    after; the second is delivered with the first's batch. *)
Definition ns48_w (z : Z) : Z := z mod 2 ^ 48.
Lemma ns48_w_u64 z : is_u64 (ns48_w z).
Proof. unfold ns48_w. pose proof (Z.mod_pos_bound z (2 ^ 48)). width_lia. Qed.

Definition bench_xs_w : list (Z * Op) :=
  map (λ i, (2 ^ 48 - 5 + i, op_incr 1 (i + 1) (key_name (i mod 1)) 1)) [0; 1].
Definition bench_polls_w : list (TimedPoll (Timestamp := Z)) :=
  [mkTimedPoll [] false;
   mkTimedPoll (imap (λ i d, mkTimed d (2 ^ 48 + 10 + Z.of_nat i) 7) (sent bench_xs_w)) false].

Lemma bench_measures_witness :
  ∃ r, run_bench Checked ns48_w (mkBenchConfig 1 2 1 300 Fsync) bench_polls_w (calm ∅) = Some r ∧ br_n r = 1 * 2 ∧
    delivery_p50 r <= delivery_p99 r ∧ durable_p50 r <= durable_p99 r ∧ commit_p50 r <= commit_p99 r ∧
    Forall (λ x, ∃ t, t ∈ concat (map tp_batch bench_polls_w) ∧ x = td_now t - id (td_delivery t).1)
      [delivery_p50 r; delivery_p99 r] ∧
    Forall (λ x, ∃ t, t ∈ concat (map tp_batch bench_polls_w) ∧ x = td_durable t) [durable_p50 r; durable_p99 r] ∧
    Forall (λ x, ∃ t, t ∈ concat (map tp_batch bench_polls_w) ∧ x = td_now t - id (td_delivery t).1 + td_durable t)
      [commit_p50 r; commit_p99 r].
Proof.
  apply (bench_measures Checked ns48_w ns48_w_u64 1 2 1 300 Fsync bench_xs_w bench_polls_w id); [lia|by vm_compute|by vm_compute|lia|by vm_compute| |].
  - split; [|by_decision]. intros c Hc. change (seqZ 1 1) with [1] in Hc. apply list_elem_of_singleton in Hc as ->. by vm_compute.
  - split; [by vm_compute|]. split; [repeat constructor|]. repeat constructor; by vm_compute.
Defined.
