(* ===== verification/Capture.v ===== *)
(** * Capture: rebuilding the streams of a captured server
    ([crates/onebarrier/src/bin/ob_replay.rs])

    The capture log holds what each connection received, interleaved in arrival
    order, as records [conn_id(4) len(4) bytes]. The replay tool groups them by
    connection and sends every connection its own stream. *)

From S2P Require Import Prelude Bytes Text Io State.
Local Open Scope Z_scope.

(** The streams by connection, and the connections in the order they appear. *)
Record Streams := mkStreams { conns : gmap Z bytes; order : list Z }.

(** One whole record. *)
Definition add_chunk (st : Streams) (cid : Z) (b : bytes) : Streams :=
  mkStreams (<[cid := default [] (conns st !! cid) ++ b]> (conns st))
    (if conns st !! cid is Some _ then order st else order st ++ [cid]).

(** The loop over what is left of the file; every iteration consumes at least eight
    bytes. *)
Fixpoint group_from (fuel : nat) (raw : bytes) (st : Streams) : Streams :=
  match fuel with
  | O => st
  | S fuel =>
      if (8 <=? length raw)%nat then
        let cid := from_le_bytes (take 4 raw) in
        let n := Z.to_nat (from_le_bytes (take 4 (drop 4 raw))) in
        let raw := drop 8 raw in
        if (length raw <? n)%nat then st
        else group_from fuel (drop n raw) (add_chunk st cid (take n raw))
      else st
  end.

Definition group_capture (raw : bytes) : Streams := group_from (length raw) raw (mkStreams ∅ []).

(** What the replay threads send: [conns[cid]] for every [cid] of [order]; [None] is
    a key that is not in the map. *)
Definition replay_streams (raw : bytes) : option (list (Z * bytes)) :=
  let st := group_capture raw in
  mapM (λ cid, (λ b, (cid, b)) <$> conns st !! cid) (order st).

(** The arguments; a value that is missing leaves the setting as it was. *)
Record ReplayConfig := mkReplay { rp_capture : bytes; rp_target : bytes }.
Fixpoint replay_args (c : ReplayConfig) (args : list bytes) : ReplayConfig :=
  match args with
  | [] => c
  | a :: args =>
      if bool_decide (a = bs "--capture") then
        match args with [] => c | v :: args => replay_args (mkReplay v (rp_target c)) args end
      else if bool_decide (a = bs "--target") then
        match args with [] => c | v :: args => replay_args (mkReplay (rp_capture c) v) args end
      else replay_args c args
  end.
Definition replay_default : ReplayConfig := mkReplay (bs "/tmp/ob-capture.log") (bs "127.0.0.1:6390").

(** The program, from its arguments after the first: [read] gives the contents of a file,
    [delivered] whether the thread of a connection could connect and send; a thread then
    reads until the server is silent. The result is what each thread sent, and the
    numbers printed; [None]: an error ends the program. *)
Definition ob_replay (args : list bytes) (read : bytes → option bytes) (delivered : Z → bool)
    : option (list (Z * bytes) * (Z * Z * bytes * bytes)) :=
  let c := replay_args replay_default args in
  raw ← read (rp_capture c);
  streams ← replay_streams raw;
  if forallb (λ st, delivered st.1) streams
  then Some (streams, (len streams, fold_left (λ total st, total + len st.2) streams 0, rp_capture c, rp_target c))
  else None.

(** ** Specification *)

Definition capture_record (r : Z * bytes) : bytes := to_le_bytes 4 r.1 ++ to_le_bytes 4 (len r.2) ++ r.2.

(** What connection [c] received. *)
Definition stream_of (c : Z) (rs : list (Z * bytes)) : bytes := concat (map snd (filter (λ r, r.1 = c) rs)).

(** The connections, each once, in the order of their first record. *)
Definition first_seen (rs : list (Z * bytes)) : list Z :=
  fold_left (λ acc c, if decide (c ∈ acc) then acc else acc ++ [c]) rs.*1 [].

Definition wf_chunk (r : Z * bytes) : Prop := is_u32 r.1 ∧ len r.2 <= U32_MAX.

(** ** Lemmas *)

Lemma length_capture_record r : length (capture_record r) = (8 + length r.2)%nat.
Proof. unfold capture_record. len_lia. Qed.

Lemma capture_fields r tail :
  take 4 (capture_record r ++ tail) = to_le_bytes 4 r.1 ∧
  take 4 (drop 4 (capture_record r ++ tail)) = to_le_bytes 4 (len r.2) ∧
  drop 8 (capture_record r ++ tail) = r.2 ++ tail.
Proof.
  unfold capture_record. rewrite <- !app_assoc. rewrite (take_to_le_bytes 4), (drop_to_le_bytes 4), (take_to_le_bytes 4).
  split_and!; [done..|]. change 8%nat with (4 + 4)%nat. by rewrite <- drop_drop, !(drop_to_le_bytes 4).
Qed.

(** A whole record is added, whatever follows it; a part of one is dropped. *)
Lemma group_from_record fuel r tail st :
  wf_chunk r → group_from (S fuel) (capture_record r ++ tail) st = group_from fuel tail (add_chunk st r.1 r.2).
Proof.
  intros [Hc Hb]. cbn [group_from]. destruct (capture_fields r tail) as (-> & -> & ->).
  rewrite length_app, length_capture_record, (proj2 (Nat.leb_le _ _)) by lia.
  rewrite !from_to_le_u32, Nat2Z.id by width_lia.
  rewrite length_app, (proj2 (Nat.ltb_ge _ _)) by lia. by rewrite take_len_app, drop_len_app.
Qed.

Lemma group_from_torn fuel r n st :
  wf_chunk r → (n < length (capture_record r))%nat → group_from fuel (take n (capture_record r)) st = st.
Proof.
  intros [Hc Hb] Hn. destruct fuel as [|fuel]; [done|]. cbn [group_from].
  destruct (Nat.leb_spec 8 (length (take n (capture_record r)))) as [Hl|]; [|done].
  rewrite length_take, length_capture_record in Hl. rewrite length_capture_record in Hn.
  destruct (capture_fields r []) as (_ & E4 & _). rewrite app_nil_r in E4.
  rewrite !skipn_firstn_comm, take_take, Nat.min_l, E4 by lia.
  rewrite from_to_le_u32, Nat2Z.id by width_lia.
  rewrite (proj2 (Nat.ltb_lt _ _)); [done|]. rewrite length_take, length_drop, length_capture_record. lia.
Qed.

Lemma group_from_records rs r n fuel st :
  Forall wf_chunk rs → wf_chunk r → (n < length (capture_record r))%nat → (length rs ≤ fuel)%nat →
  group_from fuel (concat (map capture_record rs) ++ take n (capture_record r)) st =
    fold_left (λ st r, add_chunk st r.1 r.2) rs st.
Proof.
  intros HF Hr Hn; revert fuel st; induction HF as [|x rs Hx _ IH]; intros fuel st Hf.
  { by apply group_from_torn. }
  destruct fuel as [|fuel]; [cbn in Hf; lia|]. cbn [map concat fold_left].
  rewrite <- app_assoc, group_from_record by done. apply IH. cbn in Hf. lia.
Qed.

Lemma capture_fuel rs tail : (length rs ≤ length (concat (map capture_record rs) ++ tail))%nat.
Proof.
  rewrite length_app. induction rs as [|r rs IH]; [cbn; lia|]. cbn [map concat length].
  rewrite length_app, length_capture_record. lia.
Qed.

Lemma first_seen_snoc rs r :
  first_seen (rs ++ [r]) = if decide (r.1 ∈ first_seen rs) then first_seen rs else first_seen rs ++ [r.1].
Proof. unfold first_seen. rewrite fmap_app. cbn [fmap list_fmap]. by rewrite fold_left_snoc. Qed.

Lemma elem_of_first_seen c rs : c ∈ first_seen rs ↔ c ∈ rs.*1.
Proof.
  induction rs as [|r rs IH] using rev_ind; [done|].
  rewrite first_seen_snoc, fmap_app, elem_of_app, <- IH. cbn. rewrite list_elem_of_singleton.
  case_decide as Hd; [split; [auto|by intros [?| ->]]|]. by rewrite elem_of_app, list_elem_of_singleton.
Qed.

Lemma first_seen_NoDup rs : NoDup (first_seen rs).
Proof.
  induction rs as [|r rs IH] using rev_ind; [constructor|]. rewrite first_seen_snoc.
  case_decide as Hd; [done|]. apply NoDup_app. split_and!; [done| |apply NoDup_singleton].
  by intros x Hx ->%list_elem_of_singleton.
Qed.

Lemma stream_of_absent c rs : c ∉ rs.*1 → stream_of c rs = [].
Proof.
  intros Hn. unfold stream_of. induction rs as [|r rs IH]; [done|]. cbn in Hn. apply not_elem_of_cons in Hn as [Hx Hn].
  rewrite filter_cons, decide_False by congruence. by apply IH.
Qed.

Lemma stream_of_snoc c rs r :
  stream_of c (rs ++ [r]) = stream_of c rs ++ (if decide (r.1 = c) then r.2 else []).
Proof.
  unfold stream_of. rewrite filter_app, filter_cons, filter_nil. case_decide.
  - rewrite map_app, concat_app. cbn. by rewrite app_nil_r.
  - by rewrite !app_nil_r.
Qed.

(** After the records [rs] the map holds every connection's stream. *)
Lemma streams_spec rs :
  let st := fold_left (λ st r, add_chunk st r.1 r.2) rs (mkStreams ∅ []) in
  order st = first_seen rs ∧
  ∀ c, conns st !! c = if decide (c ∈ first_seen rs) then Some (stream_of c rs) else None.
Proof.
  induction rs as [|[c0 b] rs [IHo IHc]] using rev_ind.
  { split; [done|]. intros c. rewrite decide_False; [done|]. apply not_elem_of_nil. }
  rewrite !fold_left_snoc. cbn zeta. set (st := fold_left _ rs _) in *. unfold add_chunk. cbn [conns order fst snd].
  rewrite first_seen_snoc. cbn [fst]. split.
  { rewrite IHc, IHo. by case_decide. }
  intros c. rewrite stream_of_snoc, IHc. cbn [fst snd]. destruct (decide (c0 = c)) as [<-|Hne].
  - rewrite lookup_insert_eq. destruct (decide (c0 ∈ first_seen rs)) as [Hin|Hin]; cbn.
    + by rewrite decide_True.
    + rewrite decide_True by (apply elem_of_app; right; constructor).
      by rewrite stream_of_absent by (by rewrite <- elem_of_first_seen).
  - rewrite lookup_insert_ne, IHc, app_nil_r by done. case_decide as H1; [|case_decide as H2].
    + rewrite decide_True; [done|]. case_decide; [done|]. apply elem_of_app. by left.
    + case_decide; [done|]. apply elem_of_app in H2 as [?|H2%list_elem_of_singleton]; done.
    + done.
Qed.

(** The bytes of all streams are the bytes of all records. *)
Lemma total_streams (streams : list (Z * bytes)) a :
  fold_left (λ total st, total + len st.2) streams a = a + fold_left (λ total st, total + len st.2) streams 0.
Proof.
  revert a; induction streams as [|st streams IH]; intros a; cbn [fold_left]; [lia|].
  rewrite IH, (IH (0 + _)). lia.
Qed.

Lemma stream_of_cons c r rs : len (stream_of c (r :: rs)) = (if decide (r.1 = c) then len r.2 else 0) + len (stream_of c rs).
Proof. unfold stream_of. rewrite filter_cons. case_decide; [|lia]. cbn [map concat]. rewrite length_app. lia. Qed.

Lemma total_bytes (cs : list Z) rs :
  NoDup cs → (∀ c, c ∈ rs.*1 → c ∈ cs) →
  fold_left (λ total st, total + len st.2) (map (λ c, (c, stream_of c rs)) cs) 0 =
    fold_left (λ total (r : Z * bytes), total + len r.2) rs 0.
Proof.
  intros Hnd. induction rs as [|r rs IH]; intros Hin.
  - clear. induction cs as [|c cs IH]; [done|]. cbn [map fold_left]. rewrite total_streams, IH. done.
  - cbn [fold_left]. rewrite (total_streams rs (0 + len r.2)).
    rewrite <- IH by (intros c Hc; apply Hin; by right). clear IH.
    assert (Hr : r.1 ∈ cs) by (apply Hin; left). clear Hin.
    induction cs as [|c cs IH]; [by apply elem_of_nil in Hr|]. apply NoDup_cons in Hnd as [Hn Hnd].
    cbn [map fold_left snd]. rewrite (total_streams _ (0 + len (stream_of c (r :: rs)))), (total_streams _ (0 + len (stream_of c rs))).
    rewrite stream_of_cons. case_decide as Hd.
    + subst c. assert (E : map (λ c, (c, stream_of c (r :: rs))) cs = map (λ c, (c, stream_of c rs)) cs); [|rewrite E; lia].
      apply map_ext_in. intros c Hc%list_elem_of_In. f_equal. unfold stream_of. rewrite filter_cons, decide_False; [done|].
      intros <-. done.
    + apply elem_of_cons in Hr as [Hr|Hr]; [done|]. rewrite IH by done. lia.
Qed.

(** The replay sends every connection what it received. From a capture of any
    interleaving of connections that ends in the middle of a record, the tool sends
    to each connection, once and in the order the connections appeared, exactly the
    bytes of its own whole records in order; no lookup fails; and it reports the number
    of connections and of all the bytes in whole records. *)
Lemma replay_preserves_streams rs r n args read delivered :
  let config := replay_args replay_default args in
  Forall wf_chunk rs → wf_chunk r → (n < length (capture_record r))%nat →
  read (rp_capture config) = Some (concat (map capture_record rs) ++ take n (capture_record r)) →
  (∀ c, c ∈ rs.*1 → delivered c = true) →
  ob_replay args read delivered =
    Some (map (λ c, (c, stream_of c rs)) (first_seen rs),
          (len (first_seen rs), fold_left (λ total (r : Z * bytes), total + len r.2) rs 0, rp_capture config, rp_target config)).
Proof.
  intros config HF Hr Hn Hread Hdel.
  assert (Hs : replay_streams (concat (map capture_record rs) ++ take n (capture_record r)) =
    Some (map (λ c, (c, stream_of c rs)) (first_seen rs))).
  2: { unfold ob_replay. fold config. rewrite Hread. cbn [mbind option_bind]. rewrite Hs. cbn [mbind option_bind].
    assert (Hf : forallb (λ st : Z * bytes, delivered st.1) (map (λ c, (c, stream_of c rs)) (first_seen rs)) = true).
    { apply forallb_forall. intros st (c & -> & Hc)%list_elem_of_In%list_elem_of_fmap. by apply Hdel, elem_of_first_seen. }
    rewrite Hf, length_map, total_bytes; [done|apply first_seen_NoDup|]. intros c Hc. by apply elem_of_first_seen. }
  unfold replay_streams, group_capture. rewrite group_from_records by (done || apply capture_fuel).
  destruct (streams_spec rs) as [-> Hc]. apply mapM_Some_2, Forall2_fmap_r, Forall_Forall2_diag, Forall_forall.
  intros c Hin. by rewrite Hc, decide_True.
Qed.
