(* ===== verification/Interpose.v ===== *)
(** * Interpose: the interception library
    ([interpose/obpreload.c])

    The library wraps the calls of an unmodified server. Bytes a server connection receives
    go to a capture log; time is virtual, or recorded and replayed; random bytes are
    recorded and replayed. A call carries what the wrapped function returned. The library
    opens every file its environment names and its writes succeed; a process that is
    killed leaves what it wrote, the last capture record and the buffered recording up to
    any byte. Pointers are not null. *)

From S2P Require Import Prelude Bytes Text Io Capture.
Local Open Scope Z_scope.

Definition MAXFD : Z := 65536.
Definition VCLOCK_TICK_NS : Z := 1000000.

(** ** State *)

Record Environ := mkEnviron {
  OB_NDSTATS : option bytes; OB_REPLAY : option bytes; OB_RECORD : option bytes; OB_CAPTURE : option bytes;
  OB_VCLOCK : option bytes; OB_VCLOCK_TICKS : option bytes; OB_VCLOCK_DELTAS : option bytes }.

(** Counters of intercepted calls. *)
Record NdStats := mkNd {
  nd_requests : Z; nd_gettimeofday : Z; nd_clock_gettime : Z; nd_getrandom : Z; nd_time : Z }.

(** [ob_mode]: recording keeps the whole stream written to [rec_fp] (the file holds what
    was flushed) and [rr_writes]; replay keeps the buffer from [rep_cursor] on and
    [rep_diverged]. *)
Inductive ObMode := ModeNone | ModeRecord (path stream : bytes) (writes : Z) | ModeReplay (rest : bytes) (diverged : Z).

(** [vclock_delta_mode]: a fixed tick; deltas measured since a monotonic time and appended
    to a file; the deltas still to be replayed. *)
Inductive DeltaMode := FixedTick | RecordDeltas (path : bytes) (last_mono : Z) | ReplayDeltas (rest : list Z).

Record VClock := mkVClock {
  vclock_base_ns : Z; vclock_ticks : Z; vclock_delta : DeltaMode; vclock_tick_file : option bytes }.

(** One process: [cap] is the file of the capture log, [files] the file system. *)
Record Shim := mkShim {
  env : Environ; files : gmap bytes bytes; nd : NdStats; ob_mode : ObMode; vclock : option VClock;
  is_conn : gset Z; conn_id_of : gmap Z Z; cap : option bytes; next_conn_id : Z }.

Definition set_files (fs : gmap bytes bytes) (sh : Shim) : Shim :=
  mkShim (env sh) fs (nd sh) (ob_mode sh) (vclock sh) (is_conn sh) (conn_id_of sh) (cap sh) (next_conn_id sh).
Definition set_nd (n : NdStats) (sh : Shim) : Shim :=
  mkShim (env sh) (files sh) n (ob_mode sh) (vclock sh) (is_conn sh) (conn_id_of sh) (cap sh) (next_conn_id sh).
Definition set_mode (m : ObMode) (sh : Shim) : Shim :=
  mkShim (env sh) (files sh) (nd sh) m (vclock sh) (is_conn sh) (conn_id_of sh) (cap sh) (next_conn_id sh).
Definition set_vclock (v : option VClock) (sh : Shim) : Shim :=
  mkShim (env sh) (files sh) (nd sh) (ob_mode sh) v (is_conn sh) (conn_id_of sh) (cap sh) (next_conn_id sh).
Definition set_conns (c : gset Z) (ids : gmap Z Z) (next : Z) (sh : Shim) : Shim :=
  mkShim (env sh) (files sh) (nd sh) (ob_mode sh) (vclock sh) c ids (cap sh) next.

(** [fwrite], or [write], at the end of a file. *)
Definition append_file (path b : bytes) (fs : gmap bytes bytes) : gmap bytes bytes :=
  <[path := default [] (fs !! path) ++ b]> fs.
(** [pwrite] at offset 0. *)
Definition write_front (path b : bytes) (fs : gmap bytes bytes) : gmap bytes bytes :=
  <[path := b ++ drop (length b) (default [] (fs !! path))]> fs.

(** ** Statistics *)

Definition mode_number (m : ObMode) : Z :=
  match m with ModeNone => 0 | ModeRecord _ _ _ => 1 | ModeReplay _ _ => 2 end.
Definition rep_diverged (m : ObMode) : Z := if m is ModeReplay _ d then d else 0.

Definition flush_record (sh : Shim) : Shim :=
  if ob_mode sh is ModeRecord path stream _ then set_files (<[path := stream]> (files sh)) sh else sh.

Definition nd_line (name : string) (v : Z) : bytes := bs name ++ bs " " ++ to_string v ++ [Byte.x0a].
Definition nd_text (sh : Shim) : bytes :=
  nd_line "requests" (nd_requests (nd sh)) ++ nd_line "gettimeofday" (nd_gettimeofday (nd sh)) ++
  nd_line "clock_gettime" (nd_clock_gettime (nd sh)) ++ nd_line "getrandom" (nd_getrandom (nd sh)) ++
  nd_line "time" (nd_time (nd sh)) ++ nd_line "mode" (mode_number (ob_mode sh)) ++
  nd_line "replay_diverged" (rep_diverged (ob_mode sh)).

(** Without a file for the statistics it returns before the flush. *)
Definition nd_dump (sh : Shim) : Shim :=
  match OB_NDSTATS (env sh) with
  | None => sh
  | Some path => flush_record (set_files (<[path := nd_text sh]> (files sh)) sh)
  end.

(** ** Start of a process *)

Definition rr_init (sh : Shim) : Shim :=
  match OB_REPLAY (env sh), OB_RECORD (env sh) with
  | Some rep, _ => if files sh !! rep is Some b then set_mode (ModeReplay b 0) sh else sh
  | None, Some rec => set_mode (ModeRecord rec [] 0) (set_files (<[rec := []]> (files sh)) sh)
  | None, None => sh
  end.

(** The capture log is opened for appending. *)
Definition ob_init (sh : Shim) : Shim :=
  match cap sh, OB_CAPTURE (env sh) with
  | None, Some path =>
      mkShim (env sh) (append_file path [] (files sh)) (nd sh) (ob_mode sh) (vclock sh) (is_conn sh) (conn_id_of sh)
        (Some path) (next_conn_id sh)
  | _, _ => sh
  end.

(** A path that is set and not empty. *)
Definition nonempty_path (p : option bytes) : option bytes := if p is Some [] then None else p.

(** The whole 8-byte integers of a file. *)
Fixpoint read_deltas (n : nat) (b : bytes) : list Z :=
  match n with O => [] | S n => i64_from_le_bytes (take 8 b) :: read_deltas n (drop 8 b) end.

(** The base: the file's, or the real time, which is then written to the file. *)
Definition init_base (p : bytes) (realtime : Z) (fs : gmap bytes bytes) : Z * gmap bytes bytes :=
  match fs !! p with
  | Some b => (if (8 <=? length b)%nat then i64_from_le_bytes (take 8 b) else 0, fs)
  | None => (realtime, <[p := to_le_bytes 8 realtime]> fs)
  end.

Definition init_ticks (tp : option bytes) (fs : gmap bytes bytes) : Z * gmap bytes bytes :=
  match nonempty_path tp with
  | None => (0, fs)
  | Some p =>
      let b := default [] (fs !! p) in
      (if (8 <=? length b)%nat then i64_from_le_bytes (take 8 b) else 0, append_file p [] fs)
  end.

Definition init_deltas (dp : option bytes) (mono : Z) (fs : gmap bytes bytes) : DeltaMode * gmap bytes bytes :=
  match nonempty_path dp with
  | None => (FixedTick, fs)
  | Some p =>
      let b := default [] (fs !! p) in
      if (8 <=? length b)%nat then (ReplayDeltas (read_deltas (length b / 8) b), fs)
      else (RecordDeltas p mono, <[p := []]> fs)
  end.

Definition vclock_init (realtime mono : Z) (sh : Shim) : Shim :=
  match OB_VCLOCK (env sh) with
  | None => sh
  | Some p =>
      let '(base, fs) := init_base p realtime (files sh) in
      let '(ticks, fs) := init_ticks (OB_VCLOCK_TICKS (env sh)) fs in
      let '(deltas, fs) := init_deltas (OB_VCLOCK_DELTAS (env sh)) mono fs in
      set_vclock (Some (mkVClock base ticks deltas (nonempty_path (OB_VCLOCK_TICKS (env sh))))) (set_files fs sh)
  end.

Definition shim_blank (e : Environ) (fs : gmap bytes bytes) : Shim :=
  mkShim e fs (mkNd 0 0 0 0 0) ModeNone None ∅ ∅ None 1.
Definition ob_ctor (e : Environ) (fs : gmap bytes bytes) (realtime mono : Z) : Shim :=
  vclock_init realtime mono (rr_init (ob_init (shim_blank e fs))).

(** ** Connections and input *)

Definition is_fd (fd : Z) : bool := (0 <=? fd) && (fd <? MAXFD).

Definition mark_conn (fd : Z) (sh : Shim) : Shim :=
  if is_fd fd then
    let sh := ob_init sh in
    set_conns ({[fd]} ∪ is_conn sh) (<[fd := next_conn_id sh]> (conn_id_of sh)) ((next_conn_id sh + 1) mod 2 ^ 32) sh
  else sh.

(** The advance of virtual time at an input that arrives at monotonic time [mono]. *)
Definition next_delta (mono : Z) (d : DeltaMode) : Z * DeltaMode :=
  match d with
  | ReplayDeltas [] => (0, ReplayDeltas [])
  | ReplayDeltas (d :: rest) => (d, ReplayDeltas rest)
  | RecordDeltas path last => (Z.max 0 (mono - last), RecordDeltas path mono)
  | FixedTick => (VCLOCK_TICK_NS, FixedTick)
  end.

Definition vclock_tick (mono : Z) (sh : Shim) : Shim :=
  match vclock sh with
  | None => sh
  | Some v =>
      let '(delta, mode) := next_delta mono (vclock_delta v) in
      let fs := if mode is RecordDeltas path _ then append_file path (to_le_bytes 8 delta) (files sh) else files sh in
      let t := i64_wrap (vclock_ticks v + delta) in
      let fs := if vclock_tick_file v is Some p then write_front p (to_le_bytes 8 t) fs else fs in
      set_vclock (Some (mkVClock (vclock_base_ns v) t mode (vclock_tick_file v))) (set_files fs sh)
  end.

Definition count_request (sh : Shim) : Shim :=
  let c := nd sh in
  set_nd (mkNd (nd_requests c + 1) (nd_gettimeofday c) (nd_clock_gettime c) (nd_getrandom c) (nd_time c)) sh.

Definition capture_id (sh : Shim) (fd : Z) : Z := default 0 (conn_id_of sh !! fd).

(** What one capture appends to the log. *)
Definition write_record (fd : Z) (b : bytes) (sh : Shim) : Shim :=
  if cap sh is Some path
  then set_files (append_file path (to_le_bytes 4 (capture_id sh fd) ++ to_le_bytes 4 (len b mod 2 ^ 32) ++ b) (files sh)) sh
  else sh.

(** [b] are the bytes read into the buffer, none when the call failed or the peer closed. *)
Definition capture (fd : Z) (b : bytes) (mono : Z) (sh : Shim) : Shim :=
  if bool_decide (b ≠ []) && is_fd fd && bool_decide (fd ∈ is_conn sh) then
    let sh := write_record fd b (vclock_tick mono (count_request sh)) in
    if Z.land (nd_requests (nd sh)) 63 =? 0 then nd_dump sh else sh
  else sh.

Definition shim_close (fd : Z) (sh : Shim) : Shim :=
  if is_fd fd then set_conns (is_conn sh ∖ {[fd]}) (<[fd := 0]> (conn_id_of sh)) (next_conn_id sh) sh else sh.

(** ** Time and randomness *)

(** Entries of the recording: a type and a payload. *)
Definition rr_record_fixed (type : Z) (payload : bytes) (sh : Shim) : Shim :=
  if ob_mode sh is ModeRecord path stream writes then
    let sh := set_mode (ModeRecord path (stream ++ to_le_bytes 1 type ++ payload) (writes + 1)) sh in
    if Z.land (writes + 1) 15 =? 0 then flush_record sh else sh
  else sh.

(** The payload of the next entry if it has the type and is whole; otherwise the replay
    has diverged. *)
Definition rr_replay_fixed (type : Z) (size : nat) (sh : Shim) : option bytes * Shim :=
  if ob_mode sh is ModeReplay rest diverged then
    if (1 + size <=? length rest)%nat && (from_le_bytes (take 1 rest) =? type)
    then (Some (take size (drop 1 rest)), set_mode (ModeReplay (drop (1 + size) rest) diverged) sh)
    else (None, set_mode (ModeReplay rest (diverged + 1)) sh)
  else (None, sh).

(** A [timeval] or [timespec]: two 8-byte integers. *)
Definition time_bytes (t : Z * Z) : bytes := to_le_bytes 8 t.1 ++ to_le_bytes 8 t.2.
Definition bytes_time (b : bytes) : Z * Z := (i64_from_le_bytes (take 8 b), i64_from_le_bytes (drop 8 b)).

Definition virtual_ns (v : VClock) : Z := vclock_base_ns v + vclock_ticks v.

Definition count_gettimeofday (sh : Shim) : Shim :=
  let c := nd sh in
  set_nd (mkNd (nd_requests c) (nd_gettimeofday c + 1) (nd_clock_gettime c) (nd_getrandom c) (nd_time c)) sh.
Definition count_clock_gettime (sh : Shim) : Shim :=
  let c := nd sh in
  set_nd (mkNd (nd_requests c) (nd_gettimeofday c) (nd_clock_gettime c + 1) (nd_getrandom c) (nd_time c)) sh.
Definition count_getrandom (sh : Shim) : Shim :=
  let c := nd sh in
  set_nd (mkNd (nd_requests c) (nd_gettimeofday c) (nd_clock_gettime c) (nd_getrandom c + 1) (nd_time c)) sh.
Definition count_time (sh : Shim) : Shim :=
  let c := nd sh in
  set_nd (mkNd (nd_requests c) (nd_gettimeofday c) (nd_clock_gettime c) (nd_getrandom c) (nd_time c + 1)) sh.

(** The part [gettimeofday] and [clock_gettime] share when the clock is not virtual: replay,
    or the real call, whose status is [r] and which leaves [real] in the structure. *)
Definition replay_or_real (type r : Z) (real : Z * Z) (count : Z) (sh : Shim) : (Z * (Z * Z)) * Shim :=
  let '(replayed, sh) := rr_replay_fixed type 16 sh in
  match replayed with
  | Some b => ((0, bytes_time b), sh)
  | None =>
      let sh := rr_record_fixed type (time_bytes real) sh in
      ((r, real), if count mod 50000 =? 0 then nd_dump sh else sh)
  end.

Definition gettimeofday (r : Z) (real : Z * Z) (sh : Shim) : (Z * (Z * Z)) * Shim :=
  let sh := count_gettimeofday sh in
  match vclock sh with
  | Some v =>
      let t := virtual_ns v in
      ((0, (Z.quot t 1000000000, Z.quot (Z.rem t 1000000000) 1000)), sh)
  | None => replay_or_real 1 r real (nd_gettimeofday (nd sh)) sh
  end.

Definition clock_gettime (r : Z) (real : Z * Z) (sh : Shim) : (Z * (Z * Z)) * Shim :=
  let sh := count_clock_gettime sh in
  match vclock sh with
  | Some v => let t := virtual_ns v in ((0, (Z.quot t 1000000000, Z.rem t 1000000000)), sh)
  | None => replay_or_real 2 r real (nd_clock_gettime (nd sh)) sh
  end.

Definition shim_time (real : Z) (sh : Shim) : Z * Shim :=
  let sh := count_time sh in
  match vclock sh with
  | Some v => (Z.quot (virtual_ns v) 1000000000, sh)
  | None =>
      let '(replayed, sh) := rr_replay_fixed 4 8 sh in
      match replayed with
      | Some b => (i64_from_le_bytes b, sh)
      | None => (real, rr_record_fixed 4 (to_le_bytes 8 real) sh)
      end
  end.

(** The next recorded bytes, if an entry of random bytes is next and whole. *)
Definition replay_random (sh : Shim) : option bytes * Shim :=
  if ob_mode sh is ModeReplay rest diverged then
    let rl := Z.to_nat (from_le_bytes (take 4 (drop 1 rest))) in
    if (5 <=? length rest)%nat && (from_le_bytes (take 1 rest) =? 3) && (5 + rl <=? length rest)%nat
    then (Some (take rl (drop 5 rest)), set_mode (ModeReplay (drop (5 + rl) rest) diverged) sh)
    else (None, set_mode (ModeReplay rest (diverged + 1)) sh)
  else (None, sh).

(** A request for [n] bytes; [real] is what the real call gave, [None] a failure. The recording
    is not flushed. *)
Definition getrandom (n : nat) (real : option bytes) (sh : Shim) : option bytes * Shim :=
  let '(replayed, sh) := replay_random (count_getrandom sh) in
  match replayed with
  | Some b => (Some (take n b), sh)
  | None =>
      (real,
       match ob_mode sh, real with
       | ModeRecord path stream writes, Some ((_ :: _) as b) =>
           set_mode (ModeRecord path (stream ++ to_le_bytes 1 3 ++ to_le_bytes 4 (len b mod 2 ^ 32) ++ b) writes) sh
       | _, _ => sh
       end)
  end.

(** ** The intercepted calls *)

(** [Accept] is [accept] and [accept4] with the descriptor returned (negative: an error);
    [Recv] is [read], [recv] and [recvfrom] with the bytes received ([None]: an error);
    [Recvmsg] has the bytes received and the memory from the base of the first of its
    buffers on ([None]: no buffer). *)
Inductive Call :=
  | Accept (fd : Z)
  | Bind (fd r : Z)
  | Recv (fd : Z) (received : option bytes) (mono : Z)
  | Recvmsg (fd : Z) (received : option bytes) (iov0 : option bytes) (mono : Z)
  | Close (fd r : Z)
  | Gettimeofday (r : Z) (real : Z * Z)
  | ClockGettime (r : Z) (real : Z * Z)
  | Time (real : Z)
  | Getrandom (n : nat) (real : option bytes).

(** What the server gets from a call. *)
Inductive Result := RStatus (r : Z) | RBytes (b : option bytes) | RClock (r : Z) (t : Z * Z) | RTime (t : Z).

Definition shim_call (c : Call) (sh : Shim) : Result * Shim :=
  let sh := match c with Gettimeofday _ _ | ClockGettime _ _ | Time _ | Getrandom _ _ => sh | _ => ob_init sh end in
  match c with
  | Accept fd => (RStatus fd, if 0 <=? fd then mark_conn fd sh else sh)
  | Bind fd r => (RStatus r, if r =? 0 then mark_conn fd sh else sh)
  | Recv fd received mono => (RBytes received, capture fd (default [] received) mono sh)
  | Recvmsg fd received iov0 mono =>
      (RBytes received,
       match received, iov0 with
       | Some ((_ :: _) as b), Some mem => capture fd (take (length b) mem) mono sh
       | _, _ => sh
       end)
  | Close fd r => (RStatus r, shim_close fd sh)
  | Gettimeofday r real => let '((r, t), sh) := gettimeofday r real sh in (RClock r t, sh)
  | ClockGettime r real => let '((r, t), sh) := clock_gettime r real sh in (RClock r t, sh)
  | Time real => let '(t, sh) := shim_time real sh in (RTime t, sh)
  | Getrandom n real => let '(b, sh) := getrandom n real sh in (RBytes b, sh)
  end.

Fixpoint shim_run (cs : list Call) (sh : Shim) : list Result * Shim :=
  match cs with
  | [] => ([], sh)
  | c :: cs =>
      let '(r, sh) := shim_call c sh in
      let '(rs, sh) := shim_run cs sh in (r :: rs, sh)
  end.

(** ** Calls that read time or random bytes *)

Definition mode_file (m : ObMode) : option bytes := if m is ModeRecord p _ _ then Some p else None.

(** A step that only counts, records, replays or writes statistics. *)
Record inert (sh sh' : Shim) : Prop := {
  in_files : ∀ path, mode_file (ob_mode sh) ≠ Some path → OB_NDSTATS (env sh) ≠ Some path → files sh' !! path = files sh !! path;
  in_env : env sh' = env sh;
  in_mode : mode_file (ob_mode sh') = mode_file (ob_mode sh);
  in_vclock : vclock sh' = vclock sh;
  in_conn : is_conn sh' = is_conn sh;
  in_ids : conn_id_of sh' = conn_id_of sh;
  in_cap : cap sh' = cap sh;
  in_next : next_conn_id sh' = next_conn_id sh;
  in_requests : nd_requests (nd sh') = nd_requests (nd sh);
}.

#[export] Instance inert_preorder : PreOrder inert.
Proof.
  split; [intros ?; by split|]. intros a b c [Hf1 ? ? ? ? ? ? ? ?] [Hf2 ? ? ? ? ? ? ? ?].
  split; try congruence. intros path H1 H2. rewrite Hf2, Hf1; congruence.
Qed.

Lemma inert_flush sh : inert sh (flush_record sh).
Proof.
  unfold flush_record. destruct (ob_mode sh) as [|p s w|] eqn:E; try done. split; try done.
  intros path H1 H2. rewrite E in H1. apply lookup_insert_ne. intros ->. by apply H1.
Qed.

Lemma inert_nd_dump sh : inert sh (nd_dump sh).
Proof.
  unfold nd_dump. destruct (OB_NDSTATS (env sh)) as [p|] eqn:E; [|done].
  etransitivity; [|apply inert_flush]. split; try done. intros path H1 H2. rewrite E in H2.
  apply lookup_insert_ne. intros ->. by apply H2.
Qed.

Lemma inert_set_mode m sh : mode_file m = mode_file (ob_mode sh) → inert sh (set_mode m sh).
Proof. by split. Qed.

Lemma inert_record_fixed type payload sh : inert sh (rr_record_fixed type payload sh).
Proof.
  unfold rr_record_fixed. destruct (ob_mode sh) as [|p s w|] eqn:E; try done.
  assert (Hq : inert sh (set_mode (ModeRecord p (s ++ to_le_bytes 1 type ++ payload) (w + 1)) sh)).
  { apply inert_set_mode. by rewrite E. }
  case_match; [|done]. etransitivity; [done|]. apply inert_flush.
Qed.

Lemma inert_replay_fixed type size sh : inert sh (rr_replay_fixed type size sh).2.
Proof.
  unfold rr_replay_fixed. destruct (ob_mode sh) as [| |rest d] eqn:E; [done..|].
  case_match; cbn [snd]; apply inert_set_mode; by rewrite E.
Qed.

Lemma inert_replay_or_real type r real count sh : inert sh (replay_or_real type r real count sh).2.
Proof.
  unfold replay_or_real. pose proof (inert_replay_fixed type 16 sh) as Hq.
  destruct (rr_replay_fixed type 16 sh) as [[b|] sh1]; [done|]. cbn [snd] in *.
  etransitivity; [done|]. pose proof (inert_record_fixed type (time_bytes real) sh1).
  case_match; [|done]. etransitivity; [done|]. apply inert_nd_dump.
Qed.

Lemma inert_getrandom n real sh : inert sh (getrandom n real sh).2.
Proof.
  unfold getrandom, replay_random. trans (count_getrandom sh); [by split|].
  destruct (ob_mode (count_getrandom sh)) as [|p s w|rest d] eqn:E.
  - rewrite E. by destruct real as [[|? ?]|].
  - rewrite E. destruct real as [[|x b]|]; try done. apply inert_set_mode. by rewrite E.
  - destruct (_ && _); cbn; [|destruct real as [[|? ?]|]]; apply inert_set_mode; by rewrite E.
Qed.

Definition reads_time (c : Call) : bool :=
  match c with Gettimeofday _ _ | ClockGettime _ _ | Time _ | Getrandom _ _ => true | _ => false end.

Lemma inert_time c sh : reads_time c = true → inert sh (shim_call c sh).2.
Proof.
  intros Hc. destruct c as [| | | | |r t|r t|t|n b]; try done; cbn [shim_call].
  - unfold gettimeofday. trans (count_gettimeofday sh); [by split|]. destruct (vclock _); [done|].
    pose proof (inert_replay_or_real 1 r t (nd_gettimeofday (nd (count_gettimeofday sh))) (count_gettimeofday sh)).
    by destruct (replay_or_real _ _ _ _ _) as [[? ?] ?].
  - unfold clock_gettime. trans (count_clock_gettime sh); [by split|]. destruct (vclock _); [done|].
    pose proof (inert_replay_or_real 2 r t (nd_clock_gettime (nd (count_clock_gettime sh))) (count_clock_gettime sh)).
    by destruct (replay_or_real _ _ _ _ _) as [[? ?] ?].
  - unfold shim_time. trans (count_time sh); [by split|]. destruct (vclock _); [done|].
    pose proof (inert_replay_fixed 4 8 (count_time sh)) as Hr.
    destruct (rr_replay_fixed 4 8 _) as [[x|] sh1]; cbn [snd] in *; [done|].
    etransitivity; [done|]. apply inert_record_fixed.
  - pose proof (inert_getrandom n b sh). by destruct (getrandom n b sh).
Qed.

Lemma ob_init_open sh : cap sh ≠ None → ob_init sh = sh.
Proof. unfold ob_init. by destruct (cap sh). Qed.
