(* ===== verification/CaptureReplay.v ===== *)
(** * CaptureReplay: from a captured server to its replay
    ([interpose/obpreload.c], [crates/onebarrier/src/bin/ob_replay.rs])

    What the interception library writes, the replay tool reads: every connection the
    server accepted is sent again exactly what the server received from it. *)

From S2P Require Import Prelude Bytes Text Io Capture Interpose.
Local Open Scope Z_scope.

(** ** Specification *)

(** The descriptor a call makes a server input: an accepted connection or a bound socket. *)
Definition mark_fd (c : Call) : option Z :=
  match c with
  | Accept fd => if is_fd fd then Some fd else None
  | Bind fd r => if (r =? 0) && is_fd fd then Some fd else None
  | _ => None
  end.

(** The number of descriptors marked; a connection's number is its place among them. *)
Definition marks (cs : list Call) : Z := len (omap mark_fd cs).

(** What is received from [fd] until it is closed or given to another connection. *)
Fixpoint lifetime (fd : Z) (cs : list Call) : bytes :=
  match cs with
  | [] => []
  | c :: cs =>
      if bool_decide (mark_fd c = Some fd) then [] else
      match c with
      | Close fd' _ => if fd' =? fd then [] else lifetime fd cs
      | Recv fd' (Some b) _ | Recvmsg fd' (Some b) _ _ => if fd' =? fd then b ++ lifetime fd cs else lifetime fd cs
      | _ => lifetime fd cs
      end
  end.

(** A call receives less than 4 GiB; [recvmsg] gets its datagram in the first buffer. *)
Definition wf_call (c : Call) : Prop :=
  match c with
  | Recv _ (Some b) _ => len b <= U32_MAX
  | Recvmsg _ (Some b) iov0 _ => len b <= U32_MAX ∧ ∃ behind, iov0 = Some (b ++ behind)
  | _ => True
  end.

(** ** The table of connections *)

(** Which descriptors are server inputs, their numbers, and the next number. *)
Definition Table : Type := gset Z * gmap Z Z * Z.
Definition table (sh : Shim) : Table := (is_conn sh, conn_id_of sh, next_conn_id sh).
Definition number (t : Table) (fd : Z) : Z := default 0 (t.1.2 !! fd).

Definition table_step (c : Call) (t : Table) : Table :=
  let '(live, ids, next) := t in
  match mark_fd c, c with
  | Some fd, _ => ({[fd]} ∪ live, <[fd := next]> ids, (next + 1) mod 2 ^ 32)
  | None, Close fd _ => if is_fd fd then (live ∖ {[fd]}, <[fd := 0]> ids, next) else t
  | None, _ => t
  end.

(** What a call receives, and the record it leaves. *)
Definition input (c : Call) : option (Z * bytes) :=
  match c with Recv fd (Some b) _ | Recvmsg fd (Some b) _ _ => Some (fd, b) | _ => None end.
Definition captured (c : Call) (t : Table) : list (Z * bytes) :=
  match input c with
  | Some (fd, b) =>
      if bool_decide (b ≠ []) && is_fd fd && bool_decide (fd ∈ t.1.1) then [(number t fd, b)] else []
  | None => []
  end.
Fixpoint records (cs : list Call) (t : Table) : list (Z * bytes) :=
  match cs with [] => [] | c :: cs => captured c t ++ records cs (table_step c t) end.

(** ** What the library writes to the capture log *)

(** Nothing else the process writes is the capture log [path]. *)
Definition delta_file (d : DeltaMode) : option bytes := if d is RecordDeltas p _ then Some p else None.
Record owns (path : bytes) (sh : Shim) : Prop := {
  ow_cap : cap sh = Some path;
  ow_stats : OB_NDSTATS (env sh) ≠ Some path;
  ow_mode : mode_file (ob_mode sh) ≠ Some path;
  ow_delta : (vclock sh ≫= λ v, delta_file (vclock_delta v)) ≠ Some path;
  ow_tick : (vclock sh ≫= vclock_tick_file) ≠ Some path;
}.

(** A step that leaves the capture log and the connections alone. *)
Definition quiet (path : bytes) (sh sh' : Shim) : Prop :=
  owns path sh' ∧ files sh' !! path = files sh !! path ∧ table sh' = table sh.

Section Log.
Context (path : bytes).

Lemma inert_quiet sh sh' : owns path sh → inert sh sh' → quiet path sh sh'.
Proof.
  intros [] [Hfs ? ? ? ? ? ? ? ?]. unfold quiet, table. split_and!; [split; congruence|by apply Hfs|congruence].
Qed.

Lemma quiet_refl sh : owns path sh → quiet path sh sh.
Proof. by split. Qed.

Lemma quiet_tick mono sh : owns path sh → quiet path sh (vclock_tick mono (count_request sh)).
Proof.
  intros Ho. unfold vclock_tick. change (vclock (count_request sh)) with (vclock sh).
  destruct (vclock sh) as [v|] eqn:E; [|destruct Ho; by repeat split].
  destruct (next_delta mono (vclock_delta v)) as [delta mode] eqn:En. destruct Ho as [H1 H2 H3 H4 H5].
  rewrite E in H4, H5. cbn in H4, H5.
  assert (Hd : delta_file mode = delta_file (vclock_delta v)).
  { destruct (vclock_delta v) as [| |[|? ?]]; cbn in En; by injection En as <- <-. }
  split_and!; [split; cbn; [done..| |done]; by rewrite Hd|cbn [files set_files set_vclock]|done].
  rewrite <- Hd in H4. change (files (count_request sh)) with (files sh).
  assert (Hf : (if mode is RecordDeltas p _ then append_file p (to_le_bytes 8 delta) (files sh) else files sh) !! path
    = files sh !! path).
  { destruct mode as [|p ?|]; try done. apply lookup_insert_ne. intros ->. by apply H4. }
  destruct (vclock_tick_file v) as [p|]; [|done]. unfold write_front. rewrite lookup_insert_ne; [done|].
  intros ->. by apply H5.
Qed.

(** ** One call *)

Lemma capture_spec fd b mono sh old :
  owns path sh → files sh !! path = Some old → len b <= U32_MAX →
  let sh' := capture fd b mono sh in
  owns path sh' ∧ table sh' = table sh ∧
  files sh' !! path = Some (old ++ concat (map capture_record
    (if bool_decide (b ≠ []) && is_fd fd && bool_decide (fd ∈ is_conn sh) then [(capture_id sh fd, b)] else []))).
Proof.
  intros Ho Hf Hb. unfold capture. case_match; [|by rewrite app_nil_r].
  destruct (quiet_tick mono sh Ho) as (Ho1 & Hf1 & Ht1). set (sh1 := vclock_tick mono (count_request sh)) in *.
  assert (Hw : owns path (write_record fd b sh1) ∧ table (write_record fd b sh1) = table sh ∧
    files (write_record fd b sh1) !! path = Some (old ++ concat (map capture_record [(capture_id sh fd, b)]))).
  { unfold write_record. rewrite (ow_cap _ _ Ho1). split_and!; [destruct Ho1; by split|done|].
    cbn [files set_files]. unfold append_file. rewrite Hf1, Hf. cbn [from_option id]. rewrite lookup_insert_eq. cbn [map concat].
    unfold capture_record, capture_id. injection Ht1 as _ Hi1 _. rewrite Hi1, app_nil_r. cbn [fst snd].
    rewrite Z.mod_small by width_lia. done. }
  destruct Hw as (Ho2 & Ht2 & Hf2). case_match; [|done].
  destruct (inert_quiet _ _ Ho2 (inert_nd_dump _)) as (? & Hf3 & Ht3). rewrite Ht3, Hf3. done.
Qed.

Lemma mark_conn_spec fd sh :
  owns path sh →
  let sh' := mark_conn fd sh in
  owns path sh' ∧ files sh' = files sh ∧
  table sh' = if is_fd fd then ({[fd]} ∪ is_conn sh, <[fd := next_conn_id sh]> (conn_id_of sh), (next_conn_id sh + 1) mod 2 ^ 32)
              else table sh.
Proof.
  intros Ho. unfold mark_conn. case_match; [|done]. rewrite ob_init_open by (by rewrite (ow_cap _ _ Ho)).
  destruct Ho. by repeat split.
Qed.

(** A call appends its record, if it leaves one, and changes the table. *)
Lemma call_spec c sh old :
  owns path sh → files sh !! path = Some old → wf_call c →
  let sh' := (shim_call c sh).2 in
  owns path sh' ∧ table sh' = table_step c (table sh) ∧
  files sh' !! path = Some (old ++ concat (map capture_record (captured c (table sh)))).
Proof.
  intros Ho Hf Hwf.
  assert (Hi : ob_init sh = sh) by (apply ob_init_open; by rewrite (ow_cap _ _ Ho)).
  assert (Hq : ∀ sh', quiet path sh sh' → owns path sh' ∧ table sh' = table sh ∧ files sh' !! path = Some (old ++ [])).
  { intros sh' (H1 & H2 & H3). rewrite app_nil_r. split_and!; congruence || done. }
  assert (Hm : ∀ fd, owns path (mark_conn fd sh) ∧ files (mark_conn fd sh) !! path = Some (old ++ []) ∧ _) by
    (intros fd; destruct (mark_conn_spec fd sh Ho) as (? & E & Ht); rewrite E, app_nil_r; split_and!; [done..|exact Ht]).
  destruct c as [fd|fd r|fd [b|] mono|fd [b|] iov mono|fd r| | | |].
  8-11: apply Hq, inert_quiet, inert_time; done.
  all: cbn [shim_call snd]; rewrite ?Hi; unfold captured; cbn [input].
  - destruct (Hm fd) as (H1 & H2 & H3). unfold table_step, table. cbn [mark_fd]. destruct (0 <=? fd) eqn:E.
    + split_and!; [done| |done]. fold (table (mark_conn fd sh)). rewrite H3. by destruct (is_fd fd).
    + unfold is_fd. rewrite E. cbn. by apply Hq, quiet_refl.
  - destruct (Hm fd) as (H1 & H2 & H3). unfold table_step, table. cbn [mark_fd]. destruct (r =? 0) eqn:E; cbn [andb].
    + split_and!; [done| |done]. fold (table (mark_conn fd sh)). rewrite H3. by destruct (is_fd fd).
    + by apply Hq, quiet_refl.
  - by apply (capture_spec fd b mono).
  - destruct (capture_spec fd [] mono sh old Ho Hf) as (H1 & H2 & H3); [cbn; width_lia|]. by split_and!.
  - destruct Hwf as [Hl [behind ->]]. destruct b as [|x b]; [by apply Hq, quiet_refl|].
    rewrite take_app_length. by apply (capture_spec fd (x :: b) mono).
  - by apply Hq, quiet_refl.
  - unfold shim_close, table_step, table. cbn [mark_fd]. destruct (is_fd fd); [|by apply Hq, quiet_refl].
    rewrite app_nil_r. destruct Ho. by repeat split.
Qed.

Lemma run_spec cs sh old :
  owns path sh → files sh !! path = Some old → Forall wf_call cs →
  let sh' := (shim_run cs sh).2 in
  owns path sh' ∧ table sh' = fold_left (λ t c, table_step c t) cs (table sh) ∧
  files sh' !! path = Some (old ++ concat (map capture_record (records cs (table sh)))).
Proof.
  intros Ho Hf HF. revert sh old Ho Hf. induction HF as [|c cs Hc _ IH]; intros sh old Ho Hf.
  { cbn. by rewrite app_nil_r. }
  cbn [shim_run records fold_left]. destruct (call_spec c sh old Ho Hf Hc) as (Ho1 & Ht & Hf1).
  destruct (shim_call c sh) as [r sh1]. cbn [snd] in *. specialize (IH sh1 _ Ho1 Hf1).
  destruct (shim_run cs sh1) as [rs sh2]. cbn [snd] in *. rewrite Ht in IH.
  by rewrite map_app, concat_app, app_assoc.
Qed.
End Log.

(** ** The streams of the records *)

(** Descriptors in use have numbers already given out, and no two have the same. *)
Record table_inv (t : Table) : Prop := {
  ti_fd : ∀ fd, fd ∈ t.1.1 → is_fd fd = true ∧ 1 <= number t fd < t.2;
  ti_inj : ∀ fd fd', fd ∈ t.1.1 → fd' ∈ t.1.1 → number t fd = number t fd' → fd = fd';
  ti_next : 1 <= t.2;
}.

Lemma marks_cons c cs : marks (c :: cs) = (if mark_fd c is Some _ then 1 else 0) + marks cs.
Proof. unfold marks. cbn [omap list_omap]. destruct (mark_fd c); cbn [length]; lia. Qed.
Lemma marks_nonneg cs : 0 <= marks cs.
Proof. unfold marks. lia. Qed.

Lemma table_step_next c cs t :
  1 <= t.2 → t.2 + marks (c :: cs) < 2 ^ 32 → (table_step c t).2 = t.2 + (if mark_fd c is Some _ then 1 else 0).
Proof.
  intros H1 H2. pose proof (marks_nonneg cs). rewrite marks_cons in H2. destruct t as [[live ids] next]. cbn [snd] in *.
  unfold table_step. destruct (mark_fd c) as [fd|] eqn:E; [cbn [snd]; rewrite Z.mod_small; lia|].
  destruct c; try (cbn; lia). destruct (is_fd fd); cbn; lia.
Qed.

Lemma mark_fd_is_fd c fd : mark_fd c = Some fd → is_fd fd = true.
Proof. destruct c; cbn; try done; repeat case_match; intros; simplify_eq; try done. by destruct (_ =? _). Qed.

Lemma elem_of_other (x fd : Z) (live : gset Z) : x ∈ {[fd]} ∪ live → x ≠ fd → x ∈ live.
Proof. by intros [->%elem_of_singleton|?]%elem_of_union ?. Qed.

Lemma table_step_inv c cs t : table_inv t → t.2 + marks (c :: cs) < 2 ^ 32 → table_inv (table_step c t).
Proof.
  intros [H1 H2 H3] Hb. pose proof (table_step_next c cs t H3 Hb) as Hn.
  destruct t as [[live ids] next]. unfold number in *. cbn [fst snd] in *.
  unfold table_step in *. destruct (mark_fd c) as [fd|] eqn:E.
  - pose proof (mark_fd_is_fd _ _ E) as Hfd. cbn [fst snd] in *. rewrite Hn. split; unfold number; cbn [fst snd]; [| |lia].
    + intros x [->%elem_of_singleton|Hx]%elem_of_union; [rewrite lookup_insert_eq; cbn [from_option id]; split; [done|lia]|].
      destruct (decide (x = fd)) as [->|Hne]; [rewrite lookup_insert_eq; cbn [from_option id]; split; [done|lia]|].
      rewrite lookup_insert_ne by done. destruct (H1 x Hx). split; [done|lia].
    + intros x y Hx Hy. destruct (decide (x = fd)) as [->|Hxn], (decide (y = fd)) as [->|Hyn]; [done|..];
        rewrite ?lookup_insert_eq, ?lookup_insert_ne by done; cbn [from_option id].
      * destruct (H1 y (elem_of_other _ _ _ Hy Hyn)). lia.
      * destruct (H1 x (elem_of_other _ _ _ Hx Hxn)). lia.
      * apply H2; by eapply elem_of_other.
  - destruct c as [| | | |fd r| | | |]; try (by split). destruct (is_fd fd); [|by split].
    split; unfold number; cbn [fst snd]; [| |done].
    + intros x [Hx Hne%not_elem_of_singleton]%elem_of_difference. rewrite lookup_insert_ne by done. by apply H1.
    + intros x y [Hx Hxn%not_elem_of_singleton]%elem_of_difference [Hy Hyn%not_elem_of_singleton]%elem_of_difference.
      rewrite !lookup_insert_ne by done. by apply H2.
Qed.


(** The cases of a call: it marks a descriptor, closes one, receives bytes, or does neither. *)
Lemma table_step_cases c t :
  (∃ fd, mark_fd c = Some fd ∧ captured c t = [] ∧
     table_step c t = ({[fd]} ∪ t.1.1, <[fd := t.2]> t.1.2, (t.2 + 1) mod 2 ^ 32)) ∨
  (∃ fd r, c = Close fd r ∧ is_fd fd = true ∧ mark_fd c = None ∧ captured c t = [] ∧
     table_step c t = (t.1.1 ∖ {[fd]}, <[fd := 0]> t.1.2, t.2)) ∨
  (mark_fd c = None ∧ table_step c t = t ∧ ∀ fd cs, is_fd fd = true →
     lifetime fd (c :: cs) = (if input c is Some (fd', b) then if fd' =? fd then b else [] else []) ++ lifetime fd cs).
Proof.
  destruct t as [[live ids] next]. cbn [fst snd]. unfold table_step. destruct (mark_fd c) as [fd|] eqn:E.
  { left. exists fd. split_and!; [done| |done]. by destruct c. }
  right. destruct c as [fd|fd r|fd [b|] m|fd [b|] i m|fd r| | | |]; cbn in E;
    try (right; split_and!; [done..|]; intros x cs Hx; cbn; rewrite ?E, ?bool_decide_false by done;
         cbn; try case_match; done).
  destruct (is_fd fd) eqn:Hfd; [left; by exists fd, r|right]. split_and!; [done..|]. intros x cs Hx. cbn.
  rewrite bool_decide_false by done. destruct (Z.eqb_spec fd x); [congruence|done].
Qed.

Lemma captured_live c t k b :
  (k, b) ∈ captured c t → b ≠ [] ∧ ∃ fd, fd ∈ t.1.1 ∧ k = number t fd ∧ input c = Some (fd, b).
Proof.
  unfold captured. destruct (input c) as [[fd b']|]; [|by intros ?%elem_of_nil].
  destruct (bool_decide (b' ≠ [])) eqn:E1, (is_fd fd), (bool_decide (fd ∈ t.1.1)) eqn:E2; cbn; try by intros ?%elem_of_nil.
  intros [= -> ->]%list_elem_of_singleton. apply bool_decide_eq_true in E1, E2. eauto 6.
Qed.

(** A number no descriptor has any more gets no further record. *)
Lemma records_gone cs t k :
  table_inv t → t.2 + marks cs < 2 ^ 32 → k < t.2 → (∀ fd, fd ∈ t.1.1 → number t fd ≠ k) → k ∉ (records cs t).*1.
Proof.
  revert t; induction cs as [|c cs IH]; intros t Hi Hb Hk Hl; [apply not_elem_of_nil|]. cbn [records].
  pose proof (table_step_next c cs t (ti_next _ Hi) Hb) as Hn. pose proof (table_step_inv c cs t Hi Hb) as Hi'.
  rewrite fmap_app. intros [[[k' b] [-> Hin]]%list_elem_of_fmap|Hin]%elem_of_app.
  { apply captured_live in Hin as (_ & fd & Hfd & -> & _). by eapply Hl. }
  revert Hin. apply IH; [done|rewrite marks_cons in Hb; lia|destruct (mark_fd c); lia|]. intros fd.
  destruct (table_step_cases c t) as [(fd0 & E & _ & Et)|[(fd0 & r & -> & _ & _ & _ & Et)|(_ & Et & _)]]; rewrite Et; unfold number; cbn [fst snd].
  - destruct (decide (fd = fd0)) as [->|Hne]; [rewrite lookup_insert_eq; cbn [from_option id]; lia|].
    rewrite lookup_insert_ne by done. intros Hx%elem_of_other; [by apply Hl|done].
  - intros [Hx Hne%not_elem_of_singleton]%elem_of_difference. rewrite lookup_insert_ne by done. by apply Hl.
  - apply Hl.
Qed.

Lemma stream_of_app c rs rs' : stream_of c (rs ++ rs') = stream_of c rs ++ stream_of c rs'.
Proof. unfold stream_of. by rewrite filter_app, map_app, concat_app. Qed.

(** The records a call leaves for a connection in use. *)
Lemma captured_stream c t fd :
  table_inv t → fd ∈ t.1.1 →
  stream_of (number t fd) (captured c t) = if input c is Some (fd', b) then if fd' =? fd then b else [] else [].
Proof.
  intros Hi Hfd. unfold captured. destruct (input c) as [[fd' b]|]; [|done].
  destruct (Z.eqb_spec fd' fd) as [->|Hne].
  - rewrite (proj1 (ti_fd _ Hi fd Hfd)), (bool_decide_true (fd ∈ _)) by done. rewrite !andb_true_r.
    case_bool_decide as Hb; [|by rewrite Hb].
    unfold stream_of. rewrite filter_cons, decide_True by done. cbn. by rewrite app_nil_r.
  - destruct (_ && bool_decide _) eqn:E; [|done]. apply andb_prop in E as [_ E%bool_decide_eq_true].
    apply stream_of_absent. intros Hin%list_elem_of_singleton. by apply Hne, (ti_inj _ Hi).
Qed.

(** A connection in use gets the records of what is left of its lifetime. *)
Lemma records_live cs t fd :
  table_inv t → t.2 + marks cs < 2 ^ 32 → fd ∈ t.1.1 → stream_of (number t fd) (records cs t) = lifetime fd cs.
Proof.
  revert t; induction cs as [|c cs IH]; intros t Hi Hb Hfd; [done|]. cbn [records].
  pose proof (table_step_next c cs t (ti_next _ Hi) Hb) as Hn. pose proof (table_step_inv c cs t Hi Hb) as Hi'.
  destruct (ti_fd _ Hi fd Hfd) as [Hisfd Hnum].
  assert (Hb' : (table_step c t).2 + marks cs < 2 ^ 32) by (rewrite marks_cons in Hb; lia).
  assert (Hgone : (∀ x, x ∈ (table_step c t).1.1 → number (table_step c t) x ≠ number t fd) →
    stream_of (number t fd) (records cs (table_step c t)) = []).
  { intros Hl. apply stream_of_absent, records_gone; [done..|destruct (mark_fd c); lia|done]. }
  rewrite stream_of_app, captured_stream by done.
  destruct (table_step_cases c t) as [(fd0 & E & Ec & Et)|[(fd0 & r & -> & Hfd0 & E & Ec & Et)|(E & Et & Hlife)]].
  - assert (Hc : (if input c is Some (fd', b) then if fd' =? fd then b else [] else []) = []) by (by destruct c).
    rewrite Hc. cbn [app lifetime]. rewrite E. destruct (decide (fd0 = fd)) as [->|Hne].
    + rewrite bool_decide_true by done. apply Hgone. rewrite Et. unfold number. cbn [fst snd]. intros x Hx.
      destruct (decide (x = fd)) as [->|Hxn]; [rewrite lookup_insert_eq; cbn [from_option id]; unfold number in Hnum; lia|].
      rewrite lookup_insert_ne by done. intros Heq. apply Hxn, (ti_inj _ Hi); [by eapply elem_of_other|done..].
    + rewrite bool_decide_false by congruence.
      assert (Hs : number t fd = number (table_step c t) fd) by (rewrite Et; unfold number; cbn; by rewrite lookup_insert_ne).
      rewrite Hs, IH; [by destruct c|done..|]. rewrite Et. cbn. by apply elem_of_union_r.
  - cbn [input app lifetime mark_fd]. rewrite bool_decide_false by done. destruct (Z.eqb_spec fd0 fd) as [->|Hne].
    + apply Hgone. rewrite Et. unfold number. cbn [fst snd].
      intros x [Hx Hxn%not_elem_of_singleton]%elem_of_difference. rewrite lookup_insert_ne by done.
      intros Heq. by apply Hxn, (ti_inj _ Hi).
    + assert (Hs : number t fd = number (table_step (Close fd0 r) t) fd) by (rewrite Et; unfold number; cbn; by rewrite lookup_insert_ne).
      rewrite Hs. apply IH; [done..|]. rewrite Et. cbn. apply elem_of_difference. split; [done|]. by apply not_elem_of_singleton.
  - rewrite Hlife by done. f_equal. rewrite Et in *. by apply IH.
Qed.

(** The connection of the [i]-th call, if that marks one, gets exactly its lifetime. *)
Lemma records_new cs t i c fd :
  table_inv t → t.2 + marks cs < 2 ^ 32 → cs !! i = Some c → mark_fd c = Some fd →
  stream_of (t.2 + marks (take i cs)) (records cs t) = lifetime fd (drop (S i) cs).
Proof.
  revert t i; induction cs as [|c0 cs IH]; intros t i Hi Hb Hc Hm; [done|].
  pose proof (table_step_next c0 cs t (ti_next _ Hi) Hb) as Hn. pose proof (table_step_inv c0 cs t Hi Hb) as Hi'.
  assert (Hb' : (table_step c0 t).2 + marks cs < 2 ^ 32) by (rewrite marks_cons in Hb; lia).
  cbn [records]. rewrite stream_of_app. destruct i as [|i].
  - injection Hc as ->. cbn [take drop]. destruct (table_step_cases c t) as [(fd0 & E & Ec & Et)|[(? & ? & _ & _ & ? & _)|(? & _)]]; [|congruence..].
    rewrite Hm in E. injection E as <-. rewrite Ec. cbn [stream_of filter app].
    replace (t.2 + marks []) with (number (table_step c t) fd).
    2: { rewrite Et. unfold number, marks. cbn [fst snd]. rewrite lookup_insert_eq. cbn. lia. }
    apply records_live; [done..|]. rewrite Et. cbn. apply elem_of_union_l, elem_of_singleton_2. done.
  - cbn [take drop]. rewrite marks_cons, Z.add_assoc, <- Hn, (IH _ i) by done. rewrite stream_of_absent; [done|].
    pose proof (marks_nonneg (take i cs)). intros ([k b] & Ek & (_ & x & Hx & -> & _)%captured_live)%list_elem_of_fmap.
    cbn [fst] in Ek. destruct (ti_fd _ Hi x Hx) as [_ Hnum]. destruct (mark_fd c0); lia.
Qed.

(** Every record belongs to a connection in use at the start or to one marked later. *)
Lemma records_origin cs t k b :
  table_inv t → t.2 + marks cs < 2 ^ 32 → (k, b) ∈ records cs t →
  b ≠ [] ∧ ((∃ fd, fd ∈ t.1.1 ∧ number t fd = k) ∨
            ∃ i c fd, cs !! i = Some c ∧ mark_fd c = Some fd ∧ k = t.2 + marks (take i cs)).
Proof.
  revert t; induction cs as [|c cs IH]; intros t Hi Hb; [by intros ?%elem_of_nil|]. cbn [records].
  pose proof (table_step_next c cs t (ti_next _ Hi) Hb) as Hn. pose proof (table_step_inv c cs t Hi Hb) as Hi'.
  intros [(Hb0 & fd & Hfd & -> & _)%captured_live|Hin]%elem_of_app; [eauto 6|].
  apply IH in Hin as [Hb0 Hor]; [|done|rewrite marks_cons in Hb; lia]. split; [done|]. destruct Hor as [(fd & Hfd & Hk)|Hor].
  - destruct (table_step_cases c t) as [(fd0 & E & _ & Et)|[(fd0 & r & -> & _ & _ & _ & Et)|(_ & Et & _)]];
      rewrite Et in Hfd, Hk; unfold number in *; cbn [fst snd] in *.
    + destruct (decide (fd = fd0)) as [->|Hne].
      * right. exists 0%nat, c, fd0. rewrite lookup_insert_eq in Hk. cbn in *. split_and!; [done..|]. unfold marks. cbn. lia.
      * rewrite lookup_insert_ne in Hk by done. left. exists fd. split; [by eapply elem_of_other|done].
    + apply elem_of_difference in Hfd as [Hfd Hne%not_elem_of_singleton]. rewrite lookup_insert_ne in Hk by done. eauto.
    + eauto.
  - right. destruct Hor as (i & c' & fd & Hc & Hm & ->). exists (S i), c', fd. cbn [take]. rewrite marks_cons, Hn.
    split_and!; [done..|]. lia.
Qed.

(** ** A new process *)

(** The environment names [path] for the capture log and for nothing else it writes. *)
Definition captures_to (e : Environ) (path : bytes) : Prop :=
  OB_CAPTURE e = Some path ∧ Forall (λ p, p ≠ Some path) [OB_NDSTATS e; OB_RECORD e; OB_VCLOCK e; OB_VCLOCK_TICKS e; OB_VCLOCK_DELTAS e].

#[export] Instance captures_to_dec e path : Decision (captures_to e path) := _.

Lemma nonempty_path_some p q : nonempty_path p = Some q → p = Some q.
Proof. by destruct p as [[|]|]. Qed.

Lemma vclock_init_owns e path rt mono sh old :
  env sh = e → captures_to e path → vclock sh = None → owns path sh → files sh !! path = Some old →
  let sh' := vclock_init rt mono sh in owns path sh' ∧ table sh' = table sh ∧ files sh' !! path = Some old.
Proof.
  intros <- [_ HF] Hv Ho Hf. unfold vclock_init. destruct (OB_VCLOCK (env sh)) as [p|] eqn:Ep; [|done].
  repeat (apply Forall_cons in HF as [? HF]).
  assert (Hbase : (init_base p rt (files sh)).2 !! path = Some old).
  { unfold init_base. destruct (files sh !! p) eqn:Eb; [done|]. cbn. rewrite lookup_insert_ne; congruence. }
  destruct (init_base p rt (files sh)) as [base fs1]. cbn [snd] in Hbase.
  assert (Htick : (init_ticks (OB_VCLOCK_TICKS (env sh)) fs1).2 !! path = Some old).
  { unfold init_ticks. destruct (nonempty_path _) eqn:En; [|done]. apply nonempty_path_some in En. cbn.
    unfold append_file. rewrite lookup_insert_ne; congruence. }
  destruct (init_ticks _ fs1) as [ticks fs2]. cbn [snd] in Htick.
  assert (Hd : (init_deltas (OB_VCLOCK_DELTAS (env sh)) mono fs2).2 !! path = Some old ∧
    delta_file (init_deltas (OB_VCLOCK_DELTAS (env sh)) mono fs2).1 ≠ Some path).
  { unfold init_deltas. destruct (nonempty_path (OB_VCLOCK_DELTAS _)) eqn:En; [|done]. apply nonempty_path_some in En.
    case_match; [done|]. cbn. rewrite lookup_insert_ne by congruence. split; congruence. }
  destruct (init_deltas _ mono fs2) as [d fs3]. destruct Ho. split_and!; [|done|by destruct Hd].
  split; cbn; [done..|by destruct Hd|]. intros En%nonempty_path_some. congruence.
Qed.

Lemma ctor_owns e path fs rt mono :
  captures_to e path →
  let sh := ob_ctor e fs rt mono in
  owns path sh ∧ table sh = (∅, ∅, 1) ∧ files sh !! path = Some (default [] (fs !! path)).
Proof.
  intros He. unfold ob_ctor. set (sh1 := ob_init (shim_blank e fs)).
  pose proof He as [Hc HF]. repeat (apply Forall_cons in HF as [? HF]).
  assert (E1 : sh1 = mkShim e (append_file path [] fs) (mkNd 0 0 0 0 0) ModeNone None ∅ ∅ (Some path) 1).
  { unfold sh1, ob_init. cbn. by rewrite Hc. }
  assert (Hrr : owns path (rr_init sh1) ∧ table (rr_init sh1) = (∅, ∅, 1) ∧ env (rr_init sh1) = e ∧
    vclock (rr_init sh1) = None ∧ files (rr_init sh1) !! path = Some (default [] (fs !! path))).
  { assert (Hf1 : append_file path [] fs !! path = Some (default [] (fs !! path))).
    { unfold append_file. by rewrite lookup_insert_eq, app_nil_r. }
    rewrite E1. unfold rr_init. cbn [env files]. destruct (OB_REPLAY e) as [rep|]; [|destruct (OB_RECORD e) as [rec|]].
    - destruct (append_file path [] fs !! rep); split_and!; try done; by split.
    - split_and!; try done. cbn. rewrite lookup_insert_ne; congruence.
    - split_and!; try done; by split. }
  destruct Hrr as (Ho & Ht & He2 & Hv & Hf). destruct (vclock_init_owns e path rt mono _ _ He2 He Hv Ho Hf) as (? & Ht2 & ?).
  rewrite Ht2. done.
Qed.

(** ** The round trip *)

(** The capture log of a process killed during call [c], of whose record only [n] bytes were
    written. *)
Definition killed_log (path : bytes) (c : Call) (n : nat) (sh : Shim) : bytes :=
  take (length (default [] (files sh !! path)) + n) (default [] (files (shim_call c sh).2 !! path)).

(** How long the record of a call is. *)
Definition record_size (path : bytes) (c : Call) (sh : Shim) : nat :=
  length (default [] (files (shim_call c sh).2 !! path)) - length (default [] (files sh !! path)).

(** The log is the records of the calls before and a part of one more. *)
Lemma killed_log_spec path c n sh t cs :
  owns path sh → files sh !! path = Some (concat (map capture_record (records cs t))) → wf_call c → table_inv (table sh) →
  next_conn_id sh <= U32_MAX → (n = 0 ∨ n < record_size path c sh)%nat →
  ∃ r, wf_chunk r ∧ (n < length (capture_record r))%nat ∧
    killed_log path c n sh = concat (map capture_record (records cs t)) ++ take n (capture_record r).
Proof.
  intros Ho Hf Hc Hi Hnext Hn. destruct (call_spec path c sh _ Ho Hf Hc) as (_ & _ & Hf').
  unfold record_size in Hn. unfold killed_log. rewrite Hf, Hf' in *. cbn [from_option id] in *.
  rewrite take_app_add. rewrite length_app in Hn.
  assert (Hz : n = 0%nat → ∃ r, wf_chunk r ∧ (n < length (capture_record r))%nat ∧ take n (concat (map capture_record (captured c (table sh)))) = take n (capture_record r)).
  { intros ->. exists (0, []). split_and!; [split; cbn; width_lia|rewrite length_capture_record; lia|done]. }
  cut (∃ r, wf_chunk r ∧ (n < length (capture_record r))%nat ∧ take n (concat (map capture_record (captured c (table sh)))) = take n (capture_record r)).
  { intros (r & H1 & H2 & ->). by exists r. }
  destruct Hn as [Hn|Hn]; [by apply Hz|]. clear Hz.
  destruct (captured c (table sh)) as [|[k b] [|? ?]] eqn:E; cbn [map concat length] in Hn; [cbn in Hn; lia| |].
  2: { exfalso. revert E. unfold captured. destruct (input c) as [[? ?]|]; [|done]. by case_match. }
  exists (k, b). cbn [map concat]. rewrite app_nil_r in *. split_and!; [|lia|done].
  assert (Hin : (k, b) ∈ captured c (table sh)) by (rewrite E; left). apply captured_live in Hin as (_ & fd & Hfd & -> & Hin).
  destruct (ti_fd _ Hi fd Hfd) as [_ Hr]. split; cbn [fst snd]; [change (table sh).2 with (next_conn_id sh) in Hr; width_lia|].
  destruct c as [| |? [?|] ?|? [?|] ? ?| | | | |]; cbn in Hin; try done; simplify_eq; [done|by destruct Hc].
Qed.

Lemma table_run_inv cs t :
  table_inv t → t.2 + marks cs < 2 ^ 32 →
  table_inv (fold_left (λ t c, table_step c t) cs t) ∧ (fold_left (λ t c, table_step c t) cs t).2 = t.2 + marks cs.
Proof.
  revert t; induction cs as [|c cs IH]; intros t Hi Hb; cbn [fold_left]; [split; [done|unfold marks; cbn; lia]|].
  pose proof (table_step_next c cs t (ti_next _ Hi) Hb) as Hn. pose proof (table_step_inv c cs t Hi Hb) as Hi'.
  rewrite marks_cons in Hb. destruct (IH _ Hi') as [H1 H2]; [lia|]. split; [done|]. rewrite H2, marks_cons. lia.
Qed.

Lemma records_len cs t k b : Forall wf_call cs → (k, b) ∈ records cs t → len b <= U32_MAX.
Proof.
  intros HF; revert t; induction HF as [|c cs Hc _ IH]; intros t; [by intros ?%elem_of_nil|]. cbn [records].
  intros [(_ & fd & _ & _ & Hin)%captured_live|Hin]%elem_of_app; [|by eapply IH].
  destruct c as [| |? [?|] ?|? [?|] ? ?| | | | |]; cbn in Hin; try done; simplify_eq; [done|by destruct Hc].
Qed.

Definition no_table : Table := (∅, ∅, 1).
Lemma no_table_inv : table_inv no_table.
Proof. split; cbn; [by intros ? ?%elem_of_empty|by intros ? ? ?%elem_of_empty|done]. Qed.

Lemma marks_take i cs : marks (take i cs) <= marks cs.
Proof.
  revert i; induction cs as [|c cs IH]; intros [|i]; cbn [take]; [done|done|apply marks_nonneg|].
  rewrite !marks_cons. specialize (IH i). lia.
Qed.

Lemma records_wf cs : Forall wf_call cs → marks cs < 2 ^ 32 - 1 → Forall wf_chunk (records cs no_table).
Proof.
  intros HF Hm. apply Forall_forall. intros [k b] Hin. split; cbn [fst snd]; [|by eapply records_len].
  destruct (records_origin cs no_table k b no_table_inv) as [_ [(fd & Hfd & _)|(i & c & fd & _ & _ & ->)]];
    [cbn; lia|done|by apply elem_of_empty in Hfd|].
  pose proof (marks_take i cs). pose proof (marks_nonneg (take i cs)). change (no_table.2) with 1. width_lia.
Qed.

(** Which connections are sent something, and what. *)
Lemma sent_iff cs k b :
  marks cs < 2 ^ 32 - 1 →
  (k, b) ∈ map (λ c, (c, stream_of c (records cs no_table))) (first_seen (records cs no_table)) ↔
  b ≠ [] ∧ ∃ i c fd, cs !! i = Some c ∧ mark_fd c = Some fd ∧ k = 1 + marks (take i cs) ∧ b = lifetime fd (drop (S i) cs).
Proof.
  intros Hm. assert (Hb : no_table.2 + marks cs < 2 ^ 32) by (cbn; lia). pose proof no_table_inv as Hi. split.
  - intros (c0 & [= <- ->] & ([k' b'] & -> & Hin)%elem_of_first_seen%list_elem_of_fmap)%list_elem_of_fmap. cbn [fst] in *.
    destruct (records_origin cs _ _ _ Hi Hb Hin) as [Hne [(fd & Hfd & _)|(i & c & fd & Hc & Hfd & Hk)]]; [by apply elem_of_empty in Hfd|].
    split; [|exists i, c, fd; split_and!; [done..|]; rewrite Hk; by apply (records_new cs no_table i c fd)].
    apply list_elem_of_split in Hin as (l1 & l2 & ->). rewrite stream_of_app. unfold stream_of at 2. rewrite filter_cons, decide_True by done.
    cbn. destruct b'; [done|]. by destruct (stream_of k' l1).
  - intros [Hne (i & c & fd & Hc & Hfd & -> & ->)]. rewrite <- (records_new cs no_table i c fd Hi Hb Hc Hfd) in *.
    apply list_elem_of_fmap. eexists. split; [done|]. apply elem_of_first_seen.
    destruct (decide (1 + marks (take i cs) ∈ (records cs no_table).*1)) as [|Hn]; [done|].
    exfalso. by apply Hne, stream_of_absent.
Qed.

(** What the replay of a killed process sends: the stream of every number in the log. *)
Lemma replay_of_killed e path fs rt mono cs c n args read delivered :
  captures_to e path → fs !! path = None → Forall wf_call (cs ++ [c]) → marks cs < 2 ^ 32 - 1 →
  let sh := (shim_run cs (ob_ctor e fs rt mono)).2 in
  let config := replay_args replay_default args in
  let sent := map (λ c, (c, stream_of c (records cs no_table))) (first_seen (records cs no_table)) in
  (n = 0 ∨ n < record_size path c sh)%nat →
  rp_capture config = path → read path = Some (killed_log path c n sh) → (∀ k, delivered k = true) →
  ∃ total, ob_replay args read delivered = Some (sent, (len sent, total, path, rp_target config)).
Proof.
  intros He Hfs HF Hm sh config sent Hn Hpath Hread Hdel. apply Forall_app in HF as [HF [Hc _]%Forall_cons].
  destruct (ctor_owns e path fs rt mono He) as (Ho & Ht & Hf). rewrite Hfs in Hf.
  destruct (run_spec path cs _ _ Ho Hf HF) as (Ho' & Ht' & Hf'). rewrite Ht in Ht', Hf'. fold sh in Ho', Ht', Hf'.
  destruct (table_run_inv cs no_table no_table_inv) as [Hi' Hnext]; [cbn; lia|]. unfold no_table in Hi', Hnext. rewrite <- Ht' in Hi', Hnext.
  destruct (killed_log_spec path c n sh no_table cs Ho' Hf' Hc Hi') as (r & Hr & Hnr & Hk); [|done|].
  { change (next_conn_id sh) with (table sh).2. rewrite Hnext. cbn [snd]. width_lia. }
  rewrite Hk, <- Hpath in Hread. eexists.
  rewrite (replay_preserves_streams (records cs no_table) r n args read delivered) by (done || by apply records_wf).
  subst config sent. by rewrite length_map, Hpath.
Qed.

(** C35: Capture and replay give every connection back what it sent. A server is started
    under the interception library with a capture log that does not exist yet, and receives
    less than 4 GiB at a time and, with [recvmsg], all of it in the first buffer
    ([wf_call]); whichever descriptors it reuses, it runs until it is killed, possibly in the
    middle of a record. The replay tool then opens one connection for every accepted one
    from which a whole record was captured, and sends it exactly the bytes the server
    received from it, in order; nothing of one connection reaches another. Neither
    condition can be dropped: see [restart_merges_connections] and
    [recvmsg_captures_wrong_bytes]. *)
Theorem capture_replay_roundtrip e path fs rt mono cs c n args read delivered :
  captures_to e path → fs !! path = None → Forall wf_call (cs ++ [c]) → marks cs < 2 ^ 32 - 1 →
  let sh := (shim_run cs (ob_ctor e fs rt mono)).2 in
  (n = 0 ∨ n < record_size path c sh)%nat →
  rp_capture (replay_args replay_default args) = path → read path = Some (killed_log path c n sh) →
  (∀ k, delivered k = true) →
  ∃ sent total target,
    ob_replay args read delivered = Some (sent, (len sent, total, path, target)) ∧ NoDup sent.*1 ∧
    ∀ k b, (k, b) ∈ sent ↔ b ≠ [] ∧ ∃ i c fd,
      cs !! i = Some c ∧ mark_fd c = Some fd ∧ k = 1 + marks (take i cs) ∧ b = lifetime fd (drop (S i) cs).
Proof.
  intros He Hfs HF Hm sh Hn Hpath Hread Hdel.
  destruct (replay_of_killed e path fs rt mono cs c n args read delivered He Hfs HF Hm Hn Hpath Hread Hdel) as [total E].
  eexists _, _, _. split; [exact E|]. split; [|intros k b; by apply sent_iff].
  rewrite <- list_fmap_compose. erewrite list_fmap_ext; [rewrite list_fmap_id; apply first_seen_NoDup|]. done.
Qed.

(** A descriptor is reused by a third connection; the server is killed in the second's next
    record. *)
Definition env_w : Environ := mkEnviron None None None (Some (bs "cap")) None None None.
Definition calls_w : list Call :=
  [Bind 3 0; Accept 4; Recv 4 (Some (bs "ab")) 0; Accept 5; Recv 5 (Some (bs "x")) 0; Close 4 0;
   Accept 4; Recv 4 (Some (bs "c")) 0; Recv 5 None 0].

Lemma capture_replay_roundtrip_witness :
  let sh := (shim_run calls_w (ob_ctor env_w ∅ 0 0)).2 in
  let c := Recv 5 (Some (bs "yz")) 0 in
  ∃ sent total target,
    ob_replay [bs "--capture"; bs "cap"] (λ f, if bool_decide (f = bs "cap") then Some (killed_log (bs "cap") c 9 sh) else None)
      (λ _, true) = Some (sent, (len sent, total, bs "cap", target)) ∧ NoDup sent.*1 ∧
    ∀ k b, (k, b) ∈ sent ↔ b ≠ [] ∧ ∃ i c fd,
      calls_w !! i = Some c ∧ mark_fd c = Some fd ∧ k = 1 + marks (take i calls_w) ∧ b = lifetime fd (drop (S i) calls_w).
Proof.
  apply (capture_replay_roundtrip env_w (bs "cap") ∅ 0 0 calls_w (Recv 5 (Some (bs "yz")) 0) 9).
  - by_decision.
  - reflexivity.
  - repeat constructor; cbn; width_lia.
  - vm_compute; reflexivity.
  - right. vm_compute. lia.
  - reflexivity.
  - reflexivity.
  - done.
Defined.

(** ** What the capture log does not keep *)

(** Numbers start at 1 in every process but the log is appended to: when a server is started
    again with the same log, its connections are merged with those of the process before. *)
Theorem restart_merges_connections :
  let run fs b := files (shim_run [Bind 3 0; Accept 4; Recv 4 (Some b) 0] (ob_ctor env_w fs 0 0)).2 in
  replay_streams (default [] (run (run ∅ (bs "first")) (bs "second") !! bs "cap")) = Some [(2, bs "firstsecond")].
Proof. by vm_compute. Qed.

(** [recvmsg] into two buffers: as many bytes are captured from the first as were received
    into both, so what lies behind the first is captured instead of the second. *)
Theorem recvmsg_captures_wrong_bytes :
  let calls := [Bind 3 0; Recvmsg 3 (Some (bs "abcd")) (Some (bs "abXY")) 0] in
  replay_streams (default [] (files (shim_run calls (ob_ctor env_w ∅ 0 0)).2 !! bs "cap")) = Some [(1, bs "abXY")].
Proof. by vm_compute. Qed.
