(* ===== verification/VirtualTime.v ===== *)
(** * VirtualTime: time and randomness under the interception library
    ([interpose/obpreload.c])

    Virtual time is a function of the base and of the inputs received, so a replay that
    receives as many inputs reads the same time however often it asks; recorded results
    are given back in order. *)

From S2P Require Import Prelude Bytes Text Io Capture Interpose.
Local Open Scope Z_scope.

(** ** The virtual clock *)

(** Two reads of the same clock; what the real clocks say does not matter. *)
Definition same_clock (q q' : Call) : bool :=
  match q, q' with
  | Gettimeofday _ _, Gettimeofday _ _ | ClockGettime _ _, ClockGettime _ _ | Time _, Time _ => true
  | _, _ => false
  end.

Lemma same_virtual_time q q' sh sh' v v' :
  vclock sh = Some v → vclock sh' = Some v' → virtual_ns v = virtual_ns v' → same_clock q q' = true →
  (shim_call q sh).1 = (shim_call q' sh').1.
Proof.
  intros Hv Hv' Hns Hq. destruct q, q'; try done; cbn [shim_call]; unfold gettimeofday, clock_gettime, shim_time;
    cbn [vclock count_gettimeofday count_clock_gettime count_time set_nd]; rewrite Hv, Hv'; cbn; by rewrite Hns.
Qed.

(** [path] is a file that only the clock writes. *)
Record spares (path : bytes) (sh : Shim) : Prop := {
  sp_cap : cap sh ≠ Some path;
  sp_capture : OB_CAPTURE (env sh) ≠ Some path;
  sp_stats : OB_NDSTATS (env sh) ≠ Some path;
  sp_mode : mode_file (ob_mode sh) ≠ Some path;
}.

(** A step that does not advance the clock. *)
Record calm (sh sh' : Shim) : Prop := {
  ca_vclock : vclock sh' = vclock sh;
  ca_requests : nd_requests (nd sh') = nd_requests (nd sh);
  ca_files : ∀ path, spares path sh → spares path sh' ∧ files sh' !! path = files sh !! path;
}.

#[export] Instance calm_preorder : PreOrder calm.
Proof.
  split; [intros ?; by split|]. intros a b c [H1 H2 H3] [H4 H5 H6]. split; try congruence.
  intros path Hs. destruct (H3 path Hs) as [Hb Hf]. destruct (H6 path Hb) as [Hc Hf']. split; [done|congruence].
Qed.

Lemma inert_calm sh sh' : inert sh sh' → calm sh sh'.
Proof.
  intros [Hf He Hm Hv _ _ Hc _ Hr]. split; try done. intros path [H1 H2 H3 H4].
  split; [split; congruence|by apply Hf].
Qed.

Lemma calm_ob_init sh : calm sh (ob_init sh).
Proof.
  unfold ob_init. destruct (cap sh) eqn:Ec; [done|]. destruct (OB_CAPTURE (env sh)) as [p|] eqn:Ep; [|done].
  split; try done. intros path [H1 H2 H3 H4]. split; [split; cbn; congruence|]. cbn. apply lookup_insert_ne. congruence.
Qed.

Lemma calm_mark_conn fd sh : calm sh (mark_conn fd sh).
Proof.
  unfold mark_conn. destruct (is_fd fd); [|done]. etransitivity; [apply calm_ob_init|].
  split; try done. intros path []. by repeat split.
Qed.

Lemma calm_shim_close fd sh : calm sh (shim_close fd sh).
Proof. unfold shim_close. destruct (is_fd fd); [|done]. split; try done. intros path []. by repeat split. Qed.

Lemma calm_write_record fd b sh : calm sh (write_record fd b sh).
Proof.
  unfold write_record. destruct (cap sh) as [p|] eqn:E; [|done]. split; try done. intros path [H1 H2 H3 H4].
  split; [split; cbn; congruence|]. cbn. apply lookup_insert_ne. congruence.
Qed.

(** An input at monotonic time [mono]: the clock ticks, and nothing else that matters here. *)
Definition ticks_to (mono : Z) (sh sh' : Shim) : Prop :=
  ∃ sh1, calm sh sh1 ∧ calm (vclock_tick mono (count_request sh1)) sh'.

Lemma capture_clock fd b mono sh : calm sh (capture fd b mono sh) ∨ ticks_to mono sh (capture fd b mono sh).
Proof.
  unfold capture. case_match; [|by left]. right. exists sh. split; [done|].
  case_match; [etransitivity; [|apply inert_calm, inert_nd_dump]|]; apply calm_write_record.
Qed.

Definition call_mono (c : Call) : Z := match c with Recv _ _ m | Recvmsg _ _ _ m => m | _ => 0 end.

(** A call either leaves the clock alone or is an input. *)
Lemma call_clock c sh : calm sh (shim_call c sh).2 ∨ ticks_to (call_mono c) sh (shim_call c sh).2.
Proof.
  destruct (reads_time c) eqn:E; [left; by apply inert_calm, inert_time|].
  pose proof (calm_ob_init sh) as Hi.
  assert (Hcap : ∀ fd b m, calm sh (capture fd b m (ob_init sh)) ∨ ticks_to m sh (capture fd b m (ob_init sh))).
  { intros fd b m. destruct (capture_clock fd b m (ob_init sh)) as [H|(sh1 & H1 & H2)]; [left; by etransitivity|right].
    exists sh1. split; [by etransitivity|done]. }
  destruct c as [fd|fd r|fd b m|fd b iov m|fd r| | | |]; try done; cbn [shim_call snd call_mono]; auto.
  - left. case_match; [|done]. etransitivity; [done|apply calm_mark_conn].
  - left. case_match; [|done]. etransitivity; [done|apply calm_mark_conn].
  - destruct b as [[|x b]|]; [by left| |by left]. destruct iov; [auto|by left].
  - left. etransitivity; [done|apply calm_shim_close].
Qed.

(** Virtual time past the base after inputs with these deltas. *)
Definition elapsed (ds : list Z) : Z := fold_left (λ t d, i64_wrap (t + d)) ds 0.
Lemma elapsed_snoc ds d : elapsed (ds ++ [d]) = i64_wrap (elapsed ds + d).
Proof. unfold elapsed. by rewrite fold_left_snoc. Qed.
Lemma elapsed_range ds : is_i64 (elapsed ds).
Proof. destruct ds as [|d ds _] using rev_ind; [cbn; width_lia|]. rewrite elapsed_snoc. apply i64_wrap_range. Qed.

(** *** Recording the deltas *)

Definition good_mono (c : Call) : Prop := 0 <= call_mono c <= I64_MAX.

Record recording (p d : bytes) (rt : Z) (ds : list Z) (sh : Shim) : Prop := {
  rc_clock : ∃ last, 0 <= last <= I64_MAX ∧ vclock sh = Some (mkVClock rt (elapsed ds) (RecordDeltas d last) None);
  rc_count : nd_requests (nd sh) = len ds;
  rc_base : files sh !! p = Some (to_le_bytes 8 rt);
  rc_log : files sh !! d = Some (concat (map (to_le_bytes 8) ds));
  rc_i64 : Forall is_i64 ds;
  rc_spares : spares p sh ∧ spares d sh;
}.

Section Recording.
Context (p d : bytes) (rt : Z) (Hpd : p ≠ d).

Lemma recording_calm ds sh sh' : calm sh sh' → recording p d rt ds sh → recording p d rt ds sh'.
Proof.
  intros [Hv Hr Hf] [H1 H2 H3 H4 H5 [Hp Hd]]. destruct (Hf p Hp) as [Hp' Ep], (Hf d Hd) as [Hd' Ed].
  split; rewrite ?Hv, ?Hr, ?Ep, ?Ed; done.
Qed.

Lemma recording_tick mono ds sh :
  0 <= mono <= I64_MAX → recording p d rt ds sh → ∃ x, recording p d rt (ds ++ [x]) (vclock_tick mono (count_request sh)).
Proof.
  intros Hm [(last & Hl & Hv) Hc Hb Hlog Hi [[] []]]. set (x := Z.max 0 (mono - last)). exists x.
  assert (Hx : is_i64 x) by (unfold x; width_lia).
  unfold vclock_tick. change (vclock (count_request sh)) with (vclock sh). rewrite Hv.
  cbn [next_delta vclock_delta vclock_ticks vclock_base_ns vclock_tick_file]. fold x. split.
  - exists mono. cbn. by rewrite elapsed_snoc.
  - cbn. rewrite Hc, length_app. cbn. lia.
  - cbn. unfold append_file. by rewrite lookup_insert_ne.
  - cbn. unfold append_file. rewrite Hlog, lookup_insert_eq, map_app, concat_app. cbn. by rewrite app_nil_r.
  - apply Forall_app. split; [done|by constructor].
  - by repeat split.
Qed.

Lemma recording_run cs ds sh :
  Forall good_mono cs → recording p d rt ds sh → ∃ ds', recording p d rt (ds ++ ds') (shim_run cs sh).2.
Proof.
  intros HF; revert ds sh; induction HF as [|c cs Hc _ IH]; intros ds sh Hr.
  { exists []. by rewrite app_nil_r. }
  assert (Hstep : ∃ ds1, recording p d rt (ds ++ ds1) (shim_call c sh).2).
  { destruct (call_clock c sh) as [Hcalm|(sh1 & H1 & H2)]; [exists []; rewrite app_nil_r; by eapply recording_calm|].
    destruct (recording_tick (call_mono c) ds sh1 Hc) as [x Hx]; [by eapply recording_calm|].
    exists [x]. by eapply recording_calm. }
  destruct Hstep as [ds1 Hs]. cbn [shim_run]. destruct (shim_call c sh) as [r sh1]. cbn [snd] in *.
  destruct (IH _ _ Hs) as [ds2 H2]. destruct (shim_run cs sh1) as [rs sh2]. exists (ds1 ++ ds2). by rewrite app_assoc.
Qed.
End Recording.

(** *** Replaying them *)

(** The clock of a replay that has received as many inputs as it has taken deltas. *)
Definition replaying (rt : Z) (ds : list Z) (sh : Shim) : Prop :=
  ∃ k, nd_requests (nd sh) = Z.of_nat k ∧
    vclock sh = Some (mkVClock rt (elapsed (take k ds)) (ReplayDeltas (drop k ds)) None).

Lemma replaying_calm rt ds sh sh' : calm sh sh' → replaying rt ds sh → replaying rt ds sh'.
Proof. intros [Hv Hr _] (k & Hk & Hc). exists k. by rewrite Hv, Hr. Qed.

Lemma replaying_tick rt ds mono sh : replaying rt ds sh → replaying rt ds (vclock_tick mono (count_request sh)).
Proof.
  intros (k & Hk & Hv). exists (S k). unfold vclock_tick. change (vclock (count_request sh)) with (vclock sh). rewrite Hv.
  cbn [next_delta vclock_delta vclock_ticks vclock_base_ns vclock_tick_file]. destruct (drop k ds) as [|x rest] eqn:E; cbn.
  - split; [lia|]. assert (Hl : (length ds ≤ k)%nat) by (apply (f_equal length) in E; rewrite length_drop in E; cbn in E; lia).
    rewrite Z.add_0_r, i64_wrap_small by apply elapsed_range. rewrite !take_ge, drop_ge by lia. done.
  - split; [lia|].
    assert (Hx : ds !! k = Some x) by (rewrite <- (Nat.add_0_r k), <- lookup_drop, E; done).
    assert (Hrest : drop (S k) ds = rest) by (by rewrite <- (Nat.add_1_r k), <- drop_drop, E).
    by rewrite Hrest, (take_S_r _ _ x), elapsed_snoc.
Qed.

Lemma replaying_run rt ds cs sh : replaying rt ds sh → replaying rt ds (shim_run cs sh).2.
Proof.
  revert sh; induction cs as [|c cs IH]; intros sh Hr; [done|]. cbn [shim_run].
  assert (Hs : replaying rt ds (shim_call c sh).2).
  { destruct (call_clock c sh) as [Hcalm|(sh1 & H1 & H2)]; [by eapply replaying_calm|].
    eapply replaying_calm, replaying_tick, replaying_calm; done. }
  destruct (shim_call c sh) as [r sh1]. cbn [snd] in Hs. apply IH in Hs. by destruct (shim_run cs sh1).
Qed.

Lemma read_deltas_spec ds tail : Forall is_i64 ds → read_deltas (length ds) (concat (map (to_le_bytes 8) ds) ++ tail) = ds.
Proof.
  intros HF; induction HF as [|d ds Hd _ IH]; [done|]. cbn [map concat length read_deltas]. rewrite <- app_assoc.
  rewrite take_to_le_bytes, drop_to_le_bytes, i64_from_to_le by done. by rewrite IH.
Qed.

Lemma length_deltas ds : length (concat (map (to_le_bytes 8) ds)) = (8 * length ds)%nat.
Proof. induction ds as [|d ds IH]; [done|]. cbn [map concat length]. rewrite length_app, length_to_le_bytes, IH. lia. Qed.

(** *** The two processes *)

(** The clock's files: the base and the deltas are in files of their own, and nothing
    else is written there. *)
Definition clock_env (e : Environ) (p d : bytes) : Prop :=
  OB_VCLOCK e = Some p ∧ OB_VCLOCK_DELTAS e = Some d ∧ OB_VCLOCK_TICKS e = None ∧ d ≠ [] ∧ p ≠ d ∧
  Forall (λ q, q ≠ Some p ∧ q ≠ Some d) [OB_NDSTATS e; OB_RECORD e; OB_CAPTURE e].

#[export] Instance clock_env_dec e p d : Decision (clock_env e p d) := _.

(** What the library does at start before the clock: the clock's files are as they were. *)
Lemma before_clock e p d fs path :
  clock_env e p d → path = p ∨ path = d →
  let sh := rr_init (ob_init (shim_blank e fs)) in
  env sh = e ∧ nd_requests (nd sh) = 0 ∧ spares path sh ∧ files sh !! path = fs !! path.
Proof.
  intros (_ & _ & _ & _ & _ & HF) Hpath. repeat (apply Forall_cons in HF as [[? ?] HF]).
  assert (Hi : calm (shim_blank e fs) (ob_init (shim_blank e fs))) by apply calm_ob_init.
  assert (Hs : spares path (shim_blank e fs)) by (split; cbn; destruct Hpath; subst; done).
  assert (He : env (ob_init (shim_blank e fs)) = e) by (unfold ob_init; cbn; by destruct (OB_CAPTURE e)).
  assert (Hm : ob_mode (ob_init (shim_blank e fs)) = ModeNone) by (unfold ob_init; cbn; by destruct (OB_CAPTURE e)).
  destruct (ca_files _ _ Hi path Hs) as [Hs' Hf]. pose proof (ca_requests _ _ Hi) as Hr. cbn in Hf, Hr.
  set (sh := ob_init _) in *. unfold rr_init. rewrite He.
  destruct (OB_REPLAY e) as [rep|]; [|destruct (OB_RECORD e) as [rec|]].
  - destruct Hs' as [? ? ? ?]. destruct (files sh !! rep); split_and!; done.
  - destruct Hs' as [? ? ? ?]. cbn. split_and!; [done..| |].
    + split; cbn; [done..|]. destruct Hpath as [-> | ->]; done.
    + rewrite lookup_insert_ne; [done|]. destruct Hpath; congruence.
  - done.
Qed.

Lemma live_start e p d fs rt mono :
  clock_env e p d → fs !! p = None → fs !! d = None → 0 <= mono <= I64_MAX →
  recording p d rt [] (ob_ctor e fs rt mono).
Proof.
  intros He Hp Hd Hm. destruct (before_clock e p d fs p He) as (Hev & Hn & Hsp & Hfp); [by left|].
  destruct (before_clock e p d fs d He) as (_ & _ & Hsd & Hfd); [by right|].
  destruct He as (E1 & E2 & E3 & Hdn & Hpd & _). unfold ob_ctor, vclock_init. set (sh := rr_init _) in *.
  rewrite Hev, E1. unfold init_base. rewrite Hfp, Hp. rewrite E3. cbn [init_ticks nonempty_path].
  unfold init_deltas. rewrite E2. destruct d as [|x d]; [done|]. cbn [nonempty_path].
  rewrite lookup_insert_ne, Hfd, Hd by done. cbn.
  destruct Hsp, Hsd. split; cbn; [by exists mono|done| | |done|by repeat split].
  - rewrite lookup_insert_ne, lookup_insert_eq by done. done.
  - by rewrite lookup_insert_eq.
Qed.

Lemma replay_start e p d fs rt ds rt' mono' :
  clock_env e p d → fs !! p = Some (to_le_bytes 8 rt) → is_i64 rt →
  fs !! d = Some (concat (map (to_le_bytes 8) ds)) → Forall is_i64 ds → ds ≠ [] →
  replaying rt ds (ob_ctor e fs rt' mono').
Proof.
  intros He Hp Hrt Hd Hi Hne. destruct (before_clock e p d fs p He) as (Hev & Hn & Hsp & Hfp); [by left|].
  destruct (before_clock e p d fs d He) as (_ & _ & Hsd & Hfd); [by right|].
  destruct He as (E1 & E2 & E3 & Hdn & Hpd & _). unfold ob_ctor, vclock_init. set (sh := rr_init _) in *.
  rewrite Hev, E1. unfold init_base. rewrite Hfp, Hp, length_to_le_bytes. cbn [Nat.leb].
  rewrite take_ge, i64_from_to_le by (done || by rewrite length_to_le_bytes). rewrite E3. cbn [init_ticks nonempty_path].
  unfold init_deltas. rewrite E2. destruct d as [|x d]; [done|]. cbn [nonempty_path]. rewrite Hfd, Hd. cbn [from_option id].
  rewrite length_deltas. rewrite (proj2 (Nat.leb_le _ _)) by (destruct ds; [done|cbn; lia]).
  rewrite (Nat.mul_comm 8), Nat.div_mul by done.
  rewrite <- (app_nil_r (concat _)), read_deltas_spec by done. exists 0%nat. cbn. split; [by rewrite Hn|done].
Qed.

(** Without an input before the crash no delta was recorded, and the second process records
    anew from the same base. *)
Lemma restart_empty e p d fs rt rt' mono' :
  clock_env e p d → fs !! p = Some (to_le_bytes 8 rt) → is_i64 rt → fs !! d = Some [] →
  let sh := ob_ctor e fs rt' mono' in
  nd_requests (nd sh) = 0 ∧ ∃ mode, vclock sh = Some (mkVClock rt 0 mode None).
Proof.
  intros He Hp Hrt Hd. destruct (before_clock e p d fs p He) as (Hev & Hn & _ & Hfp); [by left|].
  destruct (before_clock e p d fs d He) as (_ & _ & _ & Hfd); [by right|].
  destruct He as (E1 & E2 & E3 & Hdn & Hpd & _). unfold ob_ctor, vclock_init. set (sh := rr_init _) in *.
  rewrite Hev, E1. unfold init_base. rewrite Hfp, Hp, length_to_le_bytes. cbn [Nat.leb].
  rewrite take_ge, i64_from_to_le by (done || by rewrite length_to_le_bytes). rewrite E3. cbn [init_ticks nonempty_path].
  unfold init_deltas. rewrite E2. destruct d as [|x d]; [done|]. cbn [nonempty_path]. rewrite Hfd, Hd. cbn. eauto.
Qed.

(** The clock stands still between inputs. *)
Lemma idle_clock cs sh :
  nd_requests (nd sh) <= nd_requests (nd (shim_run cs sh).2) ∧
  (nd_requests (nd (shim_run cs sh).2) = nd_requests (nd sh) → vclock (shim_run cs sh).2 = vclock sh).
Proof.
  revert sh; induction cs as [|c cs IH]; intros sh; [cbn; split; [lia|done]|]. cbn [shim_run].
  assert (Hs : calm sh (shim_call c sh).2 ∨ nd_requests (nd (shim_call c sh).2) = nd_requests (nd sh) + 1).
  { destruct (call_clock c sh) as [|(sh1 & [_ E1 _] & [_ E2 _])]; [by left|right]. rewrite E2, <- E1.
    unfold vclock_tick. cbn [vclock count_request set_nd]. destruct (vclock sh1) as [v|]; [|done]. by destruct (next_delta _ _). }
  destruct (shim_call c sh) as [r sh1]. cbn [snd] in Hs. specialize (IH sh1). destruct (shim_run cs sh1) as [rs sh2].
  cbn [snd] in *. destruct IH as [IH1 IH2], Hs as [[Hv Hr _]|Hr]; [rewrite Hv, Hr in *; done|]. split; [lia|]. lia.
Qed.

Lemma shim_run_app cs cs' sh : (shim_run (cs ++ cs') sh).2 = (shim_run cs' (shim_run cs sh).2).2.
Proof.
  revert sh; induction cs as [|c cs IH]; intros sh; [done|]. cbn [app shim_run]. destruct (shim_call c sh) as [r sh1].
  specialize (IH sh1). destruct (shim_run (cs ++ cs') sh1), (shim_run cs sh1). done.
Qed.

(** C40: Virtual time survives a crash. A server runs on the virtual clock with recorded
    deltas ([OB_VCLOCK] and [OB_VCLOCK_DELTAS], not [OB_VCLOCK_TICKS]) and is killed; a
    second one is started in the same session at any other real time. Whenever it has received
    as many inputs as the first had at some point, every clock it reads shows what the first
    would have read at that point, however often either has read a clock before and whatever
    the real clocks say. *)
Theorem virtual_time_replays e e' p d fs rt mono rt' mono' cs cs_rest cs' q q' :
  clock_env e p d → clock_env e' p d → fs !! p = None → fs !! d = None →
  is_i64 rt → 0 <= mono <= I64_MAX → Forall good_mono (cs ++ cs_rest) →
  let first := ob_ctor e fs rt mono in
  let second := ob_ctor e' (files (shim_run (cs ++ cs_rest) first).2) rt' mono' in
  nd_requests (nd (shim_run cs' second).2) = nd_requests (nd (shim_run cs first).2) →
  same_clock q q' = true →
  (shim_call q (shim_run cs first).2).1 = (shim_call q' (shim_run cs' second).2).1.
Proof.
  intros He He' Hp Hd Hrt Hm HF first second Hn Hq. apply Forall_app in HF as [HF1 HF2].
  pose proof He as (_ & _ & _ & _ & Hpd & _). pose proof (live_start e p d fs rt mono He Hp Hd Hm) as H0.
  destruct (recording_run p d rt Hpd cs [] first HF1 H0) as [ds1 H1]. cbn [app] in H1.
  destruct (recording_run p d rt Hpd cs_rest ds1 _ HF2 H1) as [ds2 H2]. rewrite <- shim_run_app in H2.
  destruct (rc_clock _ _ _ _ _ H1) as (last & _ & Hv). pose proof (rc_count _ _ _ _ _ H1) as Hc. rewrite Hc in Hn.
  destruct (decide (ds1 ++ ds2 = [])) as [E|Hne].
  - apply app_nil in E as [-> ->].
    destruct (restart_empty e' p d _ rt rt' mono' He' (rc_base _ _ _ _ _ H2) Hrt (rc_log _ _ _ _ _ H2)) as (Hz & mode & Hv').
    destruct (idle_clock cs' second) as [_ Hidle]. fold second in Hz, Hv'. rewrite <- Hidle in Hv' by (by rewrite Hn, Hz).
    by eapply same_virtual_time.
  - destruct (replaying_run rt (ds1 ++ ds2) cs' second) as (k & Hk & Hv').
    { apply (replay_start e' p d); [done|apply H2|done|apply H2|apply H2|done]. }
    eapply same_virtual_time; [done..| |done]. unfold virtual_ns. cbn. rewrite Hk in Hn. apply Nat2Z.inj in Hn as ->.
    by rewrite take_app_length.
Qed.

(** The first server gets two inputs; the second, an hour later, reads clocks before its
    first input and after. *)
Definition clock_w : Environ := mkEnviron None None None None (Some (bs "base")) None (Some (bs "deltas")).
Definition first_w : list Call := [Accept 4; Recv 4 (Some (bs "a")) 3500; Gettimeofday 0 (1, 1)].
Definition rest_w : list Call := [Recv 4 (Some (bs "b")) 9000; Time 4].
Definition second_w : list Call := [Time 0; Accept 9; ClockGettime 0 (2, 2); Recv 9 (Some (bs "zz")) 77].

Lemma virtual_time_replays_witness :
  let first := ob_ctor clock_w ∅ 1000000000 1000 in
  let second := ob_ctor clock_w (files (shim_run (first_w ++ rest_w) first).2) 3600000000000 50 in
  (shim_call (ClockGettime 0 (5, 5)) (shim_run first_w first).2).1 =
    (shim_call (ClockGettime 0 (7, 7)) (shim_run second_w second).2).1.
Proof.
  apply (virtual_time_replays clock_w clock_w (bs "base") (bs "deltas") ∅ 1000000000 1000 3600000000000 50 first_w rest_w second_w
    (ClockGettime 0 (5, 5)) (ClockGettime 0 (7, 7))).
  - by_decision.
  - by_decision.
  - reflexivity.
  - reflexivity.
  - width_lia.
  - width_lia.
  - repeat constructor; cbn; width_lia.
  - vm_compute. reflexivity.
  - reflexivity.
Defined.

(** It is the number of reads that counts. The replay tool sends a connection's whole stream at
    once: a server that receives in one read what it first received in two has had one input
    and reads another time. *)
Theorem coalesced_replay_skews_time :
  let first := ob_ctor clock_w ∅ 1000000000 1000 in
  let live := (shim_run [Accept 4; Recv 4 (Some (bs "a")) 3500; Recv 4 (Some (bs "b")) 9000] first).2 in
  let again := (shim_run [Accept 4; Recv 4 (Some (bs "ab")) 0] (ob_ctor clock_w (files live) 0 0)).2 in
  (shim_call (ClockGettime 0 (0, 0)) live).1 = RClock 0 (1, 8000) ∧
  (shim_call (ClockGettime 0 (0, 0)) again).1 = RClock 0 (1, 2500).
Proof. by vm_compute. Qed.

(** ** Recording and replay of results *)

(** The entry a call leaves in the recording. *)
Definition entry (c : Call) : bytes :=
  match c with
  | Gettimeofday _ t => to_le_bytes 1 1 ++ time_bytes t
  | ClockGettime _ t => to_le_bytes 1 2 ++ time_bytes t
  | Time t => to_le_bytes 1 4 ++ to_le_bytes 8 t
  | Getrandom _ (Some ((_ :: _) as b)) => to_le_bytes 1 3 ++ to_le_bytes 4 (len b mod 2 ^ 32) ++ b
  | _ => []
  end.

(** The real clock was read, within the widths of its types; a request for random bytes
    got at most as many as it asked for, or failed. *)
Definition answered (c : Call) : Prop :=
  match c with
  | Gettimeofday r t | ClockGettime r t => r = 0 ∧ is_i64 t.1 ∧ is_i64 t.2
  | Time t => is_i64 t
  | Getrandom n (Some b) => (length b ≤ n)%nat ∧ len b <= U32_MAX
  | _ => True
  end.

(** The calls that leave an entry: a request for random bytes that fails does not. *)
Definition kept (c : Call) : bool :=
  match c with
  | Getrandom _ (Some (_ :: _)) => true
  | Getrandom _ _ => false
  | _ => reads_time c
  end.

(** The same question; random bytes are asked for in the same number. *)
Definition same_query (c c' : Call) : Prop :=
  match c, c' with Getrandom n _, Getrandom n' _ => n = n' | _, _ => same_clock c c' = true end.

(** What a server learns from its time and random calls. *)
Fixpoint learned (cs : list Call) (sh : Shim) : list Result :=
  match cs with
  | [] => []
  | c :: cs => let '(r, sh) := shim_call c sh in if reads_time c then r :: learned cs sh else learned cs sh
  end.

(** The answer of the real call. *)
Definition truth (c : Call) : Result :=
  match c with
  | Gettimeofday r t | ClockGettime r t => RClock r t
  | Time t => RTime t
  | Getrandom _ b => RBytes b
  | _ => RStatus 0
  end.

Definition recorded (m : ObMode) : bytes := if m is ModeRecord _ stream _ then stream else [].

Lemma flush_mode sh : ob_mode (flush_record sh) = ob_mode sh ∧ vclock (flush_record sh) = vclock sh.
Proof. unfold flush_record. destruct (ob_mode sh) eqn:E; cbn; by rewrite ?E. Qed.

Lemma nd_dump_mode sh : ob_mode (nd_dump sh) = ob_mode sh ∧ vclock (nd_dump sh) = vclock sh.
Proof. unfold nd_dump. destruct (OB_NDSTATS _) as [l|]; [|done]. destruct (flush_mode (set_files (<[l := nd_text sh]> (files sh)) sh)) as [-> ->]. done. Qed.

Lemma ob_init_mode sh : ob_mode (ob_init sh) = ob_mode sh ∧ vclock (ob_init sh) = vclock sh.
Proof. unfold ob_init. by destruct (cap sh), (OB_CAPTURE (env sh)). Qed.

(** Calls on descriptors neither record nor replay, and have no clock to advance. *)
Lemma io_mode c sh :
  reads_time c = false → vclock sh = None → ob_mode (shim_call c sh).2 = ob_mode sh ∧ vclock (shim_call c sh).2 = None.
Proof.
  intros Hc Hv. destruct (ob_init_mode sh) as [Hm0 Hv0]. rewrite Hv in Hv0.
  assert (Hcap : ∀ fd b m, ob_mode (capture fd b m (ob_init sh)) = ob_mode sh ∧ vclock (capture fd b m (ob_init sh)) = None).
  { intros fd b m. unfold capture. case_match; [|done]. unfold vclock_tick. cbn [vclock count_request set_nd]. rewrite Hv0.
    assert (Hw : ob_mode (write_record fd b (count_request (ob_init sh))) = ob_mode sh ∧
      vclock (write_record fd b (count_request (ob_init sh))) = None) by (unfold write_record; by case_match).
    case_match; [|done]. destruct (nd_dump_mode (write_record fd b (count_request (ob_init sh)))) as [-> ->]. done. }
  assert (Hmark : ∀ fd, ob_mode (mark_conn fd (ob_init sh)) = ob_mode sh ∧ vclock (mark_conn fd (ob_init sh)) = None).
  { intros fd. unfold mark_conn. case_match; [|done]. cbn.
    destruct (ob_init_mode (ob_init sh)) as [-> ->]. done. }
  destruct c as [fd|fd r|fd b m|fd b iov m|fd r| | | |]; try done; cbn [shim_call snd]; auto.
  - by case_match.
  - by case_match.
  - destruct b as [[|? ?]|], iov; auto.
  - unfold shim_close. by case_match.
Qed.

(** *** The live run *)

Lemma record_fixed_mode type payload r stream w sh :
  ob_mode sh = ModeRecord r stream w →
  ob_mode (rr_record_fixed type payload sh) = ModeRecord r (stream ++ to_le_bytes 1 type ++ payload) (w + 1) ∧
  vclock (rr_record_fixed type payload sh) = vclock sh.
Proof.
  intros E. unfold rr_record_fixed. rewrite E. case_match; [|done].
  destruct (flush_mode (set_mode (ModeRecord r (stream ++ to_le_bytes 1 type ++ payload) (w + 1)) sh)) as [-> ->]. done.
Qed.

Lemma record_call c sh r stream w :
  ob_mode sh = ModeRecord r stream w → vclock sh = None → answered c →
  let '(res, sh') := shim_call c sh in
  (∃ w', ob_mode sh' = ModeRecord r (stream ++ entry c) w') ∧ vclock sh' = None ∧ (reads_time c = true → res = truth c).
Proof.
  intros Hm Hv Ha. destruct (reads_time c) eqn:Hc.
  2: { pose proof (io_mode c sh Hc Hv) as [Hm' Hv']. destruct (shim_call c sh) as [res sh'] eqn:E. cbn [snd] in *.
    split_and!; [exists w|done..]. rewrite Hm', Hm. by destruct c; try done; rewrite app_nil_r. }
  assert (Hreal : ∀ type rc t count sh1, ob_mode sh1 = ModeRecord r stream w → vclock sh1 = None →
    let '(res, sh') := replay_or_real type rc t count sh1 in
    (∃ w', ob_mode sh' = ModeRecord r (stream ++ to_le_bytes 1 type ++ time_bytes t) w') ∧ vclock sh' = None ∧ res = (rc, t)).
  { intros type rc t count sh1 Hm1 Hv1. unfold replay_or_real, rr_replay_fixed. rewrite Hm1.
    destruct (record_fixed_mode type (time_bytes t) r stream w sh1 Hm1) as [E1 E2]. rewrite Hv1 in E2.
    case_match; [|eauto]. destruct (nd_dump_mode (rr_record_fixed type (time_bytes t) sh1)) as [-> ->]. eauto. }
  destruct c as [| | | | |rc t|rc t|t|n b]; try done; cbn [shim_call entry truth].
  - unfold gettimeofday. cbn [vclock count_gettimeofday set_nd]. rewrite Hv.
    specialize (Hreal 1 rc t (nd_gettimeofday (nd (count_gettimeofday sh))) (count_gettimeofday sh) Hm Hv).
    destruct (replay_or_real _ _ _ _ _) as [[? ?] ?]. destruct Hreal as (? & ? & [= -> ->]). done.
  - unfold clock_gettime. cbn [vclock count_clock_gettime set_nd]. rewrite Hv.
    specialize (Hreal 2 rc t (nd_clock_gettime (nd (count_clock_gettime sh))) (count_clock_gettime sh) Hm Hv).
    destruct (replay_or_real _ _ _ _ _) as [[? ?] ?]. destruct Hreal as (? & ? & [= -> ->]). done.
  - unfold shim_time, rr_replay_fixed. cbn [vclock count_time set_nd ob_mode]. rewrite Hv, Hm.
    destruct (record_fixed_mode 4 (to_le_bytes 8 t) r stream w (count_time sh) Hm) as [E1 E2]. change (vclock (count_time sh)) with (vclock sh) in E2. rewrite Hv in E2. eauto.
  - unfold getrandom, replay_random. cbn [count_getrandom set_nd ob_mode]. rewrite Hm.
    destruct b as [[|x b]|]; cbn [ob_mode count_getrandom set_nd]; rewrite ?Hm, ?app_nil_r; eauto.
Qed.

Lemma record_run cs sh r stream w :
  ob_mode sh = ModeRecord r stream w → vclock sh = None → Forall answered cs →
  (∃ w', ob_mode (shim_run cs sh).2 = ModeRecord r (stream ++ concat (map entry cs)) w') ∧
  learned cs sh = map truth (filter (λ c, reads_time c = true) cs).
Proof.
  intros Hm Hv HF. revert sh stream w Hm Hv. induction HF as [|c cs Hc _ IH]; intros sh stream w Hm Hv.
  { cbn. rewrite app_nil_r. eauto. }
  cbn [shim_run learned map concat]. pose proof (record_call c sh r stream w Hm Hv Hc) as Hs.
  destruct (shim_call c sh) as [res sh1]. destruct Hs as ([w' Hm1] & Hv1 & Hres).
  destruct (IH sh1 _ _ Hm1 Hv1) as [H1 H2]. destruct (shim_run cs sh1) as [rs sh2]. cbn [snd] in *.
  rewrite filter_cons, app_assoc. split; [done|]. destruct (reads_time c); [|by rewrite H2].
  rewrite decide_True by done. cbn. by rewrite H2, Hres.
Qed.

(** *** The replay *)

Lemma bytes_time_bytes t : is_i64 t.1 → is_i64 t.2 → bytes_time (time_bytes t) = t.
Proof.
  intros H1 H2. unfold bytes_time, time_bytes. rewrite take_to_le_bytes, drop_to_le_bytes, !i64_from_to_le by done. by destruct t.
Qed.

Lemma replay_fixed_entry type payload size rest dv sh :
  is_u16 type → type < 256 → length payload = size → ob_mode sh = ModeReplay ((to_le_bytes 1 type ++ payload) ++ rest) dv →
  rr_replay_fixed type size sh = (Some payload, set_mode (ModeReplay rest dv) sh).
Proof.
  intros Ht Ht' <- Hm. unfold rr_replay_fixed. rewrite Hm, <- app_assoc, take_to_le_bytes, drop_to_le_bytes.
  rewrite from_to_le_bytes, Z.eqb_refl by (cbn; width_lia). rewrite !length_app, length_to_le_bytes, (proj2 (Nat.leb_le _ _)) by lia.
  cbn [andb]. rewrite take_len_app. do 3 f_equal. rewrite <- drop_drop, drop_to_le_bytes. apply drop_len_app.
Qed.

Lemma replay_random_entry b rest dv sh :
  b ≠ [] → len b <= U32_MAX →
  ob_mode sh = ModeReplay ((to_le_bytes 1 3 ++ to_le_bytes 4 (len b mod 2 ^ 32) ++ b) ++ rest) dv →
  replay_random sh = (Some b, set_mode (ModeReplay rest dv) sh).
Proof.
  intros Hb Hl Hm. unfold replay_random. rewrite Hm, <- !app_assoc, take_to_le_bytes, (drop_to_le_bytes 1), take_to_le_bytes.
  rewrite from_to_le_bytes by (cbn; lia). rewrite Z.mod_small, from_to_le_u32, Nat2Z.id by width_lia.
  rewrite !length_app, !length_to_le_bytes, !(proj2 (Nat.leb_le _ _)) by lia. cbn [Z.eqb Pos.eqb andb].
  assert (E5 : drop 5 (to_le_bytes 1 3 ++ to_le_bytes 4 (len b) ++ b ++ rest) = b ++ rest).
  { change 5%nat with (1 + 4)%nat. by rewrite <- drop_drop, (drop_to_le_bytes 1), (drop_to_le_bytes 4). }
  rewrite E5, take_len_app. do 3 f_equal. rewrite <- drop_drop, E5. apply drop_len_app.
Qed.

Lemma replay_call c c' sh rest dv :
  kept c = true → answered c → same_query c c' → ob_mode sh = ModeReplay (entry c ++ rest) dv → vclock sh = None →
  (shim_call c' sh).1 = truth c ∧ ob_mode (shim_call c' sh).2 = ModeReplay rest dv ∧ vclock (shim_call c' sh).2 = None.
Proof.
  intros Hc Ha Hq Hm Hv.
  assert (Hreal : ∀ type rc t rc' t' count sh1, is_u16 type → type < 256 → rc = 0 ∧ is_i64 t.1 ∧ is_i64 t.2 →
    ob_mode sh1 = ModeReplay ((to_le_bytes 1 type ++ time_bytes t) ++ rest) dv →
    replay_or_real type rc' t' count sh1 = ((rc, t), set_mode (ModeReplay rest dv) sh1)).
  { intros type rc t rc' t' count sh1 H1 H2 (-> & H3 & H4) H5. unfold replay_or_real.
    rewrite (replay_fixed_entry type (time_bytes t) 16 rest dv sh1) by (done || unfold time_bytes; len_lia).
    by rewrite bytes_time_bytes. }
  destruct c as [| | | | |rc t|rc t|t|n [b|]], c' as [| | | | |rc' t'|rc' t'|t'|n' b']; try done; cbn [shim_call truth entry] in *.
  - unfold gettimeofday. cbn [vclock count_gettimeofday set_nd]. rewrite Hv. by rewrite (Hreal 1 rc t).
  - unfold clock_gettime. cbn [vclock count_clock_gettime set_nd]. rewrite Hv. by rewrite (Hreal 2 rc t).
  - unfold shim_time. cbn [vclock count_time set_nd]. rewrite Hv.
    rewrite (replay_fixed_entry 4 (to_le_bytes 8 t) 8 rest dv) by (done || apply length_to_le_bytes).
    by rewrite i64_from_to_le.
  - destruct Ha as (Hn & Hl). destruct b as [|x b]; [done|]. cbn in Hq. subst n'. unfold getrandom.
    rewrite (replay_random_entry (x :: b) rest dv) by done. by rewrite take_ge.
Qed.

Lemma replay_run cs' qs sh rest dv :
  Forall (λ c, kept c = true) qs → Forall answered qs → Forall2 same_query qs (filter (λ c, reads_time c = true) cs') →
  ob_mode sh = ModeReplay (concat (map entry qs) ++ rest) dv → vclock sh = None →
  learned cs' sh = map truth qs ∧ ob_mode (shim_run cs' sh).2 = ModeReplay rest dv.
Proof.
  revert qs sh; induction cs' as [|c' cs' IH]; intros qs sh Ht Ha Hq Hm Hv.
  { apply Forall2_nil_inv_r in Hq as ->. by split. }
  cbn [learned shim_run]. rewrite filter_cons in Hq. destruct (reads_time c') eqn:Hc'.
  - rewrite decide_True in Hq by done. apply Forall2_cons_inv_r in Hq as (q & qs1 & Hq & Hqs & ->).
    apply Forall_cons in Ht as [Ht Hts], Ha as [Ha Has]. cbn [map concat] in *. rewrite <- app_assoc in Hm.
    destruct (replay_call q c' sh _ dv Ht Ha Hq Hm Hv) as (H1 & H2 & H3).
    destruct (shim_call c' sh) as [res sh1]. cbn [fst snd] in *. destruct (IH qs1 sh1 Hts Has Hqs H2 H3) as [H4 H5].
    destruct (shim_run cs' sh1). cbn [snd] in *. by rewrite H1, H4.
  - rewrite decide_False in Hq by done. destruct (io_mode c' sh Hc' Hv) as [H2 H3]. rewrite Hm in H2.
    destruct (shim_call c' sh) as [res sh1]. cbn [fst snd] in *. destruct (IH qs sh1 Ht Ha Hq H2 H3) as [H4 H5].
    destruct (shim_run cs' sh1). done.
Qed.

Lemma entries_filter cs : concat (map entry cs) = concat (map entry (filter (λ c, kept c = true) cs)).
Proof.
  induction cs as [|c cs IH]; [done|]. rewrite filter_cons. cbn [map concat]. rewrite IH.
  case_decide as Hd; [done|]. by destruct c as [| | | | | | | |? [[|]|]].
Qed.

(** C20: Recorded results are given back. A server whose clock reads succeed and whose
    requests for random bytes may fail is recorded, without the virtual clock, and killed with any part of the
    recording on disk. It is told what the real calls answer. A second server that asks the
    same questions in the same order, but for the requests for random bytes that failed,
    and whatever it receives in between, gets exactly the answers the first one got for as
    long as the recording reaches, and no question counts as diverged. (A failed request
    that is asked again takes the next entry, [failed_random_shifts_replay].) *)
Theorem recording_replays e e' r fs rt mono left rt' mono' cs cs_rest n cs' :
  OB_RECORD e = Some r → OB_REPLAY e = None → OB_VCLOCK e = None → OB_REPLAY e' = Some r → OB_VCLOCK e' = None →
  Forall answered (cs ++ cs_rest) →
  let first := ob_ctor e fs rt mono in
  (length (recorded (ob_mode (shim_run cs first).2)) ≤ n)%nat →
  left !! r = Some (take n (recorded (ob_mode (shim_run (cs ++ cs_rest) first).2))) →
  Forall2 same_query (filter (λ c, kept c = true) cs) (filter (λ c, reads_time c = true) cs') →
  let second := ob_ctor e' left rt' mono' in
  learned cs first = map truth (filter (λ c, reads_time c = true) cs) ∧
  learned cs' second = map truth (filter (λ c, kept c = true) cs) ∧
  rep_diverged (ob_mode (shim_run cs' second).2) = 0.
Proof.
  intros E1 E2 E3 E4 E5 HF first Hn Hleft Hq second.
  assert (Hf : ob_mode first = ModeRecord r [] 0 ∧ vclock first = None).
  { unfold first, ob_ctor, vclock_init, rr_init, ob_init. cbn [cap shim_blank env]. destruct (OB_CAPTURE e); cbn; by rewrite E1, E2; cbn; rewrite E3. }
  destruct Hf as [Hm Hv]. destruct (record_run (cs ++ cs_rest) first r [] 0 Hm Hv HF) as [[w Hall] _].
  apply Forall_app in HF as [HF _]. destruct (record_run cs first r [] 0 Hm Hv HF) as [[w1 Hcs] Hl].
  rewrite Hcs in Hn. rewrite Hall, map_app, concat_app in Hleft. cbn [recorded app] in Hn, Hleft.
  assert (Hs : ∃ rest, ob_mode second = ModeReplay (concat (map entry cs) ++ rest) 0 ∧ vclock second = None).
  { eexists. rewrite take_app_ge in Hleft by done. unfold second, ob_ctor, vclock_init, rr_init, ob_init.
    cbn [cap shim_blank env]. destruct (OB_CAPTURE e') as [q|]; cbn; rewrite E4; cbn.
    - unfold append_file. destruct (decide (q = r)) as [->|Hne].
      + rewrite lookup_insert_eq, Hleft. cbn. rewrite E5, app_nil_r. done.
      + rewrite lookup_insert_ne, Hleft by done. cbn. by rewrite E5.
    - rewrite Hleft. cbn. by rewrite E5. }
  destruct Hs as (rest & Hm2 & Hv2). rewrite entries_filter in Hm2.
  destruct (replay_run cs' (filter (λ c, kept c = true) cs) second rest 0) as [H1 H2]; try done.
  - apply Forall_forall. intros c [Hc _]%list_elem_of_filter. done.
  - apply Forall_forall. intros c [_ Hc]%list_elem_of_filter. by eapply Forall_forall in HF.
  - rewrite H1, Hl, H2. done.
Qed.

(** The first server's first request for random bytes fails; the recording is cut in the
    entry of its last call. *)
Definition record_w : Environ := mkEnviron None None (Some (bs "rec")) None None None None.
Definition replay_w : Environ := mkEnviron None (Some (bs "rec")) None None None None None.
Definition asked_w : list Call := [Gettimeofday 0 (5, 6); Getrandom 4 None; Accept 4; Getrandom 4 (Some (bs "abc")); Time 9].
Definition again_w : list Call := [Gettimeofday 0 (50, 60); Getrandom 4 None; Recv 3 None 0; Time 90].

Lemma recording_replays_witness :
  let first := ob_ctor record_w ∅ 0 0 in
  let stream := recorded (ob_mode (shim_run (asked_w ++ [ClockGettime 0 (7, 8)]) first).2) in
  let second := ob_ctor replay_w {[bs "rec" := take 40 stream]} 0 0 in
  learned asked_w first = [RClock 0 (5, 6); RBytes None; RBytes (Some (bs "abc")); RTime 9] ∧
  learned again_w second = [RClock 0 (5, 6); RBytes (Some (bs "abc")); RTime 9] ∧
  rep_diverged (ob_mode (shim_run again_w second).2) = 0.
Proof.
  apply (recording_replays record_w replay_w (bs "rec") ∅ 0 0 _ 0 0 asked_w [ClockGettime 0 (7, 8)] 40 again_w).
  - reflexivity.
  - reflexivity.
  - reflexivity.
  - reflexivity.
  - reflexivity.
  - repeat constructor; cbn; try done; width_lia.
  - vm_compute. lia.
  - by rewrite lookup_singleton_eq.
  - repeat constructor.
Defined.

(** A call that fails is not recorded: the replay answers it with the bytes of the next. *)
Theorem failed_random_shifts_replay :
  let first := ob_ctor record_w ∅ 0 0 in
  let live := [Getrandom 4 None; Getrandom 4 (Some (bs "abcd"))] in
  let left := {[bs "rec" := recorded (ob_mode (shim_run live first).2)]} in
  learned live first = [RBytes None; RBytes (Some (bs "abcd"))] ∧
  learned live (ob_ctor replay_w left 0 0) = [RBytes (Some (bs "abcd")); RBytes (Some (bs "abcd"))].
Proof. split; by vm_compute. Qed.
