(* ===== verification/Detsched.v ===== *)
(** * Detsched: the scheduler that makes lock order repeatable
    ([interpose/detsched.c])

    The library wraps the synchronisation calls of a threaded program. Every thread has a
    slot with a logical clock; a thread that holds no lock may take one only when its
    clock, or its slot number between equal clocks, is the least among active threads.

    A thread is a program over the calls the library wraps, with accesses to what a lock
    guards between them. A step is one atomic operation of one thread: a load or store of a
    slot, a call of the wrapped function, an access. A schedule is a list of threads. *)

From S2P Require Import Prelude Bytes Text Libc.
Local Open Scope Z_scope.

(** [pthread_mutex_lock] and [pthread_rwlock_wrlock]; [pthread_rwlock_rdlock]. *)
Inductive LockKind := Exclusive | Shared.
#[export] Instance LockKind_eq_dec : EqDecision LockKind.
Proof. solve_decision. Defined.

Definition MAXT : nat := Z.to_nat 1024.
Record Slot := mkSlot { lc : Z; active : bool }.

(** The variables of the environment that the constructor reads. *)
Record DetEnviron := mkDetEnviron { OB_DETSCHED : bool; OB_DETSCHED_SPIN : option bytes }.

Definition spin_cap (e : DetEnviron) : Z := if OB_DETSCHED_SPIN e is Some v then atol v else 50000.

(** ** Threads *)

(** What a thread does next. The calls are those of [pthread_*]: [Lock] stands for the three
    blocking acquisitions, [Unlock] for both releases; [Trylock] continues with whether the
    lock was taken, [Create] with the number of the new thread. [Access m f p] changes what
    lock [m] guards by [f] and continues with what was there. *)
Inductive Prog (D : Type) :=
  | Exit
  | Lock (k : LockKind) (m : nat) (p : Prog D)
  | Trylock (m : nat) (p : bool → Prog D)
  | Unlock (m : nat) (p : Prog D)
  | Access (m : nat) (f : D → D) (p : D → Prog D)
  | CondWait (m : nat) (p : Prog D)
  | Create (child : Prog D) (p : nat → Prog D)
  | Join (u : nat) (p : Prog D).
Arguments Exit {_}. Arguments Lock {_}. Arguments Trylock {_}. Arguments Unlock {_}.
Arguments Access {_}. Arguments CondWait {_}. Arguments Create {_}. Arguments Join {_}.

(** Where a thread is. In [Registering], [Await], [Scan], [ScanLc] and [Real] the program
    is still at its call. [Await] is the top of the loop of [await_turn]; [Scan] is about to
    load [slots[i].active] and [ScanLc] [slots[i].lc]. *)
Inductive Pc (D : Type) :=
  | Run (p : Prog D)
  | Registering (s : nat) (p : Prog D)
  | Await (p : Prog D) (spins : Z)
  | Scan (p : Prog D) (mylc : Z) (n i : nat) (spins : Z)
  | ScanLc (p : Prog D) (mylc : Z) (n i : nat) (spins : Z)
  | Real (p : Prog D)
  | Advance (p : Prog D)
  | Parked (m : nat) (p : Prog D)
  | Waiting (m : nat) (p : Prog D)
  | Woken (p : Prog D)
  | Joining (u : nat) (prev : bool) (p : Prog D)
  | Joined (prev : bool) (p : Prog D)
  | Creating (s : nat) (child : Prog D) (p : nat → Prog D)
  | Spawning (s : option nat) (child : Prog D) (p : nat → Prog D)
  | Exiting
  | Done.
Arguments Run {_}. Arguments Registering {_}. Arguments Await {_}. Arguments Scan {_}. Arguments ScanLc {_}.
Arguments Real {_}. Arguments Advance {_}. Arguments Parked {_}. Arguments Waiting {_}. Arguments Woken {_}.
Arguments Joining {_}. Arguments Joined {_}. Arguments Creating {_}. Arguments Spawning {_}.
Arguments Exiting {_}. Arguments Done {_}.

(** [my_slot] ([None]: -1) and [lock_depth]. *)
Record Thread (D : Type) := mkThread { my_slot : option nat; lock_depth : nat; pc : Pc D }.
Arguments mkThread {_}. Arguments my_slot {_}. Arguments lock_depth {_}. Arguments pc {_}.

(** A lock is held by the entries that name it: thread, kind, lock. [order] is every
    acquisition so far. *)
Abbreviation Holder := (nat * LockKind * nat)%type.
Record Sched (D : Type) := mkSched {
  slots : list Slot; next_slot : nat; relaxations : Z;
  threads : list (Thread D); holders : list Holder; cells : gmap nat D; order : list Holder }.
Arguments mkSched {_}. Arguments slots {_}. Arguments next_slot {_}. Arguments relaxations {_}.
Arguments threads {_}. Arguments holders {_}. Arguments cells {_}. Arguments order {_}.

(** [Undefined]: a read outside the array of slots. *)
Inductive Outcome (D : Type) := Moved (s : Sched D) | Blocked | Undefined.
Arguments Moved {_}. Arguments Blocked {_}. Arguments Undefined {_}.

Section Machine.
Context {D : Type} (d0 : D).
Implicit Types (s : Sched D) (th : Thread D) (p : Prog D).

Definition cell s (m : nat) : D := default d0 (cells s !! m).

Definition set_slots l s : Sched D :=
  mkSched l (next_slot s) (relaxations s) (threads s) (holders s) (cells s) (order s).
Definition set_next n s : Sched D :=
  mkSched (slots s) n (relaxations s) (threads s) (holders s) (cells s) (order s).
Definition set_threads l s : Sched D :=
  mkSched (slots s) (next_slot s) (relaxations s) l (holders s) (cells s) (order s).
Definition set_thread (t : nat) th s : Sched D := set_threads (<[t := th]> (threads s)) s.
Definition set_cell (m : nat) (d : D) s : Sched D :=
  mkSched (slots s) (next_slot s) (relaxations s) (threads s) (holders s) (<[m := d]> (cells s)) (order s).
Definition set_holders l s : Sched D :=
  mkSched (slots s) (next_slot s) (relaxations s) (threads s) l (cells s) (order s).
Definition log_order h s : Sched D :=
  mkSched (slots s) (next_slot s) (relaxations s) (threads s) (holders s) (cells s) (order s ++ [h]).
Definition relax s : Sched D :=
  mkSched (slots s) (next_slot s) (relaxations s + 1) (threads s) (holders s) (cells s) (order s).
Definition goto (c : Pc D) th : Thread D := mkThread (my_slot th) (lock_depth th) c.

(** *** Locks, as [pthread] provides them *)

Definition is_free (k : LockKind) (m : nat) s : bool :=
  forallb (λ h, negb (bool_decide (h.2 = m)) || (bool_decide (k = Shared) && bool_decide (h.1.2 = Shared))) (holders s).
Definition acquire (t : nat) (k : LockKind) (m : nat) s : Sched D := set_holders ((t, k, m) :: holders s) s.
Fixpoint drop_holder (t m : nat) (l : list Holder) : list Holder :=
  match l with
  | [] => []
  | h :: l => if bool_decide (h.1.1 = t ∧ h.2 = m) then l else h :: drop_holder t m l
  end.
Definition release (t m : nat) s : Sched D := set_holders (drop_holder t m (holders s)) s.

(** *** Slots *)

Definition set_active (o : option nat) (b : bool) s : Sched D :=
  match o with
  | Some i => set_slots (alter (λ x, mkSlot (lc x) b) i (slots s)) s
  | None => s
  end.
(** The stores of [alloc_slot], after its [fetch_add]. *)
Definition open_slot (i : nat) s : Sched D := set_slots (<[i := mkSlot 0 true]> (slots s)) s.
Definition bump (o : option nat) s : Sched D :=
  match o with
  | Some i => set_slots (alter (λ x, mkSlot (lc x + 1) (active x)) i (slots s)) s
  | None => s
  end.

Section Steps.
Context (enabled : bool) (cap : Z).

(** After [ensure_registered]: a thread that holds no lock waits for its turn. *)
Definition gate (p : Prog D) (o : option nat) (depth : nat) : Pc D :=
  match o, depth with Some _, O => Await p 0 | _, _ => Real p end.

(** Not this thread's turn: spin again, or go ahead after [cap] spins ([spin_cap]). *)
Definition not_min (t : nat) th (p : Prog D) (spins : Z) s : Sched D :=
  if (0 <? cap) && (cap <=? spins + 1)
  then relax (set_thread t (goto (Real p) th) s)
  else set_thread t (goto (Await p (spins + 1)) th) s.

(** The lock [m] has been taken by a wrapper: [lock_depth++], and [advance] at depth one. *)
Definition taken (t : nat) th (k : LockKind) (m : nat) (q : Prog D) s : Sched D :=
  log_order (t, k, m) (acquire t k m
    (set_thread t (mkThread (my_slot th) (S (lock_depth th))
       (if bool_decide (lock_depth th = 0%nat) then Advance q else Run q)) s)).

(** A call of the program, up to its first effect that another thread can see. *)
Definition call_step (t : nat) th (p : Prog D) s : Outcome D :=
  let run q := set_thread t (goto (Run q) th) s in
  match p with
  | Exit =>
      Moved (if bool_decide (t = 0%nat) || negb enabled then set_thread t (goto Done th) s
             else set_active (my_slot th) false (set_thread t (goto Exiting th) s))
  | Access m f q => Moved (set_cell m (f (cell s m)) (run (q (cell s m))))
  | Unlock m q =>
      Moved (release t m (set_thread t (mkThread (my_slot th)
        (if enabled then pred (lock_depth th) else lock_depth th) (Run q)) s))
  | Create child q =>
      if enabled then
        let i := next_slot s in
        Moved (set_next (S i) (set_thread t
          (goto (if bool_decide (i < MAXT)%nat then Creating i child q else Spawning None child q) th) s))
      else Moved (set_thread t (goto (Spawning None child q) th) s)
  | Join u q =>
      if enabled then
        match my_slot th ≫= (λ i, slots s !! i) with
        | Some x => Moved (set_active (my_slot th) false (set_thread t (goto (Joining u (active x) q) th) s))
        | None => Moved (set_thread t (goto (Joining u false q) th) s)
        end
      else Moved (set_thread t (goto (Joining u false q) th) s)
  | Lock k m q =>
      if negb enabled then
        if is_free k m s then Moved (log_order (t, k, m) (acquire t k m (run q))) else Blocked
      else match my_slot th with
           | Some _ => Moved (set_thread t (goto (gate p (my_slot th) (lock_depth th)) th) s)
           | None =>
               let i := next_slot s in
               Moved (set_next (S i) (set_thread t
                 (goto (if bool_decide (i < MAXT)%nat then Registering i p else Real p) th) s))
           end
  | Trylock m q =>
      if negb enabled then
        Moved (if is_free Exclusive m s then log_order (t, Exclusive, m) (acquire t Exclusive m (run (q true)))
               else run (q false))
      else match my_slot th with
           | Some _ => Moved (set_thread t (goto (gate p (my_slot th) (lock_depth th)) th) s)
           | None =>
               let i := next_slot s in
               Moved (set_next (S i) (set_thread t
                 (goto (if bool_decide (i < MAXT)%nat then Registering i p else Real p) th) s))
           end
  | CondWait m q =>
      match my_slot th with
      | Some _ =>
          Moved ((if enabled then set_active (my_slot th) false else id) (set_thread t (goto (Parked m q) th) s))
      | None =>
          let i := next_slot s in
          Moved (set_next (S i) (set_thread t
            (goto (if bool_decide (i < MAXT)%nat then Registering i p else Parked m q) th) s))
      end
  end.

(** One step of thread [t]. *)
Definition sched_step (t : nat) s : Outcome D :=
  match threads s !! t with
  | None => Blocked
  | Some th =>
    let go c := set_thread t (goto c th) s in
    match pc th with
    | Run p => call_step t th p s
    | Registering i p =>
        Moved (open_slot i (set_thread t (mkThread (Some i) (lock_depth th) (Run p)) s))
    | Await p spins =>
        match my_slot th ≫= (λ i, slots s !! i) with
        | Some x => Moved (go (Scan p (lc x) (next_slot s) 0 spins))
        | None => Undefined
        end
    | Scan p mylc n i spins =>
        if bool_decide (n ≤ i)%nat then Moved (go (Real p))
        else if bool_decide (my_slot th = Some i) then Moved (go (Scan p mylc n (S i) spins))
        else match slots s !! i with
             | Some x => Moved (go (if active x then ScanLc p mylc n i spins else Scan p mylc n (S i) spins))
             | None => Undefined
             end
    | ScanLc p mylc n i spins =>
        match slots s !! i with
        | Some x =>
            if (lc x <? mylc) || ((lc x =? mylc) && bool_decide (i < default 0 (my_slot th))%nat)
            then Moved (not_min t th p spins s)
            else Moved (go (Scan p mylc n (S i) spins))
        | None => Undefined
        end
    | Real p =>
        match p with
        | Lock k m q => if is_free k m s then Moved (taken t th k m q s) else Blocked
        | Trylock m q =>
            Moved (if is_free Exclusive m s then taken t th Exclusive m (q true) s
                   else set_thread t (goto (Run (q false)) th) s)
        | _ => Blocked
        end
    | Advance q => Moved ((if enabled then bump (my_slot th) else id) (go (Run q)))
    | Parked m q => Moved (release t m (go (Waiting m q)))
    | Waiting m q =>
        if is_free Exclusive m s then Moved (acquire t Exclusive m (go (Woken q))) else Blocked
    | Woken q => Moved ((if enabled then set_active (my_slot th) true else id) (go (Advance q)))
    | Joining u prev q =>
        match pc <$> threads s !! u with
        | Some Done => Moved (go (Joined prev q))
        | _ => Blocked
        end
    | Joined prev q => Moved ((if enabled && prev then set_active (my_slot th) true else id) (go (Run q)))
    | Creating i child q => Moved (open_slot i (go (Spawning (Some i) child q)))
    | Spawning o child q =>
        let u := length (threads s) in
        Moved (set_threads (<[t := goto (Run (q u)) th]> (threads s) ++ [mkThread o 0 (Run child)]) s)
    | Exiting => Moved (go Done)
    | Done => Blocked
    end
  end.

(** A step of some thread, and a run of a schedule; [None] when a thread of the schedule
    could not step. *)
Definition sched_red s s' : Prop := ∃ t, sched_step t s = Moved s'.
Fixpoint sched_run (ts : list nat) s : option (Sched D) :=
  match ts with
  | [] => Some s
  | t :: ts => match sched_step t s with Moved s' => sched_run ts s' | _ => None end
  end.
End Steps.

(** ** Start and end of a process *)

(** The process before [detsched_init], with its main thread. *)
Definition sched_blank (main : Prog D) : Sched D :=
  mkSched (replicate MAXT (mkSlot 0 false)) 0 0 [mkThread None 0 (Run main)] [] ∅ [].

(** [alloc_slot] as the constructor calls it, before there are other threads. *)
Definition detsched_init (enabled : bool) s : Sched D :=
  if enabled then
    open_slot (next_slot s) (set_next (S (next_slot s))
      (set_threads ((λ th, mkThread (Some (next_slot s)) (lock_depth th) (pc th)) <$> threads s) s))
  else s.

(** The process of a program, ready to run. *)
Definition sched_start (e : DetEnviron) (main : Prog D) : Sched D :=
  detsched_init (OB_DETSCHED e) (sched_blank main).

(** What the destructor prints when [OB_DETSCHED_STATS] is set. *)
Definition detsched_fini (enabled stats : bool) s : bytes :=
  if enabled && stats then
    bs "[detsched] threads=" ++ to_string (Z.of_nat (next_slot s)) ++
    bs " turn-relaxations=" ++ to_string (relaxations s) ++ [LF]
  else [].
End Machine.
