(* ===== verification/DetschedSpec.v ===== *)
(** * DetschedSpec: lock order under the scheduler is a function of the program
    ([interpose/detsched.c])

    The reference takes turns: the thread whose clock is least, ties broken by its number,
    runs one whole critical section. A program whose main thread creates its threads and
    joins them, and whose threads enter one critical section at a time, is shown to follow
    the reference under every schedule, as long as no thread gave up waiting. *)

From S2P Require Import Prelude Bytes Text Detsched.
Local Open Scope Z_scope.

(** ** The reference *)

Section Reference.
Context {D : Type} (d0 : D).
Implicit Types (p q : Prog D).

(** Run a critical section to its end on what its lock guards. *)
Fixpoint finish p (d : D) : D * Prog D :=
  match p with
  | Access _ f q => finish (q d) (f d)
  | Unlock _ q => (d, q)
  | p => (d, p)
  end.

(** A thread that enters critical sections one at a time, touches only what the lock it
    holds guards, and changes it only under an exclusive lock. The index is the lock held. *)
Inductive flat : option (LockKind * nat) → Prog D → Prop :=
  | flat_exit : flat None Exit
  | flat_lock k m p : flat (Some (k, m)) p → flat None (Lock k m p)
  | flat_access k m f (g : D → Prog D) :
      (k = Shared → ∀ d, f d = d) → (∀ d, flat (Some (k, m)) (g d)) → flat (Some (k, m)) (Access m f g)
  | flat_unlock k m p : flat None p → flat (Some (k, m)) (Unlock m p).

(** The main thread: create the threads, then join them in that order. *)
Fixpoint join_all (us : list nat) : Prog D :=
  match us with [] => Exit | u :: us => Join u (join_all us) end.
Fixpoint spawn_all (cs : list (Prog D)) (us : list nat) : Prog D :=
  match cs with [] => join_all us | c :: cs => Create c (λ u, spawn_all cs (us ++ [u])) end.
Definition fork_join (cs : list (Prog D)) : Prog D := spawn_all cs [].

(** Each thread with its clock; thread 0 is the main thread, which takes no lock. *)
Record Turns := mkTurns { tu_threads : list (Z * Prog D); tu_cells : gmap nat D; tu_order : list Holder }.
Definition tu_cell (a : Turns) (m : nat) : D := default d0 (tu_cells a !! m).
Definition turns_start (cs : list (Prog D)) : Turns := mkTurns ((0, Exit) :: map (pair 0) cs) ∅ [].

Definition before (x y : Z * nat) : Prop := x.1 < y.1 ∨ (x.1 = y.1 ∧ (x.2 < y.2)%nat).

Definition is_exit p : bool := if p is Exit then true else false.
Fixpoint next_turn (i : nat) (l : list (Z * Prog D)) : option (Z * nat) :=
  match l with
  | [] => None
  | (c, p) :: l =>
      let r := next_turn (S i) l in
      if is_exit p then r
      else match r with Some (c', j) => if c' <? c then r else Some (c, i) | None => Some (c, i) end
  end.

(** One turn; [None] when every thread is at its end. *)
Definition turn (a : Turns) : option Turns :=
  '(c, i) ← next_turn 0 (tu_threads a);
  match snd <$> tu_threads a !! i with
  | Some (Lock k m q) =>
      let '(d, q') := finish q (tu_cell a m) in
      Some (mkTurns (<[i := (c + 1, q')]> (tu_threads a)) (<[m := d]> (tu_cells a)) (tu_order a ++ [(i, k, m)]))
  | _ => None
  end.
Fixpoint turns (n : nat) (a : Turns) : option Turns :=
  match n with O => Some a | S n => turn a ≫= turns n end.

(** *** Facts of the reference *)

Lemma before_irrefl x : ¬ before x x.
Proof. unfold before. lia. Qed.
Lemma before_asym x y : before x y → before y x → False.
Proof. unfold before. lia. Qed.

Lemma next_turn_least l i j c p :
  l !! j = Some (c, p) → is_exit p = false →
  (∀ k c' p', l !! k = Some (c', p') → is_exit p' = false → k ≠ j → before (c, j) (c', k)) →
  next_turn i l = Some (c, (i + j)%nat).
Proof.
  revert i j; induction l as [|[c1 p1] l IH]; intros i j Hj Hp Hmin; [done|]. cbn [next_turn].
  destruct j as [|j].
  - injection Hj as -> ->. rewrite Hp, Nat.add_0_r. destruct (next_turn (S i) l) as [[c' j']|] eqn:E; [|done].
    assert (∃ k p', l !! k = Some (c', p') ∧ is_exit p' = false) as (k & p' & Hk & Hp').
    { clear -E. revert i E; induction l as [|[c2 p2] l IH]; intros i E; [done|]. cbn [next_turn] in E.
      destruct (is_exit p2) eqn:Ex; [destruct (IH _ E) as (k & p' & ? & ?); by exists (S k), p'|].
      destruct (next_turn (S (S i)) l) as [[c3 j3]|] eqn:E'; [|injection E as <- _; by exists 0%nat, p2].
      destruct (c3 <? c2); injection E as <- <-; [|by exists 0%nat, p2].
      destruct (IH _ E') as (k & p' & ? & ?); by exists (S k), p'. }
    pose proof (Hmin (S k) c' p' Hk Hp' ltac:(done)) as [H|H]; cbn in H;
      (destruct (Z.ltb_spec c' c); [lia|done]).
  - rewrite (IH (S i) j Hj Hp), Nat.add_succ_comm.
    2:{ intros k c' p' Hk Hp' Hne. pose proof (Hmin (S k) c' p' Hk Hp' ltac:(lia)) as H.
        unfold before in *; cbn in *; lia. }
    destruct (is_exit p1) eqn:E1; [done|].
    pose proof (Hmin 0%nat c1 p1 eq_refl E1 ltac:(done)) as H. unfold before in H; cbn in H.
    destruct (Z.ltb_spec c c1); [done|lia].
Qed.

Lemma finish_shared m p d : flat (Some (Shared, m)) p → (finish p d).1 = d.
Proof.
  intros H. remember (Some (Shared, m)) as h eqn:E. revert d E.
  induction H as [| |k m' f p Hf _ IH|]; intros d E; try done. cbn. injection E as -> ->.
  rewrite Hf by done. by apply IH.
Qed.

Lemma finish_flat k m p d : flat (Some (k, m)) p → flat None (finish p d).2.
Proof.
  intros H. remember (Some (k, m)) as h eqn:E. revert d E.
  induction H as [| |k' m' f p Hf _ IH|]; intros d E; try done. cbn. by apply IH.
Qed.

Lemma turns_snoc n a b c : turns n a = Some b → turn b = Some c → turns (S n) a = Some c.
Proof.
  revert a; induction n as [|n IH]; intros a; cbn; [intros [= ->] ->; done|].
  destruct (turn a) as [a1|] eqn:E; [|done]. cbn. intros H1 H2. by apply IH.
Qed.

(** A finished run of the reference is unique. *)
Lemma turns_end n n' a b b' :
  turns n a = Some b → turn b = None → turns n' a = Some b' → turn b' = None → b = b'.
Proof.
  revert n' a; induction n as [|n IH]; intros [|n'] a; cbn.
  - by intros [= ->] _ [= ->].
  - intros [= ->] E. by rewrite E.
  - destruct (turn a) eqn:E; [|done]. cbn. intros _ _ [= ->]. congruence.
  - destruct (turn a) as [a1|]; [|done]. cbn. apply IH.
Qed.
End Reference.

(** ** The invariant *)

Section Invariant.
Context {D : Type} (d0 : D) (cs : list (Prog D)).
Implicit Types (s : Sched D) (a : Turns (D := D)) (p q : Prog D).

(** What thread [t] holds. *)
Definition own (t : nat) (l : list Holder) : list Holder := filter (λ h, h.1.1 = t) l.
Definition entry (t : nat) (h : option (LockKind * nat)) : list Holder :=
  match h with Some (k, m) => [(t, k, m)] | None => [] end.

(** The main thread is still creating threads. *)
Definition creating s : bool :=
  match pc <$> threads s !! 0%nat with
  | Some (Run (Create _ _)) | Some (Creating _ _ _) | Some (Spawning _ _ _) => true
  | _ => false
  end.

(** Slots below [i], as far as they matter, are later than thread [t] with clock [c]. *)
Definition later_below s (t : nat) (c : Z) (i : nat) : Prop :=
  ∀ j x, (1 ≤ j < i)%nat → j ≠ t → slots s !! j = Some x → active x = true → before (c, t) (lc x, j).
Definition scanned s (t : nat) (c : Z) (i : nat) : Prop :=
  ((0 < i)%nat → creating s = false) ∧ later_below s t c i.
Definition least s (t : nat) (c : Z) : Prop :=
  creating s = false ∧ ∀ i, later_below s t c i.
(** The bound a scan has loaded. *)
Definition bound_ok s (t n : nat) (c : Z) : Prop :=
  (t < n ≤ next_slot s)%nat ∧ (n = S (length cs) ∨ c = 0).

(** A section in progress, and where it ends: the reference has already run it. *)
Definition in_section a s (h : option (LockKind * nat)) p (ap : Prog D) : Prop :=
  flat h p ∧
  match h with
  | Some (k, m) => tu_cell d0 a m = (finish p (cell d0 s m)).1 ∧ ap = (finish p (cell d0 s m)).2
  | None => ap = p
  end.
Definition at_gate p (h : option (LockKind * nat)) (depth : nat) (act : bool) : Prop :=
  h = None ∧ depth = 0%nat ∧ act = true ∧ flat None p ∧ is_exit p = false.
Definition depth_of (h : option (LockKind * nat)) : nat := if h is Some _ then 1 else 0.

(** Thread [t], whose slot is [c], [act], and which the reference has at [ac], [ap]. *)
Definition pc_ok a s (t : nat) (c : Z) (act : bool) (ac : Z) (ap : Prog D) (h : option (LockKind * nat))
    (depth : nat) (x : Pc D) : Prop :=
  match x with
  | Run p => act = true ∧ depth = depth_of h ∧ in_section a s h p ap ∧ ac = c
  | Await p _ => at_gate p h depth act ∧ ac = c ∧ ap = p
  | Scan p mylc n i _ =>
      at_gate p h depth act ∧ ac = c ∧ ap = p ∧ mylc = c ∧ scanned s t c i ∧ bound_ok s t n c ∧ (i ≤ n)%nat
  | ScanLc p mylc n i _ =>
      at_gate p h depth act ∧ ac = c ∧ ap = p ∧ mylc = c ∧ scanned s t c i ∧ bound_ok s t n c ∧ (i < n)%nat ∧ i ≠ t
  | Real p => at_gate p h depth act ∧ ac = c ∧ ap = p ∧ least s t c
  | Advance p =>
      act = true ∧ depth = 1%nat ∧ h ≠ None ∧ in_section a s h p ap ∧ ac = c + 1 ∧ least s t c
  | Exiting | Done => act = false ∧ h = None ∧ ap = Exit
  | _ => False
  end.

Definition child_ok a s (t : nat) : Prop :=
  ∃ c act ac ap,
    slots s !! t = Some (mkSlot c act) ∧ tu_threads a !! t = Some (ac, ap) ∧ 0 <= c ∧
    (creating s = true → c = 0) ∧
    match threads s !! t with
    | Some th => my_slot th = Some t ∧ (t < next_slot s)%nat ∧
        ∃ h, own t (holders s) = entry t h ∧ pc_ok a s t c act ac ap h (lock_depth th) (pc th)
    | None => c = 0 ∧ ac = 0 ∧ cs !! pred t = Some ap ∧ own t (holders s) = []
    end.

(** The main thread: how many threads it has created, or that it created all. *)
Definition created s (k : nat) : Prop := length (threads s) = S k ∧ (k ≤ length cs)%nat.
(** Every thread that is not still to be joined has ended. *)
Definition joined s (us : list nat) : Prop :=
  Forall (λ u, 1 ≤ u ≤ length cs)%nat us ∧
  ∀ t, (1 ≤ t ≤ length cs)%nat → t ∉ us → pc <$> threads s !! t = Some Done.
Definition main_pc s (act : bool) (x : Pc D) : Prop :=
  match x with
  | Run p => act = true ∧
      ((∃ k, created s k ∧ next_slot s = S k ∧ p = spawn_all (drop k cs) (seq 1 k)) ∨
       (∃ us, created s (length cs) ∧ next_slot s = S (length cs) ∧ p = join_all us ∧ joined s us))
  | Creating i c q => act = true ∧ ∃ k rest,
      created s k ∧ next_slot s = S (S k) ∧ i = S k ∧ drop k cs = c :: rest ∧
      q = λ u, spawn_all rest (seq 1 k ++ [u])
  | Spawning o c q => act = true ∧ ∃ k rest,
      created s k ∧ next_slot s = S (S k) ∧ o = Some (S k) ∧ drop k cs = c :: rest ∧
      (q = λ u, spawn_all rest (seq 1 k ++ [u])) ∧ slots s !! S k = Some (mkSlot 0 true)
  | Joining u prev q => act = false ∧ prev = true ∧
      ∃ us, created s (length cs) ∧ next_slot s = S (length cs) ∧ q = join_all us ∧ joined s (u :: us)
  | Joined prev q => act = false ∧ prev = true ∧
      ∃ us, created s (length cs) ∧ next_slot s = S (length cs) ∧ q = join_all us ∧ joined s us
  | Done => created s (length cs) ∧ next_slot s = S (length cs) ∧ joined s []
  | _ => False
  end.
Record main_ok a s : Prop := {
  mo_turns : tu_threads a !! 0%nat = Some (0, Exit);
  mo_thread : ∃ x act, threads s !! 0%nat = Some (mkThread (Some 0%nat) 0 x) ∧
    slots s !! 0%nat = Some (mkSlot 0 act) ∧ main_pc s act x;
  mo_own : own 0 (holders s) = [] }.

Record sim a s : Prop := {
  si_slots : length (slots s) = MAXT;
  si_unused : ∀ j x, (next_slot s ≤ j)%nat → slots s !! j = Some x → x = mkSlot 0 false;
  si_main : main_ok a s;
  si_len : length (tu_threads a) = S (length cs);
  si_child : ∀ t, (1 ≤ t ≤ length cs)%nat → child_ok a s t;
  si_threads : ∀ h, h ∈ holders s → (h.1.1 < length (threads s))%nat;
  si_excl : ∀ t u k m, (t, Exclusive, m) ∈ holders s → (u, k, m) ∈ holders s → u = t;
  si_free : ∀ m, (∀ t k, (t, k, m) ∉ holders s) → tu_cell d0 a m = cell d0 s m;
  si_order : tu_order a = order s }.

(** *** What a step of one thread leaves to the others *)

Record guar (t : nat) a a' s s' : Prop := {
  gu_slot : ∀ u x, u ≠ t → slots s !! u = Some x →
    ∃ x', slots s' !! u = Some x' ∧ lc x' = lc x ∧ (is_Some (threads s !! u) → x' = x);
  gu_slots : creating s = false → ∀ j x', (1 ≤ j)%nat → slots s' !! j = Some x' →
    ∃ x, slots s !! j = Some x ∧ lc x <= lc x' ∧ (active x' = true → active x = true);
  gu_open : creating s = false → creating s' = false;
  gu_next : (next_slot s ≤ next_slot s')%nat;
  gu_own : ∀ u, u ≠ t → own u (holders s') = own u (holders s);
  gu_cells : ∀ u k m, u ≠ t → (u, k, m) ∈ holders s → cell d0 s' m = cell d0 s m ∧ tu_cell d0 a' m = tu_cell d0 a m;
  gu_turns : ∀ u, u ≠ t → tu_threads a' !! u = tu_threads a !! u }.

Lemma elem_of_own t l h : h ∈ own t l ↔ h.1.1 = t ∧ h ∈ l.
Proof. unfold own. by rewrite list_elem_of_filter. Qed.
Lemma own_entry t l k m : own t l = entry t (Some (k, m)) → (t, k, m) ∈ l.
Proof. intros H. apply (elem_of_own t l (t, k, m)). rewrite H. constructor. Qed.
Lemma own_none t l k m : own t l = [] → (t, k, m) ∉ l.
Proof. intros H Hm. apply (not_elem_of_nil (t, k, m)). rewrite <- H. by apply elem_of_own. Qed.

Section Stable.
Context (t : nat) (a a' : Turns (D := D)) (s s' : Sched D) (G : guar t a a' s s').

Lemma later_stable u c i : creating s = false → later_below s u c i → later_below s' u c i.
Proof.
  intros Hc H j x' Hj Hne Hx' Ha. destruct (gu_slots _ _ _ _ _ G Hc j x') as (x & Hx & Hle & Hact); [lia|done|].
  pose proof (H j x Hj Hne Hx (Hact Ha)) as Hb. unfold before in *; cbn in *; lia.
Qed.
Lemma scanned_stable u c i : scanned s u c i → scanned s' u c i.
Proof.
  intros [Hc Hl]. destruct (decide (i = 0%nat)) as [->|Hi]; [split; [lia|intros j x ?; lia]|].
  split; [intros _; apply (gu_open _ _ _ _ _ G)|apply later_stable]; auto with lia.
Qed.
Lemma least_stable u c : least s u c → least s' u c.
Proof. intros [Hc Hl]. split; [by apply (gu_open _ _ _ _ _ G)|intros i; by apply later_stable]. Qed.
Lemma bound_stable u n c : bound_ok s u n c → bound_ok s' u n c.
Proof. intros [Hn Hc]. split; [|done]. pose proof (gu_next _ _ _ _ _ G). lia. Qed.

Lemma section_stable u h p ap :
  u ≠ t → own u (holders s) = entry u h → in_section a s h p ap → in_section a' s' h p ap.
Proof.
  intros Hu Ho [Hf Hs]. split; [done|]. destruct h as [[k m]|]; [|done].
  destruct (gu_cells _ _ _ _ _ G u k m Hu) as [-> ->]; [by apply own_entry|done].
Qed.

Lemma pc_stable u c act ac ap h depth x :
  u ≠ t → own u (holders s) = entry u h → pc_ok a s u c act ac ap h depth x → pc_ok a' s' u c act ac ap h depth x.
Proof.
  intros Hu Ho. destruct x; cbn; try done; intuition eauto using section_stable, scanned_stable, least_stable, bound_stable.
Qed.

Lemma child_stable u : u ≠ t → threads s' !! u = threads s !! u → child_ok a s u → child_ok a' s' u.
Proof.
  intros Hu Ht (c & act & ac & ap & Hs & Ha & Hc & Hcr & Hth).
  destruct (gu_slot _ _ _ _ _ G u _ Hu Hs) as ([c' act'] & Hs' & Hlc & Hsame). cbn in Hlc. subst c'.
  exists c, act', ac, ap. split_and!; [done|by rewrite (gu_turns _ _ _ _ _ G)|done| |].
  { intros E. apply Hcr. destruct (creating s) eqn:E'; [done|]. by rewrite (gu_open _ _ _ _ _ G E') in E. }
  rewrite Ht, (gu_own _ _ _ _ _ G) by done. destruct (threads s !! u) as [th|]; [|done].
  destruct Hth as (Hm & Hn & h & Ho & Hp). injection (Hsame (mk_is_Some _ _ eq_refl)) as ->.
  pose proof (gu_next _ _ _ _ _ G). split_and!; [done|lia|]. exists h. split; [done|by apply pc_stable].
Qed.
End Stable.

(** *** Steps of a thread that is not the main thread *)

Lemma sim_created a s : sim a s → (length (threads s) ≤ S (length cs))%nat ∧ (next_slot s ≤ S (length cs))%nat.
Proof.
  intros [_ _ [_ (x & act & _ & _ & Hx) _] _ _ _ _ _ _].
  assert (Hd : ∀ k c rest, drop k cs = c :: rest → (k < length cs)%nat).
  { intros k c rest E. destruct (decide (k < length cs)%nat) as [|Hk]; [done|]. rewrite drop_ge in E by lia. done. }
  unfold main_pc, created in Hx. destruct x; try done; destruct_and?; destruct_or?; inv_all; eauto with lia;
    match goal with H : drop _ _ = _ |- _ => apply Hd in H; lia end.
Qed.

Lemma creating_child t th' s : t ≠ 0%nat → creating (set_thread t th' s) = creating s.
Proof. intros Ht. unfold creating. cbn. by rewrite list_lookup_insert_ne. Qed.

Record child_at a s (t : nat) (th : Thread D) (c : Z) (act : bool) (ac : Z) (ap : Prog D)
    (h : option (LockKind * nat)) : Prop := {
  ca_range : (1 ≤ t ≤ length cs)%nat ∧ (t < next_slot s)%nat ∧ (t < length (threads s))%nat;
  ca_thread : threads s !! t = Some th;
  ca_mine : my_slot th = Some t;
  ca_slot : slots s !! t = Some (mkSlot c act);
  ca_turns : tu_threads a !! t = Some (ac, ap);
  ca_clock : 0 <= c ∧ (creating s = true → c = 0);
  ca_own : own t (holders s) = entry t h;
  ca_pc : pc_ok a s t c act ac ap h (lock_depth th) (pc th) }.

Lemma sim_child_at a s t th :
  sim a s → t ≠ 0%nat → threads s !! t = Some th → ∃ c act ac ap h, child_at a s t th c act ac ap h.
Proof.
  intros Hs Ht Hth. pose proof (sim_created _ _ Hs) as [Hl _]. pose proof (lookup_lt_Some _ _ _ Hth) as Hlt.
  assert (Hr : (1 ≤ t ≤ length cs)%nat) by lia.
  destruct (si_child _ _ Hs t Hr) as (c & act & ac & ap & H1 & H2 & H3 & H4 & H5). rewrite Hth in H5.
  destruct H5 as (H5 & H6 & h & H7 & H8). by exists c, act, ac, ap, h.
Qed.

(** What is left to show after a step of thread [t]. *)
Record child_step (t : nat) a a' s s' : Prop := {
  cst_guar : guar t a a' s s';
  cst_threads : ∀ u, u ≠ t → threads s' !! u = threads s !! u;
  cst_slots : ∀ j, j ≠ t → slots s' !! j = slots s !! j;
  cst_live : pc <$> threads s !! t ≠ Some Done;
  cst_lengths : length (threads s') = length (threads s) ∧ length (slots s') = length (slots s) ∧
    length (tu_threads a') = length (tu_threads a) ∧ next_slot s' = next_slot s;
  cst_child : child_ok a' s' t;
  cst_holders : ∀ h, h ∈ holders s' → h ∈ holders s ∨ h.1.1 = t;
  cst_excl : ∀ t u k m, (t, Exclusive, m) ∈ holders s' → (u, k, m) ∈ holders s' → u = t;
  cst_free : ∀ m, (∀ t k, (t, k, m) ∉ holders s') → tu_cell d0 a' m = cell d0 s' m;
  cst_order : tu_order a' = order s' }.

Lemma sim_child_step t a a' s s' :
  sim a s → (t ≠ 0 ∧ t < next_slot s ∧ t < length (threads s))%nat → child_step t a a' s s' → sim a' s'.
Proof.
  intros [Hl Hu [Hm1 (x & act & Hm2 & Hm3 & Hm4) Hm5] Htl Hch Hth He Hf Ho] (Ht0 & Htn & Htl')
    [G Ht Hs Hlive (L1 & L2 & L3 & L4) Hc Hho He' Hf' Ho'].
  assert (Hjoin : ∀ us, joined s us → joined s' us).
  { intros us [Hjr Hjo]. split; [done|]. intros u Hur Hin. rewrite Ht; [by apply Hjo|]. intros ->.
    by apply Hlive, (Hjo t Hur Hin). }
  split; try done; try congruence.
  - intros j y Hj. rewrite Hs by lia. rewrite L4 in Hj. by apply Hu.
  - split.
    + by rewrite (gu_turns _ _ _ _ _ G).
    + exists x, act. rewrite Ht, Hs by done. split_and!; try done. unfold main_pc, created in *. rewrite L1, L4.
      destruct x; try done.
      * destruct Hm4 as [Ha [H|(us & H1 & H2 & H3 & H4)]]; (split; [done|]); [by left|right; exists us; auto].
      * destruct Hm4 as (Ha & Hp & us & H1 & H2 & H3 & H4). split_and!; try done. exists us; auto.
      * destruct Hm4 as (Ha & Hp & us & H1 & H2 & H3 & H4). split_and!; try done. exists us; auto.
      * destruct Hm4 as (Ha & k & rest & H). split; [done|]. exists k, rest. rewrite Hs; [done|]. lia.
      * destruct Hm4 as (H1 & H2 & H3). auto.
    + by rewrite (gu_own _ _ _ _ _ G).
  - intros u Hu'. destruct (decide (u = t)) as [->|Hne]; [done|]. eapply child_stable; eauto.
  - intros h [H| ->]%Hho; rewrite L1; [by apply Hth|done].
Qed.

Lemma guar_local t a s th' : t ≠ 0%nat → guar t a a s (set_thread t th' s).
Proof.
  intros Ht. split; try done.
  - intros u x _ Hx. by exists x.
  - intros _ j x' _ Hx'. exists x'. split_and!; [done|lia|done].
  - by rewrite creating_child.
Qed.

(** A step that only changes where the thread is. *)
Lemma step_local a s t th c act ac ap h x :
  sim a s → child_at a s t th c act ac ap h → pc th ≠ Done → pc_ok a s t c act ac ap h (lock_depth th) x →
  child_step t a a s (set_thread t (goto x th) s).
Proof.
  intros Hs [(Hr1 & Hr2 & Hr3) Hth Hmine Hslot Htu [Hc1 Hc2] Hown _] Hnd Hx.
  assert (Ht : t ≠ 0%nat) by lia. pose proof (guar_local t a s (goto x th) Ht) as G. split; try done.
  - intros u Hu. cbn. by rewrite list_lookup_insert_ne.
  - rewrite Hth. cbn. congruence.
  - cbn. by rewrite length_insert.
  - exists c, act, ac, ap. rewrite creating_child by done. split_and!; try done. cbn. rewrite list_lookup_insert_eq by done.
    cbn. split_and!; try done. exists h. split; [done|].
    destruct x; cbn in *; try done; intuition eauto using scanned_stable, least_stable, bound_stable.
  - by left.
  - apply (si_excl _ _ Hs).
  - apply (si_free _ _ Hs).
  - apply (si_order _ _ Hs).
Qed.

(** A step that changes the thread's slot: its clock grows or it leaves. *)
Lemma step_slot a s t th c act ac ap h c' act' x f :
  sim a s → child_at a s t th c act ac ap h → pc th ≠ Done → f (mkSlot c act) = mkSlot c' act' → c <= c' → (act' = true → act = true) →
  (creating s = true → c' = 0) →
  pc_ok a (set_slots (alter f t (slots s)) (set_thread t (goto x th) s)) t c' act' ac ap h (lock_depth th) x →
  child_step t a a s (set_slots (alter f t (slots s)) (set_thread t (goto x th) s)).
Proof.
  intros Hs [(Hr1 & Hr2 & Hr3) Hth Hmine Hslot Htu [Hc1 Hc2] Hown _] Hnd Hf Hcc Haa Hcr Hx.
  assert (Ht : t ≠ 0%nat) by lia.
  assert (Hat : alter f t (slots s) !! t = Some (mkSlot c' act')) by (by rewrite list_lookup_alter_eq, Hslot; cbn; rewrite Hf).
  assert (Hne : ∀ j, j ≠ t → alter f t (slots s) !! j = slots s !! j) by (intros j Hj; by rewrite list_lookup_alter_ne).
  assert (Hcre : creating (set_slots (alter f t (slots s)) (set_thread t (goto x th) s)) = creating s)
    by (by apply (creating_child t (goto x th) s)).
  split; try done.
  - split; try done; cbn.
    + intros u y Hu Hy. exists y. by rewrite Hne.
    + intros _ j y _ Hy. destruct (decide (j = t)) as [->|Hj].
      * exists (mkSlot c act). rewrite Hat in Hy. by injection Hy as <-.
      * rewrite Hne in Hy by done. exists y. split_and!; [done|lia|done].
    + by rewrite Hcre.
  - intros u Hu. cbn. by rewrite list_lookup_insert_ne.
  - rewrite Hth. cbn. congruence.
  - cbn. by rewrite length_insert, length_alter.
  - exists c', act', ac, ap. rewrite Hcre. cbn [slots set_slots]. rewrite Hat. split_and!; try done; [lia|].
    cbn. rewrite list_lookup_insert_eq by done. cbn. split_and!; try done. by exists h.
  - by left.
  - apply (si_excl _ _ Hs).
  - apply (si_free _ _ Hs).
  - apply (si_order _ _ Hs).
Qed.

Lemma sim_own a s t th c act ac ap h u k m :
  sim a s → child_at a s t th c act ac ap h → (u, k, m) ∈ holders s → u = t → h = Some (k, m).
Proof.
  intros Hs Hat Hu ->. assert (Ho : (t, k, m) ∈ own t (holders s)) by by apply elem_of_own.
  rewrite (ca_own _ _ _ _ _ _ _ _ _ Hat) in Ho. destruct h as [[k' m']|]; [|by apply not_elem_of_nil in Ho].
  apply list_elem_of_singleton in Ho. by injection Ho as -> ->.
Qed.

(** A section touches what its lock guards. *)
Lemma step_access a s t th c act ac ap k m f (g : D → Prog D) :
  sim a s → child_at a s t th c act ac ap (Some (k, m)) → pc th = Run (Access m f g) →
  child_step t a a s (set_cell m (f (cell d0 s m)) (set_thread t (goto (Run (g (cell d0 s m))) th) s)).
Proof.
  intros Hs Hat Hpc. pose proof Hat as [(Hr1 & Hr2 & Hr3) Hth Hmine Hslot Htu [Hc1 Hc2] Hown Hp].
  rewrite Hpc in Hp. destruct Hp as (Hact & Hdep & [Hfl [Hcell Hap]] & Hac). assert (Ht : t ≠ 0%nat) by lia.
  inversion Hfl as [| |k' m' f' g' Hsh Hg|]; subst.
  pose proof (own_entry _ _ _ _ Hown) as Hin.
  set (s1 := set_thread t (goto (Run (g (cell d0 s m))) th) s).
  assert (Hm : cell d0 (set_cell m (f (cell d0 s m)) s1) m = f (cell d0 s m)) by (unfold cell; cbn; by rewrite lookup_insert_eq).
  assert (Hne : ∀ m', m' ≠ m → cell d0 (set_cell m (f (cell d0 s m)) s1) m' = cell d0 s m')
    by (intros m' ?; unfold cell; cbn; by rewrite lookup_insert_ne).
  destruct (guar_local t a s (goto (Run (g (cell d0 s m))) th) Ht) as [G1 G2 G3 G4 G5 G6 G7].
  split; try done.
  - split; try done. intros u k' m' Hu Hh. split; [|done]. destruct (decide (m' = m)) as [->|Hmm]; [|by apply Hne].
    rewrite Hm. destruct k; [|by apply Hsh]. by destruct (Hu (si_excl _ _ Hs t u k' m Hin Hh)).
  - intros u Hu. cbn. by rewrite list_lookup_insert_ne.
  - rewrite Hth. cbn. congruence.
  - cbn. by rewrite length_insert.
  - exists c, true, c, (finish (g (cell d0 s m)) (f (cell d0 s m))).2. split_and!; try done.
    { intros E. apply Hc2. rewrite <- E. symmetry. by apply (creating_child t _ s). }
    cbn [threads set_cell s1 set_thread set_threads]. rewrite list_lookup_insert_eq by done. split_and!; try done.
    exists (Some (k, m)). split_and!; try done. split_and!; try done. split; [done|]. by rewrite Hm.
  - by left.
  - apply (si_excl _ _ Hs).
  - intros m' Hno. rewrite Hne; [by apply (si_free _ _ Hs)|]. intros ->. by eapply Hno.
  - apply (si_order _ _ Hs).
Qed.

Lemma own_cons_ne u t k m l : u ≠ t → own u ((t, k, m) :: l) = own u l.
Proof. intros Hu. unfold own. rewrite filter_cons_False; [done|]. cbn. congruence. Qed.
Lemma own_cons_eq t k m l : own t l = [] → own t ((t, k, m) :: l) = entry t (Some (k, m)).
Proof. intros Ho. unfold own in *. rewrite filter_cons_True by done. by rewrite Ho. Qed.

Lemma own_drop_ne u t m l : u ≠ t → own u (drop_holder t m l) = own u l.
Proof.
  intros Hu. induction l as [|[[t' k] m'] l IH]; [done|]. cbn [drop_holder]. case_bool_decide as E; cbn in E.
  - destruct E as [-> ->]. by rewrite own_cons_ne.
  - unfold own in *. rewrite !filter_cons. by rewrite IH.
Qed.
Lemma own_drop_eq t k m l : own t l = entry t (Some (k, m)) → own t (drop_holder t m l) = [].
Proof.
  induction l as [|[[t' k'] m'] l IH]; [done|]. cbn [drop_holder]. intros Ho. case_bool_decide as E; cbn in E.
  - destruct E as [-> ->]. unfold own in *. rewrite filter_cons_True in Ho by done. by injection Ho as _ ->.
  - unfold own in *. rewrite !filter_cons in *. case_decide as E'; [|auto]. injection Ho as Ht _ Hm _. by destruct E.
Qed.
Lemma elem_of_drop t m l h : h ∈ drop_holder t m l → h ∈ l.
Proof.
  induction l as [|x l IH]; [done|]. cbn. case_bool_decide; [by right|].
  intros [->|H']%elem_of_cons; [left|right; auto].
Qed.

(** The end of a section. *)
Lemma step_unlock a s t th c act ac ap k m q :
  sim a s → child_at a s t th c act ac ap (Some (k, m)) → pc th = Run (Unlock m q) →
  child_step t a a s (release t m (set_thread t (mkThread (my_slot th) (pred (lock_depth th)) (Run q)) s)).
Proof.
  intros Hs Hat Hpc. pose proof Hat as [(Hr1 & Hr2 & Hr3) Hth Hmine Hslot Htu [Hc1 Hc2] Hown Hp].
  rewrite Hpc in Hp. destruct Hp as (Hact & Hdep & [Hfl [Hcell Hap]] & Hac). assert (Ht : t ≠ 0%nat) by lia.
  inversion Hfl as [| | |k' m' p' Hq]; subst.
  set (th' := mkThread (my_slot th) (pred (lock_depth th)) (Run q)).
  destruct (guar_local t a s th' Ht) as [G1 G2 G3 G4 G5 G6 G7].
  split; try done.
  - split; try done. intros u Hu. by apply own_drop_ne.
  - intros u Hu. cbn. by rewrite list_lookup_insert_ne.
  - rewrite Hth. cbn. congruence.
  - cbn. by rewrite length_insert.
  - exists c, true, c, q. split_and!; try done.
    { intros E. apply Hc2. rewrite <- E. symmetry. by apply (creating_child t _ s). }
    cbn [threads release set_holders set_thread set_threads]. rewrite list_lookup_insert_eq by done. split_and!; try done.
    exists None. split; [by apply (own_drop_eq _ k)|]. cbn. by rewrite Hdep.
  - intros h Hh. left. exact (elem_of_drop t m _ _ Hh).
  - intros t' u k' m' H1%elem_of_drop H2%elem_of_drop. by apply (si_excl _ _ Hs t' u k' m').
  - intros m' Hno. destruct (decide (m' = m)) as [->|Hmm]; [done|].
    apply (si_free _ _ Hs). intros u k' Hin. destruct (decide (u = t)) as [->|Hu].
    + pose proof (sim_own _ _ _ _ _ _ _ _ _ _ _ _ Hs Hat Hin eq_refl) as E. by injection E as -> ->.
    + apply (Hno u k'). apply (elem_of_own u _ (u, k', m')).
      assert (E : own u (holders (release t m (set_thread t th' s))) = own u (holders s)) by by apply own_drop_ne.
      rewrite E. by apply elem_of_own.
  - apply (si_order _ _ Hs).
Qed.

Lemma is_free_spec k m s :
  is_free k m s = true → ∀ u k', (u, k', m) ∈ holders s → k = Shared ∧ k' = Shared.
Proof.
  unfold is_free. rewrite forallb_forall. intros H u k' Hin. apply list_elem_of_In in Hin.
  specialize (H _ Hin). cbn in H. rewrite bool_decide_true in H by done. cbn in H.
  apply andb_true_iff in H as [H1 H2]. by apply bool_decide_eq_true in H1, H2.
Qed.

(** What no exclusive lock guards is as the reference has it. *)
Lemma cell_shared a s m : sim a s → (∀ u k, (u, k, m) ∈ holders s → k = Shared) → tu_cell d0 a m = cell d0 s m.
Proof.
  intros Hs Hsh. destruct (decide (Exists (λ h, h.2 = m) (holders s))) as [He|He].
  - apply Exists_exists in He as ([[u k] m'] & Hin & Hm). cbn in Hm. subst m'. pose proof (Hsh u k Hin) as ->.
    assert (Hu : (u < length (threads s))%nat) by apply (si_threads _ _ Hs _ Hin).
    destruct (lookup_lt_is_Some_2 _ _ Hu) as [th Hth].
    assert (Hu0 : u ≠ 0%nat).
    { intros ->. eapply own_none; [apply (mo_own _ _ (si_main _ _ Hs))|exact Hin]. }
    destruct (sim_child_at a s u th Hs Hu0 Hth) as (c & act & ac & ap & h & Hat).
    pose proof (sim_own _ _ _ _ _ _ _ _ _ _ _ _ Hs Hat Hin eq_refl) as ->.
    pose proof (ca_pc _ _ _ _ _ _ _ _ _ Hat) as Hp. unfold pc_ok, at_gate, in_section in Hp.
    destruct (pc th); try done; destruct_and?; try done;
      match goal with H : tu_cell _ _ _ = _ |- _ => rewrite H; by eapply finish_shared end.
  - apply (si_free _ _ Hs). intros t k Hin. apply He, Exists_exists. by exists (t, k, m).
Qed.

Lemma all_created a s : sim a s → creating s = false → length (threads s) = S (length cs) ∧ next_slot s = S (length cs).
Proof.
  intros [_ _ [_ (x & act & Hx & _ & Hm) _] _ _ _ _ _ _] Hc. unfold creating in Hc. rewrite Hx in Hc. cbn in Hc.
  unfold main_pc, created in Hm. destruct x as [p| | | | | | | | | | | | | | |]; try done; [|by destruct_and?; inv_all; eauto with lia..].
  destruct Hm as [_ [(k & [Hl Hk] & Hn & ->)|(us & [Hl _] & Hn & -> & _)]]; [|done].
  assert (k = length cs) as ->; [|done]. destruct (decide (k = length cs)) as [|Hne]; [done|].
  destruct (drop k cs) as [|c rest] eqn:E; [|done]. apply (f_equal length) in E. rewrite length_drop in E. cbn in E. lia.
Qed.

(** A thread the reference still has to run is active, and its clock is not ahead there. *)
Lemma live_active a s j c p :
  sim a s → creating s = false → tu_threads a !! j = Some (c, p) → is_exit p = false →
  ∃ x, (1 ≤ j)%nat ∧ slots s !! j = Some x ∧ active x = true ∧ lc x <= c.
Proof.
  intros Hs Hc Hj Hp. assert (Hj0 : j ≠ 0%nat).
  { intros ->. rewrite (mo_turns _ _ (si_main _ _ Hs)) in Hj. injection Hj as <- <-. done. }
  pose proof (lookup_lt_Some _ _ _ Hj) as Hlt. rewrite (si_len _ _ Hs) in Hlt.
  destruct (all_created a s Hs Hc) as [Hl _]. rewrite <- Hl in Hlt.
  destruct (lookup_lt_is_Some_2 _ _ Hlt) as [th Hth].
  destruct (sim_child_at a s j th Hs Hj0 Hth) as (c' & act & ac & ap & h & Hat).
  pose proof (ca_turns _ _ _ _ _ _ _ _ _ Hat) as E. rewrite Hj in E. injection E as <- <-.
  exists (mkSlot c' act). pose proof (ca_pc _ _ _ _ _ _ _ _ _ Hat) as Hpc. pose proof (ca_slot _ _ _ _ _ _ _ _ _ Hat).
  split_and!; [lia|done| |]; unfold pc_ok, at_gate in Hpc; cbn;
    destruct (pc th); try done; destruct_and?; subst; try done; lia.
Qed.

Definition taken_turns a (t : nat) (c : Z) (k : LockKind) (m : nat) q : Turns :=
  mkTurns (<[t := (c + 1, (finish q (tu_cell d0 a m)).2)]> (tu_threads a))
    (<[m := (finish q (tu_cell d0 a m)).1]> (tu_cells a)) (tu_order a ++ [(t, k, m)]).

Lemma least_turn a s t th c ac ap h k m q :
  sim a s → child_at a s t th c true ac ap h → ac = c → ap = Lock k m q → least s t c →
  turn d0 a = Some (taken_turns a t c k m q).
Proof.
  intros Hs Hat -> -> [Hc Hl]. unfold turn. pose proof (ca_turns _ _ _ _ _ _ _ _ _ Hat) as Htu.
  rewrite (next_turn_least (tu_threads a) 0 t c (Lock k m q) Htu eq_refl).
  - cbn [mbind option_bind Nat.add]. rewrite Htu. cbn. unfold taken_turns. by destruct (finish q (tu_cell d0 a m)).
  - intros j c' p' Hj Hp Hne. destruct (live_active a s j c' p' Hs Hc Hj Hp) as (x & Hj1 & Hx & Ha & Hle).
    assert (Hb : before (c, t) (lc x, j)) by (apply (Hl (S j) j x); [lia|done..]).
    unfold before in *; cbn in *; lia.
Qed.

Lemma taken_cell a t c k m q m' :
  tu_cell d0 (taken_turns a t c k m q) m' = if decide (m' = m) then (finish q (tu_cell d0 a m)).1 else tu_cell d0 a m'.
Proof.
  unfold tu_cell at 1, taken_turns. cbn [tu_cells]. case_decide as E; [subst; by rewrite lookup_insert_eq|].
  by rewrite lookup_insert_ne.
Qed.

(** The lock is taken: this is the thread's turn in the reference. *)
Lemma step_taken a s t th c act ac ap h k m q :
  sim a s → child_at a s t th c act ac ap h → pc th = Real (Lock k m q) → is_free k m s = true →
  turn d0 a = Some (taken_turns a t c k m q) ∧ child_step t a (taken_turns a t c k m q) s (taken t th k m q s).
Proof.
  intros Hs Hat Hpc Hfree. pose proof Hat as [(Hr1 & Hr2 & Hr3) Hth Hmine Hslot Htu [Hc1 Hc2] Hown Hp].
  rewrite Hpc in Hp. destruct Hp as ((-> & Hdep & -> & Hfl & _) & Hac & Hap & Hleast). assert (Ht : t ≠ 0%nat) by lia.
  split; [by eapply least_turn|]. inversion Hfl as [|k' m' p' Hq| |]; subst.
  pose proof (is_free_spec k m s Hfree) as Hsh.
  assert (Hcell : tu_cell d0 a m = cell d0 s m) by (apply cell_shared; [done|]; intros u k' Hin; by apply (Hsh u k')).
  assert (Hkeep : ∀ u k' m', (u, k', m') ∈ holders s → tu_cell d0 (taken_turns a t c k m q) m' = tu_cell d0 a m').
  { intros u k' m' Hin. rewrite taken_cell. case_decide as E; [|done]. subst m'. destruct (Hsh u k' Hin) as [-> ->].
    by apply (finish_shared m). }
  unfold taken. rewrite Hdep, bool_decide_true by done. set (th' := mkThread (my_slot th) 1 (Advance q)).
  destruct (guar_local t a s th' Ht) as [G1 G2 G3 G4 G5 G6 G7].
  assert (G : guar t a (taken_turns a t c k m q) s (log_order (t, k, m) (acquire t k m (set_thread t th' s)))).
  { split; try done.
    - intros u Hu. by apply own_cons_ne.
    - intros u k' m' Hu Hin. split; [done|by apply (Hkeep u k')].
    - intros u Hu. cbn. by rewrite list_lookup_insert_ne. }
  split; try done.
  - intros u Hu. cbn. by rewrite list_lookup_insert_ne.
  - rewrite Hth. cbn. congruence.
  - cbn. by rewrite !length_insert.
  - exists c, true, (c + 1), (finish q (tu_cell d0 a m)).2. split_and!; try done.
    { cbn. rewrite list_lookup_insert_eq; [done|]. by apply lookup_lt_Some in Htu. }
    { intros E. apply Hc2. rewrite <- E. symmetry. by apply (creating_child t _ s). }
    cbn [threads log_order acquire set_holders set_thread set_threads]. rewrite list_lookup_insert_eq by done.
    split_and!; try done. exists (Some (k, m)). split; [by apply own_cons_eq|].
    split_and!; try done; [|by apply (least_stable t a _ s _ G)].
    split; [done|]. rewrite taken_cell, decide_True by done. rewrite Hcell. done.
  - intros h [->|Hh]%elem_of_cons; [by right|by left].
  - intros t' u k' m' [E1|H1]%elem_of_cons [E2|H2]%elem_of_cons; [congruence| | |by apply (si_excl _ _ Hs t' u k' m')].
    + injection E1 as -> <- ->. destruct (Hsh u k' H2) as [? _]. done.
    + injection E2 as -> -> ->. destruct (Hsh t' Exclusive H1) as [_ ?]. done.
  - intros m' Hno. rewrite taken_cell, decide_False; [|intros ->; apply (Hno t k); left].
    apply (si_free _ _ Hs). intros u k' Hin. apply (Hno u k'). by right.
  - cbn. by rewrite (si_order _ _ Hs).
Qed.

(** *** The scan for the least clock *)

Lemma clocks_nonneg a s j x : sim a s → slots s !! j = Some x → 0 <= lc x.
Proof.
  intros Hs Hx. destruct (decide (j = 0%nat)) as [->|Hj0].
  { destruct (mo_thread _ _ (si_main _ _ Hs)) as (? & ? & _ & E & _). rewrite E in Hx. by injection Hx as <-. }
  destruct (decide (j ≤ length cs)%nat) as [Hj|Hj].
  - destruct (si_child _ _ Hs j) as (c & act & ac & ap & E & _ & Hc & _); [lia|]. rewrite E in Hx. by injection Hx as <-.
  - rewrite (si_unused _ _ Hs j x); [done| |done]. destruct (sim_created _ _ Hs). lia.
Qed.

Lemma scan_done a s t n c : sim a s → (1 ≤ t)%nat → scanned s t c n → bound_ok s t n c → least s t c.
Proof.
  intros Hs Ht [Hcr Hl] [Hn Hb]. assert (Hc : creating s = false) by (apply Hcr; lia). split; [done|].
  intros i j x Hj Hne Hx Ha. destruct (decide (j < n)%nat) as [Hlt|Hge]; [apply (Hl j x); try done; lia|].
  destruct Hb as [->| ->].
  - destruct (all_created a s Hs Hc) as [_ Hnext]. rewrite (si_unused _ _ Hs j x) in Ha by (done || lia). done.
  - pose proof (clocks_nonneg a s j x Hs Hx). unfold before; cbn. lia.
Qed.

Lemma main_inactive a s x : sim a s → slots s !! 0%nat = Some x → active x = false → creating s = false.
Proof.
  intros Hs Hx Ha. destruct (mo_thread _ _ (si_main _ _ Hs)) as (y & act & Hth & Hsl & Hm).
  rewrite Hsl in Hx. injection Hx as <-. cbn in Ha. subst act. unfold creating. rewrite Hth. cbn.
  unfold main_pc in Hm. destruct y; try done; by destruct Hm.
Qed.

Lemma scanned_skip s t c i : (1 ≤ t)%nat → scanned s t c i → i = t → scanned s t c (S i).
Proof.
  intros Ht [Hc Hl] ->. split; [auto with lia|]. intros j x Hj Hne. apply Hl; [lia|done].
Qed.

Lemma scanned_next a s t c i x :
  sim a s → scanned s t c i → slots s !! i = Some x → i ≠ t → active x = false ∨ (i ≠ 0%nat ∧ before (c, t) (lc x, i)) →
  scanned s t c (S i).
Proof.
  intros Hs [Hc Hl] Hx Hne Hcase. split.
  - intros _. destruct (decide (i = 0%nat)) as [->|Hi]; [|auto with lia].
    destruct Hcase as [Ha|[? _]]; [by eapply main_inactive|done].
  - intros j y Hj Hjt Hy Ha. destruct (decide (j = i)) as [->|Hji]; [|apply Hl; (done || lia)].
    rewrite Hx in Hy. injection Hy as <-. destruct Hcase as [?|[_ ?]]; [congruence|done].
Qed.

Context (cap : Z) (Hmax : (S (length cs) ≤ MAXT)%nat).

Lemma slot_present a s i : sim a s → (i < next_slot s)%nat → is_Some (slots s !! i).
Proof. intros Hs Hi. apply lookup_lt_is_Some_2. rewrite (si_slots _ _ Hs). pose proof (sim_created _ _ Hs). lia. Qed.

(** The loop of [await_turn]. *)
Lemma scan_step a s t th c act ac ap h :
  sim a s → child_at a s t th c act ac ap h →
  (∃ p n, pc th = Await p n) ∨ (∃ p l n i z, pc th = Scan p l n i z) ∨ (∃ p l n i z, pc th = ScanLc p l n i z) →
  match sched_step d0 true cap t s with
  | Moved s' => relaxations s' = relaxations s → child_step t a a s s'
  | Blocked | Undefined => False
  end.
Proof.
  intros Hs Hat Hcase. pose proof Hat as [(Hr1 & Hr2 & Hr3) Hth Hmine Hslot Htu [Hc1 Hc2] Hown Hp].
  unfold sched_step. rewrite Hth. destruct Hcase as [(p & z & Hpc)|[(p & l & n & i & z & Hpc)|(p & l & n & i & z & Hpc)]];
    rewrite Hpc in *; cbn in Hp.
  - rewrite Hmine. cbn. rewrite Hslot. intros _. eapply step_local; [done..|congruence|]. cbn. destruct_and!. split_and!; try done.
    + split; [lia|intros j x Hj; lia].
    + split; [lia|]. destruct (creating s) eqn:E; [right; auto|left]. by destruct (all_created a s Hs E).
    + lia.
  - destruct Hp as (Hg & Hac & Hap & -> & Hsc & Hb & Hin). case_bool_decide as E1.
    { intros _. eapply step_local; [done..|congruence|]. cbn. split_and!; try done. eapply (scan_done a s t n); try done; [lia|].
      by replace n with i by lia. }
    destruct (slot_present a s i Hs) as [x Hx]; [destruct Hb; lia|]. rewrite Hmine. case_bool_decide as E2.
    { injection E2 as <-. intros _. eapply step_local; [done..|congruence|]. cbn. split_and!; try done; [apply scanned_skip; (done || lia)|lia]. }
    rewrite Hx. intros _. eapply step_local; [done..|congruence|]. destruct (active x) eqn:Ha; cbn; split_and!; try done; try congruence; [lia| |lia].
    eapply scanned_next; try done; [congruence|by left].
  - destruct Hp as (Hg & Hac & Hap & -> & Hsc & Hb & Hin & Hit).
    destruct (slot_present a s i Hs) as [x Hx]; [destruct Hb; lia|]. rewrite Hx, Hmine. cbn [from_option id].
    destruct (_ || _) eqn:E.
    + unfold not_min. destruct ((0 <? cap) && (cap <=? z + 1)); [intros Hrel; exfalso; revert Hrel; cbn [relax relaxations set_thread set_threads]; lia|].
      intros _. eapply step_local; [done..|congruence|done].
    + intros _. apply orb_false_iff in E as [E1%Z.ltb_ge E2]. apply andb_false_iff in E2.
      eapply step_local; [done..|congruence|]. cbn. split_and!; try done.
      assert (E : lc x ≠ c ∨ ¬ (i < t)%nat)
        by (destruct E2 as [E2%Z.eqb_neq|E2%bool_decide_eq_false]; [by left|by right]).
      eapply scanned_next; try done. right. split; [|unfold before; cbn; lia]. intros ->.
      destruct (mo_thread _ _ (si_main _ _ Hs)) as (? & ? & _ & Hx0 & _). rewrite Hx0 in Hx. injection Hx as <-.
      cbn [lc] in *. lia.
Qed.

(** A call of the thread's program. *)
Lemma call_step_ok a s t th c act ac ap h p :
  sim a s → child_at a s t th c act ac ap h → pc th = Run p →
  ∃ s', call_step d0 true t th p s = Moved s' ∧ child_step t a a s s'.
Proof.
  intros Hs Hat Hpc. pose proof Hat as [(Hr1 & Hr2 & Hr3) Hth Hmine Hslot Htu [Hc1 Hc2] Hown Hp].
  rewrite Hpc in Hp. pose proof Hp as (-> & Hdep & [Hfl Hsec] & Hac).
  assert (Ht : t ≠ 0%nat) by lia. destruct Hfl as [|k m p Hfl|k m f g Hf Hg|k m p Hfl].
  - eexists; split; [reflexivity|]. rewrite bool_decide_false by done. cbn [orb negb]. rewrite Hmine.
    apply (step_slot a s t th c true ac ap None c false Exiting); (done || congruence).
  - eexists; split; [cbn; rewrite Hmine; reflexivity|]. rewrite Hdep. cbn. eapply step_local; [done..|congruence|].
    cbn in *. split_and!; try done. split_and!; try done. by constructor.
  - eexists; split; [reflexivity|]. by apply (step_access a s t th c true ac ap k m f g).
  - eexists; split; [reflexivity|]. by apply (step_unlock a s t th c true ac ap k m p).
Qed.

Lemma sim_child a s t :
  sim a s → t ≠ 0%nat →
  match sched_step d0 true cap t s with
  | Moved s' => relaxations s' = relaxations s → ∃ a', (a' = a ∨ turn d0 a = Some a') ∧ sim a' s'
  | Blocked => True
  | Undefined => False
  end.
Proof.
  intros Hs Ht. destruct (threads s !! t) as [th|] eqn:Hth; [|unfold sched_step; by rewrite Hth].
  destruct (sim_child_at a s t th Hs Ht Hth) as (c & act & ac & ap & h & Hat).
  pose proof Hat as [(Hr1 & Hr2 & Hr3) _ Hmine Hslot Htu [Hc1 Hc2] Hown Hp].
  assert (Hgo : ∀ s', child_step t a a s s' → ∃ a', (a' = a ∨ turn d0 a = Some a') ∧ sim a' s').
  { intros s' H. exists a. split; [by left|]. by eapply sim_child_step. }
  pose proof (scan_step a s t th c act ac ap h Hs Hat) as Hscan.
  destruct (pc th) as [p| |p z|p l n i z|p l n i z|p|p| | | | | | | | |] eqn:Hpc; try done.
  - unfold sched_step. rewrite Hth, Hpc. destruct (call_step_ok a s t th c act ac ap h p Hs Hat Hpc) as (s' & -> & Hc). auto.
  - specialize (Hscan ltac:(eauto 10)). revert Hscan. destruct (sched_step d0 true cap t s); [auto|done..].
  - specialize (Hscan ltac:(eauto 10)). revert Hscan. destruct (sched_step d0 true cap t s); [auto|done..].
  - specialize (Hscan ltac:(eauto 10)). revert Hscan. destruct (sched_step d0 true cap t s); [auto|done..].
  - unfold sched_step. rewrite Hth, Hpc. destruct Hp as ((-> & Hdep & -> & Hfl & Hex) & _).
    inversion Hfl as [|k m q Hq| |]; subst; [done|]. destruct (is_free k m s) eqn:Hf; [|done]. intros _.
    destruct (step_taken a s t th c true ac ap None k m q Hs Hat Hpc Hf) as [Hturn Hst].
    exists (taken_turns a t c k m q). split; [by right|]. by eapply sim_child_step.
  - unfold sched_step. rewrite Hth, Hpc. intros _. apply Hgo. rewrite Hmine.
    destruct Hp as (-> & Hdep & Hne & Hsec & Hac & [Hcr Hl]).
    apply (step_slot a s t th c true ac ap h (c + 1) true (Run p)); try done; [congruence|lia|congruence|].
    cbn. split_and!; try done. rewrite Hdep. by destruct h.
  - unfold sched_step. rewrite Hth, Hpc. intros _. apply Hgo. eapply step_local; [done..|congruence|done].
  - unfold sched_step. by rewrite Hth, Hpc.
Qed.

(** *** Steps of the main thread *)

Record main_step a s s' : Prop := {
  mst_guar : guar 0 a a s s';
  mst_slots : length (slots s') = length (slots s);
  mst_unused : ∀ j x, (next_slot s' ≤ j)%nat → slots s' !! j = Some x → x = mkSlot 0 false;
  mst_thread : ∃ x act, threads s' !! 0%nat = Some (mkThread (Some 0%nat) 0 x) ∧
    slots s' !! 0%nat = Some (mkSlot 0 act) ∧ main_pc s' act x;
  mst_child : ∀ t, (1 ≤ t ≤ length cs)%nat → threads s' !! t = threads s !! t ∨ child_ok a s' t;
  mst_length : (length (threads s) ≤ length (threads s'))%nat;
  mst_rest : holders s' = holders s ∧ cells s' = cells s ∧ order s' = order s }.

Lemma sim_main_step a s s' : sim a s → main_step a s s' → sim a s'.
Proof.
  intros [Hl Hu [Hm1 _ Hm5] Htl Hch Hth He Hf Ho] [G Hs Hun Hmt Hc Hlen (R1 & R2 & R3)].
  split; try done; rewrite ?R1, ?R3; try done; try congruence.
  - split; [done..|by rewrite R1].
  - intros t Ht. destruct (Hc t Ht) as [E|]; [|done]. eapply child_stable; eauto. lia.
  - intros h Hh. apply Hth in Hh. lia.
  - intros m Hno. unfold cell. rewrite R2. by apply Hf.
Qed.

(** Only where the main thread is changes, and whether it is active. *)
Lemma main_local a s x act x' l :
  sim a s → threads s !! 0%nat = Some (mkThread (Some 0%nat) 0 x) → slots s !! 0%nat = Some (mkSlot 0 act) →
  (∀ j, j ≠ 0%nat → l !! j = slots s !! j) → length l = length (slots s) →
  (∃ act', l !! 0%nat = Some (mkSlot 0 act') ∧ main_pc (set_slots l (set_thread 0 (mkThread (Some 0%nat) 0 x') s)) act' x') →
  (creating s = false → creating (set_slots l (set_thread 0 (mkThread (Some 0%nat) 0 x') s)) = false) →
  main_step a s (set_slots l (set_thread 0 (mkThread (Some 0%nat) 0 x') s)).
Proof.
  intros Hs Hx Hsl Hl Hlen (act' & Hl0 & Hmp) Hcr. pose proof (lookup_lt_Some _ _ _ Hx) as Hlt.
  assert (Hn : (1 ≤ next_slot s)%nat).
  { destruct (decide (next_slot s = 0%nat)) as [E|]; [|lia]. cbn in Hmp.
    assert (Hnext : next_slot (set_slots l (set_thread 0 (mkThread (Some 0%nat) 0 x') s)) = 0%nat) by done.
    unfold main_pc in Hmp. destruct x'; try done; destruct_and?; destruct_or?; inv_all; congruence. }
  split; try done.
  - split; try done; cbn.
    + intros u y Hu Hy. exists y. by rewrite Hl.
    + intros _ j y Hj Hy. rewrite Hl in Hy by lia. exists y. split_and!; [done|lia|done].
  - intros j y Hj Hy. cbn in *. rewrite Hl in Hy by lia. by apply (si_unused _ _ Hs j).
  - exists x', act'. cbn. by rewrite list_lookup_insert_eq.
  - intros t Ht. left. cbn. rewrite list_lookup_insert_ne; [done|lia].
  - cbn. by rewrite length_insert.
Qed.

Abbreviation main_at x := (mkThread (Some 0%nat) 0 x).

Lemma drop_lt k c rest : drop k cs = c :: rest → (k < length cs)%nat ∧ cs !! k = Some c ∧ drop (S k) cs = rest.
Proof.
  intros E. assert (Hk : (k < length cs)%nat).
  { destruct (decide (k < length cs)%nat) as [|Hk]; [done|]. rewrite drop_ge in E by lia. done. }
  split; [done|]. destruct (lookup_lt_is_Some_2 _ _ Hk) as [c' Hc']. rewrite (drop_S _ _ _ Hc') in E. by injection E as -> <-.
Qed.

(** [alloc_slot] takes a number ... *)
Lemma main_create a s k c rest act (g : nat → Prog D) :
  sim a s → threads s !! 0%nat = Some (main_at (Run (Create c g))) → slots s !! 0%nat = Some (mkSlot 0 act) → act = true →
  created s k → next_slot s = S k → drop k cs = c :: rest → (g = λ u, spawn_all rest (seq 1 k ++ [u])) →
  main_step a s (set_next (S (S k)) (set_thread 0 (main_at (Creating (S k) c g)) s)).
Proof.
  intros Hs Hx Hsl -> [Hlen Hk] Hn Hd Hg. pose proof (lookup_lt_Some _ _ _ Hx) as Hlt.
  assert (Hcr : creating s = true) by (unfold creating; by rewrite Hx).
  split; try done.
  - split; try done; cbn.
    + intros u y Hu Hy. by exists y.
    + congruence.
    + congruence.
    + lia.
  - intros j y Hj. cbn in *. apply (si_unused _ _ Hs). lia.
  - exists (Creating (S k) c g), true. cbn. rewrite list_lookup_insert_eq by done. split_and!; try done.
    exists k, rest. unfold created. cbn. by rewrite length_insert.
  - intros t Ht. left. cbn. rewrite list_lookup_insert_ne; [done|lia].
  - cbn. by rewrite length_insert.
Qed.

(** ... opens the slot of that number ... *)
Lemma main_open a s k c rest (g : nat → Prog D) act :
  sim a s → threads s !! 0%nat = Some (main_at (Creating (S k) c g)) → slots s !! 0%nat = Some (mkSlot 0 act) → act = true →
  created s k → next_slot s = S (S k) → drop k cs = c :: rest → (g = λ u, spawn_all rest (seq 1 k ++ [u])) →
  main_step a s (open_slot (S k) (set_thread 0 (main_at (Spawning (Some (S k)) c g)) s)).
Proof.
  intros Hs Hx Hsl -> [Hlen Hk] Hn Hd Hg. pose proof (lookup_lt_Some _ _ _ Hx) as Hlt.
  assert (Hcr : creating s = true) by (unfold creating; by rewrite Hx).
  destruct (drop_lt _ _ _ Hd) as (Hk' & _). destruct (si_child _ _ Hs (S k)) as (c' & act' & ac & ap & Hsk & _ & _ & Hc0 & Hth); [lia|].
  assert (Hnone : threads s !! S k = None) by (apply lookup_ge_None; lia). rewrite Hnone in Hth.
  assert (HS : (S k < length (slots s))%nat) by by apply lookup_lt_Some in Hsk.
  split; try done; cbn.
  - split; try done; cbn.
    + intros u y Hu Hy. destruct (decide (u = S k)) as [->|Hne].
      * exists (mkSlot 0 true). rewrite list_lookup_insert_eq by done. rewrite Hsk in Hy. injection Hy as <-.
        split_and!; [done|cbn; symmetry; tauto|]. rewrite Hnone. by intros [].
      * exists y. by rewrite list_lookup_insert_ne.
    + congruence.
    + congruence.
  - by rewrite length_insert.
  - intros j y Hj Hy. rewrite list_lookup_insert_ne in Hy by lia. by apply (si_unused _ _ Hs j).
  - exists (Spawning (Some (S k)) c g), true. rewrite list_lookup_insert_eq, list_lookup_insert_ne by done. split_and!; try done.
    cbn. split; [done|]. exists k, rest. unfold created. cbn. rewrite length_insert, list_lookup_insert_eq by done. done.
  - intros t Ht. left. rewrite list_lookup_insert_ne; [done|lia].
  - by rewrite length_insert.
Qed.

(** ... and the thread starts. *)
Lemma main_spawn a s k c rest (g : nat → Prog D) act :
  sim a s → Forall (flat None) cs → threads s !! 0%nat = Some (main_at (Spawning (Some (S k)) c g)) →
  slots s !! 0%nat = Some (mkSlot 0 act) → act = true → slots s !! S k = Some (mkSlot 0 true) →
  created s k → next_slot s = S (S k) → drop k cs = c :: rest → (g = λ u, spawn_all rest (seq 1 k ++ [u])) →
  main_step a s (set_threads (<[0%nat := main_at (Run (g (S k)))]> (threads s) ++ [mkThread (Some (S k)) 0 (Run c)]) s).
Proof.
  intros Hs Hflat Hx Hsl -> Hsk [Hlen Hk] Hn Hd Hg. pose proof (lookup_lt_Some _ _ _ Hx) as Hlt.
  assert (Hcr : creating s = true) by (unfold creating; by rewrite Hx).
  destruct (drop_lt _ _ _ Hd) as (Hk' & Hc & Hd').
  destruct (si_child _ _ Hs (S k)) as (c' & act' & ac & ap & Hsk' & Htu & _ & _ & Hth); [lia|].
  rewrite Hsk in Hsk'. injection Hsk' as <- <-.
  assert (Hnone : threads s !! S k = None) by (apply lookup_ge_None; lia). rewrite Hnone in Hth.
  assert (Hnext : g (S k) = spawn_all (drop (S k) cs) (seq 1 (S k))) by by rewrite Hg, Hd', seq_S.
  destruct Hth as (_ & -> & Hap & Hown). cbn in Hap. rewrite Hc in Hap. injection Hap as <-.
  split; try done; cbn.
  - split; try done; cbn.
    + intros u y Hu Hy. by exists y.
    + congruence.
    + congruence.
  - apply (si_unused _ _ Hs).
  - exists (Run (g (S k))), true. rewrite lookup_app_l, list_lookup_insert_eq by (rewrite ?length_insert; done).
    split_and!; try done. cbn. split; [done|]. left. exists (S k). unfold created. cbn.
    rewrite length_app, length_insert, Hlen. split_and!; [cbn; lia|lia|lia|done].
  - intros t Ht. destruct (decide (t = S k)) as [->|Hne]; [right|left].
    + exists 0, true, 0, c. cbn. split_and!; try done. rewrite lookup_app_r, length_insert, Hlen, Nat.sub_diag by (rewrite length_insert; lia).
      cbn. split_and!; try done; [lia|]. exists None. split_and!; try done. split; [|done].
      rewrite Forall_forall in Hflat. apply Hflat. by eapply list_elem_of_lookup_2.
    + destruct (decide (t < S k)%nat) as [Hltk|].
      * rewrite lookup_app_l, list_lookup_insert_ne by (rewrite ?length_insert; lia). done.
      * rewrite !lookup_ge_None_2; [done|lia|rewrite length_app, length_insert; cbn; lia].
  - rewrite length_app, length_insert. lia.
Qed.

Lemma creating_main x' l s :
  (0 < length (threads s))%nat →
  creating (set_slots l (set_thread 0 (main_at x') s)) =
  match x' with Run (Create _ _) | Creating _ _ _ | Spawning _ _ _ => true | _ => false end.
Proof. intros Hl. unfold creating. cbn. rewrite list_lookup_insert_eq by done. cbn. destruct x' as [[]| | | | | | | | | | | | | | |]; done. Qed.

(** Joins. *)
Lemma joined_main s us x' l : joined s us → joined (set_slots l (set_thread 0 (main_at x') s)) us.
Proof. intros [Hr H]. split; [done|]. intros t Ht Hin. cbn. rewrite list_lookup_insert_ne by lia. by apply H. Qed.

Lemma main_join a s us act :
  sim a s → threads s !! 0%nat = Some (main_at (Run (join_all us))) → slots s !! 0%nat = Some (mkSlot 0 act) → act = true →
  created s (length cs) → next_slot s = S (length cs) → joined s us →
  ∃ s', sched_step d0 true cap 0 s = Moved s' ∧ main_step a s s'.
Proof.
  intros Hs Hx Hsl -> [Hlen _] Hn Hj. pose proof (lookup_lt_Some _ _ _ Hx) as Hlt. unfold sched_step. rewrite Hx. cbn [pc].
  destruct us as [|u us]; cbn [join_all call_step my_slot].
  - eexists; split; [reflexivity|].
    change (main_step a s (set_slots (slots s) (set_thread 0 (main_at Done) s))). eapply main_local; try done.
    + exists true. split; [done|]. split_and!; [split; [cbn; by rewrite length_insert|done]|done|by apply joined_main].
    + intros _. by rewrite creating_main.
  - cbn [mbind option_bind]. rewrite Hsl. eexists; split; [reflexivity|]. cbn [active set_active].
    apply (main_local a s (Run (join_all (u :: us))) true (Joining u true (join_all us))); try done.
    + intros j Hj'. by rewrite list_lookup_alter_ne.
    + by rewrite length_alter.
    + exists false. rewrite list_lookup_alter_eq. cbn [slots set_thread set_threads]. rewrite Hsl. split; [done|]. split_and!; try done.
      exists us. split_and!; [split; [cbn; by rewrite length_insert|done]|done|done|by apply joined_main].
    + intros _. by rewrite creating_main.
Qed.

Lemma main_joining a s u q :
  sim a s → threads s !! 0%nat = Some (main_at (Joining u true q)) → pc <$> threads s !! u = Some Done →
  main_step a s (set_thread 0 (main_at (Joined true q)) s).
Proof.
  intros Hs Hx Hu. pose proof (lookup_lt_Some _ _ _ Hx) as Hlt.
  destruct (mo_thread _ _ (si_main _ _ Hs)) as (x & act & Hx' & Hsl & Hm). rewrite Hx in Hx'. injection Hx' as <-.
  change (main_step a s (set_slots (slots s) (set_thread 0 (main_at (Joined true q)) s))). eapply main_local; try done.
  - exists act. split; [done|]. destruct Hm as (Ha & Hp & us & [Hc _] & Hn & Hq & Hj). split_and!; try done. exists us.
    split_and!; [split; [cbn; by rewrite length_insert|done]|done|done|]. apply joined_main. destruct Hj as [Hr Hj].
    split; [by inversion Hr|]. intros t Ht Hin. destruct (decide (t = u)) as [->|Hne]; [done|]. apply Hj; [done|]. by apply not_elem_of_cons.
  - intros _. by rewrite creating_main.
Qed.

Lemma main_joined a s q :
  sim a s → threads s !! 0%nat = Some (main_at (Joined true q)) →
  main_step a s (set_active (Some 0%nat) true (set_thread 0 (main_at (Run q)) s)).
Proof.
  intros Hs Hx. pose proof (lookup_lt_Some _ _ _ Hx) as Hlt.
  destruct (mo_thread _ _ (si_main _ _ Hs)) as (x & act & Hx' & Hsl & Hm). rewrite Hx in Hx'. injection Hx' as <-.
  destruct Hm as (-> & _ & us & [Hc _] & Hn & -> & Hj).
  apply (main_local a s (Joined true (join_all us)) false (Run (join_all us))); try done.
  - intros j Hj'. by rewrite list_lookup_alter_ne.
  - by rewrite length_alter.
  - exists true. rewrite list_lookup_alter_eq. cbn [slots set_thread set_threads]. rewrite Hsl. split; [done|].
    split; [done|]. right. exists us.
    split_and!; [split; [cbn; by rewrite length_insert|done]|done|done|by apply joined_main].
  - intros _. rewrite creating_main by done. by destruct us.
Qed.

Lemma joined_all s : joined s (seq 1 (length cs)).
Proof.
  split; [apply Forall_forall; intros u Hu%elem_of_seq; lia|]. intros t Ht Hin. exfalso. apply Hin, elem_of_seq. lia.
Qed.

Lemma sim_main a s :
  Forall (flat None) cs → sim a s →
  match sched_step d0 true cap 0 s with Moved s' => main_step a s s' | Blocked => True | Undefined => False end.
Proof.
  intros Hflat Hs. destruct (mo_thread _ _ (si_main _ _ Hs)) as (x & act & Hx & Hsl & Hm).
  destruct x as [p| | | | | | | | | |u prev q|prev q|i c q|o c q| |] eqn:Ex; try done; cbn [main_pc] in Hm.
  - destruct Hm as [-> [(k & Hc & Hn & ->)|(us & Hc & Hn & -> & Hj)]].
    2:{ by destruct (main_join a s us true Hs Hx Hsl eq_refl Hc Hn Hj) as (s' & -> & H). }
    destruct (drop k cs) as [|c rest] eqn:Hd; cbn [spawn_all] in Hx.
    + assert (k = length cs) as ->.
      { destruct Hc. apply (f_equal length) in Hd. rewrite length_drop in Hd. cbn in Hd. lia. }
      by destruct (main_join a s _ true Hs Hx Hsl eq_refl Hc Hn (joined_all s)) as (s' & -> & H).
    + unfold sched_step. rewrite Hx. cbn [pc call_step]. rewrite Hn, bool_decide_true; [by eapply main_create|].
      destruct (drop_lt _ _ _ Hd). lia.
  - unfold sched_step. rewrite Hx. cbn [pc]. destruct Hm as (_ & -> & _).
    destruct (pc <$> threads s !! u) as [[]|] eqn:Eu; try done. by eapply main_joining.
  - unfold sched_step. rewrite Hx. cbn [pc]. destruct Hm as (_ & -> & _). by apply main_joined.
  - unfold sched_step. rewrite Hx. cbn [pc]. destruct Hm as (-> & k & rest & Hc & Hn & -> & Hd & Hq). by eapply main_open.
  - unfold sched_step. rewrite Hx. cbn [pc]. destruct Hm as (-> & k & rest & Hc & Hn & -> & Hd & Hq & Hsk).
    replace (length (threads s)) with (S k) by (symmetry; apply Hc). by eapply main_spawn.
  - unfold sched_step. by rewrite Hx.
Qed.

(** *** Runs *)

Lemma sched_start_eq e main :
  OB_DETSCHED e = true →
  sched_start e main =
  mkSched (<[0%nat := mkSlot 0 true]> (replicate MAXT (mkSlot 0 false))) 1 0 [main_at (Run main)] [] (∅ : gmap nat D) [].
Proof. intros He. unfold sched_start. by rewrite He. Qed.

Lemma sim_start e : OB_DETSCHED e = true → sim (turns_start cs) (sched_start e (fork_join cs)).
Proof.
  intros He. rewrite sched_start_eq by done.
  assert (Hpos : length (replicate MAXT (mkSlot 0 false)) = MAXT) by apply length_replicate.
  assert (Hin : ∀ j x, replicate MAXT (mkSlot 0 false) !! j = Some x → x = mkSlot 0 false) by (by intros j x [-> _]%lookup_replicate).
  generalize dependent (replicate MAXT (mkSlot 0 false)). intros l Hl Hin. split; cbn [slots next_slot threads holders order].
  - by rewrite length_insert.
  - intros j x Hj Hx. rewrite list_lookup_insert_ne in Hx by lia. by apply Hin in Hx.
  - split; [done| |done]. exists (Run (fork_join cs)), true. cbn [slots]. rewrite list_lookup_insert_eq by lia.
    split_and!; try done. split; [done|left]. exists 0%nat. rewrite drop_0. unfold created. cbn. split_and!; try done; lia.
  - cbn. by rewrite length_map.
  - intros t Ht. destruct (lookup_lt_is_Some_2 cs (pred t)) as [p Hp]; [lia|]. exists 0, false, 0, p.
    cbn [slots threads holders]. rewrite list_lookup_insert_ne by lia. split_and!; try done.
    + destruct (lookup_lt_is_Some_2 l t) as [x Hx]; [lia|]. by rewrite Hx, (Hin t x Hx).
    + destruct t as [|t]; [lia|]. cbn in *. rewrite (list_lookup_fmap (pair 0) cs). by rewrite Hp.
    + rewrite lookup_ge_None_2 by (cbn; lia). done.
  - by intros h Hh%elem_of_nil.
  - by intros t u k m Hh%elem_of_nil.
  - done.
  - done.
Qed.

Lemma step_relaxations t s s' : sched_step d0 true cap t s = Moved s' → relaxations s <= relaxations s'.
Proof.
  unfold sched_step. destruct (threads s !! t) as [th|]; [|done].
  destruct (pc th) as [p| | | | |p| | | | | | | | | |]; unfold call_step, not_min, set_active, bump, id; cbv zeta;
    repeat case_match; intros [= <-]; cbn -[Z.add]; lia.
Qed.

Lemma run_relaxations s s' : rtc (sched_red d0 true cap) s s' → relaxations s <= relaxations s'.
Proof. induction 1 as [|x y z [t Hst] _ IH]; [lia|]. apply step_relaxations in Hst. lia. Qed.

Definition ended s : Prop := ∀ t th, threads s !! t = Some th → pc th = Done.

Context (Hflat : Forall (flat None) cs).

Lemma sim_step a s s' :
  sim a s → sched_red d0 true cap s s' → relaxations s' = relaxations s → ∃ a', (a' = a ∨ turn d0 a = Some a') ∧ sim a' s'.
Proof.
  intros Hs [t Hst] Hrel. destruct (decide (t = 0%nat)) as [->|Ht].
  - pose proof (sim_main a s Hflat Hs) as H. rewrite Hst in H. exists a. split; [by left|by eapply sim_main_step].
  - pose proof (sim_child a s t Hs Ht) as H. rewrite Hst in H. auto.
Qed.

Lemma sim_defined a s t : sim a s → sched_step d0 true cap t s ≠ Undefined.
Proof.
  intros Hs E. destruct (decide (t = 0%nat)) as [->|Ht].
  - pose proof (sim_main a s Hflat Hs) as H. by rewrite E in H.
  - pose proof (sim_child a s t Hs Ht) as H. by rewrite E in H.
Qed.

Lemma sim_run e s :
  OB_DETSCHED e = true → rtc (sched_red d0 true cap) (sched_start e (fork_join cs)) s → relaxations s = 0 →
  ∃ n a, turns d0 n (turns_start cs) = Some a ∧ sim a s.
Proof.
  intros He Hr. pattern s. revert s Hr. apply rtc_ind_r.
  { intros _. exists 0%nat, (turns_start cs). split; [done|]. by apply sim_start. }
  intros s s' Hr Hst IH Hrel.
  assert (Hle : relaxations s <= relaxations s') by (destruct Hst as [t Hst]; by apply step_relaxations in Hst).
  pose proof (run_relaxations _ _ Hr) as Hpos. rewrite sched_start_eq in Hpos by done. cbn in Hpos.
  destruct IH as (n & a & Hn & Hs); [lia|].
  destruct (sim_step a s s' Hs Hst ltac:(lia)) as (a' & [->|Hturn] & Hs'); [by exists n, a|].
  exists (S n), a'. split; [by eapply turns_snoc|done].
Qed.

Lemma next_turn_none (l : list (Z * Prog D)) i : (∀ j c p, l !! j = Some (c, p) → p = Exit) → next_turn i l = None.
Proof.
  revert i; induction l as [|[c p] l IH]; intros i H; [done|]. cbn. rewrite (H 0%nat c p eq_refl). cbn.
  apply IH. intros j c' p' Hj. by apply (H (S j) c').
Qed.

Lemma sim_finished a s : sim a s → ended s → turn d0 a = None ∧ ∀ m, cell d0 s m = tu_cell d0 a m.
Proof.
  intros Hs Hf. destruct (mo_thread _ _ (si_main _ _ Hs)) as (x & act & Hx & _ & Hm).
  pose proof (Hf _ _ Hx) as Hpc. cbn in Hpc. subst x. destruct Hm as [[Hl _] _].
  assert (Hdone : ∀ t, (1 ≤ t ≤ length cs)%nat → ∃ ac, tu_threads a !! t = Some (ac, Exit) ∧ own t (holders s) = []).
  { intros t Ht. destruct (lookup_lt_is_Some_2 (threads s) t) as [th Hth]; [lia|].
    destruct (sim_child_at a s t th Hs ltac:(lia) Hth) as (c & act' & ac & ap & h & [_ _ _ _ Htu _ Ho Hp]).
    rewrite (Hf _ _ Hth) in Hp. destruct Hp as (_ & -> & ->). by exists ac. }
  split.
  - unfold turn. rewrite next_turn_none; [done|]. intros j c p Hj. destruct (decide (j = 0%nat)) as [->|Hj0].
    + rewrite (mo_turns _ _ (si_main _ _ Hs)) in Hj. by injection Hj.
    + pose proof (lookup_lt_Some _ _ _ Hj) as Hlt. rewrite (si_len _ _ Hs) in Hlt.
      destruct (Hdone j) as (ac & E & _); [lia|]. rewrite Hj in E. by injection E.
  - intros m. symmetry. apply (si_free _ _ Hs). intros t k Hin. pose proof (si_threads _ _ Hs _ Hin) as Hlt. cbn in Hlt.
    destruct (decide (t = 0%nat)) as [->|Ht].
    + revert Hin. apply own_none, (mo_own _ _ (si_main _ _ Hs)).
    + revert Hin. apply own_none. destruct (Hdone t) as (? & _ & ?); [lia|done].
Qed.
End Invariant.
