(* ===== verification/DetschedLive.v ===== *)
(** * DetschedLive: under the scheduler a program can always finish
    ([interpose/detsched.c])

    From every state that a program of critical sections reaches, some schedule ends it:
    the scheduler does not deadlock. The reference ends, since every turn consumes a
    critical section; the thread whose turn it is can be brought to take its lock. *)

From S2P Require Import Prelude Bytes Text Detsched DetschedSpec.
Local Open Scope Z_scope.

(** ** The reference ends *)

(** Replacing an element of a list by a smaller one is well founded. *)
Definition list_step {A} (R : relation A) (l' l : list A) : Prop :=
  ∃ i x x', l !! i = Some x ∧ R x' x ∧ l' = <[i := x']> l.

Lemma list_step_cons {A} (R : relation A) x : Acc R x → ∀ l, Acc (list_step R) l → Acc (list_step R) (x :: l).
Proof.
  induction 1 as [x _ IHx]. intros l Hl. induction Hl as [l Hl IHl]. constructor.
  intros l' ([|i] & y & y' & Hi & Hr & ->).
  - injection Hi as ->. cbn. apply IHx; [done|by constructor].
  - cbn. apply IHl. by exists i, y, y'.
Qed.

Lemma list_step_acc {A} (R : relation A) l : Forall (Acc R) l → Acc (list_step R) l.
Proof.
  induction 1 as [|x l Hx _ IH]; [|by apply list_step_cons].
  constructor. intros l' (i & x & x' & Hi & _). by rewrite lookup_nil in Hi.
Qed.

Section Reference.
Context {D : Type} (d0 : D).

(** What is left of a thread after one critical section. *)
Definition after_section (p' p : Prog D) : Prop :=
  match p with Lock _ _ q => ∃ d, p' = (finish q d).2 | _ => False end.

Lemma after_section_none (q : Prog D) : (∀ p', after_section p' q → False) → Acc after_section q.
Proof. intros H. constructor. intros p' Hp'. destruct (H p' Hp'). Qed.

Lemma after_section_acc (p : Prog D) : Acc after_section p ∧ ∀ d, Acc after_section (finish p d).2.
Proof.
  assert (Hsame : ∀ q : Prog D, (∀ d, (finish q d).2 = q) → Acc after_section q →
    Acc after_section q ∧ ∀ d, Acc after_section (finish q d).2) by (intros q E H; split; [|intros d; rewrite E]; exact H).
  induction p as [|k m p [_ IH]|m g IH|m p [IH _]|m f g IH|m p IH|c IHc g IH|u p IH].
  - apply Hsame; [reflexivity|]. by apply after_section_none.
  - apply Hsame; [reflexivity|]. constructor. intros p' [d ->]. apply IH.
  - apply Hsame; [reflexivity|]. by apply after_section_none.
  - split; [by apply after_section_none|]. intros d. exact IH.
  - split; [by apply after_section_none|]. intros d. cbn. apply IH.
  - apply Hsame; [reflexivity|]. by apply after_section_none.
  - apply Hsame; [reflexivity|]. by apply after_section_none.
  - apply Hsame; [reflexivity|]. by apply after_section_none.
Qed.

Lemma turn_step a a' :
  turn d0 a = Some a' → list_step (λ x y : Z * Prog D, after_section x.2 y.2) (tu_threads a') (tu_threads a).
Proof.
  unfold turn. destruct (next_turn 0 (tu_threads a)) as [[c i]|]; [|done]. cbn.
  destruct (tu_threads a !! i) as [[c' p]|] eqn:E; [|done]. cbn. destruct p as [|k m q| | | | | |]; try done.
  destruct (finish q (tu_cell d0 a m)) as [d q'] eqn:Ef. intros [= <-]. exists i, (c', Lock k m q), (c + 1, q').
  split_and!; [done| |done]. exists (tu_cell d0 a m). by rewrite Ef.
Qed.

Lemma turns_wf (a : Turns (D := D)) : Acc (λ b a, turn d0 a = Some b) a.
Proof.
  assert (H : Acc (list_step (λ x y : Z * Prog D, after_section x.2 y.2)) (tu_threads a)).
  { apply list_step_acc, Forall_forall. intros [c p] _. destruct (after_section_acc p) as [H _].
    revert c. induction H as [p _ IH]. intros c. constructor. intros [c' p'] H'. by apply IH. }
  remember (tu_threads a) as l eqn:E. revert a E. induction H as [l _ IH]. intros a ->. constructor.
  intros b Hb. eapply IH; [by apply turn_step|done].
Qed.
End Reference.

(** ** Bringing a thread to its turn *)

Section Live.
Context {D : Type} (d0 : D) (cs : list (Prog D)) (cap : Z).
Context (Hmax : (S (length cs) ≤ MAXT)%nat) (Hflat : Forall (flat None) cs) (Hcap : cap <= 0).
Implicit Types (s : Sched D) (a : Turns (D := D)).
Abbreviation red := (sched_red d0 true cap).

(** Steps of thread [t] that are no turn. *)
Definition solo (t : nat) a s s' : Prop :=
  rtc red s s' ∧ sim d0 cs a s' ∧ ∀ u, u ≠ t → threads s' !! u = threads s !! u.

Lemma solo_refl t a s : sim d0 cs a s → solo t a s s.
Proof. intros Hs. by split. Qed.
Lemma solo_trans t a s1 s2 s3 : solo t a s1 s2 → solo t a s2 s3 → solo t a s1 s3.
Proof.
  intros (R1 & _ & T1) (R2 & S2 & T2). split_and!; [by etransitivity|done|].
  intros u Hu. by rewrite T2, T1.
Qed.
Lemma solo_step t th a s s' :
  sim d0 cs a s → t ≠ 0%nat → threads s !! t = Some th → sched_step d0 true cap t s = Moved s' → child_step d0 cs t a a s s' →
  solo t a s s'.
Proof.
  intros Hs Ht Hth Hst Hc. destruct (sim_child_at d0 cs a s t th Hs Ht Hth) as (c & act & ac & ap & h & Hat).
  destruct (ca_range _ _ _ _ _ _ _ _ _ _ _ Hat) as (_ & H1 & H2). split_and!.
  - apply rtc_once. by exists t.
  - by eapply sim_child_step.
  - apply (cst_threads _ _ _ _ _ _ _ Hc).
Qed.

(** A thread outside a critical section that is not about to end. *)
Definition resting (x : Pc D) : bool :=
  match x with
  | Run (Lock _ _ _) | Await _ _ | Scan _ _ _ _ _ | ScanLc _ _ _ _ _ | Real _ | Done => true
  | _ => false
  end.
Definition rests a s (t : nat) s' : Prop :=
  solo t a s s' ∧ ∃ th, threads s' !! t = Some th ∧ resting (pc th) = true.

Lemma rests_after t a s s1 s2 : solo t a s s1 → rests a s1 t s2 → rests a s t s2.
Proof. intros H [H1 H2]. split; [by eapply solo_trans|done]. Qed.

Lemma drain_exiting a s t th : sim d0 cs a s → t ≠ 0%nat → threads s !! t = Some th → pc th = Exiting → ∃ s', rests a s t s'.
Proof.
  intros Hs Ht Hth Hpc. destruct (sim_child_at d0 cs a s t th Hs Ht Hth) as (c & act & ac & ap & h & Hat).
  assert (Hst : sched_step d0 true cap t s = Moved (set_thread t (goto Done th) s)) by (unfold sched_step; by rewrite Hth, Hpc).
  exists (set_thread t (goto Done th) s). split.
  - eapply solo_step; [done..|]. eapply step_local; [done..|congruence|].
    pose proof (ca_pc _ _ _ _ _ _ _ _ _ _ _ Hat) as Hp. by rewrite Hpc in Hp.
  - exists (goto Done th). cbn. rewrite list_lookup_insert_eq; [done|by apply lookup_lt_Some in Hth].
Qed.

Lemma drain_run p a s t th : sim d0 cs a s → t ≠ 0%nat → threads s !! t = Some th → pc th = Run p → ∃ s', rests a s t s'.
Proof.
  revert a s th. induction p as [|k m p IH|m g IH|m p IH|m f g IH|m p IH|c IHc g IH|u p IH]; intros a s th Hs Ht Hth Hpc;
    pose proof (lookup_lt_Some _ _ _ Hth) as Hlt;
    destruct (sim_child_at d0 cs a s t th Hs Ht Hth) as (z & act & ac & ap & h & Hat);
    destruct (call_step_ok d0 cs Hmax a s t th z act ac ap h _ Hs Hat Hpc) as (s1 & Hst & Hc);
    assert (Hsolo : solo t a s s1) by (eapply solo_step; [done..| |done]; unfold sched_step; by rewrite Hth, Hpc);
    try (pose proof (ca_pc _ _ _ _ _ _ _ _ _ _ _ Hat) as Hp; rewrite Hpc in Hp; destruct Hp as (_ & _ & [Hf _] & _); by inversion Hf).
  - pose proof Hsolo as (_ & Hs1 & _). cbn in Hst. rewrite bool_decide_false in Hst by done. cbn in Hst. injection Hst as <-.
    rewrite (ca_mine _ _ _ _ _ _ _ _ _ _ _ Hat) in *.
    destruct (drain_exiting a _ t (goto Exiting th) Hs1 Ht) as [s' H]; [cbn; by rewrite list_lookup_insert_eq|done|].
    exists s'. by eapply rests_after.
  - exists s. split; [by apply solo_refl|]. exists th. by rewrite Hpc.
  - pose proof Hsolo as (_ & Hs1 & _). cbn in Hst. injection Hst as <-.
    destruct (IH a _ (mkThread (my_slot th) (pred (lock_depth th)) (Run p)) Hs1 Ht) as [s' H]; [cbn; by rewrite list_lookup_insert_eq|done|].
    exists s'. by eapply rests_after.
  - pose proof Hsolo as (_ & Hs1 & _). cbn in Hst. injection Hst as <-.
    destruct (IH (cell d0 s m) a _ (goto (Run (g (cell d0 s m))) th) Hs1 Ht) as [s' H]; [cbn; by rewrite list_lookup_insert_eq|done|].
    exists s'. by eapply rests_after.
Qed.

(** Any thread can be brought to rest by its own steps. *)
Lemma drain a s t th : sim d0 cs a s → t ≠ 0%nat → threads s !! t = Some th → ∃ s', rests a s t s'.
Proof.
  intros Hs Ht Hth. destruct (resting (pc th)) eqn:Er.
  { exists s. split; [by apply solo_refl|by exists th]. }
  pose proof (lookup_lt_Some _ _ _ Hth) as Hlt.
  destruct (sim_child_at d0 cs a s t th Hs Ht Hth) as (c & act & ac & ap & h & Hat).
  pose proof Hat as [_ _ Hmine Hslot _ _ _ Hp].
  destruct (pc th) as [p| | | | | |p| | | | | | | | |] eqn:Hpc; try done.
  - by eapply drain_run.
  - destruct Hp as (-> & Hdep & Hne & Hsec & Hac & [Hcr Hl]).
    set (s1 := bump (my_slot th) (set_thread t (goto (Run p) th) s)).
    assert (Hst : sched_step d0 true cap t s = Moved s1) by (unfold sched_step; by rewrite Hth, Hpc).
    assert (Hc : child_step d0 cs t a a s s1).
    { unfold s1. rewrite Hmine. eapply (step_slot d0 cs a s t th c true ac ap h (c + 1) true (Run p)); try done;
        [congruence|lia|congruence|]. cbn. split_and!; try done. rewrite Hdep. by destruct h. }
    pose proof (solo_step t th a s s1 Hs Ht Hth Hst Hc) as Hsolo. pose proof Hsolo as (_ & Hs1 & _).
    destruct (drain_run p a s1 t (goto (Run p) th) Hs1 Ht) as [s' H]; [|done|exists s'; by eapply rests_after].
    unfold s1. rewrite Hmine. cbn. by rewrite list_lookup_insert_eq.
  - by eapply drain_exiting.
Qed.

(** All threads below [n] that exist at rest, the main thread untouched. *)
Lemma drain_all a s n :
  sim d0 cs a s → ∃ s', rtc red s s' ∧ sim d0 cs a s' ∧ threads s' !! 0%nat = threads s !! 0%nat ∧
    ∀ t th, (1 ≤ t ≤ n)%nat → threads s' !! t = Some th → resting (pc th) = true.
Proof.
  intros Hs. induction n as [|n (s1 & Hr & Hs1 & H0 & Hrest)].
  { exists s. split_and!; try done. intros; lia. }
  destruct (threads s1 !! S n) as [th|] eqn:Hth.
  - destruct (drain a s1 (S n) th Hs1 ltac:(done) Hth) as (s2 & (R & S2 & T) & th2 & Hth2 & Hre).
    exists s2. split_and!; [by etransitivity|done|by rewrite T|].
    intros t th' Ht Hth'. destruct (decide (t = S n)) as [->|Hne]; [congruence|]. rewrite T in Hth' by done.
    apply (Hrest t); [lia|done].
  - exists s1. split_and!; try done. intros t th' Ht Hth'. destruct (decide (t = S n)) as [->|Hne]; [congruence|].
    apply (Hrest t); [lia|done].
Qed.

(** *** The main thread *)

(** How much of creating threads is left. *)
Definition to_create s : nat :=
  3 * (S (length cs) - length (threads s)) -
  match pc <$> threads s !! 0%nat with Some (Creating _ _ _) => 1 | Some (Spawning _ _ _) => 2 | _ => 0 end.

Lemma create_step a s :
  sim d0 cs a s → creating s = true →
  ∃ s', sched_step d0 true cap 0 s = Moved s' ∧ sim d0 cs a s' ∧ (to_create s' < to_create s)%nat.
Proof.
  intros Hs Hc. destruct (mo_thread _ _ _ (si_main _ _ _ _ Hs)) as (x & act & Hx & Hsl & Hm).
  pose proof (lookup_lt_Some _ _ _ Hx) as Hlt. pose proof (sim_main d0 cs cap Hmax a s Hflat Hs) as Hmain.
  unfold creating in Hc. rewrite Hx in Hc. unfold sched_step in *. rewrite Hx in *. cbn [pc fmap option_fmap option_map] in *.
  destruct x as [[]| | | | | | | | | | | |i c g|o c g| |]; try done; cbn [call_step] in *.
  - destruct Hm as [_ [(k & [Hlen Hk] & Hn & Hp)|(us & _ & _ & Hp & _)]]; [|by destruct us].
    destruct (drop k cs) as [|c rest] eqn:Hd; [by destruct (seq 1 k)|]. destruct (drop_lt cs Hmax _ _ _ Hd) as (Hk' & _).
    eexists; split; [reflexivity|]. split; [by eapply sim_main_step|]. unfold to_create. cbn. rewrite Hx, length_insert.
    rewrite list_lookup_insert_eq by done. cbn. case_bool_decide; cbn; lia.
  - destruct Hm as (_ & k & rest & [Hlen Hk] & Hn & _ & Hd & _). destruct (drop_lt cs Hmax _ _ _ Hd) as (Hk' & _).
    eexists; split; [reflexivity|]. split; [by eapply sim_main_step|]. unfold to_create. cbn. rewrite Hx, length_insert.
    rewrite list_lookup_insert_eq by done. cbn. lia.
  - destruct Hm as (_ & k & rest & [Hlen Hk] & Hn & _ & Hd & _). destruct (drop_lt cs Hmax _ _ _ Hd) as (Hk' & _).
    eexists; split; [reflexivity|]. split; [by eapply sim_main_step|]. unfold to_create. cbn. rewrite Hx, length_app, length_insert.
    rewrite lookup_app_l, list_lookup_insert_eq by (rewrite ?length_insert; done). cbn. lia.
Qed.

Lemma create_all a s : sim d0 cs a s → ∃ s', rtc red s s' ∧ sim d0 cs a s' ∧ creating s' = false.
Proof.
  remember (to_create s) as n eqn:E. revert s E. induction n as [n IH] using lt_wf_ind. intros s -> Hs.
  destruct (creating s) eqn:Hc; [|by exists s].
  destruct (create_step a s Hs Hc) as (s1 & Hst & Hs1 & Hlt). destruct (IH _ Hlt s1 eq_refl Hs1) as (s' & Hr & H).
  exists s'. split; [|done]. eapply rtc_l; [by exists 0%nat|done].
Qed.

(** The main thread waits in a join, out of the way of the others. *)
Definition parked a s s' : Prop :=
  rtc red s s' ∧ sim d0 cs a s' ∧ (∀ u, u ≠ 0%nat → threads s' !! u = threads s !! u) ∧
  ∃ x, slots s' !! 0%nat = Some x ∧ active x = false.

Lemma main_solo a s s' : sim d0 cs a s → sched_step d0 true cap 0 s = Moved s' → sim d0 cs a s'.
Proof.
  intros Hs Hst. pose proof (sim_main d0 cs cap Hmax a s Hflat Hs) as H. rewrite Hst in H. by eapply sim_main_step.
Qed.

Lemma park_join a s u us act :
  sim d0 cs a s → threads s !! 0%nat = Some (mkThread (Some 0%nat) 0 (Run (join_all (u :: us)))) →
  slots s !! 0%nat = Some (mkSlot 0 act) → ∃ s', parked a s s'.
Proof.
  intros Hs Hx Hsl. pose proof (lookup_lt_Some _ _ _ Hx) as Hlt.
  set (s' := set_active (Some 0%nat) false (set_thread 0 (mkThread (Some 0%nat) 0 (Joining u act (join_all us))) s)).
  assert (Hst : sched_step d0 true cap 0 s = Moved s').
  { unfold sched_step. rewrite Hx. cbn [pc join_all call_step my_slot mbind option_bind]. by rewrite Hsl. }
  exists s'. split_and!; [apply rtc_once; by exists 0%nat|by eapply main_solo| |].
  - intros v Hv. cbn. by rewrite list_lookup_insert_ne.
  - exists (mkSlot 0 false). cbn [s' set_active set_slots slots]. rewrite list_lookup_alter_eq.
    cbn [set_thread set_threads slots]. by rewrite Hsl.
Qed.

Lemma park a s t :
  sim d0 cs a s → creating s = false → (1 ≤ t ≤ length cs)%nat → pc <$> threads s !! t ≠ Some Done → ∃ s', parked a s s'.
Proof.
  intros Hs Hc Ht Hnd. destruct (mo_thread _ _ _ (si_main _ _ _ _ Hs)) as (x & act & Hx & Hsl & Hm).
  pose proof (lookup_lt_Some _ _ _ Hx) as Hlt.
  assert (Hnil : joined cs s [] → False) by (intros [_ Hj]; by apply Hnd, (Hj t Ht), not_elem_of_nil).
  destruct x as [p| | | | | | | | | |u prev q|prev q|i c q|o c q| |]; try done; cbn [main_pc] in Hm.
  - assert (∃ us, p = join_all us ∧ joined cs s us) as (us & -> & Hj).
    { destruct Hm as [_ [(k & [Hlen Hk] & Hn & ->)|(us & _ & _ & -> & Hj)]]; [|by exists us].
      destruct (all_created d0 cs a s Hs Hc) as [Hl _]. assert (k = length cs) as -> by lia.
      rewrite drop_all. exists (seq 1 (length cs)). split; [done|by apply joined_all]. }
    destruct us as [|u us]; [done|]. by eapply park_join.
  - destruct Hm as (-> & _). exists s. split_and!; try done. by exists (mkSlot 0 false).
  - destruct Hm as (-> & -> & us & Hcr & Hn & -> & Hj). destruct us as [|u us]; [done|].
    set (s1 := set_active (Some 0%nat) true (set_thread 0 (mkThread (Some 0%nat) 0 (Run (join_all (u :: us)))) s)).
    assert (Hst : sched_step d0 true cap 0 s = Moved s1) by (unfold sched_step; by rewrite Hx).
    pose proof (main_solo a s s1 Hs Hst) as Hs1.
    destruct (park_join a s1 u us true Hs1) as (s' & R & S' & T & Hin).
    + cbn. by rewrite list_lookup_insert_eq.
    + cbn [s1 set_active set_slots slots]. rewrite list_lookup_alter_eq. cbn [set_thread set_threads slots]. by rewrite Hsl.
    + exists s'. split_and!; [eapply rtc_l; [by exists 0%nat|done]|done| |done].
      intros v Hv. rewrite T by done. cbn. by rewrite list_lookup_insert_ne.
  - unfold creating in Hc. by rewrite Hx in Hc.
  - unfold creating in Hc. by rewrite Hx in Hc.
  - destruct Hm as (Hcr & Hn & Hj). by destruct (Hnil Hj).
Qed.

(** *** The turn of a thread *)

(** A step of a thread in [await_turn] only moves the thread, since spinning is unbounded. *)
Lemma scan_solo a s t th :
  sim d0 cs a s → t ≠ 0%nat → threads s !! t = Some th →
  (∃ p n, pc th = Await p n) ∨ (∃ p l n i z, pc th = Scan p l n i z) ∨ (∃ p l n i z, pc th = ScanLc p l n i z) →
  ∃ x, sched_step d0 true cap t s = Moved (set_thread t (goto x th) s) ∧ solo t a s (set_thread t (goto x th) s) ∧
    threads (set_thread t (goto x th) s) !! t = Some (goto x th).
Proof.
  intros Hs Ht Hth Hcase. pose proof (lookup_lt_Some _ _ _ Hth) as Hlt.
  destruct (sim_child_at d0 cs a s t th Hs Ht Hth) as (c & act & ac & ap & h & Hat).
  pose proof (scan_step d0 cs cap Hmax a s t th c act ac ap h Hs Hat Hcase) as Hsc.
  assert (∃ x, sched_step d0 true cap t s = Moved (set_thread t (goto x th) s)) as [x Hst].
  { revert Hsc. unfold sched_step. rewrite Hth.
    destruct Hcase as [(p & z & ->)|[(p & l & n & i & z & ->)|(p & l & n & i & z & ->)]].
    - destruct (my_slot th ≫= _); [by eexists|done].
    - case_bool_decide; [by eexists|]. case_bool_decide; [by eexists|]. destruct (slots s !! i); [by eexists|done].
    - destruct (slots s !! i); [|done]. destruct (_ || _); [|by eexists]. unfold not_min.
      destruct (Z.ltb_spec 0 cap); [lia|]. by eexists. }
  exists x. rewrite Hst in Hsc. split_and!; [done| |cbn; by rewrite list_lookup_insert_eq]. eapply solo_step; eauto.
Qed.

(** A scan in progress reaches the wrapped call or starts again. *)
Lemma scan_ends a s t th p l n i z :
  sim d0 cs a s → t ≠ 0%nat → threads s !! t = Some th → pc th = Scan p l n i z ∨ pc th = ScanLc p l n i z →
  ∃ s' th', solo t a s s' ∧ slots s' = slots s ∧ threads s' !! t = Some th' ∧
    ((∃ p, pc th' = Real p) ∨ ∃ p z, pc th' = Await p z).
Proof.
  remember (2 * (n - i) + if pc th is ScanLc _ _ _ _ _ then 0 else 1)%nat as k eqn:Hk.
  revert s th i Hk. induction k as [k IH] using lt_wf_ind. intros s th i Hk Hs Ht Hth Hpc.
  destruct (scan_solo a s t th Hs Ht Hth) as (x & Hst & So & Th); [destruct Hpc; eauto 10|].
  assert (Hgo : (∀ i', x = Scan p l n i' z ∨ x = ScanLc p l n i' z →
      (2 * (n - i') + (if x is ScanLc _ _ _ _ _ then 0 else 1) < k)%nat →
      ∃ s' th', solo t a s s' ∧ slots s' = slots s ∧ threads s' !! t = Some th' ∧
        ((∃ p, pc th' = Real p) ∨ ∃ p z, pc th' = Await p z))).
  { intros i' Hx Hlt. destruct (IH _ Hlt _ (goto x th) i' eq_refl (proj1 (proj2 So)) Ht Th Hx) as (s' & th' & So' & H).
    exists s', th'. split; [by eapply solo_trans|done]. }
  assert (Hend : ((∃ p, x = Real p) ∨ ∃ p z, x = Await p z) →
    ∃ s' th', solo t a s s' ∧ slots s' = slots s ∧ threads s' !! t = Some th' ∧
      ((∃ p, pc th' = Real p) ∨ ∃ p z, pc th' = Await p z)).
  { intros H. by exists (set_thread t (goto x th) s), (goto x th). }
  assert (Hx : ∀ y, Moved (set_thread t (goto y th) s) = Moved (set_thread t (goto x th) s) → y = x).
  { intros y [= E]. apply (f_equal (λ l, l !! t)) in E. rewrite !list_lookup_insert_eq in E by by apply lookup_lt_Some in Hth.
    by injection E. }
  unfold sched_step in Hst. rewrite Hth in Hst. destruct Hpc as [Hpc|Hpc]; rewrite Hpc in *.
  - case_bool_decide as E1; [apply Hx in Hst; subst x; apply Hend; eauto|].
    case_bool_decide as E2; [apply Hx in Hst; apply (Hgo (S i)); [by left|subst; lia]|].
    destruct (slots s !! i) as [y|]; [|done]. apply Hx in Hst. destruct (active y).
    + apply (Hgo i); [by right|subst; lia].
    + apply (Hgo (S i)); [by left|subst; lia].
  - destruct (slots s !! i) as [y|]; [|done]. destruct (_ || _).
    + unfold not_min in Hst. destruct (Z.ltb_spec 0 cap); [lia|]. apply Hx in Hst. subst x. apply Hend. eauto.
    + apply Hx in Hst. destruct (decide (i < n)%nat); [apply (Hgo (S i)); [by left|subst; lia]|].
      destruct (sim_child_at d0 cs a s t th Hs Ht Hth) as (c & act & ac & ap & h & Hat).
      pose proof (ca_pc _ _ _ _ _ _ _ _ _ _ _ Hat) as Hp. rewrite Hpc in Hp. destruct Hp as (_ & _ & _ & _ & _ & _ & ? & _). lia.
Qed.

(** Nothing stops thread [t] with clock [c]: every other active slot is later. *)
Definition clear_path s (t : nat) (c : Z) : Prop :=
  ∀ j x, j ≠ t → slots s !! j = Some x → active x = true → before (c, t) (lc x, j).

(** The thread is past the gate. *)
Definition passed a s (t : nat) s' : Prop :=
  solo t a s s' ∧ slots s' = slots s ∧ ∃ th p, threads s' !! t = Some th ∧ pc th = Real p.
Lemma passed_after t a s s1 s2 : solo t a s s1 → slots s1 = slots s → passed a s1 t s2 → passed a s t s2.
Proof. intros H Hsl (H1 & H2 & H3). split_and!; [by eapply solo_trans|congruence|done]. Qed.

Lemma scan_to a s t th y :
  sim d0 cs a s → t ≠ 0%nat → threads s !! t = Some th →
  (∃ p n, pc th = Await p n) ∨ (∃ p l n i z, pc th = Scan p l n i z) ∨ (∃ p l n i z, pc th = ScanLc p l n i z) →
  sched_step d0 true cap t s = Moved (set_thread t (goto y th) s) →
  solo t a s (set_thread t (goto y th) s) ∧ threads (set_thread t (goto y th) s) !! t = Some (goto y th).
Proof.
  intros Hs Ht Hth Hcase Hst. pose proof (lookup_lt_Some _ _ _ Hth) as Hlt.
  destruct (sim_child_at d0 cs a s t th Hs Ht Hth) as (c & act & ac & ap & h & Hat).
  pose proof (scan_step d0 cs cap Hmax a s t th c act ac ap h Hs Hat Hcase) as Hsc. rewrite Hst in Hsc.
  split; [eapply solo_step; eauto|]. cbn. by rewrite list_lookup_insert_eq.
Qed.

Lemma scan_pass a s t th p c n i z :
  sim d0 cs a s → t ≠ 0%nat → threads s !! t = Some th → pc th = Scan p c n i z → my_slot th = Some t → clear_path s t c →
  ∃ s', passed a s t s'.
Proof.
  remember (n - i)%nat as k eqn:Hk. revert s th i Hk. induction k as [k IH] using lt_wf_ind.
  intros s th i Hk Hs Ht Hth Hpc Hmine Hclear.
  destruct (scan_solo a s t th Hs Ht Hth) as (y & Hst & So & Th); [eauto 10|].
  pose proof Hst as Hst'. unfold sched_step in Hst'. rewrite Hth, Hpc, Hmine in Hst'. case_bool_decide as E1.
  { destruct (scan_to a s t th (Real p) Hs Ht Hth) as [So' Th']; [eauto 10|by rewrite Hst, <- Hst'|].
    exists (set_thread t (goto (Real p) th) s). split_and!; [done..|]. by exists (goto (Real p) th), p. }
  assert (Hnext : ∀ s1, solo t a s s1 → slots s1 = slots s → threads s1 !! t = Some (goto (Scan p c n (S i) z) th) → ∃ s', passed a s t s').
  { intros s1 So1 Hsl1 Th1. destruct (IH (n - S i)%nat ltac:(lia) s1 _ (S i) eq_refl (proj1 (proj2 So1)) Ht Th1) as [s' H]; try done.
    - intros j x. rewrite Hsl1. apply Hclear.
    - exists s'. by eapply passed_after. }
  case_bool_decide as E2.
  { destruct (scan_to a s t th (Scan p c n (S i) z) Hs Ht Hth) as [So' Th']; [eauto 10|by rewrite Hst, <- Hst'|].
    by eapply Hnext. }
  destruct (slots s !! i) as [x|] eqn:Hx; [|done]. destruct (active x) eqn:Ha.
  - destruct (scan_to a s t th (ScanLc p c n i z) Hs Ht Hth) as [So1 Th1]; [eauto 10|by rewrite Hst, <- Hst'|].
    set (s1 := set_thread t (goto (ScanLc p c n i z) th) s) in *. set (th1 := goto (ScanLc p c n i z) th) in *.
    assert (Hbe : before (c, t) (lc x, i)) by (apply Hclear; congruence).
    destruct (scan_to a s1 t th1 (Scan p c n (S i) z) (proj1 (proj2 So1)) Ht Th1) as [So2 Th2]; [right; right; by eexists _, _, _, _, _| |].
    { unfold sched_step. rewrite Th1. cbn [th1 pc goto my_slot]. change (slots s1) with (slots s). rewrite Hx, Hmine.
      unfold before in Hbe. cbn in Hbe. cbn [from_option id].
      destruct (Z.ltb_spec (lc x) c); [lia|]. destruct (Z.eqb_spec (lc x) c); [|done].
      rewrite bool_decide_false by lia. done. }
    apply (Hnext (set_thread t (goto (Scan p c n (S i) z) th1) s1)); [by eapply solo_trans|done|done].
  - destruct (scan_to a s t th (Scan p c n (S i) z) Hs Ht Hth) as [So' Th']; [eauto 10|by rewrite Hst, <- Hst'|].
    by eapply Hnext.
Qed.

Lemma gate_pass a s t th p z c act :
  sim d0 cs a s → t ≠ 0%nat → threads s !! t = Some th → pc th = Await p z → my_slot th = Some t →
  slots s !! t = Some (mkSlot c act) → clear_path s t c → ∃ s', passed a s t s'.
Proof.
  intros Hs Ht Hth Hpc Hmine Hsl Hclear.
  destruct (scan_to a s t th (Scan p c (next_slot s) 0 z) Hs Ht Hth) as [So Th]; [eauto 10| |].
  { unfold sched_step. rewrite Hth, Hpc, Hmine. cbn [mbind option_bind]. by rewrite Hsl. }
  destruct (scan_pass a _ t _ p c (next_slot s) 0 z (proj1 (proj2 So)) Ht Th) as [s' H]; try done.
  exists s'. by eapply passed_after.
Qed.

(** A resting thread that nothing stops passes the gate. *)
Lemma rest_pass a s t th c act :
  sim d0 cs a s → t ≠ 0%nat → threads s !! t = Some th → resting (pc th) = true → pc th ≠ Done →
  slots s !! t = Some (mkSlot c act) → clear_path s t c → ∃ s', passed a s t s'.
Proof.
  intros Hs Ht Hth Hre Hnd Hsl Hclear. pose proof (lookup_lt_Some _ _ _ Hth) as Hlt.
  destruct (sim_child_at d0 cs a s t th Hs Ht Hth) as (c' & act' & ac & ap & h & Hat).
  pose proof (ca_mine _ _ _ _ _ _ _ _ _ _ _ Hat) as Hmine.
  assert (Hagain : ∀ s1 th1, solo t a s s1 → slots s1 = slots s → threads s1 !! t = Some th1 →
    ((∃ p, pc th1 = Real p) ∨ ∃ p z, pc th1 = Await p z) → ∃ s', passed a s t s').
  { intros s1 th1 So1 Hsl1 Th1 [[p Hp]|(p & z & Hp)]; [exists s1; split_and!; [done..|by exists th1, p]|].
    pose proof So1 as (_ & Hs1 & _). destruct (sim_child_at d0 cs a s1 t th1 Hs1 Ht Th1) as (? & ? & ? & ? & ? & Hat1).
    destruct (gate_pass a s1 t th1 p z c act Hs1 Ht Th1 Hp (ca_mine _ _ _ _ _ _ _ _ _ _ _ Hat1)) as [s' H].
    - by rewrite Hsl1.
    - intros j y. rewrite Hsl1. apply Hclear.
    - exists s'. by eapply passed_after. }
  destruct (pc th) as [p| |p z|p l n i z|p l n i z|p| | | | | | | | | |] eqn:Hpc; try done.
  - destruct (call_step_ok d0 cs Hmax a s t th c' act' ac ap h p Hs Hat Hpc) as (s1 & Hst & Hc).
    destruct p as [|k m q| | | | | |]; try done. cbn in Hst. rewrite Hmine in Hst. injection Hst as <-.
    pose proof (ca_pc _ _ _ _ _ _ _ _ _ _ _ Hat) as Hp. rewrite Hpc in Hp. destruct Hp as (_ & Hdep & [Hf _] & _).
    inversion Hf; subst. rewrite Hdep in Hc. cbn in Hc. apply (Hagain (set_thread t (goto (Await (Lock k m q) 0) th) s) (goto (Await (Lock k m q) 0) th)).
    + eapply solo_step; [done..| |exact Hc]. unfold sched_step. rewrite Hth, Hpc. cbn. by rewrite Hmine, Hdep.
    + done.
    + cbn. by rewrite list_lookup_insert_eq.
    + eauto.
  - apply (Hagain s th); [by apply solo_refl|done|done|]. rewrite Hpc. eauto.
  - destruct (scan_ends a s t th p l n i z Hs Ht Hth) as (s1 & th1 & So & Hsl1 & Th & H); [by left|]. by eapply Hagain.
  - destruct (scan_ends a s t th p l n i z Hs Ht Hth) as (s1 & th1 & So & Hsl1 & Th & H); [by right|]. by eapply Hagain.
  - apply (Hagain s th); [by apply solo_refl|done|done|]. rewrite Hpc. eauto.
Qed.

(** *** The thread with the least clock *)

Definition all_rest s : Prop := ∀ t th, (1 ≤ t ≤ length cs)%nat → threads s !! t = Some th → resting (pc th) = true.

(** What the invariant says of a thread at rest that has not ended. *)
Lemma rest_live a s t th c act ac ap h :
  child_at d0 cs a s t th c act ac ap h → resting (pc th) = true → pc th ≠ Done → h = None ∧ ac = c ∧ is_exit ap = false.
Proof.
  intros Hat Hre Hnd. pose proof (ca_pc _ _ _ _ _ _ _ _ _ _ _ Hat) as Hp. unfold pc_ok, at_gate, in_section in Hp.
  destruct (pc th) as [p| | | | | | | | | | | | | | |]; try done; destruct_and?; subst; try done.
  destruct p; try done. match goal with H : flat h _ |- _ => inversion H; subst end. by subst.
Qed.

Lemma rest_free a s k m : sim d0 cs a s → all_rest s → is_free k m s = true.
Proof.
  intros Hs Hre. assert (holders s = []) as E; [|unfold is_free; by rewrite E].
  destruct (holders s) as [|[[u k'] m'] l] eqn:E; [done|]. exfalso.
  assert (Hin : (u, k', m') ∈ holders s) by (rewrite E; left).
  pose proof (si_threads _ _ _ _ Hs _ Hin) as Hlt. cbn in Hlt. destruct (lookup_lt_is_Some_2 _ _ Hlt) as [th Hth].
  assert (Hu : u ≠ 0%nat).
  { intros ->. eapply own_none; [apply (mo_own _ _ _ (si_main _ _ _ _ Hs))|exact Hin]. }
  destruct (sim_child_at d0 cs a s u th Hs Hu Hth) as (c & act & ac & ap & h & Hat).
  pose proof (sim_own _ _ _ _ _ _ _ _ _ _ _ _ _ _ Hs Hat Hin eq_refl) as ->.
  pose proof (Hre u th (proj1 (ca_range _ _ _ _ _ _ _ _ _ _ _ Hat)) Hth) as Hr.
  destruct (decide (is_Some (if pc th is Done then Some tt else None))) as [Hd|Hd].
  - pose proof (ca_pc _ _ _ _ _ _ _ _ _ _ _ Hat) as Hp. destruct (pc th); try by destruct Hd. by destruct Hp as (_ & ? & _).
  - destruct (rest_live a s u th c act ac ap _ Hat Hr) as (? & _); [|done]. intros Hd'. apply Hd. by rewrite Hd'.
Qed.

(** The least of a list of clocks with distinct slots. *)
Lemma least_exists (l : list (Z * nat)) : l ≠ [] → ∃ x, x ∈ l ∧ ∀ y, y ∈ l → y = x ∨ before x y.
Proof.
  induction l as [|x l IH]; [done|]. intros _. destruct l as [|y l].
  { exists x. split; [left|]. intros y Hy. left. by apply list_elem_of_singleton. }
  destruct IH as (z & Hz & Hmin); [done|]. destruct (decide (before x z ∨ x = z)) as [Hx|Hx].
  - exists x. split; [left|]. intros w [->|Hw]%elem_of_cons; [by left|]. destruct Hx as [Hx| ->]; [|by apply Hmin].
    right. destruct (Hmin w Hw) as [->|Hb]; [done|]. unfold before in *. lia.
  - exists z. split; [by right|]. intros w [->|Hw]%elem_of_cons; [|by apply Hmin]. right.
    destruct x as [x1 x2], z as [z1 z2]. unfold before in *. cbn in *.
    destruct (decide (x1 = z1)) as [->|]; [|lia]. destruct (decide (x2 = z2)) as [->|]; [|lia]. tauto.
Qed.

Definition is_done (x : Pc D) : bool := if x is Done then true else false.

(** Some thread has not ended: one of them is the least. *)
Lemma least_live a s :
  sim d0 cs a s → creating s = false → (∃ t, (1 ≤ t ≤ length cs)%nat ∧ is_done <$> (pc <$> threads s !! t) = Some false) →
  ∃ t th c act, (1 ≤ t ≤ length cs)%nat ∧ threads s !! t = Some th ∧ is_done (pc th) = false ∧ slots s !! t = Some (mkSlot c act) ∧
    ∀ u th' x, (1 ≤ u)%nat → u ≠ t → threads s !! u = Some th' → is_done (pc th') = false → slots s !! u = Some x → before (c, t) (lc x, u).
Proof.
  intros Hs Hc (t0 & Ht0 & Hd0).
  set (key u := match threads s !! u, slots s !! u with
    | Some th, Some x => if is_done (pc th) then None else Some (lc x, u) | _, _ => None end).
  assert (Hkey : ∀ u x, key u = Some x → ∃ th y, threads s !! u = Some th ∧ slots s !! u = Some y ∧ is_done (pc th) = false ∧ x = (lc y, u)).
  { intros u x. unfold key. destruct (threads s !! u) as [th|]; [|done]. destruct (slots s !! u) as [y|]; [|done].
    destruct (is_done (pc th)) eqn:E; [done|]. intros [= <-]. by exists th, y. }
  destruct (least_exists (omap key (seq 1 (length cs)))) as ([c t] & Hin & Hmin).
  - intros E. destruct (threads s !! t0) as [th|] eqn:Hth; [|done]. cbn in Hd0. injection Hd0 as Hd0.
    destruct (si_child _ _ _ _ Hs t0 Ht0) as (c & act & ? & ? & Hsl & _).
    assert (Hin : (c, t0) ∈ omap key (seq 1 (length cs))).
    { apply list_elem_of_omap. exists t0. split; [apply elem_of_seq; lia|]. unfold key. by rewrite Hth, Hsl, Hd0. }
    rewrite E in Hin. by apply not_elem_of_nil in Hin.
  - apply list_elem_of_omap in Hin as (u & Hu & Hk). destruct (Hkey _ _ Hk) as (th & y & Hth & Hsl & Hd & [= -> ->]).
    apply elem_of_seq in Hu. destruct y as [c act]. exists u, th, c, act. split_and!; try done; try lia.
    intros v th' x Hv Hne Hth' Hd' Hx. destruct (Hmin (lc x, v)) as [[= _ ->]|]; [|done|done].
    apply list_elem_of_omap. exists v. split; [|unfold key; by rewrite Hth', Hx, Hd'].
    apply elem_of_seq. pose proof (lookup_lt_Some _ _ _ Hth'). destruct (all_created d0 cs a s Hs Hc). lia.
Qed.

Lemma least_clear a s t th c act :
  sim d0 cs a s → creating s = false → (∃ x, slots s !! 0%nat = Some x ∧ active x = false) →
  (∀ u th' x, (1 ≤ u)%nat → u ≠ t → threads s !! u = Some th' → is_done (pc th') = false → slots s !! u = Some x → before (c, t) (lc x, u)) →
  threads s !! t = Some th → slots s !! t = Some (mkSlot c act) → clear_path s t c.
Proof.
  intros Hs Hc (x0 & Hx0 & Ha0) Hmin Hth Hsl j x Hj Hx Ha. destruct (decide (j = 0%nat)) as [->|Hj0]; [congruence|].
  destruct (all_created d0 cs a s Hs Hc) as [Hl Hn]. destruct (decide (j ≤ length cs)%nat) as [Hle|Hgt].
  - destruct (lookup_lt_is_Some_2 (threads s) j) as [th' Hth']; [lia|].
    apply (Hmin j th' x); try done; [lia|]. destruct (is_done (pc th')) eqn:Ed; [|done].
    destruct (sim_child_at d0 cs a s j th' Hs Hj0 Hth') as (c' & act' & ac & ap & h & [_ _ _ Hsl' _ _ _ Hp]).
    destruct (pc th'); try done. destruct Hp as (-> & _). rewrite Hsl' in Hx. injection Hx as <-. done.
  - rewrite (si_unused _ _ _ _ Hs j x) in Ha by (done || lia). done.
Qed.

(** With all threads at rest and one not ended, the reference's next turn can be taken. *)
Lemma one_turn a s :
  sim d0 cs a s → creating s = false → all_rest s →
  (∃ t, (1 ≤ t ≤ length cs)%nat ∧ is_done <$> (pc <$> threads s !! t) = Some false) →
  ∃ a' s', rtc red s s' ∧ turn d0 a = Some a' ∧ sim d0 cs a' s'.
Proof.
  intros Hs Hc Hre (t0 & Ht0 & Hd0).
  destruct (park a s t0 Hs Hc Ht0) as (s1 & R1 & Hs1 & T1 & Hin).
  { intros E. rewrite E in Hd0. done. }
  assert (Hc1 : creating s1 = false) by (destruct Hin as (x & Hx & Ha); by eapply main_inactive).
  assert (Hre1 : all_rest s1) by (intros t th Ht; rewrite T1 by lia; by apply Hre).
  destruct (least_live a s1 Hs1 Hc1) as (t & th & c & act & Ht & Hth & Hd & Hsl & Hmin); [exists t0; by rewrite T1 by lia|].
  assert (Ht1 : t ≠ 0%nat) by lia.
  assert (Hnd : pc th ≠ Done) by (intros E; by rewrite E in Hd).
  pose proof (least_clear a s1 t th c act Hs1 Hc1 Hin Hmin Hth Hsl) as Hclear.
  destruct (rest_pass a s1 t th c act Hs1 Ht1 Hth (Hre1 t th Ht Hth) Hnd Hsl Hclear) as (s2 & (R2 & Hs2 & T2) & _ & th2 & p & Hth2 & Hpc2).
  assert (Hre2 : all_rest s2).
  { intros u th' Hu Hth'. destruct (decide (u = t)) as [->|Hne]; [|rewrite T2 in Hth' by done; by apply (Hre1 u)].
    rewrite Hth2 in Hth'. injection Hth' as <-. by rewrite Hpc2. }
  destruct (sim_child_at d0 cs a s2 t th2 Hs2 Ht1 Hth2) as (c2 & act2 & ac & ap & h & Hat).
  pose proof (ca_pc _ _ _ _ _ _ _ _ _ _ _ Hat) as Hp. rewrite Hpc2 in Hp. destruct Hp as ((_ & _ & _ & Hfl & Hex) & _).
  inversion Hfl as [E|k m q Hq E| |]; subst p; [done|]. pose proof (rest_free a s2 k m Hs2 Hre2) as Hfree.
  destruct (step_taken d0 cs a s2 t th2 c2 act2 ac ap h k m q Hs2 Hat Hpc2 Hfree) as [Hturn Hst].
  exists (taken_turns d0 a t c2 k m q), (taken t th2 k m q s2). split_and!; [|done|].
  - etransitivity; [exact R1|]. eapply rtc_r; [exact R2|]. exists t. unfold sched_step. by rewrite Hth2, Hpc2, Hfree.
  - destruct (ca_range _ _ _ _ _ _ _ _ _ _ _ Hat) as (_ & ? & ?). by eapply sim_child_step.
Qed.

(** All threads but the main one have ended: it joins them and ends. *)
Definition children_done s : Prop := ∀ t, (1 ≤ t ≤ length cs)%nat → pc <$> threads s !! t = Some Done.

(** One join, of a thread that has ended. *)
Lemma main_join_one a s u us act :
  sim d0 cs a s → (1 ≤ u ≤ length cs)%nat → pc <$> threads s !! u = Some Done →
  threads s !! 0%nat = Some (mkThread (Some 0%nat) 0 (Run (join_all (u :: us)))) → slots s !! 0%nat = Some (mkSlot 0 act) →
  ∃ s', rtc red s s' ∧ sim d0 cs a s' ∧ (∀ v, v ≠ 0%nat → threads s' !! v = threads s !! v) ∧
    threads s' !! 0%nat = Some (mkThread (Some 0%nat) 0 (Run (join_all us))) ∧ slots s' !! 0%nat = Some (mkSlot 0 true).
Proof.
  intros Hs Hu Hd Hx Hsl. pose proof (lookup_lt_Some _ _ _ Hx) as Hlt.
  set (s1 := set_active (Some 0%nat) false (set_thread 0 (mkThread (Some 0%nat) 0 (Joining u act (join_all us))) s)).
  assert (Hst1 : sched_step d0 true cap 0 s = Moved s1).
  { unfold sched_step. rewrite Hx. cbn [pc join_all call_step my_slot mbind option_bind]. by rewrite Hsl. }
  pose proof (main_solo a s s1 Hs Hst1) as Hs1.
  assert (H1 : threads s1 !! 0%nat = Some (mkThread (Some 0%nat) 0 (Joining u act (join_all us)))) by (cbn; by rewrite list_lookup_insert_eq).
  assert (act = true) as ->.
  { destruct (mo_thread _ _ _ (si_main _ _ _ _ Hs1)) as (y & act' & Hy & _ & Hm). rewrite H1 in Hy. injection Hy as <-. by destruct Hm as (_ & ? & _). }
  set (s2 := set_thread 0 (mkThread (Some 0%nat) 0 (Joined true (join_all us))) s1).
  assert (Hst2 : sched_step d0 true cap 0 s1 = Moved s2).
  { unfold sched_step. rewrite H1. cbn [pc s1 set_active set_slots threads set_thread set_threads].
    rewrite list_lookup_insert_ne by lia. by rewrite Hd. }
  assert (H2 : threads s2 !! 0%nat = Some (mkThread (Some 0%nat) 0 (Joined true (join_all us)))).
  { cbn. rewrite list_lookup_insert_eq; [done|by rewrite length_insert]. }
  set (s3 := set_active (Some 0%nat) true (set_thread 0 (mkThread (Some 0%nat) 0 (Run (join_all us))) s2)).
  assert (Hst3 : sched_step d0 true cap 0 s2 = Moved s3) by (unfold sched_step; by rewrite H2).
  exists s3. split_and!.
  - do 3 (eapply rtc_l; [by exists 0%nat|]). done.
  - by apply (main_solo a s2 s3 (main_solo a s1 s2 Hs1 Hst2)).
  - intros v Hv. cbn. by rewrite !list_lookup_insert_ne.
  - cbn. rewrite list_lookup_insert_eq; [done|by rewrite !length_insert].
  - cbn [s3 set_active set_slots slots]. rewrite list_lookup_alter_eq. cbn [s2 s1 set_thread set_threads set_active set_slots slots].
    rewrite list_lookup_alter_eq. cbn [set_thread set_threads slots]. by rewrite Hsl.
Qed.

Lemma main_run_ends a us s act :
  sim d0 cs a s → creating s = false → children_done s → joined cs s us →
  threads s !! 0%nat = Some (mkThread (Some 0%nat) 0 (Run (join_all us))) → slots s !! 0%nat = Some (mkSlot 0 act) →
  ∃ s', rtc red s s' ∧ ended s'.
Proof.
  revert s act. induction us as [|u us IH]; intros s act Hs Hc Hd Hj Hx Hsl; pose proof (lookup_lt_Some _ _ _ Hx) as Hlt.
  - exists (set_thread 0 (goto Done (mkThread (Some 0%nat) 0 (Run Exit))) s). split.
    + apply rtc_once. exists 0%nat. unfold sched_step. by rewrite Hx.
    + intros t th. cbn. destruct (decide (t = 0%nat)) as [->|Ht].
      * rewrite list_lookup_insert_eq by done. by intros [= <-].
      * rewrite list_lookup_insert_ne by done. intros Hth. pose proof (lookup_lt_Some _ _ _ Hth) as Hlt'.
        destruct (all_created d0 cs a s Hs Hc) as [Hl _]. pose proof (Hd t ltac:(lia)) as E. rewrite Hth in E. by injection E.
  - destruct (proj1 (Forall_cons _ _ _) (proj1 Hj)) as [Hu Hus].
    destruct (main_join_one a s u us act Hs Hu (Hd u Hu) Hx Hsl) as (s3 & R & Hs3 & T & H0 & Hsl3).
    assert (Hd3 : children_done s3) by (intros v Hv; rewrite T by lia; by apply Hd).
    destruct (IH s3 true) as (s' & R' & Hf); try done.
    + unfold creating. rewrite H0. cbn. by destruct us.
    + split; [done|]. intros v Hv _. by apply Hd3.
    + exists s'. split; [by etransitivity|done].
Qed.

Lemma main_joined_ends a us s act :
  sim d0 cs a s → children_done s → joined cs s us →
  threads s !! 0%nat = Some (mkThread (Some 0%nat) 0 (Joined true (join_all us))) → slots s !! 0%nat = Some (mkSlot 0 act) →
  ∃ s', rtc red s s' ∧ ended s'.
Proof.
  intros Hs Hd Hj Hx Hsl. pose proof (lookup_lt_Some _ _ _ Hx) as Hlt.
  set (s1 := set_active (Some 0%nat) true (set_thread 0 (mkThread (Some 0%nat) 0 (Run (join_all us))) s)).
  assert (Hst : sched_step d0 true cap 0 s = Moved s1) by (unfold sched_step; by rewrite Hx).
  assert (H0 : threads s1 !! 0%nat = Some (mkThread (Some 0%nat) 0 (Run (join_all us)))) by (cbn; by rewrite list_lookup_insert_eq).
  assert (Hd1 : children_done s1) by (intros v Hv; cbn; rewrite list_lookup_insert_ne by lia; by apply Hd).
  destruct (main_run_ends a us s1 true (main_solo a s s1 Hs Hst)) as (s' & R & Hf); try done.
  - unfold creating. rewrite H0. cbn. by destruct us.
  - split; [apply Hj|]. intros v Hv _. by apply Hd1.
  - cbn [s1 set_active set_slots slots]. rewrite list_lookup_alter_eq. cbn [set_thread set_threads slots]. by rewrite Hsl.
  - exists s'. split; [|done]. eapply rtc_l; [by exists 0%nat|done].
Qed.

Lemma main_ends a s : sim d0 cs a s → creating s = false → children_done s → ∃ s', rtc red s s' ∧ ended s'.
Proof.
  intros Hs Hc Hd. destruct (all_created d0 cs a s Hs Hc) as [Hl Hn].
  destruct (mo_thread _ _ _ (si_main _ _ _ _ Hs)) as (x & act & Hx & Hsl & Hm). pose proof (lookup_lt_Some _ _ _ Hx) as Hlt.
  pose proof Hc as Hc'. unfold creating in Hc'. rewrite Hx in Hc'.
  destruct x as [p| | | | | | | | | |u prev q|prev q|i c q|o c q| |]; try done; cbn [main_pc] in Hm.
  - destruct Hm as [_ [(k & [Hlen Hk] & _ & ->)|(us & _ & _ & -> & Hj)]]; [|by eapply main_run_ends].
    assert (k = length cs) as -> by lia. rewrite drop_all in Hx. eapply main_run_ends; eauto. by apply joined_all.
  - destruct Hm as (-> & -> & us & Hcr & _ & -> & Hj). destruct (proj1 (Forall_cons _ _ _) (proj1 Hj)) as [Hu Hus].
    set (s1 := set_thread 0 (mkThread (Some 0%nat) 0 (Joined true (join_all us))) s).
    assert (Hst : sched_step d0 true cap 0 s = Moved s1) by (unfold sched_step; rewrite Hx; cbn [pc]; by rewrite (Hd u Hu)).
    assert (Hd1 : children_done s1) by (intros v Hv; cbn; rewrite list_lookup_insert_ne by lia; by apply Hd).
    destruct (main_joined_ends a us s1 false (main_solo a s s1 Hs Hst)) as (s' & R & Hf); try done.
    + split; [done|]. intros v Hv _. by apply Hd1.
    + cbn. by rewrite list_lookup_insert_eq.
    + exists s'. split; [|done]. eapply rtc_l; [by exists 0%nat|done].
  - destruct Hm as (-> & -> & us & _ & _ & -> & Hj). by eapply main_joined_ends.
  - exists s. split; [done|]. intros t th Hth. destruct (decide (t = 0%nat)) as [->|Ht]; [rewrite Hx in Hth; by injection Hth as <-|].
    pose proof (lookup_lt_Some _ _ _ Hth). pose proof (Hd t ltac:(lia)) as E. rewrite Hth in E. by injection E.
Qed.

(** From every state some schedule ends the program. *)
Lemma can_finish a s : sim d0 cs a s → ∃ s', rtc red s s' ∧ ended s'.
Proof.
  revert s. induction (turns_wf d0 a) as [a _ IH]. intros s Hs.
  destruct (create_all a s Hs) as (s1 & R1 & Hs1 & Hc1).
  destruct (drain_all a s1 (length cs) Hs1) as (s2 & R2 & Hs2 & H0 & Hre).
  assert (Hc2 : creating s2 = false) by (unfold creating in *; by rewrite H0).
  assert (R : rtc red s s2) by by etransitivity.
  destruct (decide (Forall (λ t, is_done <$> (pc <$> threads s2 !! t) = Some true) (seq 1 (length cs)))) as [Hall|Hno].
  - destruct (main_ends a s2 Hs2 Hc2) as (s' & R' & Hf); [|exists s'; split; [by etransitivity|done]].
    intros t Ht. rewrite Forall_forall in Hall. specialize (Hall t ltac:(apply elem_of_seq; lia)).
    destruct (threads s2 !! t) as [th|]; [|done]. cbn in *. by destruct (pc th).
  - apply not_Forall_Exists in Hno; [|apply _]. apply Exists_exists in Hno as (t & Ht%elem_of_seq & Hd). cbn in Hd.
    destruct (one_turn a s2 Hs2 Hc2 Hre) as (a' & s3 & R3 & Hturn & Hs3).
    { exists t. split; [lia|]. destruct (all_created d0 cs a s2 Hs2 Hc2) as [Hl _].
      destruct (lookup_lt_is_Some_2 (threads s2) t) as [th Hth]; [lia|]. rewrite Hth in *. cbn in *. by destruct (is_done (pc th)). }
    destruct (IH a' Hturn s3 Hs3) as (s' & R' & Hf). exists s'. split; [|done]. etransitivity; [exact R|]. by etransitivity.
Qed.
End Live.
