(* ===== verification/DetschedGuarantees.v ===== *)
(** * DetschedGuarantees: what the scheduler promises
    ([interpose/detsched.c], [interpose/det-mt.sh])

    A program of critical sections takes its locks in the order of the reference, whatever
    the operating system does, and can always finish. The microbenchmark of [det-mt.sh] is
    such a program. Programs outside that class, for which the order still depends on
    timing, are given with two of their runs. *)

From S2P Require Import Prelude Bytes Text Detsched DetschedSpec DetschedLive.
Local Open Scope Z_scope.

Section Guarantees.
Context {D : Type} (d0 : D).

(** A process of program [main] in environment [e] can reach [s]. *)
Definition reaches (e : DetEnviron) (main : Prog D) (s : Sched D) : Prop :=
  rtc (sched_red d0 (OB_DETSCHED e) (spin_cap e)) (sched_start e main) s.

(** Threads of critical sections, few enough for the slots. *)
Definition sections (cs : list (Prog D)) : Prop := Forall (flat None) cs ∧ (length cs < MAXT)%nat.

(** A run in which no thread gave up its turn. *)
Record faithful (e : DetEnviron) (cs : list (Prog D)) (s : Sched D) : Prop := {
  fa_enabled : OB_DETSCHED e = true;
  fa_reaches : reaches e (fork_join cs) s;
  fa_strict : relaxations s = 0 }.

Lemma order_is_reference e cs s :
  sections cs → faithful e cs s →
  (∀ t, sched_step d0 true (spin_cap e) t s ≠ Undefined) ∧
  ∃ n a, turns d0 n (turns_start cs) = Some a ∧ order s = tu_order a ∧
    (ended s → turn d0 a = None ∧ ∀ m, cell d0 s m = tu_cell d0 a m).
Proof.
  intros [Hf Hn] [He Hr Hrel]. unfold reaches in Hr. rewrite He in Hr.
  destruct (sim_run d0 cs (spin_cap e) Hn Hf e s He Hr Hrel) as (n & a & Ha & Hs).
  split; [intros t; by eapply (sim_defined d0 cs)|]. exists n, a.
  split_and!; [done|symmetry; apply (si_order _ _ _ _ Hs)|]. intros Hfin. by apply (sim_finished d0 cs).
Qed.

Lemma turn_order a b : turn d0 a = Some b → tu_order a `prefix_of` tu_order b.
Proof.
  unfold turn. destruct (next_turn 0 (tu_threads a)) as [[c i]|]; [|done]. cbn.
  destruct (snd <$> tu_threads a !! i) as [[]|]; try done. destruct (finish _ _). intros [= <-]. cbn. by apply prefix_app_r.
Qed.
Lemma turns_order n a b : turns d0 n a = Some b → tu_order a `prefix_of` tu_order b.
Proof.
  revert a; induction n as [|n IH]; intros a; cbn; [by intros [= ->]|].
  destruct (turn d0 a) as [a1|] eqn:E; [|done]. cbn. intros H. etransitivity; [by apply turn_order|by apply IH].
Qed.
Lemma turns_split n k a b : turns d0 (n + k) a = Some b → ∃ c, turns d0 n a = Some c ∧ turns d0 k c = Some b.
Proof.
  revert a; induction n as [|n IH]; intros a; cbn; [by exists a|]. destruct (turn d0 a) as [a1|]; [apply IH|done].
Qed.
Lemma turns_comparable n n' a b b' :
  turns d0 n a = Some b → turns d0 n' a = Some b' → tu_order b `prefix_of` tu_order b' ∨ tu_order b' `prefix_of` tu_order b.
Proof.
  intros H H'. destruct (Nat.le_ge_cases n n') as [Hle|Hle]; [left|right].
  - replace n' with (n + (n' - n))%nat in H' by lia. apply turns_split in H' as (c & Hc & Hb).
    rewrite H in Hc. injection Hc as <-. by eapply turns_order.
  - replace n with (n' + (n - n'))%nat in H by lia. apply turns_split in H as (c & Hc & Hb).
    rewrite H' in Hc. injection Hc as <-. by eapply turns_order.
Qed.

(** C9: the order in which the threads of a program take their locks does not depend on
    timing. Of two runs in which no thread gave up its turn, ended or killed at any
    point, one order of acquisitions is a prefix of the other; two that finish have the
    same order and leave the same data; and the array of slots is never read out of bounds.
    The program creates its threads, fewer than [MAXT], each a sequence of critical sections under mutexes and
    read-write locks, and joins them; the runs may differ in their spin bound. *)
Theorem lock_order_repeats (e e' : DetEnviron) (cs : list (Prog D)) (s s' : Sched D) :
  sections cs → faithful e cs s → faithful e' cs s' →
  (order s `prefix_of` order s' ∨ order s' `prefix_of` order s) ∧
  (ended s → ended s' → order s = order s' ∧ ∀ m, cell d0 s m = cell d0 s' m) ∧
  ∀ t, sched_step d0 true (spin_cap e) t s ≠ Undefined.
Proof.
  intros Hcs Hs Hs'. destruct (order_is_reference e cs s Hcs Hs) as (Hdef & n & a & Ha & Ho & Hf).
  destruct (order_is_reference e' cs s' Hcs Hs') as (_ & n' & a' & Ha' & Ho' & Hf').
  rewrite Ho, Ho'. split_and!; [by eapply turns_comparable| |done].
  intros H H'. destruct (Hf H) as [Hend Hc], (Hf' H') as [Hend' Hc'].
  pose proof (turns_end d0 n n' _ a a' Ha Hend Ha' Hend') as ->. split; [done|]. intros m. by rewrite Hc, Hc'.
Qed.

Lemma strict_relaxations cap s s' :
  cap <= 0 → rtc (sched_red d0 true cap) s s' → relaxations s' = relaxations s.
Proof.
  intros Hcap. induction 1 as [|x y z [t Hst] _ IH]; [done|]. rewrite IH. clear IH.
  revert Hst. unfold sched_step. destruct (threads x !! t) as [th|]; [|done].
  destruct (pc th) as [p| | | | |p| | | | | | | | | |]; unfold call_step, not_min, set_active, bump, id; cbv zeta;
    destruct (Z.ltb_spec 0 cap); try lia; cbn [andb]; repeat case_match; intros [= <-]; done.
Qed.

(** C34: the scheduler does not deadlock. With unbounded spinning, from every state that a
    program of critical sections (of fewer than [MAXT] threads) can reach, some schedule ends all its threads, and no
    thread has given up its turn. *)
Theorem sections_finish (e : DetEnviron) (cs : list (Prog D)) (s : Sched D) :
  sections cs → OB_DETSCHED e = true → spin_cap e <= 0 → reaches e (fork_join cs) s →
  relaxations s = 0 ∧ ∃ s', rtc (sched_red d0 true (spin_cap e)) s s' ∧ faithful e cs s' ∧ ended s'.
Proof.
  intros [Hf Hn] He Hcap Hr. pose proof Hr as Hr'. unfold reaches in Hr'. rewrite He in Hr'.
  assert (H0 : ∀ s, rtc (sched_red d0 true (spin_cap e)) (sched_start e (fork_join cs)) s → relaxations s = 0).
  { intros s1 R. apply strict_relaxations in R; [|done]. by rewrite sched_start_eq in R. }
  split; [by apply H0|]. destruct (sim_run d0 cs (spin_cap e) Hn Hf e s He Hr' (H0 s Hr')) as (n & a & _ & Hs).
  destruct (can_finish d0 cs (spin_cap e) Hn Hf Hcap a s Hs) as (s' & R & Hfin). exists s'. split_and!; [done| |done].
  split; [done| |apply H0; by etransitivity]. unfold reaches. rewrite He. by etransitivity.
Qed.
End Guarantees.

(** ** Concrete runs *)

(** Give thread [t] the processor for [n] steps; a blocked thread stays where it is. *)
Section Drive.
Context {D : Type} (d0 : D) (enabled : bool) (cap : Z).

Definition give (s : Sched D) (x : nat * nat) : Sched D :=
  Nat.iter x.2 (λ s, if sched_step d0 enabled cap x.1 s is Moved s' then s' else s) s.
Definition drive (xs : list (nat * nat)) (s : Sched D) : Sched D := fold_left give xs s.

Lemma give_reaches x s : rtc (sched_red d0 enabled cap) s (give s x).
Proof.
  destruct x as [t n]. unfold give. cbn. induction n as [|n IH]; [done|]. cbn. etransitivity; [exact IH|].
  destruct (sched_step d0 enabled cap t _) eqn:E; [|done..]. apply rtc_once. by exists t.
Qed.
Lemma drive_reaches xs s : rtc (sched_red d0 enabled cap) s (drive xs s).
Proof.
  revert s; induction xs as [|x xs IH]; intros s; [done|]. cbn. etransitivity; [apply give_reaches|apply IH].
Qed.
End Drive.

Definition all_done {D} (s : Sched D) : bool := forallb (λ th, is_done (pc th)) (threads s).
Lemma all_done_finished {D} (s : Sched D) : all_done s = true → ended s.
Proof.
  unfold all_done. rewrite forallb_forall. intros H t th Hth.
  specialize (H th ltac:(apply list_elem_of_In; by eapply list_elem_of_lookup_2)). by destruct (pc th).
Qed.

(** *** The microbenchmark of [det-mt.sh] *)

(** [worker]: append its number to the log, under the mutex, [iters] times. *)
Fixpoint worker (id : Z) (iters : nat) : Prog (list Z) :=
  match iters with
  | O => Exit
  | S iters => Lock Exclusive 0 (Access 0 (λ lg, lg ++ [id]) (λ _, Unlock 0 (worker id iters)))
  end.
Definition workers (nt iters : nat) : list (Prog (list Z)) := map (λ i, worker (Z.of_nat i) iters) (seq 0 nt).
Definition order_hash (lg : list Z) : Z :=
  fold_left (λ h x, Z.land (1099511628211 * Z.lxor h (Z.land x 255)) U64_MAX) lg 1469598103934665603.

Lemma worker_flat id iters : flat None (worker id iters).
Proof. induction iters as [|n IH]; [constructor|]. cbn. repeat (constructor; try done). Qed.
Lemma workers_sections nt iters : (nt < MAXT)%nat → sections (workers nt iters).
Proof.
  intros Hn. split; [|unfold workers; by rewrite length_map, length_seq].
  apply Forall_forall. intros p Hp. unfold workers in Hp. apply list_elem_of_fmap in Hp as (i & -> & _). apply worker_flat.
Qed.

(** The reference gives the log in rounds: in round [r] the first [i] threads have had their turn. *)
Section Rounds.
Context (nt iters : nat).
Abbreviation ids := (map Z.of_nat (seq 0 nt)).

Record at_round (r i : nat) (a : Turns (D := list Z)) : Prop := {
  ar_main : tu_threads a !! 0%nat = Some (0, Exit);
  ar_threads : ∀ j, (j < nt)%nat → tu_threads a !! S j =
    Some (if decide (j < i)%nat then (Z.of_nat r + 1, worker (Z.of_nat j) (iters - S r))
          else (Z.of_nat r, worker (Z.of_nat j) (iters - r)));
  ar_length : length (tu_threads a) = S nt;
  ar_log : tu_cell [] a 0 = concat (replicate r ids) ++ take i ids }.

Lemma round_turn r i a : (r < iters)%nat → (i < nt)%nat → at_round r i a → ∃ b, turn [] a = Some b ∧ at_round r (S i) b.
Proof.
  intros Hr Hi [H0 Ht Hl Hlog]. pose proof (Ht i Hi) as Hme. rewrite decide_False in Hme by lia.
  replace (iters - r)%nat with (S (iters - S r)) in Hme by lia. cbn [worker] in Hme.
  assert (Hid : ids !! i = Some (Z.of_nat i)) by (rewrite list_lookup_fmap, lookup_seq_lt by lia; done).
  unfold turn. rewrite (next_turn_least _ 0 (S i) _ _ Hme eq_refl).
  - cbn [mbind option_bind Nat.add]. rewrite Hme. cbn. eexists; split; [reflexivity|]. split; cbn [tu_threads tu_cells].
    + by rewrite list_lookup_insert_ne.
    + intros j Hj. destruct (decide (j = i)) as [->|Hne].
      * rewrite list_lookup_insert_eq by (rewrite ?Hl; cbn in Hl; lia). by rewrite decide_True by lia.
      * rewrite list_lookup_insert_ne by lia. rewrite (Ht j Hj). repeat case_decide; (done || lia).
    + by rewrite length_insert.
    + unfold tu_cell at 1. cbn [tu_cells]. rewrite lookup_insert_eq. cbn [from_option id]. rewrite Hlog.
      rewrite <- app_assoc. f_equal. symmetry. by apply take_S_r.
  - intros k c p Hk Hp Hne. destruct k as [|j]; [rewrite H0 in Hk; by injection Hk as <- <-|].
    assert (Hj : (j < nt)%nat) by (apply lookup_lt_Some in Hk; lia). rewrite (Ht j Hj) in Hk. unfold before.
    case_decide; injection Hk as <- <-; cbn; lia.
Qed.

Lemma round_end r a : at_round r nt a → at_round (S r) 0 a.
Proof.
  intros [H0 Ht Hl Hlog]. split; [done| |done|].
  - intros j Hj. rewrite (Ht j Hj). rewrite decide_True, decide_False by lia. do 2 f_equal. lia.
  - rewrite Hlog, firstn_all2 by (rewrite length_map, length_seq; lia). cbn [take].
    rewrite app_nil_r. replace (S r) with (r + 1)%nat by lia. rewrite replicate_add, concat_app. cbn. by rewrite app_nil_r.
Qed.

Lemma rounds_reference : ∃ n a, turns [] n (turns_start (workers nt iters)) = Some a ∧ at_round iters 0 a.
Proof.
  assert (H : ∀ r, (r ≤ iters)%nat → ∃ n a, turns [] n (turns_start (workers nt iters)) = Some a ∧ at_round r 0 a); [|by apply H].
  induction r as [|r IH]; intros Hr.
  - exists 0%nat, (turns_start (workers nt iters)). split; [done|]. split; [done| | |done].
    + intros j Hj. cbn [tu_threads turns_start lookup]. rewrite decide_False, Nat.sub_0_r by lia. unfold workers.
      cbn. by rewrite !list_lookup_fmap, lookup_seq_lt by lia.
    + cbn. unfold workers. by rewrite !length_map, length_seq.
  - destruct IH as (n & a & Hn & Ha); [lia|].
    assert (Hi : ∀ i, (i ≤ nt)%nat → ∃ n a, turns [] n (turns_start (workers nt iters)) = Some a ∧ at_round r i a).
    { induction i as [|i IHi]; intros Hi; [by exists n, a|]. destruct IHi as (n' & a' & Hn' & Ha'); [lia|].
      destruct (round_turn r i a') as (b & Hb & Hb'); [lia..|done|]. exists (S n'), b. split; [by eapply turns_snoc|done]. }
    destruct (Hi nt) as (n' & a' & Hn' & Ha'); [lia|]. exists n', a'. split; [done|by apply round_end].
Qed.

Lemma round_last a : at_round iters 0 a → turn [] a = None.
Proof.
  intros [H0 Ht Hl _]. unfold turn. rewrite next_turn_none; [done|]. intros [|j] c p Hj; [by rewrite H0 in Hj; injection Hj|].
  assert (Hlt : (j < nt)%nat) by (apply lookup_lt_Some in Hj; lia). rewrite (Ht j Hlt), decide_False in Hj by lia.
  rewrite Nat.sub_diag in Hj. by injection Hj.
Qed.
End Rounds.

(** The log of the microbenchmark, whatever the operating system does, for any number of
    threads and iterations. *)
Theorem det_mt_log (e : DetEnviron) (nt iters : nat) (s : Sched (list Z)) :
  (nt < MAXT)%nat → faithful [] e (workers nt iters) s → ended s →
  cell [] s 0 = concat (replicate iters (map Z.of_nat (seq 0 nt))).
Proof.
  intros Hn Hs Hfin. destruct (order_is_reference [] e _ s (workers_sections nt iters Hn) Hs) as (_ & n & a & Ha & _ & Hf).
  destruct (Hf Hfin) as [Hend Hc]. destruct (rounds_reference nt iters) as (n' & b & Hb & Hr).
  pose proof (turns_end [] n n' _ a b Ha Hend Hb (round_last nt iters b Hr)) as ->.
  rewrite Hc, (ar_log _ _ _ _ _ Hr). cbn [take]. apply app_nil_r.
Qed.

(** With the script's four threads and two thousand iterations the program prints the hash
    that the documentation reports. *)
Example det_mt_hash e s :
  faithful [] e (workers 4 2000) s → ended s →
  order_hash (cell [] s 0) = 0xeef52abee3e8fac3 ∧ len (cell [] s 0) = 8000.
Proof.
  intros Hs Hf. rewrite (det_mt_log e 4 2000 s) by (done || (unfold MAXT; lia)).
  split; vm_compute; reflexivity.
Qed.

(** Unbounded spinning, and the default bound. *)
Definition strict_env : DetEnviron := mkDetEnviron true (Some (bs "0")).
Definition default_env : DetEnviron := mkDetEnviron true None.

Lemma drive_faithful e cs xs :
  OB_DETSCHED e = true → relaxations (drive [] true (spin_cap e) xs (sched_start e (fork_join cs))) = 0 →
  faithful ([] : list Z) e cs (drive [] true (spin_cap e) xs (sched_start e (fork_join cs))).
Proof. intros He Hr. split; [done| |done]. unfold reaches. rewrite He. apply drive_reaches. Qed.

(** Fair processors with different speeds. *)
Definition rounds (n : nat) (xs : list (nat * nat)) : list (nat * nat) := concat (replicate n xs).
Definition even_run : Sched (list Z) :=
  drive [] true (spin_cap strict_env) (rounds 60 [(0, 3); (1, 3); (2, 3); (3, 3)]%nat) (sched_start strict_env (fork_join (workers 3 2))).
Definition skewed_run : Sched (list Z) :=
  drive [] true (spin_cap default_env) (rounds 60 [(3, 7); (2, 1); (1, 2); (0, 5)]%nat) (sched_start default_env (fork_join (workers 3 2))).

Lemma lock_order_repeats_witness :
  order even_run = order skewed_run ∧ cell [] even_run 0 = cell [] skewed_run 0 ∧ cell [] even_run 0 = [0; 1; 2; 0; 1; 2].
Proof.
  assert (Hs : sections (workers 3 2)) by (apply workers_sections; unfold MAXT; lia).
  assert (H1 : faithful [] strict_env (workers 3 2) even_run) by (apply drive_faithful; vm_compute; reflexivity).
  assert (H2 : faithful [] default_env (workers 3 2) skewed_run) by (apply drive_faithful; vm_compute; reflexivity).
  destruct (lock_order_repeats [] strict_env default_env (workers 3 2) even_run skewed_run Hs H1 H2) as (_ & H & _).
  destruct H as [Ho Hc]; [apply all_done_finished; vm_compute; reflexivity..|].
  split; [exact Ho|]. split; [apply Hc|]. vm_compute. reflexivity.
Defined.

Lemma sections_finish_witness :
  ∃ s', rtc (sched_red [] true (spin_cap strict_env)) even_run s' ∧ faithful [] strict_env (workers 3 2) s' ∧ ended s'.
Proof.
  assert (Hs : sections (workers 3 2)) by (apply workers_sections; unfold MAXT; lia).
  assert (H1 : reaches [] strict_env (fork_join (workers 3 2)) even_run) by apply drive_reaches.
  destruct (sections_finish [] strict_env (workers 3 2) even_run Hs eq_refl ltac:(vm_compute; discriminate) H1) as [_ H].
  exact H.
Defined.

(** ** Programs whose order depends on timing *)

(** Two runs to the end of the same program under the same scheduler, without a thread
    giving up its turn, that differ in what lock 0 guards. *)
Definition timing_dependent (main : Prog (list Z)) : Prop :=
  ∃ s s', reaches [] strict_env main s ∧ reaches [] strict_env main s' ∧ ended s ∧ ended s' ∧
    relaxations s = 0 ∧ relaxations s' = 0 ∧ cell [] s 0 ≠ cell [] s' 0.

Lemma timing_dependent_by xs ys main :
  (let s := drive [] true 0 xs (sched_start strict_env main) in let s' := drive [] true 0 ys (sched_start strict_env main) in
   all_done s && all_done s' && (relaxations s =? 0) && (relaxations s' =? 0) && negb (bool_decide (cell [] s 0 = cell [] s' 0))) = true →
  timing_dependent main.
Proof.
  intros H. cbv zeta in H. apply andb_true_iff in H as [H Hne]. apply andb_true_iff in H as [H Hr'%Z.eqb_eq].
  apply andb_true_iff in H as [H Hr%Z.eqb_eq]. apply andb_true_iff in H as [Hd Hd'].
  exists (drive [] true 0 xs (sched_start strict_env main)), (drive [] true 0 ys (sched_start strict_env main)).
  split_and!; [apply drive_reaches..|by apply all_done_finished|by apply all_done_finished|done|done|].
  by apply negb_true_iff, bool_decide_eq_false in Hne.
Qed.

(** One critical section that appends to the log of its lock. *)
Definition section_of (m : nat) (id : Z) (p : Prog (list Z)) : Prog (list Z) :=
  Lock Exclusive m (Access m (λ l, l ++ [id]) (λ _, Unlock m p)).
Definition fair : list (nat * nat) := rounds 12 [(0, 40); (1, 40); (2, 40)]%nat.

(** A new thread starts at clock 0 however far the others are: when the main thread has
    taken locks before it creates threads, how often the first of them enters before the
    second exists is a matter of timing. *)
Theorem late_threads_race :
  timing_dependent (Lock Exclusive 1 (Unlock 1 (Lock Exclusive 1 (Unlock 1
    (fork_join [section_of 0 1 (section_of 0 1 Exit); section_of 0 2 Exit]))))).
Proof. apply (timing_dependent_by fair ([(0, 17); (1, 100)]%nat ++ fair)). vm_compute. reflexivity. Qed.

(** A lock taken while another is held does not wait for its turn: who enters first, the
    nested section or the other thread's, is a matter of timing. *)
Theorem nested_sections_race :
  timing_dependent (fork_join [Lock Exclusive 1 (section_of 0 1 (Unlock 1 Exit)); section_of 0 2 Exit]).
Proof. apply (timing_dependent_by fair ([(0, 7); (1, 9); (2, 60)]%nat ++ fair)). vm_compute. reflexivity. Qed.

(** Whether [pthread_mutex_trylock] finds the lock free is a matter of timing. *)
Theorem trylock_races :
  timing_dependent (fork_join [section_of 0 1 Exit;
    Trylock 0 (λ b, if b then Access 0 (λ l, l ++ [2]) (λ _, Unlock 0 Exit) else Exit)]).
Proof. apply (timing_dependent_by fair ([(0, 7); (1, 9); (2, 60)]%nat ++ fair)). vm_compute. reflexivity. Qed.

(** With as many threads as slots besides the main one, the numbers handed out run past the
    array, and a thread that waits for its turn reads behind its end. *)
Theorem too_many_threads_overrun :
  let main := fork_join (replicate MAXT (section_of 0 1 Exit)) in
  ∃ s, reaches [] strict_env main s ∧ sched_step [] true (spin_cap strict_env) 1 s = Undefined.
Proof.
  cbv zeta. set (main := fork_join (replicate MAXT (section_of 0 1 Exit))).
  exists (drive [] true 0 [(0, 3080); (1, 2054)]%nat (sched_start strict_env main)).
  split; [apply drive_reaches|]. vm_compute. reflexivity.
Qed.
