(* ===== verification/Rngdet.v ===== *)
(** * Rngdet: repeatable random numbers
    ([interpose/rngdet.c])

    The library answers [getrandom] from a stream that a persisted seed determines, opens a
    file of such bytes in place of the random devices, and pins the process id. A seccomp
    filter hands the system calls to a supervisor thread. What the kernel does for the
    supervisor (reading and writing the caller's memory, injecting a descriptor) is an
    input of a call; files can be opened and written, and [memfd_create] succeeds. *)

From S2P Require Import Prelude Bytes Text Libc.
Local Open Scope Z_scope.

(** ** The stream ([sm_next], [det_fill]) *)

Definition u64 (z : Z) : Z := z mod 2 ^ 64.
Definition GAMMA : Z := 0x9E3779B97F4A7C15.
Definition MIX1 : Z := 0xBF58476D1CE4E5B9.
Definition MIX2 : Z := 0x94D049BB133111EB.

Definition xorshift (k z : Z) : Z := Z.lxor z (Z.shiftr z k).
Definition mix (z : Z) : Z := xorshift 31 (u64 (xorshift 27 (u64 (xorshift 30 z * MIX1)) * MIX2)).
(** The next number, and the state after it. *)
Definition sm_next (state : Z) : Z * Z := let state := u64 (state + GAMMA) in (mix state, state).

(** [n] bytes and the state after them; every iteration gives at least one, so [n] is fuel. *)
Fixpoint fill_from (fuel n : nat) (state : Z) : bytes * Z :=
  match fuel, n with
  | O, _ | _, O => ([], state)
  | S fuel, _ =>
      let '(r, state) := sm_next state in
      let k := Nat.min n 8 in
      let '(rest, state) := fill_from fuel (n - k) state in
      (take k (to_le_bytes 8 r) ++ rest, state)
  end.
Definition det_fill (n : nat) (state : Z) : bytes * Z := fill_from n n state.

(** ** State of the library *)

Record RngEnv := mkRngEnv {
  OB_VRAND : option bytes; OB_RNGCOUNT : bool; OB_NO_URANDOM : bool; OB_NO_VPID : bool; OB_VRAND_OPENAT : bool }.

Record Rng := mkRng {
  sm_state : Z; ur_state : Z; urand_on : bool; vpid_on : bool;
  notif : bool; (* the filter is installed and the supervisor runs *)
  rng_calls : Z; rng_bytes : Z }.

Definition DEFAULT_SEED : Z := 0x0B1A2C3D4E5F6071.
Definition UR_MASK : Z := 0xD1B54A32D192ED03.

(** The seed, and the files after it is persisted. A variable set to nothing names no file. *)
Definition load_seed (e : RngEnv) (fs : gmap bytes bytes) : Z * gmap bytes bytes :=
  match OB_VRAND e with
  | None | Some [] => (DEFAULT_SEED, fs)
  | Some path =>
      match fs !! path with
      | Some b => (default DEFAULT_SEED (scan_ull b), fs)
      | None => (DEFAULT_SEED, <[path := to_string DEFAULT_SEED ++ [LF]]> fs)
      end
  end.

(** [rngdet_init]; [installed]: the kernel took the filter. *)
Definition rngdet_init (e : RngEnv) (installed : bool) (fs : gmap bytes bytes) : Rng * gmap bytes bytes :=
  let inert := mkRng 0 0 false false false 0 0 in
  if negb (OB_RNGCOUNT e) && negb (bool_decide (is_Some (OB_VRAND e))) then (inert, fs)
  else
    let '(seed, fs) := load_seed e fs in
    let on := negb (OB_RNGCOUNT e) in
    (mkRng seed (Z.lxor seed UR_MASK) (on && negb (OB_NO_URANDOM e)) (on && negb (OB_NO_VPID e)) (on && installed) 0 0, fs).

Definition set_stream (z : Z) (r : Rng) : Rng :=
  mkRng z (ur_state r) (urand_on r) (vpid_on r) (notif r) (rng_calls r) (rng_bytes r).
Definition count_call (n : Z) (r : Rng) : Rng :=
  mkRng (sm_state r) (ur_state r) (urand_on r) (vpid_on r) (notif r) (u64 (rng_calls r + 1)) (u64 (rng_bytes r + n)).

(** ** The random devices *)

Definition is_randpath (p : bytes) : bool :=
  bool_decide (p ∈ [bs "/dev/urandom"; bs "/dev/random"; bs "/dev/srandom"; bs "/dev/hwrng"]).

(** The numbers of the file, from a copy of the state. *)
Fixpoint ur_numbers (n : nat) (state : Z) : list Z :=
  match n with O => [] | S n => let '(z, state) := sm_next state in z :: ur_numbers n state end.
Definition UR_BYTES : Z := Z.shiftl 1 20.
Definition det_urandom_fd (state : Z) : bytes :=
  concat (map (to_le_bytes 8) (ur_numbers (Z.to_nat (UR_BYTES / 8)) state)).

(** What an open gives: a file of these bytes, or what the real call gives. *)
Inductive Opened := Memfd (contents : bytes) | RealOpen.
(** [open], [open64], [openat]. *)
Definition shim_open (path : bytes) (r : Rng) : Opened :=
  if urand_on r && is_randpath path then Memfd (det_urandom_fd (ur_state r)) else RealOpen.

Definition shim_getpid (real : Z) (r : Rng) : Z := if vpid_on r then 4242 else real.

(** ** The supervisor *)

(** What the kernel hands to the supervisor. [writes] says of every chunk whether it can be
    written to the caller; [path] is what can be read of the caller's path, and [added]
    whether the descriptor can be injected. *)
Inductive Notif :=
  | NGetrandom (len : nat) (writes : list bool)
  | NOpen (path : option bytes) (added : bool).
(** [Continue]: the kernel runs the system call. *)
Inductive Answer := Filled (b : bytes) | Descriptor (contents : bytes) | Continue.

(** The loop over chunks; [None]: a write failed. Every chunk has a byte, so [len] is fuel. *)
Definition CHUNK : nat := 4096.
Fixpoint answer_chunks (fuel len : nat) (writes : list bool) (state : Z) : option bytes * Z :=
  match fuel, len with
  | O, _ | _, O => (Some [], state)
  | S fuel, _ =>
      let k := Nat.min len CHUNK in
      let '(b, state) := det_fill k state in
      if default true (head writes) then
        let '(rest, state) := answer_chunks fuel (len - k) (tail writes) state in
        (app b <$> rest, state)
      else (None, state)
  end.

(** The path the supervisor compares: at most 255 bytes, up to the first zero; nothing when
    it cannot be read. *)
Fixpoint c_string (l : bytes) : bytes :=
  match l with
  | [] => []
  | b :: l => if bool_decide (b = Byte.x00) then [] else b :: c_string l
  end.
Definition supervised_path (path : option bytes) : bytes := c_string (take 255 (default [] path)).

(** One turn of [supervisor]. *)
Definition supervise (n : Notif) (r : Rng) : Answer * Rng :=
  match n with
  | NOpen path added =>
      if urand_on r && is_randpath (supervised_path path) then
        let r := count_call 0 r in
        (if added then Descriptor (det_urandom_fd (ur_state r)) else Continue, r)
      else (Continue, r)
  | NGetrandom len writes =>
      let '(b, state) := answer_chunks len len writes (sm_state r) in
      (if b is Some b then Filled b else Continue, set_stream state (count_call (Z.of_nat len) r))
  end.

(** ** The filter ([install_filter]) *)

(** The instructions of classic BPF that it uses, on the fields [arch] and [nr]. *)
Inductive Bpf := LdArch | LdNr | Jeq (k jt jf : Z) | Ret (k : Z).
Definition RET_ALLOW : Z := 0x7fff0000.
Definition RET_USER_NOTIF : Z := 0x7fc00000.
Definition AUDIT_ARCH_X86_64 : Z := 0xC000003E.
Definition NR_getrandom : Z := 318.
Definition NR_openat : Z := 257.
Definition NR_open : Z := 2.

Definition filt_full (notif : Z) : list Bpf :=
  [LdArch; Jeq AUDIT_ARCH_X86_64 1 0; Ret RET_ALLOW; LdNr;
   Jeq NR_getrandom 3 0; Jeq NR_openat 2 0; Jeq NR_open 1 0; Ret RET_ALLOW; Ret notif].
Definition filt_gr (notif : Z) : list Bpf :=
  [LdArch; Jeq AUDIT_ARCH_X86_64 1 0; Ret RET_ALLOW; LdNr; Jeq NR_getrandom 0 1; Ret notif; Ret RET_ALLOW].
Definition filter_prog (e : RngEnv) : list Bpf :=
  let notif := if OB_RNGCOUNT e then RET_ALLOW else RET_USER_NOTIF in
  if OB_VRAND_OPENAT e then filt_full notif else filt_gr notif.

(** The kernel's evaluation; jumps go forward, so the length of the program is fuel.
    [None]: it ran off the end. *)
Fixpoint bpf_run (fuel : nat) (prog : list Bpf) (pc : nat) (acc arch nr : Z) : option Z :=
  match fuel with
  | O => None
  | S fuel =>
      match prog !! pc with
      | Some LdArch => bpf_run fuel prog (S pc) arch arch nr
      | Some LdNr => bpf_run fuel prog (S pc) nr arch nr
      | Some (Jeq k jt jf) => bpf_run fuel prog (S pc + Z.to_nat (if acc =? k then jt else jf)) acc arch nr
      | Some (Ret k) => Some k
      | None => None
      end
  end.
Definition bpf_eval (prog : list Bpf) (arch nr : Z) : option Z := bpf_run (length prog) prog 0 0 arch nr.

(** Statistics at exit. *)
Definition rngdet_fini (stats : bool) (r : Rng) : bytes :=
  if stats then bs "[rngdet] getrandom trapped: " ++ to_string (rng_calls r) ++ bs " calls, " ++
    to_string (rng_bytes r) ++ bs " bytes" ++ [LF] else [].

(** ** The stream does not repeat *)

Lemma u64_range z : 0 <= u64 z < 2 ^ 64.
Proof. apply Z.mod_pos_bound. lia. Qed.

(** Multiplication by a number with an inverse modulo [2 ^ 64] is injective. *)
Lemma u64_mul_inj c inv x y :
  u64 (c * inv) = 1 → 0 <= x < 2 ^ 64 → 0 <= y < 2 ^ 64 → u64 (x * c) = u64 (y * c) → x = y.
Proof.
  unfold u64. intros Hinv Hx Hy E.
  assert (H : ∀ z, 0 <= z < 2 ^ 64 → (z * c) mod 2 ^ 64 * inv mod 2 ^ 64 = z); [|by rewrite <- (H x), <- (H y), E].
  intros z Hz. rewrite Z.mul_mod_idemp_l, <- Z.mul_assoc by lia. rewrite <- Z.mul_mod_idemp_r, Hinv, Z.mul_1_r by lia.
  by apply Z.mod_small.
Qed.

Lemma xorshift_range k z : 0 <= k → 0 <= z < 2 ^ 64 → 0 <= xorshift k z < 2 ^ 64.
Proof.
  intros Hk Hz. unfold xorshift. assert (0 <= Z.shiftr z k) by (apply Z.shiftr_nonneg; lia).
  assert (Hs : 0 <= Z.lxor z (Z.shiftr z k)) by (apply Z.lxor_nonneg; lia). split; [done|].
  destruct (Z.eq_dec (Z.lxor z (Z.shiftr z k)) 0) as [->|Hne]; [lia|]. apply Z.log2_lt_pow2; [lia|].
  apply Z.le_lt_trans with (Z.max (Z.log2 z) (Z.log2 (Z.shiftr z k))); [apply Z.log2_lxor; lia|].
  assert (Hlt : ∀ w, 0 <= w < 2 ^ 64 → Z.log2 w < 64).
  { intros w Hw. destruct (Z.eq_dec w 0) as [->|]; [done|]. apply Z.log2_lt_pow2; lia. }
  assert (Z.shiftr z k <= z).
  { rewrite Z.shiftr_div_pow2 by lia. apply Z.div_le_upper_bound; [lia|]. pose proof (Z.pow_pos_nonneg 2 k). nia. }
  apply Z.max_lub_lt; apply Hlt; lia.
Qed.

Lemma xorshift_inj k x y : 0 < k → 0 <= x → 0 <= y → xorshift k x = xorshift k y → x = y.
Proof.
  unfold xorshift. intros Hk Hx Hy E. apply Z.lxor_eq.
  assert (Hd : Z.lxor x y = Z.shiftr (Z.lxor x y) k).
  { rewrite Z.shiftr_lxor. apply Z.lxor_eq. rewrite (Z.lxor_comm x y), Z.lxor_assoc, <- (Z.lxor_assoc x).
    rewrite E. rewrite Z.lxor_assoc, Z.lxor_nilpotent, Z.lxor_0_r. apply Z.lxor_nilpotent. }
  assert (H0 : 0 <= Z.lxor x y) by (apply Z.lxor_nonneg; lia). set (d := Z.lxor x y) in *.
  rewrite Z.shiftr_div_pow2 in Hd by lia. destruct (Z.eq_dec d 0) as [|Hne]; [done|]. exfalso.
  assert (d / 2 ^ k < d); [|lia]. apply Z.div_lt; [lia|]. apply Z.pow_gt_1; lia.
Qed.

Lemma mix_inj x y : 0 <= x < 2 ^ 64 → 0 <= y < 2 ^ 64 → mix x = mix y → x = y.
Proof.
  unfold mix. intros Hx Hy E. pose proof (xorshift_range 30 x ltac:(lia) Hx). pose proof (xorshift_range 30 y ltac:(lia) Hy).
  apply xorshift_inj in E; [|lia|apply u64_range..].
  apply (u64_mul_inj MIX2 3573116690164977347) in E; [|reflexivity|apply xorshift_range; [lia|apply u64_range]..].
  apply xorshift_inj in E; [|lia|apply u64_range..].
  apply (u64_mul_inj MIX1 10871156337175269513) in E; [|reflexivity|done..].
  by apply xorshift_inj in E; [|lia..].
Qed.

(** The state after [i] numbers, and the [i]-th number. *)
Definition sm_state_at (state : Z) (i : nat) : Z := Nat.iter i (λ s, (sm_next s).2) state.
Definition sm_nth (state : Z) (i : nat) : Z := (sm_next (sm_state_at state i)).1.

Lemma sm_state_closed state i : 0 <= state < 2 ^ 64 → sm_state_at state i = u64 (state + Z.of_nat i * GAMMA).
Proof.
  intros Hs. induction i as [|i IH]; [cbn; rewrite Z.add_0_r; symmetry; by apply Z.mod_small|].
  change (sm_state_at state (S i)) with (sm_next (sm_state_at state i)).2. rewrite IH. cbn [sm_next snd]. unfold u64.
  rewrite Z.add_mod_idemp_l by lia. f_equal. lia.
Qed.

(** No number comes twice in [2 ^ 64] draws. *)
Theorem stream_distinct state i j :
  0 <= state < 2 ^ 64 → Z.of_nat i < 2 ^ 64 → Z.of_nat j < 2 ^ 64 → sm_nth state i = sm_nth state j → i = j.
Proof.
  intros Hs Hi Hj. unfold sm_nth. cbn [sm_next fst]. rewrite !sm_state_closed by done. intros E.
  apply mix_inj in E; [|apply u64_range..]. unfold u64 in E. rewrite !Z.add_mod_idemp_l in E by lia.
  assert (E' : (Z.of_nat i * GAMMA) mod 2 ^ 64 = (Z.of_nat j * GAMMA) mod 2 ^ 64).
  { assert (H : ∀ k, (k * GAMMA) mod 2 ^ 64 = ((state + k * GAMMA + GAMMA) mod 2 ^ 64 - (state + GAMMA)) mod 2 ^ 64).
    { intros k. rewrite Zminus_mod_idemp_l. f_equal. lia. }
    rewrite (H (Z.of_nat i)), (H (Z.of_nat j)). by rewrite E. }
  apply (u64_mul_inj GAMMA 17428512612931826493) in E'; [|reflexivity|lia..]. lia.
Qed.

(** ** Answers *)

Lemma fill_fuel f1 f2 n state : (n ≤ f1)%nat → (n ≤ f2)%nat → fill_from f1 n state = fill_from f2 n state.
Proof.
  revert f2 n state; induction f1 as [|f1 IH]; intros f2 n state H1 H2.
  - assert (n = 0)%nat as -> by lia. by destruct f2.
  - destruct n as [|n]; [by destruct f2|]. destruct f2 as [|f2]; [lia|]. cbn [fill_from].
    destruct (sm_next state) as [r st]. by rewrite (IH f2) by lia.
Qed.

Lemma det_fill_step n state :
  (0 < n)%nat →
  det_fill n state =
  (take (Nat.min n 8) (to_le_bytes 8 (sm_next state).1) ++ (det_fill (n - Nat.min n 8) (sm_next state).2).1,
   (det_fill (n - Nat.min n 8) (sm_next state).2).2).
Proof.
  intros Hn. unfold det_fill at 1. destruct n as [|n]; [lia|]. cbn [fill_from]. destruct (sm_next state) as [r st]. cbn [fst snd].
  rewrite (fill_fuel n (S n - Nat.min (S n) 8)) by lia. unfold det_fill. by destruct (fill_from _ _ st).
Qed.

Lemma length_det_fill n state : length (det_fill n state).1 = n.
Proof.
  revert state; induction n as [n IH] using lt_wf_ind; intros state. destruct (decide (n = 0)%nat) as [->|Hn]; [done|].
  rewrite det_fill_step by lia. cbn [fst]. rewrite length_app, length_take, length_to_le_bytes, IH by lia. lia.
Qed.

(** Whole numbers first: a fill of [8 k + m] bytes is one of [8 k] and one of [m]. *)
Lemma det_fill_app k m state :
  det_fill (8 * k + m) state =
  ((det_fill (8 * k) state).1 ++ (det_fill m (det_fill (8 * k) state).2).1, (det_fill m (det_fill (8 * k) state).2).2).
Proof.
  revert state; induction k as [|k IH]; intros state.
  { change (det_fill m state = ((det_fill m state).1, (det_fill m state).2)). by destruct (det_fill m state). }
  rewrite (det_fill_step (8 * S k + m)), (det_fill_step (8 * S k)) by lia.
  replace (Nat.min (8 * S k + m) 8) with 8%nat by lia. replace (Nat.min (8 * S k) 8) with 8%nat by lia.
  replace (8 * S k + m - 8)%nat with (8 * k + m)%nat by lia. replace (8 * S k - 8)%nat with (8 * k)%nat by lia.
  rewrite IH. cbn [fst snd]. by rewrite app_assoc.
Qed.

(** The chunks of the supervisor are one fill. *)
Lemma chunks_fill fuel len writes state :
  (len ≤ fuel)%nat → Forall (eq true) writes →
  answer_chunks fuel len writes state = (Some (det_fill len state).1, (det_fill len state).2).
Proof.
  revert len writes state; induction fuel as [|fuel IH]; intros len writes state Hl Hw.
  - assert (len = 0)%nat as -> by lia. done.
  - destruct (decide (len = 0)%nat) as [->|Hn]; [done|].
    assert (Hstep : answer_chunks (S fuel) len writes state =
      let k := Nat.min len CHUNK in let '(b, state) := det_fill k state in
      if default true (head writes) then
        let '(rest, state) := answer_chunks fuel (len - k) (tail writes) state in (app b <$> rest, state)
      else (None, state)) by (destruct len; [lia|done]).
    rewrite Hstep. cbv zeta. assert (default true (head writes) = true) as -> by (by destruct Hw).
    destruct (det_fill (Nat.min len CHUNK) state) as [b st] eqn:E.
    rewrite IH; [|unfold CHUNK; lia|by destruct Hw]. cbn.
    destruct (decide (len ≤ CHUNK)%nat) as [Hle|Hgt].
    + replace (Nat.min len CHUNK) with len in * by lia. rewrite Nat.sub_diag. cbn. rewrite app_nil_r. by rewrite E.
    + replace (Nat.min len CHUNK) with CHUNK in * by lia.
      pose proof (det_fill_app 512 (len - CHUNK) state) as Ha. change (8 * 512)%nat with CHUNK in Ha.
      replace (CHUNK + (len - CHUNK))%nat with len in Ha by lia. rewrite Ha, E. done.
Qed.

(** A request that the supervisor can answer gets exactly as many bytes as it asked for, the
    next ones of the stream. *)
Theorem getrandom_answer len writes r :
  Forall (eq true) writes →
  let '(a, r') := supervise (NGetrandom len writes) r in
  a = Filled (det_fill len (sm_state r)).1 ∧ length (det_fill len (sm_state r)).1 = len ∧
  sm_state r' = (det_fill len (sm_state r)).2 ∧ ur_state r' = ur_state r.
Proof.
  intros Hw. unfold supervise. rewrite chunks_fill by done. cbn. split_and!; try done. apply length_det_fill.
Qed.

(** ** After a restart *)

Fixpoint supervise_all (ns : list Notif) (r : Rng) : list Answer * Rng :=
  match ns with
  | [] => ([], r)
  | n :: ns => let '(a, r) := supervise n r in let '(l, r) := supervise_all ns r in (a :: l, r)
  end.

Lemma load_seed_again e fs fs' :
  (∀ path, OB_VRAND e = Some path → fs' !! path = (load_seed e fs).2 !! path) → (load_seed e fs').1 = (load_seed e fs).1.
Proof.
  intros H. unfold load_seed in *. destruct (OB_VRAND e) as [[|c path]|]; [done| |done].
  specialize (H _ eq_refl). destruct (fs !! (c :: path)) as [b|] eqn:E; cbn [snd] in H.
  - by rewrite H, E.
  - rewrite H, lookup_insert_eq. rewrite scan_printed; [done|]. unfold DEFAULT_SEED. width_lia.
Qed.

(** The process that recovers starts from the same seed, whatever else changed on disk, so
    it gets the answers of the process before it, in order, for as many requests as both
    make, and opens random devices with the same contents. *)
Theorem random_replays e fs fs' ns ms :
  let '(r, after) := rngdet_init e true fs in
  let '(r', _) := rngdet_init e true fs' in
  (∀ path, OB_VRAND e = Some path → fs' !! path = after !! path) →
  (supervise_all (ns ++ ms) r').1 = (supervise_all ns r).1 ++ (supervise_all ms (supervise_all ns r).2).1 ∧
  (∀ path, shim_open path r' = shim_open path r) ∧ ∀ real, shim_getpid real r' = shim_getpid real r.
Proof.
  assert (Happ : ∀ ns ms r, (supervise_all (ns ++ ms) r).1 = (supervise_all ns r).1 ++ (supervise_all ms (supervise_all ns r).2).1).
  { clear ns ms. intros ns ms; induction ns as [|n ns IH]; intros r; [done|]. cbn. destruct (supervise n r) as [a r1].
    specialize (IH r1). destruct (supervise_all ns r1), (supervise_all (ns ++ ms) r1). cbn in *. by rewrite IH. }
  destruct (rngdet_init e true fs) as [r after] eqn:E. destruct (rngdet_init e true fs') as [r' after'] eqn:E'.
  intros H. assert (r' = r) as ->; [|split_and!; auto]. unfold rngdet_init in E, E'.
  destruct (negb (OB_RNGCOUNT e) && negb (bool_decide (is_Some (OB_VRAND e)))); [congruence|].
  pose proof (load_seed_again e fs fs') as Hl. destruct (load_seed e fs) as [s1 f1], (load_seed e fs') as [s2 f2].
  injection E as <- <-. injection E' as <- <-. cbn in Hl. by rewrite Hl.
Qed.

(** ** What is trapped *)

(** The filter traps exactly the system calls it names, of the native architecture. *)
Theorem filter_traps e arch nr :
  bpf_eval (filter_prog e) arch nr =
  Some (if negb (OB_RNGCOUNT e) && (arch =? AUDIT_ARCH_X86_64) &&
          ((nr =? NR_getrandom) || OB_VRAND_OPENAT e && ((nr =? NR_openat) || (nr =? NR_open)))
        then RET_USER_NOTIF else RET_ALLOW).
Proof.
  unfold bpf_eval, filter_prog. destruct (OB_VRAND_OPENAT e), (OB_RNGCOUNT e);
    lazy -[Z.eqb AUDIT_ARCH_X86_64 NR_getrandom NR_openat NR_open RET_ALLOW RET_USER_NOTIF];
    destruct (arch =? AUDIT_ARCH_X86_64); try reflexivity; destruct (nr =? NR_getrandom); try reflexivity;
    destruct (nr =? NR_openat); try reflexivity; destruct (nr =? NR_open); reflexivity.
Qed.

(** The reference values of the generator with seed 0. *)
Example splitmix_vectors : ur_numbers 3 0 = [0xE220A8397B1DCDAF; 0x6E789E6AA1B965F4; 0x06C45D188009454F].
Proof. vm_compute. reflexivity. Qed.
