(* ===== verification/Linearizability.v ===== *)
(** * Linearizability: the Wing–Gong checker ([crates/onebarrier/src/linearizability.rs])

    [is_linearizable] searches for a linearization of a register history, with a
    memo of the configurations that failed. It is shown to decide linearizability:
    the specification [Linearization] is a permutation of the operations that
    honours real time and in which every read returns the register's value. *)

From S2P Require Import Prelude.
Local Open Scope Z_scope.

Inductive Action := Write (v : Z) | Read (v : Z).

Record LinOp := mkLinOp { proc_id : Z; action : Action; inv : Z; res : Z }.

(** A call or return event: time, whether it is a call, the operation. *)
Abbreviation Entry := (Z * bool * nat)%type.

(** [a.0.cmp(&b.0).then(b.1.cmp(&a.1))] is not [Greater]: calls first at ties. *)
Definition entry_le (a b : Entry) : Prop :=
  a.1.1 < b.1.1 ∨ (a.1.1 = b.1.1 ∧ (b.1.2 = true → a.1.2 = true)).
#[export] Instance entry_le_dec : RelDecision entry_le.
Proof. intros a b. unfold entry_le. apply _. Defined.

Definition events (ops : list LinOp) : list Entry :=
  concat (imap (λ i op, [(inv op, true, i); (res op, false, i)]) ops).

(** Sorted by time; the order of equal entries does not matter to the search. *)
Definition sorted_events (ops : list LinOp) : list Entry := merge_sort entry_le (events ops).

Definition valid (a : Action) (value : Z) : bool :=
  match a with Write _ => true | Read v => v =? value end.
Definition apply (a : Action) (value : Z) : Z :=
  match a with Write v => v | Read _ => value end.

Abbreviation Memo := (gset (list nat * Z)).

(** The calls among the remaining operations before their first return. *)
Fixpoint candidates (entries : list Entry) (remaining : list nat) : list nat :=
  match entries with
  | [] => []
  | (_, is_call, id) :: entries =>
      if bool_decide (id ∈ remaining) then
        if is_call : bool then id :: candidates entries remaining else []
      else candidates entries remaining
  end.

(** The loop over the candidates: the first that succeeds ends it. *)
Fixpoint try_each (try : nat → Memo → bool * Memo) (cs : list nat) (memo : Memo) : bool * Memo :=
  match cs with
  | [] => (false, memo)
  | id :: cs =>
      let '(found, memo) := try id memo in
      if found : bool then (true, memo) else try_each try cs memo
  end.

(** The search. Each call removes one operation, so the number of operations is
    enough fuel; [ops[id]] is always in range. *)
Fixpoint recurse (fuel : nat) (ops : list LinOp) (entries : list Entry) (remaining : list nat)
    (value : Z) (memo : Memo) : bool * Memo :=
  match remaining, fuel with
  | [], _ => (true, memo)
  | _, O => (false, memo)
  | _, S fuel =>
      if bool_decide ((remaining, value) ∈ memo) then (false, memo)
      else
        let '(found, memo) :=
          try_each (λ id memo,
            match ops !! id with
            | None => (false, memo)
            | Some op =>
                if valid (action op) value then
                  recurse fuel ops entries (filter (λ x, x ≠ id) remaining)
                    (apply (action op) value) memo
                else (false, memo)
            end) (candidates entries remaining) memo in
        if found : bool then (true, memo) else (false, {[(remaining, value)]} ∪ memo)
  end.

Definition is_linearizable (ops : list LinOp) (init : Z) : bool :=
  (recurse (length ops) ops (sorted_events ops) (seq 0 (length ops)) init ∅).1.

(** ** Specification *)

Section Spec.
Context (ops : list LinOp).

(** [a] may come before [b]: [b] did not return before [a] was called. *)
Definition may_precede (a b : nat) : Prop :=
  ∀ x y, ops !! a = Some x → ops !! b = Some y → ¬ res y < inv x.

(** Run the operations in order on the register; every read must return its value. *)
Fixpoint register_run (value : Z) (order : list nat) : Prop :=
  match order with
  | [] => True
  | id :: order =>
      ∃ op, ops !! id = Some op ∧
        (∀ v, action op = Read v → v = value) ∧
        register_run (if action op is Write v then v else value) order
  end.

(** A linearization of the operations [ids] from the value [value]. *)
Definition Linearization (ids : list nat) (value : Z) (order : list nat) : Prop :=
  order ≡ₚ ids ∧ StronglySorted may_precede order ∧ register_run value order.

Definition Linearizable (ids : list nat) (value : Z) : Prop :=
  ∃ order, Linearization ids value order.
End Spec.

(** ** The candidates are the operations that may come first *)

#[export] Instance entry_le_trans : Transitive entry_le.
Proof. intros [[t1 c1] i1] [[t2 c2] i2] [[t3 c3] i3]. unfold entry_le. cbn. intuition lia. Qed.
#[export] Instance entry_le_total : Total entry_le.
Proof.
  intros [[t1 c1] i1] [[t2 c2] i2]. unfold entry_le. cbn.
  destruct (Z.lt_trichotomy t1 t2) as [|[|]]; [auto| |auto]. destruct c1, c2; auto.
Qed.

Lemma elem_of_events ops t c i :
  (t, c, i) ∈ sorted_events ops ↔
    ∃ op, ops !! i = Some op ∧ t = (if c : bool then inv op else res op).
Proof.
  unfold sorted_events. rewrite merge_sort_Permutation. unfold events.
  rewrite list_elem_of_In, in_concat. split.
  - intros (l & Hl%list_elem_of_In & Hx%list_elem_of_In).
    apply elem_of_lookup_imap in Hl as (j & op & -> & Hj).
    apply elem_of_cons in Hx as [[= -> -> ->]|[[= -> -> ->]|Hx%elem_of_nil]%elem_of_cons]; eauto; done.
  - intros (op & Hop & ->). exists [(inv op, true, i); (res op, false, i)]. split.
    + apply list_elem_of_In, elem_of_lookup_imap. eauto.
    + destruct c; cbn; auto.
Qed.

Lemma elem_of_candidates es rem id :
  id ∈ candidates es rem ↔
    id ∈ rem ∧ ∃ es1 t es2, es = es1 ++ (t, true, id) :: es2 ∧
      Forall (λ x, x.2 ∈ rem → x.1.2 = true) es1.
Proof.
  induction es as [|[[t c] i] es IH]; cbn.
  - split; [by intros ?%elem_of_nil|]. by intros (_ & [|] & t & es2 & H & _).
  - case_bool_decide as Hi; [destruct c|].
    + rewrite elem_of_cons, IH. split.
      * intros [->|(Hid & es1 & t' & es2 & -> & HF)].
        { split; [done|]. by exists [], t, es. }
        split; [done|]. exists ((t, true, i) :: es1), t', es2. split; [done|]. by constructor.
      * intros (Hid & [|x es1] & t' & es2 & [= E] & HF); [by left|right].
        split; [done|]. apply Forall_cons in HF as [_ HF]. by exists es1, t', es2.
    + split; [by intros ?%elem_of_nil|]. intros (_ & [|x es1] & t' & es2 & E & HF); [done|].
      injection E as <- _. apply Forall_cons in HF as [HF _]. by specialize (HF Hi).
    + rewrite IH. split.
      * intros (Hid & es1 & t' & es2 & -> & HF). split; [done|].
        exists ((t, c, i) :: es1), t', es2. split; [done|]. by constructor.
      * intros (Hid & [|x es1] & t' & es2 & E & HF); [by injection E as _ _ -> _|].
        injection E as <- ->. apply Forall_cons in HF as [_ HF]. split; [done|]. eauto.
Qed.

Section Correct.
Context (ops : list LinOp) (Hops : Forall (λ op, inv op <= res op) ops).

Lemma candidates_first rem id :
  Forall (λ j, is_Some (ops !! j)) rem →
  id ∈ candidates (sorted_events ops) rem ↔ id ∈ rem ∧ Forall (may_precede ops id) rem.
Proof.
  intros Hrem. pose proof (StronglySorted_merge_sort entry_le (events ops)) as HS.
  fold (sorted_events ops) in HS. rewrite elem_of_candidates. split.
  - intros (Hid & es1 & t & es2 & E & HF). split; [done|]. apply Forall_forall.
    intros j Hj x y Hx Hy Hlt.
    assert (Ht : (t, true, id) ∈ sorted_events ops) by (rewrite E; apply elem_of_app; right; left).
    apply elem_of_events in Ht as (x' & Hx' & ->). assert (x' = x) as -> by congruence.
    assert (Hr : (res y, false, j) ∈ sorted_events ops) by (apply elem_of_events; eauto).
    rewrite E in Hr, HS. apply elem_of_app in Hr as [Hr|Hr].
    + rewrite Forall_forall in HF. specialize (HF _ Hr Hj). done.
    + apply elem_of_cons in Hr as [?|Hr]; [done|].
      apply StronglySorted_app_1_r, StronglySorted_inv in HS as [_ HS].
      rewrite Forall_forall in HS. specialize (HS _ Hr). unfold entry_le in HS. cbn in HS. lia.
  - intros (Hid & HF). split; [done|]. rewrite Forall_forall in Hrem.
    destruct (Hrem _ Hid) as [x Hx].
    assert (Ht : (inv x, true, id) ∈ sorted_events ops) by (apply elem_of_events; eauto).
    apply list_elem_of_split in Ht as (es1 & es2 & E). exists es1, (inv x), es2. split; [done|].
    apply Forall_forall. intros [[t c] j] Hj Hjr. cbn in *. destruct c; [done|exfalso].
    assert (Hr : (t, false, j) ∈ sorted_events ops) by (rewrite E; apply elem_of_app; by left).
    apply elem_of_events in Hr as (y & Hy & ->).
    rewrite Forall_forall in HF. specialize (HF _ Hjr x y Hx Hy).
    rewrite E in HS.
    pose proof (StronglySorted_app_1_elem_of _ _ _ _ (inv x, true, id) HS Hj ltac:(left)) as Hle.
    unfold entry_le in Hle. cbn in Hle. destruct Hle as [|[? Hc]]; [lia|]. by specialize (Hc eq_refl).
Qed.

Lemma filter_ne_id (id : nat) (l : list nat) : id ∉ l → filter (λ x, x ≠ id) l = l.
Proof.
  induction l as [|j l IH]; intros Hn; [done|]. apply not_elem_of_cons in Hn as [? ?].
  rewrite filter_cons_True by done. f_equal. by apply IH.
Qed.

(** A linearization starts with an operation that may come first. *)
Lemma Linearizable_cons rem value :
  rem ≠ [] → NoDup rem → Forall (λ j, is_Some (ops !! j)) rem →
  Linearizable ops rem value ↔
    ∃ id op, id ∈ candidates (sorted_events ops) rem ∧ ops !! id = Some op ∧
      valid (action op) value = true ∧
      Linearizable ops (filter (λ x, x ≠ id) rem) (apply (action op) value).
Proof.
  intros Hne Hnd Hin. split.
  - intros ([|id order] & Hp & HS & HR).
    { by apply Permutation_nil_l in Hp. }
    apply StronglySorted_inv in HS as [HS HF]. destruct HR as (op & Hop & Hrd & HR).
    assert (Hid : id ∈ rem) by (rewrite <- Hp; constructor).
    exists id, op. split; [apply candidates_first; [done|]; split; [done|]|split_and!; [done| |]].
    + rewrite <- Hp. constructor; [|done]. intros x y Hx Hy.
      assert (x = y) as <- by congruence. rewrite Forall_forall in Hops.
      specialize (Hops x ltac:(by eapply list_elem_of_lookup_2)). lia.
    + destruct (action op); [done|]. cbn. apply Z.eqb_eq. by apply Hrd.
    + exists order. split_and!; [|done|by destruct (action op)].
      rewrite <- Hp, filter_cons_False by (intros []; done).
      assert (id ∉ order) as Hn by (rewrite <- Hp in Hnd; by apply NoDup_cons in Hnd as [? _]).
      by rewrite filter_ne_id.
  - intros (id & op & Hc & Hop & Hv & order & Hp & HS & HR).
    apply candidates_first in Hc as [Hid HF]; [|done]. exists (id :: order). split_and!.
    + rewrite Hp. symmetry. apply elem_of_Permutation in Hid as [k Hk].
      rewrite Hk in Hnd |- *. apply NoDup_cons in Hnd as [Hn _]. constructor.
      rewrite filter_cons_False by (intros []; done).
      by rewrite filter_ne_id.
    + constructor; [done|]. apply Forall_forall. intros j Hj. rewrite Hp in Hj.
      apply list_elem_of_filter in Hj as [_ Hj]. rewrite Forall_forall in HF. by apply HF.
    + cbn. exists op. split; [done|]. split; [|by destruct (action op)].
      intros v Ha. rewrite Ha in Hv. by apply Z.eqb_eq in Hv.
Qed.

(** The memo holds only configurations that have no linearization. *)
Definition memo_ok (memo : Memo) : Prop :=
  ∀ rem value, (rem, value) ∈ memo → ¬ Linearizable ops rem value.

(** The loop finds a candidate that succeeds if there is one. *)
Lemma try_each_spec try cs memo (P : nat → Prop) :
  (∀ id memo, id ∈ cs → memo_ok memo →
     memo_ok (try id memo).2 ∧ ((try id memo).1 = true ↔ P id)) →
  memo_ok memo →
  memo_ok (try_each try cs memo).2 ∧
    ((try_each try cs memo).1 = true ↔ ∃ id, id ∈ cs ∧ P id).
Proof.
  revert memo; induction cs as [|id cs IH]; intros memo Ht Hm; cbn [try_each].
  - split; [done|]. split; [done|]. by intros (id & ?%elem_of_nil & _).
  - destruct (Ht id memo ltac:(constructor) Hm) as [Hm1 Hb]. destruct (try id memo) as [b m1]. cbn in Hm1, Hb.
    destruct b.
    + split; [done|]. split; [|done]. intros _. exists id. split; [constructor|by apply Hb].
    + destruct (IH m1) as [Hm2 Hb2]; [|done|].
      { intros id' memo' Hin. apply Ht. by constructor. }
      split; [done|]. rewrite Hb2. split.
      * intros (id' & Hin & HP). exists id'. split; [by constructor|done].
      * intros (id' & [->|Hin]%elem_of_cons & HP); [|eauto]. apply Hb in HP. done.
Qed.

Lemma length_filter_ne (id : nat) (l : list nat) : id ∈ l → (length (filter (λ x, x ≠ id) l) < length l)%nat.
Proof.
  intros Hin. apply elem_of_Permutation in Hin as [k ->]. rewrite filter_cons_False by (intros []; done).
  pose proof (length_filter (λ x, x ≠ id) k). cbn. lia.
Qed.

Lemma recurse_spec fuel rem value memo :
  (length rem ≤ fuel)%nat → NoDup rem → Forall (λ j, is_Some (ops !! j)) rem → memo_ok memo →
  memo_ok (recurse fuel ops (sorted_events ops) rem value memo).2 ∧
    ((recurse fuel ops (sorted_events ops) rem value memo).1 = true ↔ Linearizable ops rem value).
Proof.
  revert rem value memo; induction fuel as [|fuel IH]; intros [|r rem'] value memo Hl Hnd Hin Hm;
    try (cbn in Hl; lia);
    try (cbn; split; [done|]; split; [intros _; exists []; by split_and!; [|constructor|]|done]).
  remember (r :: rem') as rem eqn:Er. cbn [recurse].
  assert (Hne : rem ≠ []) by by rewrite Er.
  destruct rem as [|r0 rem0]; [done|]. rewrite Er in *. clear r0 rem0 Er. set (rem := r :: rem') in *.
  case_bool_decide as Hmem.
  { split; [done|]. split; [done|]. intros HL. by destruct (Hm _ _ Hmem). }
  set (try := λ id memo, _).
  destruct (try_each_spec try (candidates (sorted_events ops) rem) memo
    (λ id, ∃ op, ops !! id = Some op ∧ valid (action op) value = true ∧
       Linearizable ops (filter (λ x, x ≠ id) rem) (apply (action op) value))) as [Hm' Hb]; [|done|].
  { intros id m Hid Hmo. apply candidates_first in Hid as [Hid _]; [|done]. unfold try.
    destruct (ops !! id) as [op|] eqn:Eop; [|by split; [|split; [|intros (? & ? & _)]]].
    destruct (valid (action op) value) eqn:Ev.
    - destruct (IH (filter (λ x, x ≠ id) rem) (apply (action op) value) m) as [H1 H2]; [|..|done|].
      + pose proof (length_filter_ne id rem Hid). lia.
      + by apply NoDup_filter.
      + rewrite Forall_forall in Hin |- *. intros j [_ Hj]%list_elem_of_filter. by apply Hin.
      + split; [done|]. rewrite H2. split; [eauto|]. by intros (op' & [= <-] & _ & ?).
    - split; [done|]. split; [done|]. intros (op' & [= <-] & ? & _). congruence. }
  assert (Hiff : (try_each try (candidates (sorted_events ops) rem) memo).1 = true ↔ Linearizable ops rem value).
  { rewrite Hb, Linearizable_cons by done. split.
    - intros (id & Hid & op & ? & ? & ?). eauto 10.
    - intros (id & op & ? & ? & ? & ?). eauto 10. }
  destruct (try_each try _ memo) as [found m']. cbn in Hm', Hiff. destruct found; cbn.
  - split; [done|]. exact Hiff.
  - split; [|done]. intros rem1 v1 [[= -> ->]%elem_of_singleton|Hx]%elem_of_union; [|by apply Hm'].
    intros HL. by apply Hiff in HL.
Qed.

(** The whole search. *)
Lemma search_spec init : is_linearizable ops init = true ↔ Linearizable ops (seq 0 (length ops)) init.
Proof.
  unfold is_linearizable. apply (recurse_spec (length ops) (seq 0 (length ops)) init ∅).
  - by rewrite length_seq.
  - apply NoDup_seq.
  - apply Forall_forall. intros j Hj%elem_of_seq. apply lookup_lt_is_Some. lia.
  - by intros rem value ?%not_elem_of_empty.
Qed.
End Correct.

(** C15: The checker decides linearizability: on a history of completed operations it
    answers [true] exactly when some order of all of them honours real time (an
    operation that returned before another was called comes first) and makes every
    read return the register's current value. The memo never hides one. *)
Theorem is_linearizable_iff ops init :
  Forall (λ op, inv op <= res op) ops →
  is_linearizable ops init = true ↔ Linearizable ops (seq 0 (length ops)) init.
Proof. intros Hops. by apply search_spec. Qed.

(** A read of the old value overlapping a write, and one after it. *)
Lemma is_linearizable_iff_witness :
  Linearizable [mkLinOp 1 (Write 1) 0 3; mkLinOp 2 (Read 0) 1 2] (seq 0 2) 0 ∧
  ¬ Linearizable [mkLinOp 1 (Write 1) 0 1; mkLinOp 2 (Read 0) 2 3] (seq 0 2) 0.
Proof.
  split.
  - apply (is_linearizable_iff [mkLinOp 1 (Write 1) 0 3; mkLinOp 2 (Read 0) 1 2] 0);
      [repeat constructor; cbn; lia|by vm_compute].
  - intros HL. apply (is_linearizable_iff [mkLinOp 1 (Write 1) 0 1; mkLinOp 2 (Read 0) 2 3] 0) in HL;
      [by vm_compute in HL|repeat constructor; cbn; lia].
Defined.
