(* ===== verification/Net.v ===== *)
(** * Net: a connection as the protocol handlers see it

    A TCP stream read through a [BufReader] and written through a [BufWriter]. What
    the peer and the clock do is the input: bytes, read timeouts (each with the
    value the shutdown flag has when the handler looks at it) and a reset; the end
    of the list is the end of the stream. A read that does not complete has
    consumed what it read. *)

From S2P Require Import Prelude Bytes Text Io.
Local Open Scope Z_scope.

Inductive Event := EByte (b : byte) | ETimeout (shutdown : bool) | EReset.

(** [buffered] is written but not flushed; [flushes_left] is how many flushes the
    peer still accepts ([None]: all). *)
Record Conn := mkConn {
  input : list Event;
  shutdown : bool;
  buffered : bytes;
  flushed : bytes;
  flushes_left : option nat;
}.

Definition set_input (c : Conn) (l : list Event) (s : bool) : Conn :=
  mkConn l s (buffered c) (flushed c) (flushes_left c).

Definition data (b : bytes) : list Event := map EByte b.

(** A connection on which [b] arrives, after [out] was sent. *)
Definition conn_text (b out : bytes) : Conn := mkConn (data b) false [] out None.

(** The connection after [b] was written. *)
Definition written (c : Conn) (b : bytes) : Conn :=
  mkConn (input c) (shutdown c) (buffered c ++ b) (flushed c) (flushes_left c).

(** [read_until(b'\n', &mut raw)]: the bytes up to and including the newline, or to
    the end of the stream. *)
Fixpoint take_until_lf (l : list Event) (s : bool) : Res bytes * list Event * bool :=
  match l with
  | [] => (Ok [], [], s)
  | EByte b :: l =>
      if decide (b = LF) then (Ok [b], l, s)
      else
        let '(r, l, s) := take_until_lf l s in
        (match r with Ok raw => Ok (b :: raw) | r => r end, l, s)
  | ETimeout s' :: l => (Err WouldBlock, l, s')
  | EReset :: l => (Err Other, l, s)
  end.

(** [read_exact] of a buffer of [n] bytes. *)
Fixpoint take_exact (n : nat) (l : list Event) (s : bool) : Res bytes * list Event * bool :=
  match n, l with
  | O, _ => (Ok [], l, s)
  | S _, [] => (Err UnexpectedEof, [], s)
  | S n, EByte b :: l =>
      let '(r, l, s) := take_exact n l s in
      (match r with Ok raw => Ok (b :: raw) | r => r end, l, s)
  | S _, ETimeout s' :: l => (Err WouldBlock, l, s')
  | S _, EReset :: l => (Err Other, l, s)
  end.

Definition read_until_lf : M Conn bytes := λ c,
  let '(r, l, s) := take_until_lf (input c) (shutdown c) in (r, set_input c l s).
Definition read_exact (n : nat) : M Conn bytes := λ c,
  let '(r, l, s) := take_exact n (input c) (shutdown c) in (r, set_input c l s).

Definition write_all (b : bytes) : M Conn unit :=
  modify (λ c, mkConn (input c) (shutdown c) (buffered c ++ b) (flushed c) (flushes_left c)).

Definition flush : M Conn unit := λ c,
  match flushes_left c with
  | Some O => (Err Other, c)
  | n => (Ok tt, mkConn (input c) (shutdown c) [] (flushed c ++ buffered c) (pred <$> n))
  end.

(** [is_timeout]: an error the handler loops on. *)
Definition is_timeout (e : ErrorKind) : bool :=
  match e with WouldBlock | TimedOut => true | _ => false end.

(** Allocating [n] bytes: past [isize::MAX] the request panics; past what the
    machine gives ([memory]) the process aborts. *)
Definition alloc {σ} (memory n : Z) : M σ unit := λ s,
  if ISIZE_MAX <? n then (Panic, s) else if memory <? n then (Killed, s) else (Ok tt, s).

(** [loop { body }] with loop variables [a]: the body gives the next ones, or ends the
    function with [Ok(())] ([None]). The result is [false] when the fuel runs out
    before that. *)
Fixpoint loop {σ A} (fuel : nat) (body : A → M σ (option A)) (a : A) : M σ bool :=
  match fuel with
  | O => mret false
  | S fuel =>
      r ← body a;
      match r with
      | Some a => loop fuel body a
      | None => mret true
      end
  end.

(** [match r { Ok(a) => .., Err(e) => .. }] *)
Definition try {σ A} (m : M σ A) : M σ (A + ErrorKind) := λ s,
  match m s with
  | (Ok a, s) => (Ok (inl a), s)
  | (Err e, s) => (Ok (inr e), s)
  | (Panic, s) => (Panic, s)
  | (Killed, s) => (Killed, s)
  end.
Definition fail {σ A} (e : ErrorKind) : M σ A := λ s, (Err e, s).

(** [while matches!(raw.last(), Some(b'\n' | b'\r')) { raw.pop(); }] *)
Definition pop_line_end (raw : bytes) : bytes :=
  drop_while_end (λ b, bool_decide (b = LF ∨ b = CR)) raw.

(** ** Lemmas *)

Lemma written_written c b1 b2 : written (written c b1) b2 = written c (b1 ++ b2).
Proof. unfold written. cbn. by rewrite app_assoc. Qed.
Lemma written_nil c : written c [] = c.
Proof. unfold written. rewrite app_nil_r. by destruct c. Qed.

(** Reading a line that the stream holds whole. *)
Lemma take_until_lf_line raw l s :
  LF ∉ raw → take_until_lf (data (raw ++ [LF]) ++ l) s = (Ok (raw ++ [LF]), l, s).
Proof.
  unfold data. induction raw as [|b raw IH]; intros Hn; cbn; [done|].
  apply not_elem_of_cons in Hn as [Hb Hn]. rewrite decide_False by congruence. by rewrite IH.
Qed.

Lemma take_exact_data raw l s : take_exact (length raw) (data raw ++ l) s = (Ok raw, l, s).
Proof. unfold data. induction raw as [|b raw IH]; cbn; [done|]. by rewrite IH. Qed.

Lemma data_app b1 b2 : data (b1 ++ b2) = data b1 ++ data b2.
Proof. apply map_app. Qed.

Lemma read_until_lf_text raw b out :
  LF ∉ raw → read_until_lf (conn_text (raw ++ LF :: b) out) = (Ok (raw ++ [LF]), conn_text b out).
Proof.
  intros H. unfold read_until_lf, conn_text. cbn [input shutdown].
  rewrite (app_assoc raw [LF] b : raw ++ LF :: b = _), data_app, take_until_lf_line by done. done.
Qed.

Lemma read_exact_text raw b out :
  read_exact (length raw) (conn_text (raw ++ b) out) = (Ok raw, conn_text b out).
Proof. unfold read_exact, conn_text. cbn [input shutdown]. by rewrite data_app, take_exact_data. Qed.

(** Reads never lengthen the input; a read that returns a byte shortens it. *)
Lemma take_until_lf_shorter l s r l' s' :
  take_until_lf l s = (r, l', s') →
  (length l' ≤ length l)%nat ∧ (r ≠ Ok [] → (length l' < length l)%nat).
Proof.
  revert r l' s'; induction l as [|[b|s0|] l IH]; intros r l' s' E; cbn in E.
  - by injection E as <- <- <-.
  - case_decide; [injection E as <- <- <-; cbn; lia|].
    destruct (take_until_lf l s) as [[r0 l0] s0] eqn:E0. destruct (IH _ _ _ eq_refl) as [? _].
    injection E as <- <- <-. cbn. lia.
  - injection E as <- <- <-. cbn. lia.
  - injection E as <- <- <-. cbn. lia.
Qed.

Lemma take_exact_shorter n l s r l' s' :
  take_exact n l s = (r, l', s') → (length l' ≤ length l)%nat.
Proof.
  revert l r l' s'; induction n as [|n IH]; intros l r l' s' E; [by injection E as <- <- <-|].
  destruct l as [|[b|s0|] l]; cbn in E; try (injection E as <- <- <-; cbn; lia).
  destruct (take_exact n l s) as [[r0 l0] s0] eqn:E0. apply IH in E0. injection E as <- <- <-. cbn. lia.
Qed.

Lemma pop_line_end_lf b : last b ≠ Some LF → last b ≠ Some CR → pop_line_end (b ++ [LF]) = b.
Proof.
  intros H1 H2. unfold pop_line_end, drop_while_end. rewrite rev_app_distr. cbn [rev app drop_while].
  rewrite bool_decide_true by auto. rewrite <- (rev_involutive b) in H1, H2 |- * at 2.
  destruct (rev b) as [|x l] eqn:E; [done|]. cbn [drop_while rev] in *. rewrite last_snoc in H1, H2.
  rewrite bool_decide_false; [done|]. intros [->| ->]; done.
Qed.

Lemma pop_line_end_crlf b : last b ≠ Some LF → last b ≠ Some CR → pop_line_end (b ++ CRLF) = b.
Proof.
  intros H1 H2. rewrite <- (pop_line_end_lf b H1 H2) at 2. unfold pop_line_end, drop_while_end, CRLF.
  rewrite !rev_app_distr. cbn [rev app drop_while]. by rewrite !bool_decide_true by auto.
Qed.

(** ** Progress: every loop of a handler consumes its input *)

Section Progress.
Context {σ A : Type} (measure : σ → nat) (body : A → M σ (option A)).

(** An iteration that goes on has consumed something. *)
Definition consumes : Prop :=
  ∀ a s a' s', body a s = (Ok (Some a'), s') → (measure s' < measure s)%nat.

Lemma loop_ends : consumes → ∀ fuel a s s', (measure s < fuel)%nat → loop fuel body a s ≠ (Ok false, s').
Proof.
  intros Hb fuel; induction fuel as [|fuel IH]; intros a s s' Hf; [lia|]. cbn [loop]. rewrite run_bind.
  destruct (body a s) as [[[a'|]| | |] s1] eqn:E; try done. apply Hb in E. apply IH. lia.
Qed.

(** More fuel than the input changes nothing. *)
Lemma loop_fuel : consumes → ∀ f1 f2 a s, (measure s < f1)%nat → (measure s < f2)%nat →
  loop f1 body a s = loop f2 body a s.
Proof.
  intros Hb f1; induction f1 as [|f1 IH]; intros [|f2] a s H1 H2; try lia. cbn [loop]. rewrite !run_bind.
  destruct (body a s) as [[[a'|]| | |] s1] eqn:E; try done. apply Hb in E. apply IH; lia.
Qed.
End Progress.

(** A computation on a connection that never gives input back. *)
Definition ungrowing {A} (m : M Conn A) : Prop :=
  ∀ c, (length (input (m c).2) ≤ length (input c))%nat.

Lemma ungrowing_bind {A B} (m : M Conn A) (k : A → M Conn B) :
  ungrowing m → (∀ a, ungrowing (k a)) → ungrowing (m ≫= k).
Proof.
  intros Hm Hk c. rewrite run_bind. specialize (Hm c). destruct (m c) as [[a| | |] c1]; cbn in *; [|done..].
  specialize (Hk a c1). lia.
Qed.

Lemma ungrowing_ret {A} (a : A) : ungrowing (mret a).
Proof. by intros c. Qed.
Lemma ungrowing_fail {A} e : ungrowing (fail (A := A) e).
Proof. by intros c. Qed.
Lemma ungrowing_alloc memory n : ungrowing (alloc memory n).
Proof. intros c. unfold alloc. repeat case_match; done. Qed.
Lemma ungrowing_read_until_lf : ungrowing read_until_lf.
Proof.
  intros c. unfold read_until_lf. destruct (take_until_lf _ _) as [[r l] s] eqn:E.
  by apply take_until_lf_shorter in E as [? _].
Qed.
Lemma ungrowing_read_exact n : ungrowing (read_exact n).
Proof.
  intros c. unfold read_exact. destruct (take_exact _ _ _) as [[r l] s] eqn:E.
  by apply take_exact_shorter in E.
Qed.
#[export] Hint Resolve ungrowing_bind ungrowing_ret ungrowing_fail ungrowing_alloc
  ungrowing_read_until_lf ungrowing_read_exact : ob.

(** A read of a line followed by anything, unless it was the end of the stream. *)
Lemma read_line_progress {A} (k : bytes → M Conn A) c r c' :
  (∀ raw, ungrowing (k raw)) → (read_until_lf ≫= k) c = (r, c') →
  (length (input c') < length (input c))%nat ∨ ∃ c1, input c1 = input c ∧ k [] c1 = (r, c').
Proof.
  intros Hk. rewrite run_bind. unfold read_until_lf.
  destruct (take_until_lf _ _) as [[r0 l] s] eqn:E. pose proof (take_until_lf_shorter _ _ _ _ _ E) as [Hle Hlt].
  destruct r0 as [[|x raw]|e| |]; intros E'.
  - destruct (decide (length l < length (input c))%nat) as [Hl|Hl].
    + left. pose proof (Hk [] (set_input c l s)) as H. rewrite E' in H. cbn in H. lia.
    + right. exists (set_input c l s). split; [|done]. cbn.
      destruct (input c) as [|[b|s0|] i]; cbn in E.
      * by injection E.
      * case_decide; [done|]. by destruct (take_until_lf i _) as [[[]] ?].
      * done.
      * done.
  - left. specialize (Hlt ltac:(done)). pose proof (Hk (x :: raw) (set_input c l s)) as H.
    rewrite E' in H. cbn in H. lia.
  - left. injection E' as <- <-. cbn. by apply Hlt.
  - left. injection E' as <- <-. cbn. by apply Hlt.
  - left. injection E' as <- <-. cbn. by apply Hlt.
Qed.

Lemma map_read_progress {A B} (f : bytes → B) (k : B → M Conn A) c r c' :
  (∀ b, ungrowing (k b)) → ((raw ← read_until_lf; mret (f raw)) ≫= k) c = (r, c') →
  (length (input c') < length (input c))%nat ∨ ∃ c1, input c1 = input c ∧ k (f []) c1 = (r, c').
Proof.
  intros Hk E. apply (read_line_progress (λ raw, k (f raw))); [by intros raw|].
  rewrite <- E, !run_bind. by destruct (read_until_lf c) as [[| | |] ?].
Qed.

(** A line reader that gives [None] only at the end of the stream. *)
Lemma line_read_progress {B} (f : bytes → option B) c r c' :
  f [] = None → (raw ← read_until_lf; mret (f raw)) c = (r, c') → r ≠ Ok None →
  (length (input c') < length (input c))%nat.
Proof.
  intros Hf E Hr. apply read_line_progress in E as [?|(c1 & _ & E)]; [done| |auto with ob].
  rewrite Hf in E. injection E as <- _. done.
Qed.
