(* ===== verification/Service.v ===== *)
(** * Service: the single executor and its clients ([crates/onebarrier/src/server.rs])

    [KvService] is what a protocol handler needs of the service: [apply] and [len],
    [None] when the executor is gone. Handlers are written against this interface;
    the executor thread that owns the engine implements it. *)

From S2P Require Import Prelude Bytes Text Io State Durable Engine EngineFacts Lifetimes Net.
Local Open Scope Z_scope.

Class KvService (σ : Type) := {
  svc_apply : Op → σ → option Output * σ;
  svc_len : σ → option Z * σ;
}.

(** ** The executor thread *)

Section Executor.
Context (am : arith_mode) {Timestamp : Type} (as_nanos : Timestamp → Z) (from_nanos : Z → Timestamp).
#[local] Hint Extern 0 (StateMachine _) => exact (KvStore_StateMachine am) : typeclass_instances.

(** [ex_engine] is [None] once the thread has ended; [ex_tick] is the process-wide
    [GLOBAL_TICK]. *)
Record Executor := mkExecutor {
  ex_engine : option (Engine KvStore);
  ex_clock : Z;
  ex_tick : Z;
  ex_world : World;
}.

(** Opening the store: the executor with its clock, and [max_client]. An error or a
    panic ends the thread, and the caller reads 0. *)
Definition service_start (interval : Z) (fs : bool) (tick : Z) (w : World) : Executor * Z :=
  match boot interval fs w with
  | (Ok e, w) =>
      match usize_arith am (last_ts e + 1) with
      | Some clock => (mkExecutor (Some e) clock tick w, max_client e)
      | None => (mkExecutor None 0 tick w, max_client e)
      end
  | (_, w) => (mkExecutor None 0 tick w, 0)
  end.

(** [Req::Apply]: the tick is taken also when [deliver] fails. *)
Definition exec_apply (op : Op) (x : Executor) : option Output * Executor :=
  match ex_engine x with
  | None => (None, x)
  | Some e =>
      match usize_arith am (ex_clock x + 1) with
      | None => (None, mkExecutor None (ex_clock x) (ex_tick x) (ex_world x))
      | Some clock =>
          let g := ex_tick x in
          let tick := (g + 1) mod 2 ^ 64 in
          let ts := from_nanos (Z.max clock g) in
          match deliver as_nanos ts op (e, ex_world x) with
          | (Ok out, (e, w)) => (Some out, mkExecutor (Some e) clock tick w)
          | (_, (_, w)) => (None, mkExecutor None clock tick w)
          end
      end
  end.

(** [Req::Len] *)
Definition exec_len (x : Executor) : option Z * Executor :=
  match ex_engine x with
  | None => (None, x)
  | Some e => (Some (kv_len (state e)), x)
  end.

#[export] Instance Executor_service : KvService Executor := {|
  svc_apply := exec_apply;
  svc_len := exec_len;
|}.
End Executor.

(** ** Connection ids *)

(** [AtomicU32::new(max_client + 1)]; [None]: the addition overflows and panics. *)
Definition first_conn_id (am : arith_mode) (max_client : Z) : option Z :=
  if max_client + 1 <=? U32_MAX then Some (max_client + 1)
  else match am with Checked => None | Wrapping => Some 0 end.

(** [conn_id.fetch_add(1)] for the [k]-th connection. *)
Definition conn_id (first : Z) (k : Z) : Z := (first + k) mod 2 ^ 32.

(** ** Handlers run on a connection and the service *)

Section Lift.
Context {σ : Type} `{!KvService σ}.

Definition on_conn {A} (m : M Conn A) : M (Conn * σ) A := zoom fst (λ c s, (c, s.2)) m.
Definition apply (op : Op) : M (Conn * σ) (option Output) := λ s,
  let '(o, t) := svc_apply op s.2 in (Ok o, (s.1, t)).
Definition service_len : M (Conn * σ) (option Z) := λ s,
  let '(o, t) := svc_len s.2 in (Ok o, (s.1, t)).
Definition write (b : bytes) : M (Conn * σ) unit := on_conn (write_all b).
Definition flush_writer : M (Conn * σ) unit := on_conn flush.
Definition get_shutdown : M (Conn * σ) bool := λ s, (Ok (shutdown s.1), s).
End Lift.

(** ** The clients of one connection *)

(** A service that answers from a script and records what it is asked: whatever the
    other connections do, a handler sees some sequence of answers. *)
Record Script := mkScript { answers : list (option Output); lens : list (option Z); asked : list Op }.

#[export] Instance Script_service : KvService Script := {|
  svc_apply op s :=
    match answers s with
    | [] => (None, mkScript [] (lens s) (asked s ++ [op]))
    | o :: l => (o, mkScript l (lens s) (asked s ++ [op]))
    end;
  svc_len s :=
    match lens s with
    | [] => (None, s)
    | n :: l => (n, mkScript (answers s) l (asked s))
    end;
|}.

(** ** Lemmas *)

Lemma max_client_spec {S} (e : Engine S) c s : applied e !! c = Some s → c <= max_client e.
Proof.
  intros H%elem_of_btree_iter. unfold max_client.
  assert (Hc : c ∈ (btree_iter (applied e)).*1) by (apply list_elem_of_fmap; by exists (c, s)).
  clear H. destruct (btree_iter (applied e)).*1 as [|c0 cs]; [by apply elem_of_nil in Hc|].
  assert (Hmono : ∀ l a, a <= fold_left Z.max l a ∧ ∀ x, x ∈ l → x <= fold_left Z.max l a).
  { induction l as [|y l IH]; intros a; cbn; [split; [lia|by intros x ?%elem_of_nil]|].
    destruct (IH (Z.max a y)) as [H1 H2]. split; [lia|].
    intros x [->|Hx]%elem_of_cons; [lia|by apply H2]. }
  destruct (Hmono cs c0) as [H1 H2]. apply elem_of_cons in Hc as [->|Hc]; [done|by apply H2].
Qed.

(** A handler's step that reads nothing. *)
Section Quiet.
Context {σ : Type} `{!KvService σ}.

Definition quiet {A} (m : M (Conn * σ) A) : Prop := ∀ s, input (m s).2.1 = input s.1.

Lemma quiet_bind {A B} (m : M (Conn * σ) A) (k : A → M (Conn * σ) B) :
  quiet m → (∀ a, quiet (k a)) → quiet (m ≫= k).
Proof.
  intros Hm Hk s. rewrite run_bind. specialize (Hm s). destruct (m s) as [[a| | |] s1]; cbn in *; [|done..].
  rewrite (Hk a s1). done.
Qed.
Lemma quiet_ret {A} (a : A) : quiet (mret a).
Proof. by intros s. Qed.
Lemma quiet_fail {A} e : quiet (fail (A := A) e).
Proof. by intros s. Qed.
Lemma quiet_unwrap {A} (o : option A) : quiet (unwrap o).
Proof. intros s. by destruct o. Qed.
Lemma quiet_apply op : quiet (apply op).
Proof. intros s. unfold apply. by destruct (svc_apply op s.2). Qed.
Lemma quiet_len : quiet service_len.
Proof. intros s. unfold service_len. by destruct (svc_len s.2). Qed.
Lemma quiet_write b : quiet (write b).
Proof. by intros s. Qed.
Lemma quiet_flush : quiet flush_writer.
Proof. intros s. unfold flush_writer, on_conn, zoom, flush. by destruct (flushes_left s.1) as [[]|]. Qed.
Lemma quiet_shutdown : quiet get_shutdown.
Proof. by intros s. Qed.
End Quiet.

#[export] Hint Resolve quiet_bind quiet_ret quiet_fail quiet_unwrap quiet_apply quiet_len quiet_write
  quiet_flush quiet_shutdown : ob.

(** Split a handler into its reads and writes. *)
Ltac quiet_auto :=
  repeat first
    [ progress cbv zeta
    | match goal with |- forall _, _ => intro end
    | apply quiet_bind
    | match goal with |- quiet (match ?t with _ => _ end) => destruct t end
    | solve [eauto with ob] ].

(** A handler's step that never gives input back. *)
Definition ungrows {σ A} (m : M (Conn * σ) A) : Prop :=
  ∀ s, (length (input (m s).2.1) ≤ length (input s.1))%nat.

Lemma quiet_ungrows {σ A} (m : M (Conn * σ) A) : quiet m → ungrows m.
Proof. intros H s. by rewrite H. Qed.
Lemma ungrows_bind {σ A B} (m : M (Conn * σ) A) (k : A → M (Conn * σ) B) :
  ungrows m → (∀ a, ungrows (k a)) → ungrows (m ≫= k).
Proof.
  intros Hm Hk s. rewrite run_bind. specialize (Hm s). destruct (m s) as [[a| | |] s1]; cbn in *; [|done..].
  specialize (Hk a s1). lia.
Qed.
Lemma ungrows_on_conn {σ A} (m : M Conn A) : ungrowing m → ungrows (σ := σ) (on_conn m).
Proof. intros H s. specialize (H s.1). unfold on_conn, zoom. by destruct (m s.1). Qed.

(** A loop that reads, then handles what it read. *)
Lemma read_step_consumes {σ A R} (rd : M Conn (option R))
    (k : A → option R + ErrorKind → M (Conn * σ) (option A)) :
  (∀ c r c', rd c = (r, c') → r ≠ Ok None → (length (input c') < length (input c))%nat) →
  (∀ a r, ungrows (k a r)) → (∀ a s a' s', k a (inl None) s ≠ (Ok (Some a'), s')) →
  consumes (λ s : Conn * σ, length (input s.1)) (λ a, r ← try (on_conn rd); k a r).
Proof.
  intros Hrd Hk Hn a s a' s' E. rewrite run_bind in E. unfold try, on_conn, zoom in E.
  destruct (rd s.1) as [r c] eqn:Er. pose proof (Hrd _ _ _ Er) as Hp.
  assert (Hq : ∀ x, k a x (c, s.2) = (Ok (Some a'), s') → (length (input s'.1) ≤ length (input c))%nat).
  { intros x Ex. pose proof (Hk a x (c, s.2)) as H. by rewrite Ex in H. }
  destruct r as [[line|]|e| |]; cbn [fst] in E; try done.
  - specialize (Hq _ E). specialize (Hp ltac:(done)). lia.
  - by apply Hn in E.
  - specialize (Hq _ E). specialize (Hp ltac:(done)). lia.
Qed.

(** ** What a handler asks of the service *)

Definition res_ok {A} (r : Res A) : option A := match r with Ok a => Some a | _ => None end.

(** Running [m] asks operations [l] and ends with [r] ([None]: not normally) such
    that [Q r l], whatever the input and the answers are. *)
Definition asks {A} (m : M (Conn * Script) A) (Q : option A → list Op → Prop) : Prop :=
  ∀ s, ∃ l, asked (m s).2.2 = asked s.2 ++ l ∧ Q (res_ok (m s).1) l.

(** A computation that asks nothing. *)
Definition silent {A} (m : M (Conn * Script) A) : Prop := ∀ s, (m s).2.2 = s.2.

Lemma asks_impl {A} (m : M (Conn * Script) A) (Q Q' : option A → list Op → Prop) :
  asks m Q → (∀ r l, Q r l → Q' r l) → asks m Q'.
Proof. intros H HQ s. destruct (H s) as (l & ? & ?). eauto. Qed.

Lemma asks_bind {A B} (m : M (Conn * Script) A) (k : A → M (Conn * Script) B) Qm Q :
  asks m Qm → (∀ l, Qm None l → Q None l) →
  (∀ a l, Qm (Some a) l → asks (k a) (λ r l', Q r (l ++ l'))) → asks (m ≫= k) Q.
Proof.
  intros Hm Hn Hk s. rewrite run_bind. destruct (Hm s) as (l & E & HQ).
  destruct (m s) as [[a| | |] s1]; cbn in *; [|eauto..].
  destruct (Hk a l HQ s1) as (l' & E' & HQ'). exists (l ++ l'). rewrite E', E, app_assoc. done.
Qed.

Lemma asks_silent {A} (m : M (Conn * Script) A) (Q : option A → list Op → Prop) :
  silent m → (∀ r, Q r []) → asks m Q.
Proof. intros Hm HQ s. exists []. rewrite Hm, app_nil_r. auto. Qed.

Lemma asks_ret {A} (a : A) (Q : option A → list Op → Prop) : Q (Some a) [] → asks (mret a) Q.
Proof. intros HQ s. exists []. by rewrite app_nil_r. Qed.

Lemma asks_fail {A} e (Q : option A → list Op → Prop) : Q None [] → asks (fail e) Q.
Proof. intros HQ s. exists []. by rewrite app_nil_r. Qed.

Lemma asks_bind_silent {A B} (m : M (Conn * Script) A) (k : A → M (Conn * Script) B) Q :
  silent m → Q None [] → (∀ a, asks (k a) Q) → asks (m ≫= k) Q.
Proof.
  intros Hm Hn Hk. eapply (asks_bind _ _ (λ r l, l = [])).
  - by apply asks_silent.
  - by intros l ->.
  - intros a l ->. apply Hk.
Qed.

Lemma asks_bind_apply {B} op (k : option Output → M (Conn * Script) B) Q :
  (∀ o, asks (k o) (λ r l, Q r (op :: l))) → asks (apply op ≫= k) Q.
Proof.
  intros Hk s. rewrite run_bind. unfold apply.
  destruct (svc_apply op s.2) as [o t] eqn:E. destruct (Hk o (s.1, t)) as (l & E' & HQ).
  exists (op :: l). split; [|done]. rewrite E'. cbn in E. cbn.
  destruct (answers s.2); injection E as _ <-; cbn; by rewrite <- app_assoc.
Qed.

Lemma silent_on_conn {A} (m : M Conn A) : silent (on_conn m).
Proof. intros s. unfold on_conn, zoom. by destruct (m s.1). Qed.
Lemma silent_try {A} (m : M (Conn * Script) A) : silent m → silent (try m).
Proof. intros Hm s. specialize (Hm s). unfold try. by destruct (m s) as [[| | |] ?]. Qed.
Lemma silent_write b : silent (write b).
Proof. by intros s. Qed.
Lemma silent_flush : silent flush_writer.
Proof. apply silent_on_conn. Qed.
Lemma silent_shutdown : silent get_shutdown.
Proof. by intros s. Qed.
Lemma silent_unwrap {A} (o : option A) : silent (unwrap o).
Proof. intros s. by destruct o. Qed.
#[export] Hint Resolve silent_on_conn silent_try silent_write silent_flush silent_shutdown silent_unwrap : ob.

(** The operations of client [c] numbered upwards from [a], at most [b]. *)
Definition numbered (c a b : Z) (l : list Op) : Prop :=
  a <= b ∧ Forall (λ op, op_client op = c ∧ a < op_seq op <= b) l ∧
  StronglySorted (λ x y, op_seq x < op_seq y) l.

Lemma numbered_nil c a b : a <= b → numbered c a b [].
Proof. intros H. split_and!; [done|constructor..]. Qed.

Lemma numbered_app c a b b' l l' : numbered c a b l → numbered c b b' l' → numbered c a b' (l ++ l').
Proof.
  intros (H1 & HF & HS) (H2 & HF' & HS'). split_and!; [lia| |].
  - apply Forall_app. split; [eapply Forall_impl; [exact HF|]|eapply Forall_impl; [exact HF'|]];
      cbn; intros op (? & ?); split; (done || lia).
  - apply StronglySorted_app_2; [|done..]. intros x y Hx Hy.
    rewrite Forall_forall in HF, HF'. apply HF in Hx as [_ ?]. apply HF' in Hy as [_ ?]. lia.
Qed.

Lemma numbered_one op c a : op_client op = c → op_seq op = a + 1 → numbered c a (a + 1) [op].
Proof.
  intros <- E. split; [lia|]. split; constructor; [split; [done|lia]|constructor|constructor|constructor].
Qed.

Lemma numbered_cons op c a b l :
  op_client op = c → op_seq op = a + 1 → numbered c (a + 1) b l → numbered c a b (op :: l).
Proof. intros Hc Hs Hl. apply (numbered_app c a (a + 1) b [op] l); [by apply numbered_one|done]. Qed.

Lemma numbered_weaken c a a' b b' l : numbered c a b l → a' <= a → b <= b' → numbered c a' b' l.
Proof.
  intros (? & HF & HS) ? ?. split; [lia|]. split; [|done].
  eapply Forall_impl; [exact HF|]. cbn. intros op [? ?]. split; [done|lia].
Qed.

(** A computation that returns the last number it used. *)
Definition seq_numbers (client seq : Z) (m : M (Conn * Script) Z) : Prop :=
  asks m (λ r l,
    match r with
    | Some seq' => numbered client seq seq' l
    | None => ∃ b, numbered client seq b l
    end).

Lemma seq_numbers_ret client seq seq' : seq <= seq' → seq_numbers client seq (mret seq').
Proof. intros H. apply asks_ret. by apply numbered_nil. Qed.

Lemma seq_numbers_silent {A} client seq (m : M (Conn * Script) A) k :
  silent m → (∀ a, seq_numbers client seq (k a)) → seq_numbers client seq (m ≫= k).
Proof. intros Hm Hk. apply asks_bind_silent; [done| |done]. exists seq. by apply numbered_nil. Qed.

Lemma seq_numbers_apply client seq op k :
  op_client op = client → op_seq op = seq + 1 →
  (∀ o, seq_numbers client (seq + 1) (k o)) → seq_numbers client seq (apply op ≫= k).
Proof.
  intros Hc Hs Hk. apply asks_bind_apply. intros o. eapply asks_impl; [apply Hk|]. cbn.
  intros [seq'|] l Hl; [by apply numbered_cons|]. destruct Hl as [b Hl]. exists b. by apply numbered_cons.
Qed.

Lemma seq_numbers_bind client seq (m : M (Conn * Script) Z) k :
  seq_numbers client seq m → (∀ seq', seq_numbers client seq' (k seq')) →
  seq_numbers client seq (m ≫= k).
Proof.
  intros Hm Hk. eapply asks_bind; [exact Hm|cbn; eauto|]. intros seq' l Hl. cbn in Hl.
  eapply asks_impl; [apply Hk|]. cbn. intros [s|] l' Hl'; [by eapply numbered_app|].
  destruct Hl' as [b Hl']. exists b. by eapply numbered_app.
Qed.

(** What one iteration of a handler's loop may ask, [num] reading the number off the
    loop variables. *)
Definition step_numbers {A} (num : A → Z) (c : Z) (step : A → M (Conn * Script) (option A)) : Prop :=
  ∀ a, asks (step a) (λ r l,
    match r with
    | Some (Some a') => numbered c (num a) (num a') l
    | _ => ∃ b, numbered c (num a) b l
    end).

Lemma loop_numbers {A} (num : A → Z) c step fuel a :
  step_numbers num c step → asks (loop fuel step a) (λ _ l, ∃ b, numbered c (num a) b l).
Proof.
  intros Hs; revert a; induction fuel as [|fuel IH]; intros a; cbn [loop].
  - apply asks_ret. exists (num a). by apply numbered_nil.
  - eapply asks_bind; [apply Hs|done|]. intros [a'|] l Hl.
    + eapply asks_impl; [apply IH|]. cbn. intros r l' (b & Hl'). exists b. by eapply numbered_app.
    + apply asks_ret. by rewrite app_nil_r.
Qed.

(** A connection that loops until its input is used up: it ends, and its operations
    are numbered. *)
Lemma serve_numbers {A} (num : A → Z) c (step : A → M (Conn * Script) (option A)) a conn svc :
  step_numbers num c step → consumes (λ s : Conn * Script, length (input s.1)) step →
  ∃ r conn' svc' l b, loop (S (length (input conn))) step a (conn, svc) = (r, (conn', svc')) ∧
    r ≠ Ok false ∧ asked svc' = asked svc ++ l ∧ numbered c (num a) b l.
Proof.
  intros Hs Hc.
  pose proof (loop_numbers num c step (S (length (input conn))) a Hs (conn, svc)) as (l & E & b & Hl).
  pose proof (loop_ends _ step Hc (S (length (input conn))) a (conn, svc)) as He.
  destruct (loop _ _ _ _) as [r [conn' svc']].
  exists r, conn', svc', l, b. split_and!; try done. intros ->. by apply (He (conn', svc') ltac:(cbn; lia)).
Qed.

(** The error arm every line protocol shares. *)
Definition on_read_error {σ A} (a : A) (e : ErrorKind) : M (Conn * σ) (option A) :=
  if is_timeout e then
    stop ← get_shutdown;
    mret (if stop : bool then None else Some a)
  else if bool_decide (e = UnexpectedEof) then mret None
  else fail e.

Lemma quiet_read_error {σ A} (a : A) e : quiet (σ := σ) (on_read_error a e).
Proof. unfold on_read_error. quiet_auto. Qed.

Lemma read_error_numbers {A} (num : A → Z) c a e :
  asks (on_read_error a e) (λ r l,
    match r with
    | Some (Some a') => numbered c (num a) (num a') l
    | _ => ∃ b, numbered c (num a) b l
    end).
Proof.
  assert (Hnil : numbered c (num a) (num a) []) by by apply numbered_nil.
  unfold on_read_error. case_match; [|case_match; [apply asks_ret; eauto|apply asks_fail; eauto]].
  apply asks_bind_silent; [apply silent_shutdown|eauto|]. intros []; apply asks_ret; eauto.
Qed.
#[export] Hint Resolve quiet_read_error : ob.
