(* ===== verification/Serving.v ===== *)
(** * Serving: the executor between two requests

    What a front-end relies on when no system call fails: the executor runs, holds a
    map, answers a new operation with the output of the store and a repeated number
    with [Suppressed]. *)

From S2P Require Import Prelude Bytes Text Io State Durable Engine EngineFacts CrashSafety Lifetimes Cadence Net Service.
Local Open Scope Z_scope.

Abbreviation Map := (gmap bytes bytes).

Section Serving.
Context {Timestamp : Type} (as_nanos : Timestamp → Z) (from_nanos : Z → Timestamp).
#[local] Hint Extern 0 (StateMachine _) => exact (KvStore_StateMachine Wrapping) : typeclass_instances.
#[local] Hint Extern 0 (KvService Executor) => exact (Executor_service Wrapping as_nanos from_nanos) : typeclass_instances.
Implicit Types (m : Map) (x : Executor).

(** The executor runs, holds [m], and has applied nothing of client [c] past [seq];
    it can stamp [n] more operations. *)
Record Serving x m (c seq n : Z) : Prop := {
  sv_engine : ∃ e d, ex_engine x = Some e ∧ ex_world x = calm d ∧ kv_map (state e) = m ∧
                     hw (applied e) c <= seq;
  sv_clock : 0 <= ex_clock x ∧ ex_clock x + n <= U64_MAX;
}.

Lemma Serving_weaken x m c seq seq' n n' :
  Serving x m c seq n → seq <= seq' → n' <= n → Serving x m c seq' n'.
Proof.
  intros [(e & d & ? & ? & ? & ?) [? ?]] ? ?. split; [|lia]. exists e, d. split_and!; [done..|lia].
Qed.

(** A new operation is applied and answered; only its client's mark moves. *)
Lemma exec_apply_calm x e d op out s' :
  ex_engine x = Some e → ex_world x = calm d →
  hw (applied e) (op_client op) < op_seq op → kv_apply Wrapping (state e) op = Some (s', out) →
  ∃ x' e' d', exec_apply Wrapping as_nanos from_nanos op x = (Some out, x') ∧
    ex_engine x' = Some e' ∧ ex_world x' = calm d' ∧ ex_clock x' = (ex_clock x + 1) mod 2 ^ 64 ∧
    state e' = s' ∧ applied e' = <[op_client op := op_seq op]> (applied e).
Proof.
  intros Ee Ew Hseq Happ. unfold exec_apply. rewrite Ee, Ew, usize_arith_wrapping.
  set (ts := from_nanos _).
  assert (Hst : step_out (image e) (as_nanos ts, op) =
    Some (mkImage s' (<[op_client op := op_seq op]> (applied e))
      (if last_ts e <? as_nanos ts then as_nanos ts else last_ts e), Some out)).
  { unfold step_out, covered. cbn [snd im_hw image]. rewrite (proj2 (Z.leb_gt _ _)) by lia.
    change (sm_apply (im_state (image e)) op) with (kv_apply Wrapping (state e) op).
    rewrite Happ. done. }
  destruct (deliver_calm as_nanos e d ts op _ _ Hst) as (e' & d' & -> & Him).
  injection Him as Hs' Ha' _. eexists _, e', d'. split; [reflexivity|]. done.
Qed.

Lemma exec_apply_new x m c seq n op out m' :
  Serving x m c seq n → 1 <= n → op_client op = c → seq < op_seq op →
  kv_apply Wrapping (mkKv m) op = Some (mkKv m', out) →
  ∃ x', exec_apply Wrapping as_nanos from_nanos op x = (Some out, x') ∧
    Serving x' m' c (op_seq op) (n - 1) ∧
    ∃ e, ex_engine x' = Some e ∧ hw (applied e) c = op_seq op.
Proof.
  intros [(e & d & Ee & Ew & Em & Hh) [Hc0 Hcn]] Hn Hcl Hseq Happ. rewrite <- Hcl in Hh.
  assert (Hs : state e = mkKv m) by (destruct (state e); cbn in Em; by subst). rewrite <- Hs in Happ.
  destruct (exec_apply_calm x e d op out (mkKv m') Ee Ew ltac:(lia) Happ)
    as (x' & e' & d' & E & Ee' & Ew' & Ec' & Hs' & Ha').
  assert (Hw : hw (applied e') c = op_seq op) by by rewrite Ha', hw_insert, decide_True.
  exists x'. split; [done|]. split; [|eauto]. split; [|rewrite Ec', Z.mod_small by width_lia; lia].
  exists e', d'. split_and!; [done|done|by rewrite Hs'|lia].
Qed.

(** An operation with a number already used is answered [Suppressed]. *)
Lemma exec_apply_covered x e d op :
  ex_engine x = Some e → ex_world x = calm d → op_seq op <= hw (applied e) (op_client op) →
  ∃ x', exec_apply Wrapping as_nanos from_nanos op x = (Some OutSuppressed, x') ∧
    ex_engine x' = Some (count_suppressed e) ∧ ex_world x' = calm d.
Proof.
  intros Ee Ew Hc. unfold exec_apply. rewrite Ee, Ew, usize_arith_wrapping.
  rewrite deliver_covered by (unfold covered; by apply Z.leb_le). by eexists.
Qed.

Lemma exec_apply_dup x m c seq n op :
  Serving x m c seq n → 1 <= n → op_client op = c →
  (∃ e, ex_engine x = Some e ∧ op_seq op <= hw (applied e) c) →
  ∃ x', exec_apply Wrapping as_nanos from_nanos op x = (Some OutSuppressed, x') ∧
    Serving x' m c seq (n - 1) ∧ ∃ e, ex_engine x' = Some e ∧ op_seq op <= hw (applied e) c.
Proof.
  intros [(e & d & Ee & Ew & Em & Hh) [Hc0 Hcn]] Hn Hcl (e0 & Ee0 & Hle). unfold exec_apply.
  rewrite Ee0 in Ee. injection Ee as ->. rewrite Ee0, Ew.
  unfold usize_arith. rewrite bool_decide_true by width_lia.
  rewrite deliver_covered by (unfold covered; rewrite Hcl; by apply Z.leb_le).
  eexists. split; [reflexivity|]. split.
  - split; [|cbn; lia]. by exists (count_suppressed e), d.
  - by exists (count_suppressed e).
Qed.

Lemma run_apply op conn x o x' :
  exec_apply Wrapping as_nanos from_nanos op x = (o, x') →
  apply (σ := Executor) op (conn, x) = (Ok o, (conn, x')).
Proof. intros E. unfold apply. cbn. by rewrite E. Qed.

(** A new operation, as a handler sees it. *)
Lemma apply_new x m c seq n op out m' conn :
  Serving x m c seq n → 1 <= n → op_client op = c → op_seq op = seq + 1 →
  kv_apply Wrapping (mkKv m) op = Some (mkKv m', out) →
  ∃ x', apply (σ := Executor) op (conn, x) = (Ok (Some out), (conn, x')) ∧
    Serving x' m' c (seq + 1) (n - 1).
Proof.
  intros HS Hn Hc Hs Ha.
  destruct (exec_apply_new x m c seq n op out m' HS Hn Hc ltac:(lia) Ha) as (x' & E & HS' & _).
  rewrite Hs in HS'. exists x'. split; [by apply run_apply|done].
Qed.

Lemma kv_incr_wrapping m c seq k d :
  let next := i64_wrap (default 0 (m !! k ≫= parse_trimmed) + d) in
  kv_apply Wrapping (mkKv m) (op_incr c seq k d) =
    Some (mkKv (<[k := to_string next]> m), OutValue (Some next)).
Proof.
  intros next. unfold kv_apply. cbn [op_kind op_incr]. by rewrite i64_arith_wrapping.
Qed.

(** A fresh store serves any client: nothing of it is applied yet. *)
Lemma Serving_start interval fs tick c n :
  0 <= n → 1 + n <= U64_MAX →
  Serving (service_start Wrapping interval fs tick (calm ∅)).1 ∅ c 0 n.
Proof.
  intros H1 H2. assert (E : (service_start Wrapping interval fs tick (calm ∅)).1 =
    mkExecutor (Some (fresh (mkDurable fs false) interval)) 1 tick (calm ∅)) by reflexivity.
  rewrite E. split; [|cbn; lia]. eexists _, _. split_and!; [reflexivity|reflexivity|done|done].
Qed.
End Serving.
