(* ===== verification/Server.v ===== *)
(** * Server: connections that share one executor ([crates/onebarrier/src/server.rs])

    [start]: the executor is opened, connection ids start above every client of the
    recovered store, the accept loop gives each accepted stream the next id and a
    handler thread. The handlers' requests reach the executor one at a time, in some
    order. *)

From S2P Require Import Prelude Bytes Text Io State Durable Engine EngineFacts CrashSafety Lifetimes Cadence KvRecovery Typing Workload Net Service Serving.
Local Open Scope Z_scope.

(** What [listener.incoming()] gives: a stream, nothing yet, or another error. *)
Inductive Incoming := InStream (c : Conn) | InWouldBlock | InError.

(** The accept loop: every item with the value of the shutdown flag at that point. The
    result is the handler threads it starts, each with its id. *)
Fixpoint accept_loop (next : Z) (evs : list (bool * Incoming)) : list (Z * Conn) :=
  match evs with
  | [] => []
  | (stop, ev) :: evs =>
      if stop : bool then []
      else
        match ev with
        | InStream c => (next, c) :: accept_loop ((next + 1) mod 2 ^ 32) evs
        | InWouldBlock => accept_loop next evs
        | InError => []
        end
  end.

Record Server := mkServer { srv_exec : Executor; srv_conns : list (Z * Conn) }.

(** [None]: computing the first id overflows and panics. *)
Definition server_start (am : arith_mode) (interval : Z) (fs : bool) (tick : Z) (w : World)
    (evs : list (bool * Incoming)) : option Server :=
  let '(x, max_client) := service_start am interval fs tick w in
  first ← first_conn_id am max_client;
  Some (mkServer x (accept_loop first evs)).

Section Requests.
Context (am : arith_mode) {Timestamp : Type} (as_nanos : Timestamp → Z) (from_nanos : Z → Timestamp).

(** The executor's loop over a sequence of requests. *)
Fixpoint exec_all (ops : list Op) (x : Executor) : list (option Output) * Executor :=
  match ops with
  | [] => ([], x)
  | op :: ops =>
      let '(o, x) := exec_apply am as_nanos from_nanos op x in
      let '(os, x) := exec_all ops x in (o :: os, x)
  end.
End Requests.

(** ** Specification *)

(** The same requests on a plain store: every one applied once. *)
Fixpoint kv_run (s : KvStore) (ops : list Op) : list (option Output) * KvStore :=
  match ops with
  | [] => ([], s)
  | op :: ops =>
      match kv_apply Wrapping s op with
      | Some (s, out) => let '(os, s) := kv_run s ops in (Some out :: os, s)
      | None => ([], s)
      end
  end.

(** ** Lemmas *)

Lemma accept_loop_ids next evs :
  0 <= next → next + len (accept_loop next evs) <= U32_MAX + 1 →
  (accept_loop next evs).*1 = seqZ next (len (accept_loop next evs)).
Proof.
  revert next; induction evs as [|[[] [c| |]] evs IH]; intros next H0 H; try done; cbn [accept_loop] in *; [|auto].
  rewrite length_cons, Nat2Z.inj_succ in *. rewrite fmap_cons, seqZ_cons by lia. cbn [fst].
  destruct (accept_loop ((next + 1) mod 2 ^ 32) evs) as [|y l] eqn:E; [done|].
  assert (Hm : (next + 1) mod 2 ^ 32 = next + 1).
  { apply Z.mod_small. cbn [length] in H. width_lia. }
  rewrite <- E in H |- *. rewrite Hm in H |- *. rewrite IH by lia.
  f_equal. f_equal; lia.
Qed.

Section Facts.
Context {Timestamp : Type} (as_nanos : Timestamp → Z) (from_nanos : Z → Timestamp).
#[local] Hint Extern 0 (StateMachine _) => exact (KvStore_StateMachine Wrapping) : typeclass_instances.

(** Requests each client numbers upwards, above its mark, are all applied. *)
Lemma exec_all_new ops x e d :
  ex_engine x = Some e → ex_world x = calm d →
  Forall (λ op, hw (applied e) (op_client op) < op_seq op) ops →
  (∀ c, StronglySorted (λ p q, op_seq p < op_seq q) (by_client c ops)) →
  ∃ x' e' d', exec_all Wrapping as_nanos from_nanos ops x = ((kv_run (state e) ops).1, x') ∧
    ex_engine x' = Some e' ∧ ex_world x' = calm d' ∧ state e' = (kv_run (state e) ops).2.
Proof.
  revert x e d; induction ops as [|op ops IH]; intros x e d Ee Ew HF HS.
  { by exists x, e, d. }
  apply Forall_cons in HF as [Hop HF]. destruct (kv_apply_total (state e) op) as [[s' out] Happ].
  destruct (exec_apply_calm as_nanos from_nanos x e d op out s' Ee Ew Hop Happ)
    as (x1 & e1 & d1 & E1 & Ee1 & Ew1 & _ & Hs1 & Ha1).
  assert (HS' : ∀ c, StronglySorted (λ p q, op_seq p < op_seq q) (by_client c ops)).
  { intros c. specialize (HS c). unfold by_client in HS. rewrite filter_cons in HS.
    case_decide; [by apply StronglySorted_inv in HS as [? _]|done]. }
  destruct (IH x1 e1 d1 Ee1 Ew1) as (x' & e' & d' & E' & Ee' & Ew' & Hs'); [|done|].
  - rewrite Forall_forall in HF |- *. intros op' Hin. rewrite Ha1, hw_insert. case_decide as Hc; [|by apply HF].
    specialize (HS (op_client op)). unfold by_client in HS. rewrite filter_cons, decide_True in HS by done.
    apply StronglySorted_inv in HS as [_ HS]. rewrite Forall_forall in HS. apply HS.
    by apply list_elem_of_filter.
  - exists x', e', d'. cbn [exec_all kv_run]. rewrite E1, Happ, E', Hs1.
    rewrite Hs1 in Hs'. by destruct (kv_run s' ops).
Qed.

(** A server started on any directory: its engine runs and its ids are new. *)
Lemma server_start_calm interval fs tick d evs srv :
  server_start Wrapping interval fs tick (calm d) evs = Some srv →
  (service_start Wrapping interval fs tick (calm d)).2 + len (srv_conns srv) <= U32_MAX →
  ∃ e, ex_engine (srv_exec srv) = Some e ∧ ex_world (srv_exec srv) = calm d ∧
    (srv_conns srv).*1 = seqZ (max_client e + 1) (len (srv_conns srv)).
Proof.
  unfold server_start, service_start. destruct (kv_boot_typed d interval fs) as (e & -> & He).
  pose proof (max_client_u32 e He) as [H0 _].
  rewrite usize_arith_wrapping. cbn [snd]. unfold first_conn_id. intros E Hm.
  exists e. destruct (Z.leb_spec (max_client e + 1) U32_MAX) as [Hl|Hl]; cbn in E; injection E as <-; cbn in *.
  - split_and!; [done..|]. apply accept_loop_ids; lia.
  - split_and!; [done..|]. assert (accept_loop 0 evs = []) as ->; [|done].
    destruct (accept_loop 0 evs); [done|cbn in Hm; lia].
Qed.

(** Concurrent connections lose nothing. However the requests of the connections of
    a server, started on any directory, interleave, if every connection numbers its
    own requests upwards (as they do, but for a DEL of several keys in RESP), every request is applied exactly
    once, in that order, and answered with the output of the plain store: no request
    is taken for a duplicate, and no two connections share an id. *)
Theorem connections_exactly_once interval fs tick d evs srv ops :
  server_start Wrapping interval fs tick (calm d) evs = Some srv →
  (service_start Wrapping interval fs tick (calm d)).2 + len (srv_conns srv) <= U32_MAX →
  Forall (λ op, op_client op ∈ (srv_conns srv).*1) ops →
  (∀ c, ∃ b, numbered c 0 b (by_client c ops)) →
  NoDup (srv_conns srv).*1 ∧
  ∃ e x' e', ex_engine (srv_exec srv) = Some e ∧
    exec_all Wrapping as_nanos from_nanos ops (srv_exec srv) = ((kv_run (state e) ops).1, x') ∧
    length (kv_run (state e) ops).1 = length ops ∧
    ex_engine x' = Some e' ∧ state e' = (kv_run (state e) ops).2.
Proof.
  intros Hsrv Hm Hids Hnum.
  destruct (server_start_calm _ _ _ _ _ _ Hsrv Hm) as (e & Ee & Ew & Hseq).
  destruct (exec_all_new ops (srv_exec srv) e d Ee Ew) as (x' & e' & d' & E & Ee' & _ & Hs').
  - rewrite Forall_forall in Hids |- *. intros op Hin. destruct (Hnum (op_client op)) as (b & _ & HF & _).
    rewrite Forall_forall in HF. destruct (HF op) as [_ Hq]; [by apply list_elem_of_filter|].
    specialize (Hids op Hin). rewrite Hseq in Hids. apply elem_of_seqZ in Hids.
    assert (Hw : hw (applied e) (op_client op) = 0); [|lia].
    unfold hw. destruct (applied e !! op_client op) as [s|] eqn:Ea; [|done]. apply max_client_spec in Ea. lia.
  - intros c. by destruct (Hnum c) as (b & _ & _ & HS).
  - split; [rewrite Hseq; apply NoDup_seqZ|]. exists e, x', e'. split_and!; try done.
    clear. generalize (state e). induction ops as [|op ops IH]; intros s; [done|]. cbn [kv_run].
    destruct (kv_apply_total s op) as [[s' o] ->]. specialize (IH s'). destruct (kv_run s' ops). cbn in *. by f_equal.
Qed.
End Facts.

(** Two connections on a store that already knows client 1; their requests interleave. *)
Section Witness.
#[local] Hint Extern 0 (StateMachine _) => exact (KvStore_StateMachine Wrapping) : typeclass_instances.

Definition srv_evs_w : list (bool * Incoming) :=
  [(false, InWouldBlock); (false, InStream (conn_text [] [])); (false, InStream (conn_text [] [])); (true, InError)].
Definition srv_ops_w : list Op :=
  [op_set_bytes 1 1 (bs "a") (bs "1"); op_incr 2 1 (bs "a") 4; op_get 1 2 (bs "a"); op_del 2 2 (bs "a")].
Definition srv_w : Server :=
  default (mkServer (mkExecutor None 0 0 (calm ∅)) []) (server_start Wrapping 2 true 1 (calm ∅) srv_evs_w).

Lemma connections_exactly_once_witness :
  NoDup (srv_conns srv_w).*1 ∧
  ∃ e x' e', ex_engine (srv_exec srv_w) = Some e ∧
    exec_all Wrapping id id srv_ops_w (srv_exec srv_w) = ((kv_run (state e) srv_ops_w).1, x') ∧
    length (kv_run (state e) srv_ops_w).1 = 4%nat ∧
    ex_engine x' = Some e' ∧ state e' = (kv_run (state e) srv_ops_w).2.
Proof.
  apply (connections_exactly_once id id 2 true 1 ∅ srv_evs_w srv_w srv_ops_w).
  - reflexivity.
  - by vm_compute.
  - by_decision.
  - intros c. exists 2. destruct (decide (c = 1)) as [->|H1]; [|destruct (decide (c = 2)) as [->|H2]].
    + split_and!; [lia|by_decision|repeat constructor].
    + split_and!; [lia|by_decision|repeat constructor].
    + assert (E : by_client c srv_ops_w = []); [|rewrite E; apply numbered_nil; lia].
      unfold by_client, srv_ops_w. rewrite !filter_cons_False by (cbn; lia). done.
Defined.
End Witness.
