(* ===== verification/Threads.v ===== *)
(** * Threads: the threads of a server and how they end
    ([crates/onebarrier/src/server.rs], [KvService], [start], [ServerHandle::stop])

    The accept thread, the handler threads, the executor thread and the thread that calls
    [stop], with the channel between them: a step relation in which any thread that can
    move may. A handler is what its protocol makes of it: it asks for something, waits
    for the answer, and ends. *)

From S2P Require Import Prelude Bytes Text Io State Durable Engine EngineFacts CrashSafety Lifetimes Cadence KvRecovery Typing Workload Net Service Serving Server.
Local Open Scope Z_scope.

Inductive Req := ReqApply (op : Op) | ReqLen.
Inductive SvcResp := RespOut (o : Output) | RespLen (n : Z).
(** The reply channel of a job is the handler that waits at its other end. *)
Record Job := mkJob { job_req : Req; job_reply : nat }.

Inductive HandlerState := HIdle | HWaiting (r : Req) | HDone.
#[export] Instance Req_eq_dec : EqDecision Req.
Proof. solve_decision. Defined.
#[export] Instance HandlerState_eq_dec : EqDecision HandlerState.
Proof. solve_decision. Defined.

(** A handler with what it has asked and been answered; [None]: the executor was gone. *)
Record Handler := mkHandler { h_state : HandlerState; h_log : list (Req * option SvcResp) }.

Inductive AcceptState := ALoop | AJoining | AEnded.
Inductive StopState := SServing | SJoinAccept | SJoinExecutor | SStopped.
#[export] Instance AcceptState_eq_dec : EqDecision AcceptState.
Proof. solve_decision. Defined.
#[export] Instance StopState_eq_dec : EqDecision StopState.
Proof. solve_decision. Defined.

(** [exec_ended] is set when the executor's thread has returned: its end of the channel
    is closed and the queue dropped. [answered] is every job it answered, in order. *)
Record Threads := mkThreads {
  th_shutdown : bool;
  th_accept : AcceptState;
  th_handlers : list Handler;
  th_queue : list Job;
  th_exec : Executor;
  exec_ended : bool;
  answered : list (Job * SvcResp);
  th_stop : StopState }.

Inductive ThAction :=
  | Accept                        (* the listener gives a stream *)
  | AcceptBreak (error : bool)    (* it gives an error, or the flag is set *)
  | AcceptEnd                     (* all handlers are joined *)
  | Ask (k : nat) (r : Req)       (* [KvService::apply], [KvService::len] *)
  | HandlerEnd (k : nat)
  | Execute                       (* [rx.recv()] gives a job *)
  | ExecutorEnd                   (* [rx.recv()] fails: no sender is left *)
  | StopCall | JoinAccept | JoinExecutor.

Section Steps.
Context (am : arith_mode) {Timestamp : Type} (as_nanos : Timestamp → Z) (from_nanos : Z → Timestamp).

(** The body of the executor's loop; [None]: [deliver] failed and the thread returns. *)
Definition exec_job (r : Req) (x : Executor) : option SvcResp * Executor :=
  match r with
  | ReqApply op => let '(o, x) := exec_apply am as_nanos from_nanos op x in (RespOut <$> o, x)
  | ReqLen => let '(o, x) := exec_len x in (RespLen <$> o, x)
  end.

Definition handler_done (h : Handler) : bool := bool_decide (h_state h = HDone).

(** Answer handler [h]: it goes on. *)
Definition answer (o : option SvcResp) (h : Handler) : Handler :=
  match h_state h with
  | HWaiting r => mkHandler HIdle (h_log h ++ [(r, o)])
  | _ => h
  end.

Definition th_enabled (a : ThAction) (t : Threads) : bool :=
  match a with
  | Accept => bool_decide (th_accept t = ALoop) && negb (th_shutdown t)
  | AcceptBreak error => bool_decide (th_accept t = ALoop) && (error || th_shutdown t)
  | AcceptEnd => bool_decide (th_accept t = AJoining) && forallb handler_done (th_handlers t)
  | Ask k _ | HandlerEnd k => bool_decide (h_state <$> th_handlers t !! k = Some HIdle)
  | Execute => negb (exec_ended t) && negb (bool_decide (length (th_queue t) = 0%nat))
  | ExecutorEnd =>
      negb (exec_ended t) && bool_decide (length (th_queue t) = 0%nat) &&
      bool_decide (th_accept t = AEnded) && forallb handler_done (th_handlers t)
  | StopCall => bool_decide (th_stop t = SServing)
  | JoinAccept => bool_decide (th_stop t = SJoinAccept) && bool_decide (th_accept t = AEnded)
  | JoinExecutor => bool_decide (th_stop t = SJoinExecutor) && exec_ended t
  end.

Definition th_fire (a : ThAction) (t : Threads) : Threads :=
  match a with
  | Accept =>
      mkThreads (th_shutdown t) (th_accept t) (th_handlers t ++ [mkHandler HIdle []]) (th_queue t) (th_exec t)
        (exec_ended t) (answered t) (th_stop t)
  | AcceptBreak _ =>
      mkThreads (th_shutdown t) AJoining (th_handlers t) (th_queue t) (th_exec t) (exec_ended t) (answered t) (th_stop t)
  | AcceptEnd =>
      mkThreads (th_shutdown t) AEnded (th_handlers t) (th_queue t) (th_exec t) (exec_ended t) (answered t) (th_stop t)
  | Ask k r =>
      if exec_ended t
      then (* the send fails at once *)
        mkThreads (th_shutdown t) (th_accept t) (alter (λ h, mkHandler HIdle (h_log h ++ [(r, None)])) k (th_handlers t))
          (th_queue t) (th_exec t) (exec_ended t) (answered t) (th_stop t)
      else
        mkThreads (th_shutdown t) (th_accept t) (alter (λ h, mkHandler (HWaiting r) (h_log h)) k (th_handlers t))
          (th_queue t ++ [mkJob r k]) (th_exec t) (exec_ended t) (answered t) (th_stop t)
  | HandlerEnd k =>
      mkThreads (th_shutdown t) (th_accept t) (alter (λ h, mkHandler HDone (h_log h)) k (th_handlers t))
        (th_queue t) (th_exec t) (exec_ended t) (answered t) (th_stop t)
  | Execute =>
      match th_queue t with
      | [] => t
      | j :: q =>
          match exec_job (job_req j) (th_exec t) with
          | (Some o, x) =>
              mkThreads (th_shutdown t) (th_accept t) (alter (answer (Some o)) (job_reply j) (th_handlers t))
                q x false (answered t ++ [(j, o)]) (th_stop t)
          | (None, x) => (* every reply channel is dropped *)
              mkThreads (th_shutdown t) (th_accept t) (map (answer None) (th_handlers t))
                [] x true (answered t) (th_stop t)
          end
      end
  | ExecutorEnd =>
      mkThreads (th_shutdown t) (th_accept t) (th_handlers t) (th_queue t) (th_exec t) true (answered t) (th_stop t)
  | StopCall =>
      mkThreads true (th_accept t) (th_handlers t) (th_queue t) (th_exec t) (exec_ended t) (answered t) SJoinAccept
  | JoinAccept =>
      mkThreads (th_shutdown t) (th_accept t) (th_handlers t) (th_queue t) (th_exec t) (exec_ended t) (answered t) SJoinExecutor
  | JoinExecutor =>
      mkThreads (th_shutdown t) (th_accept t) (th_handlers t) (th_queue t) (th_exec t) (exec_ended t) (answered t) SStopped
  end.

Inductive th_step : Threads → Threads → Prop :=
  | th_act a t : th_enabled a t = true → th_step t (th_fire a t).

(** A server whose executor has opened its store. A store that cannot be opened ends the
    executor's thread before it takes a job. *)
Definition th_start (x : Executor) : Threads :=
  mkThreads false ALoop [] [] x (if ex_engine x is Some _ then false else true) [] SServing.

(** The executor alone, on a sequence of requests. *)
Fixpoint run_jobs (rs : list Req) (x : Executor) : list (option SvcResp) * Executor :=
  match rs with
  | [] => ([], x)
  | r :: rs => let '(o, x) := exec_job r x in let '(os, x) := run_jobs rs x in (o :: os, x)
  end.
End Steps.

(** ** The invariant *)

Section Invariant.
Context (am : arith_mode) {Timestamp : Type} (as_nanos : Timestamp → Z) (from_nanos : Z → Timestamp).
Implicit Types t : Threads.

(** What handler [k] was answered, among all answers. *)
Definition answers_to (k : nat) (l : list (Job * SvcResp)) : list (Req * SvcResp) :=
  map (λ jo, (job_req jo.1, jo.2)) (filter (λ jo, job_reply jo.1 = k) l).
(** The answers a handler has seen, without the failures. *)
Definition answers_seen (h : Handler) : list (Req * SvcResp) := omap (λ ro, pair ro.1 <$> ro.2) (h_log h).

Definition waits (k : nat) (r : Req) t : Prop := h_state <$> th_handlers t !! k = Some (HWaiting r).

(** The waiting handlers are the ones in the queue, none twice. *)
Definition queue_ok t : Prop := (∀ k r, waits k r t ↔ mkJob r k ∈ th_queue t) ∧ NoDup (map job_reply (th_queue t)).

(** Every handler has seen the answers to it, and no other. *)
Definition log_ok t : Prop :=
  Forall (λ jo, (job_reply jo.1 < length (th_handlers t))%nat) (answered t) ∧
  ∀ k h, th_handlers t !! k = Some h → answers_seen h = answers_to k (answered t).

Record th_inv (x0 : Executor) t : Prop := {
  ti_queue : queue_ok t;
  ti_ended : exec_ended t = true → th_queue t = [];
  ti_served : (run_jobs am as_nanos from_nanos (map (job_req ∘ fst) (answered t)) x0).1 = map (Some ∘ snd) (answered t);
  ti_exec : exec_ended t = false →
    (run_jobs am as_nanos from_nanos (map (job_req ∘ fst) (answered t)) x0).2 = th_exec t;
  ti_log : log_ok t;
  ti_accept : th_accept t = AEnded → forallb handler_done (th_handlers t) = true;
  ti_flag : th_stop t ≠ SServing → th_shutdown t = true;
  ti_join : th_stop t = SJoinExecutor ∨ th_stop t = SStopped → th_accept t = AEnded;
  ti_stopped : th_stop t = SStopped → exec_ended t = true;
}.

Lemma th_inv_start x : th_inv x (th_start x).
Proof.
  split; cbn; try done.
  - split; [|constructor]. intros k r. split; [done|by intros ?%elem_of_nil].
  - by intros [|].
Qed.

Lemma run_jobs_snoc rs r x :
  run_jobs am as_nanos from_nanos (rs ++ [r]) x =
    (let '(os, x') := run_jobs am as_nanos from_nanos rs x in
     let '(o, x'') := exec_job am as_nanos from_nanos r x' in (os ++ [o], x'')).
Proof.
  revert x; induction rs as [|r0 rs IH]; intros x; cbn [app run_jobs].
  - by destruct (exec_job _ _ _ _ _).
  - destruct (exec_job _ _ _ r0 x) as [o x1]. rewrite IH. destruct (run_jobs _ _ _ rs x1) as [os x2].
    by destruct (exec_job _ _ _ r x2).
Qed.

Lemma all_done_idle t k : forallb handler_done (th_handlers t) = true → h_state <$> th_handlers t !! k ≠ Some HIdle.
Proof.
  intros Hf E. destruct (th_handlers t !! k) as [h|] eqn:Eh; [|done]. rewrite forallb_forall in Hf.
  specialize (Hf h). unfold handler_done in Hf. rewrite bool_decide_eq_true in Hf.
  cbn in E. rewrite Hf in E; [done|]. by eapply list_elem_of_In, list_elem_of_lookup_2.
Qed.

(** A handler that changes its state without an answer or a question keeps its part. *)
Lemma alter_log (hs : list Handler) (f : Handler → Handler) k i h' :
  (∀ h, hs !! k = Some h → answers_seen (f h) = answers_seen h) → alter f k hs !! i = Some h' →
  ∃ h, hs !! i = Some h ∧ answers_seen h' = answers_seen h.
Proof.
  intros Hf Hi. destruct (decide (k = i)) as [->|Hne].
  - rewrite list_lookup_alter_eq in Hi. apply fmap_Some in Hi as (h & Hh & ->). eauto.
  - rewrite list_lookup_alter_ne in Hi by done. eauto.
Qed.

Lemma seen_snoc h st r o :
  answers_seen (mkHandler st (h_log h ++ [(r, o)])) =
    answers_seen h ++ (if o is Some a then [(r, a)] else []).
Proof. unfold answers_seen. cbn [h_log]. rewrite omap_app. by destruct o. Qed.

Lemma waits_alter t t' f k i r :
  th_handlers t' = alter f k (th_handlers t) →
  waits i r t' ↔ if decide (k = i) then ∃ h, th_handlers t !! k = Some h ∧ h_state (f h) = HWaiting r else waits i r t.
Proof.
  intros E. unfold waits. rewrite E. case_decide as Hd.
  - subst i. rewrite list_lookup_alter_eq. destruct (th_handlers t !! k) as [h|]; cbn.
    + split; [intros [= ?]; eauto|]. intros (h' & [= <-] & ->). done.
    + split; [done|]. by intros (? & ? & _).
  - by rewrite list_lookup_alter_ne.
Qed.

Lemma queue_waiting t j : queue_ok t → j ∈ th_queue t → waits (job_reply j) (job_req j) t.
Proof. intros [Hq _] Hin. apply Hq. by destruct j. Qed.

Lemma ask_queue t k r :
  queue_ok t → h_state <$> th_handlers t !! k = Some HIdle → exec_ended t = false → queue_ok (th_fire am as_nanos from_nanos (Ask k r) t).
Proof.
  intros Hok Hk He. pose proof Hok as [Hq Hnd]. cbn [th_fire]. rewrite He. split; cbn [th_queue].
  - intros i r'. rewrite (waits_alter t _ (λ h, mkHandler (HWaiting r) (h_log h)) k) by done.
    rewrite elem_of_app, list_elem_of_singleton, <- Hq. case_decide as Hd.
    + subst i. split.
      * intros (h & _ & [= ->]). by right.
      * intros [Hw|[= ->]]; [unfold waits in Hw; congruence|]. apply fmap_Some in Hk as (h & Hh & _). eauto.
    + split; [by left|]. intros [|[= ]]; [done|congruence].
  - rewrite map_app. apply NoDup_app. split; [done|]. split; [|apply NoDup_singleton].
    intros i Hi ->%list_elem_of_singleton. apply list_elem_of_fmap in Hi as (j & Ej & Hj). cbn in Ej.
    apply (queue_waiting t) in Hj; [|done]. rewrite <- Ej in Hj. unfold waits in Hj. congruence.
Qed.

Lemma end_queue t k :
  queue_ok t → h_state <$> th_handlers t !! k = Some HIdle → queue_ok (th_fire am as_nanos from_nanos (HandlerEnd k) t).
Proof.
  intros [Hq Hnd] Hk. split; [|done]. intros i r. cbn [th_fire th_queue].
  rewrite (waits_alter t _ (λ h, mkHandler HDone (h_log h)) k), <- Hq by done. case_decide as Hd; [|done].
  subst i. split; [by intros (h & _ & ?)|]. unfold waits. intros Hw. congruence.
Qed.

Lemma execute_queue t j q o x :
  queue_ok t → th_queue t = j :: q →
  queue_ok (mkThreads (th_shutdown t) (th_accept t) (alter (answer (Some o)) (job_reply j) (th_handlers t))
              q x false (answered t ++ [(j, o)]) (th_stop t)).
Proof.
  intros [Hq Hnd] Eq. rewrite Eq in Hq, Hnd. cbn [map] in Hnd. apply NoDup_cons in Hnd as [Hn Hnd].
  split; [|done]. intros i r. cbn [th_queue]. rewrite (waits_alter t _ (answer (Some o)) (job_reply j)) by done.
  case_decide as Hd.
  - split.
    + intros (h & Hh & Ha). exfalso. unfold answer in Ha. destruct (h_state h) eqn:E; cbn in Ha; congruence.
    + intros Hin. exfalso. apply Hn. rewrite Hd. apply list_elem_of_fmap. by exists (mkJob r i).
  - rewrite Hq, elem_of_cons. split; [|by right]. intros [E|]; [|done]. exfalso. apply Hd. by rewrite <- E.
Qed.

Lemma fail_queue t x :
  queue_ok (mkThreads (th_shutdown t) (th_accept t) (map (answer None) (th_handlers t)) [] x true (answered t) (th_stop t)).
Proof.
  split; [|constructor]. intros i r. cbn [th_queue]. split; [|by intros ?%elem_of_nil].
  unfold waits. cbn [th_handlers]. rewrite list_lookup_fmap. destruct (th_handlers t !! i) as [h|]; [|done]. cbn.
  unfold answer. destruct (h_state h) eqn:E; cbn; congruence.
Qed.

Lemma alter_log_ok t t' f k :
  th_handlers t' = alter f k (th_handlers t) → answered t' = answered t →
  (∀ h, th_handlers t !! k = Some h → answers_seen (f h) = answers_seen h) → log_ok t → log_ok t'.
Proof.
  intros Eh Ea Hf [Hr Hl]. split.
  - by rewrite Eh, Ea, length_alter.
  - intros i h' Hi. rewrite Eh in Hi. destruct (alter_log _ _ _ _ _ Hf Hi) as (h & Hh & ->). rewrite Ea. by apply Hl.
Qed.

Lemma accept_log t : log_ok t → log_ok (th_fire am as_nanos from_nanos Accept t).
Proof.
  intros [Hr Hl]. split; cbn [th_fire th_handlers answered].
  - eapply Forall_impl; [exact Hr|]. intros jo H. cbn in *. rewrite length_app. lia.
  - intros k h [Hk|[Hk Hh]]%lookup_app_Some; [by apply Hl|]. apply list_lookup_singleton_Some in Hh as [Hz <-].
    unfold answers_to.
    assert (filter (λ jo, job_reply jo.1 = k) (answered t) = []) as ->; [|done]. apply elem_of_nil_inv. intros jo [Hj Hin]%list_elem_of_filter.
    rewrite Forall_forall in Hr. specialize (Hr jo Hin). cbn in Hr. lia.
Qed.

Lemma accept_queue t : queue_ok t → queue_ok (th_fire am as_nanos from_nanos Accept t).
Proof.
  intros [Hq Hnd]. split; [|done]. intros k r. cbn [th_fire th_queue]. rewrite <- Hq. unfold waits. cbn [th_handlers].
  destruct (decide (k < length (th_handlers t))%nat) as [Hlt|Hge]; [by rewrite lookup_app_l|].
  rewrite lookup_app_r by lia. rewrite (lookup_ge_None_2 (th_handlers t)) by lia.
  destruct (k - length (th_handlers t))%nat; done.
Qed.

Lemma execute_log t j q o x :
  queue_ok t → th_queue t = j :: q → log_ok t →
  log_ok (mkThreads (th_shutdown t) (th_accept t) (alter (answer (Some o)) (job_reply j) (th_handlers t))
            q x false (answered t ++ [(j, o)]) (th_stop t)).
Proof.
  intros Hq Eq [Hr Hl]. assert (Hw : waits (job_reply j) (job_req j) t) by (apply queue_waiting; [done|rewrite Eq; left]).
  apply fmap_Some in Hw as (h & Hh & Hst). split; cbn [th_handlers answered].
  - rewrite Forall_app, Forall_singleton, length_alter. split; [done|]. cbn. by apply lookup_lt_Some in Hh.
  - intros k h' Hk. unfold answers_to. rewrite filter_app, filter_cons, filter_nil, map_app. cbn [fst].
    destruct (decide (job_reply j = k)) as [<-|Hne].
    + rewrite list_lookup_alter_eq, Hh in Hk. injection Hk as <-. unfold answer. rewrite <- Hst.
      rewrite seen_snoc. f_equal. by apply Hl.
    + rewrite list_lookup_alter_ne in Hk by done. cbn [map]. rewrite app_nil_r. by apply Hl.
Qed.

Lemma fail_log t x :
  log_ok t → log_ok (mkThreads (th_shutdown t) (th_accept t) (map (answer None) (th_handlers t)) [] x true (answered t) (th_stop t)).
Proof.
  intros [Hr Hl]. split; cbn [th_handlers answered]; [by rewrite length_map|].
  intros k h' Hk. rewrite list_lookup_fmap in Hk. apply fmap_Some in Hk as (h & Hh & ->). rewrite <- (Hl k h Hh).
  unfold answer. destruct (h_state h); [done| |done]. by rewrite seen_snoc, app_nil_r.
Qed.

(** Some handler waits when there is a job. *)
Lemma queue_not_done t j q : queue_ok t → th_queue t = j :: q → forallb handler_done (th_handlers t) = false.
Proof.
  intros Hq Eq. assert (Hw : waits (job_reply j) (job_req j) t) by (apply queue_waiting; [done|rewrite Eq; left]).
  apply fmap_Some in Hw as (h & Hh & Hst). apply not_true_is_false. rewrite forallb_forall. intros Hf.
  specialize (Hf h ltac:(by eapply list_elem_of_In, list_elem_of_lookup_2)). unfold handler_done in Hf.
  rewrite bool_decide_eq_true in Hf. congruence.
Qed.

Abbreviation fire := (th_fire am as_nanos from_nanos).
Abbreviation step := (th_step am as_nanos from_nanos).

(** The threads that only look at the others. *)
Lemma control_inv x0 a t :
  (match a with AcceptBreak _ | AcceptEnd | ExecutorEnd | StopCall | JoinAccept | JoinExecutor => True | _ => False end) →
  th_enabled a t = true → th_inv x0 t → th_inv x0 (fire a t).
Proof.
  intros Ha He [Hq Hen Hs Hx Hl Hac Hf Hj Hst]. destruct a; try done; cbn in He; rewrite ?andb_true_iff, ?bool_decide_eq_true in He.
  - destruct He as [Ea _]. split; try done. cbn. intros H. by rewrite Hj in Ea.
  - destruct He as [_ Hd]. by split.
  - destruct He as [[[_ Hq0] _] _]. apply nil_length_inv in Hq0. by split.
  - split; try done. cbn. by intros [|].
  - destruct He as [E1 E2]. split; try done. cbn. intros _. apply Hf. by rewrite E1.
  - destruct He as [E1 E2]. split; try done; cbn.
    + intros _. apply Hf. by rewrite E1.
    + intros _. apply Hj. by left.
Qed.

Lemma handler_inv x0 a t :
  (match a with Accept | Ask _ _ | HandlerEnd _ => True | _ => False end) →
  th_enabled a t = true → th_inv x0 t → th_inv x0 (fire a t).
Proof.
  intros Ha He [Hq Hen Hs Hx Hl Hac Hf Hj Hst].
  destruct a as [| | |k r|k| | | | |]; try done; cbn [th_enabled] in He; rewrite ?andb_true_iff, ?bool_decide_eq_true in He.
  - destruct He as [Ea _]. split; try done; [by apply accept_queue|by apply accept_log|]. cbn. congruence.
  - assert (Hna : th_accept t = AEnded → False) by (intros E; by eapply all_done_idle; [apply Hac|]).
    assert (Hend : exec_ended (fire (Ask k r) t) = exec_ended t) by (cbn; by destruct (exec_ended t) eqn:E; cbn).
    assert (Hlog : log_ok (fire (Ask k r) t)).
    { cbn [th_fire]. destruct (exec_ended t); (eapply alter_log_ok; [done|done| |done]); intros h _; [|done].
      cbv beta. by rewrite seen_snoc, app_nil_r. }
    destruct (exec_ended t) eqn:E; cbn [th_fire] in *; rewrite E in *; split; try done; cbn; try done.
    + split; [|by rewrite Hen; [constructor|]]. intros i r'. cbn [th_queue].
      rewrite (waits_alter t _ (λ h, mkHandler HIdle (h_log h ++ [(r, None)])) k) by done. rewrite <- (proj1 Hq).
      case_decide; [subst i|done]. split; [by intros (? & _ & ?)|]. unfold waits. intros Hw. congruence.
    + pose proof (ask_queue t k r Hq He E) as H. cbn [th_fire] in H. by rewrite E in H.
  - assert (Hna : th_accept t = AEnded → False) by (intros E; by eapply all_done_idle; [apply Hac|]).
    split; try done; [by apply end_queue|]. eapply alter_log_ok; [done|done| |done]. done.
Qed.

Lemma execute_inv x0 t : th_enabled Execute t = true → th_inv x0 t → th_inv x0 (fire Execute t).
Proof.
  intros He [Hq Hen Hs Hx Hl Hac Hf Hj Hst]. cbn [th_enabled] in He. rewrite andb_true_iff, !negb_true_iff in He.
  destruct He as [Ee _]. cbn [th_fire]. destruct (th_queue t) as [|j q] eqn:Eq; [by split; rewrite ?Eq|].
  assert (Hna : th_accept t = AEnded → False) by (intros E; apply Hac in E; by rewrite (queue_not_done t j q) in E).
  specialize (Hx Ee). destruct (exec_job _ _ _ (job_req j) (th_exec t)) as [[o|] x] eqn:Ej.
  - assert (Hrun : run_jobs am as_nanos from_nanos (map (job_req ∘ fst) (answered t ++ [(j, o)])) x0 =
      (map (Some ∘ snd) (answered t ++ [(j, o)]), x)).
    { rewrite !map_app. cbn [map]. rewrite run_jobs_snoc. destruct (run_jobs _ _ _ _ x0) as [os x1].
      cbn in Hs, Hx. subst x1 os. cbn [compose fst]. by rewrite Ej. }
    split; cbn; try done; [by apply execute_queue|by rewrite Hrun|by rewrite Hrun|by apply execute_log|].
    intros E. specialize (Hst E). congruence.
  - split; cbn; try done; [by apply fail_queue|by apply fail_log].
Qed.

Lemma th_inv_step x0 t t' : step t t' → th_inv x0 t → th_inv x0 t'.
Proof.
  intros [a t0 He]. destruct a; first [by apply control_inv|by apply handler_inv|by apply execute_inv].
Qed.

Lemma th_inv_reached x0 t : rtc step (th_start x0) t → th_inv x0 t.
Proof.
  intros Hr. pose proof (th_inv_start x0) as H. induction Hr as [|t0 t1 t2 Hs _ IH]; [done|]. by apply IH, (th_inv_step x0 t0).
Qed.

(** ** Stopping *)

(** What is left to do once [stop] has been called. *)
Definition handler_load (h : Handler) : nat :=
  match h_state h with HIdle => 1 | HWaiting _ => 2 | HDone => 0 end.
Definition handlers_load (hs : list Handler) : nat := sum_list_with handler_load hs.
#[local] Arguments handlers_load : simpl never.
Definition th_load t : nat :=
  handlers_load (th_handlers t) +
  match th_accept t with ALoop => 2 | AJoining => 1 | AEnded => 0 end +
  (if exec_ended t then 0 else 1) +
  match th_stop t with SServing => 3 | SJoinAccept => 2 | SJoinExecutor => 1 | SStopped => 0 end.

(** A step in which no handler asks for anything. *)
Definition asks (a : ThAction) : bool := if a is Ask _ _ then true else false.
Definition quiet_step t t' : Prop := ∃ a, th_enabled a t = true ∧ asks a = false ∧ t' = fire a t.

Lemma load_alter f k hs h :
  hs !! k = Some h → (handlers_load (alter f k hs) + handler_load h = handlers_load hs + handler_load (f h))%nat.
Proof.
  unfold handlers_load. revert k; induction hs as [|h0 hs IH]; intros [|k] Hk; try done.
  - injection Hk as ->. cbn. lia.
  - change (alter f (S k) (h0 :: hs)) with (h0 :: alter f k hs). specialize (IH k Hk). cbn in *. lia.
Qed.

Lemma load_fail hs : (handlers_load (map (answer None) hs) <= handlers_load hs)%nat.
Proof.
  unfold handlers_load. induction hs as [|h hs IH]; cbn; [lia|].
  assert (handler_load (answer None h) <= handler_load h)%nat; [|lia].
  unfold handler_load, answer. destruct (h_state h) eqn:E; rewrite ?E; cbn; lia.
Qed.

(** After the call every step but a question makes it less. *)
Lemma quiet_decreases x0 t t' :
  th_inv x0 t → th_stop t ≠ SServing → quiet_step t t' → (th_load t' < th_load t)%nat ∧ th_stop t' ≠ SServing.
Proof.
  intros Hi Hs (a & He & Ha & ->). pose proof (ti_flag _ _ Hi Hs) as Hf. unfold th_load.
  destruct a as [| | |k r|k| | | | |]; try done; cbn [th_enabled] in He;
    rewrite ?andb_true_iff, ?bool_decide_eq_true, ?negb_true_iff in He; cbn [th_fire].
  - destruct He as [_ He]. congruence.
  - destruct He as [-> _]. cbn. split; [lia|done].
  - destruct He as [-> _]. cbn. split; [lia|done].
  - apply fmap_Some in He as (h & Hh & Est). cbn. split; [|done].
    pose proof (load_alter (λ h, mkHandler HDone (h_log h)) k _ h Hh) as E. unfold handler_load in E. rewrite <- Est in E. cbn in E. lia.
  - destruct He as [Ee Hne]. destruct (th_queue t) as [|j q] eqn:Eq; [by rewrite bool_decide_eq_false in Hne|].
    rewrite Ee. destruct (exec_job _ _ _ (job_req j) (th_exec t)) as [[o|] x]; cbn.
    + assert (Hw : waits (job_reply j) (job_req j) t) by (apply queue_waiting; [apply Hi|rewrite Eq; left]).
      apply fmap_Some in Hw as (h & Hh & Est). split; [|done].
      pose proof (load_alter (answer (Some o)) _ _ h Hh) as E. unfold handler_load, answer in E. rewrite <- Est in E. cbn in E.
      unfold answer. lia.
    + pose proof (load_fail (th_handlers t)). split; [lia|done].
  - destruct He as [[[-> _] _] _]. cbn. split; [lia|done].
  - done.
  - destruct He as [-> _]. cbn. split; [lia|done].
  - destruct He as [-> _]. cbn. split; [lia|done].
Qed.

(** Every thread has ended and nobody is left without an answer. *)
Definition all_ended t : Prop :=
  th_stop t = SStopped ∧ th_accept t = AEnded ∧ exec_ended t = true ∧ forallb handler_done (th_handlers t) = true ∧ th_queue t = [].

Lemma handlers_progress x0 t :
  th_inv x0 t → forallb handler_done (th_handlers t) = true ∨ ∃ t', quiet_step t t'.
Proof.
  intros Hi. destruct (forallb handler_done (th_handlers t)) eqn:Ed; [by left|right].
  assert (Hex : Exists (λ h, h_state h ≠ HDone) (th_handlers t)).
  { apply not_Forall_Exists; [apply _|]. intros HF. apply not_true_iff_false in Ed. apply Ed, forallb_forall.
    intros h Hin%list_elem_of_In. rewrite Forall_forall in HF. apply bool_decide_eq_true. by apply HF. }
  apply Exists_exists in Hex as (h & Hin & Hh). apply list_elem_of_lookup in Hin as [k Hk].
  destruct (h_state h) as [|r|] eqn:Est; [| |done].
  - eexists. exists (HandlerEnd k). split; [|done]. cbn. apply bool_decide_eq_true. rewrite Hk. cbn. by rewrite Est.
  - assert (Hw : waits k r t) by (unfold waits; rewrite Hk; cbn; by rewrite Est).
    apply (proj1 (ti_queue _ _ Hi)) in Hw. eexists. exists Execute. split; [|done]. cbn.
    destruct (exec_ended t) eqn:Ee; [by rewrite (ti_ended _ _ Hi Ee) in Hw; apply elem_of_nil in Hw|].
    destruct (th_queue t); [by apply elem_of_nil in Hw|done].
Qed.

Lemma stop_progress x0 t :
  th_inv x0 t → th_stop t ≠ SServing → all_ended t ∨ ∃ t', quiet_step t t'.
Proof.
  intros Hi Hs. pose proof (ti_flag _ _ Hi Hs) as Hf.
  destruct (th_accept t) eqn:Ea.
  { right. eexists. exists (AcceptBreak false). split; [|done]. cbn. by rewrite Ea, Hf. }
  { destruct (handlers_progress x0 t Hi) as [Hd|]; [|by right]. right. eexists. exists AcceptEnd. split; [|done].
    cbn. by rewrite Ea, Hd. }
  pose proof (ti_accept _ _ Hi Ea) as Hd.
  assert (Hq : th_queue t = []).
  { destruct (th_queue t) as [|j q] eqn:Eq; [done|]. by rewrite (queue_not_done t j q) in Hd by (done || apply Hi). }
  destruct (th_stop t) eqn:Est; [done|..].
  - right. eexists. exists JoinAccept. split; [|done]. cbn. by rewrite Est, Ea.
  - right. destruct (exec_ended t) eqn:Ee.
    + eexists. exists JoinExecutor. split; [|done]. cbn. by rewrite Est, Ee.
    + eexists. exists ExecutorEnd. split; [|done]. cbn. by rewrite Ee, Hq, Ea, Hd.
  - left. pose proof (ti_stopped _ _ Hi Est). by split_and!.
Qed.

Lemma quiet_inv x0 t t' : quiet_step t t' → th_inv x0 t → th_inv x0 t'.
Proof. intros (a & He & _ & ->). apply th_inv_step. by constructor. Qed.

Lemma quiet_steps x0 n t t' :
  nsteps quiet_step n t t' → th_inv x0 t → th_stop t ≠ SServing →
  (n + th_load t' <= th_load t)%nat ∧ th_inv x0 t' ∧ th_stop t' ≠ SServing.
Proof.
  induction 1 as [t|n t t1 t' Hq _ IH]; intros Hi Hs; [done|].
  destruct (quiet_decreases x0 t t1 Hi Hs Hq) as [Hlt Hs1].
  destruct (IH (quiet_inv x0 _ _ Hq Hi) Hs1) as (Hle & ? & ?). split_and!; [lia|done..].
Qed.

(** C22: [stop] ends the server. Once it has been called, in whatever state the threads
    are, every run in which the handlers ask for nothing more is bounded, can be
    continued until all threads have ended and [stop] has returned, and leaves no handler
    without an answer: the joins cannot deadlock. (A handler reads the flag only when its
    socket is silent, so a client that keeps sending can hold it up.) *)
Theorem stop_terminates x0 t :
  rtc step (th_start x0) t → th_stop t ≠ SServing →
  (∀ n t', nsteps quiet_step n t t' → (n <= th_load t)%nat ∧ (all_ended t' ∨ ∃ t'', quiet_step t' t'')) ∧
  ∃ t', rtc quiet_step t t' ∧ all_ended t'.
Proof.
  intros Hr%th_inv_reached Hs. split.
  - intros n t' Hn. destruct (quiet_steps x0 n t t' Hn Hr Hs) as (Hle & Hi' & Hs'). split; [lia|by apply (stop_progress x0)].
  - remember (th_load t) as n eqn:En. revert t En Hr Hs. induction (lt_wf n) as [n _ IH]. intros t -> Hi Hs.
    destruct (stop_progress x0 t Hi Hs) as [He|(t1 & Hq)]; [by exists t|].
    destruct (quiet_decreases x0 t t1 Hi Hs Hq) as [Hlt Hs1].
    destruct (IH _ Hlt t1 eq_refl (quiet_inv x0 _ _ Hq Hi) Hs1) as (t' & Hr' & He). exists t'. split; [by eapply rtc_l|done].
Qed.
End Invariant.

(** ** The threads together are one store *)

(** The same requests on a store that remembers the highest number of each connection: a
    request with a number not above it is answered [Suppressed] and changes nothing. *)
Fixpoint kv_serve (marks : gmap Z Z) (s : KvStore) (rs : list Req) : list SvcResp * KvStore :=
  match rs with
  | [] => ([], s)
  | ReqApply op :: rs =>
      if op_seq op <=? hw marks (op_client op)
      then let '(os, s') := kv_serve marks s rs in (RespOut OutSuppressed :: os, s')
      else
        match kv_apply Wrapping s op with
        | Some (s, out) =>
            let '(os, s') := kv_serve (<[op_client op := op_seq op]> marks) s rs in (RespOut out :: os, s')
        | None => ([], s)
        end
  | ReqLen :: rs => let '(os, s') := kv_serve marks s rs in (RespLen (kv_len s) :: os, s')
  end.

(** The same requests on a plain store. *)
Fixpoint kv_plain (s : KvStore) (rs : list Req) : list SvcResp * KvStore :=
  match rs with
  | [] => ([], s)
  | ReqApply op :: rs =>
      match kv_apply Wrapping s op with
      | Some (s, out) => let '(os, s) := kv_plain s rs in (RespOut out :: os, s)
      | None => ([], s)
      end
  | ReqLen :: rs => let '(os, s') := kv_plain s rs in (RespLen (kv_len s) :: os, s')
  end.

Definition req_op (r : Req) : option Op := if r is ReqApply op then Some op else None.

(** Of every connection, the numbers start at 1 or above and rise. *)
Definition rising (rs : list Req) : Prop :=
  Forall (λ op, 1 <= op_seq op) (omap req_op rs) ∧
  ∀ c, StronglySorted (λ p q, op_seq p < op_seq q) (by_client c (omap req_op rs)).

(** Only the marks of the connections that ask matter. *)
Lemma kv_serve_marks rs a1 a2 s :
  Forall (λ op, hw a1 (op_client op) = hw a2 (op_client op)) (omap req_op rs) → kv_serve a1 s rs = kv_serve a2 s rs.
Proof.
  revert a1 a2 s; induction rs as [|[op|] rs IH]; intros a1 a2 s HF; [done| |].
  - change (omap req_op (ReqApply op :: rs)) with (op :: omap req_op rs) in HF. apply Forall_cons in HF as [Hop HF].
    cbn [kv_serve]. rewrite Hop. case_match; [by rewrite (IH a1 a2)|]. case_match; [|done]. case_match.
    rewrite (IH _ (<[op_client op := op_seq op]> a2)); [done|].
    eapply Forall_impl; [exact HF|]. intros op' E. cbn in E. rewrite !hw_insert. by rewrite E.
  - cbn [kv_serve]. by rewrite (IH a1 a2).
Qed.

(** Rising numbers are never suppressed. *)
Lemma kv_serve_rising rs a s :
  Forall (λ op, hw a (op_client op) < op_seq op) (omap req_op rs) →
  (∀ c, StronglySorted (λ p q, op_seq p < op_seq q) (by_client c (omap req_op rs))) →
  kv_serve a s rs = kv_plain s rs.
Proof.
  revert a s; induction rs as [|[op|] rs IH]; intros a s HF HS; [done| |].
  - change (omap req_op (ReqApply op :: rs)) with (op :: omap req_op rs) in *. apply Forall_cons in HF as [Hop HF].
    cbn [kv_serve kv_plain]. rewrite (proj2 (Z.leb_gt _ _)) by done. case_match; [|done]. case_match.
    rewrite IH; [done| |].
    + rewrite Forall_forall in HF |- *. intros op' Hin. rewrite hw_insert. case_decide as Hc; [|by apply HF].
      specialize (HS (op_client op)). unfold by_client in HS. rewrite filter_cons, decide_True in HS by done.
      apply StronglySorted_inv in HS as [_ HS]. rewrite Forall_forall in HS. apply HS. by apply list_elem_of_filter.
    + intros c. specialize (HS c). unfold by_client in HS. rewrite filter_cons in HS.
      case_decide; [by apply StronglySorted_inv in HS as [? _]|done].
  - cbn [kv_serve kv_plain]. by rewrite IH.
Qed.

Section Serial.
Context {Timestamp : Type} (as_nanos : Timestamp → Z) (from_nanos : Z → Timestamp).
#[local] Hint Extern 0 (StateMachine _) => exact (KvStore_StateMachine Wrapping) : typeclass_instances.
Implicit Types t : Threads.

(** The executor is that store, as long as no system call fails. *)
Lemma run_jobs_serve rs x e d :
  ex_engine x = Some e → ex_world x = calm d →
  length (kv_serve (applied e) (state e) rs).1 = length rs ∧
  ∃ x', run_jobs Wrapping as_nanos from_nanos rs x = (map Some (kv_serve (applied e) (state e) rs).1, x').
Proof.
  revert x e d; induction rs as [|[op|] rs IH]; intros x e d Ee Ew.
  - split; [done|]. by exists x.
  - cbn [run_jobs exec_job kv_serve]. destruct (Z.leb_spec (op_seq op) (hw (applied e) (op_client op))) as [Hc|Hc].
    + destruct (exec_apply_covered as_nanos from_nanos x e d op Ee Ew Hc) as (x1 & E1 & Ee1 & Ew1).
      destruct (IH x1 (count_suppressed e) d Ee1 Ew1) as [Hl (x' & E')]. rewrite E1, E'. cbn in *.
      destruct (kv_serve (applied e) (state e) rs). cbn in *. split; [by f_equal|by exists x'].
    + destruct (kv_apply_total (state e) op) as [[s' out] Happ].
      destruct (exec_apply_calm as_nanos from_nanos x e d op out s' Ee Ew Hc Happ)
        as (x1 & e1 & d1 & E1 & Ee1 & Ew1 & _ & Hs1 & Ha1).
      destruct (IH x1 e1 d1 Ee1 Ew1) as [Hl (x' & E')]. rewrite E1, E', Happ. rewrite Hs1, Ha1 in *.
      destruct (kv_serve _ s' rs). cbn in *. split; [by f_equal|by exists x'].
  - destruct (IH x e d Ee Ew) as [Hl (x' & E')]. cbn [run_jobs exec_job kv_serve]. unfold exec_len. rewrite Ee, E'. cbn in *.
    destruct (kv_serve (applied e) (state e) rs). cbn in *. split; [by f_equal|by exists x'].
Qed.

(** What a handler has asked for, and that its requests carry its own id, the [k]-th after
    [m]. *)
Definition asked_ops (h : Handler) : list Op := omap (λ ro, req_op ro.1) (h_log h).
Definition own_ids (m : Z) t : Prop :=
  ∀ k h, th_handlers t !! k = Some h → Forall (λ op, op_client op = m + 1 + Z.of_nat k) (asked_ops h).
(** No handler was told that the executor is gone. *)
Definition no_gaps t : Prop := ∀ k h r, th_handlers t !! k = Some h → (r, None) ∉ h_log h.

Abbreviation wfire := (th_fire Wrapping as_nanos from_nanos).
Abbreviation wstep := (th_step Wrapping as_nanos from_nanos).

(** An answered request is in the log of its handler. *)
Lemma answered_asked t jo :
  log_ok t → jo ∈ answered t → ∃ h, th_handlers t !! job_reply jo.1 = Some h ∧ (job_req jo.1, Some jo.2) ∈ h_log h.
Proof.
  intros [Hr Hl] Hin. rewrite Forall_forall in Hr. destruct (lookup_lt_is_Some_2 _ _ (Hr jo Hin)) as [h Hh]. exists h. split; [done|].
  assert (Hs : (job_req jo.1, jo.2) ∈ answers_seen h).
  { rewrite (Hl _ _ Hh). unfold answers_to. apply list_elem_of_fmap. exists jo. split; [done|]. by apply list_elem_of_filter. }
  unfold answers_seen in Hs. apply list_elem_of_omap in Hs as ([r o] & Hro & (a & Ha & [= -> ->])%fmap_Some). cbn in Ha. by subst o.
Qed.

Lemma own_ids_fresh (e : Engine KvStore) t :
  log_ok t → own_ids (max_client e) t →
  Forall (λ op, hw (applied e) (op_client op) = 0) (omap req_op (map (job_req ∘ fst) (answered t))).
Proof.
  intros Hl Hid. apply Forall_forall. intros op (r & (jo & -> & Hjo)%list_elem_of_fmap & Hr)%list_elem_of_omap.
  destruct (answered_asked t jo Hl Hjo) as (h & Hh & Hin). specialize (Hid _ _ Hh). rewrite Forall_forall in Hid.
  assert (Hc : op_client op = max_client e + 1 + Z.of_nat (job_reply jo.1)).
  { apply Hid. unfold asked_ops. apply list_elem_of_omap. by exists (job_req jo.1, Some jo.2). }
  unfold hw. destruct (applied e !! op_client op) as [q|] eqn:Ea; [|done]. apply max_client_spec in Ea. lia.
Qed.

Section Opened.
Context (x0 : Executor) (e : Engine KvStore) (d : Dir).
Context (Ee : ex_engine x0 = Some e) (Ew : ex_world x0 = calm d).

(** A job is never the one at which the executor fails. *)
Lemma execute_succeeds t j :
  th_inv Wrapping as_nanos from_nanos x0 t → exec_ended t = false →
  ∃ o x, exec_job Wrapping as_nanos from_nanos (job_req j) (th_exec t) = (Some o, x).
Proof.
  intros Hi Hen. destruct (run_jobs_serve (map (job_req ∘ fst) (answered t) ++ [job_req j]) x0 e d Ee Ew) as [_ (x' & Er)].
  rewrite run_jobs_snoc in Er. pose proof (ti_exec _ _ _ _ _ Hi Hen) as Hx.
  destruct (run_jobs _ _ _ (map (job_req ∘ fst) (answered t)) x0) as [os x1]. cbn in Hx. subst x1.
  destruct (exec_job _ _ _ (job_req j) (th_exec t)) as [[o|] x]; [by eauto|exfalso].
  injection Er as Er _. apply (f_equal last) in Er. rewrite last_snoc in Er.
  destruct (kv_serve _ _ _) as [l s']. cbn [fst] in Er. change (map Some l) with (Some <$> l) in Er. rewrite fmap_last in Er. destruct (last l); done.
Qed.

(** The executor serves until everybody has gone. *)
Definition serving t : Prop :=
  no_gaps t ∧ (exec_ended t = true → th_accept t = AEnded ∧ forallb handler_done (th_handlers t) = true).

Lemma serving_step a t :
  th_inv Wrapping as_nanos from_nanos x0 t → th_enabled a t = true → serving t → serving (wfire a t).
Proof.
  intros Hi He [Hn Hs]. destruct a as [| | |k r|k| | | | |]; cbn [th_enabled] in He;
    rewrite ?andb_true_iff, ?bool_decide_eq_true, ?negb_true_iff in He.
  - destruct He as [Ea _]. split.
    + intros k h r [Hk|[_ Hk]]%lookup_app_Some; [by eapply Hn|].
      apply list_lookup_singleton_Some in Hk as [_ <-]. apply not_elem_of_nil.
    + intros H. destruct (Hs H). congruence.
  - destruct He as [Ea _]. split; [done|]. intros H. destruct (Hs H). congruence.
  - split; [done|]. intros H. by destruct (Hs H).
  - destruct (exec_ended t) eqn:Ee'.
    { destruct (Hs eq_refl) as [_ Hd]. by destruct (all_done_idle t k Hd). }
    cbn [th_fire]. rewrite Ee'. split; [|done]. intros i h r' Hh. cbn [th_handlers] in Hh.
    destruct (decide (k = i)) as [->|Hne]; [|rewrite list_lookup_alter_ne in Hh by done; by eapply Hn].
    rewrite list_lookup_alter_eq in Hh. apply fmap_Some in Hh as (h0 & Hh0 & ->). exact (Hn i h0 r' Hh0).
  - split.
    + intros i h r' Hh. cbn in Hh. destruct (decide (k = i)) as [->|Hne]; [|rewrite list_lookup_alter_ne in Hh by done; by eapply Hn].
      rewrite list_lookup_alter_eq in Hh. apply fmap_Some in Hh as (h0 & Hh0 & ->). exact (Hn i h0 r' Hh0).
    + intros H. destruct (Hs H) as [_ Hd]. by destruct (all_done_idle t k Hd).
  - destruct He as [Ee' _]. destruct (th_queue t) as [|j q] eqn:Eq; [cbn; by rewrite Eq|].
    destruct (execute_succeeds t j Hi Ee') as (o & x & Ej). cbn [th_fire]. rewrite Eq, Ej. split; [|done].
    intros i h r' Hh. cbn [th_handlers] in Hh.
    destruct (decide (job_reply j = i)) as [<-|Hne]; [|rewrite list_lookup_alter_ne in Hh by done; by eapply Hn].
    rewrite list_lookup_alter_eq in Hh. apply fmap_Some in Hh as (h0 & Hh0 & ->). unfold answer.
    destruct (h_state h0); [by eapply Hn| |by eapply Hn]. cbn [h_log].
    intros [Hin|[= ]%list_elem_of_singleton]%elem_of_app. by eapply Hn.
  - destruct He as [[[_ _] Ha] Hd]. by split.
  - by split.
  - by split.
  - by split.
Qed.

Lemma serving_reached t :
  rtc wstep (th_start x0) t → serving t ∧ th_inv Wrapping as_nanos from_nanos x0 t.
Proof.
  intros Hr. apply (rtc_ind_r (R := wstep) (λ t, serving t ∧ th_inv Wrapping as_nanos from_nanos x0 t) (th_start x0)).
  - split; [|apply th_inv_start]. unfold th_start. rewrite Ee. split; [|done]. by intros k h r ?.
  - intros y z _ [a y' He] [Hs Hi]. split; [by apply serving_step|]. eapply th_inv_step; [by constructor|done].
  - done.
Qed.
End Opened.

(** C36: The threads of a server are one store. Started on any directory, when no system
    call fails and every handler puts its own id in its requests (the [k]-th after the
    largest recovered one, so before the 32-bit counter wraps): however the handlers'
    questions interleave, the answers are those of a single store to the same requests in
    the order in which they were served, where a request whose number is not above those
    its connection used before is answered [Suppressed] and changes nothing; when the
    numbers of every connection start at 1 and rise, that is the plain store, every request applied
    exactly once. Every handler has got exactly the answers to its own questions, in its
    own order, and nobody is ever told that the executor is gone. *)
Theorem threads_exactly_once interval fs tick d x0 m t :
  service_start Wrapping interval fs tick (calm d) = (x0, m) →
  rtc wstep (th_start x0) t → own_ids m t →
  ∃ e, ex_engine x0 = Some e ∧
    let asked := map (job_req ∘ fst) (answered t) in
    map snd (answered t) = (kv_serve ∅ (state e) asked).1 ∧
    (rising asked → map snd (answered t) = (kv_plain (state e) asked).1) ∧
    ∀ k h, th_handlers t !! k = Some h →
      h_log h = map (λ ra, (ra.1, Some ra.2)) (answers_to k (answered t)).
Proof.
  intros Hstart Hr Hid. unfold service_start in Hstart. destruct (kv_boot_typed d interval fs) as (e & Eb & _).
  rewrite Eb, usize_arith_wrapping in Hstart. injection Hstart as <- <-. exists e. split; [done|].
  set (x0 := mkExecutor _ _ _ _) in *. intros asked.
  destruct (serving_reached x0 e d eq_refl eq_refl t Hr) as [[Hn _] Hi]. pose proof (ti_log _ _ _ _ _ Hi) as Hl.
  pose proof (own_ids_fresh e t Hl Hid) as Hf. fold asked in Hf.
  assert (Ha : map snd (answered t) = (kv_serve ∅ (state e) asked).1).
  { destruct (run_jobs_serve asked x0 e d eq_refl eq_refl) as [_ (x' & Er)].
    pose proof (ti_served _ _ _ _ _ Hi) as Hs. fold asked in Hs. rewrite Er in Hs. cbn [fst] in Hs.
    assert (E2 : map (Some ∘ snd) (answered t) = map Some (map snd (answered t))) by by rewrite map_map.
    rewrite E2 in Hs. apply (inj (fmap (M := list) Some)) in Hs. rewrite <- Hs. f_equal. by apply kv_serve_marks. }
  split; [done|]. split.
  - intros [Hpos Hsort]. rewrite Ha. f_equal. apply kv_serve_rising; [|done].
    eapply Forall_impl; [exact Hpos|]. intros op Hop. change (hw ∅ (op_client op)) with 0. cbn in Hop. lia.
  - intros k h Hk. destruct Hl as [_ Hl]. rewrite <- (Hl k h Hk). unfold answers_seen. specialize (Hn k h).
    assert (Hn' : ∀ r, (r, None) ∉ h_log h) by (intros r; by apply Hn). clear -Hn'.
    induction (h_log h) as [|[r [o|]] l IH]; [done| |].
    + cbn. rewrite <- IH by (intros r' Hin; apply (Hn' r'); by right). done.
    + destruct (Hn' r). left.
Qed.
End Serial.

(** ** Witnesses: two connections, interleaved, one of which uses a number twice; then [stop] *)

Definition threads_w : list ThAction :=
  [Accept; Accept; Ask 1 (ReqApply (op_set_bytes 2 1 (bs "a") (bs "7"))); Ask 0 (ReqApply (op_incr 1 1 (bs "a") 4));
   Execute; Ask 1 (ReqApply (op_del 2 1 (bs "a"))); Execute; Execute; Ask 0 (ReqApply (op_get 1 2 (bs "a"))); Execute].

Definition th_run (acts : list ThAction) (t : Threads) : option Threads :=
  fold_left (λ o a, t ← o; if th_enabled a t then Some (th_fire Wrapping id id a t) else None) acts (Some t).

Lemma th_run_steps acts t t' : th_run acts t = Some t' → rtc (th_step Wrapping id id) t t'.
Proof.
  unfold th_run. assert (Hnone : ∀ acts, fold_left (λ o a, t ← o; if th_enabled a t then Some (th_fire Wrapping id id a t) else None)
    acts None = None) by (induction acts0; done).
  revert t; induction acts as [|a acts IH]; intros t; cbn [fold_left mbind option_bind]; [by intros [= ->]|].
  destruct (th_enabled a t) eqn:E; [|by rewrite Hnone]. intros Hr. eapply rtc_l; [by constructor|by apply IH].
Qed.

Definition exec_w : Executor := (service_start Wrapping 2 true 1 (calm ∅)).1.
Definition served_w : Threads := default (th_start exec_w) (th_run threads_w (th_start exec_w)).

Lemma served_w_reached : rtc (th_step Wrapping id id) (th_start exec_w) served_w.
Proof. apply (th_run_steps threads_w). by vm_compute. Qed.

Lemma threads_exactly_once_witness :
  ∃ e, ex_engine exec_w = Some e ∧
    map snd (answered served_w) = (kv_serve ∅ (state e) (map (job_req ∘ fst) (answered served_w))).1 ∧
    map snd (answered served_w) =
      [RespOut OutOk; RespOut (OutValue (Some 11)); RespOut OutSuppressed; RespOut (OutBytes (Some (bs "11")))].
Proof.
  destruct (threads_exactly_once id id 2 true 1 ∅ exec_w 0 served_w) as (e & Ee & Ha & _).
  - reflexivity.
  - exact served_w_reached.
  - intros [|[|k]] h; [| |by vm_compute]; intros Hk; vm_compute in Hk; injection Hk as <-; by_decision.
  - exists e. split; [done|]. split; [done|]. by vm_compute.
Defined.

Lemma stop_terminates_witness :
  ∃ t', rtc (quiet_step Wrapping id id) (th_fire Wrapping id id StopCall served_w) t' ∧ all_ended t'.
Proof.
  apply (stop_terminates Wrapping id id exec_w (th_fire Wrapping id id StopCall served_w)); [|done].
  eapply rtc_r; [exact served_w_reached|by constructor; vm_compute].
Defined.
