(* ===== verification/Resp.v ===== *)
(** * Resp: the Redis protocol ([crates/onebarrier/src/resp.rs] and the RESP part of
    [server.rs])

    Parsing of commands (arrays of bulk strings, inline commands), rendering of
    replies, the dispatch of a command to the service, and the loop that serves a
    connection. *)

From S2P Require Import Prelude Bytes Text Io State Net Service.
Local Open Scope Z_scope.

(** ** Replies *)

Inductive Reply :=
  | Simple (s : bytes)
  | Error (s : bytes)
  | Int (n : Z)
  | Bulk (b : option bytes)
  | Array (items : list Reply).

Definition reply_ok : Reply := Simple (bs "OK").
Definition reply_pong : Reply := Simple (bs "PONG").

Fixpoint to_bytes (r : Reply) : bytes :=
  match r with
  | Simple s => bs "+" ++ s ++ CRLF
  | Error s => bs "-" ++ s ++ CRLF
  | Int n => bs ":" ++ to_string n ++ CRLF
  | Bulk None => bs "$-1" ++ CRLF
  | Bulk (Some b) => bs "$" ++ to_string (len b) ++ CRLF ++ b ++ CRLF
  | Array items => bs "*" ++ to_string (len items) ++ CRLF ++ concat (map to_bytes items)
  end.

(** ** Commands *)

Section Commands.
Context (memory : Z).

(** [None]: end of the stream. *)
Definition read_line : M Conn (option bytes) :=
  raw ← read_until_lf;
  mret (match raw with [] => None | _ => Some (pop_line_end raw) end).

Definition parse_int (b : bytes) : M Conn Z :=
  match parse_trimmed b with Some n => mret n | None => fail InvalidData end.

(** One argument: [$len] and [len] bytes with their CRLF. *)
Definition read_arg : M Conn bytes :=
  hdr ← read_line;
  match hdr with
  | None => fail UnexpectedEof
  | Some (Byte.x24 :: num) =>
      n ← parse_int num;
      if n <? 0 then mret []
      else
        _ ← alloc memory (n + 2);
        buf ← read_exact (Z.to_nat (n + 2));
        mret (take (Z.to_nat n) buf)
  | Some _ => fail InvalidData
  end.

Fixpoint read_args (n : nat) : M Conn (list bytes) :=
  match n with
  | O => mret []
  | S n => a ← read_arg; l ← read_args n; mret (a :: l)
  end.

Definition read_command : M Conn (option (list bytes)) :=
  line ← read_line;
  match line with
  | None => mret None
  | Some [] => mret (Some [])
  | Some (Byte.x2a :: num) =>
      n ← parse_int num;
      if n <=? 0 then mret (Some [])
      else
        _ ← alloc memory (24 * n);
        args ← read_args (Z.to_nat n);
        mret (Some args)
  | Some line => mret (Some (nonempty (split_on is_ascii_whitespace line)))
  end.
End Commands.

(** ** Serving a connection *)

Section Serve.
Context (am : arith_mode) (memory : Z) {σ : Type} `{!KvService σ}.

Definition unavailable : Reply := Error (bs "ERR executor unavailable").

(** [INCRBY] and [DECRBY] carry their amount; it must be an integer. *)
Definition incr_amount (name : bytes) (args : list bytes) : option Z :=
  if bool_decide (name = bs "INCRBY" ∨ name = bs "DECRBY")
  then a ← args !! 2%nat; parse_untrimmed a
  else Some 1.

(** The loop of [DEL]: one operation per key, all with the command's sequence
    number. *)
Fixpoint del_each (client seq : Z) (keys : list bytes) (count : Z) : M (Conn * σ) Z :=
  match keys with
  | [] => mret count
  | k :: keys =>
      o ← apply (op_del client seq (from_utf8_lossy k));
      del_each client seq keys
        (match o with Some (OutValue (Some n)) => count + n | _ => count end)
  end.

Definition resp_dispatch (args : list bytes) (client seq : Z) : M (Conn * σ) Reply :=
  let arg i := default [] (args !! i) in
  let name := to_ascii_uppercase (arg 0%nat) in
  let key := from_utf8_lossy (arg 1%nat) in
  let cmd s := bool_decide (name = bs s) in
  let atleast n := (n <=? length args)%nat in
  if cmd "PING" then mret (if atleast 2%nat then Bulk (Some (arg 1%nat)) else reply_pong)
  else if cmd "SET" && atleast 3%nat then
    o ← apply (op_set_bytes client seq key (arg 2%nat));
    mret (match o with Some _ => reply_ok | None => unavailable end)
  else if cmd "GET" && atleast 2%nat then
    o ← apply (op_get client seq key);
    mret (match o with Some (OutBytes b) => Bulk b | _ => Bulk None end)
  else if (cmd "INCR" || cmd "DECR" || cmd "INCRBY" || cmd "DECRBY") && atleast 2%nat then
    match incr_amount name args with
    | None => mret (Error (bs "ERR value is not an integer or out of range"))
    | Some mag =>
        delta ← unwrap (if cmd "DECR" || cmd "DECRBY" then i64_arith am (- mag) else Some mag);
        o ← apply (op_incr client seq key delta);
        mret (match o with Some (OutValue (Some n)) => Int n | _ => unavailable end)
    end
  else if cmd "DEL" && atleast 2%nat then
    count ← del_each client seq (drop 1 args) 0;
    mret (Int count)
  else if cmd "DBSIZE" then n ← service_len; mret (Int (default 0 n))
  else if cmd "COMMAND" || cmd "CONFIG" then mret (Array [])
  else if cmd "SELECT" || cmd "FLUSHALL" || cmd "FLUSHDB" || cmd "CLIENT" then mret reply_ok
  else if cmd "RESET" then mret (Simple (bs "RESET"))
  else if cmd "INFO" then
    mret (Bulk (Some (bs "# Server" ++ CRLF ++ bs "redis_version:onebarrier-0.1" ++ CRLF)))
  else mret (Error (bs "ERR unknown command '" ++ from_utf8_lossy name ++ bs "'")).

(** One iteration; [seq] is the loop variable. *)
Definition resp_step (client seq : Z) : M (Conn * σ) (option Z) :=
  r ← try (on_conn (read_command memory));
  match r with
  | inl None => mret None
  | inl (Some []) => mret (Some seq)
  | inl (Some ((cmd :: _) as args)) =>
      if eq_ignore_ascii_case cmd (bs "QUIT") then
        _ ← write (to_bytes reply_ok); _ ← flush_writer; mret None
      else
        reply ← resp_dispatch args client (seq + 1);
        _ ← write (to_bytes reply); _ ← flush_writer; mret (Some (seq + 1))
  | inr e => on_read_error seq e
  end.

(** Every iteration that goes on consumes input ([resp_ends]). *)
Definition resp_serve_conn (client : Z) : M (Conn * σ) bool := λ s,
  loop (S (length (input s.1))) (resp_step client) 0 s.
End Serve.

(** ** Clients encode a command as an array of bulk strings ([resp_cmd] of
    [bin/ob_lincheck.rs]) *)

Definition encode_arg (a : bytes) : bytes := bs "$" ++ to_string (len a) ++ CRLF ++ a ++ CRLF.
Definition encode_command (args : list bytes) : bytes :=
  bs "*" ++ to_string (len args) ++ CRLF ++ concat (map encode_arg args).

(** ** Parsing what clients encode *)

Section Roundtrip.
Context (memory : Z).

Definition at_input (c : Conn) (l : list Event) : Conn := set_input c l (shutdown c).

Lemma plain_not_eol b : plain b → b ≠ LF ∧ b ≠ CR.
Proof. intros [_ H]. split; intros ->; vm_compute in H; done. Qed.

Lemma header_no_lf c n : plain c → LF ∉ (c :: to_string n ++ [CR]).
Proof.
  intros Hc Hin. apply elem_of_cons in Hin as [E|Hin].
  - by apply plain_not_eol in Hc as [? _].
  - apply elem_of_app in Hin as [Hin|Hin].
    + pose proof (to_string_plain n) as HF. rewrite Forall_forall in HF.
      apply HF, plain_not_eol in Hin as [? _]. done.
    + by apply list_elem_of_singleton in Hin.
Qed.

Lemma header_last c n : plain c → last (c :: to_string n) ≠ Some LF ∧ last (c :: to_string n) ≠ Some CR.
Proof.
  intros Hc. assert (HF : Forall plain (c :: to_string n)) by (constructor; [done|apply to_string_plain]).
  rewrite Forall_forall in HF.
  split; intros E%last_Some_elem_of; by apply HF, plain_not_eol in E as [? ?].
Qed.

Lemma read_line_header c n conn l :
  plain c →
  read_line (at_input conn (data (c :: to_string n ++ CRLF) ++ l)) =
    (Ok (Some (c :: to_string n)), at_input conn l).
Proof.
  intros Hc. pose proof (header_last c n Hc) as [H1 H2].
  assert (E : c :: to_string n ++ CRLF = (c :: to_string n ++ [CR]) ++ [LF]).
  { cbn. f_equal. by rewrite <- app_assoc. }
  unfold read_line. rewrite run_bind. unfold read_until_lf. cbn [input at_input set_input Net.shutdown].
  rewrite E, take_until_lf_line by by apply header_no_lf. rewrite <- E.
  change (c :: to_string n ++ CRLF) with ((c :: to_string n) ++ CRLF).
  destruct ((c :: to_string n) ++ CRLF) as [|x y] eqn:Ex; [done|]. rewrite <- Ex, pop_line_end_crlf by done.
  done.
Qed.

Lemma parse_int_to_string n s : is_i64 n → parse_int (to_string n) s = (Ok n, s).
Proof. intros H. unfold parse_int. by rewrite parse_trimmed_to_string. Qed.

Definition fits (a : bytes) : Prop := len a + 2 <= memory ∧ len a + 2 <= ISIZE_MAX.

Lemma read_arg_encoded a conn l :
  fits a →
  read_arg memory (at_input conn (data (encode_arg a) ++ l)) = (Ok a, at_input conn l).
Proof.
  intros [Hm Hi]. unfold encode_arg. cbn [bs app String.list_byte_of_string].
  assert (E : Byte.x24 :: to_string (len a) ++ CRLF ++ a ++ CRLF =
              (Byte.x24 :: to_string (len a) ++ CRLF) ++ a ++ CRLF).
  { cbn. f_equal. by rewrite <- app_assoc. }
  change (bs "$" ++ to_string (len a) ++ CRLF ++ a ++ CRLF)
    with (Byte.x24 :: to_string (len a) ++ CRLF ++ a ++ CRLF).
  rewrite E, data_app, <- app_assoc. unfold read_arg.
  rewrite run_bind, read_line_header by by vm_compute.
  rewrite run_bind, parse_int_to_string by width_lia.
  rewrite (proj2 (Z.ltb_ge _ _)) by lia. rewrite run_bind. unfold alloc.
  rewrite (proj2 (Z.ltb_ge _ _)) by done. rewrite (proj2 (Z.ltb_ge _ _)) by done.
  rewrite run_bind. unfold read_exact. cbn [input at_input set_input].
  replace (Z.to_nat (len a + 2)) with (length (a ++ CRLF)) by (rewrite length_app; cbn; lia).
  rewrite take_exact_data. rewrite Nat2Z.id, take_len_app. done.
Qed.

Lemma read_args_encoded args conn l :
  Forall fits args →
  read_args memory (length args) (at_input conn (data (concat (map encode_arg args)) ++ l)) =
    (Ok args, at_input conn l).
Proof.
  induction 1 as [|a args Ha _ IH]; [done|]. cbn [length read_args map concat].
  rewrite data_app, <- app_assoc. rewrite run_bind, read_arg_encoded by done. by rewrite run_bind, IH.
Qed.

Lemma read_command_encoded args conn l :
  args ≠ [] → Forall fits args → 24 * len args <= memory → 24 * len args <= ISIZE_MAX →
  read_command memory (at_input conn (data (encode_command args) ++ l)) = (Ok (Some args), at_input conn l).
Proof.
  intros Hne HF Hm Hi. unfold encode_command.
  assert (E : bs "*" ++ to_string (len args) ++ CRLF ++ concat (map encode_arg args) =
              (Byte.x2a :: to_string (len args) ++ CRLF) ++ concat (map encode_arg args)).
  { cbn. f_equal. by rewrite <- app_assoc. }
  rewrite E, data_app, <- app_assoc. unfold read_command.
  rewrite run_bind, read_line_header by by vm_compute.
  rewrite run_bind, parse_int_to_string by width_lia.
  assert (0 < len args) by (destruct args; [done|cbn; lia]).
  rewrite (proj2 (Z.leb_gt _ _)) by lia. rewrite run_bind. unfold alloc.
  rewrite (proj2 (Z.ltb_ge _ _)) by done. rewrite (proj2 (Z.ltb_ge _ _)) by done.
  rewrite run_bind, Nat2Z.id, read_args_encoded by done. done.
Qed.
End Roundtrip.

(** ** Every connection ends *)

Section Ends.
Context (am : arith_mode) (memory : Z) {σ : Type} `{!KvService σ}.

Lemma ungrowing_parse_int b : ungrowing (parse_int b).
Proof. unfold parse_int. case_match; auto with ob. Qed.
Lemma ungrowing_read_arg : ungrowing (read_arg memory).
Proof.
  unfold read_arg, read_line. apply ungrowing_bind; [auto with ob|]. intros [[|[] num]|]; auto with ob.
  apply ungrowing_bind; [apply ungrowing_parse_int|]. intros n. case_match; auto with ob.
Qed.
Lemma ungrowing_read_args n : ungrowing (read_args memory n).
Proof. induction n; cbn; auto using ungrowing_read_arg with ob. Qed.

Lemma read_command_progress c r c' :
  read_command memory c = (r, c') → r ≠ Ok None → (length (input c') < length (input c))%nat.
Proof.
  intros E Hr. apply map_read_progress in E as [?|(c1 & _ & [= <- _])]; [done|done|].
  intros [[|[] num]|]; auto with ob.
  apply ungrowing_bind; [apply ungrowing_parse_int|]. intros n. case_match; auto using ungrowing_read_args with ob.
Qed.

Lemma quiet_del_each client seq keys count : quiet (σ := σ) (del_each client seq keys count).
Proof. revert count; induction keys; intros; cbn [del_each]; auto with ob. Qed.

Lemma quiet_dispatch args client seq : quiet (σ := σ) (resp_dispatch am args client seq).
Proof. unfold resp_dispatch. quiet_auto. apply quiet_del_each. Qed.

Lemma resp_step_consumes client :
  consumes (λ s : Conn * σ, length (input s.1)) (resp_step am memory client).
Proof.
  apply read_step_consumes; [apply read_command_progress| |done].
  intros seq r. apply quiet_ungrows. quiet_auto. apply quiet_dispatch.
Qed.
End Ends.
