(* ===== verification/RespSession.v ===== *)
(** * RespSession: what a Redis client observes

    An abstract specification of the commands on a plain map, and the refinement: a
    connection whose client sends commands in the RESP encoding, served by the
    executor over the engine, the log and the snapshots, gets the replies of the
    specification. *)

From S2P Require Import Prelude Bytes Text Io State Durable Engine EngineFacts CrashSafety Lifetimes Cadence Net Service Serving Resp.
Local Open Scope Z_scope.

(** ** Specification *)

Inductive Command :=
  | CPing
  | CSet (k v : bytes)
  | CGet (k : bytes)
  | CIncrBy (k : bytes) (d : Z)
  | CDecr (k : bytes)
  | CDel (k : bytes) (ks : list bytes)
  | CDbSize.

(** What the client sends. *)
Definition command_args (cmd : Command) : list bytes :=
  match cmd with
  | CPing => [bs "PING"]
  | CSet k v => [bs "SET"; k; v]
  | CGet k => [bs "GET"; k]
  | CIncrBy k d => [bs "INCRBY"; k; to_string d]
  | CDecr k => [bs "DECR"; k]
  | CDel k ks => bs "DEL" :: k :: ks
  | CDbSize => [bs "DBSIZE"]
  end.

Definition spec_incr (m : Map) (k : bytes) (d : Z) : Reply * Map :=
  let next := i64_wrap (default 0 (m !! k ≫= parse_trimmed) + d) in
  (Int next, <[k := to_string next]> m).

(** The reply and the next map. Keys are text: invalid UTF-8 is replaced. [DEL] acts
    on its first key only. *)
Definition command_spec (m : Map) (cmd : Command) : Reply * Map :=
  match cmd with
  | CPing => (Simple (bs "PONG"), m)
  | CSet k v => (Simple (bs "OK"), <[from_utf8_lossy k := v]> m)
  | CGet k => (Bulk (m !! from_utf8_lossy k), m)
  | CIncrBy k d => spec_incr m (from_utf8_lossy k) d
  | CDecr k => spec_incr m (from_utf8_lossy k) (-1)
  | CDel k _ =>
      (Int (if m !! from_utf8_lossy k is Some _ then 1 else 0), delete (from_utf8_lossy k) m)
  | CDbSize => (Int (Z.of_nat (size m)), m)
  end.

Fixpoint session_spec (m : Map) (cmds : list Command) : list Reply * Map :=
  match cmds with
  | [] => ([], m)
  | cmd :: cmds =>
      let '(r, m) := command_spec m cmd in
      let '(rs, m) := session_spec m cmds in (r :: rs, m)
  end.

(** Arguments the server can hold in memory. *)
Definition sendable (memory : Z) (cmd : Command) : Prop :=
  Forall (fits memory) (command_args cmd) ∧
  24 * len (command_args cmd) <= memory ∧ 24 * len (command_args cmd) <= ISIZE_MAX ∧
  match cmd with CIncrBy _ d => is_i64 d | _ => True end.

#[export] Instance sendable_dec memory cmd : Decision (sendable memory cmd).
Proof. unfold sendable, fits. destruct cmd; apply _. Defined.

(** How many operations a command makes. *)
Definition command_ops (cmd : Command) : Z :=
  match cmd with
  | CPing | CDbSize => 0
  | CDel _ ks => 1 + len ks
  | _ => 1
  end.
Definition session_ops (cmds : list Command) : Z := sumZ command_ops cmds.

Section Session.
Context {Timestamp : Type} (as_nanos : Timestamp → Z) (from_nanos : Z → Timestamp).
#[local] Hint Extern 0 (StateMachine _) => exact (KvStore_StateMachine Wrapping) : typeclass_instances.
#[local] Hint Extern 0 (KvService Executor) => exact (Executor_service Wrapping as_nanos from_nanos) : typeclass_instances.
Implicit Types (m : Map) (x : Executor).

(** ** One command *)

Definition replies x m c seq n (cmd : Command) : Prop :=
  ∀ conn, ∃ x',
    resp_dispatch (σ := Executor) Wrapping (command_args cmd) c (seq + 1) (conn, x) =
      (Ok (command_spec m cmd).1, (conn, x')) ∧
    Serving x' (command_spec m cmd).2 c (seq + 1) (n - command_ops cmd).

Lemma dispatch_ping x m c seq n : Serving x m c seq n → replies x m c seq n CPing.
Proof.
  intros HS conn. exists x. split; [done|]. cbn. eapply Serving_weaken; [done|lia|lia].
Qed.

(** The branch a command takes. *)
Lemma dispatch_set_eq k v c seq :
  resp_dispatch (σ := Executor) Wrapping (command_args (CSet k v)) c seq =
    (o ← apply (op_set_bytes c seq (from_utf8_lossy k) v);
     mret (match o with Some _ => reply_ok | None => unavailable end)).
Proof. reflexivity. Qed.
Lemma dispatch_get_eq k c seq :
  resp_dispatch (σ := Executor) Wrapping (command_args (CGet k)) c seq =
    (o ← apply (op_get c seq (from_utf8_lossy k));
     mret (match o with Some (OutBytes b) => Bulk b | _ => Bulk None end)).
Proof. reflexivity. Qed.
Lemma dispatch_incr_eq k d c seq :
  is_i64 d →
  resp_dispatch (σ := Executor) Wrapping (command_args (CIncrBy k d)) c seq =
    (delta ← unwrap (Some d);
     o ← apply (op_incr c seq (from_utf8_lossy k) delta);
     mret (match o with Some (OutValue (Some n)) => Int n | _ => unavailable end)).
Proof.
  intros Hd. assert (E : incr_amount (bs "INCRBY") [bs "INCRBY"; k; to_string d] = Some d).
  { unfold incr_amount. cbn. by apply parse_untrimmed_to_string. }
  transitivity (match incr_amount (bs "INCRBY") [bs "INCRBY"; k; to_string d] with
    | None => mret (Error (bs "ERR value is not an integer or out of range"))
    | Some mag =>
        delta ← unwrap (Some mag);
        o ← apply (σ := Executor) (op_incr c seq (from_utf8_lossy k) delta);
        mret (match o with Some (OutValue (Some n)) => Int n | _ => unavailable end)
    end); [reflexivity|]. by rewrite E.
Qed.
Lemma dispatch_decr_eq k c seq :
  resp_dispatch (σ := Executor) Wrapping (command_args (CDecr k)) c seq =
    (delta ← unwrap (i64_arith Wrapping (-1));
     o ← apply (op_incr c seq (from_utf8_lossy k) delta);
     mret (match o with Some (OutValue (Some n)) => Int n | _ => unavailable end)).
Proof. reflexivity. Qed.
Lemma dispatch_del_eq k ks c seq :
  resp_dispatch (σ := Executor) Wrapping (command_args (CDel k ks)) c seq =
    (count ← del_each c seq (k :: ks) 0; mret (Int count)).
Proof. reflexivity. Qed.
Lemma dispatch_dbsize_eq c seq :
  resp_dispatch (σ := Executor) Wrapping (command_args CDbSize) c seq =
    (n ← service_len; mret (Int (default 0 n))).
Proof. reflexivity. Qed.

(** The rest of the keys of a [DEL] are duplicates of its first operation. *)
Lemma del_each_dups ks x m c seq n count conn :
  Serving x m c seq n → len ks <= n → (∃ e, ex_engine x = Some e ∧ seq <= hw (applied e) c) →
  ∃ x', del_each (σ := Executor) c seq ks count (conn, x) = (Ok count, (conn, x')) ∧
    Serving x' m c seq (n - len ks).
Proof.
  revert x n; induction ks as [|k ks IH]; intros x n HS Hn Hh.
  { exists x. cbn. rewrite Z.sub_0_r. done. }
  rewrite length_cons, Nat2Z.inj_succ in Hn |- *.
  destruct (exec_apply_dup as_nanos from_nanos x m c seq n (op_del c seq (from_utf8_lossy k)) HS ltac:(lia) eq_refl Hh)
    as (x1 & E & HS1 & Hh1).
  destruct (IH x1 (n - 1) HS1 ltac:(lia) Hh1) as (x' & E' & HS').
  exists x'. cbn [del_each]. rewrite run_bind, (run_apply as_nanos from_nanos _ _ _ _ _ E), E'. split; [done|].
  by replace (n - Z.succ (len ks)) with (n - 1 - len ks) by lia.
Qed.

Lemma dispatch_spec x m c seq n cmd :
  Serving x m c seq n → command_ops cmd <= n → (if cmd is CIncrBy _ d then is_i64 d else True) →
  replies x m c seq n cmd.
Proof.
  intros HS Hn Hd conn.
  assert (Hone : ∀ op out m', 1 <= n → op_client op = c → op_seq op = seq + 1 →
    kv_apply Wrapping (mkKv m) op = Some (mkKv m', out) →
    ∃ x', apply (σ := Executor) op (conn, x) = (Ok (Some out), (conn, x')) ∧
      Serving x' m' c (seq + 1) (n - 1) ∧ ∃ e, ex_engine x' = Some e ∧ hw (applied e) c = seq + 1).
  { intros op out m' Hn1 Hc Hs Ha.
    destruct (exec_apply_new as_nanos from_nanos x m c seq n op out m' HS Hn1 Hc ltac:(lia) Ha) as (x' & E & HS' & Hh).
    rewrite Hs in HS', Hh. exists x'. split; [by apply run_apply|done]. }
  destruct cmd as [|k v|k|k d|k|k ks|]; cbn [command_ops] in Hn.
  - by apply dispatch_ping.
  - destruct (Hone (op_set_bytes c (seq + 1) (from_utf8_lossy k) v) OutOk (<[from_utf8_lossy k := v]> m) Hn
      eq_refl eq_refl eq_refl) as (x' & E & HS' & _).
    exists x'. by rewrite dispatch_set_eq, run_bind, E.
  - destruct (Hone (op_get c (seq + 1) (from_utf8_lossy k)) (OutBytes (m !! from_utf8_lossy k)) m Hn
      eq_refl eq_refl eq_refl) as (x' & E & HS' & _).
    exists x'. by rewrite dispatch_get_eq, run_bind, E.
  - destruct (Hone (op_incr c (seq + 1) (from_utf8_lossy k) d) _ _ Hn eq_refl eq_refl
      (kv_incr_wrapping m c (seq + 1) (from_utf8_lossy k) d))
      as (x' & E & HS' & _).
    exists x'. rewrite dispatch_incr_eq by done. rewrite run_bind. cbn [unwrap]. by rewrite run_bind, E.
  - destruct (Hone (op_incr c (seq + 1) (from_utf8_lossy k) (-1)) _ _ Hn eq_refl eq_refl
      (kv_incr_wrapping m c (seq + 1) (from_utf8_lossy k) (-1)))
      as (x' & E & HS' & _).
    exists x'. rewrite dispatch_decr_eq, (run_bind_ok _ _ _ (-1) (conn, x)) by done. by rewrite run_bind, E.
  - set (key := from_utf8_lossy k).
    destruct (Hone (op_del c (seq + 1) key) (OutValue (Some (if m !! key is Some _ then 1 else 0)))
      (delete key m) ltac:(lia) eq_refl eq_refl eq_refl) as (x1 & E & HS1 & e1 & Ee & Hh).
    destruct (del_each_dups ks x1 (delete key m) c (seq + 1) (n - 1)
      (0 + if m !! key is Some _ then 1 else 0) conn HS1 ltac:(lia)) as (x' & E' & HS').
    { exists e1. split; [done|lia]. }
    exists x'. rewrite dispatch_del_eq, run_bind. cbn [del_each]. fold key. rewrite run_bind, E, E'.
    split; [done|]. cbn [command_spec snd command_ops].
    by replace (n - (1 + len ks)) with (n - 1 - len ks) by lia.
  - pose proof HS as [(e & d & Ee & _ & Em & _) _]. exists x. rewrite dispatch_dbsize_eq, run_bind.
    unfold service_len. cbn [svc_len Executor_service snd]. unfold exec_len. rewrite Ee. split.
    + cbn. unfold kv_len. by rewrite Em.
    + cbn. eapply Serving_weaken; [done|lia|lia].
Qed.

(** ** A whole connection *)

Context (memory : Z).

(** The bytes of a pipeline of commands. *)
Definition pipeline (cmds : list Command) : bytes :=
  concat (map (λ cmd, encode_command (command_args cmd)) cmds).

Definition conn_of (b out : bytes) (sd : bool) : Conn := mkConn (data b) sd [] out None.

(** One iteration: the first command is read, dispatched, answered. *)
Lemma resp_step_dispatched x x' c seq cmd r b out sd :
  sendable memory cmd →
  (let conn := at_input (conn_of [] out sd) (data b) in
   resp_dispatch (σ := Executor) Wrapping (command_args cmd) c (seq + 1) (conn, x) = (Ok r, (conn, x'))) →
  resp_step (σ := Executor) Wrapping memory c seq (conn_of (encode_command (command_args cmd) ++ b) out sd, x) =
    (Ok (Some (seq + 1)), (conn_of b (out ++ to_bytes r) sd, x')).
Proof.
  intros (HF & Hm & Hi & _) HD. unfold resp_step. rewrite run_bind.
  assert (Hne : command_args cmd ≠ []) by by destruct cmd.
  pose proof (read_command_encoded memory (command_args cmd) (conn_of [] out sd) (data b) Hne HF Hm Hi) as Hr.
  unfold try, on_conn, zoom. cbn [fst].
  assert (Hc : conn_of (encode_command (command_args cmd) ++ b) out sd =
    at_input (conn_of [] out sd) (data (encode_command (command_args cmd)) ++ data b)).
  { unfold conn_of, at_input, set_input. cbn. by rewrite data_app. }
  rewrite Hc, Hr. cbn [snd].
  assert (Hq : ∃ a l, command_args cmd = a :: l ∧ eq_ignore_ascii_case a (bs "QUIT") = false)
    by (destruct cmd; eexists _, _; split; reflexivity).
  destruct Hq as (a & l & Ea & Hq). rewrite Ea, Hq, <- Ea.
  rewrite run_bind, HD. rewrite run_bind. unfold write, on_conn, zoom, write_all, modify.
  cbn [fst snd at_input set_input conn_of input shutdown buffered flushed flushes_left app]. done.
Qed.

Lemma resp_step_command x m c seq n cmd b out sd :
  Serving x m c seq n → command_ops cmd <= n → sendable memory cmd →
  ∃ x', resp_step (σ := Executor) Wrapping memory c seq
      (conn_of (encode_command (command_args cmd) ++ b) out sd, x) =
    (Ok (Some (seq + 1)), (conn_of b (out ++ to_bytes (command_spec m cmd).1) sd, x')) ∧
    Serving x' (command_spec m cmd).2 c (seq + 1) (n - command_ops cmd).
Proof.
  intros HS Hn Hs.
  destruct (dispatch_spec x m c seq n cmd HS Hn ltac:(by destruct Hs as (_ & _ & _ & ?))
    (at_input (conn_of [] out sd) (data b))) as (x' & E & HS').
  exists x'. split; [|done]. by apply resp_step_dispatched.
Qed.

Lemma session_refines cmds fuel x m c seq n out sd :
  Serving x m c seq n → Forall (sendable memory) cmds → session_ops cmds <= n →
  (length cmds < fuel)%nat →
  ∃ conn x', loop fuel (resp_step (σ := Executor) Wrapping memory c) seq
      (conn_of (pipeline cmds) out sd, x) = (Ok true, (conn, x')) ∧
    flushed conn = out ++ concat (map to_bytes (session_spec m cmds).1) ∧
    Serving x' (session_spec m cmds).2 c (seq + len cmds) (n - session_ops cmds).
Proof.
  intros HS HF. revert fuel x m seq n out HS. induction HF as [|cmd cmds Hc _ IH]; intros fuel x m seq n out HS Hn Hf.
  - destruct fuel as [|fuel]; [lia|]. eexists _, x. split; [reflexivity|]. cbn.
    rewrite app_nil_r. split; [done|]. eapply Serving_weaken; [done|lia|unfold session_ops; cbn; lia].
  - destruct fuel as [|fuel]; [cbn in Hf; lia|].
    change (pipeline (cmd :: cmds)) with (encode_command (command_args cmd) ++ pipeline cmds).
    unfold session_ops in Hn. cbn [sumZ] in Hn. fold (session_ops cmds) in Hn.
    assert (Hnn : 0 <= session_ops cmds).
    { apply sumZ_nonneg. intros []; cbn; lia. }
    destruct (resp_step_command x m c seq n cmd (pipeline cmds) out sd HS ltac:(lia) Hc) as (x1 & E1 & HS1).
    cbn [loop]. rewrite run_bind, E1.
    destruct (IH fuel x1 (command_spec m cmd).2 (seq + 1) (n - command_ops cmd)
      (out ++ to_bytes (command_spec m cmd).1) HS1 ltac:(lia) ltac:(cbn in Hf; lia))
      as (conn & x' & E & Hout & HS').
    exists conn, x'. split; [done|]. cbn [session_spec].
    destruct (command_spec m cmd) as [r m1]. cbn [fst snd] in *.
    destruct (session_spec m1 cmds) as [rs m2]. cbn [fst snd map concat] in *.
    rewrite Hout, app_assoc. split; [done|].
    eapply Serving_weaken; [done|rewrite length_cons; lia|unfold session_ops; cbn [sumZ]; fold (session_ops cmds); lia].
Qed.

Lemma pipeline_length cmds : (length cmds ≤ length (pipeline cmds))%nat.
Proof.
  induction cmds as [|cmd cmds IH]; [done|]. change (pipeline (cmd :: cmds)) with
    (encode_command (command_args cmd) ++ pipeline cmds). rewrite length_app. cbn. lia.
Qed.

End Session.
