(* ===== verification/RespGuarantees.v ===== *)
(** * RespGuarantees: the Redis front-end

    The refinement of the command specification, the parsing of encoded commands,
    termination of every connection, the identity of new connections after a
    restart; and three defects of the front-end, each shown on the code: [DEL] of
    several keys, a read timeout inside a command, a command name that breaks the
    framing of the reply. *)

From S2P Require Import Prelude Bytes Text Io State Durable Engine EngineFacts CrashSafety Lifetimes Cadence Net Service Serving Resp RespSession.
Local Open Scope Z_scope.

(** [parse_get] of [bin/ob_lincheck.rs]: [s.split("\r\n")] and the second piece. *)
Fixpoint split_crlf (l : bytes) : list bytes :=
  match l with
  | [] => [[]]
  | x :: l' =>
      match l' with
      | y :: l'' =>
          if decide (x = CR ∧ y = LF) then [] :: split_crlf l''
          else match split_crlf l' with p :: ps => (x :: p) :: ps | [] => [[x]] end
      | [] => [[x]]
      end
  end.

Definition parse_get (reply : bytes) : Z :=
  let s := from_utf8_lossy reply in
  if starts_with (bs "$-1") s then 0
  else default 0 (v ← split_crlf s !! 1%nat; parse_i64 v).

Lemma split_crlf_app a b : CR ∉ a → split_crlf (a ++ CRLF ++ b) = a :: split_crlf b.
Proof.
  induction a as [|x a IH]; intros Hn; [done|]. apply not_elem_of_cons in Hn as [Hx Hn].
  specialize (IH Hn). cbn [app]. destruct (a ++ CRLF ++ b) as [|y l] eqn:E; [by destruct a|].
  change (split_crlf (x :: y :: l)) with
    (if decide (x = CR ∧ y = LF) then [] :: split_crlf l
     else match split_crlf (y :: l) with p :: ps => (x :: p) :: ps | [] => [[x]] end).
  rewrite decide_False by (by intros [-> _]). by rewrite IH.
Qed.

Lemma to_string_no_cr z : CR ∉ to_string z.
Proof.
  intros Hin. pose proof (to_string_plain z) as HF. rewrite Forall_forall in HF.
  by apply HF, plain_not_eol in Hin as [_ ?].
Qed.

(** A value is never taken for a missing key. *)
Lemma bulk_not_nil v : starts_with (bs "$-1") (to_bytes (Bulk (Some v))) = false.
Proof.
  cbn [to_bytes]. unfold to_string at 1. destruct (Z.ltb_spec (len v) 0); [lia|].
  destruct (nat_to_string_cons (len v)) as (b & l & Hb). rewrite Hb. cbn.
  rewrite (bool_decide_false (Byte.x2d = b)); [by rewrite andb_false_r|]. intros <-.
  pose proof (nat_to_string_digit (len v) ltac:(lia)) as HF. rewrite Hb in HF.
  by apply Forall_cons in HF as [[? ?] _].
Qed.

(** A bulk reply as a client splits it: not the nil reply, the value is the second line. *)
Lemma bulk_pieces v :
  utf8 v → CR ∉ v →
  let s := from_utf8_lossy (to_bytes (Bulk (Some v))) in
  starts_with (bs "$-1") s = false ∧ split_crlf s !! 1%nat = Some v.
Proof.
  intros Hv Hcr. set (h := bs "$" ++ to_string (len v)).
  assert (E : to_bytes (Bulk (Some v)) = h ++ CRLF ++ v ++ CRLF ++ []).
  { unfold h. cbn [to_bytes]. by rewrite <- !app_assoc, app_nil_r. }
  assert (Hu : utf8 (h ++ CRLF ++ v ++ CRLF ++ [])).
  { unfold h. rewrite <- app_assoc. repeat apply utf8_app; auto with ob; done. }
  rewrite E, lossy_valid by done. cbn zeta. split.
  - rewrite <- E. apply bulk_not_nil.
  - rewrite split_crlf_app, split_crlf_app; [done|done|].
    unfold h. intros [Hin|Hin]%elem_of_app; [by apply list_elem_of_singleton in Hin|].
    by apply to_string_no_cr in Hin.
Qed.

Section Guarantees.
Context {Timestamp : Type} (as_nanos : Timestamp → Z) (from_nanos : Z → Timestamp).
#[local] Hint Extern 0 (StateMachine _) => exact (KvStore_StateMachine Wrapping) : typeclass_instances.
#[local] Hint Extern 0 (KvService Executor) => exact (Executor_service Wrapping as_nanos from_nanos) : typeclass_instances.

(** C16: A Redis session refines the command specification. On an executor that
    serves (from a fresh or a recovered store), a connection whose client pipelines
    any commands ends normally, the bytes it was sent are exactly the specified
    replies in order, and the store holds the specified map: RESP parsing, number
    assignment, deduplication, logging and snapshots are invisible. *)
Theorem resp_session_refines memory x m c n cmds :
  Serving x m c 0 n → Forall (sendable memory) cmds → session_ops cmds <= n →
  ∃ conn x', resp_serve_conn (σ := Executor) Wrapping memory c
      (conn_of (pipeline cmds) [] false, x) = (Ok true, (conn, x')) ∧
    flushed conn = concat (map to_bytes (session_spec m cmds).1) ∧
    ∃ e, ex_engine x' = Some e ∧ kv_map (state e) = (session_spec m cmds).2.
Proof.
  intros HS HF Hn. unfold resp_serve_conn. cbn [fst].
  assert (Hl : length (input (conn_of (pipeline cmds) [] false)) = length (pipeline cmds)) by apply length_map.
  rewrite Hl. pose proof (pipeline_length cmds).
  destruct (session_refines as_nanos from_nanos memory cmds (S (length (pipeline cmds))) x m c 0 n [] false HS HF Hn
    ltac:(lia)) as (conn & x' & E & Hout & [(e & d & ? & _ & ? & _) _]).
  exists conn, x'. eauto 10.
Qed.

(** C17: The server parses every command a client encodes: whatever bytes the
    arguments are (CRLF and binary data included), [read_command] returns exactly
    them and leaves the stream at the next command. *)
Theorem read_command_roundtrip memory args conn l :
  args ≠ [] → Forall (fits memory) args → 24 * len args <= memory → 24 * len args <= ISIZE_MAX →
  read_command memory (at_input conn (data (encode_command args) ++ l)) = (Ok (Some args), at_input conn l).
Proof. apply read_command_encoded. Qed.

(** C18: Every connection ends. Whatever the peer sends, however reads time out,
    whatever the service answers, the loop of the RESP handler terminates within
    one iteration per byte and timeout received. *)
Theorem resp_conn_ends am memory {σ} `{!KvService σ} client conn (svc : σ) s' :
  resp_serve_conn am memory client (conn, svc) ≠ (Ok false, s').
Proof.
  unfold resp_serve_conn. eapply loop_ends; [apply resp_step_consumes|]. cbn. lia.
Qed.

(** C19: New connections are new clients. After a restart on any directory, the
    connection ids the server hands out, up to the width of the counter, have no
    high-water mark in the recovered engine, so nothing a new connection sends can
    be taken for a duplicate. *)
Theorem new_connections_unseen interval fs tick w x mc e first k :
  service_start Wrapping interval fs tick w = (x, mc) → ex_engine x = Some e →
  first_conn_id Wrapping mc = Some first → is_u32 first → 1 <= first → 0 <= k → first + k <= U32_MAX →
  hw (applied e) (conn_id first k) = 0 ∧ ∀ op, op_client op = conn_id first k → 1 <= op_seq op →
    covered (image e) op = false.
Proof.
  intros Hs He Hf Hu H1 Hk Hlim.
  assert (Hid : conn_id first k = first + k).
  { unfold conn_id. apply Z.mod_small. width_lia. }
  assert (Hmc : mc = max_client e).
  { revert Hs. unfold service_start. destruct (boot _ _ _) as [[e0| | |] w0]; try (intros [= <- <-]; done).
    rewrite usize_arith_wrapping. intros [= <- <-]. cbn in He. congruence. }
  assert (Hmax : max_client e < first + k).
  { unfold first_conn_id in Hf. rewrite Hmc in Hf. case_match; [|injection Hf as <-; lia].
    injection Hf as <-. lia. }
  assert (Hhw : hw (applied e) (first + k) = 0).
  { unfold hw. destruct (applied e !! (first + k)) as [s|] eqn:E; [|done].
    apply max_client_spec in E. lia. }
  rewrite Hid. split; [done|]. intros op Hc Hq. unfold covered. rewrite Hc. cbn. rewrite Hhw. lia.
Qed.

(** [DEL] with several keys deletes only the first: every key's operation has
    the command's sequence number, so the engine takes the others for duplicates.
    With two stored keys the reply is 1 and the second key stays. *)
Theorem del_skips_other_keys x m c seq n k1 k2 v1 v2 conn :
  Serving x m c seq n → 2 <= n → from_utf8_lossy k1 ≠ from_utf8_lossy k2 →
  m !! from_utf8_lossy k1 = Some v1 → m !! from_utf8_lossy k2 = Some v2 →
  ∃ x' e, resp_dispatch (σ := Executor) Wrapping [bs "DEL"; k1; k2] c (seq + 1) (conn, x) =
      (Ok (Int 1), (conn, x')) ∧
    ex_engine x' = Some e ∧ get_bytes (state e) (from_utf8_lossy k2) = Some v2.
Proof.
  intros HS Hn Hne H1 H2.
  destruct (dispatch_spec as_nanos from_nanos x m c seq n (CDel k1 [k2]) HS ltac:(cbn; lia) I conn) as (x' & E & [(e & d & He & _ & Hm & _) _]).
  exists x', e. split_and!; [|done|].
  - etrans; [exact E|]. cbn. by rewrite H1.
  - unfold get_bytes. rewrite Hm. cbn. by rewrite lookup_delete_ne.
Qed.

(** The rendering of a stored integer is short. *)
Lemma length_bulk_int z : is_i64 z → (length (to_bytes (Bulk (Some (to_string z)))) ≤ 64)%nat.
Proof.
  intros Hz. cbn [to_bytes]. rewrite !length_app. change (length (bs "$")) with 1%nat. cbn [length CRLF].
  pose proof (length_to_string z Hz). pose proof (length_to_string (len (to_string z)) ltac:(width_lia)). lia.
Qed.

(** What the linearizability driver reads back: [parse_get] of the server's
    rendering of a stored integer is that integer, and of a missing key is 0. *)
Theorem parse_get_reply z :
  is_i64 z → parse_get (to_bytes (Bulk (Some (to_string z)))) = z ∧ parse_get (to_bytes (Bulk None)) = 0.
Proof.
  intros Hz. split; [|done]. unfold parse_get.
  destruct (bulk_pieces (to_string z)) as [-> ->]; [auto with ob|apply to_string_no_cr|].
  cbn. by rewrite parse_i64_to_string.
Qed.
End Guarantees.

(** ** Two more defects, on the code *)

Definition serve_script (l : list Event) : bytes :=
  flushed (resp_serve_conn Wrapping 4096 7 (mkConn l false [] [] None, mkScript [] [] [])).2.1.

(** A read timeout inside a command loses what was read of it: the rest is taken
    for a new command. A client that sends PING slowly is answered an error about
    the command NG. *)
Theorem timeout_desynchronises :
  serve_script (data (encode_command [bs "PING"])) = bs "+PONG" ++ CRLF ∧
  serve_script (data (take 10 (encode_command [bs "PING"])) ++ [ETimeout false] ++
                data (drop 10 (encode_command [bs "PING"]))) =
    bs "-ERR unknown command 'NG'" ++ CRLF.
Proof. split; by vm_compute. Qed.

(** The name of an unknown command is copied into a one-line reply: a name with
    CRLF makes the server send two replies for one command. *)
Theorem error_reply_splits :
  serve_script (data (encode_command [bs "X" ++ CRLF ++ bs "+OK"])) =
    to_bytes (Error (bs "ERR unknown command 'X")) ++ to_bytes (Simple (bs "OK'")).
Proof. by vm_compute. Qed.

(** ** Witnesses *)

Section Witnesses.
#[local] Hint Extern 0 (StateMachine _) => exact (KvStore_StateMachine Wrapping) : typeclass_instances.
#[local] Hint Extern 0 (KvService Executor) => exact (Executor_service Wrapping id id) : typeclass_instances.

Definition cmds_w : list Command :=
  [CSet (bs "a") (bs "41"); CIncrBy (bs "a") 1; CSet (bs "b") (bs "x"); CDel (bs "b") [bs "a"]; CGet (bs "a")].
Definition x_w : Executor := (service_start Wrapping 2 true 1 (calm ∅)).1.

Lemma resp_session_refines_witness :
  ∃ conn x', resp_serve_conn (σ := Executor) Wrapping 4096 9 (conn_of (pipeline cmds_w) [] false, x_w) =
      (Ok true, (conn, x')) ∧
    flushed conn = concat (map to_bytes [reply_ok; Int 42; reply_ok; Int 1; Bulk (Some (bs "42"))]) ∧
    ∃ e, ex_engine x' = Some e ∧ kv_map (state e) = (session_spec ∅ cmds_w).2.
Proof.
  destruct (resp_session_refines id id 4096 x_w ∅ 9 100 cmds_w) as (conn & x' & E & Hout & He);
    [apply Serving_start; width_lia|by_decision|by vm_compute|].
  exists conn, x'. split; [exact E|]. split; [|exact He]. rewrite Hout. by vm_compute.
Defined.

Lemma read_command_roundtrip_witness :
  read_command 4096 (at_input (conn_of [] [] false) (data (encode_command [bs "GET"; CRLF]) ++ [ETimeout true])) =
    (Ok (Some [bs "GET"; CRLF]), at_input (conn_of [] [] false) [ETimeout true]).
Proof.
  apply (read_command_roundtrip 4096 [bs "GET"; CRLF] (conn_of [] [] false) [ETimeout true]);
    [done|unfold fits; by repeat constructor|by vm_compute|by vm_compute].
Defined.

(** A store in which client 5 has spoken. *)
Definition d_w : Dir := {[LOG := record 3 (encode (op_incr 5 1 (bs "n") 2))]}.
Definition start_w : Executor * Z := service_start Wrapping 2 true 1 (calm d_w).

Lemma new_connections_unseen_witness :
  ∃ e, ex_engine start_w.1 = Some e ∧ hw (applied e) 5 = 1 ∧ hw (applied e) (conn_id 6 0) = 0.
Proof.
  assert (Hs : service_start Wrapping 2 true 1 (calm d_w) = (start_w.1, start_w.2)) by exact (surjective_pairing start_w).
  assert (He : is_Some (ex_engine start_w.1)) by (vm_compute; eauto).
  destruct (ex_engine start_w.1) as [e|] eqn:Ee; [|by destruct He as [? [=]]]. exists e. split; [done|]. split.
  - assert (H : (λ e, hw (applied e) 5) <$> ex_engine start_w.1 = Some 1) by by vm_compute.
    rewrite Ee in H. by injection H.
  - apply (new_connections_unseen 2 true 1 (calm d_w) start_w.1 start_w.2 e 6 0 Hs Ee);
      [by vm_compute|by vm_compute|lia|lia|by vm_compute].
Defined.

Lemma del_skips_other_keys_witness :
  ∃ x x' e, resp_dispatch (σ := Executor) Wrapping [bs "DEL"; bs "a"; bs "b"] 9 (2 + 1) (conn_of [] [] false, x) =
      (Ok (Int 1), (conn_of [] [] false, x')) ∧
    ex_engine x' = Some e ∧ get_bytes (state e) (bs "b") = Some (bs "2").
Proof.
  destruct (session_refines id id 4096 [CSet (bs "a") (bs "1"); CSet (bs "b") (bs "2")] 3 x_w ∅ 9 0 100 [] false)
    as (conn & x & _ & _ & HS); [apply Serving_start; width_lia|by_decision|by vm_compute|cbn; lia|].
  exists x.
  apply (del_skips_other_keys id id x _ 9 2 98 (bs "a") (bs "b") (bs "1") (bs "2") (conn_of [] [] false) HS);
    [lia|done|by vm_compute|by vm_compute].
Defined.

Lemma parse_get_reply_witness :
  parse_get (to_bytes (Bulk (Some (to_string (-17))))) = -17 ∧ parse_get (to_bytes (Bulk None)) = 0.
Proof. apply (parse_get_reply (-17)). by vm_compute. Defined.
End Witnesses.
