(* ===== verification/Lincheck.v ===== *)
(** * Lincheck: the linearizability test of the server
    ([crates/onebarrier/src/bin/ob_lincheck.rs])

    Clients alternate writes of unique values and reads of one register through the
    Redis front-end and record what they saw and when. The threads, the handlers of
    their connections and the executor interleave in any way; the recorded history is
    shown linearizable, so the checker accepts it. *)

From S2P Require Import Prelude Bytes Text Io State Durable Engine EngineFacts CrashSafety Lifetimes Cadence Net Service Serving Resp RespSession RespGuarantees Linearizability.
Local Open Scope Z_scope.

(** ** The driver *)

Definition lin_value (c i : Z) : Z := (c + 1) * 100 + i.
Definition lin_command (c i : Z) : list bytes :=
  if i mod 2 =? 0 then [bs "SET"; bs "reg"; to_string (lin_value c i)] else [bs "GET"; bs "reg"].

(** What a client records of a reply, of which it reads at most 128 bytes. *)
Definition lin_action (c i : Z) (reply : bytes) : Action :=
  if i mod 2 =? 0 then Write (lin_value c i) else Read (parse_get (take 128 reply)).

(** A client thread between two operations, waiting since [t], or with its answer. *)
Inductive LinPhase := LIdle | LSent (t : Z) | LAnswered (t : Z) (reply : bytes).

(** [lk_i] operations done; [lk_seq] is the counter of the connection's handler. *)
Record LinClient := mkLinClient { lk_i : Z; lk_seq : Z; lk_phase : LinPhase }.
Record LinState := mkLinState {
  ls_exec : Executor; ls_hist : list LinOp; ls_clients : gmap Z LinClient; ls_now : Z }.

Definition lin_client (s : LinState) (c : Z) : LinClient :=
  default (mkLinClient 0 0 LIdle) (ls_clients s !! c).

(** The client [c] moves to [k]. *)
Definition lin_move (s : LinState) (x : Executor) (h : list LinOp) (c : Z) (k : LinClient) (now : Z) : LinState :=
  mkLinState x h (<[c := k]> (ls_clients s)) now.

(** A client reads the clock and sends; the handler of a connection serves what was
    sent; a client reads the reply and the clock and records the operation. *)
Inductive LinEvent := LInvoke (c t : Z) | LServe (c : Z) | LReturn (c t : Z).

Section Driver.
Context {Timestamp : Type} (as_nanos : Timestamp → Z) (from_nanos : Z → Timestamp).
Context (memory clients ops_per_client : Z) (conn_id : Z → Z).
#[local] Hint Extern 0 (StateMachine _) => exact (KvStore_StateMachine Wrapping) : typeclass_instances.
#[local] Hint Extern 0 (KvService Executor) => exact (Executor_service Wrapping as_nanos from_nanos) : typeclass_instances.

(** An event of a thread that is elsewhere, or at a time already past, does nothing;
    [None]: a client was not answered and panics. *)
Definition lin_step (ev : LinEvent) (s : LinState) : option LinState :=
  match ev with
  | LInvoke c t =>
      let k := lin_client s c in
      Some (match lk_phase k with
            | LIdle =>
                if (0 <=? c) && (c <? clients) && (lk_i k <? ops_per_client) && (ls_now s <=? t)
                then lin_move s (ls_exec s) (ls_hist s) c (mkLinClient (lk_i k) (lk_seq k) (LSent t)) t
                else s
            | _ => s
            end)
  | LServe c =>
      let k := lin_client s c in
      match lk_phase k with
      | LSent t =>
          match resp_step (σ := Executor) Wrapping memory (conn_id c) (lk_seq k)
                  (conn_text (encode_command (lin_command c (lk_i k))) [], ls_exec s) with
          | (Ok (Some seq), (conn, x)) =>
              Some (lin_move s x (ls_hist s) c (mkLinClient (lk_i k) seq (LAnswered t (flushed conn))) (ls_now s))
          | _ => None
          end
      | _ => Some s
      end
  | LReturn c t =>
      let k := lin_client s c in
      Some (match lk_phase k with
            | LAnswered t0 reply =>
                if ls_now s <=? t
                then lin_move s (ls_exec s) (ls_hist s ++ [mkLinOp c (lin_action c (lk_i k) reply) t0 t])
                       c (mkLinClient (lk_i k + 1) (lk_seq k) LIdle) t
                else s
            | _ => s
            end)
  end.

Fixpoint lin_run (evs : list LinEvent) (s : LinState) : option LinState :=
  match evs with
  | [] => Some s
  | ev :: evs => s ← lin_step ev s; lin_run evs s
  end.

(** A server on an empty directory, whose first connection sets the register to 0. *)
Definition lin_start (tick : Z) : option LinState :=
  let x := (service_start Wrapping 1000 false tick (calm ∅)).1 in
  match resp_step (σ := Executor) Wrapping memory 1 0 (conn_text (encode_command [bs "SET"; bs "reg"; bs "0"]) [], x) with
  | (Ok (Some _), (_, x)) => Some (mkLinState x [] ∅ 0)
  | _ => None
  end.

(** Every client has done all its operations. *)
Definition finished (s : LinState) : Prop :=
  Forall (λ c, lk_i (lin_client s c) = ops_per_client ∧ lk_phase (lin_client s c) = LIdle) (seqZ 0 clients).

(** The exit of the driver: 0 when the history is linearizable. *)
Definition lin_verdict (s : LinState) : bool := is_linearizable (ls_hist s) 0.
End Driver.

(** ** The order in which the executor applied the operations *)

(** An operation the executor applied, with its return if it has happened. *)
Record Applied := mkApplied { ap_c : Z; ap_i : Z; ap_action : Action; ap_inv : Z; ap_res : option Z }.

Definition ap_key (a : Applied) : Z * Z := (ap_c a, ap_i a).
Definition ap_op (a : Applied) : option LinOp :=
  t ← ap_res a; Some (mkLinOp (ap_c a) (ap_action a) (ap_inv a) t).

(** The register after the operations; [None] if a read did not return its value. *)
Fixpoint reg_run (value : Z) (l : list Applied) : option Z :=
  match l with
  | [] => Some value
  | a :: l =>
      match ap_action a with
      | Write v => reg_run v l
      | Read v => if v =? value then reg_run value l else None
      end
  end.

Lemma reg_run_snoc value l a :
  reg_run value (l ++ [a]) = reg_run value l ≫= λ v, reg_run v [a].
Proof.
  revert value; induction l as [|b l IH]; intros value; [done|]. change ((b :: l) ++ [a]) with (b :: (l ++ [a])).
  cbn [reg_run]. destruct (ap_action b); [apply IH|]. destruct (_ =? _); [apply IH|done].
Qed.

(** The operation of key [k] returns at [t]. *)
Definition ap_finish (k : Z * Z) (t : Z) (a : Applied) : Applied :=
  if decide (ap_key a = k) then mkApplied (ap_c a) (ap_i a) (ap_action a) (ap_inv a) (Some t) else a.

Lemma ap_finish_key k t a : ap_key (ap_finish k t a) = ap_key a.
Proof. unfold ap_finish. by case_decide. Qed.
Lemma map_ap_finish_key k t l : map ap_key (map (ap_finish k t) l) = map ap_key l.
Proof. rewrite map_map. apply map_ext. intros. apply ap_finish_key. Qed.
Lemma ap_finish_action k t a : ap_action (ap_finish k t a) = ap_action a.
Proof. unfold ap_finish. by case_decide. Qed.
Lemma ap_finish_inv k t a : ap_inv (ap_finish k t a) = ap_inv a.
Proof. unfold ap_finish. by case_decide. Qed.

Lemma reg_run_finish k t value l : reg_run value (map (ap_finish k t) l) = reg_run value l.
Proof.
  revert value; induction l as [|a l IH]; intros value; cbn [map reg_run]; [done|]. rewrite ap_finish_action.
  destruct (ap_action a); [apply IH|]. destruct (_ =? _); [apply IH|done].
Qed.

(** The history gains exactly the operation that returns. *)
Lemma omap_finish l a t :
  NoDup (map ap_key l) → a ∈ l → ap_res a = None →
  omap ap_op (map (ap_finish (ap_key a) t) l) ≡ₚ omap ap_op l ++ [mkLinOp (ap_c a) (ap_action a) (ap_inv a) t].
Proof.
  induction l as [|b l IH]; intros Hnd Hin Hn; [by apply elem_of_nil in Hin|].
  cbn [map] in Hnd |- *. apply NoDup_cons in Hnd as [Hb Hnd]. apply elem_of_cons in Hin as [<-|Hin].
  - assert (Hid : map (ap_finish (ap_key a) t) l = l).
    { rewrite <- (map_id l) at 2. apply map_ext_in. intros a' Ha'%list_elem_of_In. unfold ap_finish.
      rewrite decide_False; [done|]. intros E. apply Hb. rewrite <- E. by apply (list_elem_of_fmap_2 ap_key). }
    rewrite Hid. unfold ap_finish. rewrite decide_True by done. cbn [omap list_omap].
    unfold ap_op at 1. cbn [ap_res mbind option_bind]. unfold ap_op at 2. rewrite Hn. cbn [mbind option_bind].
    by rewrite Permutation_app_comm.
  - assert (Hne : ap_key b ≠ ap_key a).
    { intros E. apply Hb. rewrite E. by apply (list_elem_of_fmap_2 ap_key). }
    unfold ap_finish at 1. rewrite decide_False by done. cbn [omap list_omap].
    destruct (ap_op b); cbn [app]; [constructor|]; by apply IH.
Qed.

Lemma ap_finish_res k t a t' :
  ap_res (ap_finish k t a) = Some t' → (ap_key a = k ∧ t' = t) ∨ ap_res a = Some t'.
Proof. unfold ap_finish. case_decide; [|by right]. cbn. intros [= <-]. by left. Qed.

(** A return now is later than every call so far. *)
Lemma sorted_finish k t l :
  Forall (λ a, ap_inv a <= t) l →
  StronglySorted (λ a b, ∀ t, ap_res b = Some t → ap_inv a <= t) l →
  StronglySorted (λ a b, ∀ t, ap_res b = Some t → ap_inv a <= t) (map (ap_finish k t) l).
Proof.
  intros Ht Hs. induction Hs as [|a l Hs IH Ha]; [constructor|]. apply Forall_cons in Ht as [Hat Ht].
  cbn [map]. constructor; [by apply IH|]. apply Forall_map. eapply Forall_impl; [exact Ha|]. cbn.
  intros b Hb t' [[_ ->]|Hr]%ap_finish_res; rewrite ap_finish_inv; [done|by apply Hb].
Qed.

(** ** From an order of application to a linearization *)

Fixpoint run_ops (value : Z) (l : list LinOp) : Prop :=
  match l with
  | [] => True
  | op :: l => (∀ v, action op = Read v → v = value) ∧ run_ops (if action op is Write v then v else value) l
  end.

Section Order.
Context (ops : list LinOp).
Local Abbreviation names := (Forall2 (λ id op, ops !! id = Some op)).

Lemma names_run order l value : names order l → run_ops value l → register_run ops value order.
Proof.
  intros HF; revert value; induction HF as [|id op order l Hid _ IH]; intros value; [done|].
  cbn [run_ops register_run]. intros [Hr Hl]. exists op. auto.
Qed.

Lemma names_sorted order l :
  names order l → StronglySorted (λ a b, inv a <= res b) l → StronglySorted (may_precede ops) order.
Proof.
  intros HF; induction HF as [|id op order l Hid HF IH]; intros Hs; [constructor|].
  apply StronglySorted_inv in Hs as [Hs Ha]. constructor; [by apply IH|]. rewrite Forall_forall in Ha.
  apply Forall_forall. intros id' Hin x y Hx Hy. apply list_elem_of_lookup in Hin as (j & Hj).
  destruct (Forall2_lookup_l _ _ _ _ _ HF Hj) as (op' & Hop' & E). rewrite Hid in Hx. rewrite E in Hy.
  injection Hx as <-. injection Hy as <-. assert (Hle : inv op <= res op'); [|lia].
  apply Ha. by eapply list_elem_of_lookup_2.
Qed.

Lemma names_exist l : l ≡ₚ ops → ∃ order, names order l ∧ order ≡ₚ seq 0 (length ops).
Proof.
  intros HP. apply Permutation_inj in HP as (Hlen & f & Hf & Hl). exists (map f (seq 0 (length l))). split.
  - apply Forall2_same_length_lookup. split; [by rewrite length_map, length_seq|].
    intros i id op Hid Hop. apply list_lookup_fmap_Some in Hid as (j & -> & Hj).
    apply lookup_seq in Hj as [-> _]. by rewrite <- Hl.
  - apply submseteq_length_Permutation; [|by rewrite length_map, !length_seq, Hlen].
    apply NoDup_submseteq; [apply NoDup_fmap_2; [done|apply NoDup_seq]|].
    intros id (i & -> & Hi)%list_elem_of_fmap. apply elem_of_seq in Hi. apply elem_of_seq. split; [lia|].
    destruct (lookup_lt_is_Some_2 l i ltac:(lia)) as [op Hop]. rewrite Hl in Hop. by apply lookup_lt_Some in Hop.
Qed.

Lemma order_linearizes l value :
  l ≡ₚ ops → StronglySorted (λ a b, inv a <= res b) l → run_ops value l →
  Linearizable ops (seq 0 (length ops)) value.
Proof.
  intros HP Hs Hr. destruct (names_exist l HP) as (order & HF & HO). exists order.
  split; [done|]. split; [by eapply names_sorted|by eapply names_run].
Qed.
End Order.

(** The checker accepts what an order of application explains. *)
Lemma checker_accepts ops l value :
  Forall (λ op, inv op <= res op) ops →
  l ≡ₚ ops → StronglySorted (λ a b, inv a <= res b) l → run_ops value l → is_linearizable ops value = true.
Proof. intros Hops HP Hs Hr. apply (search_spec ops Hops). by eapply order_linearizes. Qed.

(** When every operation has returned, the history is the order of application. *)
Lemma returned_run value v l :
  Forall (λ a, is_Some (ap_res a)) l → reg_run value l = Some v → run_ops value (omap ap_op l).
Proof.
  intros HF; revert value; induction HF as [|a l [t Ht] _ IH]; intros value; [done|].
  cbn [reg_run omap list_omap]. unfold ap_op at 1. rewrite Ht. cbn [mbind option_bind run_ops action].
  destruct (ap_action a) as [w|w]; [intros H; split; [done|by apply IH]|].
  destruct (Z.eqb_spec w value) as [->|]; [|done]. intros H. split; [by intros ? [= ->]|by apply IH].
Qed.

Lemma returned_sorted l :
  Forall (λ a, is_Some (ap_res a)) l → StronglySorted (λ a b, ∀ t, ap_res b = Some t → ap_inv a <= t) l →
  StronglySorted (λ a b, inv a <= res b) (omap ap_op l).
Proof.
  intros HF Hs; induction Hs as [|a l _ IH Ha]; [constructor|]. apply Forall_cons in HF as [[t Ht] HF].
  cbn [omap list_omap]. unfold ap_op at 1. rewrite Ht. cbn [mbind option_bind]. constructor; [by apply IH|].
  apply Forall_forall. intros op (b & Hb & Eb)%list_elem_of_omap. rewrite Forall_forall in Ha.
  unfold ap_op in Eb. destruct (ap_res b) as [t'|] eqn:Er; [|done]. injection Eb as <-. cbn. by apply (Ha b).
Qed.

Lemma returned_length l : Forall (λ a, is_Some (ap_res a)) l → length (omap ap_op l) = length l.
Proof.
  induction 1 as [|a l [t Ht] _ IH]; [done|]. cbn [omap list_omap]. unfold ap_op at 1. rewrite Ht. cbn. by rewrite IH.
Qed.

Lemma NoDup_list_prod {A B} (l : list A) (k : list B) : NoDup l → NoDup k → NoDup (list_prod l k).
Proof.
  intros Hl Hk. induction Hl as [|x l Hx _ IH]; cbn [list_prod]; [constructor|].
  apply NoDup_app. split; [apply NoDup_fmap_2; [by intros ?? [= ->]|done]|]. split; [|done].
  intros [a b] (b' & [= -> ->] & _)%list_elem_of_fmap Hin%list_elem_of_In. apply in_prod_iff in Hin as [Hin _].
  by apply Hx, list_elem_of_In.
Qed.

(** ** The invariant *)

Definition executed (k : LinClient) : Z := lk_i k + (if lk_phase k is LAnswered _ _ then 1 else 0).
Definition REG : bytes := bs "reg".

Lemma lin_client_move s x h c k now c' :
  lin_client (lin_move s x h c k now) c' = if decide (c = c') then k else lin_client s c'.
Proof. unfold lin_client. cbn [ls_clients lin_move]. rewrite lookup_insert. by case_decide. Qed.

Section Invariant.
Context {Timestamp : Type} (as_nanos : Timestamp → Z) (from_nanos : Z → Timestamp).
Context (memory clients ops_per_client : Z) (conn_id : Z → Z).
#[local] Hint Extern 0 (StateMachine _) => exact (KvStore_StateMachine Wrapping) : typeclass_instances.
#[local] Hint Extern 0 (KvService Executor) => exact (Executor_service Wrapping as_nanos from_nanos) : typeclass_instances.
Local Abbreviation is_client c := (0 <= c < clients).

(** The executor holds [v] in the register and has applied nothing a client will send. *)
Definition holds_reg (s : LinState) (v : Z) : Prop :=
  ∃ e d, ex_engine (ls_exec s) = Some e ∧ ex_world (ls_exec s) = calm d ∧
    kv_map (state e) !! REG = Some (to_string v) ∧ is_i64 v ∧
    ∀ c, is_client c → hw (applied e) (conn_id c) <= lk_seq (lin_client s c).

(** [G]: the operations in the order of the executor. *)
Record lin_inv (s : LinState) (G : list Applied) : Prop := {
  li_reg : ∃ v, holds_reg s v ∧ reg_run 0 G = Some v;
  li_keys : NoDup (map ap_key G);
  li_done : ∀ c i, (c, i) ∈ map ap_key G ↔ is_client c ∧ 0 <= i < executed (lin_client s c);
  li_open : ∀ a, a ∈ G → ap_res a = None ↔ ap_i a = lk_i (lin_client s (ap_c a));
  li_answer : ∀ c t reply, let k := lin_client s c in lk_phase k = LAnswered t reply →
    is_client c ∧ lk_i k < ops_per_client ∧ mkApplied c (lk_i k) (lin_action c (lk_i k) reply) t None ∈ G;
  li_sent : ∀ c t, lk_phase (lin_client s c) = LSent t →
    is_client c ∧ lk_i (lin_client s c) < ops_per_client ∧ t <= ls_now s;
  li_i : ∀ c, 0 <= lk_i (lin_client s c) <= ops_per_client;
  li_hist : ls_hist s ≡ₚ omap ap_op G;
  li_inv : Forall (λ a, ap_inv a <= ls_now s) G;
  li_res : Forall (λ a, ∀ t, ap_res a = Some t → ap_inv a <= t) G;
  li_sorted : StronglySorted (λ a b, ∀ t, ap_res b = Some t → ap_inv a <= t) G;
}.

(** The counter of a client that moves without finishing an operation. *)
Lemma lk_i_move s x h c seq ph now c' :
  lk_i (lin_client (lin_move s x h c (mkLinClient (lk_i (lin_client s c)) seq ph) now) c') = lk_i (lin_client s c').
Proof. rewrite lin_client_move. by case_decide as Hd; [rewrite <- Hd|]. Qed.

Lemma invoke_inv s G c t :
  lin_inv s G → lk_phase (lin_client s c) = LIdle → is_client c → lk_i (lin_client s c) < ops_per_client →
  ls_now s <= t →
  let k := lin_client s c in
  lin_inv (lin_move s (ls_exec s) (ls_hist s) c (mkLinClient (lk_i k) (lk_seq k) (LSent t)) t) G.
Proof.
  intros [Hre Hke Hdo Hop Han Hse Hi Hhi Hin Hrs Hso] Hph Hc Hlt Ht k. split; try done.
  - destruct Hre as (v & (e & d & ? & ? & ? & ? & Hhw) & ?). exists v. split; [|done]. exists e, d. split_and!; try done.
    intros c' Hc'. rewrite lin_client_move. case_decide as Hd; [rewrite <- Hd in *|]; by apply Hhw.
  - intros c' i. rewrite Hdo, lin_client_move. case_decide as Hd; [|done]. rewrite <- Hd. unfold executed. cbn.
    by rewrite Hph.
  - intros a Ha. unfold k. rewrite lk_i_move. by apply Hop.
  - intros c' t' reply. cbn zeta. rewrite lin_client_move. case_decide as Hd; [done|]. apply Han.
  - intros c' t'. unfold k. rewrite lk_i_move, lin_client_move. case_decide as Hd; cbn.
    + rewrite <- Hd. by intros [= <-].
    + intros H. destruct (Hse c' t' H) as (? & ? & ?). split_and!; lia.
  - intros c'. unfold k. rewrite lk_i_move. apply Hi.
  - eapply Forall_impl; [exact Hin|]. cbn. lia.
Qed.

(** The operation of a client that waits for the answer is not applied yet. *)
Lemma serve_inv s G c t v v' x e d act reply :
  lin_inv s G → lk_phase (lin_client s c) = LSent t → holds_reg s v → reg_run 0 G = Some v →
  let k := lin_client s c in
  act = lin_action c (lk_i k) reply → reg_run v [mkApplied c (lk_i k) act t None] = Some v' →
  ex_engine x = Some e → ex_world x = calm d → kv_map (state e) !! REG = Some (to_string v') → is_i64 v' →
  (∀ c', is_client c' → hw (applied e) (conn_id c') <= if decide (c = c') then lk_seq k + 1 else lk_seq (lin_client s c')) →
  lin_inv (lin_move s x (ls_hist s) c (mkLinClient (lk_i k) (lk_seq k + 1) (LAnswered t reply)) (ls_now s))
    (G ++ [mkApplied c (lk_i k) act t None]).
Proof.
  intros [Hre Hke Hdo Hop Han Hse Hi Hhi Hin Hrs Hso] Hph _ Hrun k Hact Hrun' Ee Ew Em Hv Hhw.
  destruct (Hse c t Hph) as (Hc & Hlt & Ht). specialize (Hi c) as Hic. fold k in Hph, Hlt, Hic.
  assert (Hnew : (c, lk_i k) ∉ map ap_key G).
  { rewrite Hdo. fold k. unfold executed. rewrite Hph. lia. }
  split.
  - exists v'. split; [|by rewrite reg_run_snoc, Hrun]. exists e, d. split_and!; try done.
    intros c' Hc'. rewrite lin_client_move. specialize (Hhw c' Hc'). by case_decide.
  - rewrite map_app. apply NoDup_app. split; [done|]. split; [|apply NoDup_singleton].
    intros y Hy ->%list_elem_of_singleton. by apply Hnew.
  - intros c' i. rewrite map_app, elem_of_app, Hdo, lin_client_move. cbn [map]. rewrite list_elem_of_singleton. unfold ap_key. cbn [ap_c ap_i].
    case_decide as Hd; [subst c'; unfold executed; fold k; rewrite Hph; cbn|]; split.
    + intros [?|[= ->]]; lia.
    + intros [_ ?]. destruct (decide (i = lk_i k)) as [->|]; [by right|left; lia].
    + intros [?|[= -> _]]; [done|lia].
    + by left.
  - intros a Ha. unfold k. rewrite lk_i_move. apply elem_of_app in Ha as [Ha|Ha%list_elem_of_singleton]; [by apply Hop|]. by subst a.
  - intros c' t' reply'. cbn zeta. unfold k. rewrite lk_i_move, lin_client_move. case_decide as Hd; cbn.
    + subst c'. intros [= <- <-]. split; [done|]. split; [done|]. apply elem_of_app. right. by apply list_elem_of_singleton; rewrite Hact.
    + intros H. destruct (Han c' t' reply' H) as (? & ? & ?). split; [done|]. split; [done|]. apply elem_of_app. by left.
  - intros c' t'. unfold k. rewrite lk_i_move, lin_client_move. case_decide as Hd; [done|]. apply Hse.
  - intros c'. unfold k. rewrite lk_i_move. apply Hi.
  - cbn. rewrite omap_app. cbn. by rewrite app_nil_r.
  - apply Forall_app. split; [done|]. by apply Forall_singleton.
  - apply Forall_app. split; [done|]. by apply Forall_singleton.
  - apply StronglySorted_app. split; [|split; [done|by repeat constructor]].
    intros a b _ ->%list_elem_of_singleton t'. done.
Qed.

Lemma return_inv s G c t0 t reply :
  lin_inv s G → lk_phase (lin_client s c) = LAnswered t0 reply → ls_now s <= t →
  let k := lin_client s c in
  lin_inv (lin_move s (ls_exec s) (ls_hist s ++ [mkLinOp c (lin_action c (lk_i k) reply) t0 t])
             c (mkLinClient (lk_i k + 1) (lk_seq k) LIdle) t) (map (ap_finish (c, lk_i k) t) G).
Proof.
  intros [Hre Hke Hdo Hop Han Hse Hi Hhi Hin Hrs Hso] Hph Ht k.
  destruct (Han c t0 reply Hph) as (Hc & Hlt & Hpend). fold k in Hph, Hlt, Hpend.
  set (p := mkApplied c (lk_i k) _ t0 None) in Hpend.
  assert (Hinv : Forall (λ a, ap_inv a <= t) G) by (eapply Forall_impl; [exact Hin|]; cbn; lia).
  split.
  - destruct Hre as (v & (e & d & ? & ? & ? & ? & Hhw) & ?). exists v. split; [|by rewrite reg_run_finish].
    exists e, d. split_and!; try done. intros c' Hc'. rewrite lin_client_move. case_decide as Hd; [rewrite <- Hd in *|]; by apply Hhw.
  - by rewrite map_ap_finish_key.
  - intros c' i. rewrite map_ap_finish_key, Hdo, lin_client_move. case_decide as Hd; [|done]. rewrite <- Hd.
    unfold executed. fold k. rewrite Hph. cbn. lia.
  - intros a' (a & -> & Ha)%list_elem_of_fmap. pose proof (Hop a Ha) as Hopa. rewrite lin_client_move.
    assert (Hkey : (ap_c a, ap_i a) ∈ map ap_key G) by (by apply (list_elem_of_fmap_2 ap_key)).
    apply Hdo in Hkey as [_ Hkey]. unfold ap_finish, ap_key. case_decide as He; cbn [ap_res ap_i ap_c].
    + injection He as -> ->. rewrite decide_True by done. cbn. split; [done|lia].
    + case_decide as Hd; [|done]. rewrite <- Hd in *. fold k in Hopa, Hkey. unfold executed in Hkey. rewrite Hph in Hkey.
      cbn [lk_i]. assert (ap_i a ≠ lk_i k) by (intros E; apply He; by rewrite E). rewrite Hopa. lia.
  - intros c' t' reply'. cbn zeta. rewrite lin_client_move. case_decide as Hd; [done|]. intros H.
    destruct (Han c' t' reply' H) as (? & ? & Hg). split; [done|]. split; [done|].
    apply list_elem_of_fmap. eexists. split; [|exact Hg]. unfold ap_finish, ap_key. rewrite decide_False; [done|]. cbn. congruence.
  - intros c' t'. rewrite lin_client_move. case_decide as Hd; [done|]. intros H. destruct (Hse c' t' H) as (? & ? & ?). cbn. lia.
  - intros c'. rewrite lin_client_move. case_decide; [|apply Hi]. cbn. specialize (Hi c). fold k in Hi. lia.
  - cbn [ls_hist lin_move]. rewrite Hhi. symmetry. exact (omap_finish G p t Hke Hpend eq_refl).
  - apply Forall_map. eapply Forall_impl; [exact Hinv|]. intros a. cbn. by rewrite ap_finish_inv.
  - apply Forall_map. rewrite Forall_forall in Hrs, Hinv |- *. intros a Ha t' [[_ ->]|Hr]%ap_finish_res; rewrite ap_finish_inv; auto.
  - by apply sorted_finish.
Qed.

(** ** One request through the handler and the executor *)

Lemma serve_one x e d cid seq cmd op out st (f : option Output → Reply) :
  sendable memory cmd → ex_engine x = Some e → ex_world x = calm d → hw (applied e) cid <= seq →
  op_client op = cid → op_seq op = seq + 1 → kv_apply Wrapping (state e) op = Some (st, out) →
  resp_dispatch (σ := Executor) Wrapping (command_args cmd) cid (seq + 1) = (o ← Service.apply op; mret (f o)) →
  ∃ x' e' d', resp_step (σ := Executor) Wrapping memory cid seq (conn_text (encode_command (command_args cmd)) [], x) =
      (Ok (Some (seq + 1)), (conn_text [] (to_bytes (f (Some out))), x')) ∧
    ex_engine x' = Some e' ∧ ex_world x' = calm d' ∧ state e' = st ∧ applied e' = <[cid := seq + 1]> (applied e).
Proof.
  intros Hs Ee Ew Hhw Hc Hn Ha Hd.
  destruct (exec_apply_calm as_nanos from_nanos x e d op out st Ee Ew ltac:(rewrite Hc; lia) Ha)
    as (x' & e' & d' & E & Ee' & Ew' & _ & Hst & Happ).
  exists x', e', d'. rewrite Hc, Hn in Happ. split; [|done].
  pose proof (resp_step_dispatched as_nanos from_nanos memory x x' cid seq cmd (f (Some out)) [] [] false Hs) as H.
  rewrite app_nil_r in H. apply H. cbv zeta. rewrite Hd, run_bind, (run_apply as_nanos from_nanos _ _ _ _ _ E). done.
Qed.

Context (Hmem : 72 <= memory) (Hbounds : clients <= U32_MAX ∧ ops_per_client <= U32_MAX).
Context (Hids : ∀ c c', is_client c → is_client c' → conn_id c = conn_id c' → c = c').

Lemma sendable_reg_set v : is_i64 v → sendable memory (CSet REG (to_string v)).
Proof.
  intros Hv. pose proof (length_to_string v Hv). split; [|cbn; width_lia].
  repeat constructor; cbn; width_lia.
Qed.
Lemma sendable_reg_get : sendable memory (CGet REG).
Proof. split; [|cbn; width_lia]. repeat constructor; cbn; width_lia. Qed.

Lemma hw_after c k e e' s :
  is_client c → lk_seq (lin_client s c) = k →
  (∀ c', is_client c' → hw (applied e) (conn_id c') <= lk_seq (lin_client s c')) →
  applied e' = <[conn_id c := k + 1]> (applied (S := KvStore) e) →
  ∀ c', is_client c' → hw (applied (S := KvStore) e') (conn_id c') <= if decide (c = c') then k + 1 else lk_seq (lin_client s c').
Proof.
  intros Hc Hk Hhw -> c' Hc'. rewrite hw_insert. specialize (Hhw c' Hc'). case_decide as E.
  - apply Hids in E; [|done..]. by rewrite decide_True.
  - rewrite decide_False by congruence. done.
Qed.

Lemma serve_ok s G c t :
  lin_inv s G → lk_phase (lin_client s c) = LSent t →
  ∃ s' G', lin_step as_nanos from_nanos memory clients ops_per_client conn_id (LServe c) s = Some s' ∧ lin_inv s' G'.
Proof.
  intros HI Hph. destruct (li_reg _ _ HI) as (v & HR & Hrun). pose proof HR as (e & d & Ee & Ew & Em & Hv & Hhw).
  destruct (li_sent _ _ HI c t Hph) as (Hc & Hlt & _). pose proof (li_i _ _ HI c) as Hi.
  cbn [lin_step]. cbv zeta. rewrite Hph. set (k := lin_client s c) in *. unfold lin_command.
  assert (Hval : is_i64 (lin_value c (lk_i k))) by (unfold lin_value; width_lia).
  destruct (lk_i k mod 2 =? 0) eqn:Epar.
  - destruct (serve_one (ls_exec s) e d (conn_id c) (lk_seq k) (CSet REG (to_string (lin_value c (lk_i k))))
      (op_set_bytes (conn_id c) (lk_seq k + 1) REG (to_string (lin_value c (lk_i k)))) OutOk _
      (λ o, match o with Some _ => reply_ok | None => unavailable end)
      (sendable_reg_set _ Hval) Ee Ew (Hhw c Hc) eq_refl eq_refl eq_refl eq_refl)
      as (x' & e' & d' & E & Ee' & Ew' & Hst & Happ).
    change (command_args (CSet REG ?w)) with [bs "SET"; bs "reg"; w] in E. rewrite E. eexists _, _. split; [reflexivity|].
    apply (serve_inv s G c t v (lin_value c (lk_i k)) x' e' d' (Write (lin_value c (lk_i k)))); try done.
    + unfold lin_action. fold k. by rewrite Epar.
    + rewrite Hst. cbn. by rewrite lookup_insert_eq.
    + by apply (hw_after c (lk_seq k) e e' s).
  - destruct (serve_one (ls_exec s) e d (conn_id c) (lk_seq k) (CGet REG)
      (op_get (conn_id c) (lk_seq k + 1) REG) (OutBytes (kv_map (state e) !! REG)) (state e)
      (λ o, match o with Some (OutBytes b) => Bulk b | _ => Bulk None end)
      sendable_reg_get Ee Ew (Hhw c Hc) eq_refl eq_refl eq_refl eq_refl)
      as (x' & e' & d' & E & Ee' & Ew' & Hst & Happ).
    change (command_args (CGet REG)) with [bs "GET"; bs "reg"] in E. rewrite E. eexists _, _. split; [reflexivity|].
    rewrite Em. cbn [conn_text flushed].
    apply (serve_inv s G c t v v x' e' d' (Read v)); try done.
    + unfold lin_action. fold k. rewrite Epar. rewrite take_ge.
      * by destruct (parse_get_reply v Hv) as [-> _].
      * pose proof (length_bulk_int v Hv). lia.
    + cbn [reg_run ap_action]. by rewrite Z.eqb_refl.
    + by rewrite Hst.
    + by apply (hw_after c (lk_seq k) e e' s).
Qed.

(** ** Every run *)

Local Abbreviation step := (lin_step as_nanos from_nanos memory clients ops_per_client conn_id).
Local Abbreviation run := (lin_run as_nanos from_nanos memory clients ops_per_client conn_id).

Lemma lin_step_inv ev s G : lin_inv s G → ∃ s' G', step ev s = Some s' ∧ lin_inv s' G'.
Proof.
  intros HI. destruct ev as [c t|c|c t].
  - cbn [lin_step]. cbv zeta. destruct (lk_phase (lin_client s c)) eqn:Hph; try by exists s, G.
    destruct (_ && _ && _ && _) eqn:Eb; [|by exists s, G].
    rewrite !andb_true_iff, Z.leb_le, !Z.ltb_lt, Z.leb_le in Eb. eexists _, G. split; [reflexivity|]. apply invoke_inv; [done..|lia|lia|lia].
  - destruct (lk_phase (lin_client s c)) as [|t|] eqn:Hph; [|by eapply serve_ok|];
      exists s, G; cbn [lin_step]; cbv zeta; by rewrite Hph.
  - cbn [lin_step]. cbv zeta. destruct (lk_phase (lin_client s c)) as [| |t0 reply] eqn:Hph; try by exists s, G.
    destruct (Z.leb_spec (ls_now s) t); [|by exists s, G]. eexists _, _. split; [reflexivity|]. by apply return_inv.
Qed.

Lemma lin_run_inv evs s G : lin_inv s G → ∃ s' G', run evs s = Some s' ∧ lin_inv s' G'.
Proof.
  revert s G; induction evs as [|ev evs IH]; intros s G HI; [by exists s, G|].
  destruct (lin_step_inv ev s G HI) as (s1 & G1 & E & HI1). cbn [lin_run]. rewrite E. by eapply IH.
Qed.

Lemma lin_start_inv tick :
  (∀ c, is_client c → conn_id c ≠ 1) → 0 <= ops_per_client →
  ∃ s, lin_start as_nanos from_nanos memory tick = Some s ∧ lin_inv s [].
Proof.
  intros Hne Hops. set (x := (service_start Wrapping 1000 false tick (calm ∅)).1).
  destruct (serve_one x (fresh (mkDurable false false) 1000) ∅ 1 0 (CSet REG (bs "0"))
      (op_set_bytes 1 1 REG (bs "0")) OutOk _ (λ o, match o with Some _ => reply_ok | None => unavailable end)
      (sendable_reg_set 0 ltac:(width_lia)) eq_refl eq_refl ltac:(done) eq_refl eq_refl eq_refl eq_refl)
    as (x' & e' & d' & E & Ee & Ew & Hst & Happ).
  eexists. split.
  { unfold lin_start. fold x. change [bs "SET"; bs "reg"; bs "0"] with (command_args (CSet REG (bs "0"))). by rewrite E. }
  clear E x.
  assert (Hl : ∀ c, lin_client (mkLinState x' [] ∅ 0) c = mkLinClient 0 0 LIdle) by (intros c; unfold lin_client; cbn [ls_clients]; by rewrite lookup_empty).
  split; try done; try (intros *; cbn zeta; rewrite Hl; done).
  - exists 0. split; [|done]. exists e', d'. split_and!; try done.
    + rewrite Hst. cbn. by rewrite lookup_insert_eq.
    + intros c Hc. rewrite Happ, hw_insert, Hl, decide_False by (apply not_eq_sym; auto). done.
  - constructor.
  - intros c i. rewrite Hl. unfold executed. cbn. split; [by intros ?%elem_of_nil|lia].
  - by intros a ?%elem_of_nil.
  - constructor.
Qed.

Lemma finished_returned s G : lin_inv s G → finished clients ops_per_client s → Forall (λ a, is_Some (ap_res a)) G.
Proof.
  intros [_ _ Hdo Hop _ _ _ _ _ _ _] HF. apply Forall_forall. intros a Ha.
  assert (Hkey : (ap_c a, ap_i a) ∈ map ap_key G) by (by apply (list_elem_of_fmap_2 ap_key)).
  apply Hdo in Hkey as [Hc Hi]. unfold finished in HF. rewrite Forall_forall in HF.
  destruct (HF (ap_c a)) as [E1 E2]; [apply elem_of_seqZ; lia|]. unfold executed in Hi. rewrite E1, E2 in Hi.
  destruct (ap_res a) eqn:Er; [done|]. apply Hop in Er; [|done]. lia.
Qed.

Lemma finished_complete s G :
  lin_inv s G → finished clients ops_per_client s → 0 <= clients → 0 <= ops_per_client → len G = clients * ops_per_client.
Proof.
  intros [_ Hke Hdo _ _ _ _ _ _ _ _] HF Hc Ho. unfold finished in HF. rewrite Forall_forall in HF.
  assert (HP : map ap_key G ≡ₚ list_prod (seqZ 0 clients) (seqZ 0 ops_per_client)).
  { apply NoDup_Permutation; [done|apply NoDup_list_prod; apply NoDup_seqZ|].
    intros [c i]. rewrite Hdo, list_elem_of_In, in_prod_iff, <- !list_elem_of_In, !elem_of_seqZ. split.
    - intros [Hcl Hi]. destruct (HF c) as [E1 E2]; [apply elem_of_seqZ; lia|]. unfold executed in Hi. rewrite E1, E2 in Hi. lia.
    - intros [Hcl Hi]. destruct (HF c) as [E1 E2]; [apply elem_of_seqZ; lia|]. unfold executed. rewrite E1, E2. lia. }
  apply Permutation_length in HP. rewrite length_map, length_prod, !length_seqZ in HP. lia.
Qed.

(** ** Progress *)

(** Every client in turn gets to send, be served and return, at time [t]; [n] times. *)
Definition lin_turn (t c : Z) : list LinEvent := [LInvoke c t; LServe c; LReturn c t].
Definition lin_rounds (n : nat) (t : Z) : list LinEvent :=
  concat (replicate n (concat (map (lin_turn t) (seqZ 0 clients)))).

Lemma lin_run_app evs1 evs2 s : run (evs1 ++ evs2) s = run evs1 s ≫= run evs2.
Proof. revert s; induction evs1 as [|ev evs1 IH]; intros s; [done|]. cbn [app lin_run]. destruct (step ev s); [apply IH|done]. Qed.

(** A step of [c] leaves the others where they are. *)
Definition event_client (ev : LinEvent) : Z :=
  match ev with LInvoke c _ | LServe c | LReturn c _ => c end.
Lemma lin_step_frame ev s s' c' :
  step ev s = Some s' → event_client ev ≠ c' → lin_client s' c' = lin_client s c'.
Proof.
  intros E Hne. destruct ev; cbn [event_client] in Hne; cbn [lin_step] in E; cbv zeta in E;
    repeat case_match; simplify_eq; try done; by rewrite lin_client_move, decide_False.
Qed.

Lemma invoke_moves t c s s' :
  step (LInvoke c t) s = Some s' → is_client c → ls_now s <= t →
  ls_now s' <= t ∧ lk_i (lin_client s' c) = lk_i (lin_client s c) ∧
  (lk_phase (lin_client s' c) = LIdle → ops_per_client <= lk_i (lin_client s c)).
Proof.
  intros E Hc Ht. cbn [lin_step] in E. cbv zeta in E. injection E as <-.
  destruct (lk_phase (lin_client s c)) eqn:Hph; [|by rewrite Hph..]. destruct (_ && _ && _ && _) eqn:Eb.
  - rewrite lin_client_move, decide_True by done. split; [done|]. by split.
  - split; [done|]. split; [done|]. intros _. destruct (Z.le_gt_cases ops_per_client (lk_i (lin_client s c))); [done|].
    rewrite (proj2 (Z.leb_le 0 c)), !(proj2 (Z.ltb_lt _ _)), (proj2 (Z.leb_le (ls_now s) t)) in Eb by lia. done.
Qed.

Lemma serve_moves c s s' :
  step (LServe c) s = Some s' →
  ls_now s' = ls_now s ∧ lk_i (lin_client s' c) = lk_i (lin_client s c) ∧
  (lk_phase (lin_client s' c) = lk_phase (lin_client s c) ∧ (∀ t, lk_phase (lin_client s c) ≠ LSent t) ∨
   ∃ t reply, lk_phase (lin_client s' c) = LAnswered t reply).
Proof.
  intros E. cbn [lin_step] in E. cbv zeta in E. destruct (lk_phase (lin_client s c)) eqn:Hph.
  1,3: injection E as <-; split; [done|]; split; [done|]; left; by rewrite Hph.
  repeat case_match; simplify_eq. rewrite lin_client_move, decide_True by done. split; [done|]. split; [done|]. right. cbn. eauto.
Qed.

Lemma return_moves t c s s' :
  step (LReturn c t) s = Some s' → ls_now s <= t → (∀ t, lk_phase (lin_client s c) ≠ LSent t) →
  ls_now s' <= t ∧ lk_phase (lin_client s' c) = LIdle ∧ lk_i (lin_client s' c) = executed (lin_client s c).
Proof.
  intros E Ht Hns. cbn [lin_step] in E. cbv zeta in E. injection E as <-. unfold executed.
  destruct (lk_phase (lin_client s c)) eqn:Hph; [|by edestruct Hns|].
  - rewrite Hph. split; [done|]. split; [done|lia].
  - rewrite (proj2 (Z.leb_le _ _)) by done. by rewrite lin_client_move, decide_True by done.
Qed.

(** A turn of a client that is not done completes one of its operations. *)
Lemma turn_advances t c s G :
  lin_inv s G → is_client c → ls_now s <= t →
  ∃ s' G', run (lin_turn t c) s = Some s' ∧ lin_inv s' G' ∧ ls_now s' <= t ∧
    lk_phase (lin_client s' c) = LIdle ∧ Z.min ops_per_client (lk_i (lin_client s c) + 1) <= lk_i (lin_client s' c) ∧
    ∀ c', c ≠ c' → lin_client s' c' = lin_client s c'.
Proof.
  intros HI Hc Ht.
  destruct (lin_step_inv (LInvoke c t) s G HI) as (s1 & G1 & E1 & HI1).
  destruct (lin_step_inv (LServe c) s1 G1 HI1) as (s2 & G2 & E2 & HI2).
  destruct (lin_step_inv (LReturn c t) s2 G2 HI2) as (s3 & G3 & E3 & HI3).
  exists s3, G3. split; [unfold lin_turn; cbn [lin_run]; rewrite E1; cbn [mbind option_bind]; rewrite E2; cbn [mbind option_bind]; by rewrite E3|].
  split; [done|].
  destruct (invoke_moves t c s s1 E1 Hc Ht) as (Hn1 & Hi1 & Hd1). destruct (serve_moves c s1 s2 E2) as (Hn2 & Hi2 & Hp2).
  assert (Hns : ∀ t0, lk_phase (lin_client s2 c) ≠ LSent t0).
  { destruct Hp2 as [[-> ?]|(? & ? & ->)]; done. }
  destruct (return_moves t c s2 s3 E3 ltac:(lia) Hns) as (Hn3 & Hp3 & Hi3). split_and!; [done..| |].
  - rewrite Hi3. unfold executed. rewrite Hi2, Hi1. destruct Hp2 as [[Hp2 Hs1]|(? & ? & ->)]; [|lia].
    destruct (lk_phase (lin_client s2 c)) eqn:Hp; [|by edestruct Hns|lia]. symmetry in Hp2. apply Hd1 in Hp2. lia.
  - intros c' Hne. rewrite (lin_step_frame _ _ _ c' E3), (lin_step_frame _ _ _ c' E2), (lin_step_frame _ _ _ c' E1) by done. done.
Qed.

(** A round lets every client complete one. *)
Lemma round_advances t cs s G :
  lin_inv s G → Forall (λ c, is_client c) cs → NoDup cs → ls_now s <= t →
  ∃ s' G', run (concat (map (lin_turn t) cs)) s = Some s' ∧ lin_inv s' G' ∧ ls_now s' <= t ∧
    (∀ c, c ∈ cs → lk_phase (lin_client s' c) = LIdle ∧ Z.min ops_per_client (lk_i (lin_client s c) + 1) <= lk_i (lin_client s' c)) ∧
    ∀ c', c' ∉ cs → lin_client s' c' = lin_client s c'.
Proof.
  intros HI HF; revert s G HI; induction HF as [|c cs Hc _ IH]; intros s G HI Hnd Ht.
  { exists s, G. split_and!; [done..|by intros c ?%elem_of_nil|done]. }
  apply NoDup_cons in Hnd as [Hn Hnd]. cbn [map concat].
  destruct (turn_advances t c s G HI Hc Ht) as (s1 & G1 & E1 & HI1 & Ht1 & Hp1 & Hi1 & Hf1).
  destruct (IH s1 G1 HI1 Hnd Ht1) as (s2 & G2 & E2 & HI2 & Ht2 & Hd2 & Hf2).
  exists s2, G2. split; [by rewrite lin_run_app, E1|]. split; [done|]. split; [done|]. split.
  - intros c0 [->|Hin]%elem_of_cons; [by rewrite (Hf2 c)|].
    rewrite <- (Hf1 c0); [by apply Hd2|]. by intros ->.
  - intros c' [Hne Hni]%not_elem_of_cons. by rewrite (Hf2 c' Hni), Hf1.
Qed.

Lemma rounds_finish t n s G :
  lin_inv s G → ls_now s <= t → (∀ c, is_client c → ops_per_client - Z.of_nat n <= lk_i (lin_client s c)) →
  (n = 0%nat → ∀ c, is_client c → lk_phase (lin_client s c) = LIdle) →
  ∃ s' G', run (lin_rounds n t) s = Some s' ∧ lin_inv s' G' ∧ finished clients ops_per_client s'.
Proof.
  revert s G; induction n as [|n IH]; intros s G HI Ht Hi Hph.
  { exists s, G. split; [done|]. split; [done|]. apply Forall_forall. intros c Hc%elem_of_seqZ.
    specialize (Hi c ltac:(lia)). pose proof (li_i _ _ HI c). split; [lia|apply Hph; [done|lia]]. }
  destruct (round_advances t (seqZ 0 clients) s G HI) as (s1 & G1 & E1 & HI1 & Ht1 & Hd1 & _); [|apply NoDup_seqZ|done|].
  { apply Forall_forall. intros c Hc%elem_of_seqZ. lia. }
  assert (Hin : ∀ c, is_client c → c ∈ seqZ 0 clients) by (intros c Hc; apply elem_of_seqZ; lia).
  destruct (IH s1 G1 HI1 Ht1) as (s' & G' & E' & HI' & HF).
  - intros c Hc. destruct (Hd1 c (Hin c Hc)) as [_ Hle]. specialize (Hi c Hc). lia.
  - intros _ c Hc. by apply Hd1, Hin.
  - exists s', G'. split; [|done]. unfold lin_rounds. cbn [replicate concat]. rewrite lin_run_app, E1. exact E'.
Qed.

End Invariant.

(** ** Guarantees *)

Section Guarantees.
Context {Timestamp : Type} (as_nanos : Timestamp → Z) (from_nanos : Z → Timestamp).
Context (memory clients ops_per_client : Z) (conn_id : Z → Z) (tick : Z).
Local Abbreviation start := (lin_start as_nanos from_nanos memory tick).
Local Abbreviation run := (lin_run as_nanos from_nanos memory clients ops_per_client conn_id).

(** The run is large enough for its requests, and every client has a connection of its
    own. *)
Definition lin_setup : Prop :=
  72 <= memory ∧ 0 <= clients <= U32_MAX ∧ 0 <= ops_per_client <= U32_MAX ∧ NoDup (1 :: map conn_id (seqZ 0 clients)).

Lemma conn_ids_inj : NoDup (map conn_id (seqZ 0 clients)) →
  ∀ c c', 0 <= c < clients → 0 <= c' < clients → conn_id c = conn_id c' → c = c'.
Proof.
  intros Hnd c c' Hc Hc' E.
  assert (Hat : ∀ z, 0 <= z < clients → map conn_id (seqZ 0 clients) !! Z.to_nat z = Some (conn_id z)).
  { intros z Hz. apply list_lookup_fmap_Some. exists z. split; [done|]. apply lookup_seqZ. lia. }
  pose proof (Hat c Hc) as E1. rewrite E in E1. pose proof (NoDup_lookup _ _ _ _ Hnd E1 (Hat c' Hc')). lia.
Qed.

(** Every run from the start succeeds and keeps the invariant. *)
Lemma lin_reachable evs :
  lin_setup → ∃ s0 s G, start = Some s0 ∧ run evs s0 = Some s ∧ lin_inv clients ops_per_client conn_id s G.
Proof.
  intros (Hm & Hc & Ho & [H1 Hnd]%NoDup_cons).
  destruct (lin_start_inv as_nanos from_nanos memory clients ops_per_client conn_id Hm tick) as (s0 & E0 & HI0); [|lia|].
  { intros c Hcc E. apply H1. rewrite <- E. apply (list_elem_of_fmap_2 conn_id), elem_of_seqZ. lia. }
  destruct (lin_run_inv as_nanos from_nanos memory clients ops_per_client conn_id Hm ltac:(lia) (conn_ids_inj Hnd)
    evs s0 [] HI0) as (s & G & E & HI). exists s0, s, G. done.
Qed.

(** C21: The test passes. On a server started on an empty directory, with every client on
    a connection of its own, however the clients, the handlers of their connections and
    the executor interleave, no request fails; and when all clients are done the history
    has every operation of every client and the checker finds it linearizable. *)
Theorem lincheck_passes evs :
  lin_setup →
  ∃ s0 s, start = Some s0 ∧ run evs s0 = Some s ∧
    (finished clients ops_per_client s → len (ls_hist s) = clients * ops_per_client ∧ lin_verdict s = true).
Proof.
  intros HS. destruct (lin_reachable evs HS) as (s0 & s & G & E0 & E & HI). destruct HS as (_ & Hc & Ho & _).
  exists s0, s. split; [done|]. split; [done|]. intros HF.
  pose proof (finished_returned _ _ _ _ _ HI HF) as HG.
  pose proof (finished_complete _ _ _ _ _ HI HF ltac:(lia) ltac:(lia)) as Hlen.
  destruct HI as [(v & _ & Hrun) _ _ _ _ _ _ Hhi _ Hrs Hso].
  split; [by rewrite Hhi, returned_length|]. unfold lin_verdict.
  apply (checker_accepts _ (omap ap_op G)); [|done|by apply returned_sorted|by eapply returned_run].
  rewrite Hhi. apply Forall_forall. intros op (a & Ha & Eop)%list_elem_of_omap. unfold ap_op in Eop.
  destruct (ap_res a) as [t|] eqn:Er; [|done]. injection Eop as <-. rewrite Forall_forall in Hrs. by apply (Hrs a).
Qed.

(** C30: The test ends. Whatever has happened so far, with operations in flight at any
    point, if from some time on every client in turn gets to send, be served and
    return, then after as many rounds as a client has operations all clients are done. *)
Theorem lincheck_finishes evs t :
  lin_setup →
  ∃ s0 s, start = Some s0 ∧ run evs s0 = Some s ∧
    (ls_now s <= t → ∃ s', run (lin_rounds clients (Z.to_nat ops_per_client) t) s = Some s' ∧
       finished clients ops_per_client s').
Proof.
  intros HS. destruct (lin_reachable evs HS) as (s0 & s & G & E0 & E & HI). destruct HS as (Hm & Hc & Ho & [_ Hnd]%NoDup_cons).
  exists s0, s. split; [done|]. split; [done|]. intros Ht.
  destruct (rounds_finish as_nanos from_nanos memory clients ops_per_client conn_id Hm ltac:(lia) (conn_ids_inj Hnd)
    t (Z.to_nat ops_per_client) s G HI Ht) as (s' & G' & E' & _ & HF); [| |by exists s'].
  - intros c _. pose proof (li_i _ _ _ _ _ HI c). lia.
  - intros Hz c _. destruct (lk_phase (lin_client s c)) eqn:Hph; [done|exfalso..].
    + pose proof (li_sent _ _ _ _ _ HI c _ Hph). pose proof (li_i _ _ _ _ _ HI c). lia.
    + pose proof (li_answer _ _ _ _ _ HI c _ _ Hph). pose proof (li_i _ _ _ _ _ HI c). cbn in *. lia.
Qed.
End Guarantees.

(** Two clients, a write and a read each: the writes overlap, the second one to be sent
    is applied first; the reads overlap. *)
#[export] Instance LinPhase_eq_dec : EqDecision LinPhase.
Proof. solve_decision. Defined.
#[export] Instance lin_setup_dec memory clients ops conn_id : Decision (lin_setup memory clients ops conn_id).
Proof. unfold lin_setup. apply _. Defined.
#[export] Instance finished_dec clients ops s : Decision (finished clients ops s).
Proof. unfold finished. apply _. Defined.

Definition lin_evs_w : list LinEvent :=
  [LInvoke 0 1; LInvoke 1 2; LServe 1; LServe 0; LReturn 0 3; LInvoke 0 4; LServe 0; LReturn 1 5; LInvoke 1 6; LReturn 0 6;
   LServe 1; LReturn 1 9].
Definition lin_final_w : option LinState :=
  s ← lin_start (Timestamp := Z) id id 100 7; lin_run id id 100 2 2 (λ c, c + 2) lin_evs_w s.

Lemma lincheck_passes_witness :
  match lin_final_w with
  | Some s => finished 2 2 s ∧ len (ls_hist s) = 4 ∧ lin_verdict s = true
  | None => False
  end.
Proof.
  destruct (lincheck_passes (Timestamp := Z) id id 100 2 2 (λ c, c + 2) 7 lin_evs_w) as (s0 & s & E0 & E & H);
    [by_decision|].
  assert (Hf : if lin_final_w is Some s then bool_decide (finished 2 2 s) = true else False) by by vm_compute.
  unfold lin_final_w in *. rewrite E0 in *. cbn [mbind option_bind] in *. rewrite E in *.
  apply bool_decide_eq_true in Hf. auto.
Defined.

(** After the first two requests of that run, with one of them served. *)
Lemma lincheck_finishes_witness :
  ∃ s0 s, lin_start (Timestamp := Z) id id 100 7 = Some s0 ∧
    lin_run id id 100 2 2 (λ c, c + 2) (take 3 lin_evs_w) s0 = Some s ∧
    (ls_now s <= 20 → ∃ s', lin_run id id 100 2 2 (λ c, c + 2) (lin_rounds 2 (Z.to_nat 2) 20) s = Some s' ∧ finished 2 2 s').
Proof. apply (lincheck_finishes (Timestamp := Z) id id 100 2 2 (λ c, c + 2) 7 (take 3 lin_evs_w) 20). by_decision. Defined.
