(* ===== verification/Txn.v ===== *)
(** * Txn: the transactional store ([crates/onebarrier/src/txn.rs])

    A line protocol. [BEGIN] starts a block, [SET] and [DEL] inside it are queued,
    [COMMIT] applies the queue as one [Txn] operation, [ABORT] drops it. *)

From S2P Require Import Prelude Bytes Text Io State Net Service.
Local Open Scope Z_scope.

(** [None]: end of the stream. *)
Definition read_line : M Conn (option bytes) :=
  raw ← read_until_lf;
  mret (match raw with [] => None | _ => Some (from_utf8_lossy raw) end).

(** The variables of the loop. *)
Record TxnState := mkTxn {
  tx_seq : Z;
  tx_buf : list (bytes * option bytes);
  in_txn : bool;
}.

Section Serve.
Context {σ : Type} `{!KvService σ}.

Definition reply_line (b : bytes) : M (Conn * σ) unit := write (b ++ CRLF).

(** [SET] and [DEL]: queue the write, or apply it on its own. *)
Definition one_write (client : Z) (t : TxnState) (entry : bytes * option bytes) : M (Conn * σ) TxnState :=
  if in_txn t then
    _ ← reply_line (bs "QUEUED");
    mret (mkTxn (tx_seq t) (tx_buf t ++ [entry]) true)
  else
    _ ← apply (op_txn client (tx_seq t + 1) [entry]);
    _ ← reply_line (bs "OK");
    mret (mkTxn (tx_seq t + 1) (tx_buf t) false).

(** One line that is not [QUIT]. *)
Definition txn_command (client : Z) (t : TxnState) (parts : list bytes) : M (Conn * σ) TxnState :=
  let name := to_ascii_uppercase (default [] (parts !! 0%nat)) in
  let cmd s := bool_decide (name = bs s) in
  let atleast n := (n <=? length parts)%nat in
  let part i := default [] (parts !! i) in
  if cmd "BEGIN" then
    _ ← reply_line (bs "BEGIN"); mret (mkTxn (tx_seq t) [] true)
  else if cmd "SET" && atleast 3%nat then one_write client t (part 1%nat, Some (part 2%nat))
  else if cmd "DEL" && atleast 2%nat then one_write client t (part 1%nat, None)
  else if cmd "GET" && atleast 2%nat then
    o ← apply (op_get client (tx_seq t + 1) (part 1%nat));
    _ ← match o with
        | Some (OutBytes (Some v)) => write (bs "VALUE " ++ to_string (len v) ++ CRLF ++ v ++ CRLF)
        | _ => reply_line (bs "NIL")
        end;
    mret (mkTxn (tx_seq t + 1) (tx_buf t) (in_txn t))
  else if cmd "COMMIT" then
    if in_txn t then
      _ ← apply (op_txn client (tx_seq t + 1) (tx_buf t));
      _ ← reply_line (bs "COMMIT " ++ to_string (len (tx_buf t)));
      mret (mkTxn (tx_seq t + 1) [] false)
    else
      _ ← reply_line (bs "ERR no transaction"); mret t
  else if cmd "ABORT" then
    _ ← reply_line (bs "ABORT"); mret (mkTxn (tx_seq t) [] false)
  else
    _ ← reply_line (bs "ERR unknown command"); mret t.

Definition txn_step (client : Z) (t : TxnState) : M (Conn * σ) (option TxnState) :=
  r ← try (on_conn read_line);
  match r with
  | inl None => mret None
  | inl (Some line) =>
      match split_whitespace line with
      | [] => mret (Some t)
      | (name :: _) as parts =>
          if bool_decide (to_ascii_uppercase name = bs "QUIT") then mret None
          else
            t ← txn_command client t parts;
            _ ← flush_writer;
            mret (Some t)
      end
  | inr e => on_read_error t e
  end.

Definition txn_start : TxnState := mkTxn 0 [] false.

Definition txn_serve_conn (client : Z) : M (Conn * σ) bool := λ s,
  loop (S (length (input s.1))) (txn_step client) txn_start s.
End Serve.

(** ** Termination and numbering *)

Section Facts.
Context {σ : Type} `{!KvService σ}.

Lemma quiet_txn_command client t parts : quiet (σ := σ) (txn_command client t parts).
Proof. unfold txn_command, one_write, reply_line. quiet_auto. Qed.

Lemma txn_step_consumes client : consumes (λ s : Conn * σ, length (input s.1)) (txn_step client).
Proof.
  apply read_step_consumes; [intros c r c'; by apply line_read_progress| |done].
  intros t r. apply quiet_ungrows. quiet_auto. apply quiet_txn_command.
Qed.

(** The end of every branch: a reply, then the new state. *)
Lemma asks_reply {A} b (a : A) Q : Q None [] → Q (Some a) [] → asks (_ ← reply_line b; mret a) Q.
Proof.
  intros. apply asks_bind_silent; [apply silent_write|done|]. intros _. by apply asks_ret.
Qed.

Lemma txn_command_numbers client t parts :
  asks (txn_command client t parts) (λ r l,
    match r with
    | Some t' => numbered client (tx_seq t) (tx_seq t') l
    | None => ∃ b, numbered client (tx_seq t) b l
    end).
Proof.
  assert (Hnil : numbered client (tx_seq t) (tx_seq t) []) by by apply numbered_nil.
  assert (Hone : ∀ op, op_client op = client → op_seq op = tx_seq t + 1 →
    numbered client (tx_seq t) (tx_seq t + 1) [op]) by (intros; by apply numbered_one).
  unfold txn_command, one_write.
  repeat match goal with |- asks (if ?b then _ else _) _ => destruct b end;
    try (apply asks_reply; eauto);
    apply asks_bind_apply; intros o; try (apply asks_reply; eauto).
  apply asks_bind_silent; [destruct o as [[| |[|]|]|]; apply silent_write|eauto|].
  intros _. apply asks_ret. eauto.
Qed.

Lemma txn_step_numbers client : step_numbers tx_seq client (txn_step client).
Proof.
  intros t. unfold txn_step.
  assert (Hnil : numbered client (tx_seq t) (tx_seq t) []) by by apply numbered_nil.
  apply asks_bind_silent; [auto with ob|eauto|]. intros [[line|]|e].
  - destruct (split_whitespace line) as [|name parts]; [by apply asks_ret|].
    case_match; [apply asks_ret; eauto|].
    eapply asks_bind; [apply txn_command_numbers|cbn; eauto|]. intros t' l Hl. cbn in Hl.
    apply asks_bind_silent; [apply silent_flush|rewrite app_nil_r; eauto|].
    intros _. apply asks_ret. by rewrite app_nil_r.
  - apply asks_ret. eauto.
  - apply read_error_numbers.
Qed.
End Facts.

(** ** Blocks *)

(** The lines a client sends for a write. *)
Definition write_tokens (w : bytes * option bytes) : list bytes :=
  match w.2 with Some v => [bs "SET"; w.1; v] | None => [bs "DEL"; w.1] end.
Definition wf_tokens (w : bytes * option bytes) : Prop := Forall token (write_tokens w).

(** A block: its lines from [BEGIN] to the last, [COMMIT] or [ABORT]. *)
Definition block (ws : list (bytes * option bytes)) (last : string) : list (list bytes) :=
  [bs "BEGIN"] :: map write_tokens ws ++ [[bs last]].

Definition text (lines : list (list bytes)) : bytes := concat (map line_of lines).

(** One line of tokens: read, run as a command, flushed. *)
Lemma txn_step_line {σ} `{!KvService σ} client t toks b out (svc : σ) t' svc' reply name rest :
  toks = name :: rest → Forall token toks →
  bool_decide (to_ascii_uppercase name = bs "QUIT") = false →
  txn_command client t toks (conn_text b out, svc) = (Ok t', (written (conn_text b out) reply, svc')) →
  txn_step client t (conn_text (line_of toks ++ b) out, svc) =
    (Ok (Some t'), (conn_text b (out ++ reply), svc')).
Proof.
  intros -> HT Hq Hcmd. unfold txn_step. rewrite run_bind. unfold try, on_conn, zoom, read_line. cbn [fst snd].
  rewrite run_bind. unfold line_of. rewrite <- app_assoc. cbn [app]. rewrite read_until_lf_text by by apply joined_no_lf.
  fold (line_of (name :: rest)). destruct (line_of (name :: rest)) as [|x y] eqn:Ex; [by apply app_eq_nil in Ex as [_ ?]|].
  rewrite <- Ex. cbn [mret M_ret]. rewrite lossy_valid by by apply utf8_ascii, line_of_ascii.
  rewrite split_whitespace_line_of, Hq by done. rewrite run_bind, Hcmd. done.
Qed.

Section Blocks.
Implicit Types (ws : list (bytes * option bytes)) (svc : Script).

(** The writes of a block are queued, nothing is asked. *)
Lemma txn_queue ws client seq buf fuel b out svc :
  Forall wf_tokens ws →
  loop (length ws + fuel) (txn_step client) (mkTxn seq buf true)
      (conn_text (text (map write_tokens ws) ++ b) out, svc) =
  loop fuel (txn_step client) (mkTxn seq (buf ++ ws) true)
      (conn_text b (out ++ concat (replicate (length ws) (bs "QUEUED" ++ CRLF))), svc).
Proof.
  intros HF; revert buf out; induction HF as [|w ws Hw _ IH]; intros buf out; cbn [length replicate concat].
  { by rewrite !app_nil_r. }
  change (text (map write_tokens (w :: ws))) with (line_of (write_tokens w) ++ text (map write_tokens ws)).
  rewrite <- app_assoc. cbn [Nat.add loop]. rewrite run_bind.
  assert (E : txn_step client (mkTxn seq buf true)
      (conn_text (line_of (write_tokens w) ++ text (map write_tokens ws) ++ b) out, svc) =
    (Ok (Some (mkTxn seq (buf ++ [w]) true)),
      (conn_text (text (map write_tokens ws) ++ b) (out ++ bs "QUEUED" ++ CRLF), svc))).
  { destruct w as [k [v|]]; eapply txn_step_line; try done; reflexivity. }
  rewrite E, IH. by rewrite <- !app_assoc.
Qed.

Definition block_replies ws (last : bytes) : bytes :=
  bs "BEGIN" ++ CRLF ++ concat (replicate (length ws) (bs "QUEUED" ++ CRLF)) ++ last ++ CRLF.

(** A whole block, then the end of the stream. *)
Lemma txn_block ws last client svc fuel reply svc' t' :
  Forall wf_tokens ws → token (bs last) → (2 + length ws < fuel)%nat →
  bool_decide (to_ascii_uppercase (bs last) = bs "QUIT") = false →
  (∀ conn, txn_command client (mkTxn 0 ws true) [bs last] (conn, svc) =
     (Ok t', ((write_all (reply ++ CRLF) conn).2, svc'))) →
  loop fuel (txn_step client) txn_start (conn_text (text (block ws last)) [], svc) =
    (Ok true, (conn_text [] (block_replies ws reply), svc')).
Proof.
  intros HF Hl Hf Hq Hlast.
  replace fuel with (S (length ws + S (S (fuel - (3 + length ws)))))%nat by lia.
  unfold block. unfold text. rewrite map_cons, map_app. cbn [concat]. rewrite concat_app.
  fold (text (map write_tokens ws)). cbn [map concat]. rewrite app_nil_r.
  remember (length ws + S (S (fuel - (3 + length ws))))%nat as fuel' eqn:Ef. cbn [loop]. rewrite run_bind.
  rewrite (txn_step_line client txn_start [bs "BEGIN"] _ [] svc (mkTxn 0 [] true) svc (bs "BEGIN" ++ CRLF)
    (bs "BEGIN") []); [|done|by_decision|done|done].
  rewrite Ef, txn_queue by done. cbn [loop app]. rewrite run_bind.
  rewrite <- (app_nil_r (line_of [bs last])).
  rewrite (txn_step_line client (mkTxn 0 ws true) [bs last] [] _ svc t' svc' (reply ++ CRLF) (bs last) []);
    [|done|by constructor|done|apply Hlast].
  cbn [loop]. unfold block_replies. rewrite run_bind. by rewrite <- !app_assoc.
Qed.

Lemma text_length ws last : (2 + length ws ≤ length (text (block ws last)))%nat.
Proof.
  unfold text, block. rewrite map_cons, map_app. cbn [concat map]. rewrite concat_app, !length_app. cbn [concat].
  assert (∀ l, (1 ≤ length (line_of l))%nat) as Hl.
  { intros l. unfold line_of. rewrite length_app. cbn. lia. }
  pose proof (Hl [bs "BEGIN"]). pose proof (Hl [bs last]). rewrite length_app.
  assert (length ws ≤ length (concat (map line_of (map write_tokens ws))))%nat; [|lia].
  induction ws as [|w ws IH]; [done|]. cbn [map concat length]. rewrite length_app.
  pose proof (Hl (write_tokens w)). lia.
Qed.
End Blocks.

(** C24: A committed block is one atomic operation. Whatever writes a client queues
    between [BEGIN] and [COMMIT], the service is asked exactly one operation, the
    transaction of all of them in order, and the client is told [QUEUED] for each
    and the number committed. *)
Theorem commit_is_one_operation client ws o :
  Forall wf_tokens ws →
  txn_serve_conn client (conn_text (text (block ws "COMMIT")) [], mkScript [o] [] []) =
    (Ok true, (conn_text [] (block_replies ws (bs "COMMIT " ++ to_string (len ws))),
               mkScript [] [] [op_txn client 1 ws])).
Proof.
  intros HF. unfold txn_serve_conn. eapply txn_block; [done|by_decision| |done|].
  - pose proof (text_length ws "COMMIT"). unfold conn_text. cbn [fst input]. unfold data. rewrite length_map. lia.
  - intros conn. reflexivity.
Qed.

(** An aborted block asks nothing of the service: none of its writes can reach
    the log or the store. *)
Theorem abort_asks_nothing client ws svc :
  Forall wf_tokens ws →
  txn_serve_conn client (conn_text (text (block ws "ABORT")) [], svc) =
    (Ok true, (conn_text [] (block_replies ws (bs "ABORT")), svc : Script)).
Proof.
  intros HF. unfold txn_serve_conn. eapply txn_block; [done|by_decision| |done|done].
  pose proof (text_length ws "ABORT"). unfold conn_text. cbn [fst input]. unfold data. rewrite length_map. lia.
Qed.

(** On any input and any answers, the operations a transactional connection asks
    carry its own id and strictly increasing numbers, so the engine never takes one
    for a duplicate of another. The connection always ends. *)
Theorem txn_numbers_increase client conn svc :
  ∃ r conn' svc' l b, txn_serve_conn client (conn, svc) = (r, (conn', svc')) ∧ r ≠ Ok false ∧
    asked svc' = asked svc ++ l ∧ numbered client 0 b l.
Proof. apply (serve_numbers tx_seq); [apply (txn_step_numbers client)|apply (txn_step_consumes client)]. Qed.

(** ** Witnesses *)

Definition ws_w : list (bytes * option bytes) := [(bs "a", Some (bs "1")); (bs "b", None)].

Lemma commit_is_one_operation_witness :
  txn_serve_conn 3 (conn_text (text (block ws_w "COMMIT")) [], mkScript [None] [] []) =
    (Ok true, (conn_text [] (block_replies ws_w (bs "COMMIT 2")), mkScript [] [] [op_txn 3 1 ws_w])).
Proof.
  apply (commit_is_one_operation 3 ws_w None). unfold wf_tokens. repeat constructor; by_decision.
Defined.

Lemma abort_asks_nothing_witness :
  txn_serve_conn 3 (conn_text (text (block ws_w "ABORT")) [], mkScript [] [] []) =
    (Ok true, (conn_text [] (block_replies ws_w (bs "ABORT")), mkScript [] [] [])).
Proof.
  apply (abort_asks_nothing 3 ws_w (mkScript [] [] [])). unfold wf_tokens. repeat constructor; by_decision.
Defined.
