(* ===== verification/TxnSession.v ===== *)
(** * TxnSession: what a client of the transactional store observes

    A specification on a plain map with a queue of pending writes, and the refinement:
    a connection served by the executor over the engine and its log gets the specified
    replies, and the store changes only at a commit or at a write outside a block. *)

From S2P Require Import Prelude Bytes Text Io State Durable Engine EngineFacts CrashSafety Lifetimes Cadence Net Service Serving Txn.
Local Open Scope Z_scope.

(** ** Specification *)

Inductive TxnCmd := TBegin | TSet (k v : bytes) | TDel (k : bytes) | TGet (k : bytes) | TCommit | TAbort.

Definition txn_tokens (cmd : TxnCmd) : list bytes :=
  match cmd with
  | TBegin => [bs "BEGIN"]
  | TSet k v => [bs "SET"; k; v]
  | TDel k => [bs "DEL"; k]
  | TGet k => [bs "GET"; k]
  | TCommit => [bs "COMMIT"]
  | TAbort => [bs "ABORT"]
  end.

Abbreviation Pending := (option (list (bytes * option bytes))).

(** A write waits in an open block, and is applied at once outside one. *)
Definition write_spec (m : Map) (p : Pending) (w : bytes * option bytes) : bytes * (Map * Pending) :=
  match p with
  | Some ws => (bs "QUEUED", (m, Some (ws ++ [w])))
  | None => (bs "OK", (apply_write m w, None))
  end.

(** The reply without its line end, the next map and the next block. A read sees what is
    committed. *)
Definition txn_spec (m : Map) (p : Pending) (cmd : TxnCmd) : bytes * (Map * Pending) :=
  match cmd with
  | TBegin => (bs "BEGIN", (m, Some []))
  | TSet k v => write_spec m p (k, Some v)
  | TDel k => write_spec m p (k, None)
  | TGet k => (if m !! k is Some v then bs "VALUE " ++ to_string (len v) ++ CRLF ++ v else bs "NIL", (m, p))
  | TCommit =>
      match p with
      | Some ws => (bs "COMMIT " ++ to_string (len ws), (fold_left apply_write ws m, None))
      | None => (bs "ERR no transaction", (m, None))
      end
  | TAbort => (bs "ABORT", (m, None))
  end.

Fixpoint txn_specs (m : Map) (p : Pending) (cmds : list TxnCmd) : bytes * (Map * Pending) :=
  match cmds with
  | [] => ([], (m, p))
  | cmd :: cmds =>
      let '(b, (m, p)) := txn_spec m p cmd in
      let '(bs, st) := txn_specs m p cmds in (b ++ CRLF ++ bs, st)
  end.

Definition wf_txn (cmd : TxnCmd) : Prop := Forall token (txn_tokens cmd).
#[export] Instance wf_txn_dec cmd : Decision (wf_txn cmd).
Proof. unfold wf_txn. apply _. Defined.

(** The handler's variables for a block. *)
Definition txn_of (seq : Z) (p : Pending) : TxnState := mkTxn seq (default [] p) (bool_decide (is_Some p)).

Section Session.
Context {Timestamp : Type} (as_nanos : Timestamp → Z) (from_nanos : Z → Timestamp).
#[local] Hint Extern 0 (StateMachine _) => exact (KvStore_StateMachine Wrapping) : typeclass_instances.
#[local] Hint Extern 0 (KvService Executor) => exact (Executor_service Wrapping as_nanos from_nanos) : typeclass_instances.
Implicit Types (m : Map) (p : Pending) (x : Executor).

Lemma kv_txn m c seq ws :
  kv_apply Wrapping (mkKv m) (op_txn c seq ws) = Some (mkKv (fold_left apply_write ws m), OutValue (Some (len ws))).
Proof. done. Qed.

(** ** One command *)

Lemma one_write_spec x m p c seq n w conn :
  Serving x m c seq n → 1 <= n →
  let '(b, (m', p')) := write_spec m p w in
  ∃ seq' x', one_write (σ := Executor) c (txn_of seq p) w (conn, x) = (Ok (txn_of seq' p'), (written conn (b ++ CRLF), x')) ∧
    Serving x' m' c seq' (n - 1).
Proof.
  intros HS Hn. destruct p as [ws|]; cbn [write_spec].
  - exists seq, x. split; [done|]. eapply Serving_weaken; [exact HS|lia|lia].
  - destruct (apply_new as_nanos from_nanos x m c seq n (op_txn c (seq + 1) [w]) _ _ conn HS Hn eq_refl eq_refl
      (kv_txn m c (seq + 1) [w])) as (x' & E & HS').
    exists (seq + 1), x'. split; [|exact HS'].
    change (one_write (σ := Executor) c (txn_of seq None) w) with
      (_ ← apply (σ := Executor) (op_txn c (seq + 1) [w]); _ ← reply_line (bs "OK"); mret (txn_of (seq + 1) None)).
    by rewrite run_bind, E.
Qed.

Lemma txn_command_spec x m p c seq n cmd conn :
  Serving x m c seq n → 1 <= n →
  let '(b, (m', p')) := txn_spec m p cmd in
  ∃ seq' x', txn_command (σ := Executor) c (txn_of seq p) (txn_tokens cmd) (conn, x) =
      (Ok (txn_of seq' p'), (written conn (b ++ CRLF), x')) ∧ Serving x' m' c seq' (n - 1).
Proof.
  intros HS Hn.
  assert (Hsame : Serving x m c seq (n - 1)) by (eapply Serving_weaken; [exact HS|lia|lia]).
  destruct cmd as [|k v|k|k| |]; cbn [txn_spec].
  - by exists seq, x.
  - exact (one_write_spec x m p c seq n (k, Some v) conn HS Hn).
  - exact (one_write_spec x m p c seq n (k, None) conn HS Hn).
  - destruct (apply_new as_nanos from_nanos x m c seq n (op_get c (seq + 1) k) (OutBytes (m !! k)) m conn
      HS Hn eq_refl eq_refl eq_refl) as (x' & E & HS').
    exists (seq + 1), x'. split; [|exact HS'].
    change (txn_command (σ := Executor) c (txn_of seq p) (txn_tokens (TGet k))) with
      (o ← apply (σ := Executor) (op_get c (seq + 1) k);
       _ ← match o with
           | Some (OutBytes (Some v)) => write (bs "VALUE " ++ to_string (len v) ++ CRLF ++ v ++ CRLF)
           | _ => reply_line (bs "NIL")
           end;
       mret (txn_of (seq + 1) p)).
    rewrite run_bind, E, run_bind. destruct (m !! k) as [v|]; [|done]. by rewrite <- !app_assoc.
  - destruct p as [ws|]; [|by exists seq, x].
    destruct (apply_new as_nanos from_nanos x m c seq n (op_txn c (seq + 1) ws) _ _ conn HS Hn eq_refl eq_refl
      (kv_txn m c (seq + 1) ws)) as (x' & E & HS').
    exists (seq + 1), x'. split; [|exact HS'].
    change (txn_command (σ := Executor) c (txn_of seq (Some ws)) (txn_tokens TCommit)) with
      (_ ← apply (σ := Executor) (op_txn c (seq + 1) ws);
       _ ← reply_line (bs "COMMIT " ++ to_string (len ws)); mret (txn_of (seq + 1) None)).
    by rewrite run_bind, E.
  - by exists seq, x.
Qed.

(** ** A whole connection *)

Definition txn_text (cmds : list TxnCmd) : bytes := text (map txn_tokens cmds).

Lemma txn_step_cmd x m p c seq n cmd b out :
  Serving x m c seq n → 1 <= n → wf_txn cmd →
  let '(r, (m', p')) := txn_spec m p cmd in
  ∃ seq' x', txn_step (σ := Executor) c (txn_of seq p) (conn_text (line_of (txn_tokens cmd) ++ b) out, x) =
      (Ok (Some (txn_of seq' p')), (conn_text b (out ++ r ++ CRLF), x')) ∧ Serving x' m' c seq' (n - 1).
Proof.
  intros HS Hn Hwf. pose proof (txn_command_spec x m p c seq n cmd (conn_text b out) HS Hn) as H.
  destruct (txn_spec m p cmd) as [r [m' p']]. destruct H as (seq' & x' & E & HS'). exists seq', x'. split; [|done].
  destruct cmd; (eapply txn_step_line; [reflexivity|exact Hwf|reflexivity|exact E]).
Qed.

Lemma txn_session cmds fuel x m p c seq n out :
  Serving x m c seq n → Forall wf_txn cmds → len cmds <= n → (length cmds < fuel)%nat →
  ∃ conn x', loop fuel (txn_step (σ := Executor) c) (txn_of seq p) (conn_text (txn_text cmds) out, x) = (Ok true, (conn, x')) ∧
    flushed conn = out ++ (txn_specs m p cmds).1 ∧
    ∃ e, ex_engine x' = Some e ∧ kv_map (state e) = (txn_specs m p cmds).2.1.
Proof.
  intros HS HF. revert fuel x m p seq n out HS.
  induction HF as [|cmd cmds Hc _ IH]; intros fuel x m p seq n out HS Hn Hf; destruct fuel as [|fuel]; try (cbn in Hf; lia).
  - eexists _, x. split; [reflexivity|]. cbn. rewrite app_nil_r. split; [done|].
    destruct HS as [(e & d & ? & _ & ? & _) _]. eauto.
  - rewrite length_cons in Hn. change (txn_text (cmd :: cmds)) with (line_of (txn_tokens cmd) ++ txn_text cmds).
    pose proof (txn_step_cmd x m p c seq n cmd (txn_text cmds) out HS ltac:(lia) Hc) as H.
    cbn [loop txn_specs]. destruct (txn_spec m p cmd) as [r [m1 p1]]. destruct H as (seq1 & x1 & E1 & HS1).
    rewrite run_bind, E1.
    destruct (IH fuel x1 m1 p1 seq1 (n - 1) (out ++ r ++ CRLF) HS1 ltac:(lia) ltac:(cbn in Hf; lia))
      as (conn & x' & E & Hout & He).
    exists conn, x'. split; [done|]. destruct (txn_specs m1 p1 cmds) as [rs st]. cbn [fst snd] in *.
    by rewrite Hout, <- !app_assoc.
Qed.

Lemma txn_text_length cmds : (length cmds ≤ length (txn_text cmds))%nat.
Proof.
  unfold txn_text, text. induction cmds as [|cmd cmds IH]; [done|]. cbn [map concat length]. rewrite length_app.
  unfold line_of at 1. rewrite length_app. cbn [length]. lia.
Qed.

(** C26: A session of the transactional store refines the specification. Whatever
    commands a client sends, in and out of blocks, with commits, aborts and a block left
    open at the end, a connection served by an executor that serves ends normally,
    sends exactly the specified replies, and leaves the specified map: the writes of a
    block take effect together at its commit or not at all, and reads never see them
    before. *)
Theorem txn_session_refines x m c n cmds :
  Serving x m c 0 n → Forall wf_txn cmds → len cmds <= n →
  ∃ conn x', txn_serve_conn (σ := Executor) c (conn_text (txn_text cmds) [], x) = (Ok true, (conn, x')) ∧
    flushed conn = (txn_specs m None cmds).1 ∧
    ∃ e, ex_engine x' = Some e ∧ kv_map (state e) = (txn_specs m None cmds).2.1.
Proof.
  intros HS HF Hn. unfold txn_serve_conn. cbn [fst]. pose proof (txn_text_length cmds).
  destruct (txn_session cmds (S (length (input (conn_text (txn_text cmds) [])))) x m None c 0 n [] HS HF Hn)
    as (conn & x' & ?); [cbn; unfold data; rewrite length_map; lia|]. by exists conn, x'.
Qed.
End Session.

(** ** Witness *)

Section Witness.
#[local] Hint Extern 0 (StateMachine _) => exact (KvStore_StateMachine Wrapping) : typeclass_instances.
#[local] Hint Extern 0 (KvService Executor) => exact (Executor_service Wrapping id id) : typeclass_instances.

(** A write, a committed block that reads while it is open, an aborted block, a stray
    commit, and a block the client never ends. *)
Definition txn_cmds_w : list TxnCmd :=
  [TSet (bs "a") (bs "1"); TBegin; TSet (bs "a") (bs "2"); TGet (bs "a"); TDel (bs "b"); TCommit; TGet (bs "a");
   TBegin; TSet (bs "a") (bs "3"); TAbort; TCommit; TBegin; TDel (bs "a")].

Lemma txn_session_refines_witness :
  ∃ conn x', txn_serve_conn (σ := Executor) 4
      (conn_text (txn_text txn_cmds_w) [], (service_start Wrapping 2 false 1 (calm ∅)).1) = (Ok true, (conn, x')) ∧
    flushed conn = concat (map (λ l, l ++ CRLF)
      [bs "OK"; bs "BEGIN"; bs "QUEUED"; bs "VALUE 1"; bs "1"; bs "QUEUED"; bs "COMMIT 2"; bs "VALUE 1"; bs "2"; bs "BEGIN";
       bs "QUEUED"; bs "ABORT"; bs "ERR no transaction"; bs "BEGIN"; bs "QUEUED"]) ∧
    ∃ e, ex_engine x' = Some e ∧ kv_map (state e) = {[bs "a" := bs "2"]}.
Proof.
  pose proof (txn_session_refines id id (service_start Wrapping 2 false 1 (calm ∅)).1 ∅ 4 20 txn_cmds_w) as H.
  assert (E : (txn_specs ∅ None txn_cmds_w).1 = concat (map (λ l, l ++ CRLF)
      [bs "OK"; bs "BEGIN"; bs "QUEUED"; bs "VALUE 1"; bs "1"; bs "QUEUED"; bs "COMMIT 2"; bs "VALUE 1"; bs "2"; bs "BEGIN";
       bs "QUEUED"; bs "ABORT"; bs "ERR no transaction"; bs "BEGIN"; bs "QUEUED"]) ∧
    (txn_specs ∅ None txn_cmds_w).2.1 = {[bs "a" := bs "2"]}) by by_decision.
  destruct E as [E1 E2]. rewrite E1, E2 in H. apply H; [apply Serving_start; width_lia|by_decision|by vm_compute].
Defined.
End Witness.
