(* ===== verification/Streamlog.v ===== *)
(** * Streamlog: the publish/subscribe log ([crates/onebarrier/src/streamlog.rs])

    A topic is a counter and numbered messages in the key-value store: [PUB]
    increments the counter and stores the message at that offset, [SUB] reads a
    range back, [LEN] reads the counter. *)

From S2P Require Import Prelude Bytes Text Io State Net Service.
Local Open Scope Z_scope.

(** [from_utf8_lossy(&raw).trim_end_matches(['\r', '\n'])]; [None]: end of stream. *)
Definition read_line : M Conn (option bytes) :=
  raw ← read_until_lf;
  mret (match raw with [] => None | _ => Some (pop_line_end (from_utf8_lossy raw)) end).


(** [format!("t:{topic}:n")] and [format!("t:{topic}:{offset}")] *)
Definition counter_key (topic : bytes) : bytes := bs "t:" ++ topic ++ COLON :: bs "n".
Definition message_key (topic : bytes) (offset : Z) : bytes :=
  bs "t:" ++ topic ++ COLON :: to_string offset.

(** The length of a topic from the answer to a [Get] of its counter. *)
Definition topic_len (o : option Output) : Z :=
  match o with
  | Some (OutBytes (Some v)) => default 0 (parse_untrimmed v)
  | _ => 0
  end.

Section Serve.
Context {σ : Type} `{!KvService σ}.

Definition publish (client seq : Z) (topic msg : bytes) : M (Conn * σ) Z :=
  o ← apply (op_incr client (seq + 1) (counter_key topic) 1);
  match o with
  | Some (OutValue (Some offset)) =>
      _ ← apply (op_set_bytes client (seq + 2) (message_key topic offset) msg);
      _ ← write (bs "OFFSET " ++ to_string offset ++ CRLF);
      mret (seq + 2)
  | _ =>
      _ ← write (bs "ERR unavailable" ++ CRLF);
      mret (seq + 1)
  end.

(** The loop of [SUB] over the offsets. *)
Fixpoint send_range (client seq : Z) (topic : bytes) (offs : list Z) : M (Conn * σ) Z :=
  match offs with
  | [] => mret seq
  | off :: offs =>
      o ← apply (op_get client (seq + 1) (message_key topic off));
      _ ← match o with
          | Some (OutBytes (Some m)) =>
              write (bs "MSG " ++ to_string off ++ bs " " ++ to_string (len m) ++ CRLF ++ m ++ CRLF)
          | _ => mret tt
          end;
      send_range client (seq + 1) topic offs
  end.

Definition subscribe (client seq : Z) (topic from : bytes) : M (Conn * σ) Z :=
  let from := default 1 (parse_i64 (trim from)) in
  o ← apply (op_get client (seq + 1) (counter_key topic));
  let first := Z.max from 1 in
  seq ← send_range client (seq + 1) topic (seqZ first (topic_len o - first + 1));
  _ ← write (bs "END" ++ CRLF);
  mret seq.

Definition length_of (client seq : Z) (topic : bytes) : M (Conn * σ) Z :=
  o ← apply (op_get client (seq + 1) (counter_key topic));
  _ ← write (bs "LEN " ++ to_string (topic_len o) ++ CRLF);
  mret (seq + 1).

(** One line that is not [QUIT]. *)
Definition stream_command (client seq : Z) (parts : list bytes) : M (Conn * σ) Z :=
  let name := to_ascii_uppercase (default [] (parts !! 0%nat)) in
  let cmd s := bool_decide (name = bs s) in
  let atleast n := (n <=? length parts)%nat in
  let part i := default [] (parts !! i) in
  if cmd "PUB" && atleast 3%nat then publish client seq (part 1%nat) (part 2%nat)
  else if cmd "SUB" && atleast 3%nat then subscribe client seq (part 1%nat) (part 2%nat)
  else if cmd "LEN" && atleast 2%nat then length_of client seq (part 1%nat)
  else _ ← write (bs "ERR unknown command" ++ CRLF); mret seq.

Definition stream_step (client seq : Z) : M (Conn * σ) (option Z) :=
  r ← try (on_conn read_line);
  match r with
  | inl None => mret None
  | inl (Some line) =>
      let parts := map trim_end (splitn 3 SP line) in
      match parts with
      | [] | [] :: _ => mret (Some seq)
      | name :: _ =>
          if bool_decide (to_ascii_uppercase name = bs "QUIT") then mret None
          else
            seq ← stream_command client seq parts;
            _ ← flush_writer;
            mret (Some seq)
      end
  | inr e => on_read_error seq e
  end.

Definition stream_serve_conn (client : Z) : M (Conn * σ) bool := λ s,
  loop (S (length (input s.1))) (stream_step client) 0 s.
End Serve.

(** ** Termination and numbering *)

Section Facts.
Context {σ : Type} `{!KvService σ}.

Lemma quiet_send_range client seq topic offs : quiet (σ := σ) (send_range client seq topic offs).
Proof. revert seq; induction offs; intros; cbn [send_range]; quiet_auto. Qed.

Lemma quiet_stream_command client seq parts : quiet (σ := σ) (stream_command client seq parts).
Proof.
  unfold stream_command, publish, subscribe, length_of. quiet_auto. apply quiet_send_range.
Qed.

Lemma stream_step_consumes client : consumes (λ s : Conn * σ, length (input s.1)) (stream_step client).
Proof.
  apply read_step_consumes; [intros c r c'; by apply line_read_progress| |done].
  intros seq r. apply quiet_ungrows. quiet_auto. apply quiet_stream_command.
Qed.

Lemma send_range_numbers client seq topic offs : seq_numbers client seq (send_range client seq topic offs).
Proof.
  revert seq; induction offs as [|off offs IH]; intros seq; cbn [send_range].
  - by apply seq_numbers_ret.
  - apply seq_numbers_apply; [done..|]. intros o.
    apply seq_numbers_silent; [|auto]. destruct o as [[| |[]|]|]; try apply silent_write; by intros s.
Qed.

Lemma stream_command_numbers client seq parts : seq_numbers client seq (stream_command client seq parts).
Proof.
  unfold stream_command, publish, subscribe, length_of.
  repeat case_match; try (apply seq_numbers_silent; [apply silent_write|]; intros; apply seq_numbers_ret; lia).
  all: apply seq_numbers_apply; [done..|]; intros o.
  - destruct o as [[| [offset|]| |]|];
      try (apply seq_numbers_silent; [apply silent_write|]; intros; apply seq_numbers_ret; lia).
    apply seq_numbers_apply; [done|cbn; lia|]. intros o'.
    apply seq_numbers_silent; [apply silent_write|]; intros; apply seq_numbers_ret; lia.
  - eapply seq_numbers_bind; [apply send_range_numbers|]. intros seq'.
    apply seq_numbers_silent; [apply silent_write|]; intros; apply seq_numbers_ret; lia.
  - apply seq_numbers_silent; [apply silent_write|]; intros; apply seq_numbers_ret; lia.
Qed.

Lemma stream_step_numbers client : step_numbers id client (stream_step client).
Proof.
  intros seq. unfold stream_step.
  assert (Hnil : numbered client seq seq []) by by apply numbered_nil.
  apply asks_bind_silent; [auto with ob|eauto|]. intros [[line|]|e].
  - destruct (map trim_end (splitn 3 SP line)) as [|[|b name] parts]; try by apply asks_ret.
    case_match; [apply asks_ret; eauto|].
    eapply asks_bind; [apply stream_command_numbers|cbn; eauto|]. intros seq' l Hl. cbn in Hl.
    apply asks_bind_silent; [apply silent_flush|rewrite app_nil_r; eauto|].
    intros _. apply asks_ret. by rewrite app_nil_r.
  - apply asks_ret. eauto.
  - apply (read_error_numbers id).
Qed.
End Facts.
