(* ===== verification/StreamSession.v ===== *)
(** * StreamSession: what publishers and subscribers observe

    The abstract state is a log of messages per topic. The handler keeps it in the
    key-value store under derived keys; the keys of different topics and offsets are
    shown apart, and a session served by the executor refines the abstract one. *)

From S2P Require Import Prelude Bytes Text Io State Durable Engine EngineFacts CrashSafety Lifetimes Cadence Net Service Serving Streamlog.
Local Open Scope Z_scope.

(** ** Specification *)

Inductive StreamCmd :=
  | SPub (topic msg : bytes)
  | SSub (topic : bytes) (from : Z)
  | SLen (topic : bytes).

(** The line a client sends. *)
Definition cmd_line (cmd : StreamCmd) : bytes :=
  match cmd with
  | SPub t m => bs "PUB" ++ SP :: t ++ SP :: m
  | SSub t f => bs "SUB" ++ SP :: t ++ SP :: to_string f
  | SLen t => bs "LEN" ++ SP :: t
  end.

Abbreviation Logs := (gmap bytes (list bytes)).
Definition log_of (logs : Logs) (t : bytes) : list bytes := default [] (logs !! t).

Definition msg_reply (log : list bytes) (off : Z) : bytes :=
  match log !! Z.to_nat (off - 1) with
  | Some m => bs "MSG " ++ to_string off ++ bs " " ++ to_string (len m) ++ CRLF ++ m ++ CRLF
  | None => []
  end.

Definition cmd_spec (logs : Logs) (cmd : StreamCmd) : bytes * Logs :=
  match cmd with
  | SPub t m =>
      (bs "OFFSET " ++ to_string (len (log_of logs t) + 1) ++ CRLF, <[t := log_of logs t ++ [m]]> logs)
  | SSub t f =>
      let first := Z.max f 1 in
      let n := len (log_of logs t) in
      (concat (map (msg_reply (log_of logs t)) (seqZ first (n - first + 1))) ++ bs "END" ++ CRLF, logs)
  | SLen t => (bs "LEN " ++ to_string (len (log_of logs t)) ++ CRLF, logs)
  end.

Fixpoint stream_spec (logs : Logs) (cmds : list StreamCmd) : bytes * Logs :=
  match cmds with
  | [] => ([], logs)
  | cmd :: cmds =>
      let '(r, logs) := cmd_spec logs cmd in
      let '(rs, logs) := stream_spec logs cmds in (r ++ rs, logs)
  end.

(** How many operations a command makes. *)
Definition cmd_cost (logs : Logs) (cmd : StreamCmd) : Z :=
  match cmd with
  | SPub _ _ => 2
  | SSub t f => 1 + Z.max 0 (len (log_of logs t) - Z.max f 1 + 1)
  | SLen _ => 1
  end.
Fixpoint stream_cost (logs : Logs) (cmds : list StreamCmd) : Z :=
  match cmds with
  | [] => 0
  | cmd :: cmds => cmd_cost logs cmd + stream_cost (cmd_spec logs cmd).2 cmds
  end.

(** A topic is a token; a message is any text without a line end or white space at
    its end; an offset fits [i64]. *)
Definition wf_msg (m : bytes) : Prop :=
  utf8 m ∧ (LF ∉ m) ∧ last m ≠ Some CR ∧ trim_end m = m.
Definition wf_cmd (cmd : StreamCmd) : Prop :=
  match cmd with
  | SPub t m => token t ∧ wf_msg m
  | SSub t f => token t ∧ is_i64 f
  | SLen t => token t
  end.
#[export] Instance wf_cmd_dec cmd : Decision (wf_cmd cmd).
Proof. destruct cmd; unfold wf_cmd, wf_msg; apply _. Defined.

(** ** The keys *)

Lemma message_key_inj t t' i j :
  is_i64 i → is_i64 j → message_key t i = message_key t' j → t = t' ∧ i = j.
Proof.
  intros Hi Hj E. apply (inj (app (bs "t:"))), split_last_sep in E as [-> E];
    [|apply to_string_no_colon..]. split; [done|by apply to_string_inj].
Qed.

Lemma counter_key_inj t t' : counter_key t = counter_key t' → t = t'.
Proof.
  intros E. apply (inj (app (bs "t:"))), split_last_sep in E as [-> _]; [done|..];
    by intros ?%list_elem_of_singleton.
Qed.

Lemma counter_message_ne t t' i : counter_key t ≠ message_key t' i.
Proof.
  intros E. apply (inj (app (bs "t:"))), split_last_sep in E as [_ E];
    [|by intros ?%list_elem_of_singleton|apply to_string_no_colon].
  assert (Byte.x6e ∈ to_string i) as Hin by (rewrite <- E; constructor).
  assert (HF : Forall (λ b, is_digit b ∨ b = MINUS) (to_string i)).
  { unfold to_string. destruct (Z.ltb_spec i 0); [constructor; [by right|]|];
      (eapply Forall_impl; [apply nat_to_string_digit; lia|]; auto). }
  rewrite Forall_forall in HF. apply HF in Hin as [[_ H]|H]; [by vm_compute in H|done].
Qed.

(** ** The representation *)

(** The store holds the logs; [bound] limits their lengths. *)
Record represents (bound : Z) (m : Map) (logs : Logs) : Prop := {
  rep_counter t : m !! counter_key t =
    match log_of logs t with [] => None | l => Some (to_string (len l)) end;
  rep_message t i msg : log_of logs t !! i = Some msg → m !! message_key t (Z.of_nat i + 1) = Some msg;
  rep_bound t : len (log_of logs t) <= bound;
}.

Lemma represents_weaken b b' m logs : represents b m logs → b <= b' → represents b' m logs.
Proof. intros [] ?. split; [done..|]. intros t. etrans; [apply rep_bound0|done]. Qed.

Lemma represents_empty : represents 0 ∅ ∅.
Proof. split; intros; unfold log_of in *; rewrite lookup_empty in *; done. Qed.

Lemma rep_counter_int b m logs t :
  represents b m logs → b <= I64_MAX →
  default 0 (m !! counter_key t ≫= parse_trimmed) = len (log_of logs t) ∧
  topic_len (Some (OutBytes (m !! counter_key t))) = len (log_of logs t).
Proof.
  intros [Hc _ Hb] HB. rewrite Hc. specialize (Hb t).
  destruct (log_of logs t) as [|x l] eqn:E; [done|]. cbn [mbind option_bind topic_len].
  rewrite parse_trimmed_to_string, parse_untrimmed_to_string by width_lia. done.
Qed.

Lemma log_of_insert t l logs t' :
  log_of (<[t := l]> logs) t' = if decide (t = t') then l else log_of logs t'.
Proof. unfold log_of. rewrite lookup_insert. by case_decide. Qed.

Lemma represents_publish b m logs t msg :
  represents b m logs → b < I64_MAX →
  let n := len (log_of logs t) + 1 in
  represents (b + 1) (<[message_key t n := msg]> (<[counter_key t := to_string n]> m))
    (<[t := log_of logs t ++ [msg]]> logs).
Proof.
  intros [Hc Hm Hb] HB n. pose proof (Hb t) as Hbt. split; intros t'; rewrite log_of_insert.
  - rewrite lookup_insert_ne by (intros E; by apply eq_sym, counter_message_ne in E).
    rewrite lookup_insert. destruct (decide (t = t')) as [<-|Hne].
    + rewrite decide_True by done.
      assert (n = len (log_of logs t ++ [msg])) as -> by (rewrite length_app; cbn; lia).
      by destruct (log_of logs t).
    + rewrite decide_False by (intros E; by apply counter_key_inj in E). apply Hc.
  - intros i msg'. pose proof (Hb t') as Hbt'. case_decide as Ht; [subst t'|]; intros Hi.
    + apply lookup_app_Some in Hi as [Hi|[Hi Hx]].
      * pose proof (lookup_lt_Some _ _ _ Hi) as Hlt.
        rewrite lookup_insert_ne; [|intros E; apply message_key_inj in E as [_ E]; unfold n in *; width_lia].
        rewrite lookup_insert_ne by apply counter_message_ne. by apply Hm.
      * destruct (i - length (log_of logs t))%nat as [|j] eqn:Ej; [|by destruct j].
        injection Hx as <-. replace (Z.of_nat i + 1) with n by (unfold n; lia). by rewrite lookup_insert_eq.
    + pose proof (lookup_lt_Some _ _ _ Hi) as Hlt.
      rewrite lookup_insert_ne; [|intros E; apply message_key_inj in E as [E _]; [done|unfold n; width_lia|width_lia]].
      rewrite lookup_insert_ne by apply counter_message_ne. by apply Hm.
  - pose proof (Hb t'). case_decide; [|lia]. rewrite length_app. cbn. lia.
Qed.

(** ** Reading the lines *)

Definition cmd_parts (cmd : StreamCmd) : list bytes :=
  match cmd with
  | SPub t m => [bs "PUB"; t; m]
  | SSub t f => [bs "SUB"; t; to_string f]
  | SLen t => [bs "LEN"; t]
  end.

Lemma last_app_sep {A} (a : list A) x b : last (a ++ x :: b) = Some (default x (last b)).
Proof.
  rewrite last_app_cons. destruct b as [|y b]; [done|]. rewrite last_cons_cons.
  destruct (last (y :: b)) eqn:E; [done|]. by apply last_None in E.
Qed.

Lemma cmd_line_parts cmd : wf_cmd cmd → map trim_end (splitn 3 SP (cmd_line cmd)) = cmd_parts cmd.
Proof.
  assert (Hsp : ∀ t, token t → SP ∉ t) by (intros t Ht; apply (token_no _ _ Ht), not_plain_space).
  assert (Htr : ∀ t, token t → trim_end t = t) by (intros t []; by apply trim_end_plain).
  destruct cmd as [t m|t f|t]; cbn [wf_cmd cmd_line cmd_parts splitn].
  - intros [Ht (_ & _ & _ & Hm)]. rewrite split_seps_sep by by_decision. rewrite split_seps_sep by auto.
    assert (split_seps 0 SP m = [m]) as -> by by destruct m. cbn [map].
    rewrite (Htr (bs "PUB")) by by_decision. by rewrite (Htr t), Hm by done.
  - intros [Ht Hf]. rewrite split_seps_sep by by_decision. rewrite split_seps_sep by auto.
    assert (split_seps 0 SP (to_string f) = [to_string f]) as -> by by destruct (to_string f).
    cbn [map]. rewrite (Htr (bs "SUB")) by by_decision. rewrite (Htr t) by done.
    by rewrite Htr by apply token_to_string.
  - intros Ht. rewrite split_seps_sep by by_decision. rewrite split_seps_none by auto. cbn [map].
    rewrite (Htr (bs "LEN")) by by_decision. by rewrite Htr.
Qed.

Lemma cmd_line_text cmd :
  wf_cmd cmd → utf8 (cmd_line cmd) ∧ (LF ∉ cmd_line cmd) ∧
  last (cmd_line cmd) ≠ Some LF ∧ last (cmd_line cmd) ≠ Some CR.
Proof.
  assert (Hlf : ∀ t, token t → LF ∉ t) by (intros t Ht; apply (token_no _ _ Ht), not_plain_lf).
  assert (Hu : ∀ t, token t → utf8 t) by (intros t []; by apply utf8_ascii, plain_ascii).
  assert (Hl : ∀ t, token t → last t ≠ Some LF ∧ last t ≠ Some CR).
  { intros t [_ Ht]. split; intros E.
    - by apply not_plain_lf, (plain_last t).
    - by apply not_plain_cr, (plain_last t). }
  assert (Hin : ∀ a b, LF ∉ a → LF ∉ b → LF ∉ (a ++ SP :: b)).
  { intros a b Ha Hb [?|[?|?]%elem_of_cons]%elem_of_app; done. }
  assert (Hu2 : ∀ a b, utf8 a → utf8 b → utf8 (a ++ SP :: b)).
  { intros a b Ha Hb. apply utf8_app; [done|]. change (SP :: b) with ([SP] ++ b). by apply utf8_app. }
  destruct cmd as [t m|t f|t]; cbn [wf_cmd cmd_line].
  - intros [Ht (Hm & Hmlf & Hmcr & _)]. split; [apply Hu2; [done|auto]|]. split; [apply Hin; [by_decision|auto]|].
    rewrite !last_app_sep. assert (last m ≠ Some LF).
    { intros E%last_Some_elem_of. done. }
    destruct (last m) as [b|] eqn:E; cbn; split; congruence || done.
  - intros [Ht _]. pose proof (token_to_string f) as Hf. destruct (Hl _ Hf) as [H1 H2].
    split; [apply Hu2; [done|auto]|]. split; [apply Hin; [by_decision|auto]|].
    rewrite !last_app_sep. destruct (last (to_string f)) as [b|] eqn:E; cbn; split; congruence || done.
  - intros Ht. destruct (Hl _ Ht) as [H1 H2]. split; [apply Hu2; [done|auto]|]. split; [apply Hin; [by_decision|auto]|].
    rewrite !last_app_sep. destruct (last t) as [b|] eqn:E; cbn; split; congruence || done.
Qed.

(** ** One command *)

Section Session.
Context {Timestamp : Type} (as_nanos : Timestamp → Z) (from_nanos : Z → Timestamp).
#[local] Hint Extern 0 (StateMachine _) => exact (KvStore_StateMachine Wrapping) : typeclass_instances.
#[local] Hint Extern 0 (KvService Executor) => exact (Executor_service Wrapping as_nanos from_nanos) : typeclass_instances.
Implicit Types (m : Map) (x : Executor) (logs : Logs).

Lemma send_range_spec offs b x m logs c seq n t conn :
  represents b m logs → b <= I64_MAX → Serving x m c seq n → len offs <= n →
  Forall (λ o, 1 <= o <= len (log_of logs t)) offs →
  ∃ x', send_range (σ := Executor) c seq t offs (conn, x) =
      (Ok (seq + len offs), (written conn (concat (map (msg_reply (log_of logs t)) offs)), x')) ∧
    Serving x' m c (seq + len offs) (n - len offs).
Proof.
  intros HR HB HS Hn HF. revert x seq n conn HS Hn.
  induction HF as [|o offs Ho _ IH]; intros x seq n conn HS Hn.
  { exists x. cbn. rewrite Z.add_0_r, Z.sub_0_r, written_nil. done. }
  rewrite length_cons, Nat2Z.inj_succ in Hn |- *.
  assert (Hmsg : ∃ msg, log_of logs t !! Z.to_nat (o - 1) = Some msg) by (apply lookup_lt_is_Some; lia).
  destruct Hmsg as [msg Hmsg].
  assert (Hm : m !! message_key t o = Some msg).
  { pose proof (rep_message _ _ _ HR t _ _ Hmsg) as H. by replace (Z.of_nat (Z.to_nat (o - 1)) + 1) with o in H by lia. }
  destruct (apply_new as_nanos from_nanos x m c seq n (op_get c (seq + 1) (message_key t o)) (OutBytes (Some msg)) m conn HS
    ltac:(lia) eq_refl eq_refl) as (x1 & E & HS1).
  { unfold kv_apply. cbn [op_kind op_get kv_map]. by rewrite Hm. }
  destruct (IH x1 (seq + 1) (n - 1) (written conn (msg_reply (log_of logs t) o)) HS1 ltac:(lia)) as (x' & E' & HS').
  exists x'. replace (seq + Z.succ (len offs)) with (seq + 1 + len offs) by lia.
  replace (n - Z.succ (len offs)) with (n - 1 - len offs) by lia. split; [|done].
  cbn [send_range]. rewrite run_bind, E, run_bind. cbn [map concat]. rewrite <- written_written, <- E'.
  unfold msg_reply at 1. rewrite Hmsg. done.
Qed.

Lemma stream_command_spec b x m logs c seq n cmd conn :
  represents b m logs → b < I64_MAX → Serving x m c seq n → wf_cmd cmd → cmd_cost logs cmd <= n →
  ∃ x' m', stream_command (σ := Executor) c seq (cmd_parts cmd) (conn, x) =
      (Ok (seq + cmd_cost logs cmd), (written conn (cmd_spec logs cmd).1, x')) ∧
    Serving x' m' c (seq + cmd_cost logs cmd) (n - cmd_cost logs cmd) ∧
    represents (b + 1) m' (cmd_spec logs cmd).2.
Proof.
  intros HR HB HS Hwf Hn. pose proof (rep_bound _ _ _ HR) as Hb.
  destruct cmd as [t msg|t f|t]; destruct (rep_counter_int b m logs t HR ltac:(lia)) as [Hint Hlen];
    specialize (Hb t); cbn [cmd_cost cmd_spec fst snd] in *.
  - set (k := len (log_of logs t) + 1).
    destruct (apply_new as_nanos from_nanos x m c seq n (op_incr c (seq + 1) (counter_key t) 1) (OutValue (Some k))
      (<[counter_key t := to_string k]> m) conn HS ltac:(lia) eq_refl eq_refl) as (x1 & E1 & HS1).
    { rewrite kv_incr_wrapping, Hint. fold k. by rewrite i64_wrap_small by width_lia. }
    destruct (apply_new as_nanos from_nanos x1 _ c (seq + 1) (n - 1) (op_set_bytes c (seq + 2) (message_key t k) msg) OutOk
      (<[message_key t k := msg]> (<[counter_key t := to_string k]> m)) conn HS1 ltac:(lia) eq_refl
      ltac:(cbn; lia) eq_refl) as (x2 & E2 & HS2).
    exists x2, (<[message_key t k := msg]> (<[counter_key t := to_string k]> m)).
    split; [|split; [by replace (seq + 2) with (seq + 1 + 1) by lia; replace (n - 2) with (n - 1 - 1) by lia|]].
    + change (stream_command c seq (cmd_parts (SPub t msg))) with (publish (σ := Executor) c seq t msg).
      unfold publish. by rewrite run_bind, E1, run_bind, E2.
    + by apply represents_publish.
  - destruct (apply_new as_nanos from_nanos x m c seq n (op_get c (seq + 1) (counter_key t)) (OutBytes (m !! counter_key t)) m conn HS
      ltac:(lia) eq_refl eq_refl eq_refl) as (x1 & E1 & HS1).
    set (first := Z.max f 1) in *. set (offs := seqZ first (len (log_of logs t) - first + 1)).
    assert (Hlo : len offs = Z.max 0 (len (log_of logs t) - first + 1)).
    { unfold offs. rewrite length_seqZ. lia. }
    destruct (send_range_spec offs b x1 m logs c (seq + 1) (n - 1) t conn HR ltac:(lia) HS1 ltac:(lia))
      as (x2 & E2 & HS2).
    { unfold offs. apply Forall_forall. intros o Ho%elem_of_seqZ. lia. }
    exists x2, m. rewrite Hlo in HS2, E2. split; [|split].
    + change (stream_command c seq (cmd_parts (SSub t f))) with (subscribe (σ := Executor) c seq t (to_string f)).
      unfold subscribe. rewrite run_bind, E1, Hlen. rewrite trim_to_string, parse_i64_to_string by apply Hwf.
      change (default 1 (Some f)) with f. fold first offs. rewrite run_bind, E2.
      by rewrite <- written_written, Z.add_assoc.
    + by rewrite Z.add_assoc, Z.sub_add_distr.
    + eapply represents_weaken; [done|lia].
  - destruct (apply_new as_nanos from_nanos x m c seq n (op_get c (seq + 1) (counter_key t)) (OutBytes (m !! counter_key t)) m conn HS
      ltac:(lia) eq_refl eq_refl eq_refl) as (x1 & E1 & HS1).
    exists x1, m. split; [|split; [done|eapply represents_weaken; [done|lia]]].
    change (stream_command c seq (cmd_parts (SLen t))) with (length_of (σ := Executor) c seq t).
    unfold length_of. by rewrite run_bind, E1, Hlen.
Qed.

(** ** A whole connection *)

Definition stream_text (cmds : list StreamCmd) : bytes := concat (map (λ cmd, cmd_line cmd ++ [LF]) cmds).

Lemma stream_step_line b x m logs c seq n cmd rest out :
  represents b m logs → b < I64_MAX → Serving x m c seq n → wf_cmd cmd → cmd_cost logs cmd <= n →
  ∃ x' m', stream_step (σ := Executor) c seq (conn_text (cmd_line cmd ++ [LF] ++ rest) out, x) =
      (Ok (Some (seq + cmd_cost logs cmd)), (conn_text rest (out ++ (cmd_spec logs cmd).1), x')) ∧
    Serving x' m' c (seq + cmd_cost logs cmd) (n - cmd_cost logs cmd) ∧
    represents (b + 1) m' (cmd_spec logs cmd).2.
Proof.
  intros HR HB HS Hwf Hn. destruct (cmd_line_text cmd Hwf) as (Hu & Hlf & H1 & H2).
  destruct (stream_command_spec b x m logs c seq n cmd (conn_text rest out) HR HB HS Hwf Hn)
    as (x' & m' & E & HS' & HR').
  exists x', m'. split; [|done]. unfold stream_step. rewrite run_bind.
  assert (Hrd : read_line (conn_text (cmd_line cmd ++ [LF] ++ rest) out) =
    (Ok (Some (cmd_line cmd)), conn_text rest out)).
  { unfold read_line. rewrite run_bind. unfold read_until_lf, conn_text. cbn [input Net.shutdown].
    rewrite app_assoc. unfold data at 1. rewrite map_app. fold (data (cmd_line cmd ++ [LF])) (data rest).
    rewrite take_until_lf_line by done. destruct (cmd_line cmd ++ [LF]) as [|y l] eqn:Ey; [by destruct (cmd_line cmd)|].
    rewrite <- Ey, lossy_valid by (by apply utf8_app). by rewrite pop_line_end_lf. }
  unfold try, on_conn, zoom. cbn [fst snd]. rewrite Hrd, (cmd_line_parts cmd Hwf).
  assert (Hq : ∀ K : M (Conn * Executor) (option Z),
    (match cmd_parts cmd with
     | [] | [] :: _ => mret (Some seq)
     | name :: _ => if bool_decide (to_ascii_uppercase name = bs "QUIT") then mret None else K
     end) = K) by (intros K; by destruct cmd).
  rewrite Hq, run_bind, E. done.
Qed.

Lemma stream_cost_nonneg cmds logs : 0 <= stream_cost logs cmds.
Proof.
  revert logs; induction cmds as [|cmd cmds IH]; intros logs; cbn [stream_cost]; [lia|].
  specialize (IH (cmd_spec logs cmd).2). destruct cmd; cbn [cmd_cost]; lia.
Qed.

Lemma stream_refines cmds b fuel x m logs c seq n out :
  represents b m logs → b + len cmds <= I64_MAX → Serving x m c seq n → Forall wf_cmd cmds →
  stream_cost logs cmds <= n → (length cmds < fuel)%nat →
  ∃ conn x' m', loop fuel (stream_step (σ := Executor) c) seq (conn_text (stream_text cmds) out, x) =
      (Ok true, (conn, x')) ∧
    flushed conn = out ++ (stream_spec logs cmds).1 ∧
    represents (b + len cmds) m' (stream_spec logs cmds).2 ∧
    ∃ e, ex_engine x' = Some e ∧ kv_map (state e) = m'.
Proof.
  intros HR HB HS HF. revert b fuel x m logs seq n out HR HB HS.
  induction HF as [|cmd cmds Hc _ IH]; intros b fuel x m logs seq n out HR HB HS Hn Hf.
  - destruct fuel as [|fuel]; [lia|]. eexists _, x, m. split; [reflexivity|]. cbn.
    rewrite app_nil_r, Z.add_0_r. split; [done|]. split; [done|].
    destruct HS as [(e & d & ? & _ & ? & _) _]. eauto.
  - destruct fuel as [|fuel]; [cbn in Hf; lia|]. rewrite length_cons, Nat2Z.inj_succ in HB |- *.
    change (stream_text (cmd :: cmds)) with ((cmd_line cmd ++ [LF]) ++ stream_text cmds).
    rewrite <- app_assoc. cbn [stream_cost] in Hn. pose proof (stream_cost_nonneg cmds (cmd_spec logs cmd).2).
    destruct (stream_step_line b x m logs c seq n cmd (stream_text cmds) out HR ltac:(lia) HS Hc ltac:(lia))
      as (x1 & m1 & E1 & HS1 & HR1).
    cbn [loop]. rewrite run_bind, E1.
    destruct (IH (b + 1) fuel x1 m1 (cmd_spec logs cmd).2 (seq + cmd_cost logs cmd) (n - cmd_cost logs cmd)
      (out ++ (cmd_spec logs cmd).1) HR1 ltac:(lia) HS1 ltac:(lia) ltac:(cbn in Hf; lia))
      as (conn & x' & m' & E & Hout & HR' & He).
    exists conn, x', m'. split; [done|]. cbn [stream_spec].
    destruct (cmd_spec logs cmd) as [r logs1]. cbn [fst snd] in *.
    destruct (stream_spec logs1 cmds) as [rs logs2]. cbn [fst snd] in *.
    rewrite Hout, app_assoc. split; [done|]. split; [|done].
    by replace (b + Z.succ (len cmds)) with (b + 1 + len cmds) by lia.
Qed.

Lemma stream_text_length cmds : (length cmds ≤ length (stream_text cmds))%nat.
Proof.
  induction cmds as [|cmd cmds IH]; [done|]. change (stream_text (cmd :: cmds)) with
    ((cmd_line cmd ++ [LF]) ++ stream_text cmds). rewrite !length_app. cbn. lia.
Qed.
End Session.

Section Guarantees.
Context {Timestamp : Type} (as_nanos : Timestamp → Z) (from_nanos : Z → Timestamp).
#[local] Hint Extern 0 (StateMachine _) => exact (KvStore_StateMachine Wrapping) : typeclass_instances.
#[local] Hint Extern 0 (KvService Executor) => exact (Executor_service Wrapping as_nanos from_nanos) : typeclass_instances.

(** C27: The streaming log refines a log of messages per topic. Served by the
    executor from a store that represents some logs, a session of publishes,
    subscriptions and length queries gets exactly the specified replies (offsets
    count up from 1 per topic, a subscription replays the messages in order), and
    the store represents the specified logs. *)
Theorem stream_session_refines b x m logs c n cmds :
  represents b m logs → b + len cmds <= I64_MAX → Serving x m c 0 n → Forall wf_cmd cmds →
  stream_cost logs cmds <= n →
  ∃ conn x' m', stream_serve_conn (σ := Executor) c (conn_text (stream_text cmds) [], x) =
      (Ok true, (conn, x')) ∧
    flushed conn = (stream_spec logs cmds).1 ∧ represents (b + len cmds) m' (stream_spec logs cmds).2 ∧
    ∃ e, ex_engine x' = Some e ∧ kv_map (state e) = m'.
Proof.
  intros HR HB HS HF Hn. unfold stream_serve_conn. cbn [fst].
  pose proof (stream_text_length cmds).
  apply (stream_refines as_nanos from_nanos cmds b _ x m logs c 0 n [] HR HB HS HF Hn).
  cbn. unfold data. rewrite length_map. lia.
Qed.
End Guarantees.

(** On any input and any answers, the operations a streaming connection asks
    carry its own id and strictly increasing numbers, and the connection ends. *)
Theorem stream_numbers_increase client conn svc :
  ∃ r conn' svc' l b, stream_serve_conn client (conn, svc) = (r, (conn', svc')) ∧ r ≠ Ok false ∧
    asked svc' = asked svc ++ l ∧ numbered client 0 b l.
Proof. apply (serve_numbers id); [apply (stream_step_numbers client)|apply (stream_step_consumes client)]. Qed.

Section Witness.
#[local] Hint Extern 0 (StateMachine _) => exact (KvStore_StateMachine Wrapping) : typeclass_instances.
#[local] Hint Extern 0 (KvService Executor) => exact (Executor_service Wrapping id id) : typeclass_instances.

Definition stream_cmds_w : list StreamCmd :=
  [SPub (bs "a") (bs "hello world"); SPub (bs "a:1") (bs "x"); SPub (bs "a") (bs "2"); SSub (bs "a") 0; SLen (bs "b")].

Lemma stream_session_refines_witness :
  ∃ conn x' m', stream_serve_conn (σ := Executor) 4
      (conn_text (stream_text stream_cmds_w) [], (service_start Wrapping 2 false 1 (calm ∅)).1) =
      (Ok true, (conn, x')) ∧
    flushed conn = bs "OFFSET 1" ++ CRLF ++ bs "OFFSET 1" ++ CRLF ++ bs "OFFSET 2" ++ CRLF ++
      bs "MSG 1 11" ++ CRLF ++ bs "hello world" ++ CRLF ++ bs "MSG 2 1" ++ CRLF ++ bs "2" ++ CRLF ++
      bs "END" ++ CRLF ++ bs "LEN 0" ++ CRLF ∧
    represents 5 m' (stream_spec ∅ stream_cmds_w).2 ∧
    ∃ e, ex_engine x' = Some e ∧ kv_map (state e) = m'.
Proof.
  destruct (stream_session_refines id id 0 (service_start Wrapping 2 false 1 (calm ∅)).1 ∅ ∅ 4 100 stream_cmds_w)
    as (conn & x' & m' & E & Hout & HR & He);
    [apply represents_empty|by vm_compute|apply Serving_start; width_lia|by_decision|by vm_compute|].
  exists conn, x', m'. split; [exact E|]. split; [rewrite Hout; by vm_compute|]. split; [exact HR|exact He].
Defined.
End Witness.
