(* ===== verification/Memcache.v ===== *)
(** * Memcache: the Memcached text protocol ([crates/onebarrier/src/memcache.rs]) *)

From S2P Require Import Prelude Bytes Text Io State Net Service.
Local Open Scope Z_scope.

(** [None]: end of the stream. *)
Definition read_line : M Conn (option bytes) :=
  raw ← read_until_lf;
  mret (match raw with [] => None | _ => Some (pop_line_end raw) end).

Definition parse_usize_or_zero (b : bytes) : Z := default 0 (from_utf8 b ≫= parse_usize).
Definition parse_i64_or_zero (b : bytes) : Z := default 0 (parse_untrimmed b).

Section Serve.
Context (am : arith_mode) (memory : Z) {σ : Type} `{!KvService σ}.

Definition mc_line (s : string) : M (Conn * σ) unit := write (bs s ++ CRLF).

(** [set], [add] and [replace] with at least five words; the data block follows. *)
Definition mc_set (client seq : Z) (parts : list bytes) : M (Conn * σ) Z :=
  let key := from_utf8_lossy (default [] (parts !! 1%nat)) in
  let nbytes := parse_usize_or_zero (default [] (parts !! 4%nat)) in
  let noreply := bool_decide (last parts = Some (bs "noreply")) in
  size ← unwrap (usize_arith am (nbytes + 2));
  _ ← alloc memory size;
  block ← on_conn (read_exact (Z.to_nat size));
  _ ← apply (op_set_bytes client (seq + 1) key (take (Z.to_nat nbytes) block));
  _ ← (if noreply then mret tt else mc_line "STORED");
  mret (seq + 1).

(** The loop of [get] and [gets]. *)
Fixpoint mc_get (client seq : Z) (keys : list bytes) : M (Conn * σ) Z :=
  match keys with
  | [] => mret seq
  | k :: keys =>
      let key := from_utf8_lossy k in
      o ← apply (op_get client (seq + 1) key);
      _ ← match o with
          | Some (OutBytes (Some v)) =>
              write (bs "VALUE " ++ key ++ bs " 0 " ++ to_string (len v) ++ CRLF ++ v ++ CRLF)
          | _ => mret tt
          end;
      mc_get client (seq + 1) keys
  end.

(** [incr] and [decr]: only on a key that exists. *)
Definition mc_incr (client seq : Z) (decr : bool) (parts : list bytes) : M (Conn * σ) Z :=
  let key := from_utf8_lossy (default [] (parts !! 1%nat)) in
  let mag := parse_i64_or_zero (default [] (parts !! 2%nat)) in
  o ← apply (op_get client (seq + 1) key);
  match o with
  | Some (OutBytes (Some _)) =>
      delta ← unwrap (if decr then i64_arith am (- mag) else Some mag);
      o ← apply (op_incr client (seq + 2) key delta);
      _ ← match o with
          | Some (OutValue (Some n)) => write (to_string (Z.max n 0) ++ CRLF)
          | _ => mc_line "ERROR"
          end;
      mret (seq + 2)
  | _ => _ ← mc_line "NOT_FOUND"; mret (seq + 1)
  end.

Definition mc_delete (client seq : Z) (parts : list bytes) : M (Conn * σ) Z :=
  o ← apply (op_del client (seq + 1) (from_utf8_lossy (default [] (parts !! 1%nat))));
  _ ← match o with
      | Some (OutValue (Some 1)) => mc_line "DELETED"
      | _ => mc_line "NOT_FOUND"
      end;
  mret (seq + 1).

(** One line that is not [quit]. *)
Definition mc_command (client seq : Z) (parts : list bytes) : M (Conn * σ) Z :=
  let name := to_ascii_lowercase (default [] (parts !! 0%nat)) in
  let cmd s := bool_decide (name = bs s) in
  let atleast n := (n <=? length parts)%nat in
  if cmd "set" || cmd "add" || cmd "replace" then
    if atleast 5%nat then mc_set client seq parts
    else _ ← mc_line "ERROR"; mret seq
  else if cmd "get" || cmd "gets" then
    seq ← mc_get client seq (drop 1 parts); _ ← mc_line "END"; mret seq
  else if (cmd "incr" || cmd "decr") && atleast 3%nat then mc_incr client seq (cmd "decr") parts
  else if cmd "delete" && atleast 2%nat then mc_delete client seq parts
  else if cmd "version" then _ ← mc_line "VERSION onebarrier-0.1"; mret seq
  else _ ← mc_line "ERROR"; mret seq.

Definition mc_step (client seq : Z) : M (Conn * σ) (option Z) :=
  r ← try (on_conn read_line);
  match r with
  | inl None => mret None
  | inl (Some line) =>
      match nonempty (split_on (λ b, bool_decide (b = SP)) line) with
      | [] => mret (Some seq)
      | (name :: _) as parts =>
          if bool_decide (to_ascii_lowercase name = bs "quit") then mret None
          else
            seq ← mc_command client seq parts;
            _ ← flush_writer;
            mret (Some seq)
      end
  | inr e => on_read_error seq e
  end.

Definition mc_serve_conn (client : Z) : M (Conn * σ) bool := λ s,
  loop (S (length (input s.1))) (mc_step client) 0 s.
End Serve.

(** ** Termination and numbering *)

Section Facts.
Context (am : arith_mode) (memory : Z) {σ : Type} `{!KvService σ}.

Lemma quiet_mc_get client seq keys : quiet (σ := σ) (mc_get client seq keys).
Proof. revert seq; induction keys; intros; cbn [mc_get]; quiet_auto. Qed.

Lemma quiet_alloc n : quiet (σ := σ) (alloc memory n).
Proof. intros s. unfold alloc. by repeat case_match. Qed.

Lemma ungrows_mc_set client seq parts : ungrows (σ := σ) (mc_set am memory client seq parts).
Proof.
  unfold mc_set. cbv zeta. apply ungrows_bind; [apply quiet_ungrows, quiet_unwrap|]. intros size.
  apply ungrows_bind; [apply quiet_ungrows, quiet_alloc|]. intros _.
  apply ungrows_bind; [apply ungrows_on_conn, ungrowing_read_exact|]. intros block.
  apply quiet_ungrows. unfold mc_line. quiet_auto.
Qed.

Lemma ungrows_mc_command client seq parts : ungrows (σ := σ) (mc_command am memory client seq parts).
Proof.
  unfold mc_command. cbv zeta.
  destruct (_ || _ || _); [destruct (5 <=? _)%nat; [apply ungrows_mc_set|]|]; apply quiet_ungrows;
    unfold mc_incr, mc_delete, mc_line; quiet_auto; apply quiet_mc_get.
Qed.

Lemma mc_step_consumes client :
  consumes (λ s : Conn * σ, length (input s.1)) (mc_step am memory client).
Proof.
  apply read_step_consumes; [intros c r c'; by apply line_read_progress| |done].
  intros seq [[line|]|e]; [|apply quiet_ungrows; auto with ob..].
  destruct (nonempty _) as [|name parts]; [by apply quiet_ungrows, quiet_ret|].
  case_match; [by apply quiet_ungrows, quiet_ret|].
  apply ungrows_bind; [apply ungrows_mc_command|]. intros seq'. apply quiet_ungrows. quiet_auto.
Qed.

Lemma silent_alloc n : silent (alloc memory n).
Proof. intros s. unfold alloc. by repeat case_match. Qed.

(** The end of a branch: one line, then the number. *)
Lemma seq_numbers_line client seq seq' b :
  seq <= seq' → seq_numbers client seq (_ ← write b; mret seq').
Proof. intros H. apply seq_numbers_silent; [apply silent_write|]. intros _. by apply seq_numbers_ret. Qed.

Lemma mc_get_numbers client seq keys : seq_numbers client seq (mc_get client seq keys).
Proof.
  revert seq; induction keys as [|k keys IH]; intros seq; cbn [mc_get]; [by apply seq_numbers_ret|].
  apply seq_numbers_apply; [done..|]. intros o.
  apply seq_numbers_silent; [|auto]. destruct o as [[| |[]|]|]; try apply silent_write; by intros s.
Qed.

Lemma mc_incr_numbers client seq decr parts : seq_numbers client seq (mc_incr am client seq decr parts).
Proof.
  unfold mc_incr. apply seq_numbers_apply; [done..|]. intros o.
  destruct o as [[| |[v|]|]|]; try (apply seq_numbers_line; lia).
  apply seq_numbers_silent; [apply silent_unwrap|]. intros delta.
  apply seq_numbers_apply; [done|cbn; lia|]. intros o'.
  apply seq_numbers_silent; [|intros _; apply seq_numbers_ret; lia].
  destruct o' as [[|[]| |]|]; apply silent_write.
Qed.

Lemma mc_set_numbers client seq parts : seq_numbers client seq (mc_set am memory client seq parts).
Proof.
  unfold mc_set. cbv zeta. apply seq_numbers_silent; [apply silent_unwrap|]. intros size.
  apply seq_numbers_silent; [apply silent_alloc|]. intros _.
  apply seq_numbers_silent; [apply silent_on_conn|]. intros block.
  apply seq_numbers_apply; [done..|]. intros o. apply seq_numbers_silent; [by case_match|].
  intros _. apply seq_numbers_ret. lia.
Qed.

Lemma mc_command_numbers client seq parts : seq_numbers client seq (mc_command am memory client seq parts).
Proof.
  unfold mc_command. cbv zeta.
  repeat match goal with |- seq_numbers _ _ (if ?b then _ else _) => destruct b end;
    try (apply seq_numbers_line; lia); try apply mc_set_numbers; try apply mc_incr_numbers.
  - eapply seq_numbers_bind; [apply mc_get_numbers|]. intros seq'. apply seq_numbers_line. lia.
  - unfold mc_delete. apply seq_numbers_apply; [done..|]. intros o.
    apply seq_numbers_silent; [|intros _; apply seq_numbers_ret; lia].
    repeat case_match; apply silent_write.
Qed.

Lemma mc_step_numbers client : step_numbers id client (mc_step am memory client).
Proof.
  intros seq. unfold mc_step.
  assert (Hnil : numbered client seq seq []) by by apply numbered_nil.
  apply asks_bind_silent; [auto with ob|eauto|]. intros [[line|]|e].
  - destruct (nonempty _) as [|name parts]; [by apply asks_ret|].
    case_match; [apply asks_ret; eauto|].
    eapply asks_bind; [apply mc_command_numbers|cbn; eauto|]. intros seq' l Hl. cbn in Hl.
    apply asks_bind_silent; [apply silent_flush|rewrite app_nil_r; eauto|].
    intros _. apply asks_ret. by rewrite app_nil_r.
  - apply asks_ret. eauto.
  - apply (read_error_numbers id).
Qed.
End Facts.

(** On any input and any answers, the operations a Memcached connection asks
    carry its own id and strictly increasing numbers, also inside a multi-key [get]
    and the two-step [incr], and the connection ends. *)
Theorem mc_numbers_increase am memory client conn svc :
  ∃ r conn' svc' l b, mc_serve_conn am memory client (conn, svc) = (r, (conn', svc')) ∧ r ≠ Ok false ∧
    asked svc' = asked svc ++ l ∧ numbered client 0 b l.
Proof. apply (serve_numbers id); [apply (mc_step_numbers am memory client)|apply (mc_step_consumes am memory client)]. Qed.
