(* ===== verification/MemcacheSession.v ===== *)
(** * MemcacheSession: what a Memcached client observes

    A specification of the commands on a plain map, as this server answers them, and the
    refinement: a connection whose client sends well-formed commands back to back,
    served by the executor, gets the specified replies. Two commands differ from the
    Memcached protocol, and both differences are shown on whole connections. *)

From S2P Require Import Prelude Bytes Text Io State Durable Engine EngineFacts CrashSafety Lifetimes Cadence Net Service Serving Memcache.
Local Open Scope Z_scope.

(** ** Specification *)

Inductive StoreVerb := VSet | VAdd | VReplace.
Definition verb_name (v : StoreVerb) : bytes :=
  match v with VSet => bs "set" | VAdd => bs "add" | VReplace => bs "replace" end.

Inductive McRequest :=
  | McStore (verb : StoreVerb) (k flags exptime v : bytes) (noreply : bool)
  | McGet (ks : list bytes)
  | McGets (ks : list bytes)
  | McIncr (k : bytes) (n : Z)
  | McDecr (k : bytes) (n : Z)
  | McDelete (k : bytes)
  | McVersion.

(** The words of the command line, and the data block. *)
Definition mc_words (r : McRequest) : list bytes :=
  match r with
  | McStore verb k flags exptime v noreply =>
      [verb_name verb; k; flags; exptime; to_string (len v)] ++ (if noreply then [bs "noreply"] else [])
  | McGet ks => bs "get" :: ks
  | McGets ks => bs "gets" :: ks
  | McIncr k n => [bs "incr"; k; to_string n]
  | McDecr k n => [bs "decr"; k; to_string n]
  | McDelete k => [bs "delete"; k]
  | McVersion => [bs "version"]
  end.
Definition mc_block (r : McRequest) : bytes :=
  match r with McStore _ _ _ _ v _ => v ++ CRLF | _ => [] end.
Definition mc_text (r : McRequest) : bytes := joined (mc_words r) ++ CRLF ++ mc_block r.
Definition mc_texts (rs : list McRequest) : bytes := concat (map mc_text rs).

Definition mc_value (m : Map) (k : bytes) : bytes :=
  match m !! k with
  | Some v => bs "VALUE " ++ k ++ bs " 0 " ++ to_string (len v) ++ CRLF ++ v ++ CRLF
  | None => []
  end.
Definition mc_values (m : Map) (ks : list bytes) : bytes := concat (map (mc_value m) ks).

(** An increment by [d] of a key that must exist; what is stored may be negative, what
    is answered may not. *)
Definition mc_add (m : Map) (k : bytes) (d : Z) : bytes * Map :=
  match m !! k with
  | Some v =>
      let next := i64_wrap (default 0 (parse_trimmed v) + d) in
      (to_string (Z.max next 0) ++ CRLF, <[k := to_string next]> m)
  | None => (bs "NOT_FOUND" ++ CRLF, m)
  end.

(** The reply and the next map. *)
Definition mc_spec (m : Map) (r : McRequest) : bytes * Map :=
  match r with
  | McStore _ k _ _ v noreply => (if noreply then [] else bs "STORED" ++ CRLF, <[k := v]> m)
  | McGet ks | McGets ks => (mc_values m ks ++ bs "END" ++ CRLF, m)
  | McIncr k n => mc_add m k n
  | McDecr k n => mc_add m k (- n)
  | McDelete k => (if m !! k is Some _ then bs "DELETED" ++ CRLF else bs "NOT_FOUND" ++ CRLF, delete k m)
  | McVersion => (bs "VERSION onebarrier-0.1" ++ CRLF, m)
  end.

Fixpoint mc_specs (m : Map) (rs : list McRequest) : bytes * Map :=
  match rs with
  | [] => ([], m)
  | r :: rs => let '(b, m) := mc_spec m r in let '(bs, m) := mc_specs m rs in (b ++ bs, m)
  end.

(** At most this many operations. *)
Definition mc_cost (r : McRequest) : Z :=
  match r with
  | McGet ks | McGets ks => len ks
  | McIncr _ _ | McDecr _ _ => 2
  | _ => 1
  end.

(** Keys, flags and times are words; a block fits in memory; a number is not negative. *)
Definition wf_mc (memory : Z) (r : McRequest) : Prop :=
  Forall token (mc_words r) ∧
  match r with
  | McStore _ _ _ _ v _ => len v + 2 <= memory ∧ len v + 2 <= ISIZE_MAX
  | McIncr _ n | McDecr _ n => 0 <= n <= I64_MAX
  | _ => True
  end.

#[export] Instance wf_mc_dec memory r : Decision (wf_mc memory r).
Proof. unfold wf_mc. destruct r; apply _. Defined.

(** ** Reading a command *)

Lemma token_lossy k : token k → from_utf8_lossy k = k.
Proof. intros [_ H]. by apply lossy_valid, utf8_ascii, plain_ascii. Qed.

(** A line of words, read by the loop. *)
Lemma read_words_text ts b out :
  Forall token ts → ts ≠ [] →
  Memcache.read_line (conn_text (joined ts ++ CRLF ++ b) out) = (Ok (Some (joined ts)), conn_text b out).
Proof.
  intros HF Hne. unfold Memcache.read_line. rewrite run_bind.
  rewrite (app_assoc _ [CR] (LF :: b) : joined ts ++ CRLF ++ b = _), read_until_lf_text.
  - rewrite <- app_assoc. change ([CR] ++ [LF]) with CRLF.
    destruct (joined ts ++ CRLF) as [|y l] eqn:E; [by destruct (joined ts)|]. rewrite <- E.
    rewrite pop_line_end_crlf; [done|..]; intros Hl%joined_last; try done; by vm_compute in Hl; destruct Hl.
  - intros [H|H%list_elem_of_singleton]%elem_of_app; [by apply joined_no_lf in H|done].
Qed.

Section Session.
Context {Timestamp : Type} (as_nanos : Timestamp → Z) (from_nanos : Z → Timestamp).
#[local] Hint Extern 0 (StateMachine _) => exact (KvStore_StateMachine Wrapping) : typeclass_instances.
#[local] Hint Extern 0 (KvService Executor) => exact (Executor_service Wrapping as_nanos from_nanos) : typeclass_instances.
Implicit Types (m : Map) (x : Executor).

(** ** One command *)

Lemma run_write b conn x : write (σ := Executor) b (conn, x) = (Ok tt, (written conn b, x)).
Proof. done. Qed.

Lemma mc_get_spec ks x m c seq n conn :
  Serving x m c seq n → len ks <= n → Forall token ks →
  ∃ x', mc_get (σ := Executor) c seq ks (conn, x) = (Ok (seq + len ks), (written conn (mc_values m ks), x')) ∧
    Serving x' m c (seq + len ks) (n - len ks).
Proof.
  revert x seq n conn; induction ks as [|k ks IH]; intros x seq n conn HS Hn HF.
  { exists x. cbn. rewrite Z.add_0_r, Z.sub_0_r, written_nil. done. }
  apply Forall_cons in HF as [Hk HF]. rewrite length_cons in Hn |- *. cbn [mc_get mc_values map concat].
  rewrite (token_lossy k Hk).
  destruct (apply_new as_nanos from_nanos x m c seq n (op_get c (seq + 1) k) (OutBytes (m !! k)) m conn
    HS ltac:(lia) eq_refl eq_refl eq_refl) as (x1 & E & HS1).
  rewrite run_bind, E, run_bind.
  destruct (IH x1 (seq + 1) (n - 1) (written conn (mc_value m k)) HS1 ltac:(lia) HF) as (x' & E' & HS').
  exists x'. replace (seq + Z.of_nat (S (length ks))) with (seq + 1 + len ks) by lia.
  replace (n - Z.of_nat (S (length ks))) with (n - 1 - len ks) by lia. split; [|done].
  rewrite written_written in E'. unfold mc_value in *. destruct (m !! k) as [v|].
  - rewrite run_write. exact E'.
  - rewrite written_nil in E'. exact E'.
Qed.

(** [incr] and [decr]: the magnitude is negated without a wrap. *)
Lemma mc_incr_spec (decr : bool) x m c seq n conn name k mag rest :
  Serving x m c seq n → 2 <= n → token k → 0 <= mag <= I64_MAX →
  let r := mc_add m k (if decr then - mag else mag) in
  ∃ seq' x', mc_incr (σ := Executor) Wrapping c seq decr (name :: k :: to_string mag :: rest) (conn, x) =
      (Ok seq', (written conn r.1, x')) ∧ Serving x' r.2 c seq' (n - 2).
Proof.
  intros HS Hn Hk Hm r. unfold mc_incr. cbv zeta. set (parts := name :: k :: _ :: rest).
  change (default [] (parts !! 1%nat)) with k. change (default [] (parts !! 2%nat)) with (to_string mag).
  rewrite (token_lossy k Hk).
  assert (Hp : parse_i64_or_zero (to_string mag) = mag).
  { unfold parse_i64_or_zero. by rewrite parse_untrimmed_to_string by width_lia. }
  rewrite Hp.
  destruct (apply_new as_nanos from_nanos x m c seq n (op_get c (seq + 1) k) (OutBytes (m !! k)) m conn
    HS ltac:(lia) eq_refl eq_refl eq_refl) as (x1 & E & HS1).
  rewrite run_bind, E. unfold r, mc_add. destruct (m !! k) as [v|] eqn:Ek.
  - set (d := if decr then - mag else mag).
    assert (Hd : (if decr then i64_arith Wrapping (- mag) else Some mag) = Some d).
    { unfold d, i64_arith. destruct decr; [|done]. by rewrite bool_decide_true by width_lia. }
    rewrite Hd. rewrite run_bind. cbn [unwrap mret M_ret].
    destruct (apply_new as_nanos from_nanos x1 m c (seq + 1) (n - 1) (op_incr c (seq + 2) k d) _ _ conn
      HS1 ltac:(lia) eq_refl ltac:(cbn; lia) (kv_incr_wrapping m c (seq + 2) k d)) as (x2 & E2 & HS2).
    rewrite Ek in E2, HS2. cbn [mbind option_bind] in E2, HS2.
    exists (seq + 2), x2. rewrite run_bind, E2, run_bind, run_write. split; [done|].
    eapply Serving_weaken; [exact HS2|lia|lia].
  - exists (seq + 1), x1. split; [done|]. eapply Serving_weaken; [exact HS1|lia|lia].
Qed.

Lemma mc_set_spec memory verb x m c seq n k flags exptime v noreply b out :
  let r := McStore verb k flags exptime v noreply in
  Serving x m c seq n → 1 <= n → wf_mc memory r →
  ∃ x', mc_set (σ := Executor) Wrapping memory c seq (mc_words r) (conn_text (mc_block r ++ b) out, x) =
      (Ok (seq + 1), (written (conn_text b out) (mc_spec m r).1, x')) ∧ Serving x' (mc_spec m r).2 c (seq + 1) (n - 1).
Proof.
  intros r HS Hn [HF [Hm Hi]]. assert (Hu : is_u64 (len v)) by width_lia.
  assert (Hk : token k) by (by apply Forall_cons in HF as [_ [? _]%Forall_cons]).
  unfold mc_set. cbv zeta. change (default [] (mc_words r !! 1%nat)) with k.
  change (default [] (mc_words r !! 4%nat)) with (to_string (len v)). rewrite (token_lossy k Hk).
  assert (Hp : parse_usize_or_zero (to_string (len v)) = len v).
  { unfold parse_usize_or_zero. rewrite from_utf8_valid by apply utf8_to_string. cbn [mbind option_bind].
    by rewrite parse_usize_to_string. }
  assert (Hl : bool_decide (last (mc_words r) = Some (bs "noreply")) = noreply).
  { destruct noreply; [by rewrite bool_decide_true by done|]. apply bool_decide_eq_false. cbn. intros [= E].
    apply (f_equal parse_usize) in E. by rewrite parse_usize_to_string in E. }
  rewrite Hp, Hl, run_bind, usize_arith_wrapping, Z.mod_small by width_lia. cbn [unwrap mret M_ret].
  rewrite run_bind. unfold alloc. rewrite !(proj2 (Z.ltb_ge _ _)) by lia.
  rewrite run_bind. cbn [mc_block r].
  replace (Z.to_nat (len v + 2)) with (length (v ++ CRLF)) by (rewrite length_app; cbn; lia).
  unfold on_conn, zoom. cbn [fst snd]. rewrite read_exact_text, Nat2Z.id, take_app_length.
  destruct (apply_new as_nanos from_nanos x m c seq n (op_set_bytes c (seq + 1) k v) OutOk (<[k := v]> m)
    (conn_text b out) HS Hn eq_refl eq_refl eq_refl) as (x' & E & HS').
  exists x'. split; [|done]. rewrite run_bind, E, run_bind. by destruct noreply.
Qed.

Lemma mc_delete_spec x m c seq n k conn :
  Serving x m c seq n → 1 <= n → token k →
  ∃ x', mc_delete (σ := Executor) c seq [bs "delete"; k] (conn, x) =
      (Ok (seq + 1), (written conn (mc_spec m (McDelete k)).1, x')) ∧ Serving x' (delete k m) c (seq + 1) (n - 1).
Proof.
  intros HS Hn Hk. unfold mc_delete. change (default [] ([bs "delete"; k] !! 1%nat)) with k.
  rewrite (token_lossy k Hk).
  destruct (apply_new as_nanos from_nanos x m c seq n (op_del c (seq + 1) k) _ _ conn HS Hn eq_refl eq_refl
      eq_refl) as (x' & E & HS').
  exists x'. split; [|done]. rewrite run_bind, E, run_bind. cbn [mc_spec kv_map]. by destruct (m !! k).
Qed.

(** One command, whose line has been read. *)
Lemma mc_command_spec memory x m c seq n r b out :
  Serving x m c seq n → mc_cost r <= n → wf_mc memory r →
  ∃ seq' x', mc_command (σ := Executor) Wrapping memory c seq (mc_words r) (conn_text (mc_block r ++ b) out, x) =
      (Ok seq', (written (conn_text b out) (mc_spec m r).1, x')) ∧ Serving x' (mc_spec m r).2 c seq' (n - mc_cost r).
Proof.
  intros HS Hn Hwf. pose proof Hwf as [HF Hr].
  assert (Hget : ∀ name ks, Forall token ks → len ks <= n → name = "get"%string ∨ name = "gets"%string →
    ∃ seq' x', mc_command (σ := Executor) Wrapping memory c seq (bs name :: ks) (conn_text b out, x) =
      (Ok seq', (written (conn_text b out) (mc_values m ks ++ bs "END" ++ CRLF), x')) ∧ Serving x' m c seq' (n - len ks)).
  { intros name ks Hks Hlen Hname.
    destruct (mc_get_spec ks x m c seq n (conn_text b out) HS Hlen Hks) as (x' & E & HS'). eexists _, x'. split; [|done].
    assert (Hc : mc_command (σ := Executor) Wrapping memory c seq (bs name :: ks) =
      (seq ← mc_get c seq ks; _ ← mc_line "END"; mret seq)) by by destruct Hname as [-> | ->].
    rewrite Hc, run_bind, E, run_bind. unfold mc_line. by rewrite run_write, written_written. }
  destruct r as [verb k fl ex v nr|ks|ks|k mag|k mag|k|]; cbn [mc_cost mc_words mc_block mc_spec app fst snd] in *.
  - destruct (mc_set_spec memory verb x m c seq n k fl ex v nr b out HS Hn Hwf) as (x' & E & HS').
    exists (seq + 1), x'. split; [|done]. etrans; [|exact E]. by destruct verb.
  - apply Forall_cons in HF as [_ HF]. apply Hget; auto.
  - apply Forall_cons in HF as [_ HF]. apply Hget; auto.
  - apply Forall_cons in HF as [_ [Hk _]%Forall_cons].
    exact (mc_incr_spec false x m c seq n (conn_text b out) (bs "incr") k mag [] HS Hn Hk Hr).
  - apply Forall_cons in HF as [_ [Hk _]%Forall_cons].
    exact (mc_incr_spec true x m c seq n (conn_text b out) (bs "decr") k mag [] HS Hn Hk Hr).
  - apply Forall_cons in HF as [_ [Hk _]%Forall_cons].
    destruct (mc_delete_spec x m c seq n k (conn_text b out) HS Hn Hk) as (x' & E & HS'). eauto.
  - exists seq, x. split; [done|]. eapply Serving_weaken; [exact HS|lia|lia].
Qed.

Lemma mc_words_not_quit r name rest :
  mc_words r = name :: rest → bool_decide (to_ascii_lowercase name = bs "quit") = false.
Proof. destruct r as [[]| | | | | |]; by intros [= <- _]. Qed.

Lemma mc_step_request memory x m c seq n r b out :
  Serving x m c seq n → mc_cost r <= n → wf_mc memory r →
  ∃ seq' x', mc_step (σ := Executor) Wrapping memory c seq (conn_text (mc_text r ++ b) out, x) =
      (Ok (Some seq'), (conn_text b (out ++ (mc_spec m r).1), x')) ∧ Serving x' (mc_spec m r).2 c seq' (n - mc_cost r).
Proof.
  intros HS Hn Hwf. pose proof Hwf as [HF _].
  destruct (mc_command_spec memory x m c seq n r b out HS Hn Hwf) as (seq' & x' & E & HS').
  exists seq', x'. split; [|done]. unfold mc_step. rewrite run_bind. unfold try, on_conn, zoom. cbn [fst snd].
  unfold mc_text. rewrite <- !app_assoc, read_words_text by (done || by destruct r).
  rewrite split_joined by done. destruct (mc_words r) as [|name rest] eqn:Ew; [by destruct r|].
  rewrite (mc_words_not_quit r name rest Ew), run_bind, E, run_bind. done.
Qed.

(** ** A whole connection *)

Lemma mc_requests_refine rs memory fuel x m c seq n out :
  Serving x m c seq n → Forall (wf_mc memory) rs → sumZ mc_cost rs <= n → (length rs < fuel)%nat →
  ∃ conn x', loop fuel (mc_step (σ := Executor) Wrapping memory c) seq (conn_text (mc_texts rs) out, x) =
      (Ok true, (conn, x')) ∧
    flushed conn = out ++ (mc_specs m rs).1 ∧ ∃ e, ex_engine x' = Some e ∧ kv_map (state e) = (mc_specs m rs).2.
Proof.
  intros HS HF. revert fuel x m seq n out HS.
  induction HF as [|r rs Hr _ IH]; intros fuel x m seq n out HS Hn Hf; destruct fuel as [|fuel]; try (cbn in Hf; lia).
  - eexists _, x. split; [reflexivity|]. cbn. rewrite app_nil_r. split; [done|].
    destruct HS as [(e & d & ? & _ & ? & _) _]. eauto.
  - change (sumZ mc_cost (r :: rs)) with (mc_cost r + sumZ mc_cost rs) in Hn.
    assert (0 <= sumZ mc_cost rs) by (apply sumZ_nonneg; intros r0; destruct r0; cbn; lia).
    change (mc_texts (r :: rs)) with (mc_text r ++ mc_texts rs).
    destruct (mc_step_request memory x m c seq n r (mc_texts rs) out HS ltac:(lia) Hr) as (seq1 & x1 & E1 & HS1).
    cbn [loop mc_specs]. rewrite run_bind, E1. destruct (mc_spec m r) as [reply m1]. cbn [fst snd] in *.
    destruct (IH fuel x1 m1 seq1 (n - mc_cost r) (out ++ reply) HS1 ltac:(lia) ltac:(cbn in Hf; lia))
      as (conn & x' & E & Hout & He).
    exists conn, x'. split; [done|]. destruct (mc_specs m1 rs) as [replies m2]. cbn [fst snd] in *.
    by rewrite Hout, app_assoc.
Qed.

Lemma mc_texts_length rs : (length rs ≤ length (mc_texts rs))%nat.
Proof.
  induction rs as [|r rs IH]; [done|]. change (mc_texts (r :: rs)) with (mc_text r ++ mc_texts rs).
  rewrite length_app. unfold mc_text. rewrite !length_app. cbn [length CRLF]. lia.
Qed.

(** C29: A Memcached session refines the specification of its commands. On an executor
    that serves, a connection whose client sends any well-formed commands back to back
    ends normally; the bytes sent back are exactly the specified replies in order (each
    data block cut at its announced length, whatever bytes it holds), and the store
    holds the specified map. *)
Theorem mc_session_refines memory x m c n rs :
  Serving x m c 0 n → Forall (wf_mc memory) rs → sumZ mc_cost rs <= n →
  ∃ conn x', mc_serve_conn (σ := Executor) Wrapping memory c (conn_text (mc_texts rs) [], x) = (Ok true, (conn, x')) ∧
    flushed conn = (mc_specs m rs).1 ∧ ∃ e, ex_engine x' = Some e ∧ kv_map (state e) = (mc_specs m rs).2.
Proof.
  intros HS HF Hn. unfold mc_serve_conn. cbn [fst]. pose proof (mc_texts_length rs).
  destruct (mc_requests_refine rs memory (S (length (input (conn_text (mc_texts rs) [])))) x m c 0 n [] HS HF Hn)
    as (conn & x' & ?); [cbn; unfold data; rewrite length_map; lia|]. by exists conn, x'.
Qed.

(** ** Where the server leaves the protocol *)

(** [add] on a key that exists replaces its value and answers [STORED]; the protocol
    stores only a missing key. *)
Theorem add_overwrites memory x m c seq n k old v b out :
  let r := McStore VAdd k (bs "0") (bs "0") v false in
  Serving x m c seq n → 1 <= n → wf_mc memory r → m !! k = Some old →
  ∃ seq' x', mc_step (σ := Executor) Wrapping memory c seq (conn_text (mc_text r ++ b) out, x) =
      (Ok (Some seq'), (conn_text b (out ++ bs "STORED" ++ CRLF), x')) ∧ Serving x' (<[k := v]> m) c seq' (n - 1).
Proof. intros r HS Hn Hwf _. exact (mc_step_request memory x m c seq n r b out HS Hn Hwf). Qed.

(** [replace] on a key that is missing creates it; the protocol does not store it. *)
Theorem replace_creates memory x m c seq n k v b out :
  let r := McStore VReplace k (bs "0") (bs "0") v false in
  Serving x m c seq n → 1 <= n → wf_mc memory r → m !! k = None →
  ∃ seq' x', mc_step (σ := Executor) Wrapping memory c seq (conn_text (mc_text r ++ b) out, x) =
      (Ok (Some seq'), (conn_text b (out ++ bs "STORED" ++ CRLF), x')) ∧ Serving x' (<[k := v]> m) c seq' (n - 1).
Proof. intros r HS Hn Hwf _. exact (mc_step_request memory x m c seq n r b out HS Hn Hwf). Qed.

(** [decr] below zero answers 0 and stores the negative number. *)
Theorem decr_stores_negative memory x m c seq n k a d b out :
  Serving x m c seq n → 2 <= n → token k → 0 <= a < d → d <= I64_MAX → m !! k = Some (to_string a) →
  ∃ seq' x', mc_step (σ := Executor) Wrapping memory c seq (conn_text (mc_text (McDecr k d) ++ b) out, x) =
      (Ok (Some seq'), (conn_text b (out ++ bs "0" ++ CRLF), x')) ∧
    Serving x' (<[k := to_string (a - d)]> m) c seq' (n - 2).
Proof.
  intros HS Hn Hk Ha Hd Ek.
  assert (Hwf : wf_mc memory (McDecr k d)).
  { split; [|cbn; lia]. cbn [mc_words]. apply Forall_cons. split; [by_decision|]. apply Forall_cons. split; [done|]. apply Forall_singleton, token_to_string. }
  pose proof (mc_step_request memory x m c seq n (McDecr k d) b out HS Hn Hwf) as H.
  assert (E : mc_spec m (McDecr k d) = (bs "0" ++ CRLF, <[k := to_string (a - d)]> m)).
  { cbn [mc_spec]. unfold mc_add. rewrite Ek, parse_trimmed_to_string by width_lia. change (default 0 (Some a)) with a.
    rewrite i64_wrap_small by width_lia. rewrite Z.max_r by lia. done. }
  by rewrite E in H.
Qed.
End Session.

(** ** Witness *)

Section Witness.
#[local] Hint Extern 0 (StateMachine _) => exact (KvStore_StateMachine Wrapping) : typeclass_instances.
#[local] Hint Extern 0 (KvService Executor) => exact (Executor_service Wrapping id id) : typeclass_instances.

Definition mc_requests_w : list McRequest :=
  [McStore VSet (bs "a") (bs "0") (bs "0") (bs "x" ++ CRLF) false; McStore VAdd (bs "n") (bs "7") (bs "60") (bs "5") true;
   McGet [bs "a"; bs "z"; bs "n"]; McIncr (bs "n") 2; McDecr (bs "n") 9; McDelete (bs "a"); McGets [bs "a"; bs "n"]; McVersion].

Lemma mc_session_refines_witness :
  ∃ conn x', mc_serve_conn (σ := Executor) Wrapping 100 4
      (conn_text (mc_texts mc_requests_w) [], (service_start Wrapping 2 false 1 (calm ∅)).1) = (Ok true, (conn, x')) ∧
    flushed conn = concat (map (λ l, l ++ CRLF)
      [bs "STORED"; bs "VALUE a 0 3"; bs "x" ++ CRLF; bs "VALUE n 0 1"; bs "5"; bs "END"; bs "7"; bs "0"; bs "DELETED";
       bs "VALUE n 0 2"; bs "-2"; bs "END"; bs "VERSION onebarrier-0.1"]) ∧
    ∃ e, ex_engine x' = Some e ∧ kv_map (state e) = {[bs "n" := bs "-2"]}.
Proof.
  pose proof (mc_session_refines id id 100 (service_start Wrapping 2 false 1 (calm ∅)).1 ∅ 4 14 mc_requests_w) as H.
  assert (E : mc_specs ∅ mc_requests_w = (concat (map (λ l, l ++ CRLF)
      [bs "STORED"; bs "VALUE a 0 3"; bs "x" ++ CRLF; bs "VALUE n 0 1"; bs "5"; bs "END"; bs "7"; bs "0"; bs "DELETED";
       bs "VALUE n 0 2"; bs "-2"; bs "END"; bs "VERSION onebarrier-0.1"]), {[bs "n" := bs "-2"]})) by by_decision.
  rewrite E in H. apply H; [apply Serving_start; width_lia|by_decision|by vm_compute].
Defined.
End Witness.
