(* ===== verification/Http.v ===== *)
(** * Http: the REST front-end ([crates/onebarrier/src/http.rs]) *)

From S2P Require Import Prelude Bytes Text Io State Net Service.
Local Open Scope Z_scope.

Definition SLASH : byte := Byte.x2f.
Definition QUESTION : byte := Byte.x3f.

(** The line, as text; [None]: no byte was read. *)
Definition read_line_str : M Conn (option bytes) :=
  raw ← read_until_lf;
  mret (match raw with [] => None | _ => Some (from_utf8_lossy raw) end).

(** [str::split_once] at an ASCII character *)
Definition split_once (c : byte) (s : bytes) : option (bytes * bytes) :=
  match split_seps 1 c s with [a; b] => Some (a, b) | _ => None end.

(** One header line that is not empty: [content_len] and [keep_alive] after it. *)
Definition header_line (t : bytes) (st : Z * bool) : Z * bool :=
  match split_once COLON t with
  | None => st
  | Some (k, v) =>
      let k := to_ascii_lowercase (trim k) in
      let v := trim v in
      if bool_decide (k = bs "content-length") then (default 0 (parse_usize v), st.2)
      else if bool_decide (k = bs "connection") then (st.1, negb (eq_ignore_ascii_case v (bs "close")))
      else st
  end.

(** The header loop. Every iteration consumes input, so the events left bound it
    ([read_headers_fuel]). *)
Fixpoint read_headers (fuel : nat) (st : Z * bool) : M Conn (Z * bool) :=
  match fuel with
  | O => mret st
  | S fuel =>
      h ← read_line_str;
      match h with
      | None => mret st
      | Some h =>
          match trim_end h with
          | [] => mret st
          | t => read_headers fuel (header_line t st)
          end
      end
  end.

Definition headers : M Conn (Z * bool) := λ c, read_headers (S (length (input c))) (0, true) c.

(** The body; the buffer is allocated before anything is read. *)
Definition read_body (memory content_len : Z) : M Conn bytes :=
  _ ← alloc memory content_len;
  if 0 <? content_len then read_exact (Z.to_nat content_len) else mret [].

Definition reason (status : Z) : bytes :=
  if status =? 200 then bs "OK"
  else if status =? 404 then bs "Not Found"
  else if status =? 405 then bs "Method Not Allowed"
  else if status =? 503 then bs "Service Unavailable"
  else bs "OK".

Definition response (status : Z) (body : bytes) (keep_alive : bool) : bytes :=
  bs "HTTP/1.1 " ++ to_string status ++ [SP] ++ reason status ++ CRLF ++
  bs "Content-Length: " ++ to_string (len body) ++ CRLF ++
  bs "Content-Type: application/octet-stream" ++ CRLF ++
  bs "Connection: " ++ bs (if keep_alive then "keep-alive" else "close") ++ CRLF ++ CRLF ++
  body.

Section Serve.
Context (memory : Z) {σ : Type} `{!KvService σ}.

Definition route (method path body : bytes) (client seq : Z) : M (Conn * σ) (Z * bytes) :=
  let path := default path (head (split_on (λ b, bool_decide (b = QUESTION)) path)) in
  let key := drop_while (λ b, bool_decide (b = SLASH)) path in
  let incr := starts_with (bs "/incr/") path in
  let meth s := bool_decide (method = bs s) in
  if meth "GET" then
    o ← apply (op_get client seq key);
    mret (match o with
          | Some (OutBytes (Some v)) => (200, v)
          | _ => (404, bs "not found")
          end)
  else if (meth "PUT" || meth "POST") && negb incr then
    o ← apply (op_set_bytes client seq key body);
    mret (match o with
          | Some _ => (200, bs "OK")
          | None => (503, bs "unavailable")
          end)
  else if meth "POST" then
    o ← apply (op_incr client seq (drop (length (bs "/incr/")) path) 1);
    mret (match o with
          | Some (OutValue (Some n)) => (200, to_string n)
          | _ => (503, bs "unavailable")
          end)
  else if meth "DELETE" then
    o ← apply (op_del client seq key);
    mret (match o with
          | Some (OutValue (Some n)) => (200, to_string n)
          | _ => (200, bs "0")
          end)
  else mret (405, bs "method not allowed").

(** One request after its request line. *)
Definition http_request (client seq : Z) (method path : bytes) : M (Conn * σ) (option Z) :=
  '(content_len, keep_alive) ← on_conn headers;
  body ← on_conn (read_body memory content_len);
  '(status, payload) ← route method path body client (seq + 1);
  _ ← write (response status payload keep_alive);
  _ ← flush_writer;
  mret (if keep_alive : bool then Some (seq + 1) else None).

Definition http_step (client seq : Z) : M (Conn * σ) (option Z) :=
  r ← try (on_conn read_line_str);
  match r with
  | inl None => mret None
  | inl (Some line) =>
      match split_whitespace line with
      | method :: path :: _ => http_request client seq method path
      | _ => mret (Some seq)
      end
  | inr e => on_read_error seq e
  end.

Definition http_serve_conn (client : Z) : M (Conn * σ) bool := λ s,
  loop (S (length (input s.1))) (http_step client) 0 s.
End Serve.

(** ** Termination *)

Lemma read_line_str_progress c r c' :
  read_line_str c = (r, c') → r ≠ Ok None → (length (input c') < length (input c))%nat.
Proof. by apply line_read_progress. Qed.

Lemma ungrowing_read_line_str : ungrowing read_line_str.
Proof. unfold read_line_str. auto with ob. Qed.
#[export] Hint Resolve ungrowing_read_line_str : ob.

(** More fuel than the input has events changes nothing. *)
Lemma read_headers_fuel f1 f2 st c :
  (length (input c) < f1)%nat → (length (input c) < f2)%nat →
  read_headers f1 st c = read_headers f2 st c.
Proof.
  revert f2 st c; induction f1 as [|f1 IH]; intros [|f2] st c H1 H2; try lia. cbn [read_headers].
  rewrite !run_bind. destruct (read_line_str c) as [r c1] eqn:E. pose proof (read_line_str_progress _ _ _ E) as Hp.
  destruct r as [[h|]| | |]; try done. specialize (Hp ltac:(done)).
  destruct (trim_end h); [done|]. apply IH; lia.
Qed.

Lemma ungrowing_headers : ungrowing headers.
Proof.
  intros c. unfold headers. generalize (S (length (input c))) (0, true).
  intros fuel; revert c; induction fuel as [|fuel IH]; intros c st; [done|]. cbn [read_headers].
  revert c. apply ungrowing_bind; [auto with ob|]. intros [h|]; [|auto with ob].
  destruct (trim_end h); [auto with ob|]. intros c. apply IH.
Qed.

Lemma ungrowing_read_body memory n : ungrowing (read_body memory n).
Proof. unfold read_body. apply ungrowing_bind; [auto with ob|]. intros _. case_match; auto with ob. Qed.
#[export] Hint Resolve ungrowing_headers ungrowing_read_body : ob.

Section Facts.
Context (memory : Z) {σ : Type} `{!KvService σ}.

Lemma quiet_route method path body client seq : quiet (σ := σ) (route method path body client seq).
Proof. unfold route. quiet_auto. Qed.

Lemma ungrows_http_request client seq method path :
  ungrows (σ := σ) (http_request memory client seq method path).
Proof.
  unfold http_request. apply ungrows_bind; [by apply ungrows_on_conn; auto with ob|]. intros [cl ka].
  apply ungrows_bind; [by apply ungrows_on_conn; auto with ob|]. intros body.
  apply quiet_ungrows, quiet_bind; [apply quiet_route|]. intros [status payload]. quiet_auto.
Qed.

Lemma http_step_consumes client :
  consumes (λ s : Conn * σ, length (input s.1)) (http_step memory client).
Proof.
  apply read_step_consumes; [apply read_line_str_progress| |done].
  intros seq [[line|]|e]; [|apply quiet_ungrows; auto with ob..].
  destruct (split_whitespace line) as [|? [|? ?]]; [apply quiet_ungrows; auto with ob..|].
  apply ungrows_http_request.
Qed.

(** ** Numbering *)

Definition at_most_one (client seq : Z) (m : M (Conn * Script) (Z * bytes)) : Prop :=
  asks m (λ _ l, numbered client seq (seq + 1) l).

Lemma route_numbers method path body client seq :
  at_most_one client seq (route method path body client (seq + 1)).
Proof.
  assert (Hone : ∀ op (f : option Output → Z * bytes), op_client op = client → op_seq op = seq + 1 →
    at_most_one client seq (o ← apply op; mret (f o))).
  { intros op f Hc Hs. apply asks_bind_apply. intros o. apply asks_ret. by apply numbered_one. }
  unfold route. cbv zeta.
  repeat match goal with |- at_most_one _ _ (if ?b then _ else _) => destruct b end; try by apply Hone.
  apply asks_ret, numbered_nil. lia.
Qed.

Lemma http_step_numbers client : step_numbers id client (http_step memory client).
Proof.
  intros seq. unfold http_step.
  assert (Hnil : numbered client seq seq []) by by apply numbered_nil.
  apply asks_bind_silent; [auto with ob|eauto|]. intros [[line|]|e]; [| |apply (read_error_numbers id)].
  - destruct (split_whitespace line) as [|method [|path rest]]; [by apply asks_ret..|]. unfold http_request.
    apply asks_bind_silent; [auto with ob|eauto|]. intros [cl ka].
    apply asks_bind_silent; [auto with ob|eauto|]. intros body.
    eapply asks_bind; [apply route_numbers|cbn; eauto|]. intros [status payload] lo Hl.
    apply asks_bind_silent; [apply silent_write|rewrite app_nil_r; eauto|]. intros _.
    apply asks_bind_silent; [apply silent_flush|rewrite app_nil_r; eauto|]. intros _.
    apply asks_ret. rewrite app_nil_r. destruct ka; eauto.
  - apply asks_ret. eauto.
Qed.
End Facts.

(** On any input and any answers, the operations an HTTP connection asks carry its
    own id and strictly increasing numbers, and the connection ends: the header loop
    included. *)
Theorem http_numbers_increase memory client conn svc :
  ∃ r conn' svc' l b, http_serve_conn memory client (conn, svc) = (r, (conn', svc')) ∧ r ≠ Ok false ∧
    asked svc' = asked svc ++ l ∧ numbered client 0 b l.
Proof. apply (serve_numbers id); [apply (http_step_numbers memory client)|apply (http_step_consumes memory client)]. Qed.
