(* ===== verification/HttpSession.v ===== *)
(** * HttpSession: what an HTTP client observes

    A specification of the REST interface on a plain map, and the refinement: a
    keep-alive connection whose client sends requests with [Content-Length], served
    by the executor, gets the specified responses. *)

From S2P Require Import Prelude Bytes Text Io State Durable Engine EngineFacts CrashSafety Lifetimes Cadence Net Service Serving Http.
Local Open Scope Z_scope.

(** ** Specification *)

Inductive Request :=
  | RGet (k : bytes)
  | RPut (k v : bytes)
  | RPost (k v : bytes)
  | RIncr (k : bytes)
  | RDelete (k : bytes).

Definition req_method (r : Request) : bytes :=
  match r with
  | RGet _ => bs "GET"
  | RPut _ _ => bs "PUT"
  | RPost _ _ | RIncr _ => bs "POST"
  | RDelete _ => bs "DELETE"
  end.
Definition req_path (r : Request) : bytes :=
  match r with
  | RGet k | RPut k _ | RPost k _ | RDelete k => SLASH :: k
  | RIncr k => bs "/incr/" ++ k
  end.
Definition req_body (r : Request) : bytes :=
  match r with RPut _ v | RPost _ v => v | _ => [] end.

(** The status and payload, and the next map. *)
Definition request_spec (m : Map) (r : Request) : Z * bytes * Map :=
  match r with
  | RGet k => (if m !! k is Some v then (200, v) else (404, bs "not found"), m)
  | RPut k v | RPost k v => (200, bs "OK", <[k := v]> m)
  | RIncr k =>
      let next := i64_wrap (default 0 (m !! k ≫= parse_trimmed) + 1) in
      (200, to_string next, <[k := to_string next]> m)
  | RDelete k => (200, to_string (if m !! k is Some _ then 1 else 0), delete k m)
  end.

Fixpoint requests_spec (m : Map) (rs : list Request) : list (Z * bytes) * Map :=
  match rs with
  | [] => ([], m)
  | r :: rs =>
      let '(reply, m) := request_spec m r in
      let '(replies, m) := requests_spec m rs in (reply :: replies, m)
  end.

(** Keys a path can name: no space, no [?], no leading slash; a key to store does not
    begin with [incr/]. *)
Definition wf_request (memory : Z) (r : Request) : Prop :=
  Forall plain (req_path r) ∧ (QUESTION ∉ req_path r) ∧
  len (req_body r) <= memory ∧ len (req_body r) <= ISIZE_MAX ∧
  match r with
  | RGet k | RDelete k => head k ≠ Some SLASH
  | RPut k _ | RPost k _ => head k ≠ Some SLASH ∧ starts_with (bs "incr/") k = false
  | RIncr _ => True
  end.

#[export] Instance wf_request_dec memory r : Decision (wf_request memory r).
Proof. unfold wf_request. destruct r; apply _. Defined.

(** The bytes of a request. *)
Definition request_words (r : Request) : list bytes := [req_method r; req_path r; bs "HTTP/1.1"].
Definition length_header (n : Z) : bytes := bs "Content-Length: " ++ to_string n.
Definition request_text (r : Request) : bytes :=
  joined (request_words r) ++ CRLF ++ length_header (len (req_body r)) ++ CRLF ++ CRLF ++ req_body r.
Definition requests_text (rs : list Request) : bytes := concat (map request_text rs).

(** ** Reading a request *)

Lemma read_line_str_text l b out :
  Forall is_ascii l → LF ∉ l →
  read_line_str (conn_text (l ++ CRLF ++ b) out) = (Ok (Some (l ++ CRLF)), conn_text b out).
Proof.
  intros Ha Hl. unfold read_line_str. rewrite run_bind.
  rewrite (app_assoc l [CR] (LF :: b) : l ++ CRLF ++ b = _), read_until_lf_text.
  - rewrite <- app_assoc. change ([CR] ++ [LF]) with CRLF. destruct (l ++ CRLF) as [|x y] eqn:E; [by destruct l|].
    rewrite <- E. rewrite lossy_valid; [done|]. apply utf8_ascii, Forall_app.
    split; [done|by repeat constructor].
  - intros [?|Hc]%elem_of_app; [done|]. by apply list_elem_of_singleton in Hc.
Qed.

(** A line that ends in a visible character loses its line end only. *)
Lemma trim_end_crlf l b : Forall is_ascii l → plain b → trim_end ((l ++ [b]) ++ CRLF) = l ++ [b].
Proof.
  intros Hl Hb. rewrite (app_assoc _ [CR] [LF] : (l ++ [b]) ++ CRLF = _).
  assert (Ha : Forall is_ascii (l ++ [b])) by (apply Forall_app; split; [done|by constructor; [apply Hb|]]).
  rewrite 2!trim_end_snoc; try done; [by apply trim_end_last|].
  apply Forall_app. split; [done|by repeat constructor].
Qed.

Lemma to_string_snoc n : ∃ l b, to_string n = l ++ [b] ∧ Forall is_ascii l ∧ plain b.
Proof.
  pose proof (to_string_plain n) as HF.
  destruct (to_string n) as [|x l] eqn:E using rev_ind.
  - exfalso. unfold to_string in E. destruct (nat_to_string_cons n) as (? & ? & En).
    case_match; [done|by rewrite En in E].
  - exists l, x. apply Forall_app in HF as [Hl Hx]. split_and!; [done|by apply plain_ascii|by inversion Hx].
Qed.

Lemma length_header_ascii n : Forall is_ascii (length_header n).
Proof. apply Forall_app. split; [by_decision|apply plain_ascii, to_string_plain]. Qed.

Lemma length_header_no_lf n : LF ∉ length_header n.
Proof.
  intros [H|H]%elem_of_app; [by vm_compute in H; repeat (apply elem_of_cons in H as [?|H]); (done || by apply elem_of_nil in H)|].
  pose proof (to_string_plain n) as HF. rewrite Forall_forall in HF. apply HF in H as [_ H]. by vm_compute in H.
Qed.

Lemma trim_end_length_header n : trim_end (length_header n ++ CRLF) = length_header n.
Proof.
  destruct (to_string_snoc n) as (l & b & E & Hl & Hb). unfold length_header. rewrite E, app_assoc.
  apply trim_end_crlf; [|done]. apply Forall_app. split; [by_decision|done].
Qed.

Lemma header_line_length n ka st : is_u64 n → header_line (length_header n) (st, ka) = (n, ka).
Proof.
  intros Hn. unfold header_line, split_once, length_header.
  change (bs "Content-Length: " ++ to_string n) with (bs "Content-Length" ++ COLON :: SP :: to_string n).
  rewrite split_seps_sep by by_decision. cbn [split_seps].
  change (to_ascii_lowercase (trim (bs "Content-Length"))) with (bs "content-length").
  rewrite bool_decide_true by done. rewrite trim_space by apply to_string_plain.
  by rewrite parse_usize_to_string.
Qed.

(** The header block of a request. *)
Lemma headers_text n b out :
  is_u64 n →
  headers (conn_text (length_header n ++ CRLF ++ CRLF ++ b) out) = (Ok (n, true), conn_text b out).
Proof.
  intros Hn. unfold headers.
  assert (Hf : ∃ f, S (length (input (conn_text (length_header n ++ CRLF ++ CRLF ++ b) out))) = S (S f)).
  { cbn. rewrite length_map. by eexists. }
  destruct Hf as [f ->]. cbn [read_headers]. rewrite run_bind.
  rewrite read_line_str_text by (apply length_header_ascii || apply length_header_no_lf).
  rewrite trim_end_length_header. destruct (length_header n) as [|h t] eqn:E; [done|]. rewrite <- E.
  rewrite header_line_length, run_bind by done.
  change (CRLF ++ b) with ([] ++ CRLF ++ b).
  rewrite read_line_str_text by (constructor || by intros ?%elem_of_nil). done.
Qed.

Lemma read_body_text memory v b out :
  len v <= memory → len v <= ISIZE_MAX →
  read_body memory (len v) (conn_text (v ++ b) out) = (Ok v, conn_text b out).
Proof.
  intros H1 H2. unfold read_body, alloc. rewrite run_bind.
  rewrite !(proj2 (Z.ltb_ge _ _)) by lia. destruct (Z.ltb_spec 0 (len v)).
  - rewrite Nat2Z.id. apply read_exact_text.
  - by destruct v.
Qed.

Lemma request_words_token memory r : wf_request memory r → Forall token (request_words r).
Proof.
  intros [Hp _]. apply Forall_cons. split; [destruct r; by_decision|].
  apply Forall_cons. split; [by split; [destruct r|]|]. apply Forall_singleton. by_decision.
Qed.

(** The arm of [route] a method takes. *)
Ltac route_arm :=
  repeat match goal with
  | |- context [bool_decide (bs ?s = bs ?s)] => rewrite (bool_decide_true (bs s = bs s)) by done
  | |- context [bool_decide (bs ?s = bs ?t)] => rewrite (bool_decide_false (bs s = bs t)) by done
  end;
  cbn [andb orb negb]; rewrite run_bind.

Section Session.
Context {Timestamp : Type} (as_nanos : Timestamp → Z) (from_nanos : Z → Timestamp).
#[local] Hint Extern 0 (StateMachine _) => exact (KvStore_StateMachine Wrapping) : typeclass_instances.
#[local] Hint Extern 0 (KvService Executor) => exact (Executor_service Wrapping as_nanos from_nanos) : typeclass_instances.
Implicit Types (m : Map) (x : Executor).

(** The path of a request, without a query. *)
Lemma path_no_query (p : bytes) :
  QUESTION ∉ p → default p (head (split_on (λ b, bool_decide (b = QUESTION)) p)) = p.
Proof.
  intros H. rewrite split_on_none; [done|]. apply Forall_forall. intros b Hb.
  apply bool_decide_eq_false. by intros ->.
Qed.

Lemma strip_slash k : head k ≠ Some SLASH → drop_while (λ b, bool_decide (b = SLASH)) (SLASH :: k) = k.
Proof.
  intros H. cbn [drop_while]. rewrite bool_decide_true by done. destruct k as [|b k]; [done|]. cbn [drop_while].
  rewrite bool_decide_false; [done|]. intros ->. by apply H.
Qed.

(** ** One request *)

Lemma route_spec memory x m c seq n r conn :
  Serving x m c seq n → 1 <= n → wf_request memory r →
  ∃ x', route (σ := Executor) (req_method r) (req_path r) (req_body r) c (seq + 1) (conn, x) =
      (Ok (request_spec m r).1, (conn, x')) ∧
    Serving x' (request_spec m r).2 c (seq + 1) (n - 1).
Proof.
  intros HS Hn (_ & Hq & _ & _ & Hk). unfold route. rewrite (path_no_query _ Hq). cbv zeta.
  destruct r as [k|k v|k v|k|k]; cbn [req_path req_method req_body request_spec] in *.
  - rewrite (strip_slash k Hk).
    destruct (apply_new as_nanos from_nanos x m c seq n (op_get c (seq + 1) k) (OutBytes (m !! k)) m conn
      HS Hn eq_refl eq_refl eq_refl) as (x' & E & HS').
    exists x'. route_arm. rewrite E. split; [by destruct (m !! k)|done].
  - destruct Hk as [Hk Hi]. rewrite (strip_slash k Hk).
    change (starts_with (bs "/incr/") (SLASH :: k)) with (starts_with (bs "incr/") k). rewrite Hi.
    destruct (apply_new as_nanos from_nanos x m c seq n (op_set_bytes c (seq + 1) k v) OutOk (<[k := v]> m) conn
      HS Hn eq_refl eq_refl eq_refl) as (x' & E & HS').
    exists x'. split; [|done]. route_arm. by rewrite E.
  - destruct Hk as [Hk Hi]. rewrite (strip_slash k Hk).
    change (starts_with (bs "/incr/") (SLASH :: k)) with (starts_with (bs "incr/") k). rewrite Hi.
    destruct (apply_new as_nanos from_nanos x m c seq n (op_set_bytes c (seq + 1) k v) OutOk (<[k := v]> m) conn
      HS Hn eq_refl eq_refl eq_refl) as (x' & E & HS').
    exists x'. split; [|done]. route_arm. by rewrite E.
  - destruct (apply_new as_nanos from_nanos x m c seq n (op_incr c (seq + 1) k 1) _ _ conn HS Hn eq_refl eq_refl
      (kv_incr_wrapping m c (seq + 1) k 1)) as (x' & E & HS').
    exists x'. split; [|done]. change (drop (length (bs "/incr/")) (bs "/incr/" ++ k)) with k.
    change (starts_with (bs "/incr/") (bs "/incr/" ++ k)) with true.
    route_arm. by rewrite E.
  - rewrite (strip_slash k Hk).
    destruct (apply_new as_nanos from_nanos x m c seq n (op_del c (seq + 1) k) _ _ conn HS Hn eq_refl eq_refl
      eq_refl) as (x' & E & HS').
    exists x'. split; [|done]. route_arm. by rewrite E.
Qed.

Lemma http_step_request memory x m c seq n r b out :
  Serving x m c seq n → 1 <= n → wf_request memory r →
  ∃ x', http_step (σ := Executor) memory c seq (conn_text (request_text r ++ b) out, x) =
      (Ok (Some (seq + 1)),
       (conn_text b (out ++ response (request_spec m r).1.1 (request_spec m r).1.2 true), x')) ∧
    Serving x' (request_spec m r).2 c (seq + 1) (n - 1).
Proof.
  intros HS Hn Hwf. pose proof (request_words_token memory r Hwf) as HT. pose proof Hwf as (_ & _ & Hm & Hi & _).
  assert (Hu : is_u64 (len (req_body r))) by width_lia.
  destruct (route_spec memory x m c seq n r (conn_text b out) HS Hn Hwf) as (x' & E & HS').
  exists x'. split; [|done]. unfold request_text. rewrite <- !app_assoc. unfold http_step, on_conn, zoom.
  rewrite run_bind. unfold try. cbn [fst].
  rewrite read_line_str_text by (by apply joined_ascii || by apply joined_no_lf).
  rewrite split_whitespace_crlf by done. cbn [request_words snd]. unfold http_request, on_conn, zoom.
  rewrite run_bind. cbn [fst]. rewrite headers_text by done. rewrite run_bind. cbn [fst snd].
  rewrite read_body_text by done. cbn [snd]. rewrite run_bind, E.
  destruct (request_spec m r) as [[status payload] m']. done.
Qed.

(** ** A whole connection *)

Lemma requests_refine rs memory fuel x m c seq n out :
  Serving x m c seq n → Forall (wf_request memory) rs → len rs <= n → (length rs < fuel)%nat →
  ∃ conn x', loop fuel (http_step (σ := Executor) memory c) seq (conn_text (requests_text rs) out, x) =
      (Ok true, (conn, x')) ∧
    flushed conn = out ++ concat (map (λ r, response r.1 r.2 true) (requests_spec m rs).1) ∧
    Serving x' (requests_spec m rs).2 c (seq + len rs) (n - len rs).
Proof.
  intros HS HF. revert fuel x m seq n out HS.
  induction HF as [|r rs Hr _ IH]; intros fuel x m seq n out HS Hn Hf; destruct fuel as [|fuel]; try (cbn in Hf; lia).
  - eexists _, x. split; [reflexivity|]. cbn. rewrite app_nil_r. split; [done|].
    eapply Serving_weaken; [done|lia|lia].
  - rewrite length_cons, Nat2Z.inj_succ in Hn |- *.
    change (requests_text (r :: rs)) with (request_text r ++ requests_text rs).
    destruct (http_step_request memory x m c seq n r (requests_text rs) out HS ltac:(lia) Hr) as (x1 & E1 & HS1).
    cbn [loop requests_spec]. rewrite run_bind, E1. destruct (request_spec m r) as [reply m1]. cbn [fst snd] in *.
    destruct (IH fuel x1 m1 (seq + 1) (n - 1) (out ++ response reply.1 reply.2 true) HS1 ltac:(lia)
      ltac:(cbn in Hf; lia)) as (conn & x' & E & Hout & HS').
    exists conn, x'. split; [done|]. destruct (requests_spec m1 rs) as [replies m2]. cbn [fst snd map concat] in *.
    rewrite Hout, app_assoc. split; [done|]. eapply Serving_weaken; [done|lia|lia].
Qed.

Lemma requests_text_length rs : (length rs ≤ length (requests_text rs))%nat.
Proof.
  induction rs as [|r rs IH]; [done|]. change (requests_text (r :: rs)) with (request_text r ++ requests_text rs).
  rewrite length_app. unfold request_text. rewrite !length_app. cbn [length CRLF]. lia.
Qed.

(** C31: A keep-alive HTTP session refines the REST specification. On an executor that
    serves, a connection whose client sends any well-formed requests back to back
    ends normally; the bytes sent back are exactly the specified responses in order
    (each parsed at the right boundary whatever bytes the bodies hold), and the store
    holds the specified map. *)
Theorem http_session_refines memory x m c n rs :
  Serving x m c 0 n → Forall (wf_request memory) rs → len rs <= n →
  ∃ conn x', http_serve_conn (σ := Executor) memory c (conn_text (requests_text rs) [], x) =
      (Ok true, (conn, x')) ∧
    flushed conn = concat (map (λ r, response r.1 r.2 true) (requests_spec m rs).1) ∧
    ∃ e, ex_engine x' = Some e ∧ kv_map (state e) = (requests_spec m rs).2.
Proof.
  intros HS HF Hn. unfold http_serve_conn. cbn [fst]. pose proof (requests_text_length rs).
  destruct (requests_refine rs memory (S (length (input (conn_text (requests_text rs) [])))) x m c 0 n [] HS HF Hn)
    as (conn & x' & E & Hout & [(e & d & ? & _ & ? & _) _]).
  { cbn. unfold data. rewrite length_map. lia. }
  exists conn, x'. eauto 10.
Qed.
End Session.

(** The query string of an increment is dropped: [POST /incr/<key>?by=N] asks the
    service for an increment by one, whatever [N] is, while the interface is
    documented to add [N]. *)
Theorem incr_query_ignored key query body client seq conn svc :
  QUESTION ∉ key →
  (route (bs "POST") (bs "/incr/" ++ key ++ QUESTION :: query) body client seq (conn, svc : Script)).2.2 =
    (apply (op_incr client seq key 1) (conn, svc)).2.2.
Proof.
  intros Hk. unfold route.
  rewrite (app_assoc (bs "/incr/") key (QUESTION :: query)), split_on_sep; [|apply Forall_app; split|done].
  - cbn [default head from_option id]. change (starts_with (bs "/incr/") (bs "/incr/" ++ key)) with true. cbv zeta. route_arm.
    change (drop (length (bs "/incr/")) (bs "/incr/" ++ key)) with key. by destruct (apply _ _) as [[]].
  - repeat constructor.
  - apply Forall_forall. intros b Hb. apply bool_decide_eq_false. by intros ->.
Qed.

(** ** Witnesses *)

Section Witness.
#[local] Hint Extern 0 (StateMachine _) => exact (KvStore_StateMachine Wrapping) : typeclass_instances.
#[local] Hint Extern 0 (KvService Executor) => exact (Executor_service Wrapping id id) : typeclass_instances.

Definition requests_w : list Request :=
  [RPut (bs "a") (bs "x y" ++ CRLF); RGet (bs "a"); RIncr (bs "n"); RPost (bs "b") []; RDelete (bs "a"); RGet (bs "a")].

Lemma http_session_refines_witness :
  ∃ conn x', http_serve_conn (σ := Executor) 100 4
      (conn_text (requests_text requests_w) [], (service_start Wrapping 2 false 1 (calm ∅)).1) =
      (Ok true, (conn, x')) ∧
    flushed conn = concat (map (λ r, response r.1 r.2 true)
      [(200, bs "OK"); (200, bs "x y" ++ CRLF); (200, bs "1"); (200, bs "OK"); (200, bs "1"); (404, bs "not found")]) ∧
    ∃ e, ex_engine x' = Some e ∧ kv_map (state e) = <[bs "b" := []]> (<[bs "n" := bs "1"]> ∅).
Proof.
  pose proof (http_session_refines id id 100 (service_start Wrapping 2 false 1 (calm ∅)).1 ∅ 4 10 requests_w) as H.
  assert (E : requests_spec ∅ requests_w =
    ([(200, bs "OK"); (200, bs "x y" ++ CRLF); (200, bs "1"); (200, bs "OK"); (200, bs "1"); (404, bs "not found")],
     <[bs "b" := []]> (<[bs "n" := bs "1"]> ∅))) by by_decision.
  rewrite E in H. apply H; [apply Serving_start; width_lia|by_decision|by vm_compute].
Defined.

Lemma incr_query_ignored_witness :
  (route (bs "POST") (bs "/incr/n?by=5") [] 3 1 (conn_text [] [], mkScript [] [] [])).2.2 =
    mkScript [] [] [op_incr 3 1 (bs "n") 1].
Proof.
  exact (incr_query_ignored (bs "n") (bs "by=5") [] 3 1 (conn_text [] []) (mkScript [] [] [])
    ltac:(by_decision)).
Defined.
End Witness.
