(* ===== verification/Jepsen.v ===== *)
(** * Jepsen: the crash-consistency check ([crates/onebarrier/src/bin/ob_jepsen.rs])

    Clients set unique keys and record what the server acknowledged; the server is
    killed and restarted; every acknowledged key is then read back. The requests, what
    the client makes of the bytes it reads, a client thread and the verdict; sockets
    and processes are the environment. *)

From S2P Require Import Prelude Bytes Text Cli Io State Durable Engine EngineFacts CrashSafety Lifetimes Cadence KvRecovery Net Service Serving Server Resp RespSession RespGuarantees.
Local Open Scope Z_scope.

(** ** Requests and replies *)

Definition set_request (key val : bytes) : bytes :=
  bs "*3" ++ CRLF ++ bs "$3" ++ CRLF ++ bs "SET" ++ CRLF ++
  bs "$" ++ to_string (len key) ++ CRLF ++ key ++ CRLF ++
  bs "$" ++ to_string (len val) ++ CRLF ++ val ++ CRLF.

Definition get_request (key : bytes) : bytes :=
  bs "*2" ++ CRLF ++ bs "$3" ++ CRLF ++ bs "GET" ++ CRLF ++
  bs "$" ++ to_string (len key) ++ CRLF ++ key ++ CRLF.

(** What one [read] into a buffer of [n] bytes takes of a reply that has arrived whole. *)
Definition read_some (n : nat) (reply : bytes) : bytes := take n reply.

(** [do_set] after its read; [None] is an I/O error. *)
Definition do_set (reply : option bytes) : option bool :=
  b ← reply;
  let buf := read_some 64 b in
  Some ((3 <=? length buf)%nat && bool_decide (take 3 buf = bs "+OK")).

(** [get] after its read: [None] an I/O error, [Some None] a missing key. *)
Definition get (reply : option bytes) : option (option bytes) :=
  b ← reply;
  let r := from_utf8_lossy (read_some 256 b) in
  if starts_with (bs "$-1") r then Some None else Some (split_crlf r !! 1%nat).

(** ** A client thread *)

Definition jepsen_key (c i : Z) : bytes := bs "c" ++ to_string c ++ bs "_" ++ to_string i.
Definition jepsen_val (c i : Z) : bytes := bs "v" ++ to_string c ++ bs "_" ++ to_string i.

(** What the network has in store: the results of the next connection attempts and of
    the next round trips; past the end nothing answers. *)
Record Net := mkNet { connects : list bool; trips : list (option bytes) }.

Definition next_connect (n : Net) : bool * Net := (default false (head (connects n)), mkNet (tail (connects n)) (trips n)).
Definition next_trip (n : Net) : option bytes * Net := (mjoin (head (trips n)), mkNet (connects n) (tail (trips n))).

(** The attempts at one key: whether it is acknowledged ([Some true]), answered
    otherwise ([Some false]) or left unknown, and whether the connection is up. An
    operation that was sent is never sent again. *)
Fixpoint attempts (fuel : nat) (up : bool) (n : Net) : option bool * bool * Net :=
  match fuel with
  | O => (None, up, n)
  | S fuel =>
      let '(up, n) := if up : bool then (true, n) else next_connect n in
      if up : bool then
        let '(r, n) := next_trip n in
        match do_set r with
        | Some ok => (Some ok, true, n)
        | None => (None, false, n)
        end
      else attempts fuel false n
  end.

Record ClientResult := mkClientResult { cl_acked : list (bytes * bytes); cl_unknown : Z }.

Fixpoint client_loop (c : Z) (todo : list Z) (up : bool) (n : Net) (res : ClientResult) : ClientResult :=
  match todo with
  | [] => res
  | i :: todo =>
      let '(r, up, n) := attempts 200 up n in
      let res :=
        match r with
        | Some true => mkClientResult (cl_acked res ++ [(jepsen_key c i, jepsen_val c i)]) (cl_unknown res)
        | Some false => res
        | None => mkClientResult (cl_acked res) (cl_unknown res + 1)
        end in
      client_loop c todo up n res
  end.

Definition client (c ops : Z) (n : Net) : ClientResult :=
  let '(up, n) := next_connect n in
  client_loop c (seqZ 0 ops) up n (mkClientResult [] 0).

(** ** The verdict *)

(** Lost and torn keys, from the replies to the reads of the acknowledged keys. *)
Fixpoint verify (acked : list (bytes * bytes)) (replies : list (option bytes)) (lost torn : Z) : Z * Z :=
  match acked with
  | [] => (lost, torn)
  | (_, v) :: acked =>
      match get (mjoin (head replies)) with
      | Some (Some got) =>
          if bool_decide (got = v) then verify acked (tail replies) lost torn
          else verify acked (tail replies) lost (torn + 1)
      | Some None => verify acked (tail replies) (lost + 1) torn
      | None => verify acked (tail replies) (lost + 1) torn
      end
  end.

Definition verdict (acked : list (bytes * bytes)) (replies : list (option bytes)) (up : bool) : bool :=
  let '(lost, torn) := verify acked replies 0 0 in
  (lost =? 0) && (torn =? 0) && up.

(** ** The program *)

Record JepsenConfig := mkJepsen { jc_port : Z; jc_clients : Z; jc_ops : Z; jc_bin : bytes }.
Definition jepsen_default : JepsenConfig := mkJepsen 6411 8 2000 (bs "./target/release/ob-kv").

(** The arguments; a value that is missing or does not parse leaves the setting as it was. *)
Fixpoint jepsen_args (c : JepsenConfig) (args : list bytes) : JepsenConfig :=
  match args with
  | [] => c
  | a :: args =>
      if bool_decide (a = bs "--port") then
        match args with
        | [] => c
        | v :: args => jepsen_args (mkJepsen (default (jc_port c) (parse_u16 v)) (jc_clients c) (jc_ops c) (jc_bin c)) args
        end
      else if bool_decide (a = bs "--clients") then
        match args with
        | [] => c
        | v :: args => jepsen_args (mkJepsen (jc_port c) (default (jc_clients c) (parse_usize v)) (jc_ops c) (jc_bin c)) args
        end
      else if bool_decide (a = bs "--ops") then
        match args with
        | [] => c
        | v :: args => jepsen_args (mkJepsen (jc_port c) (jc_clients c) (default (jc_ops c) (parse_usize v)) (jc_bin c)) args
        end
      else if bool_decide (a = bs "--server") then
        match args with
        | [] => c
        | v :: args => jepsen_args (mkJepsen (jc_port c) (jc_clients c) (jc_ops c) v) args
        end
      else jepsen_args c args
  end.

(** The arguments the server is started with. *)
Definition spawn_args (port : Z) (dir : bytes) : list bytes :=
  [bs "--port"; to_string port; bs "--dir"; dir; bs "--snap-interval"; bs "500"].

(** [wait_up]: the connection attempts made before the deadline. *)
Definition server_up (attempts : list bool) : bool := existsb (λ b, b) attempts.

(** Joining the clients: acknowledged and unknown operations, and the keys. *)
Definition join_clients (rs : list ClientResult) : Z * Z * list (bytes * bytes) :=
  fold_left (λ acc r, let '(a, u, ks) := acc in (a + len (cl_acked r), u + cl_unknown r, ks ++ cl_acked r)) rs (0, 0, []).

(** What processes and sockets do: whether each start succeeds, the attempts to reach the
    server, what the network has for each client, and the replies to the reads
    ([None]: the connection for them fails). *)
Record JepsenEnv := mkJepsenEnv {
  je_spawn : bool; je_up : list bool; je_nets : Z → Net;
  je_respawn : bool; je_up_again : list bool; je_reads : option (list (option bytes)) }.

(** How the program ends: [main] returns an error, or before the check, or with the
    numbers it prints and its verdict. *)
Inductive JepsenEnd :=
  | JError
  | JNotUp
  | JChecked (acked unknown lost torn : Z) (ok : bool).

Definition ob_jepsen (args : list bytes) (env : JepsenEnv) : JepsenEnd :=
  let c := jepsen_args jepsen_default args in
  if negb (je_spawn env) then JError
  else if negb (server_up (je_up env)) then JNotUp
  else
    let results := map (λ k, client k (jc_ops c) (je_nets env k)) (seqZ 0 (jc_clients c)) in
    if negb (je_respawn env) then JError
    else
      let up := server_up (je_up_again env) in
      let '(total_acked, total_unknown, all_acked) := join_clients results in
      match je_reads env with
      | None => JError
      | Some replies =>
          let '(lost, torn) := verify all_acked replies 0 0 in
          JChecked total_acked total_unknown lost torn (verdict all_acked replies up)
      end.

(** The exit status of the process. *)
Definition jepsen_status (e : JepsenEnd) : Z :=
  match e with JError => 1 | JNotUp => 0 | JChecked _ _ _ _ ok => if ok : bool then 0 else 1 end.

(** ** Lemmas: the client *)

Lemma set_request_encoded key val : set_request key val = encode_command [bs "SET"; key; val].
Proof. unfold set_request, encode_command, encode_arg. cbn [map concat]. by rewrite app_nil_r, <- !app_assoc. Qed.
Lemma get_request_encoded key : get_request key = encode_command [bs "GET"; key].
Proof. unfold get_request, encode_command, encode_arg. cbn [map concat]. by rewrite app_nil_r, <- !app_assoc. Qed.

Lemma attempts_trips fuel up n :
  (length (trips (attempts fuel up n).2) ≤ length (trips n) ≤ S (length (trips (attempts fuel up n).2)))%nat.
Proof.
  revert up n; induction fuel as [|fuel IH]; intros up n; cbn [attempts snd]; [lia|].
  assert (Hl : ∀ n, (length (tail (trips n)) ≤ length (trips n) ≤ S (length (tail (trips n))))%nat)
    by (intros [? []]; cbn; lia).
  destruct up; [|destruct (next_connect n) as [[] n1] eqn:E].
  1,2: cbn; destruct (do_set _); cbn; try (injection E as _ <-; cbn); apply (Hl n).
  injection E as _ <-. apply (IH false (mkNet (tail (connects n)) (trips n))).
Qed.

(** What a client ends with: every key at most once, in order, and no more round trips
    than keys. *)
Lemma client_loop_acked c todo up n res :
  cl_unknown res <= cl_unknown (client_loop c todo up n res) ∧
  ∃ js, cl_acked (client_loop c todo up n res) = cl_acked res ++ map (λ i, (jepsen_key c i, jepsen_val c i)) js ∧
    js `sublist_of` todo ∧ len js + (cl_unknown (client_loop c todo up n res) - cl_unknown res) <= len todo.
Proof.
  revert up n res; induction todo as [|i todo IH]; intros up n res; cbn [client_loop].
  { split; [lia|]. exists []. rewrite app_nil_r. split_and!; [done..|cbn; lia]. }
  destruct (attempts 200 up n) as [[[[]|] up'] n'];
    match goal with |- context [client_loop c todo _ _ ?r] => destruct (IH up' n' r) as (Hu & js & Ea & Hs & Hl) end.
  - split; [done|]. exists (i :: js). rewrite Ea. cbn [cl_acked cl_unknown] in *. rewrite <- app_assoc. split_and!; [done|by apply sublist_skip|rewrite !length_cons; lia].
  - split; [done|]. exists js. split_and!; [done|by apply sublist_cons|rewrite length_cons; lia].
  - cbn [cl_acked cl_unknown] in *. split; [lia|]. exists js. split_and!; [done|by apply sublist_cons|rewrite length_cons; lia].
Qed.

Lemma client_bounds c ops n :
  0 <= ops → 0 <= cl_unknown (client c ops n) ∧ len (cl_acked (client c ops n)) + cl_unknown (client c ops n) <= ops ∧
  ∃ js, cl_acked (client c ops n) = map (λ i, (jepsen_key c i, jepsen_val c i)) js ∧ js `sublist_of` seqZ 0 ops.
Proof.
  intros Ho. unfold client. destruct (next_connect n) as [up n']. 
  destruct (client_loop_acked c (seqZ 0 ops) up n' (mkClientResult [] 0)) as (Hu & js & Ea & Hs & Hl).
  cbn [cl_acked cl_unknown app] in *. split; [done|]. rewrite length_seqZ in Hl. rewrite Ea, length_map.
  split; [lia|]. by exists js.
Qed.

Lemma join_clients_total rs : 
  let '(a, u, ks) := join_clients rs in
  ks = concat (map cl_acked rs) ∧ a = len ks ∧ u = fold_right (λ r z, cl_unknown r + z) 0 rs.
Proof.
  unfold join_clients. 
  assert (H : ∀ rs a u ks, fold_left (λ acc r, let '(a, u, ks) := acc in (a + len (cl_acked r), u + cl_unknown r, ks ++ cl_acked r)) rs (a, u, ks) =
    (a + len (concat (map cl_acked rs)), u + fold_right (λ r z, cl_unknown r + z) 0 rs, ks ++ concat (map cl_acked rs))).
  { clear rs. induction rs as [|r rs IH]; intros a u ks; cbn [fold_left map concat fold_right].
    - cbn. by rewrite app_nil_r, !Z.add_0_r.
    - by rewrite IH, length_app, <- app_assoc, Nat2Z.inj_add, !Z.add_assoc. }
  rewrite H. cbn. split_and!; [done|lia|lia].
Qed.

(** The server the check starts has the port and directory it was given. *)
Lemma spawned_config port dir :
  is_u16 port → ob_kv (spawn_args port dir) = Some (mkServerConfig port dir 500 false).
Proof.
  intros Hp. unfold ob_kv, spawn_args.
  transitivity (Some (mkServerConfig (default 6399 (parse_u16 (to_string port))) dir 500 false)); [reflexivity|].
  by rewrite parse_u16_to_string.
Qed.

(** What the program reports: the acknowledged operations are the keys it reads back, all
    different keys of the clients; with the unknown ones they are at most the operations;
    and the verdict is a pass exactly when nothing is lost or torn and the server came
    back. The exit status is 0 on a pass, and also when the server never came up. *)
Theorem jepsen_report args env :
  let c := jepsen_args jepsen_default args in
  0 <= jc_clients c → 0 <= jc_ops c →
  match ob_jepsen args env with
  | JChecked acked unknown lost torn ok =>
      0 <= acked ∧ 0 <= unknown ∧ acked + unknown <= jc_clients c * jc_ops c ∧
      ok = ((lost =? 0) && (torn =? 0) && server_up (je_up_again env))
  | _ => True
  end ∧
  (jepsen_status (ob_jepsen args env) = 0 ↔
     ob_jepsen args env = JNotUp ∨ ∃ a u l z, ob_jepsen args env = JChecked a u l z true).
Proof.
  intros c Hc Ho. split.
  - unfold ob_jepsen. fold c. destruct (je_spawn env), (server_up (je_up env)), (je_respawn env); try done. cbn [negb].
    set (rs := map _ _). pose proof (join_clients_total rs) as HJ. destruct (join_clients rs) as [[a u] ks].
    destruct (je_reads env) as [replies|]; [|done]. unfold verdict. destruct (verify ks replies 0 0) as [lost torn].
    destruct HJ as (-> & -> & ->).
    assert (HB : 0 <= fold_right (λ r z, cl_unknown r + z) 0 rs ∧
      len (concat (map cl_acked rs)) + fold_right (λ r z, cl_unknown r + z) 0 rs <= len (seqZ 0 (jc_clients c)) * jc_ops c).
    { unfold rs. generalize (seqZ 0 (jc_clients c)). intros ids. induction ids as [|i ids IH]; [cbn; lia|].
      cbn [map concat fold_right length]. rewrite length_app. destruct (client_bounds i (jc_ops c) (je_nets env i) Ho) as (? & ? & _).
      nia. }
    rewrite length_seqZ in HB. split_and!; [lia|lia|lia|done].
  - destruct (ob_jepsen args env) as [| |a u l z []]; cbn.
    + split; [done|]. by intros [|(? & ? & ? & ? & ?)].
    + split; [by left|done].
    + split; [by eauto 10|done].
    + split; [done|]. by intros [|(? & ? & ? & ? & ?)].
Qed.

(** ** Lemmas: writes that agree *)

Section Agreeing.
(** Every write of a key writes the same value. *)
Context (val_of : bytes → bytes).
#[local] Hint Extern 0 (StateMachine _) => exact (KvStore_StateMachine Wrapping) : typeclass_instances.
Implicit Types (v : Image KvStore) (k : bytes).

Definition agreeing (op : Op) : Prop := ∃ k, op_kind op = KSet k (val_of k).
Definition stored (s : KvStore) k : Prop := kv_map s !! k = Some (val_of k).

Lemma apply_agreeing s op s' o k :
  agreeing op → kv_apply Wrapping s op = Some (s', o) →
  (stored s k ∨ op_kind op = KSet k (val_of k)) → stored s' k.
Proof.
  intros [k0 Hk] Ha H. unfold kv_apply in Ha. rewrite Hk in Ha. injection Ha as <- _. unfold stored. cbn.
  destruct (decide (k0 = k)) as [->|Hne]; [by simplify_map_eq|]. rewrite lookup_insert_ne by done.
  destruct H as [H|H]; [done|]. rewrite Hk in H. by injection H as -> _.
Qed.

Lemma step_out_agreeing v r v' o k :
  agreeing r.2 → step_out v r = Some (v', o) →
  (stored (im_state v) k ∨ (o ≠ None ∧ op_kind r.2 = KSet k (val_of k))) → stored (im_state v') k.
Proof.
  intros Hag Hs H. unfold step_out in Hs. destruct (covered v r.2); [injection Hs as <- <-; by destruct H as [|[? _]]|].
  change (sm_apply (im_state v) r.2) with (kv_apply Wrapping (im_state v) r.2) in Hs.
  destruct (kv_apply Wrapping (im_state v) r.2) as [[s1 o1]|] eqn:E; [|done]. injection Hs as <- <-.
  eapply apply_agreeing; [done..|]. destruct H as [|[_ ?]]; auto.
Qed.

Lemma steps_agreeing rs v v' k :
  Forall (λ r, agreeing r.2) rs → steps v rs = Some v' → stored (im_state v) k → stored (im_state v') k.
Proof.
  revert v; induction rs as [|r rs IH]; intros v HF Hs Hk; [by injection Hs as <-|].
  apply Forall_cons in HF as [Hr HF]. cbn in Hs. unfold step in Hs.
  destruct (step_out v r) as [[v1 o]|] eqn:E; [|done]. cbn in Hs.
  eapply IH; [done..|]. eapply step_out_agreeing; eauto.
Qed.

(** An output that is not [Suppressed] was the write itself. *)
Lemma outputs_agreeing rs v v' n j r o k :
  Forall (λ r, agreeing r.2) rs → steps v rs = Some v' → rs !! j = Some r →
  outputs v (take n rs) !! j = Some o → o ≠ OutSuppressed → op_kind r.2 = KSet k (val_of k) →
  stored (im_state v') k.
Proof.
  revert v n j; induction rs as [|r0 rs IH]; intros v n j HF Hs Hr Ho Hne Hk; [done|].
  destruct n as [|n]; [done|]. cbn in Ho, Hs. unfold step in Hs.
  destruct (step_out v r0) as [[v1 o1]|] eqn:E; [|done]. cbn in Hs.
  apply Forall_cons in HF as [Hr0 HF]. destruct j as [|j]; [|by eapply IH].
  cbn in Hr, Ho. injection Hr as ->. injection Ho as <-. eapply steps_agreeing; [done..|].
  eapply step_out_agreeing; [done..|]. right. split; [by destruct o1|done].
Qed.

Context {Timestamp : Type} (as_nanos : Timestamp → Z).

(** A key some process acknowledged. *)
Definition acked_in (rl : list (Run (Timestamp := Timestamp))) (osl : list (list Output)) k : Prop :=
  ∃ i r os j ts op o, rl !! i = Some r ∧ osl !! i = Some os ∧ run_ops r !! j = Some (ts, op) ∧ os !! j = Some o ∧
    o ≠ OutSuppressed ∧ op_kind op = KSet k (val_of k).

Lemma Executed_agreeing v rl osl h v' k :
  Executed as_nanos v rl osl h v' → Forall (λ r, agreeing r.2) (all_ops as_nanos rl) →
  stored (im_state v) k ∨ acked_in rl osl k → stored (im_state v') k.
Proof.
  induction 1 as [v|v v1 v2 r rl os osl n h Hn Hos Hst HE IH]; intros HF Hk.
  { destruct Hk as [|(i & r & os & j & ts & op & o & Hr & _)]; [done|by destruct i]. }
  unfold all_ops in HF. cbn [map concat] in HF. apply Forall_app in HF as [HF HF2].
  assert (HFn : Forall (λ r, agreeing r.2) (take n (stamped as_nanos (run_ops r)))) by (by apply Forall_take).
  apply IH; [done|]. destruct Hk as [Hk|(i & r' & os' & j & ts & op & o & Hr & Ho & Hj & Hoj & Hne & Hk)].
  { left. by eapply steps_agreeing. }
  destruct i as [|i]; [left|right; by exists i, r', os', j, ts, op, o].
  cbn in Hr, Ho. injection Hr as ->. injection Ho as ->.
  assert (Hlt : (j < length os')%nat) by by eapply lookup_lt_Some.
  eapply (outputs_agreeing (take n (stamped as_nanos (run_ops r'))) v v1 (length os') j (as_nanos ts, op) o); try done.
  - apply lookup_take_Some. split; [|lia]. unfold stamped. by rewrite list_lookup_fmap, Hj.
  - rewrite take_take, Nat.min_l by lia. by rewrite <- Hos.
Qed.

(** ** Lemmas: the restarted server *)

Context (from_nanos : Z → Timestamp).

(** One request of a server whose system calls succeed. *)
Lemma exec_apply_any x e d op :
  ex_engine x = Some e → ex_world x = calm d → 0 <= ex_clock x < U64_MAX →
  ∃ o x' e' d', exec_apply Wrapping as_nanos from_nanos op x = (Some o, x') ∧
    ex_engine x' = Some e' ∧ ex_world x' = calm d' ∧ ex_clock x' = ex_clock x + 1 ∧
    (∀ c, c ≠ op_client op → hw (applied e') c = hw (applied e) c) ∧
    ((o = OutSuppressed ∧ state e' = state e) ∨ kv_apply Wrapping (state e) op = Some (state e', o)).
Proof.
  intros Ee Ew Hc. destruct (covered (image e) op) eqn:Ecov.
  - unfold exec_apply. rewrite Ee, Ew. unfold usize_arith. rewrite bool_decide_true by width_lia.
    rewrite deliver_covered by done. eexists _, _, _, _. split; [reflexivity|]. split_and!; auto.
  - destruct (kv_apply_total (state e) op) as [[s' o] Ha].
    destruct (exec_apply_calm as_nanos from_nanos x e d op o s' Ee Ew) as (x' & e' & d' & E & Ee' & Ew' & Ec' & Hs' & Ha').
    + unfold covered in Ecov. apply Z.leb_gt in Ecov. exact Ecov.
    + done.
    + exists o, x', e', d'. split_and!; try done.
      * rewrite Ec'. apply Z.mod_small. width_lia.
      * intros c Hne. by rewrite Ha', hw_insert, decide_False.
      * right. by rewrite Hs'.
Qed.

Definition acked_now (ops : list Op) (os : list (option Output)) k : Prop :=
  ∃ j op o, ops !! j = Some op ∧ os !! j = Some (Some o) ∧ o ≠ OutSuppressed ∧ op_kind op = KSet k (val_of k).

Lemma exec_all_agreeing ops x e d :
  ex_engine x = Some e → ex_world x = calm d → Forall agreeing ops → 0 <= ex_clock x → ex_clock x + len ops <= U64_MAX →
  ∃ os x' e' d', exec_all Wrapping as_nanos from_nanos ops x = (os, x') ∧
    ex_engine x' = Some e' ∧ ex_world x' = calm d' ∧ ex_clock x' = ex_clock x + len ops ∧
    (∀ c, Forall (λ op, op_client op ≠ c) ops → hw (applied e') c = hw (applied e) c) ∧
    ∀ k, stored (state e) k ∨ acked_now ops os k → stored (state e') k.
Proof.
  revert x e d; induction ops as [|op ops IH]; intros x e d Ee Ew HF H0 Hn.
  { exists [], x, e, d. cbn [exec_all length]. split_and!; try done; [lia|]. intros k [|(j & op & o & Hj & _)]; done. }
  apply Forall_cons in HF as [Hop HF]. rewrite length_cons in Hn.
  destruct (exec_apply_any x e d op Ee Ew ltac:(lia)) as (o & x1 & e1 & d1 & E1 & Ee1 & Ew1 & Ec1 & Hh1 & Hs1).
  destruct (IH x1 e1 d1 Ee1 Ew1 HF ltac:(lia) ltac:(lia)) as (os & x' & e' & d' & E' & Ee' & Ew' & Ec' & Hh' & Hst).
  exists (Some o :: os), x', e', d'. cbn [exec_all]. rewrite E1, E'. split_and!; try done.
  - rewrite Ec', Ec1, length_cons. lia.
  - intros c [Hc HFc]%Forall_cons. rewrite Hh' by done. apply Hh1. by intros ->.
  - intros k Hk. apply Hst. destruct Hk as [Hk|(j & op' & o' & Hj & Ho & Hne & Hk)].
    + left. destruct Hs1 as [[_ ->]|Ha]; [done|]. eapply apply_agreeing; eauto.
    + destruct j as [|j]; [left|right; by exists j, op', o']. cbn in Hj, Ho. injection Hj as ->. injection Ho as ->.
      destruct Hs1 as [[? _]|Ha]; [done|]. eapply apply_agreeing; eauto.
Qed.

(** A server started on a directory that holds [v], torn tail or not. *)
Lemma service_start_holds interval fs tick d v :
  Holds d v →
  ∃ e, service_start Wrapping interval fs tick (calm d) =
      (mkExecutor (Some e) ((last_ts e + 1) mod 2 ^ 64) tick (calm d), max_client e) ∧ image e = v.
Proof.
  intros HH. unfold service_start, boot. cbn [files calm].
  destruct (bool_decide (is_Some (d !! SNAP)) || bool_decide (is_Some (d !! LOG))) eqn:Eb.
  - destruct (recover_Holds _ _ interval fs HH) as (e & -> & He & _). rewrite usize_arith_wrapping. by exists e.
  - apply orb_false_iff in Eb as [Es%bool_decide_eq_false El%bool_decide_eq_false]. apply eq_None_not_Some in Es, El.
    destruct HH as (rs & tail & [Hl _ _ Hs]). unfold logc in Hl. rewrite El in Hl. symmetry in Hl.
    apply app_nil in Hl as [->%log_bytes_nil _]. unfold base, snapc in Hs. rewrite Es in Hs. injection Hs as <-.
    exists (fresh (mkDurable fs false) interval). split; [|done].
    assert (create interval fs (calm d) = (Ok (fresh (S := KvStore) (mkDurable fs false) interval), calm d)) as -> by reflexivity.
    by rewrite usize_arith_wrapping.
Qed.
End Agreeing.

(** ** The check passes *)

Definition jepsen_val_of (k : bytes) : bytes := bs "v" ++ tail k.

Lemma jepsen_val_of_key c i : jepsen_val_of (jepsen_key c i) = jepsen_val c i.
Proof. done. Qed.

Lemma jepsen_plain c i : Forall plain (jepsen_key c i) ∧ Forall plain (jepsen_val c i).
Proof. split; repeat (apply Forall_app; split); auto using to_string_plain; by_decision. Qed.

Lemma plain_no_cr l : Forall plain l → CR ∉ l.
Proof. intros HF Hin. rewrite Forall_forall in HF. by apply HF, plain_not_eol in Hin as [_ ?]. Qed.

Lemma jepsen_length c i : is_i64 c → is_i64 i → len (jepsen_key c i) <= 42 ∧ len (jepsen_val c i) <= 42.
Proof.
  intros Hc Hi. pose proof (length_to_string c Hc). pose proof (length_to_string i Hi).
  unfold jepsen_key, jepsen_val. rewrite !length_app. cbn. lia.
Qed.

(** What the check makes of the reply to a read of a stored key. *)
Lemma get_stored c i : is_i64 c → is_i64 i → get (Some (to_bytes (Bulk (Some (jepsen_val c i))))) = Some (Some (jepsen_val c i)).
Proof.
  intros Hc Hi. destruct (jepsen_plain c i) as [_ Hp]. destruct (jepsen_length c i Hc Hi) as [_ Hl].
  pose proof (length_to_string (len (jepsen_val c i)) ltac:(width_lia)) as Hl2.
  unfold get. cbn [mbind option_bind]. unfold read_some. rewrite take_ge.
  - destruct (bulk_pieces (jepsen_val c i)) as [-> ->]; [by apply utf8_ascii, plain_ascii|by apply plain_no_cr|done].
  - cbn [to_bytes]. rewrite !length_app. change (length CRLF) with 2%nat. change (length (bs "$")) with 1%nat. lia.
Qed.

(** A key and its value as a client of the check writes them. *)
Definition jepsen_pair (kv : bytes * bytes) : Prop :=
  ∃ c i, is_i64 c ∧ is_i64 i ∧ kv = (jepsen_key c i, jepsen_val c i).

Lemma verify_stored acked lost torn :
  Forall jepsen_pair acked →
  verify acked (map (λ kv, Some (to_bytes (Bulk (Some kv.2)))) acked) lost torn = (lost, torn).
Proof.
  induction 1 as [|kv acked (c & i & Hc & Hi & ->) _ IH]; [done|].
  cbn [verify map head mjoin option_join tail snd]. rewrite get_stored by done. by rewrite bool_decide_true.
Qed.

Lemma gets_spec m (acked : list (bytes * bytes)) :
  Forall (λ kv, m !! from_utf8_lossy kv.1 = Some kv.2) acked →
  session_spec m (map (λ kv, CGet kv.1) acked) = (map (λ kv, Bulk (Some kv.2)) acked, m).
Proof. induction 1 as [|[k v] acked Hk _ IH]; [done|]. cbn in *. by rewrite Hk, IH. Qed.

Lemma gets_ops (acked : list (bytes * bytes)) : session_ops (map (λ kv, CGet kv.1) acked) = len acked.
Proof. induction acked as [|kv acked IH]; [done|]. unfold session_ops in *. cbn [map sumZ command_ops]. rewrite IH, length_cons. lia. Qed.

Lemma gets_pipeline (acked : list (bytes * bytes)) :
  pipeline (map (λ kv, CGet kv.1) acked) = concat (map (λ kv, get_request kv.1) acked).
Proof.
  unfold pipeline. rewrite map_map. f_equal. apply map_ext. intros kv. by rewrite get_request_encoded.
Qed.

Section Passes.
Context {Timestamp : Type} (as_nanos : Timestamp → Z) (from_nanos : Z → Timestamp).
#[local] Hint Extern 0 (StateMachine _) => exact (KvStore_StateMachine Wrapping) : typeclass_instances.
#[local] Hint Extern 0 (KvService Executor) => exact (Executor_service Wrapping as_nanos from_nanos) : typeclass_instances.

(** An acknowledged pair of the check: the server answered its write, before a crash
    or after the restart. *)
Definition acked_pair (rl : list Run) osl ops os (kv : bytes * bytes) : Prop :=
  jepsen_pair kv ∧ (acked_in jepsen_val_of (Timestamp := Timestamp) rl osl kv.1 ∨ acked_now jepsen_val_of ops os kv.1).

Lemma sendable_get memory kv : jepsen_pair kv → 100 <= memory → sendable memory (CGet kv.1).
Proof.
  intros (c & i & Hc & Hi & ->) Hm. destruct (jepsen_length c i Hc Hi) as [Hl _].
  unfold sendable, fits. cbn [command_args fst]. split_and!; [|cbn; lia|cbn; width_lia|done].
  repeat constructor; cbn [length bs]; try width_lia; change (len (bs "GET")) with 3; width_lia.
Qed.

(** Reading stored keys over a new connection. *)
Lemma reads_stored memory x m c acked :
  Serving x m c 0 (len acked) → Forall jepsen_pair acked → 100 <= memory →
  Forall (λ kv, m !! from_utf8_lossy kv.1 = Some kv.2) acked →
  ∃ conn x', resp_serve_conn (σ := Executor) Wrapping memory c
      (conn_of (concat (map (λ kv, get_request kv.1) acked)) [] false, x) = (Ok true, (conn, x')) ∧
    flushed conn = concat (map (λ kv, to_bytes (Bulk (Some kv.2))) acked).
Proof.
  intros HS Hpairs Hmem Hm. set (cmds := map (λ kv : bytes * bytes, CGet kv.1) acked).
  assert (Hsend : Forall (sendable memory) cmds).
  { unfold cmds. rewrite Forall_map. eapply Forall_impl; [exact Hpairs|]. intros kv Hkv. by apply sendable_get. }
  rewrite <- gets_pipeline. fold cmds. unfold resp_serve_conn. cbn [fst].
  assert (Hl : length (input (conn_of (pipeline cmds) [] false)) = length (pipeline cmds)) by apply length_map.
  rewrite Hl. pose proof (pipeline_length cmds).
  destruct (session_refines as_nanos from_nanos memory cmds (S (length (pipeline cmds))) x _ c 0 (len acked) [] false HS Hsend)
    as (conn & x' & E & Hout & _); [unfold cmds; rewrite gets_ops; lia|lia|].
  exists conn, x'. split; [done|]. rewrite Hout. unfold cmds. rewrite gets_spec by done. cbn [fst app]. by rewrite map_map.
Qed.

(** What the restarted server holds once it took more writes. *)
Lemma restarted_serves rl osl h v d interval fs tick ops acked c :
  Executed as_nanos image0 rl osl h v → Holds d v → Forall (agreeing jepsen_val_of) ((all_ops as_nanos rl).*2 ++ ops) →
  let '(x0, max_client) := service_start Wrapping interval fs tick (calm d) in
  let '(os, x1) := exec_all Wrapping as_nanos from_nanos ops x0 in
  max_client < c → Forall (λ op, op_client op ≠ c) ops → ex_clock x0 + len ops + len acked <= U64_MAX →
  Forall (acked_pair rl osl ops os) acked →
  ∃ m, Serving x1 m c 0 (len acked) ∧ Forall (λ kv, m !! from_utf8_lossy kv.1 = Some kv.2) acked.
Proof.
  intros HE HH HA. destruct (service_start_holds interval fs tick d v HH) as (e0 & -> & Hv).
  set (x0 := mkExecutor _ _ _ _). destruct (exec_all _ _ _ ops x0) as [os x1] eqn:Ex. intros Hc Hcl Hclk Hack.
  apply Forall_app in HA as [HA1 HA2]. rewrite Forall_fmap in HA1.
  pose proof (Z.mod_pos_bound (last_ts e0 + 1) (2 ^ 64) ltac:(lia)) as Hclk0. change (_ mod _) with (ex_clock x0) in Hclk0.
  destruct (exec_all_agreeing jepsen_val_of as_nanos from_nanos ops x0 e0 d)
    as (os' & x' & e1 & d1 & E' & Ee1 & Ew1 & Ec1 & Hh1 & Hst); [done..|lia|lia|].
  rewrite Ex in E'. injection E' as <- <-. exists (kv_map (state e1)). split.
  - split; [|lia]. exists e1, d1. split_and!; [done..|]. rewrite Hh1 by done. unfold hw.
    destruct (applied e0 !! c) as [s|] eqn:E; [|done]. apply max_client_spec in E. lia.
  - eapply Forall_impl; [exact Hack|]. intros kv [(c' & i' & _ & _ & ->) Hk]. cbn [fst snd] in *.
    destruct (jepsen_plain c' i') as [Hp _]. rewrite lossy_valid by (by apply utf8_ascii, plain_ascii).
    apply Hst. destruct Hk as [Hk|Hk]; [left|by right].
    assert (Hs0 : stored jepsen_val_of (im_state v) (jepsen_key c' i')).
    { eapply Executed_agreeing; [exact HE|exact HA1|by right]. }
    by rewrite <- Hv in Hs0.
Qed.

(** C23: The crash-consistency check passes. Clients write their keys to a server that is
    killed at any point of any system call, within a record too; the server is restarted
    on what the directory holds and takes more writes; a new connection then reads every
    acknowledged key. It is sent exactly the acknowledged values, and the check counts
    nothing lost and nothing torn. The program kills the server once, which is a list of
    one process here, and then nothing is assumed of the log; with several kills before
    the last restart, all but that restart are on a log that does not end inside a
    record ([clean_starts]). *)
Theorem jepsen_passes rl osl d interval fs tick ops acked c memory :
  Lifetimes (S := KvStore) as_nanos ∅ rl osl d → clean_starts (S := KvStore) as_nanos ∅ rl →
  Forall wf_rec (all_ops as_nanos rl) →
  Z.max 0 sm_base + weights (all_ops as_nanos rl) <= U32_MAX →
  Forall (agreeing jepsen_val_of) ((all_ops as_nanos rl).*2 ++ ops) → 100 <= memory →
  let '(x0, max_client) := service_start Wrapping interval fs tick (calm d) in
  let '(os, x1) := exec_all Wrapping as_nanos from_nanos ops x0 in
  max_client < c → Forall (λ op, op_client op ≠ c) ops → ex_clock x0 + len ops + len acked <= U64_MAX →
  Forall (acked_pair rl osl ops os) acked →
  ∃ conn x', resp_serve_conn (σ := Executor) Wrapping memory c
      (conn_of (concat (map (λ kv, get_request kv.1) acked)) [] false, x1) = (Ok true, (conn, x')) ∧
    flushed conn = concat (map (λ kv, to_bytes (Bulk (Some kv.2))) acked) ∧
    verdict acked (map (λ kv, Some (to_bytes (Bulk (Some kv.2)))) acked) true = true.
Proof.
  intros HL Hstarts Hwf HB HA Hmem.
  destruct (lifetimes_Executed as_nanos _ _ _ _ _ _ HL Hstarts Hwf wf_image0 HB Holds_empty) as (h & v & HE & HH).
  pose proof (restarted_serves rl osl h v d interval fs tick ops acked c HE HH HA) as HR.
  destruct (service_start _ _ _ _ _) as [x0 mc]. destruct (exec_all _ _ _ _ _) as [os x1]. intros Hc Hcl Hclk Hack.
  destruct (HR Hc Hcl Hclk Hack) as (m & HS & Hm).
  assert (Hpairs : Forall jepsen_pair acked) by (eapply Forall_impl; [exact Hack|by intros kv [? _]]).
  destruct (reads_stored memory x1 m c acked HS Hpairs Hmem Hm) as (conn & x' & E & Hout).
  exists conn, x'. split_and!; [done..|]. unfold verdict. by rewrite verify_stored.
Qed.
End Passes.

(** Two clients; the server dies inside the record of the third write, is restarted and
    answers one more. *)
Section Witness.
#[local] Hint Extern 0 (StateMachine _) => exact (KvStore_StateMachine Wrapping) : typeclass_instances.
#[local] Hint Extern 0 (KvService Executor) => exact (Executor_service Wrapping id id) : typeclass_instances.

Definition write_w (client seq c i : Z) : Op := op_set_bytes client seq (jepsen_key c i) (jepsen_val c i).
Lemma agreeing_write_w client seq c i : agreeing jepsen_val_of (write_w client seq c i).
Proof. by exists (jepsen_key c i). Qed.
Definition jepsen_run_w : Run (Timestamp := Z) :=
  mkRun 100 false [Fine; Fine; Fine; Fine; Kill 6] [(1, write_w 1 1 0 0); (2, write_w 2 1 1 0); (3, write_w 1 2 0 1)].
Definition jepsen_dir_w : Dir := (run_once (S := KvStore) id ∅ jepsen_run_w).2.
Definition jepsen_x0_w : Executor * Z := service_start Wrapping 500 false 1 (calm jepsen_dir_w).
Definition jepsen_ops_w : list Op := [write_w 3 1 0 2].
Definition jepsen_x1_w : list (option Output) * Executor := exec_all Wrapping id id jepsen_ops_w jepsen_x0_w.1.
Definition jepsen_acked_w : list (bytes * bytes) :=
  [(jepsen_key 0 0, jepsen_val 0 0); (jepsen_key 1 0, jepsen_val 1 0); (jepsen_key 0 2, jepsen_val 0 2)].

Lemma jepsen_lifetimes_w : Lifetimes (S := KvStore) id ∅ [jepsen_run_w] [[OutOk; OutOk]] jepsen_dir_w.
Proof.
  assert (Hp : ∀ (p : list Output * Dir) os, p.1 = os → p = (os, p.2)) by by intros [] ? <-.
  apply (lf_cons _ _ jepsen_dir_w); [by apply Hp; vm_compute|constructor].
Qed.

Lemma jepsen_passes_witness :
  ∃ conn x', resp_serve_conn (σ := Executor) Wrapping 4096 4
      (conn_of (concat (map (λ kv, get_request kv.1) jepsen_acked_w)) [] false, jepsen_x1_w.2) = (Ok true, (conn, x')) ∧
    flushed conn = concat (map (λ kv, to_bytes (Bulk (Some kv.2))) jepsen_acked_w) ∧
    verdict jepsen_acked_w (map (λ kv, Some (to_bytes (Bulk (Some kv.2)))) jepsen_acked_w) true = true.
Proof.
  pose proof (jepsen_passes id id [jepsen_run_w] [[OutOk; OutOk]] jepsen_dir_w 500 false 1 jepsen_ops_w jepsen_acked_w 4 4096
    jepsen_lifetimes_w) as H.
  fold jepsen_x0_w in H. rewrite (surjective_pairing jepsen_x0_w) in H. fold jepsen_x1_w in H.
  rewrite (surjective_pairing jepsen_x1_w) in H.
  apply H; [by_decision|by_decision|by vm_compute| |done|by vm_compute|by_decision|by vm_compute|].
  - change (_ ++ jepsen_ops_w) with [write_w 1 1 0 0; write_w 2 1 1 0; write_w 1 2 0 1; write_w 3 1 0 2].
    repeat (apply Forall_cons; split; [apply agreeing_write_w|]). by apply Forall_nil.
  - repeat (apply Forall_cons; split; [split; [eexists _, _; split_and!; [| |reflexivity]; by vm_compute|]|]); [left|left|right|by apply Forall_nil].
    + by exists 0%nat, jepsen_run_w, [OutOk; OutOk], 0%nat, 1, (write_w 1 1 0 0), OutOk.
    + by exists 0%nat, jepsen_run_w, [OutOk; OutOk], 1%nat, 2, (write_w 2 1 1 0), OutOk.
    + exists 0%nat, (write_w 3 1 0 2), OutOk. split_and!; [done|by vm_compute|done|done].
Defined.
End Witness.
