(* ===== verification/AppJepsen.v ===== *)
(** * AppJepsen: the check of an unmodified application
    ([crates/onebarrier/src/bin/ob_app_jepsen.rs])

    Clients write unique keys and share one register of a server that runs under the
    interception library; the server is killed, its captured requests are replayed into
    a new one, and what the clients were told is checked. The application (a stock
    redis-server) is the environment: it is the replies the clients read. *)

From S2P Require Import Prelude Bytes Text Cli Capture Interpose Resp RespGuarantees Linearizability.
Local Open Scope Z_scope.

Definition REG_CAP : Z := 32.

(** The value after the first [name] that has one. *)
Fixpoint arg (args : list bytes) (name d : bytes) : bytes :=
  match args with
  | a :: ((v :: _) as rest) => if bool_decide (a = name) then v else arg rest name d
  | _ => d
  end.

(** [None]: the port does not parse and the program panics. *)
Definition app_port (args : list bytes) : option Z := parse_u16 (arg args (bs "--port") (bs "6650")).

(** [resp] after its read of at most 256 bytes; [None] is an error, and so is a closed
    connection. *)
Definition app_resp (reply : option bytes) : option bytes :=
  b ← reply; if decide (b = []) then None else Some (take 256 b).

(** At most 100 attempts, each a connection that is refused or what is read after a
    [PING]. *)
Fixpoint wait_up (n : nat) (tries : list (option (option bytes))) : bool :=
  match n with
  | O => false
  | S n =>
      match head tries with
      | Some (Some reply) =>
          if app_resp reply is Some r then if starts_with (bs "+PONG") r then true else wait_up n (tail tries)
          else wait_up n (tail tries)
      | _ => wait_up n (tail tries)
      end
  end.

(** Where a client thread is: before its next write, before the check of the window, in
    a register operation invoked at some time, or past its loop. *)
Inductive AppPhase := AtWrite | AtGuard | InFlight (inv : Z) | Ended.
Record AppClient := mkAppClient { ac_seq : Z; ac_phase : AppPhase }.

(** What the threads share. *)
Record App := mkApp {
  app_writes : gmap bytes Z; app_acked : Z; app_hist : list LinOp; app_reg_ops : Z; app_clients : gmap Z AppClient }.

Definition app_start : App := mkApp ∅ 0 [] 0 ∅.
Definition app_client (a : App) (cid : Z) : AppClient := default (mkAppClient 0 AtWrite) (app_clients a !! cid).
Definition set_client (a : App) (cid : Z) (c : AppClient) : App :=
  mkApp (app_writes a) (app_acked a) (app_hist a) (app_reg_ops a) (<[cid := c]> (app_clients a)).

Definition app_key (cid seq : Z) : bytes := bs "w:" ++ to_string cid ++ bs ":" ++ to_string seq.
Definition app_val (cid seq : Z) : Z := cid * 1000000 + seq.

(** The atomic steps of a thread: the write of its next key with the reply; the check of
    the window and the invocation; the reply to a register operation. *)
Inductive AppEvent :=
  | AppWrite (reply : option bytes)
  | AppInvoke (now : Z)
  | AppReply (now : Z) (reply : option bytes).

Definition is_ok (r : bytes) : bool := starts_with (bs "+OK") r.

(** [if reg_ops.fetch_add(1) < REG_CAP { hist.push(..) }] *)
Definition record_op (a : App) (op : LinOp) : App :=
  mkApp (app_writes a) (app_acked a) (if app_reg_ops a <? REG_CAP then app_hist a ++ [op] else app_hist a)
    (app_reg_ops a + 1) (app_clients a).

Definition app_step (cid : Z) (ev : AppEvent) (a : App) : App :=
  let c := app_client a cid in
  match ev, ac_phase c with
  | AppWrite reply, AtWrite =>
      let seq := ac_seq c + 1 in
      match app_resp reply with
      | Some r =>
          if is_ok r then
            set_client (mkApp (<[app_key cid seq := app_val cid seq]> (app_writes a)) (app_acked a + 1)
                          (app_hist a) (app_reg_ops a) (app_clients a)) cid (mkAppClient seq AtGuard)
          else set_client a cid (mkAppClient seq AtGuard)
      | None => set_client a cid (mkAppClient seq Ended)
      end
  | AppInvoke now, AtGuard =>
      set_client a cid (mkAppClient (ac_seq c) (if app_reg_ops a <? REG_CAP then InFlight now else AtWrite))
  | AppReply now reply, InFlight inv =>
      match app_resp reply with
      | None => set_client a cid (mkAppClient (ac_seq c) Ended)
      | Some r =>
          let a :=
            if ac_seq c mod 2 =? 0 then
              if is_ok r then record_op a (mkLinOp cid (Write (app_val cid (ac_seq c))) inv now) else a
            else record_op a (mkLinOp cid (Read (parse_get r)) inv now) in
          set_client a cid (mkAppClient (ac_seq c) AtWrite)
      end
  | _, _ => a
  end.

Definition app_run (evs : list (Z * AppEvent)) (a : App) : App := fold_left (λ a ev, app_step ev.1 ev.2 a) evs a.

(** The commands of a client whose counter is [seq]: the write of its key, and its register
    operation. *)
Definition write_command (cid seq : Z) : list bytes := [bs "SET"; app_key cid seq; to_string (app_val cid seq)].
Definition reg_command (cid seq : Z) : list bytes :=
  if seq mod 2 =? 0 then [bs "SET"; bs "reg"; to_string (app_val cid seq)] else [bs "GET"; bs "reg"].

(** What [resp] writes. *)
Definition app_request (parts : list bytes) : bytes := encode_command parts.

(** ** The verdict *)

(** [None]: a read failed and the check panics. *)
Fixpoint app_verify (acked : list (bytes * Z)) (replies : list (option bytes)) (lost torn : Z) : option (Z * Z) :=
  match acked with
  | [] => Some (lost, torn)
  | (_, v) :: acked =>
      r ← app_resp (mjoin (head replies));
      if starts_with (bs "$-1") r then app_verify acked (tail replies) (lost + 1) torn
      else if parse_get r =? v then app_verify acked (tail replies) lost torn
      else app_verify acked (tail replies) lost (torn + 1)
  end.

(** ** The program *)

Definition cap_path (port : Z) : bytes := bs "/tmp/ob-aj-capture-" ++ to_string port ++ bs ".bin".
Definition vclock_path (port : Z) : bytes := bs "/tmp/ob-aj-vclock-" ++ to_string port.

(** The files of an earlier run are removed first. *)
Definition app_clean (port : Z) (fs : gmap bytes bytes) : gmap bytes bytes :=
  delete (vclock_path port) (delete (cap_path port) fs).

(** The arguments and the variables of the server. *)
Definition redis_args (port : Z) : list bytes :=
  [bs "--port"; to_string port; bs "--save"; []; bs "--appendonly"; bs "no";
   bs "--logfile"; bs "/tmp/ob-aj-" ++ to_string port ++ bs ".log"].
Definition redis_vars (so : bytes) (cap vclock : option bytes) : list (bytes * bytes) :=
  [(bs "LD_PRELOAD", so)] ++ (if cap is Some p then [(bs "OB_CAPTURE", p)] else []) ++
  (if vclock is Some p then [(bs "OB_VCLOCK", p)] else []).

(** The arguments of the replay. *)
Definition replay_cmd (port : Z) : list bytes :=
  [bs "--capture"; cap_path port; bs "--target"; bs "127.0.0.1:" ++ to_string port].

(** What happens to the program: whether each process starts, the answers while it waits for
    the servers, the steps of the clients before and after it reads their count, the status
    of the replay, the new connection, and what is read over it at the end. *)
Record AppEnv := mkAppEnv {
  ae_spawn : bool; ae_up : list (option (option bytes));
  ae_before : list (Z * AppEvent); ae_after : list (Z * AppEvent);
  ae_respawn : bool; ae_up_again : list (option (option bytes));
  ae_replay : option Z; ae_connect : bool;
  ae_reads : list (option bytes); ae_inv : Z; ae_last : option bytes; ae_res : Z }.

(** [AppChecked]: the acknowledged writes counted before the crash, the status of the replay,
    and the five figures of the report. *)
Inductive AppEnd :=
  | AppPanic
  | AppNotUp
  | AppChecked (acked_before replay writes lost torn history : Z) (lin : bool).

Definition ob_app_jepsen (args : list bytes) (env : AppEnv) : AppEnd :=
  match app_port args with
  | None => AppPanic
  | Some _ =>
      if negb (ae_spawn env) then AppPanic
      else if negb (wait_up 100 (ae_up env)) then AppNotUp
      else
        let a0 := app_run (ae_before env) app_start in
        let a := app_run (ae_after env) a0 in
        if negb (ae_respawn env) then AppPanic
        else if negb (wait_up 100 (ae_up_again env)) then AppNotUp
        else
          match ae_replay env, ae_connect env with
          | Some st, true =>
              let acked := map_to_list (app_writes a) in
              match app_verify acked (ae_reads env) 0 0, app_resp (ae_last env) with
              | Some (lost, torn), Some r =>
                  let h := app_hist a ++ [mkLinOp 999 (Read (parse_get r)) (ae_inv env) (ae_res env)] in
                  AppChecked (app_acked a0) st (len acked) lost torn (len h) (is_linearizable h 0)
              | _, _ => AppPanic
              end
          | _, _ => AppPanic
          end
  end.

(** The exit status; a panic is 101. *)
Definition app_status (e : AppEnd) : Z :=
  match e with
  | AppPanic => 101
  | AppNotUp => 2
  | AppChecked _ _ _ lost torn _ lin => if (lost =? 0) && (torn =? 0) && lin then 0 else 1
  end.

(** ** What is recorded *)

(** The history holds the first [REG_CAP] operations, and every recorded key was written
    with its own value. *)
Record app_inv (a : App) : Prop := {
  ai_hist : len (app_hist a) = Z.min (app_reg_ops a) REG_CAP;
  ai_ops : 0 <= app_reg_ops a;
  ai_writes : ∀ k v, app_writes a !! k = Some v → ∃ cid seq, k = app_key cid seq ∧ v = app_val cid seq;
}.

Lemma set_client_inv a cid c : app_inv a → app_inv (set_client a cid c).
Proof. intros [H1 H2 H3]. by split. Qed.

Lemma record_op_inv a op : app_inv a → app_inv (record_op a op).
Proof.
  intros [H1 H2 H3]. split; cbn [app_hist app_reg_ops app_writes record_op]; [|lia|done].
  destruct (Z.ltb_spec (app_reg_ops a) REG_CAP); [rewrite length_app; cbn [length]|]; unfold REG_CAP in *; lia.
Qed.

Lemma app_step_inv cid ev a : app_inv a → app_inv (app_step cid ev a).
Proof.
  intros Ha. unfold app_step. repeat case_match; auto using set_client_inv, record_op_inv.
  apply set_client_inv. destruct Ha as [Ha1 Ha2 Ha3]. split; [done..|]. cbn [app_writes].
  intros k v [[<- <-]|[_ Hk]]%lookup_insert_Some; eauto.
Qed.

Lemma app_run_inv evs a : app_inv a → app_inv (app_run evs a).
Proof. revert a; induction evs as [|[cid ev] evs IH]; intros a H; [done|]. by apply IH, app_step_inv. Qed.

(** ** A false alarm *)

(** The round of a client at time [t]: its write, then a register operation. *)
Definition round_w (cid t : Z) (reply : bytes) : list (Z * AppEvent) :=
  [(cid, AppWrite (Some (bs "+OK" ++ CRLF))); (cid, AppInvoke t); (cid, AppReply (t + 1) (Some reply))].

(** Client 0 alone, [n] rounds from counter 0: it reads what it wrote. *)
Definition reply_w (seq : Z) : bytes :=
  if seq mod 2 =? 0 then bs "+OK" ++ CRLF
  else if seq =? 1 then bs "$-1" ++ CRLF else to_bytes (Bulk (Some (to_string (seq - 1)))).
Definition rounds_w (n : Z) : list (Z * AppEvent) :=
  concat (map (λ seq, round_w 0 (10 * seq) (reply_w seq)) (seqZ 1 n)).

(** Thirty rounds of client 0 and one of client 1; then both pass the check of the window
    with 31 operations recorded, client 0 reads, client 1 writes. *)
Definition alarm_w : list (Z * AppEvent) :=
  rounds_w 30 ++ round_w 1 400 (to_bytes (Bulk (Some (to_string 30)))) ++
  [(0, AppWrite (Some (bs "+OK" ++ CRLF))); (1, AppWrite (Some (bs "+OK" ++ CRLF)));
   (0, AppInvoke 500); (1, AppInvoke 501);
   (0, AppReply 510 (Some (to_bytes (Bulk (Some (to_string 30)))))); (1, AppReply 520 (Some (bs "+OK" ++ CRLF)))].
Definition dropped_w : LinOp := mkLinOp 1 (Write (app_val 1 2)) 501 520.

(** An acknowledged register write whose reply comes when the window is full is not
    recorded; the read after recovery returns it, and the check says the history is not
    linearizable although, with that write in it, it is. *)
Theorem app_check_false_alarm :
  let h := app_hist (app_run alarm_w app_start) in
  let last := mkLinOp 999 (Read (parse_get (to_bytes (Bulk (Some (to_string (app_val 1 2))))))) 600 610 in
  len h = REG_CAP ∧ is_linearizable (h ++ [last]) 0 = false ∧ is_linearizable (h ++ [dropped_w; last]) 0 = true.
Proof. split_and!; by vm_compute. Qed.
