(* ===== verification/AppCheck.v ===== *)
(** * AppCheck: what the check of an unmodified application is worth
    ([crates/onebarrier/src/bin/ob_app_jepsen.rs], with [bin/ob_replay.rs] and
    [interpose/obpreload.c])

    The application is any server that stores what [SET] gives it. Every write it acknowledged
    before it was killed is found after the replay, in whatever order the replay's
    connections are served; the shared register is not so lucky. *)

From S2P Require Import Prelude Bytes Text Io Cli Capture Interpose CaptureReplay Net Resp RespGuarantees Linearizability AppJepsen.
Local Open Scope Z_scope.

(** ** The processes *)

Fixpoint getenv (vars : list (bytes * bytes)) (name : bytes) : option bytes :=
  match vars with
  | [] => None
  | (n, v) :: vars => if bool_decide (n = name) then Some v else getenv vars name
  end.
Definition environ_of (vars : list (bytes * bytes)) : Environ :=
  mkEnviron (getenv vars (bs "OB_NDSTATS")) (getenv vars (bs "OB_REPLAY")) (getenv vars (bs "OB_RECORD"))
    (getenv vars (bs "OB_CAPTURE")) (getenv vars (bs "OB_VCLOCK")) (getenv vars (bs "OB_VCLOCK_TICKS"))
    (getenv vars (bs "OB_VCLOCK_DELTAS")).

(** The server captures to the file the replay is given, which does not exist before and
    which the clock does not use; the second server captures nothing. *)
Lemma app_processes so port fs :
  captures_to (environ_of (redis_vars so (Some (cap_path port)) (Some (vclock_path port)))) (cap_path port) ∧
  app_clean port fs !! cap_path port = None ∧
  replay_args replay_default (replay_cmd port) = mkReplay (cap_path port) (bs "127.0.0.1:" ++ to_string port) ∧
  environ_of (redis_vars so None None) = mkEnviron None None None None None None None.
Proof.
  assert (Hne : vclock_path port ≠ cap_path port) by done.
  split_and!; [|unfold app_clean; by rewrite lookup_delete_ne, lookup_delete_eq|done..].
  split; [done|]. by repeat constructor.
Qed.

(** ** What a client sends and what is answered *)

Definition sends (a : App) (cid : Z) (ev : AppEvent) : list (list bytes) :=
  let c := app_client a cid in
  match ev, ac_phase c with
  | AppWrite _, AtWrite => [write_command cid (ac_seq c + 1)]
  | AppInvoke _, AtGuard => if app_reg_ops a <? REG_CAP then [reg_command cid (ac_seq c)] else []
  | _, _ => []
  end.
Definition answers (a : App) (cid : Z) (ev : AppEvent) : nat :=
  match ev, ac_phase (app_client a cid) with
  | AppWrite r, AtWrite | AppReply _ r, InFlight _ => if app_resp r is Some _ then 1 else 0
  | _, _ => 0
  end.

(** The program's state, and for one client its requests and how many were answered. *)
Definition wire_step (cid : Z) (s : App * (list (list bytes) * nat)) (ev : Z * AppEvent) : App * (list (list bytes) * nat) :=
  let '(a, (cs, n)) := s in
  (app_step ev.1 ev.2 a, if ev.1 =? cid then (cs ++ sends a cid ev.2, n + answers a cid ev.2)%nat else (cs, n)).
Definition wire (cid : Z) (evs : list (Z * AppEvent)) : App * (list (list bytes) * nat) :=
  fold_left (wire_step cid) evs (app_start, ([], 0%nat)).
Definition requests (cid : Z) (evs : list (Z * AppEvent)) : list (list bytes) := (wire cid evs).2.1.
Definition answered (cid : Z) (evs : list (Z * AppEvent)) : nat := (wire cid evs).2.2.

Lemma wire_app cid evs : (wire cid evs).1 = app_run evs app_start.
Proof.
  induction evs as [|ev evs IH] using rev_ind; [done|]. unfold wire, app_run in *. rewrite !fold_left_snoc, <- IH.
  by destruct (fold_left (wire_step cid) evs _) as [a [cs n]].
Qed.

Lemma app_client_other a c c' : c ≠ c' → ∀ ev, app_client (app_step c ev a) c' = app_client a c'.
Proof.
  intros Hne ev. unfold app_step. assert (H : ∀ a' x, app_clients a' = app_clients a → app_client (set_client a' c x) c' = app_client a c').
  { intros a' x E. unfold app_client, set_client. cbn. by rewrite lookup_insert_ne, E. }
  repeat case_match; try done; apply H; done.
Qed.

Lemma app_client_set a c x : app_client (set_client a c x) c = x.
Proof. unfold app_client, set_client. cbn. by rewrite lookup_insert_eq. Qed.

(** A request on the wire is not answered yet, or never will be. *)
Definition pending (p : AppPhase) : nat := match p with InFlight _ | Ended => 1 | _ => 0 end.
Definition request_of (cid bound : Z) (c : list bytes) : Prop :=
  ∃ seq, 0 <= seq <= bound ∧ (c = write_command cid seq ∨ c = reg_command cid seq).

Record wire_inv (cid : Z) (evs : list (Z * AppEvent)) : Prop := {
  wi_seq : 0 <= ac_seq (app_client (app_run evs app_start) cid) <= len evs;
  wi_len : length (requests cid evs) = (answered cid evs + pending (ac_phase (app_client (app_run evs app_start) cid)))%nat;
  wi_form : Forall (request_of cid (len evs)) (requests cid evs);
}.

Lemma wire_snoc cid evs c ev :
  requests cid (evs ++ [(c, ev)]) = requests cid evs ++ (if c =? cid then sends (app_run evs app_start) cid ev else []) ∧
  answered cid (evs ++ [(c, ev)]) = (answered cid evs + (if (c =? cid)%Z then answers (app_run evs app_start) cid ev else 0))%nat ∧
  app_run (evs ++ [(c, ev)]) app_start = app_step c ev (app_run evs app_start).
Proof.
  rewrite <- (wire_app cid). unfold requests, answered, wire. rewrite fold_left_snoc. unfold app_run. rewrite fold_left_snoc.
  fold (app_run evs app_start). rewrite <- (wire_app cid). unfold wire.
  destruct (fold_left (wire_step cid) evs _) as [a [cs n]]. cbn. destruct (c =? cid); cbn; [done|].
  by rewrite app_nil_r, Nat.add_0_r.
Qed.

Lemma answered_none cid evs : Forall (λ ev, ev.1 ≠ cid) evs → answered cid evs = 0%nat.
Proof.
  induction evs as [|[c ev] evs IH] using rev_ind; [done|]. intros [HF Hc]%Forall_snoc_iff.
  destruct (wire_snoc cid evs c ev) as (_ & -> & _). by rewrite IH, (proj2 (Z.eqb_neq c cid)).
Qed.

Lemma request_of_mono cid b b' c : b <= b' → request_of cid b c → request_of cid b' c.
Proof. intros Hb (seq & Hs & Hc). exists seq. split; [lia|done]. Qed.

Lemma app_client_start cid : app_client app_start cid = mkAppClient 0 AtWrite.
Proof. unfold app_client, app_start. cbn. by rewrite lookup_empty. Qed.

Lemma wire_ok cid evs : wire_inv cid evs.
Proof.
  induction evs as [|[c ev] evs [IH1 IH2 IH3]] using rev_ind.
  { split; unfold app_run; cbn [fold_left]; rewrite ?app_client_start; cbn; [lia|done|constructor]. }
  destruct (wire_snoc cid evs c ev) as (E1 & E2 & E3).
  assert (IH3' : Forall (request_of cid (len (evs ++ [(c, ev)]))) (requests cid evs)).
  { eapply Forall_impl; [exact IH3|]. intros x. apply request_of_mono. rewrite length_app. lia. }
  destruct (Z.eqb_spec c cid) as [->|Hne].
  2: { split; rewrite ?E1, ?E2, ?E3, ?app_client_other, ?app_nil_r, ?Nat.add_0_r by done; [|done..].
    rewrite length_app. cbn. lia. }
  set (a := app_run evs app_start) in *. set (cl := app_client a cid) in *.
  assert (Hlen : len (evs ++ [(cid, ev)]) = len evs + 1) by (rewrite length_app; cbn; lia). rewrite Hlen in *.
  assert (Hreq : ∀ seq x, 0 <= seq <= len evs + 1 → x = write_command cid seq ∨ x = reg_command cid seq → request_of cid (len evs + 1) x).
  { intros seq x Hs Hx. by exists seq. }
  split; rewrite ?E1, ?E2, ?E3, ?Hlen; unfold app_step, sends, answers; fold a cl;
    destruct ev as [r|now|now r], (ac_phase cl) eqn:Ep; try destruct (app_resp r); try destruct (is_ok _);
    try destruct (app_reg_ops a <? REG_CAP) eqn:Er; try destruct (ac_seq cl mod 2 =? 0) eqn:Eq;
    rewrite ?app_client_set, ?app_nil_r, ?length_app; fold cl; rewrite ?Ep; cbn [ac_seq ac_phase pending length] in *; try lia; try done.
  all: apply Forall_app; split; [done|]; constructor; [|constructor]; eapply Hreq; eauto; lia.
Qed.

Lemma app_writes_step c ev a :
  app_writes (app_step c ev a) = app_writes a ∨
  ∃ r x, ev = AppWrite r ∧ app_resp r = Some x ∧ ac_phase (app_client a c) = AtWrite ∧
    app_writes (app_step c ev a) =
      <[app_key c (ac_seq (app_client a c) + 1) := app_val c (ac_seq (app_client a c) + 1)]> (app_writes a).
Proof.
  unfold app_step. destruct ev as [r|now|now r], (ac_phase (app_client a c)) eqn:Ep; try by left.
  - destruct (app_resp r) as [x|] eqn:Er; [|by left]. destruct (is_ok x); [right|by left]. by exists r, x.
  - destruct (app_resp r) as [x|] eqn:Er; [|by left]. left. by repeat case_match.
Qed.

Lemma elem_of_take_more {A} (x : A) n m l l' : x ∈ take n l → x ∈ take (n + m) (l ++ l').
Proof.
  intros (i & [Hi Hn]%lookup_take_Some)%list_elem_of_lookup. apply list_elem_of_lookup. exists i.
  apply lookup_take_Some. split; [by apply lookup_app_l_Some|lia].
Qed.

(** An acknowledged write is among the answered requests of its client. *)
Lemma acked_answered evs k v :
  app_writes (app_run evs app_start) !! k = Some v →
  ∃ cid seq, (∃ ev, (cid, ev) ∈ evs) ∧ 0 <= seq <= len evs ∧ k = app_key cid seq ∧ v = app_val cid seq ∧
    write_command cid seq ∈ take (answered cid evs) (requests cid evs).
Proof.
  revert k v; induction evs as [|[c ev] evs IH] using rev_ind; intros k v.
  { cbn. by rewrite lookup_empty. }
  destruct (wire_snoc c evs c ev) as (E1 & E2 & E3). rewrite Z.eqb_refl in E1, E2. rewrite E3.
  set (a := app_run evs app_start) in *.
  assert (Hold : app_writes a !! k = Some v → _) by exact (IH k v).
  assert (Hkeep : app_writes a !! k = Some v → ∃ cid seq, (∃ ev0, (cid, ev0) ∈ evs ++ [(c, ev)]) ∧ 0 <= seq <= len (evs ++ [(c, ev)]) ∧
    k = app_key cid seq ∧ v = app_val cid seq ∧ write_command cid seq ∈ take (answered cid (evs ++ [(c, ev)])) (requests cid (evs ++ [(c, ev)]))).
  { intros (cid & seq & [ev0 Hev] & Hs & -> & -> & Hin)%Hold. exists cid, seq. split_and!; [|lia|rewrite length_app; lia|done..|].
    { exists ev0. apply elem_of_app. by left. }
    destruct (wire_snoc cid evs c ev) as (F1 & F2 & _). rewrite F1, F2.
    by apply elem_of_take_more. }
  destruct (app_writes_step c ev a) as [->|(r & x & -> & Hr & Hp & ->)]; [done|].
  intros [[<- <-]|[_ Hk]]%lookup_insert_Some; [|auto]. pose proof (wi_seq _ _ (wire_ok c evs)) as Hs. fold a in Hs.
  exists c, (ac_seq (app_client a c) + 1). split_and!; [|lia|rewrite length_app; cbn; lia|done..|].
  { eexists. apply elem_of_app. right. constructor. }
  rewrite E1, E2, take_ge.
  - apply elem_of_app. right. unfold sends. rewrite Hp. constructor.
  - rewrite length_app, (wi_len _ _ (wire_ok c evs)). fold a. unfold sends, answers. rewrite Hp, Hr. cbn. lia.
Qed.

(** ** The protocol *)

(** Commands within the limits of a server. *)
Definition LIMIT : Z := 536870912.
Definition small (c : list bytes) : Prop := c ≠ [] ∧ Forall (fits LIMIT) c ∧ 24 * len c <= LIMIT.

(** The commands a server finds in a stream: the whole ones; what follows them is the beginning
    of one more. *)
Definition whole (b : bytes) (cmds : list (list bytes)) : Prop :=
  Forall small cmds ∧ ∃ c n, small c ∧ (n < length (app_request c))%nat ∧
    b = concat (map app_request cmds) ++ take n (app_request c).

Lemma data_inj x y : data x = data y → x = y.
Proof. revert y; induction x as [|b x IH]; intros [|b' y]; cbn; try done. intros [= -> E]. f_equal. by apply IH. Qed.

Lemma request_unique c c' x y :
  small c → small c' → app_request c ++ x = app_request c' ++ y → c = c' ∧ x = y.
Proof.
  intros (H1 & H2 & H3) (H1' & H2' & H3') E. set (conn := conn_text [] []).
  assert (HL : LIMIT <= ISIZE_MAX) by (unfold LIMIT; width_lia).
  pose proof (read_command_encoded LIMIT c conn (data x) H1 H2 H3 ltac:(lia)) as R.
  pose proof (read_command_encoded LIMIT c' conn (data y) H1' H2' H3' ltac:(lia)) as R'.
  rewrite <- data_app in R, R'. unfold app_request in E. rewrite E, R' in R. injection R as -> R.
  split; [done|]. symmetry. by apply data_inj.
Qed.

Lemma torn_unique c c' n x : small c → small c' → (n < length (app_request c))%nat → take n (app_request c) ≠ app_request c' ++ x.
Proof.
  intros Hc Hc' Hn E.
  assert (E' : app_request c ++ [] = app_request c' ++ (x ++ drop n (app_request c))).
  { rewrite app_assoc, <- E, app_nil_r. by rewrite take_drop. }
  apply request_unique in E' as [-> E']; [|done..]. symmetry in E'. apply app_nil in E' as [_ E'].
  apply (f_equal length) in E'. rewrite length_drop in E'. cbn [length] in E'. lia.
Qed.

Lemma whole_unique b cmds cmds' : whole b cmds → whole b cmds' → cmds = cmds'.
Proof.
  intros [HF (c & n & Hc & Hn & ->)] [HF' (c' & n' & Hc' & Hn' & E)].
  revert cmds' HF' E; induction HF as [|x cmds Hx _ IH]; intros [|x' cmds'] HF' E; [done|..]; cbn [map concat app] in E;
    rewrite <- ?app_assoc in E.
  - exfalso. apply Forall_cons in HF' as [Hx' _]. by eapply (torn_unique c x' n).
  - exfalso. symmetry in E. by eapply (torn_unique c' x n').
  - apply Forall_cons in HF' as [Hx' HF']. apply request_unique in E as [-> E]; [|done..]. f_equal. by apply IH.
Qed.

(** Connections served at once: their commands in any order that keeps each connection's. *)
Inductive interleaving {A} : list (list A) → list A → Prop :=
  | il_done ls : Forall (λ l, l = []) ls → interleaving ls []
  | il_step ls1 x l ls2 L : interleaving (ls1 ++ l :: ls2) L → interleaving (ls1 ++ (x :: l) :: ls2) (x :: L).

Lemma interleaving_perm {A} (ls : list (list A)) L : interleaving ls L → L ≡ₚ concat ls.
Proof.
  induction 1 as [ls HF|ls1 x l ls2 L _ IH].
  - induction HF as [|l ls -> _ IH]; [done|]. exact IH.
  - rewrite IH, !concat_app. cbn. by rewrite Permutation_middle.
Qed.

(** ** The clients' commands *)

Definition NCLIENTS : Z := 8.
Definition MAX_STEPS : Z := 10 ^ 18.

Lemma app_key_inj c s c' s' :
  is_i64 c → is_i64 c' → is_i64 s → is_i64 s' → app_key c s = app_key c' s' → c = c' ∧ s = s'.
Proof.
  intros Hc Hc' Hs Hs' E. unfold app_key in E. apply (inj (app (bs "w:"))) in E.
  change (bs ":") with [COLON] in E. cbn [app] in E. apply split_last_sep in E as [E1 E2]; [|apply to_string_no_colon..].
  split; by apply to_string_inj.
Qed.

Lemma small_short c : c ≠ [] → Forall (λ x, len x <= 100) c → len c <= 100 → small c.
Proof.
  intros Hne HF Hl. split_and!; [done| |unfold LIMIT; lia]. eapply Forall_impl; [done|]. cbn. intros x Hx.
  unfold fits, LIMIT. width_lia.
Qed.

(** A command the program sends: it waits for the server with [PING]. *)
Definition sendable (c : list bytes) : Prop :=
  c = [bs "PING"] ∨ ∃ cid seq, 0 <= cid < NCLIENTS ∧ 0 <= seq <= MAX_STEPS ∧ (c = write_command cid seq ∨ c = reg_command cid seq).

Lemma sendable_small c : sendable c → small c.
Proof.
  intros [->|(cid & seq & Hc & Hs & Hor)]; [apply small_short; [done|by repeat constructor|cbn; lia]|].
  unfold NCLIENTS, MAX_STEPS in *.
  pose proof (length_to_string cid ltac:(width_lia)). pose proof (length_to_string seq ltac:(width_lia)).
  pose proof (length_to_string (app_val cid seq) ltac:(unfold app_val; width_lia)).
  destruct Hor as [->| ->]; [|unfold reg_command; case_match]; apply small_short; try done; repeat constructor; cbn; try lia.
  unfold app_key. rewrite !length_app. cbn. lia.
Qed.

(** ** The application *)

(** A server of which only the string commands are known: [view] is what it stores. *)
Record stores {Server : Type} (empty : Server) (exec : Server → list bytes → Server) (view : Server → gmap bytes bytes) : Prop := {
  st_empty : view empty = ∅;
  st_set : ∀ s k v, view (exec s [bs "SET"; k; v]) = <[k := v]> (view s);
  st_get : ∀ s k, view (exec s [bs "GET"; k]) = view s;
  st_ping : ∀ s, view (exec s [bs "PING"]) = view s;
}.

Section Application.
Context {Server : Type} (empty : Server) (exec : Server → list bytes → Server) (view : Server → gmap bytes bytes).
Context (Hstores : stores empty exec view).

(** Whatever else the program sent and in whatever order, a key it wrote has its value: no two
    writes share a key. *)
Lemma written_found L cid seq :
  Forall sendable L → 0 <= cid < NCLIENTS → 0 <= seq <= MAX_STEPS → write_command cid seq ∈ L →
  view (fold_left exec L empty) !! app_key cid seq = Some (to_string (app_val cid seq)).
Proof.
  intros HF Hc Hs. induction L as [|c L IH] using rev_ind; [by intros ?%elem_of_nil|].
  apply Forall_snoc_iff in HF as [HF Hsend]. rewrite fold_left_snoc. set (s := fold_left exec L empty) in *.
  intros Hin. destruct (decide (c = write_command cid seq)) as [->|Hne].
  { unfold write_command. by rewrite (st_set _ _ _ Hstores), lookup_insert_eq. }
  apply elem_of_app in Hin as [Hin|Hin%list_elem_of_singleton]; [|done]. specialize (IH HF Hin).
  destruct Hsend as [->|(cid' & seq' & Hc' & Hs' & [->| ->])].
  - by rewrite (st_ping _ _ _ Hstores).
  - unfold write_command. rewrite (st_set _ _ _ Hstores), lookup_insert_ne; [done|]. intros E. apply Hne.
    unfold NCLIENTS, MAX_STEPS in *. apply app_key_inj in E as [-> ->]; [done|width_lia..].
  - unfold reg_command. case_match; [|by rewrite (st_get _ _ _ Hstores)].
    rewrite (st_set _ _ _ Hstores), lookup_insert_ne; done.
Qed.

(** Reading back keys that are all there with their values finds nothing lost or torn. *)
Lemma app_verify_clean (m : gmap bytes bytes) acked :
  (∀ k v, (k, v) ∈ acked → is_i64 v ∧ m !! k = Some (to_string v)) →
  app_verify acked (map (λ kv, Some (to_bytes (Bulk (m !! kv.1)))) acked) 0 0 = Some (0, 0).
Proof.
  induction acked as [|[k v] acked IH]; intros H; [done|]. cbn [map app_verify head fst mjoin option_join tail].
  destruct (H k v) as [Hv Hk]; [left|]. rewrite Hk. unfold app_resp. cbn [mbind option_bind].
  rewrite decide_False by done. rewrite take_ge by (pose proof (length_bulk_int v Hv); lia). cbn [mbind option_bind].
  rewrite bulk_not_nil. destruct (parse_get_reply v Hv) as [-> _]. rewrite Z.eqb_refl. apply IH. intros. apply H. by right.
Qed.
End Application.

(** ** The check *)

(** What the first server received over one connection: nothing, requests of one client, or
    the program's questions whether it is up; the last may be cut. *)
Definition received (evs : list (Z * AppEvent)) (b : bytes) : Prop :=
  b = [] ∨ (∃ cid m, 0 <= cid < NCLIENTS ∧ whole b (take m (requests cid evs))) ∨ ∃ m, whole b (replicate m [bs "PING"]).

(** The calls of a server that receives what the clients send and answers what it received. *)
Definition serves (evs : list (Z * AppEvent)) (cs : list Call) : Prop :=
  (∀ i c fd, cs !! i = Some c → mark_fd c = Some fd → received evs (lifetime fd (drop (S i) cs))) ∧
  (∀ cid, 0 <= cid < NCLIENTS → answered cid evs ≠ 0%nat → ∃ i c fd m,
     cs !! i = Some c ∧ mark_fd c = Some fd ∧ (answered cid evs ≤ m)%nat ∧
     whole (lifetime fd (drop (S i) cs)) (take m (requests cid evs))).

(** Both servers start and answer, and the replay runs. *)
Definition healthy (env : AppEnv) : Prop :=
  ae_spawn env = true ∧ wait_up 100 (ae_up env) = true ∧ ae_respawn env = true ∧
  wait_up 100 (ae_up_again env) = true ∧ ae_connect env = true.

Lemma elem_of_concat {A} (x : A) ls : x ∈ concat ls ↔ ∃ l, x ∈ l ∧ l ∈ ls.
Proof. rewrite list_elem_of_In, in_concat. setoid_rewrite list_elem_of_In. split; intros (l & ? & ?); eauto. Qed.

Section Check.
Context (evs : list (Z * AppEvent)) (cs : list Call) (sent : list (Z * bytes)) (executed : list (list (list bytes))).
Context (Hids : ∀ cid ev, (cid, ev) ∈ evs → 0 <= cid < NCLIENTS) (Hlen : len evs <= MAX_STEPS) (Hserves : serves evs cs).
Context (Hsent : ∀ k b, (k, b) ∈ sent ↔ b ≠ [] ∧ ∃ i c fd,
  cs !! i = Some c ∧ mark_fd c = Some fd ∧ k = 1 + marks (take i cs) ∧ b = lifetime fd (drop (S i) cs)).
Context (Hexec : Forall2 (λ st cmds, whole st.2 cmds) sent executed).

Lemma executed_sendable c : c ∈ concat executed → sendable c.
Proof.
  intros (cmds & Hc & Hin)%elem_of_concat. apply list_elem_of_lookup in Hin as [i Hi].
  destruct (Forall2_lookup_r _ _ _ _ _ Hexec Hi) as ([k b] & Hst & Hw). cbn [snd] in Hw.
  apply list_elem_of_lookup_2, Hsent in Hst as (Hne & i' & c' & fd & Hc' & Hfd & _ & ->).
  destruct (proj1 Hserves i' c' fd Hc' Hfd) as [?|[(cid & m & Hcid & Hw')|[m Hw']]]; [done|..];
    rewrite (whole_unique _ _ _ Hw Hw') in Hc.
  - right. assert (Hf : Forall (request_of cid (len evs)) (take m (requests cid evs))) by apply Forall_take, wire_ok.
    rewrite Forall_forall in Hf. destruct (Hf c Hc) as (seq & Hs & Hor). exists cid, seq. split_and!; [lia..|done].
  - left. by apply elem_of_replicate_inv in Hc.
Qed.

Lemma acked_executed k v :
  app_writes (app_run evs app_start) !! k = Some v →
  ∃ cid seq, 0 <= cid < NCLIENTS ∧ 0 <= seq <= MAX_STEPS ∧ k = app_key cid seq ∧ v = app_val cid seq ∧
    write_command cid seq ∈ concat executed.
Proof.
  intros (cid & seq & [ev Hev] & Hs & -> & -> & Hin)%acked_answered. exists cid, seq.
  pose proof (Hids cid ev Hev) as Hcid. split_and!; [lia..|done|done|].
  assert (Ha : answered cid evs ≠ 0%nat) by (intros E; rewrite E in Hin; by apply elem_of_nil in Hin).
  destruct (proj2 Hserves cid Hcid Ha) as (i & c & fd & m & Hc & Hfd & Hm & Hw).
  assert (Hin' : write_command cid seq ∈ take m (requests cid evs)).
  { replace m with (answered cid evs + (m - answered cid evs))%nat by lia. rewrite <- (app_nil_r (requests cid evs)).
    by apply elem_of_take_more. }
  assert (Hst : (1 + marks (take i cs), lifetime fd (drop (S i) cs)) ∈ sent).
  { apply Hsent. split; [|by exists i, c, fd]. intros E. destruct Hw as [_ (c0 & n & _ & _ & E')]. rewrite E in E'.
    destruct (take m (requests cid evs)); [by apply elem_of_nil in Hin'|done]. }
  apply list_elem_of_lookup in Hst as [j Hj]. destruct (Forall2_lookup_l _ _ _ _ _ Hexec Hj) as (cmds & Hcm & Hw').
  cbn [snd] in Hw'. apply elem_of_concat. exists cmds. split; [|by eapply list_elem_of_lookup_2].
  by rewrite (whole_unique _ _ _ Hw' Hw).
Qed.
End Check.

(** C4: The check of an application finds every acknowledged write. A server that stores what
    [SET] gives it runs under the interception library with the program's clients, in whatever
    order they take their steps, and is killed, possibly within a record of the capture. The
    replay tool, called the way the program calls it, succeeds; and when a new server has
    executed the whole commands of its connections, in any interleaving, the program reads
    back every acknowledged write: none is lost and none is torn, and it exits with 0 exactly
    when the register's history is linearizable. *)
Theorem app_check_durable {Server : Type} (empty : Server) exec view args env port so fs rt mono cs c n read delivered :
  let evs := ae_before env ++ ae_after env in
  let e := environ_of (redis_vars so (Some (cap_path port)) (Some (vclock_path port))) in
  let sh := (shim_run cs (ob_ctor e (app_clean port fs) rt mono)).2 in
  let writes := map_to_list (app_writes (app_run evs app_start)) in
  stores empty exec view → app_port args = Some port → healthy env →
  (∀ cid ev, (cid, ev) ∈ evs → 0 <= cid < NCLIENTS) → len evs <= MAX_STEPS →
  Forall wf_call (cs ++ [c]) → marks cs < 2 ^ 32 - 1 → serves evs cs →
  (n = 0 ∨ n < record_size (cap_path port) c sh)%nat →
  read (cap_path port) = Some (killed_log (cap_path port) c n sh) → (∀ k, delivered k = true) →
  ∃ sent report, ob_replay (replay_cmd port) read delivered = Some (sent, report) ∧
    ∀ executed L st r,
      Forall2 (λ st cmds, whole st.2 cmds) sent executed → interleaving executed L → ae_replay env = Some st →
      ae_reads env = map (λ kv, Some (to_bytes (Bulk (view (fold_left exec L empty) !! kv.1)))) writes →
      ae_last env = Some r → r ≠ [] →
      ∃ acked history lin, ob_app_jepsen args env = AppChecked acked st (len writes) 0 0 history lin ∧
        app_status (ob_app_jepsen args env) = if (lin : bool) then 0 else 1.
Proof.
  intros evs e sh writes Hst Hport (E1 & E2 & E3 & E4 & E5) Hids Hlen HF Hm Hserves Hn Hread Hdel.
  destruct (app_processes so port fs) as (He & Hfs & Hargs & _).
  destruct (replay_of_killed e (cap_path port) (app_clean port fs) rt mono cs c n (replay_cmd port) read delivered)
    as [total Hr]; [done..|by rewrite Hargs|done|done|].
  set (sent := map _ _) in Hr. eexists sent, _. split; [exact Hr|]. intros executed L st r Hexec Hil Hstat Hreads Hlast Hrne.
  assert (Hsent : ∀ k b, (k, b) ∈ sent ↔ b ≠ [] ∧ ∃ i c fd,
    cs !! i = Some c ∧ mark_fd c = Some fd ∧ k = 1 + marks (take i cs) ∧ b = lifetime fd (drop (S i) cs)).
  { intros k b. by apply sent_iff. }
  pose proof (interleaving_perm _ _ Hil) as HL.
  assert (HFL : Forall sendable L).
  { rewrite HL. apply Forall_forall. intros x. by eapply executed_sendable. }
  assert (Hv : app_verify writes (ae_reads env) 0 0 = Some (0, 0)).
  { rewrite Hreads. apply app_verify_clean. intros k v Hkv%elem_of_map_to_list.
    destruct (acked_executed evs cs sent executed Hids Hlen Hserves Hsent Hexec k v Hkv) as (cid & seq & Hc & Hs & -> & -> & Hin).
    split; [unfold app_val, NCLIENTS, MAX_STEPS in *; width_lia|].
    apply (written_found empty exec view Hst); try done. by rewrite HL. }
  assert (Hrun : app_run (ae_after env) (app_run (ae_before env) app_start) = app_run evs app_start).
  { unfold evs, app_run. by rewrite fold_left_app. }
  assert (Hlr : app_resp (ae_last env) = Some (take 256 r)) by (rewrite Hlast; unfold app_resp; cbn; by rewrite decide_False).
  eexists _, _, _. unfold ob_app_jepsen. rewrite Hport, E1, E2, E3, E4, E5, Hstat, Hrun. fold writes. rewrite Hv, Hlr. done.
Qed.

(** One client writes once, is answered, and reads the register when the server is killed in the
    record of that request. *)
Definition plain_exec (m : gmap bytes bytes) (c : list bytes) : gmap bytes bytes :=
  match c with [a; k; v] => if bool_decide (a = bs "SET") then <[k := v]> m else m | _ => m end.
Definition pong_w : list (option (option bytes)) := [None; Some (Some (bs "+PONG" ++ CRLF))].
Definition app_env_w : AppEnv :=
  mkAppEnv true pong_w [(0, AppWrite (Some (bs "+OK" ++ CRLF)))] [(0, AppInvoke 5); (0, AppReply 6 None)] true pong_w
    (Some 0) true [Some (to_bytes (Bulk (Some (to_string 1))))] 7 (Some (to_bytes (Bulk None))) 8.
Definition app_calls_w : list Call :=
  [Bind 3 0; Accept 4; Recv 4 (Some (app_request [bs "PING"])) 0; Close 4 0;
   Accept 4; Recv 4 (Some (app_request (write_command 0 1))) 0].
Definition torn_w : Call := Recv 4 (Some (app_request (reg_command 0 1))) 0.

Lemma plain_stores : stores (∅ : gmap bytes bytes) plain_exec id.
Proof. split; intros; unfold plain_exec; cbn; try done. Qed.

Lemma whole_exact cmds : Forall small cmds → whole (concat (map app_request cmds)) cmds.
Proof.
  intros HF. split; [done|]. exists [bs "PING"], 0%nat. split_and!; [apply sendable_small; by left|cbn; lia|].
  cbn [take]. by rewrite app_nil_r.
Qed.

(** The requests it received, by connection, and what the clients had sent. *)
Lemma serves_w : serves (ae_before app_env_w ++ ae_after app_env_w) app_calls_w.
Proof.
  assert (Hone : ∀ c, sendable c → whole (app_request c) [c]).
  { intros c Hc. assert (E : app_request c = concat (map app_request [c])) by (cbn [map concat]; by rewrite app_nil_r).
    rewrite E. apply whole_exact. constructor; [by apply sendable_small|constructor]. }
  assert (Hp : whole (app_request [bs "PING"]) (replicate 1 [bs "PING"])) by (apply Hone; by left).
  assert (Hreq : take 1 (requests 0 (ae_before app_env_w ++ ae_after app_env_w)) = [write_command 0 1]) by (by vm_compute).
  assert (Hw : whole (app_request (write_command 0 1)) (take 1 (requests 0 (ae_before app_env_w ++ ae_after app_env_w)))).
  { rewrite Hreq. apply Hone. right. exists 0, 1. unfold NCLIENTS, MAX_STEPS. split_and!; [lia..|by left]. }
  assert (L0 : lifetime 3 (drop 1 app_calls_w) = []) by (by vm_compute).
  assert (L1 : lifetime 4 (drop 2 app_calls_w) = app_request [bs "PING"]) by (by vm_compute).
  assert (L4 : lifetime 4 (drop 5 app_calls_w) = app_request (write_command 0 1)) by (by vm_compute).
  assert (Hmarks : ∀ i c fd, app_calls_w !! i = Some c → mark_fd c = Some fd →
    (i = 0%nat ∧ fd = 3) ∨ (i = 1%nat ∧ fd = 4) ∨ (i = 4%nat ∧ fd = 4)).
  { intros i c fd Hi Hfd. do 6 (destruct i as [|i]; [injection Hi as <-; cbn in Hfd; try done; injection Hfd as <-; auto|]). done. }
  split.
  - intros i c fd Hi Hfd. destruct (Hmarks i c fd Hi Hfd) as [[-> ->]|[[-> ->]|[-> ->]]].
    + left. exact L0.
    + right. right. exists 1%nat. rewrite L1. exact Hp.
    + right. left. exists 0, 1%nat. rewrite L4. by split.
  - intros cid Hc Ha. destruct (decide (cid = 0)) as [->|Hne].
    + exists 4%nat, (Accept 4), 4, 1%nat. rewrite L4. split_and!; [done|done| |exact Hw]. vm_compute. lia.
    + destruct Ha. apply answered_none. repeat constructor; cbn; congruence.
Qed.

Lemma app_check_durable_witness :
  let sh := (shim_run app_calls_w (ob_ctor (environ_of (redis_vars (bs "so") (Some (cap_path 6650)) (Some (vclock_path 6650))))
    (app_clean 6650 ∅) 0 0)).2 in
  let log := killed_log (cap_path 6650) torn_w 11 sh in
  ∃ sent report,
    ob_replay (replay_cmd 6650) (λ f, if bool_decide (f = cap_path 6650) then Some log else None) (λ _, true) = Some (sent, report) ∧
    ∀ executed L st r,
      Forall2 (λ st cmds, whole st.2 cmds) sent executed → interleaving executed L → ae_replay app_env_w = Some st →
      ae_reads app_env_w = map (λ kv, Some (to_bytes (Bulk ((fold_left plain_exec L ∅ : gmap bytes bytes) !! kv.1)))) [(app_key 0 1, 1)] →
      ae_last app_env_w = Some r → r ≠ [] →
      ∃ acked history lin, ob_app_jepsen [] app_env_w = AppChecked acked st 1 0 0 history lin ∧
        app_status (ob_app_jepsen [] app_env_w) = if (lin : bool) then 0 else 1.
Proof.
  apply (app_check_durable ∅ plain_exec id [] app_env_w 6650 (bs "so") ∅ 0 0 app_calls_w torn_w 11).
  - apply plain_stores.
  - reflexivity.
  - split_and!; reflexivity.
  - intros cid ev Hin. unfold NCLIENTS. repeat (apply elem_of_cons in Hin as [[= -> ->]|Hin]; [lia|]). by apply elem_of_nil in Hin.
  - vm_compute. done.
  - apply Forall_app. split; repeat first [apply Forall_nil_2 | apply Forall_cons_2; [by vm_compute|]].
  - vm_compute. done.
  - apply serves_w.
  - right. vm_compute. lia.
  - reflexivity.
  - done.
Defined.

(** The premises about the new server hold too: it executes the two connections' commands. *)
Example app_check_served_w :
  let m := fold_left plain_exec [[bs "PING"]; write_command 0 1] ∅ in
  interleaving [[[bs "PING"]]; [write_command 0 1]] [[bs "PING"]; write_command 0 1] ∧
  ae_reads app_env_w = map (λ kv, Some (to_bytes (Bulk ((m : gmap bytes bytes) !! kv.1)))) [(app_key 0 1, 1)].
Proof.
  split; [|by vm_compute]. apply (il_step []), (il_step [[]]). cbn. constructor. by repeat constructor.
Qed.

(** ** The register *)

(** The log holds the requests of all connections in the order they arrived, the replay sends the
    connections at once. Two clients wrote the register one after the other; an order of the
    replay ends with the older value, and the check reports a history that is not
    linearizable, although the first server's was. *)
Theorem replay_reorders_register :
  let set v := [bs "SET"; bs "reg"; to_string v] in
  let calls := [Bind 3 0; Accept 4; Accept 5; Recv 4 (Some (app_request (set 1000002))) 0; Recv 5 (Some (app_request (set 2000002))) 0] in
  let log := files (shim_run calls (ob_ctor env_w ∅ 0 0)).2 !! bs "cap" in
  let h v := [mkLinOp 1 (Write 1000002) 0 1; mkLinOp 2 (Write 2000002) 2 3; mkLinOp 999 (Read v) 10 11] in
  (log ≫= replay_streams) = Some [(2, app_request (set 1000002)); (3, app_request (set 2000002))] ∧
  (∃ L, interleaving [[set 1000002]; [set 2000002]] L ∧
     (fold_left plain_exec L ∅ : gmap bytes bytes) !! bs "reg" = Some (to_string 1000002)) ∧
  is_linearizable (h 1000002) 0 = false ∧ is_linearizable (h 2000002) 0 = true.
Proof.
  intros set calls log h. split_and!; [by vm_compute| |by vm_compute..].
  exists [set 2000002; set 1000002]. split; [|by vm_compute].
  apply (il_step [[set 1000002]] (set 2000002) [] []), (il_step [] (set 1000002) [] [[]]). constructor. by repeat constructor.
Qed.
