(* ===== verification/Recovery.v ===== *)
(** * Recovery: the analytic model of recovery time ([crates/onebarrier/src/recovery.rs])

    Recovery time against the live arrival rate, in binary64. *)

From Stdlib Require Import Floats.SpecFloat.
From S2P Require Import Prelude F64.
Local Open Scope Z_scope.

Record RecoveryParams := mkRecoveryParams {
  detect_us : f64; fetch_restore_us : f64; rejoin_us : f64; replay_rate : f64; snap_interval_us : f64 }.

Definition recovery_default : RecoveryParams :=
  mkRecoveryParams (f64_of_u64 200) (f64_of_u64 500) (f64_of_u64 6) (f64_of_u64 4) (f64_of_u64 5000).

Definition downtime (p : RecoveryParams) : f64 := f64_add (detect_us p) (fetch_restore_us p).
Definition eff_live (live_rate : f64) (backpressure : bool) : f64 :=
  if backpressure then f64_mul live_rate (f64_lit 5 1) else live_rate.
(** How long operations piled up before replay starts: the snapshot's age and the downtime. *)
Definition stale (p : RecoveryParams) : f64 :=
  f64_add (f64_div (snap_interval_us p) (f64_of_u64 2)) (downtime p).

(** [None]: the replica never catches up. *)
Definition recovery_time_us (p : RecoveryParams) (live_rate : f64) (backpressure : bool) : option f64 :=
  let eff := eff_live live_rate backpressure in
  let s := f64_div (replay_rate p) eff in
  if f64_le s (f64_of_u64 1) then None
  else
    let backlog := f64_mul eff (stale p) in
    let t_replay := f64_div backlog (f64_sub (replay_rate p) eff) in
    Some (f64_add (f64_add (downtime p) t_replay) (rejoin_us p)).

Record RecoveryRow := mkRow { row_live_rate : f64; plain_us : option f64; backpressure_us : option f64 }.

Definition sweep (p : RecoveryParams) (rates : list f64) : list RecoveryRow :=
  map (λ r, mkRow r (recovery_time_us p r false) (recovery_time_us p r true)) rates.

(** ** Lemmas *)

(** A rounded quotient is above one exactly when the dividend is above the divisor. *)
Lemma div_gt_one x y a b :
  denotes x a → denotes y b → 0 < b < INF → a < INF → b < a → 2 ^ 1074 < div_round a b.
Proof.
  intros Hx Hy Hb Ha Hlt.
  destruct (positive_finite y b Hy Hb) as (m & e & -> & Eb & Hvy).
  destruct (positive_finite x a Hx ltac:(lia)) as (m' & e' & -> & Ea & Hvx).
  pose proof (valid_bounds _ _ _ Hvy) as (Hm & He & _).
  assert (Hgap : b + 2 ^ (e + 1074) <= a).
  { assert (Hee : e <= e').
    { destruct (Z.le_gt_cases e e') as [|Hgt]; [done|]. exfalso. pose proof (magnitude_compare _ _ _ _ _ _ Hvx Hvy) as E.
      rewrite (proj2 (Z.compare_lt_iff e' e)) in E by lia. symmetry in E. apply (proj1 (Z.compare_lt_iff _ _)) in E. rewrite <- Ea, <- Eb in E.
      lia. }
    pose proof (valid_bounds _ _ _ Hvx) as (_ & He' & _).
    replace (e' + 1074) with (e' - e + (e + 1074)) in Ea by lia. rewrite (Z.pow_add_r 2 (e' - e)), Z.mul_assoc in Ea by lia.
    assert (0 < 2 ^ (e + 1074)) by lia. assert (Zpos m < Zpos m' * 2 ^ (e' - e)).
    { apply (Z.mul_lt_mono_pos_r (2 ^ (e + 1074))); lia. }
    rewrite Ea, Eb. trans ((Zpos m + 1) * 2 ^ (e + 1074)); [lia|]. apply Z.mul_le_mono_nonneg_r; lia. }
  unfold div_round. rewrite (proj2 (Z.eqb_neq a INF)) by lia.
  apply Z.lt_le_trans with (Z.min (rnd (2 ^ 53 * 2 ^ 1074) (2 ^ 53 - 1)) INF); [by vm_compute|].
  apply Z.min_le_compat_r, rnd_mono; [lia..|].
  assert (Hb53 : b <= (2 ^ 53 - 1) * 2 ^ (e + 1074)) by (rewrite Eb; apply Z.mul_le_mono_nonneg_r; lia).
  lia.
Qed.

Lemma div_le_one a b : 0 < b → a <= b → a < INF → 0 <= a → div_round a b <= 2 ^ 1074.
Proof.
  intros Hb Hab Ha H0. unfold div_round. rewrite (proj2 (Z.eqb_neq a INF)) by lia.
  etrans; [apply Z.le_min_l|]. replace (2 ^ 1074) with (rnd (1 * 2 ^ 1074 * 1) 1) at 2 by (rewrite rnd_exact; lia).
  apply rnd_mono; nia.
Qed.

(** The test [s <= 1.0] compares the two rates exactly. *)
Lemma slowdown_test x y a b :
  denotes x a → denotes y b → 0 < a < INF → 0 < b < INF →
  f64_le (f64_div x y) (f64_of_u64 1) = f64_le x y.
Proof.
  intros Hx Hy Ha Hb. rewrite (f64_le_denotes x y a b Hx Hy).
  rewrite (f64_le_denotes _ _ (div_round a b) (2 ^ 1074)); [|apply f64_div_nonneg; (done || lia)|apply denotes_one].
  apply eq_bool_prop_intro. rewrite !Is_true_true, !Z.leb_le. split; intros H; [|apply div_le_one; lia].
  destruct (Z.le_gt_cases a b) as [|Hgt]; [done|]. pose proof (div_gt_one x y a b Hx Hy Hb ltac:(lia) Hgt). lia.
Qed.

Lemma round_zero_sign s m e l s' : binary_round_aux 53 1024 s m e l = S754_zero s' → s' = s.
Proof. unfold binary_round_aux. repeat case_match; intros [= ?]; congruence. Qed.

(** The effective rate: not above the live rate; a zero is a positive zero. *)
Lemma eff_live_denotes live v bp :
  denotes live v → 0 < v < INF →
  ∃ b, denotes (eff_live live bp) b ∧ 0 <= b <= v ∧ eff_live live bp ≠ S754_zero true.
Proof.
  intros Hl Hv. destruct bp; [|exists v; split_and!; try done; [lia..|]].
  2: { cbn [eff_live]. intros E. rewrite E in Hl. destruct Hl as [_ [= ?]]. lia. }
  assert (Hh : denotes (f64_lit 5 1) (2 ^ 1073)) by (split; [done|by vm_compute]).
  assert (Hc : 0 < 2 ^ 1073 < INF) by (split; [lia|by vm_compute]).
  eexists. split; [apply f64_mul_pos; [exact Hl|exact Hh|done..]|]. split_and!.
  - apply Z.min_glb; [|lia]. change 0 with (rnd 0 1). apply rnd_mono; lia.
  - pose proof (sround_denotes live v Hl) as E. rewrite sround_nonneg in E by lia. rewrite <- E at 2.
    apply Z.min_le_compat_r, rnd_mono; [lia..|]. change (2 ^ 1074) with (2 * 2 ^ 1073). nia.
  - destruct (positive_finite live v Hl Hv) as (m & e & -> & _ & _). intros E. cbn in E.
    by apply round_zero_sign in E.
Qed.

Section Time.
Context (p : RecoveryParams) (a sd dn rj : Z).
Context (Ha : denotes (replay_rate p) a) (Hpos : 0 < a < INF).
Context (Hs : denotes (stale p) sd) (Hsd : 0 <= sd < INF).
Context (Hd : denotes (downtime p) dn) (Hdn : 0 <= dn).
Context (Hr : denotes (rejoin_us p) rj) (Hrj : 0 <= rj).

(** The recovery time in units, from the effective rate. *)
Definition time_at (b : Z) : Z :=
  add_round (add_round dn (div_round (Z.min (rnd (b * sd) (2 ^ 1074)) INF) (sub_round a b))) rj.

Lemma headroom b : 0 <= b < a → 0 < sub_round a b <= a.
Proof.
  intros Hb. unfold sub_round. rewrite (proj2 (Z.eqb_neq a INF)) by lia. pose proof INF_pos. split.
  - apply Z.min_glb_lt; [|done]. apply Z.lt_le_trans with (rnd 1 1); [done|]. apply rnd_mono; lia.
  - pose proof (sround_denotes _ a Ha) as E. rewrite sround_nonneg in E by lia. rewrite <- E at 2.
    apply Z.min_le_compat_r, rnd_mono; lia.
Qed.

Lemma backlog_nonneg b : 0 <= b → 0 <= Z.min (rnd (b * sd) (2 ^ 1074)) INF.
Proof.
  intros. pose proof INF_pos. apply Z.min_glb; [|lia]. change 0 with (rnd 0 1) at 1. apply rnd_mono; nia.
Qed.

Lemma time_at_mono b b' : 0 <= b <= b' → b' < a → time_at b <= time_at b'.
Proof.
  intros Hb Hb'. unfold time_at. pose proof (headroom b ltac:(lia)). pose proof (headroom b' ltac:(lia)).
  pose proof (backlog_nonneg b ltac:(lia)). pose proof (backlog_nonneg b' ltac:(lia)).
  apply add_round_mono; [|lia]. split; [apply add_round_nonneg; [done|apply div_round_nonneg; lia]|].
  apply add_round_mono; [lia|]. split; [apply div_round_nonneg; lia|].
  apply div_round_mono; [split; [done|]|lia|split; [lia|]].
  - apply Z.min_le_compat_r, rnd_mono; nia.
  - unfold sub_round. rewrite (proj2 (Z.eqb_neq a INF)) by lia. apply Z.min_le_compat_r, rnd_mono; lia.
Qed.

Lemma recovery_time_denotes live bp b :
  denotes (eff_live live bp) b → 0 <= b → eff_live live bp ≠ S754_zero true → b < INF →
  if a <=? b then recovery_time_us p live bp = None
  else ∃ t, recovery_time_us p live bp = Some t ∧ denotes t (time_at b).
Proof.
  intros Hb H0 Hz HI. unfold recovery_time_us. set (x := eff_live live bp) in *.
  assert (Htest : f64_le (f64_div (replay_rate p) x) (f64_of_u64 1) = (a <=? b)).
  { destruct (Z.eq_dec b 0) as [->|].
    - apply denotes_zero in Hb as [[] E]; [done|]. rewrite E. rewrite (proj2 (Z.leb_gt a 0)) by lia.
      by destruct (positive_finite _ a Ha Hpos) as (m & e & -> & _ & _).
    - rewrite (slowdown_test _ _ a b); [|done..|lia]. by apply f64_le_denotes. }
  rewrite Htest. destruct (Z.leb_spec a b) as [|Hlt]; [done|]. eexists. split; [done|].
  pose proof (headroom b ltac:(lia)). pose proof (backlog_nonneg b H0).
  apply f64_add_nonneg; [|done|apply add_round_nonneg; [done|apply div_round_nonneg; lia]|done].
  apply f64_add_nonneg; [done| |done|apply div_round_nonneg; lia].
  apply f64_div_nonneg; [by apply f64_mul_nonneg| |done|lia]. apply f64_sub_nonneg; (done || lia).
Qed.
End Time.

(** Rates and times that are finite and not negative; their sums do not overflow. *)
Definition params_ok (p : RecoveryParams) : bool :=
  fnonneg (detect_us p) && fnonneg (fetch_restore_us p) && fnonneg (rejoin_us p) && fpos (replay_rate p) &&
  fnonneg (stale p).

(** C39: When recovery converges. With finite rates and times, the model reports
    livelock exactly when the replay rate is not above the effective live rate: the
    rounding of the division [replay_rate / eff_live] never changes the verdict. With
    back-pressure recovery converges whenever it does without, and its time is never
    longer. *)
Theorem recovery_converges p live :
  params_ok p = true → fpos live = true →
  (recovery_time_us p live false = None ↔ f64_le (replay_rate p) live = true) ∧
  (recovery_time_us p live true = None ↔ f64_le (replay_rate p) (eff_live live true) = true) ∧
  (∀ t, recovery_time_us p live false = Some t →
     ∃ t', recovery_time_us p live true = Some t' ∧ f64_le t' t = true).
Proof.
  intros Hp (v & Hv & Hv')%fpos_denotes. unfold params_ok in Hp. rewrite !andb_true_iff in Hp.
  destruct Hp as [[[[(d1 & Hd1 & Hd1')%fnonneg_denotes (d2 & Hd2 & Hd2')%fnonneg_denotes]
    (rj & Hr & Hr')%fnonneg_denotes] (a & Ha & Ha')%fpos_denotes] (sd & Hs & Hs')%fnonneg_denotes].
  pose proof (f64_add_nonneg _ _ _ _ Hd1 Hd2 ltac:(lia) ltac:(lia)) as Hd.
  pose proof (add_round_nonneg d1 d2 ltac:(lia) ltac:(lia)) as Hdn.
  destruct (eff_live_denotes live v false Hv Hv') as (b & Hb & Bb & Zb).
  destruct (eff_live_denotes live v true Hv Hv') as (b' & Hb' & Bb' & Zb').
  pose proof (recovery_time_denotes p a sd (add_round d1 d2) rj Ha Ha' Hs Hs' Hd Hdn Hr ltac:(lia) live) as H.
  pose proof (H false b Hb ltac:(lia) Zb ltac:(lia)) as F. pose proof (H true b' Hb' ltac:(lia) Zb' ltac:(lia)) as T.
  rewrite (f64_le_denotes _ _ a b' Ha Hb'). change live with (eff_live live false) at 2.
  rewrite (f64_le_denotes _ _ a b Ha Hb).
  assert (b = v) as -> by (destruct Hb as [_ Hb], Hv as [_ Hv]; cbn [eff_live] in Hb; congruence).
  clear H. destruct (Z.leb_spec a v) as [Hav|Hav], (Z.leb_spec a b') as [Hab|Hab]; try lia.
  - rewrite F, T. by split_and!.
  - destruct T as (t' & -> & _). rewrite F. by split_and!.
  - destruct F as (t & -> & Ht), T as (t' & -> & Ht'). split_and!; [done..|]. intros ? [= <-]. exists t'. split; [done|].
    rewrite (f64_le_denotes _ _ _ _ Ht' Ht). apply Z.leb_le.
    apply (time_at_mono p a sd (add_round d1 d2) rj Ha Ha' Hs' Hdn ltac:(lia)); lia.
Qed.

Lemma recovery_converges_witness :
  let live := f64_of_u64 3 in
  (recovery_time_us recovery_default live false = None ↔ f64_le (replay_rate recovery_default) live = true) ∧
  (recovery_time_us recovery_default live true = None ↔ f64_le (replay_rate recovery_default) (eff_live live true) = true) ∧
  (∀ t, recovery_time_us recovery_default live false = Some t →
     ∃ t', recovery_time_us recovery_default live true = Some t' ∧ f64_le t' t = true).
Proof. by apply recovery_converges. Defined.
