(* ===== verification/Sim.v ===== *)
(** * Sim: the queueing simulation ([crates/onebarrier/src/sim.rs])

    One executor, a FIFO queue and pseudo-random arrivals, in binary64. [f64::ln] is a
    parameter: the standard library leaves its precision open. *)

From Stdlib Require Import Floats.SpecFloat.
From S2P Require Import Prelude F64.
Local Open Scope Z_scope.

Record SimParams := mkSimParams {
  rtt_us : f64; barrier_us : f64; apply_us : f64; fsync_us : f64; requests : Z; offered_load : f64; seed : Z }.

Definition sim_default : SimParams :=
  mkSimParams (f64_of_u64 2) (f64_of_u64 2) (f64_lit 5 1) (f64_of_u64 3000) 200000 (f64_lit 7 1) 0x9E3779B97F4A7C15.

Inductive Mode := ReliableBaseline | FtOverlap | FtFsync.

(** [format!("{mode:?}")] *)
Definition mode_debug (m : Mode) : string :=
  match m with
  | ReliableBaseline => "ReliableBaseline"
  | FtOverlap => "FtOverlap"
  | FtFsync => "FtFsync"
  end.

Record LatencyStats := mkLatencyStats {
  ls_mode : string; ls_n : Z; p50_us : f64; p99_us : f64; p999_us : f64; mean_us : f64; max_us : f64 }.

Definition service_us (p : SimParams) (mode : Mode) : f64 :=
  match mode with
  | ReliableBaseline | FtOverlap => apply_us p
  | FtFsync => f64_add (apply_us p) (fsync_us p)
  end.

Definition fixed_us (p : SimParams) (_ : Mode) : f64 := f64_add (rtt_us p) (barrier_us p).

(** ** The generator: xorshift64*, a 64-bit state *)

Definition rng_new (seed : Z) : Z := Z.lor seed 1.

Definition next_u64 (x : Z) : Z * Z :=
  let x := Z.lxor x (Z.shiftr x 12) in
  let x := Z.lxor x (Z.shiftl x 25 mod 2 ^ 64) in
  let x := Z.lxor x (Z.shiftr x 27) in
  ((x * 0x2545F4914F6CDD1D) mod 2 ^ 64, x).

Definition unit_interval (x : Z) : f64 * Z :=
  let '(y, x) := next_u64 x in
  (f64_div (f64_add (f64_of_u64 (Z.shiftr y 11)) (f64_of_u64 1))
           (f64_add (f64_of_u64 (Z.shiftl 1 53)) (f64_of_u64 1)), x).

(** ** Statistics *)

(** [sorted[idx.min(len - 1)]] is always in range. *)
Definition pct (sorted : list f64) (q : f64) : f64 :=
  match sorted with
  | [] => S754_zero false
  | d :: _ =>
      let last := Z.of_nat (length sorted) - 1 in
      default d (sorted !! Z.to_nat (pct_index last q))
  end.

(** [sort_by(|a, b| a.partial_cmp(b).unwrap())], a stable sort. Every element of a list
    of two or more takes part in a comparison, so a NaN in it is a panic. *)
Fixpoint insert_sorted (x : f64) (l : list f64) : list f64 :=
  match l with
  | [] => [x]
  | y :: l' => if f64_le x y then x :: l else y :: insert_sorted x l'
  end.

Definition is_nan (x : f64) : bool := if x is S754_nan then true else false.

Definition sort_floats (l : list f64) : option (list f64) :=
  if (2 <=? length l)%nat && existsb is_nan l then None else Some (foldr insert_sorted [] l).

(** [iter().sum::<f64>()] *)
Definition sum_floats (l : list f64) : f64 := fold_left f64_add l (S754_zero true).

Section Simulation.
Context (ln : f64 → f64).

(** [Rng::exp] *)
Definition rng_exp (rate : f64) (x : Z) : f64 * Z :=
  let '(u, x) := unit_interval x in (f64_div (f64_neg (ln u)) rate, x).

(** The queue: [now] is the last arrival, [prev] when the executor becomes free. *)
Fixpoint queue_loop (n : nat) (lambda svc fixed : f64) (rng : Z) (now prev : f64) : list f64 :=
  match n with
  | O => []
  | S n =>
      let '(gap, rng) := rng_exp lambda rng in
      let now := f64_add now gap in
      let start := f64_max now prev in
      let finish := f64_add start svc in
      f64_add (f64_sub finish now) fixed :: queue_loop n lambda svc fixed rng now finish
  end.

(** [None] is a panic: too many requests for one allocation, a NaN among several
    latencies, or no latency at all. *)
Definition summarize (mode : string) (lat : list f64) : option LatencyStats :=
  lat ← sort_floats lat;
  max ← last lat;
  let n := Z.of_nat (length lat) in
  Some (mkLatencyStats mode n (pct lat (f64_lit 50 2)) (pct lat (f64_lit 99 2)) (pct lat (f64_lit 999 3))
          (f64_div (sum_floats lat) (f64_of_u64 n)) max).

Definition run_queue (p : SimParams) (mode : string) (svc fixed : f64) : option LatencyStats :=
  if ISIZE_MAX <? 8 * requests p then None
  else
    let lambda := f64_div (offered_load p) (apply_us p) in
    summarize mode
      (queue_loop (Z.to_nat (requests p)) lambda svc fixed (rng_new (seed p)) (S754_zero false) (S754_zero false)).

Definition simulate (p : SimParams) (mode : Mode) : option LatencyStats :=
  run_queue p (mode_debug mode) (service_us p mode) (fixed_us p mode).

Definition simulate_explicit (p : SimParams) (svc fixed : f64) : option LatencyStats :=
  run_queue p "competitor" svc fixed.
End Simulation.

(** ** The competitors *)

Record Competitor := mkCompetitor { c_name : string; svc_us : f64; c_fixed_us : f64; cpu_mult : f64; note : string }.

Definition competitors (p : SimParams) : list Competitor :=
  let remus_ckpt_us := f64_of_u64 25000 in
  let seq_us := rtt_us p in
  let log_us := f64_lit 3 1 in
  let fixed := f64_add (rtt_us p) (barrier_us p) in
  [ mkCompetitor "OneBarrier" (apply_us p) fixed (f64_of_u64 1)
      "durability rides 1Pipe 2PC phase-1 (in-fabric RDMA)";
    mkCompetitor "Remus" (apply_us p) (f64_add (rtt_us p) (f64_div remus_ckpt_us (f64_of_u64 2))) (f64_of_u64 2)
      "output buffered until next checkpoint (~25 ms hold)";
    mkCompetitor "COLO" (apply_us p) fixed (f64_of_u64 2)
      "lock-step VMs; output released on match, checkpoint on mismatch";
    mkCompetitor "LLFT" (apply_us p) (f64_add fixed seq_us) (f64_of_u64 2)
      "host virtual-time sequencer adds a round-trip";
    mkCompetitor "HyCoR" (f64_add (apply_us p) log_us) fixed (f64_of_u64 1)
      "per-op nondeterminism log write on the path";
    mkCompetitor "active-SMR(3)" (apply_us p) fixed (f64_of_u64 3)
      "all 3 replicas execute every op" ].

(** ** The generator *)

Lemma lxor_u64 x y : is_u64 x → is_u64 y → is_u64 (Z.lxor x y).
Proof.
  intros [Hx Hx'] [Hy Hy']. assert (H0 : 0 <= Z.lxor x y) by (apply Z.lxor_nonneg; lia). split; [done|].
  destruct (Z.eq_dec (Z.lxor x y) 0) as [E|]; [rewrite E; width_lia|].
  assert (Z.lxor x y < 2 ^ 64); [|width_lia]. apply Z.log2_lt_pow2; [lia|].
  pose proof (Z.log2_lxor x y Hx Hy) as Hl.
  assert (∀ z, is_u64 z → Z.log2 z < 64) as Hb.
  { intros z [? ?]. destruct (Z.eq_dec z 0) as [->|]; [done|]. apply Z.log2_lt_pow2; width_lia. }
  pose proof (Hb x (conj Hx Hx')). pose proof (Hb y (conj Hy Hy')). lia.
Qed.

Lemma shiftr_u64 x n : is_u64 x → 0 <= n → is_u64 (Z.shiftr x n).
Proof.
  intros [Hx Hx'] Hn. rewrite Z.shiftr_div_pow2 by done. split; [apply Z.div_pos; lia|].
  etrans; [|exact Hx']. apply Z.div_le_upper_bound; [lia|]. assert (1 <= 2 ^ n) by (apply (Z.pow_le_mono_r 2 0); lia). nia.
Qed.

Lemma xorshift_right_nonzero x n : 0 < x → 0 < n → Z.lxor x (Z.shiftr x n) ≠ 0.
Proof.
  intros Hx Hn E%Z.lxor_eq. rewrite Z.shiftr_div_pow2 in E by lia.
  assert (x / 2 ^ n < x); [|lia]. apply Z.div_lt; [lia|]. apply (Z.pow_lt_mono_r 2 0); lia.
Qed.

Lemma xorshift_left_nonzero x : 0 < x < 2 ^ 64 → Z.lxor x (Z.shiftl x 25 mod 2 ^ 64) ≠ 0.
Proof.
  intros Hx E%Z.lxor_eq. rewrite Z.shiftl_mul_pow2 in E by lia.
  assert (Hd : (2 ^ 64 | (2 ^ 25 - 1) * x)).
  { exists (x * 2 ^ 25 / 2 ^ 64). pose proof (Z.div_mod (x * 2 ^ 25) (2 ^ 64) ltac:(lia)). lia. }
  apply Z.gauss in Hd as [k Hk]; [|done]. lia.
Qed.

(** The state never becomes zero, where the generator would stay. *)
Lemma next_u64_state x :
  is_u64 x → x ≠ 0 → is_u64 (next_u64 x).1 ∧ is_u64 (next_u64 x).2 ∧ (next_u64 x).2 ≠ 0.
Proof.
  intros Hx Hne. unfold next_u64. set (x1 := Z.lxor x (Z.shiftr x 12)).
  assert (H1 : is_u64 x1 ∧ x1 ≠ 0).
  { split; [by apply lxor_u64, shiftr_u64|]. apply xorshift_right_nonzero; [|done]. destruct Hx; lia. }
  set (x2 := Z.lxor x1 (Z.shiftl x1 25 mod 2 ^ 64)).
  assert (H2 : is_u64 x2 ∧ x2 ≠ 0).
  { destruct H1 as [H1 H1']. split; [apply lxor_u64; [done|]|apply xorshift_left_nonzero; destruct H1; width_lia].
    pose proof (Z.mod_pos_bound (Z.shiftl x1 25) (2 ^ 64)). split; width_lia. }
  destruct H2 as [H2 H2']. cbn [fst snd]. split_and!.
  - pose proof (Z.mod_pos_bound (Z.lxor x2 (Z.shiftr x2 27) * 0x2545F4914F6CDD1D) (2 ^ 64) ltac:(lia)). split; width_lia.
  - by apply lxor_u64, shiftr_u64.
  - apply xorshift_right_nonzero; [|done]. destruct H2; lia.
Qed.

Lemma rng_new_state s : is_u64 s → is_u64 (rng_new s) ∧ rng_new s ≠ 0.
Proof.
  intros [H0 H1]. unfold rng_new. split.
  - split; [apply Z.lor_nonneg; lia|]. assert (Z.lor s 1 < 2 ^ 64); [|width_lia].
    destruct (Z.eq_dec s 0) as [->|]; [done|]. apply Z.log2_lt_pow2.
    + assert (Z.lor s 1 ≠ 0) by (rewrite Z.lor_eq_0_iff; lia). assert (0 <= Z.lor s 1) by (apply Z.lor_nonneg; lia). lia.
    + rewrite Z.log2_lor by lia. assert (Z.log2 s < 64) by (apply Z.log2_lt_pow2; width_lia). cbn. lia.
  - rewrite Z.lor_eq_0_iff. lia.
Qed.

(** A draw is a multiple of [2 ^ -53], above zero and at most one. *)
Lemma unit_interval_denotes x :
  is_u64 x → x ≠ 0 →
  denotes (unit_interval x).1 ((Z.shiftr (next_u64 x).1 11 + 1) * 2 ^ 1021) ∧
  0 <= Z.shiftr (next_u64 x).1 11 < 2 ^ 53.
Proof.
  intros Hx Hne. destruct (next_u64_state x Hx Hne) as ([H0 H1] & _). unfold unit_interval.
  destruct (next_u64 x) as [y x']; cbn [fst snd] in *. set (k := Z.shiftr y 11).
  assert (Hk : 0 <= k < 2 ^ 53).
  { unfold k. rewrite Z.shiftr_div_pow2 by lia. split; [apply Z.div_pos; lia|]. apply Z.div_lt_upper_bound; width_lia. }
  split; [|done]. pose proof (f64_of_u64_exact k ltac:(lia)) as D. pose proof (f64_of_u64_exact 1 ltac:(lia)) as D1.
  pose proof (f64_add_nonneg _ _ _ _ D D1 ltac:(lia) ltac:(lia)) as A.
  assert (Hdv : denotes (f64_add (f64_of_u64 (Z.shiftl 1 53)) (f64_of_u64 1)) (2 ^ 53 * 2 ^ 1074)) by (split; [done|by vm_compute]).
  assert (HI : 2 ^ 53 * 2 ^ 1074 < INF) by done.
  assert (Ea : add_round (k * 2 ^ 1074) (1 * 2 ^ 1074) = (k + 1) * 2 ^ 1074).
  { unfold add_round. replace (k * 2 ^ 1074 + 1 * 2 ^ 1074) with ((k + 1) * 2 ^ 1074) by ring.
    pose proof (rnd_exact_le (k + 1) 1074 1 ltac:(lia) ltac:(lia) ltac:(lia)) as E. rewrite Z.mul_1_r in E.
    rewrite E. apply Z.min_l. nia. }
  rewrite Ea in A. pose proof (f64_div_pos _ _ _ _ A Hdv ltac:(nia) ltac:(lia)) as V.
  replace ((k + 1) * 2 ^ 1021) with (Z.min (rnd ((k + 1) * 2 ^ 1074 * 2 ^ 1074) (2 ^ 53 * 2 ^ 1074)) INF); [done|].
  replace ((k + 1) * 2 ^ 1074 * 2 ^ 1074) with ((k + 1) * 2 ^ 1021 * (2 ^ 53 * 2 ^ 1074)).
  2: { change (2 ^ 1074) with (2 ^ 53 * 2 ^ 1021). ring. }
  rewrite rnd_exact_le by lia. apply Z.min_l. change (2 ^ 1074) with (2 ^ 53 * 2 ^ 1021) in *. nia.
Qed.

(** ** The queue *)

(** Not negative, and the first not above the second. *)
Definition below (x x' : f64) : Prop := ∃ a a', denotes x a ∧ denotes x' a' ∧ 0 <= a <= a'.

(** Both latencies are NaN, or the first is not above the second. *)
Definition dominated (x x' : f64) : Prop := (is_nan x = true ∧ is_nan x' = true) ∨ below x x'.

Section Queue.
Context (ln : f64 → f64) (lambda : f64).

(** The law of [f64::ln] the simulation needs: on (0, 1] it is finite and not above 0. *)
Definition ln_law : Prop :=
  ∀ x v, denotes x v → 0 < v <= 2 ^ 1074 → ∃ w, denotes (ln x) w ∧ - INF < w <= 0.

Hypothesis Hln : ln_law.
Hypothesis Hlambda : fpos lambda = true.

Lemma rng_exp_denotes x :
  is_u64 x → x ≠ 0 →
  ∃ g, denotes (rng_exp ln lambda x).1 g ∧ 0 <= g ∧ is_u64 (rng_exp ln lambda x).2 ∧ (rng_exp ln lambda x).2 ≠ 0.
Proof.
  intros Hx Hne. destruct (unit_interval_denotes x Hx Hne) as [Hu Hk].
  destruct (next_u64_state x Hx Hne) as (_ & Hs & Hs'). unfold rng_exp.
  assert (E2 : (unit_interval x).2 = (next_u64 x).2) by (unfold unit_interval; by destruct (next_u64 x)).
  destruct (unit_interval x) as [u x']; cbn [fst snd] in *. subst x'.
  destruct (Hln u _ Hu) as (w & Hw & Hw').
  { change (2 ^ 1074) with (2 ^ 53 * 2 ^ 1021). split; [lia|]. apply Z.mul_le_mono_nonneg_r; lia. }
  apply fpos_denotes in Hlambda as (l & Hl & Hl'). apply denotes_neg in Hw.
  exists (div_round (- w) l). split_and!; [apply f64_div_nonneg; (done || lia)|apply div_round_nonneg; lia|done..].
Qed.

Lemma latency_denotes now prev svc fixed v w s f :
  denotes now v → denotes prev w → denotes svc s → denotes fixed f → 0 <= v < INF → 0 <= w → 0 <= s → 0 <= f →
  let fin := add_round (Z.max v w) s in
  denotes (f64_add (f64_max now prev) svc) fin ∧ v <= fin <= INF ∧
  denotes (f64_add (f64_sub (f64_add (f64_max now prev) svc) now) fixed) (add_round (sub_round fin v) f).
Proof.
  intros Hv Hw Hs Hf Bv Bw Bs Bf fin. pose proof (f64_max_denotes _ _ _ _ Hv Hw) as Hm.
  assert (Hfin : denotes (f64_add (f64_max now prev) svc) fin) by (apply f64_add_nonneg; (done || lia)).
  pose proof (denotes_range _ _ Hfin) as Hr. assert (Hge : v <= fin).
  { trans (Z.max v w); [lia|]. eapply add_round_ge; [done|lia|done]. }
  split_and!; [done|done|lia|]. apply f64_add_nonneg; [|done| |done]; [|apply sub_round_nonneg; lia].
  apply f64_sub_nonneg; (done || lia).
Qed.

(** Past the largest finite time every latency is a NaN. *)
Lemma latency_overflow now prev svc fixed w s :
  denotes now INF → denotes prev w → denotes svc s → 0 <= w → 0 <= s →
  denotes (f64_add (f64_max now prev) svc) INF ∧
  f64_add (f64_sub (f64_add (f64_max now prev) svc) now) fixed = S754_nan.
Proof.
  intros Hv Hw Hs Bw Bs. pose proof INF_pos. pose proof (denotes_range _ _ Hw).
  pose proof (f64_max_denotes _ _ _ _ Hv Hw) as Hm. rewrite Z.max_l in Hm by lia.
  destruct (f64_add_infinite _ _ _ Hm Hs ltac:(lia)) as [Hf _]. split; [done|].
  by rewrite (denotes_INF _ Hf), (denotes_INF _ Hv).
Qed.

Lemma queue_loop_mono svc fixed svc' fixed' s f s' f' n :
  denotes svc s → denotes svc' s' → 0 <= s <= s' → denotes fixed f → denotes fixed' f' → 0 <= f <= f' →
  ∀ rng now prev prev' v w w', is_u64 rng → rng ≠ 0 →
    denotes now v → denotes prev w → denotes prev' w' → 0 <= v → 0 <= w <= w' →
    Forall2 dominated (queue_loop ln n lambda svc fixed rng now prev) (queue_loop ln n lambda svc' fixed' rng now prev').
Proof.
  intros Ds Ds' Bs Df Df' Bf. induction n as [|n IH]; intros rng now prev prev' v w w' Hr Hr' Dv Dw Dw' Bv Bw; [constructor|].
  cbn [queue_loop]. destruct (rng_exp_denotes rng Hr Hr') as (g & Dg & Bg & Hr2 & Hr2').
  destruct (rng_exp ln lambda rng) as [gap rng2]; cbn [fst snd] in *.
  pose proof (f64_add_nonneg _ _ _ _ Dv Dg Bv Bg) as D2. pose proof (add_round_nonneg v g Bv Bg) as B2.
  pose proof (denotes_range _ _ D2) as [_ R2]. set (now2 := f64_add now gap) in *. set (v2 := add_round v g) in *.
  destruct (Z.eq_dec v2 INF) as [Einf|Hfin].
  - rewrite Einf in D2. destruct (latency_overflow now2 prev svc fixed w s) as (E1 & ->); [done..|lia|lia|].
    destruct (latency_overflow now2 prev' svc' fixed' w' s') as (E2 & ->); [done..|lia|lia|].
    constructor; [by left|]. pose proof INF_pos. eapply IH; (done || lia).
  - destruct (latency_denotes now2 prev svc fixed v2 w s f) as (E1 & F1 & L1); [done..|lia|lia|lia|lia|].
    destruct (latency_denotes now2 prev' svc' fixed' v2 w' s' f') as (E2 & F2 & L2); [done..|lia|lia|lia|lia|].
    assert (Hle : add_round (Z.max v2 w) s <= add_round (Z.max v2 w') s') by (apply add_round_mono; lia).
    constructor; [right; eexists _, _; split_and!; [exact L1|exact L2|..]|eapply IH; (done || lia)].
    + apply add_round_nonneg; [apply sub_round_nonneg|]; lia.
    + apply add_round_mono; [|lia]. split; [apply sub_round_nonneg; lia|apply sub_round_mono; lia].
Qed.
End Queue.

(** ** Sorting *)

(** Insertion sort on values. *)
Fixpoint zinsert (x : Z) (l : list Z) : list Z :=
  match l with
  | [] => [x]
  | y :: l' => if x <=? y then x :: l else y :: zinsert x l'
  end.

Lemma insert_sorted_denotes x a l zs :
  denotes x a → Forall2 denotes l zs → Forall2 denotes (insert_sorted x l) (zinsert a zs).
Proof.
  intros Hx Hl. induction Hl as [|y b l zs Hy Hl IH]; cbn; [by constructor|].
  rewrite (f64_le_denotes x y a b Hx Hy). destruct (a <=? b); constructor; (done || by constructor).
Qed.

Lemma sort_denotes l zs : Forall2 denotes l zs → Forall2 denotes (foldr insert_sorted [] l) (foldr zinsert [] zs).
Proof. induction 1; cbn; [constructor|by apply insert_sorted_denotes]. Qed.

Lemma zinsert_sorted x l : StronglySorted Z.le l → StronglySorted Z.le (zinsert x l).
Proof.
  induction 1 as [|y l Hs IH HF]; cbn; [by repeat constructor|]. destruct (Z.leb_spec x y).
  - constructor; [by constructor|]. constructor; [done|]. eapply Forall_impl; [exact HF|]. cbn. lia.
  - constructor; [done|]. clear -HF H. induction HF as [|z l Hz HF IH]; cbn; [constructor; [lia|constructor]|].
    destruct (x <=? z); constructor; (lia || done || by constructor).
Qed.

Lemma zinsert_head x l : StronglySorted Z.le (x :: l) → zinsert x l = x :: l.
Proof.
  intros [_ HF]%StronglySorted_inv. destruct l as [|y l]; [done|]. cbn. apply Forall_cons in HF as [Hy _].
  by rewrite (proj2 (Z.leb_le x y)).
Qed.

Lemma zinsert_mono l l' x x' :
  StronglySorted Z.le l → StronglySorted Z.le l' → Forall2 Z.le l l' → x <= x' → Forall2 Z.le (zinsert x l) (zinsert x' l').
Proof.
  intros Hs Hs' HF. revert x x' Hs Hs'. induction HF as [|y y' l l' Hy HF IH]; intros x x' Hs Hs' Hx; cbn; [by repeat constructor|].
  apply StronglySorted_inv in Hs as Hs2. apply StronglySorted_inv in Hs' as Hs2'.
  destruct (Z.leb_spec x y), (Z.leb_spec x' y').
  - by repeat constructor.
  - constructor; [lia|]. rewrite <- (zinsert_head y l) by done. apply IH; (tauto || lia).
  - constructor; [lia|]. rewrite <- (zinsert_head y' l') by done. apply IH; (tauto || lia).
  - constructor; [lia|]. apply IH; (tauto || lia).
Qed.

Lemma zsort_sorted l : StronglySorted Z.le (foldr zinsert [] l).
Proof. induction l; cbn; [constructor|by apply zinsert_sorted]. Qed.

(** Sorting keeps a pointwise order. *)
Lemma zsort_mono l l' : Forall2 Z.le l l' → Forall2 Z.le (foldr zinsert [] l) (foldr zinsert [] l').
Proof. induction 1; cbn; [constructor|]. apply zinsert_mono; [apply zsort_sorted..|done|done]. Qed.

(** ** Statistics *)

Lemma below_le x x' : below x x' → f64_le x x' = true.
Proof. intros (a & a' & Hx & Hx' & H). rewrite (f64_le_denotes _ _ _ _ Hx Hx'). apply Z.leb_le. lia. Qed.

Lemma below_values l l' :
  Forall2 below l l' ↔ ∃ zs zs', Forall2 denotes l zs ∧ Forall2 denotes l' zs' ∧ Forall2 Z.le zs zs' ∧ Forall (Z.le 0) zs.
Proof.
  split.
  - induction 1 as [|x x' l l' (a & a' & Hx & Hx' & Ha & Ha') _ (zs & zs' & H1 & H2 & H3 & H4)]; [by exists [], []|].
    exists (a :: zs), (a' :: zs'). split_and!; by constructor.
  - intros (zs & zs' & H1 & H2 & H3 & H4). revert l l' H1 H2 H4.
    induction H3 as [|a a' zs zs' Ha H3 IH]; intros l l' H1 H2 H4; inv H1; inv H2; [constructor|].
    apply Forall_cons in H4 as [? ?]. constructor; [by exists a, a'|by apply IH].
Qed.

Lemma zinsert_nonneg x l : 0 <= x → Forall (Z.le 0) l → Forall (Z.le 0) (zinsert x l).
Proof. intros Hx. induction 1; cbn; [by repeat constructor|]. case_match; repeat constructor; done. Qed.

Lemma sort_below l l' : Forall2 below l l' → Forall2 below (foldr insert_sorted [] l) (foldr insert_sorted [] l').
Proof.
  intros (zs & zs' & H1 & H2 & H3 & H4)%below_values. apply below_values.
  exists (foldr zinsert [] zs), (foldr zinsert [] zs'). split_and!; [by apply sort_denotes..|by apply zsort_mono|].
  clear -H4. induction H4; cbn; [constructor|by apply zinsert_nonneg].
Qed.

Lemma pct_below l l' q : Forall2 below l l' → f64_le (pct l q) (pct l' q) = true.
Proof.
  intros H. apply Forall2_length in H as Hlen. destruct H as [|x x' l l' Hx H]; [done|].
  assert (HF : Forall2 below (x :: l) (x' :: l')) by (by constructor). unfold pct. rewrite <- Hlen.
  set (i := Z.to_nat _). apply below_le. destruct ((x :: l) !! i) as [y|] eqn:E.
  - destruct (Forall2_lookup_l _ _ _ _ _ HF E) as (y' & -> & Hy). done.
  - apply lookup_ge_None_1 in E. rewrite lookup_ge_None_2 by (rewrite <- Hlen; done). done.
Qed.

Lemma last_below l l' m' :
  Forall2 below l l' → last l' = Some m' → ∃ m, last l = Some m ∧ f64_le m m' = true.
Proof.
  intros H. rewrite !last_lookup, <- (Forall2_length _ _ _ H). intros E.
  destruct (Forall2_lookup_r _ _ _ _ _ H E) as (m & -> & Hm). exists m. split; [done|by apply below_le].
Qed.

Lemma sum_below l l' : Forall2 below l l' → below (sum_floats l) (sum_floats l').
Proof.
  intros H. unfold sum_floats. assert (H0 : below (S754_zero true) (S754_zero true)) by (by exists 0, 0).
  revert H0. generalize (S754_zero true) at 1 3. generalize (S754_zero true).
  induction H as [|x x' l l' (a & a' & Hx & Hx' & Ha) _ IH]; intros t' t (b & b' & Ht & Ht' & Hb); cbn [fold_left].
  { by exists b, b'. }
  apply IH. exists (add_round b a), (add_round b' a'). split_and!.
  - apply f64_add_nonneg; (done || lia).
  - apply f64_add_nonneg; (done || lia).
  - apply add_round_nonneg; lia.
  - apply add_round_mono; lia.
Qed.

Lemma mean_below l l' n :
  Forall2 below l l' → 0 < n <= U64_MAX →
  f64_le (f64_div (sum_floats l) (f64_of_u64 n)) (f64_div (sum_floats l') (f64_of_u64 n)) = true.
Proof.
  intros (a & a' & Ha & Ha' & Hb)%sum_below (v & Hv & Hv')%f64_of_u64_pos. apply below_le.
  pose proof (denotes_range _ _ Ha'). exists (div_round a v), (div_round a' v). split_and!.
  - apply f64_div_nonneg; (done || lia).
  - apply f64_div_nonneg; (done || lia).
  - apply div_round_nonneg; lia.
  - apply div_round_mono; lia.
Qed.

(** Every figure of the first summary is at most that of the second. *)
Definition stats_le (st st' : LatencyStats) : bool :=
  (ls_n st =? ls_n st') && f64_le (p50_us st) (p50_us st') && f64_le (p99_us st) (p99_us st') &&
  f64_le (p999_us st) (p999_us st') && f64_le (mean_us st) (mean_us st') && f64_le (max_us st) (max_us st').

Lemma dominated_below l l' : Forall2 dominated l l' → existsb is_nan l' = false → Forall2 below l l'.
Proof.
  induction 1 as [|x x' l l' [[? ?]|?] _ IH]; cbn; [constructor| |]; rewrite orb_false_iff; intros [? ?]; [congruence|].
  constructor; auto.
Qed.

Lemma summarize_mono m m' lat lat' st' :
  Forall2 dominated lat lat' → (2 ≤ length lat')%nat → Z.of_nat (length lat') <= U64_MAX →
  summarize m' lat' = Some st' → ∃ st, summarize m lat = Some st ∧ stats_le st st' = true.
Proof.
  intros HD H2 HU. pose proof (Forall2_length _ _ _ HD) as Hlen. unfold summarize, sort_floats.
  rewrite Hlen, (proj2 (Nat.leb_le 2 _)) by done. cbn [andb].
  destruct (existsb is_nan lat') eqn:En; [done|]. pose proof (dominated_below _ _ HD En) as HB.
  assert (existsb is_nan lat = false) as ->.
  { clear -HB. induction HB as [|x x' l l' (a & _ & [_ Ha] & _) _ IH]; [done|]. cbn. rewrite IH. by destruct x. }
  cbn [mbind option_bind]. apply sort_below in HB. pose proof (Forall2_length _ _ _ HB) as Hl2.
  assert (Hl3 : length (foldr insert_sorted [] lat') = length lat').
  { clear. induction lat' as [|x l IH]; [done|]. cbn. rewrite <- IH. generalize (foldr insert_sorted [] l). intros k.
    induction k as [|y k IHk]; [done|]. cbn. case_match; cbn; lia. }
  destruct (last (foldr insert_sorted [] lat')) as [mx'|] eqn:El; [|done]. cbn. intros [= <-].
  destruct (last_below _ _ _ HB El) as (mx & -> & Hmx). cbn. eexists. split; [done|]. unfold stats_le. cbn.
  rewrite Hl2, Z.eqb_refl, !pct_below, mean_below, Hmx by (done || lia). done.
Qed.

(** ** Comparing runs *)

(** Times that are finite and not negative, a finite positive arrival rate, and more
    than one request. *)
Definition sim_ok (p : SimParams) : bool :=
  fnonneg (rtt_us p) && fnonneg (barrier_us p) && fnonneg (fsync_us p) && fpos (apply_us p) &&
  fpos (f64_div (offered_load p) (apply_us p)) && (2 <=? requests p) && (0 <=? seed p) && (seed p <=? U64_MAX).

Lemma below_add x y : below x x → fnonneg y = true → below x (f64_add x y).
Proof.
  intros (a & a' & Hx & _ & Ha) (b & Hy & Hb)%fnonneg_denotes.
  exists a, (add_round a b). split_and!; [done|apply f64_add_nonneg; (done || lia)|lia|eapply add_round_ge; (done || lia)].
Qed.

Lemma below_refl x : fnonneg x = true → below x x.
Proof. intros (a & Hx & Ha)%fnonneg_denotes. exists a, a. split_and!; (done || lia). Qed.

Lemma below_add_mono x y y' : fnonneg x = true → below y y' → below (f64_add x y) (f64_add x y').
Proof.
  intros (a & Hx & Ha)%fnonneg_denotes (b & b' & Hy & Hy' & Hb). exists (add_round a b), (add_round a b'). split_and!.
  - apply f64_add_nonneg; (done || lia).
  - apply f64_add_nonneg; (done || lia).
  - apply add_round_nonneg; lia.
  - apply add_round_mono; lia.
Qed.

Lemma below_trans x y z : below x y → below y z → below x z.
Proof.
  intros (a & b & Hx & Hy & H) (b' & c & Hy' & Hz & H'). exists a, c. split_and!; [done..|lia|].
  destruct Hy as [_ E], Hy' as [_ E']. rewrite E in E'. injection E' as ->. lia.
Qed.

Lemma below_intro x y : fnonneg x = true → fnonneg y = true → f64_le x y = true → below x y.
Proof.
  intros (a & Hx & Ha)%fnonneg_denotes (b & Hy & Hb)%fnonneg_denotes H. exists a, b. split_and!; [done..|lia|].
  rewrite (f64_le_denotes _ _ _ _ Hx Hy) in H. by apply Z.leb_le.
Qed.

Lemma queue_loop_length ln n lambda svc fixed rng now prev :
  length (queue_loop ln n lambda svc fixed rng now prev) = n.
Proof.
  revert rng now prev; induction n as [|n IH]; intros; [done|]. cbn [queue_loop].
  destruct (rng_exp ln lambda rng). cbn. by rewrite IH.
Qed.

Section Runs.
Context (ln : f64 → f64) (Hln : ln_law ln) (p : SimParams) (Hp : sim_ok p = true).

Lemma run_queue_mono m m' svc fixed svc' fixed' st' :
  below svc svc' → below fixed fixed' →
  run_queue ln p m' svc' fixed' = Some st' → ∃ st, run_queue ln p m svc fixed = Some st ∧ stats_le st st' = true.
Proof.
  intros (s & s' & Ds & Ds' & Bs) (f & f' & Df & Df' & Bf). unfold run_queue.
  unfold sim_ok in Hp. rewrite !andb_true_iff, !Z.leb_le in Hp. destruct Hp as [[[[_ Hl] Hr] Hs0] Hs1].
  destruct (Z.ltb_spec ISIZE_MAX (8 * requests p)) as [|Hcap]; [done|].
  destruct (rng_new_state (seed p) (conj Hs0 Hs1)) as [Hu Hne]. apply summarize_mono.
  - apply (queue_loop_mono ln _ Hln Hl _ _ _ _ s f s' f') with (v := 0) (w := 0) (w' := 0); (done || lia).
  - rewrite queue_loop_length. lia.
  - rewrite queue_loop_length. width_lia.
Qed.
End Runs.

(** [a] is never behind [b]: whenever the run of [b] returns, so does that of [a], with
    no figure above. *)
Definition never_behind (ln : f64 → f64) (p : SimParams) (a b : Competitor) : Prop :=
  ∀ st', simulate_explicit ln p (svc_us b) (c_fixed_us b) = Some st' →
    ∃ st, simulate_explicit ln p (svc_us a) (c_fixed_us a) = Some st ∧ stats_le st st' = true.

(** OneBarrier's entry against the others. Its wait is the barrier's, Remus's is its mean
    hold of 12.5 ms, so these two are ordered as the two waits are. *)
Lemma competitors_ordered ln p :
  ln_law ln → sim_ok p = true →
  ∃ ob remus rest, competitors p = ob :: remus :: rest ∧ c_name ob = "OneBarrier"%string ∧ c_name remus = "Remus"%string ∧
    Forall (λ c, f64_le (cpu_mult ob) (cpu_mult c) = true) (competitors p) ∧
    Forall (never_behind ln p ob) (ob :: rest) ∧
    (f64_le (barrier_us p) (f64_of_u64 12500) = true → never_behind ln p ob remus) ∧
    (f64_le (f64_of_u64 12500) (barrier_us p) = true → never_behind ln p remus ob).
Proof.
  intros Hln Hp. pose proof Hp as Hok. unfold sim_ok in Hok. rewrite !andb_true_iff in Hok.
  destruct Hok as [[[[[[[Hrtt Hbar] Hfs] Hap] _] _] _] _].
  assert (Hap' : fnonneg (apply_us p) = true) by (by destruct (apply_us p) as [|[]| |[]]).
  assert (Hfix : below (f64_add (rtt_us p) (barrier_us p)) (f64_add (rtt_us p) (barrier_us p))).
  { apply below_add_mono; [done|by apply below_refl]. }
  pose proof (below_refl _ Hap') as Hsvc. pose proof (run_queue_mono ln Hln p Hp) as Hmono.
  eexists _, _, _. do 3 (split; [done|]). split; [by repeat constructor|]. split_and!.
  - repeat (apply Forall_cons; split; [intros st'; apply Hmono; try done|]); [..|by apply Forall_nil];
      cbn [svc_us c_fixed_us]; by apply below_add.
  - intros Hb st'. apply Hmono; [done|]. apply below_add_mono; [done|]. by apply below_intro.
  - intros Hb st'. apply Hmono; [done|]. apply below_add_mono; [done|]. by apply below_intro.
Qed.

(** Nothing in the comparison is below OneBarrier's entry, if the barrier's wait is at
    most Remus's hold. *)
Lemma competitors_above ln p :
  ln_law ln → sim_ok p = true → f64_le (barrier_us p) (f64_of_u64 12500) = true →
  ∃ ob rest, competitors p = ob :: rest ∧ c_name ob = "OneBarrier"%string ∧
    Forall (λ c, f64_le (cpu_mult ob) (cpu_mult c) = true ∧ never_behind ln p ob c) (competitors p).
Proof.
  intros Hln Hp Hb. destruct (competitors_ordered ln p Hln Hp) as (ob & remus & rest & E & Hob & _ & Hcpu & HF & Hr & _).
  exists ob, (remus :: rest). split; [done|]. split; [done|]. apply Forall_and. split; [done|].
  apply Forall_cons in HF as [H0 HF]. rewrite E. constructor; [done|]. constructor; [by apply Hr|done].
Qed.

(** The serial mode is never ahead of another. *)
Lemma modes_below ln p m st' :
  ln_law ln → sim_ok p = true → m ≠ FtFsync → simulate ln p FtFsync = Some st' →
  ∃ st, simulate ln p m = Some st ∧ stats_le st st' = true.
Proof.
  intros Hln Hp Hm. pose proof Hp as Hok. unfold sim_ok in Hok. rewrite !andb_true_iff in Hok.
  destruct Hok as [[[[[[[Hrtt Hbar] Hfs] Hap] _] _] _] _].
  assert (Hap' : fnonneg (apply_us p) = true) by (by destruct (apply_us p) as [|[]| |[]]).
  pose proof (below_refl _ Hap') as Hsvc. apply (run_queue_mono ln Hln p Hp).
  - destruct m; [by apply below_add..|done].
  - apply below_add_mono; [done|by apply below_refl].
Qed.

(** C38: Where OneBarrier stands in the simulated comparison. For every workload with
    finite non-negative times, a finite positive arrival rate and at least two requests,
    and every [ln] that is finite and at most 0 on (0, 1]: OneBarrier's CPU multiplier is
    at most every competitor's; and it is never behind COLO, LLFT, HyCoR and active SMR:
    whenever the competitor's run returns, so does OneBarrier's, and its 50th, 99th and
    99.9th percentile, mean and maximum latency are at most the competitor's. Against
    Remus the same holds if the barrier wait is at most Remus's mean hold of 12.5 ms, and
    the reverse if it is at least that. The baseline and the overlapped mode are never
    behind the serial-fsync mode. *)
Theorem onebarrier_dominates ln p :
  ln_law ln → sim_ok p = true →
  (∃ ob remus rest, competitors p = ob :: remus :: rest ∧ c_name ob = "OneBarrier"%string ∧ c_name remus = "Remus"%string ∧
    Forall (λ c, f64_le (cpu_mult ob) (cpu_mult c) = true) (competitors p) ∧
    Forall (never_behind ln p ob) (ob :: rest) ∧
    (f64_le (barrier_us p) (f64_of_u64 12500) = true → never_behind ln p ob remus) ∧
    (f64_le (f64_of_u64 12500) (barrier_us p) = true → never_behind ln p remus ob)) ∧
  (∀ m st', m ≠ FtFsync → simulate ln p FtFsync = Some st' →
    ∃ st, simulate ln p m = Some st ∧ stats_le st st' = true).
Proof.
  intros Hln Hp. split; [by apply competitors_ordered|]. intros m st' Hm. by apply modes_below.
Qed.

(** A run of three requests, with a stand-in for [ln]: -1 below one, 0 at one. *)
Definition ln_w (x : f64) : f64 :=
  if f64_le (f64_of_u64 1) x then S754_zero false else f64_neg (f64_of_u64 1).
Definition sim_w : SimParams :=
  mkSimParams (f64_of_u64 2) (f64_of_u64 2) (f64_lit 5 1) (f64_of_u64 3000) 3 (f64_lit 7 1) 42.

Lemma ln_w_law : ln_law ln_w.
Proof.
  intros x v Hx Hv. unfold ln_w. pose proof INF_pos. case_match.
  - exists 0. split; [done|lia].
  - exists (- 2 ^ 1074). split; [apply denotes_neg, denotes_one|]. split; [|done]. by vm_compute.
Qed.

Lemma onebarrier_dominates_witness :
  (∃ ob remus rest, competitors sim_w = ob :: remus :: rest ∧ c_name ob = "OneBarrier"%string ∧ c_name remus = "Remus"%string ∧
    Forall (λ c, f64_le (cpu_mult ob) (cpu_mult c) = true) (competitors sim_w) ∧
    Forall (never_behind ln_w sim_w ob) (ob :: rest) ∧
    (f64_le (barrier_us sim_w) (f64_of_u64 12500) = true → never_behind ln_w sim_w ob remus) ∧
    (f64_le (f64_of_u64 12500) (barrier_us sim_w) = true → never_behind ln_w sim_w remus ob)) ∧
  (∀ m st', m ≠ FtFsync → simulate ln_w sim_w FtFsync = Some st' →
    ∃ st, simulate ln_w sim_w m = Some st ∧ stats_le st st' = true).
Proof. apply (onebarrier_dominates ln_w sim_w); [apply ln_w_law|by vm_compute..]. Defined.

(** Every one of those runs returns. *)
Example sim_w_returns :
  forallb (λ c, if simulate_explicit ln_w sim_w (svc_us c) (c_fixed_us c) is Some _ then true else false) (competitors sim_w)
  && (if simulate ln_w sim_w FtFsync is Some _ then true else false) = true.
Proof. by vm_compute. Qed.

(** A draw of the generator lies in (0, 1] and the state stays a non-zero 64-bit
    number, from every seed; and 1 itself is drawn, although the code says (0, 1): the
    denominator [2^53 + 1] is not representable and rounds to [2^53]. *)
Theorem unit_draw_range seed n :
  is_u64 seed →
  let x := Nat.iter n (λ x, (unit_interval x).2) (rng_new seed) in
  (is_u64 x ∧ x ≠ 0 ∧ fpos (unit_interval x).1 = true ∧ f64_le (unit_interval x).1 (f64_of_u64 1) = true) ∧
  ∃ s, is_u64 s ∧ (unit_interval (rng_new s)).1 = f64_of_u64 1.
Proof.
  intros Hs x. assert (Hx : is_u64 x ∧ x ≠ 0).
  { subst x. induction n as [|n [IH IH']]; [by apply rng_new_state|].
    set (y := Nat.iter n _ _) in *. destruct (next_u64_state y IH IH') as (_ & H & H').
    assert (E2 : (unit_interval y).2 = (next_u64 y).2) by (unfold unit_interval; by destruct (next_u64 y)). 
    change (Nat.iter (S n) _ _) with (unit_interval y).2. by rewrite E2. }
  destruct Hx as [Hx Hne]. destruct (unit_interval_denotes x Hx Hne) as [Hu Hk]. split; [split_and!; try done|].
  - apply fpos_denotes. eexists. split; [exact Hu|]. split; [lia|].
    apply Z.le_lt_trans with (2 ^ 53 * 2 ^ 1021); [apply Z.mul_le_mono_nonneg_r; lia|by vm_compute].
  - rewrite (f64_le_denotes _ _ _ _ Hu denotes_one). apply Z.leb_le. change (2 ^ 1074) with (2 ^ 53 * 2 ^ 1021).
    apply Z.mul_le_mono_nonneg_r; lia.
  - exists 8878570337283525969. split; [by vm_compute|done].
Qed.
