(* ===== verification/Experiments.v ===== *)
(** * Experiments: the programs that run the measurements
    ([crates/onebarrier/src/bin/ob_sweep.rs], [ob_recovery.rs], [ob_sim.rs],
    [ob_compare.rs], [ob_scale.rs], [ob_cpu.rs], [ob_order.rs], [ob_bench.rs],
    [ob_baselines.rs], [ob_calibrate.rs], and what they call of [bench.rs])

    Each program is a function from what its environment gives it (directories, the
    fabric's deliveries, elapsed times) to the values of the table it prints; the layout
    of the text is left out. [None] is a panic or an error that ends the program. *)

From Stdlib Require Import Floats.SpecFloat.
From S2P Require Import Prelude Bytes Text F64 Io State Durable Engine EngineFacts CrashSafety Lifetimes Transfer Cadence Workload Cluster ClusterGuarantees Bench Ordering Latency Recovery Sim.
Local Open Scope Z_scope.

(** [ns as f64 / 1000.0] *)
Definition us (ns : Z) : f64 := f64_div (f64_of_u64 ns) (f64_of_u64 1000).
(** [secs * 1000.0] *)
Definition ms (secs : f64) : f64 := f64_mul secs (f64_of_u64 1000).

(** The elements with their positions, the first failure ending the loop. *)
Definition each {A B} (f : nat → A → option B) (l : list A) : option (list B) := mapM (λ x, x) (imap f l).

Section Programs.
Context (am : arith_mode) {Timestamp : Type} (as_nanos : Timestamp → Z) (from_nanos : Z → Timestamp).

(** ** [ob-sweep]: the snapshot interval *)

Record SnapResult := mkSnap {
  sr_interval : Z; sr_ops : Z; sr_snapshots : Z; apply_us_per_op : f64; replay_records : Z; recover_us : f64 }.

(** One interval, on the directory [w]; the two elapsed times are in nanoseconds. *)
Definition sweep_row (ops keys : Z) (w : World) (t0 t1 interval : Z) : option SnapResult :=
  '(snapshots, replayed) ← sweep_one am as_nanos from_nanos interval ops keys w;
  Some (mkSnap interval ops snapshots (f64_div (us t0) (f64_of_u64 ops)) replayed (us t1)).

Definition sweep_snapshot_interval (intervals : list Z) (ops keys : Z) (env : nat → World * (Z * Z))
    : option (list SnapResult) :=
  each (λ k I, sweep_row ops keys (env k).1 (env k).2.1 (env k).2.2 I) intervals.

Definition ob_sweep (env : nat → World * (Z * Z)) : option (list SnapResult) :=
  sweep_snapshot_interval [64; 512; 4096; 100000] 50000 64 env.

(** ** [ob-cpu]: active against passive replication *)

Record CpuResult := mkCpu { cpu_mode : string; cpu_replicas : Z; exec_cpu_ms : f64 }.

(** A thread is given its directory and the seconds it takes. *)
Definition cpu_thread {A} (body : M World A) (wt : World * f64) : option f64 :=
  match body wt.1 with (Ok _, _) => Some (ms wt.2) | _ => None end.

Definition bench_cpu_passive_vs_active (ops replicas : Z) (active : nat → World * f64) (exec : World * f64)
    (backups : nat → World * f64) : option (CpuResult * CpuResult) :=
  active_cpu ← mapM (λ r, cpu_thread (bench_executor am as_nanos from_nanos ops) (active (Z.to_nat r))) (seqZ 0 replicas);
  exec_cpu ← cpu_thread (bench_executor am as_nanos from_nanos ops) exec;
  backup_cpu ← mapM (λ r, cpu_thread (log_backup ops) (backups (Z.to_nat r))) (seqZ 0 (Z.max 0 (replicas - 1)));
  Some (mkCpu "active-SMR" replicas (sum_floats active_cpu),
        mkCpu "passive-OneBarrier" replicas (f64_add exec_cpu (sum_floats backup_cpu))).

Record CpuEnv := mkCpuEnv { ce_active : nat → World * f64; ce_exec : World * f64; ce_backups : nat → World * f64 }.

(** [100.0 * (1.0 - passive / active)] *)
Definition savings (active passive : f64) : f64 :=
  f64_mul (f64_of_u64 100) (f64_sub (f64_of_u64 1) (f64_div passive active)).

Definition ob_cpu (env : nat → CpuEnv) : option (list (Z * f64 * f64 * f64)) :=
  each (λ k replicas,
    '(active, passive) ← bench_cpu_passive_vs_active 5000 replicas (ce_active (env k)) (ce_exec (env k)) (ce_backups (env k));
    Some (replicas, exec_cpu_ms active, exec_cpu_ms passive, savings (exec_cpu_ms active) (exec_cpu_ms passive)))
    [2; 3; 5; 7].

(** ** [ob-order]: establishing the order *)

(** [sched]: the order in which the producers take the lock; [secs]: the elapsed times. *)
Definition ob_order (env : nat → list Z * (f64 * f64)) : option (list (Z * f64 * f64 * f64)) :=
  each (λ k threads,
    '(seq, ts) ← bench_ordering am threads 500000 (env k).1 (env k).2;
    Some (threads, or_ops_per_sec seq, or_ops_per_sec ts, f64_div (or_ops_per_sec ts) (or_ops_per_sec seq)))
    [1; 2; 4; 8; 16].

(** ** [ob-baselines]: three ways to fix a replayable order *)

Record FtBaseline := mkFt { ft_mode : bytes; ft_threads : Z; ft_ops_per_sec : f64 }.

(** Run a body in every thread; it panics when one of them does. *)
Definition run_per_thread (threads total : Z) (label : bytes) (body : Z → bool) (secs : f64) : option FtBaseline :=
  if forallb body (seqZ 0 threads) then Some (mkFt label threads (f64_div (f64_of_u64 total) secs)) else None.

Definition is_ok {S A} (m : M S A) (s : S) : bool := if (m s).1 is Ok _ then true else false.

(** The directories of the threads, how far the others move LLFT's counter before each
    turn of a thread, and the elapsed times. *)
Record FtEnv := mkFtEnv {
  fe_ob : Z → World; fe_llft : Z → World; fe_others : Z → list Z; fe_hycor : Z → World * World;
  fe_secs : f64 * f64 * f64 }.

Definition bench_ft_baselines (threads ops : Z) (env : FtEnv) : option (list FtBaseline) :=
  total ← usize_arith am (threads * ops);
  let '(t_ob, t_llft, t_hycor) := fe_secs env in
  ob ← run_per_thread threads total (bs "OneBarrier (fabric order)")
         (λ tid, is_ok (ft_onebarrier am as_nanos from_nanos ops) (fe_ob env tid)) t_ob;
  llft ← run_per_thread threads total (bs "LLFT (host sequencer)")
         (λ tid, is_ok (ft_llft am as_nanos from_nanos ops (fe_others env tid)) (fe_llft env tid, 0)) t_llft;
  hycor ← run_per_thread threads total (bs "HyCoR (nondeterminism log)")
         (λ tid, is_ok (ft_hycor am as_nanos from_nanos ops) (fe_hycor env tid)) t_hycor;
  Some [ob; hycor; llft].

(** [r.iter().find(|x| x.mode.starts_with(p)).unwrap().ops_per_sec] *)
Definition get_mode (r : list FtBaseline) (p : bytes) : option f64 :=
  ft_ops_per_sec <$> List.find (λ x, starts_with p (ft_mode x)) r.

Definition ob_baselines (env : nat → FtEnv) : option (list (Z * f64 * f64 * f64)) :=
  each (λ k threads,
    r ← bench_ft_baselines threads 50000 (env k);
    a ← get_mode r (bs "OneBarrier"); b ← get_mode r (bs "HyCoR"); c ← get_mode r (bs "LLFT");
    Some (threads, a, b, c)) [1; 2; 4; 8].

(** ** [ob-scale]: the size of the cluster *)

Definition scale_config (replicas : Z) : ClusterConfig := mkCfg replicas 2 400 16 128.

(** Per size, the replicas' inputs and the elapsed seconds; a row is the size, the two
    verdicts, the milliseconds and the operations applied per second. *)
Definition ob_scale (env : nat → list ReplicaInput * f64) : option (list (Z * bool * bool * f64 * f64)) :=
  each (λ k replicas,
    r ← run_cluster am as_nanos (scale_config replicas) (env k).1;
    let t := ms (env k).2 in
    Some (replicas, converged r, correct r, t,
          f64_div (f64_mul (f64_of_u64 replicas) (f64_of_u64 (2 * 400))) (f64_div t (f64_of_u64 1000))))
    [3; 5; 7; 9].

(** ** [ob-bench]: output-commit latency *)

Definition ob_bench_config (tier : Durability) : BenchConfig := mkBenchConfig 2 250 64 8000000 tier.

(** The marginal cost of durability, in percent of the delivery time. *)
Definition overhead (mem : BenchResult) : f64 :=
  if 0 <? delivery_p50 mem
  then f64_div (f64_mul (f64_of_u64 100) (f64_of_u64 (durable_p50 mem))) (f64_of_u64 (delivery_p50 mem))
  else S754_zero false.

(** The two rows, the overhead, and what the fsync tier adds. *)
Definition ob_bench (env : nat → list TimedPoll * World) : option (list BenchResult * f64 * f64) :=
  rows ← each (λ k tier, run_bench am as_nanos (ob_bench_config tier) (env k).1 (env k).2) [InFabricMem; Fsync];
  mem ← rows !! 0%nat;
  fs ← rows !! 1%nat;
  Some (rows, overhead mem, us (durable_p50 fs)).

(** ** [ob-calibrate]: the simulator against the engine *)

Context (ln : f64 → f64).

(** [Duration::from_secs_f64], in nanoseconds, to the nearest, ties to even; [None] is a
    panic: not a number, negative, or too long for a [Duration]. *)
Definition from_secs_f64 (x : f64) : option Z :=
  match x with
  | S754_zero _ => Some 0
  | S754_finite false m e =>
      let ns := if 0 <=? e then Zpos m * 10 ^ 9 * 2 ^ e else rne (Zpos m * 10 ^ 9) (2 ^ (- e)) in
      if ns <? 2 ^ 64 * 10 ^ 9 then Some ns else None
  | _ => None
  end.

Definition calibrate_engine (clients : Z) (rate_ops_s : f64) (tier : Durability) (polls : list TimedPoll) (w : World)
    : option BenchResult :=
  pace ← from_secs_f64 (f64_div (f64_of_u64 clients) rate_ops_s);
  run_bench am as_nanos (mkBenchConfig clients 200 64 pace tier) polls w.

(** [100.0 * (sim - eng).abs() / eng] *)
Definition f64_abs (x : f64) : f64 := SFabs x.
Definition err (sim eng : f64) : f64 := f64_div (f64_mul (f64_of_u64 100) (f64_abs (f64_sub sim eng))) eng.

(** The simulator fed with the medians the engine measured, at the same rate. *)
Definition calibrated (deliv dur_mem dur_fs : f64) : SimParams :=
  let apply := f64_max dur_mem (f64_lit 1 1) in
  mkSimParams (S754_zero false) deliv apply dur_fs 200000
    (f64_div (f64_mul (f64_of_u64 60) apply) (f64_of_u64 1000000)) (seed sim_default).

Record Calibration := mkCalibration {
  cal_overlap : f64 * f64 * f64; cal_fsync : f64 * f64 * f64; knee : f64; cal_rows : list (f64 * f64 * f64 * f64) }.

Definition ob_calibrate (env : nat → list TimedPoll * World) : option Calibration :=
  let idle_rate := f64_of_u64 60 in
  mem ← calibrate_engine 2 idle_rate InFabricMem (env 0%nat).1 (env 0%nat).2;
  fs ← calibrate_engine 2 idle_rate Fsync (env 1%nat).1 (env 1%nat).2;
  let deliv := us (delivery_p50 mem) in
  let dur_mem := us (durable_p50 mem) in
  let dur_fs := us (durable_p50 fs) in
  let lp := calibrated deliv dur_mem dur_fs in
  sim_mem ← p50_us <$> simulate ln lp FtOverlap;
  sim_fs ← p50_us <$> simulate ln lp FtFsync;
  let knee := f64_div (f64_of_u64 1000000) dur_fs in
  rows ← each (λ k f,
    let rate := f64_mul knee f in
    r ← calibrate_engine 4 rate Fsync (env (k + 2)%nat).1 (env (k + 2)%nat).2;
    Some (rate, f64_div (f64_mul rate dur_fs) (f64_of_u64 1000000), us (commit_p50 r), us (commit_p99 r)))
    [f64_lit 5 1; f64_lit 75 2; f64_lit 9 1; f64_lit 11 1; f64_lit 14 1];
  Some (mkCalibration (us (commit_p50 mem), sim_mem, err sim_mem (us (commit_p50 mem)))
          (us (commit_p50 fs), sim_fs, err sim_fs (us (commit_p50 fs))) knee rows).
End Programs.

(** ** [ob-recovery]: recovery time against load *)

Definition wants_csv (args : list bytes) : bool := existsb (λ a, bool_decide (a = bs "csv")) args.

(** [0.2 + (i as f64 / (n - 1) as f64) * (8.0 - 0.2)] *)
Definition csv_rate (n i : Z) : f64 :=
  f64_add (f64_lit 2 1) (f64_mul (f64_div (f64_of_u64 i) (f64_of_u64 (n - 1))) (f64_sub (f64_of_u64 8) (f64_lit 2 1))).

(** The rows; a missing time is printed as an empty field or as LIVELOCK. *)
Definition ob_recovery (args : list bytes) : list RecoveryRow :=
  let p := recovery_default in
  if wants_csv args
  then map (λ i, let lr := csv_rate 60 i in mkRow lr (recovery_time_us p lr false) (recovery_time_us p lr true)) (seqZ 0 60)
  else Recovery.sweep p [f64_of_u64 1; f64_of_u64 2; f64_of_u64 3; f64_lit 38 1; f64_of_u64 5; f64_of_u64 7].

(** ** [ob-sim] and [ob-compare]: the simulator *)

Section Simulator.
Context (ln : f64 → f64) (powf : f64 → f64 → f64).

Definition ob_sim_base : SimParams :=
  mkSimParams (f64_of_u64 2) (f64_of_u64 2) (f64_lit 5 1) (f64_of_u64 3000) 300000 (offered_load sim_default) (seed sim_default).
Definition with_load (p : SimParams) (load : f64) (n : Z) : SimParams :=
  mkSimParams (rtt_us p) (barrier_us p) (apply_us p) (fsync_us p) n load (seed p).

(** The three modes on one workload. *)
Definition three_modes (p : SimParams) : option (LatencyStats * LatencyStats * LatencyStats) :=
  b ← simulate ln p ReliableBaseline;
  o ← simulate ln p FtOverlap;
  f ← simulate ln p FtFsync;
  Some (b, o, f).

(** [lo * (hi / lo).powf(i as f64 / (n - 1) as f64)] *)
Definition csv_load (n i : Z) : f64 :=
  let lo := f64_lit 5 5 in let hi := f64_lit 97 2 in
  f64_mul lo (powf (f64_div hi lo) (f64_div (f64_of_u64 i) (f64_of_u64 (n - 1)))).

Definition ob_sim_csv : option (list (f64 * f64 * f64 * f64 * f64)) :=
  mapM (λ i,
    let load := csv_load 48 i in
    let p := with_load ob_sim_base load 120000 in
    let thr := f64_mul (f64_div load (apply_us p)) (f64_of_u64 1000000) in
    '(b, o, f) ← three_modes p;
    Some (load, thr, p999_us b, p999_us o, p999_us f)) (seqZ 0 48).

(** The table, and the read-out: the three runs at load 0.7, the marginal cost of the
    overlapped mode and the factor of the serial one. *)
Definition ob_sim_table : option (list (f64 * (LatencyStats * LatencyStats * LatencyStats))) :=
  mapM (λ load, pair load <$> three_modes (with_load ob_sim_base load (requests ob_sim_base)))
    [f64_lit 3 1; f64_lit 5 1; f64_lit 7 1; f64_lit 85 2; f64_lit 95 2].
Definition ob_sim_readout : option ((LatencyStats * LatencyStats * LatencyStats) * f64 * f64) :=
  '(b, o, f) ← three_modes (with_load ob_sim_base (f64_lit 7 1) (requests ob_sim_base));
  Some ((b, o, f), f64_sub (p99_us o) (p99_us b), f64_div (p99_us f) (p99_us b)).

(** What the program prints, by its arguments. *)
Inductive SimOutput :=
  | SimCsv (rows : list (f64 * f64 * f64 * f64 * f64))
  | SimText (rows : list (f64 * (LatencyStats * LatencyStats * LatencyStats)))
      (readout : (LatencyStats * LatencyStats * LatencyStats) * f64 * f64).
Definition ob_sim (args : list bytes) : option SimOutput :=
  if wants_csv args then SimCsv <$> ob_sim_csv
  else rows ← ob_sim_table; readout ← ob_sim_readout; Some (SimText rows readout).

Definition ob_compare_params : SimParams :=
  mkSimParams (f64_of_u64 2) (f64_of_u64 2) (f64_lit 5 1) (fsync_us sim_default) 300000 (f64_lit 4 1) (seed sim_default).
Definition ob_compare : option (list (Competitor * LatencyStats)) :=
  let p := ob_compare_params in
  mapM (λ c, pair c <$> simulate_explicit ln p (svc_us c) (c_fixed_us c)) (competitors p).
End Simulator.

(** ** Lemmas *)

Lemma each_related {A B} (f : nat → A → option B) (R : A → B → Prop) l :
  (∀ k x, l !! k = Some x → ∃ y, f k x = Some y ∧ R x y) → ∃ ys, each f l = Some ys ∧ Forall2 R l ys.
Proof.
  unfold each. revert f; induction l as [|x l IH]; intros f H; [by exists []|].
  destruct (H 0%nat x eq_refl) as (y & Ey & Ry). destruct (IH (f ∘ S)) as (ys & Es & Rs); [intros k; apply (H (S k))|].
  exists (y :: ys). rewrite imap_cons. cbn [mapM]. rewrite Ey. cbn. setoid_rewrite Es. split; [done|by constructor].
Qed.

Lemma each_lookup {A B} (f : nat → A → option B) l ys k y :
  each f l = Some ys → ys !! k = Some y → ∃ x, l !! k = Some x ∧ f k x = Some y.
Proof.
  unfold each. intros Hm%mapM_Some Hk. destruct (Forall2_lookup_r _ _ _ _ _ Hm Hk) as (o & Ho & Hy).
  rewrite list_lookup_imap in Ho. apply fmap_Some in Ho as (x & Hx & ->). eauto.
Qed.

Section Sweep.
Context (am : arith_mode) {Timestamp : Type} (as_nanos : Timestamp → Z) (from_nanos : Z → Timestamp).
Context (Hns : ∀ ts, is_u64 (as_nanos ts)).

(** The sweep of snapshot intervals, exactly: on empty directories, whatever the
    clocks say, there is one row for each interval [I] (a zero counts as one), with
    [ops / I] snapshots taken and [ops mod I] records replayed, so that every operation
    is in the last snapshot or replayed; over a growing list of intervals the number of
    snapshots never grows. *)
Theorem sweep_rows intervals ops keys env :
  1 <= keys <= ops → 4 + 48 * ops <= U32_MAX → (∀ k, (env k).1 = calm ∅) →
  ∃ rows, sweep_snapshot_interval am as_nanos from_nanos intervals ops keys env = Some rows ∧
    Forall2 (λ I r, sr_interval r = I ∧ sr_ops r = ops ∧
      sr_snapshots r = ops / Z.max I 1 ∧ replay_records r = ops mod Z.max I 1 ∧
      sr_snapshots r * Z.max I 1 + replay_records r = ops ∧ replay_records r < Z.max I 1) intervals rows ∧
    (StronglySorted Z.le intervals → StronglySorted Z.ge (map sr_snapshots rows)).
Proof.
  intros Hk HB Henv.
  destruct (each_related (λ k I, sweep_row am as_nanos from_nanos ops keys (env k).1 (env k).2.1 (env k).2.2 I)
    (λ I r, sr_interval r = I ∧ sr_ops r = ops ∧
      sr_snapshots r = ops / Z.max I 1 ∧ replay_records r = ops mod Z.max I 1 ∧
      sr_snapshots r * Z.max I 1 + replay_records r = ops ∧ replay_records r < Z.max I 1) intervals) as (rows & E & HF).
  { intros k I _. unfold sweep_row. rewrite Henv, sweep_one_calm by done. cbn [mbind option_bind].
    eexists. split; [done|]. cbn. split_and!; try done.
    - pose proof (Z.div_mod ops (Z.max I 1)). lia.
    - apply Z.mod_pos_bound. lia. }
  exists rows. split; [exact E|]. split; [exact HF|]. clear E. intros Hs. induction HF as [|I r intervals rows Hr HF IH]; [constructor|].
  apply StronglySorted_inv in Hs as [Hs HI]. cbn. constructor; [by apply IH|]. apply Forall_map.
  clear IH Hs. induction HF as [|I' r' intervals rows Hr' _ IH]; [constructor|]. apply Forall_cons in HI as [HI' HI].
  constructor; [|by apply IH]. destruct Hr as (_ & _ & -> & _), Hr' as (_ & _ & -> & _). apply Z.le_ge.
  apply Z.div_le_compat_l; lia.
Qed.
End Sweep.

(** What [ob-sweep] prints: 781, 97, 12 and no snapshots, and 16, 336, 848 and all 50000
    records replayed. *)
Lemma sweep_rows_witness :
  ∃ rows, ob_sweep Checked ns_w id (λ _, (calm ∅, (7, 9))) = Some rows ∧
    map sr_snapshots rows = [781; 97; 12; 0] ∧ map replay_records rows = [16; 336; 848; 50000].
Proof.
  destruct (sweep_rows Checked ns_w id ns_w_u64 [64; 512; 4096; 100000] 50000 64 (λ _, (calm ∅, (7, 9))))
    as (rows & E & HF & _); [lia|by vm_compute|done|].
  exists rows. split; [exact E|].
  repeat (apply Forall2_cons_inv_l in HF as (? & ? & (_ & _ & ? & ? & _) & HF & ->)). apply Forall2_nil_inv_l in HF as ->.
  cbn [map]. by split; repeat f_equal.
Defined.

(** ** What the other programs show *)

Section Shows.
Context (am : arith_mode) {Timestamp : Type} (as_nanos : Timestamp → Z) (from_nanos : Z → Timestamp).
Context (Hns : ∀ ts, is_u64 (as_nanos ts)).

(** Every row of [ob-scale] says converged and correct, when the fabric gives all the
    replicas of a run one total order of the clients' operations. *)
Theorem ob_scale_correct env :
  (∀ k n, [3; 5; 7; 9] !! k = Some n → len (env k).1 = n ∧
     ∃ xs, total_order 400 16 (seqZ n 2) xs.*2 ∧ Forall (follows xs) (env k).1) →
  ∃ rows, ob_scale am as_nanos env = Some rows ∧
    Forall2 (λ n (r : Z * bool * bool * f64 * f64), r.1.1.1.1 = n ∧ r.1.1.1.2 = true ∧ r.1.1.2 = true) [3; 5; 7; 9] rows.
Proof.
  intros Henv. apply each_related. intros k n Hk. destruct (Henv k n Hk) as (Hl & xs & HT & HF).
  assert (Hn : 3 <= n <= 9) by (destruct k as [|[|[|[|k]]]]; cbn in Hk; try done; injection Hk as <-; lia).
  destruct (cluster_converges am as_nanos Hns n 2 400 16 128 xs (env k).1) as (r & E & _ & Hc & Hok & _);
    try done; try lia; [width_lia|].
  unfold scale_config. rewrite E. cbn [mbind option_bind]. eexists. by split.
Qed.

(** The lookups of [ob-baselines] by label never fail. *)
Lemma get_mode_found threads ops env r :
  bench_ft_baselines am as_nanos from_nanos threads ops env = Some r →
  is_Some (get_mode r (bs "OneBarrier")) ∧ is_Some (get_mode r (bs "HyCoR")) ∧ is_Some (get_mode r (bs "LLFT")).
Proof.
  unfold bench_ft_baselines, run_per_thread. intros (total & _ & H)%bind_Some.
  destruct (fe_secs env) as [[t1 t2] t3]. repeat case_match; try done. injection H as <-.
  unfold get_mode. cbn. by split_and!.
Qed.

(** The percentage [ob-bench] prints is a finite number that is not negative. *)
Lemma overhead_finite mem :
  0 <= delivery_p50 mem <= U64_MAX → 0 <= durable_p50 mem <= U64_MAX → fnonneg (overhead mem) = true.
Proof.
  intros Hd Hm. unfold overhead. destruct (Z.ltb_spec 0 (delivery_p50 mem)) as [Hpos|]; [|done].
  destruct (f64_of_u64_range (delivery_p50 mem)) as (w & Hw & Bw); [lia|].
  assert (HI : 2 ^ 64 * 2 ^ 1074 < INF) by by vm_compute.
  assert (Hdur : ∃ v, denotes (f64_of_u64 (durable_p50 mem)) v ∧ 0 <= v <= 2 ^ 64 * 2 ^ 1074).
  { destruct (Z.eq_dec (durable_p50 mem) 0) as [->|]; [by exists 0|].
    destruct (f64_of_u64_range (durable_p50 mem)) as (v & Hv & Bv); [lia|]. exists v. split; [done|lia]. }
  destruct Hdur as (v & Hv & Bv).
  destruct (f64_of_u64_range 100) as (h & Hh & Bh); [width_lia|].
  assert (h <= 2 ^ 7 * 2 ^ 1074) as Bh'.
  { destruct Hh as [_ Hh]. vm_compute in Hh. injection Hh as <-. by vm_compute. }
  pose proof (f64_mul_nonneg _ _ h v Hh Hv ltac:(lia) ltac:(lia)) as Hp. set (u := Z.min _ INF) in Hp.
  assert (Bu : 0 <= u <= 2 ^ 71 * 2 ^ 1074).
  { unfold u. split; [apply Z.min_glb; [|lia]; change 0 with (rnd 0 1); apply rnd_mono; nia|].
    etrans; [apply Z.le_min_l|]. replace (2 ^ 71 * 2 ^ 1074) with (rnd (2 ^ 71 * 2 ^ 1074) 1) by by vm_compute.
    apply rnd_mono; [nia|lia..|]. replace (2 ^ 71) with (2 ^ 7 * 2 ^ 64) by lia. nia. }
  clearbody u. apply fnonneg_denotes. eexists. split; [by eapply f64_div_nonneg; [exact Hp|exact Hw|lia|lia]|].
  split; [apply div_round_nonneg; lia|]. apply Z.le_lt_trans with (div_round (2 ^ 71 * 2 ^ 1074) (2 ^ 1074)); [|by vm_compute].
  apply div_round_mono; [lia|by vm_compute|lia].
Qed.

(** On empty directories every thread of the comparison of active and passive replication
    finishes; so [ob-cpu] prints its four rows. *)
Lemma bench_cpu_returns ops replicas active exec backups :
  64 <= ops → 4 + 48 * ops <= U32_MAX →
  (∀ k, (active k).1 = calm ∅) → exec.1 = calm ∅ → (∀ k, (backups k).1 = calm ∅) →
  ∃ a p, bench_cpu_passive_vs_active am as_nanos from_nanos ops replicas active exec backups = Some (a, p) ∧
    cpu_replicas a = replicas ∧ cpu_replicas p = replicas.
Proof.
  intros Ho HB Ha He Hb.
  assert (Hexec : ∀ wt, wt.1 = calm ∅ → cpu_thread (bench_executor am as_nanos from_nanos ops) wt = Some (ms wt.2)).
  { intros wt E. unfold cpu_thread. rewrite E. unfold bench_executor. rewrite create_calm.
    destruct (sweep_delivered am as_nanos from_nanos 1000000 ops 64 ltac:(lia) HB Hns) as (os & e & d & -> & _). done. }
  assert (Hlog : ∀ wt, wt.1 = calm ∅ → cpu_thread (log_backup ops) wt = Some (ms wt.2)).
  { intros wt E. unfold cpu_thread. rewrite E. unfold log_backup.
    change (durable_open false (calm ∅)) with (Ok (A := Durable) (mkDurable false false), calm ∅). cbv iota.
    destruct (append_all_calm (backup_records ops) (mkDurable false false) ∅) as (du & d & -> & _). done. }
  unfold bench_cpu_passive_vs_active.
  edestruct (mapM_related (λ r, cpu_thread (bench_executor am as_nanos from_nanos ops) (active (Z.to_nat r)))
    (λ _ _, True) (seqZ 0 replicas)) as (l1 & E1 & _); [intros r _; eexists; split; [by apply Hexec|done]|].
  edestruct (mapM_related (λ r, cpu_thread (log_backup ops) (backups (Z.to_nat r)))
    (λ _ _, True) (seqZ 0 (Z.max 0 (replicas - 1)))) as (l2 & E2 & _); [intros r _; eexists; split; [by apply Hlog|done]|].
  rewrite E1. cbn [mbind option_bind]. rewrite Hexec by done. cbn [mbind option_bind]. rewrite E2. by eexists _, _.
Qed.

Theorem ob_cpu_rows env :
  (∀ k j, (ce_active (env k) j).1 = calm ∅ ∧ (ce_exec (env k)).1 = calm ∅ ∧ (ce_backups (env k) j).1 = calm ∅) →
  ∃ rows, ob_cpu am as_nanos from_nanos env = Some rows ∧
    Forall2 (λ n (r : Z * f64 * f64 * f64), r.1.1.1 = n) [2; 3; 5; 7] rows.
Proof.
  intros Henv. apply each_related. intros k n _.
  destruct (bench_cpu_returns 5000 n (ce_active (env k)) (ce_exec (env k)) (ce_backups (env k)))
    as (a & p & -> & _); [lia|by vm_compute|intros j; apply (Henv k j)|apply (Henv k 0%nat)|intros j; apply (Henv k j)|].
  cbn [mbind option_bind]. eexists. by split.
Qed.
End Shows.

(** ** The recovery table *)

Definition rate_eq (x y : f64) : bool := f64_le x y && f64_le y x.

(** The fine sweep of [ob-recovery csv]: the plain time is missing exactly from the replay
    rate on; back-pressure gives a time, never a longer one, at every rate but the last,
    which is twice the replay rate. *)
Lemma recovery_csv_rows :
  let rows := ob_recovery [bs "ob-recovery"; bs "csv"] in
  let plain_ok r := Bool.eqb (bool_decide (plain_us r = None)) (f64_le (replay_rate recovery_default) (row_live_rate r)) in
  let helped r := match plain_us r, backpressure_us r with
    | Some t, Some t' => f64_le t' t
    | None, Some _ => true
    | _, None => rate_eq (row_live_rate r) (f64_of_u64 8)
    end in
  length rows = 60%nat ∧ forallb plain_ok rows = true ∧ forallb helped rows = true ∧
  (backpressure_us <$> last rows) = Some None.
Proof. by vm_compute. Qed.

(** ** The simulated comparisons *)

Section Simulated.
Context (ln : f64 → f64) (powf : f64 → f64 → f64).

(** [ob-compare]: no row is below OneBarrier's, in latency or in CPU. *)
Theorem ob_compare_best rows :
  ln_law ln → ob_compare ln = Some rows →
  ∃ r0 rest, rows = r0 :: rest ∧ c_name r0.1 = "OneBarrier"%string ∧
    Forall (λ r, f64_le (cpu_mult r0.1) (cpu_mult r.1) = true ∧ stats_le r0.2 r.2 = true) rows.
Proof.
  intros Hln E. destruct (competitors_above ln ob_compare_params Hln) as (ob & rest & Ec & Hn & HF); [by vm_compute..|].
  unfold ob_compare in E. apply mapM_Some in E. rewrite Ec in E, HF.
  pose proof E as E'. apply Forall2_cons_inv_l in E' as (r0 & rs & H0 & _ & ->).
  apply fmap_Some in H0 as (st0 & H0 & ->). exists (ob, st0), rs. split; [done|]. split; [done|].
  apply Forall_lookup. intros k r Hk. destruct (Forall2_lookup_r _ _ _ _ _ E Hk) as (c & Hc & Hr).
  apply fmap_Some in Hr as (st & Hst & ->). destruct (proj1 (Forall_lookup _ _) HF k c Hc) as [Hcpu Hle]. cbn [fst snd].
  split; [done|]. destruct (Hle st Hst) as (st1 & H1 & H). rewrite H0 in H1. injection H1 as <-. exact H.
Qed.

(** The figures of a run, without its name. *)
Definition figures (s : LatencyStats) : Z * f64 * f64 * f64 * f64 * f64 :=
  (ls_n s, p50_us s, p99_us s, p999_us s, mean_us s, max_us s).

Lemma run_queue_name p m m' svc fixed s s' :
  run_queue ln p m svc fixed = Some s → run_queue ln p m' svc fixed = Some s' → figures s' = figures s.
Proof.
  unfold run_queue. destruct (ISIZE_MAX <? 8 * requests p); [done|]. generalize (queue_loop ln (Z.to_nat (requests p))
    (f64_div (offered_load p) (apply_us p)) svc fixed (rng_new (seed p)) (S754_zero false) (S754_zero false)) as lat.
  intros lat. unfold summarize. destruct (sort_floats lat) as [l|]; [|done]. cbn [mbind option_bind].
  destruct (last l); [|done]. cbn [mbind option_bind]. by intros [= <-] [= <-].
Qed.

Lemma overlap_free p b o f : three_modes ln p = Some (b, o, f) → figures o = figures b.
Proof.
  intros (b' & Hb & (o' & Ho & (f' & _ & E)%bind_Some)%bind_Some)%bind_Some. injection E as <- <- <-.
  exact (run_queue_name p _ _ _ _ _ _ Hb Ho).
Qed.

Lemma sub_self x : fnonneg x = true → f64_sub x x = S754_zero false.
Proof.
  destruct x as [[]|s| |[] m e]; [done|done|done|done|done|].
  intros _. unfold f64_sub, SFsub. cbv zeta. rewrite Z.sub_diag. done.
Qed.

(** [ob-sim]: the overlapped mode has exactly the figures of the baseline in every row,
    and the marginal cost it prints is zero whenever the baseline's is a finite time. *)
Theorem ob_sim_marginal :
  (∀ rows, ob_sim_csv ln powf = Some rows → Forall (λ r : f64 * f64 * f64 * f64 * f64, r.1.1.2 = r.1.2) rows) ∧
  (∀ rows, ob_sim_table ln = Some rows → Forall (λ r, figures r.2.1.2 = figures r.2.1.1) rows) ∧
  (∀ b o f marginal factor, ob_sim_readout ln = Some (b, o, f, marginal, factor) →
     fnonneg (p99_us b) = true → marginal = S754_zero false).
Proof.
  split_and!.
  - unfold ob_sim_csv. intros rows E%mapM_Some. apply Forall_lookup. intros k r Hk.
    destruct (Forall2_lookup_r _ _ _ _ _ E Hk) as (i & _ & ([[b o] f] & H3 & Er)%bind_Some).
    apply (inj Some) in Er. subst r. apply overlap_free in H3. unfold figures in H3. cbn [fst snd]. by injection H3.
  - unfold ob_sim_table. intros rows E%mapM_Some. apply Forall_lookup. intros k r Hk.
    destruct (Forall2_lookup_r _ _ _ _ _ E Hk) as (i & _ & ([[b o] f] & H3 & ->)%fmap_Some). by apply overlap_free in H3.
  - intros b o f mg fc E Hb. unfold ob_sim_readout in E. apply bind_Some in E as ([[b' o'] f'] & H3 & Er).
    apply overlap_free in H3. injection H3 as _ _ H3 _ _ _. rewrite H3 in Er.
    injection Er as <- <- <- <- _. by apply sub_self.
Qed.
End Simulated.
