(* ===== verification/EngineTests.v ===== *)
(** * EngineTests: the unit tests of the engine, the parsers and the checkers

    The tests of [crates/onebarrier/src/lib.rs], [resp.rs], [linearizability.rs] and
    [recovery.rs], translated like any other code: an assertion that fails is a panic. That the
    model passes them ties it to what the crate's authors expect of the code. *)

From S2P Require Import Prelude Bytes Text F64 Io State Durable Engine EngineFacts Cluster Demo Linearizability Net Resp Recovery.
Local Open Scope Z_scope.

(** [assert!] *)
Definition assert_that {σ} (b : bool) : M σ unit := λ s, if b then (Ok tt, s) else (Panic, s).

(** A test passes when it runs to its end. *)
Definition passes {σ A} (m : M σ A) (s : σ) : bool := if (m s).1 is Ok _ then true else false.

(** ** [lib.rs] *)

Section Engine.
Context (am : arith_mode) {Timestamp : Type} (as_nanos : Timestamp → Z) (from_nanos : Z → Timestamp).
#[local] Hint Extern 0 (StateMachine _) => exact (KvStore_StateMachine am) : typeclass_instances.

(** [for (i, op) in ops.iter().enumerate() { e.deliver(ts((i as u64 + 1) * 10), op).unwrap(); }] *)
Fixpoint deliver_each (i : Z) (ops : list Op) : M (Engine KvStore * World) unit :=
  match ops with
  | [] => mret tt
  | op :: ops => _ ← deliver as_nanos (from_nanos ((i + 1) * 10)) op; deliver_each (i + 1) ops
  end.

Definition recover_ops : list Op :=
  [op_set 1 1 (bs "a") 10; op_incr 1 2 (bs "a") 5; op_set 2 1 (bs "b") 100; op_incr 2 2 (bs "b") (-1);
   op_incr 1 3 (bs "a") 1].

Definition recovery_reconstructs_identical_state : M World unit :=
  e ← create 2 false;
  '(_, e) ← with_engine e (deliver_each 0 recover_ops);
  _ ← assert_that (1 <=? st_snapshots (stats e));
  e ← recover 2 false;
  reference ← unwrap (reference_apply recover_ops);
  _ ← assert_eq (state e) reference;
  _ ← assert_eq (get_int (state e) (bs "a")) (Some 16);
  assert_eq (get_int (state e) (bs "b")) (Some 99).

Definition incr_not_double_applied_after_crash : M World unit :=
  e ← create 100 false;
  '(out, _) ← with_engine e (deliver as_nanos (from_nanos 10) (op_incr 1 1 (bs "x") 5));
  _ ← assert_eq out (OutValue (Some 5));
  e ← recover 100 false;
  _ ← assert_eq (get_int (state e) (bs "x")) (Some 5);
  '(out, e) ← with_engine e (deliver as_nanos (from_nanos 10) (op_incr 1 1 (bs "x") 5));
  _ ← assert_eq out OutSuppressed;
  _ ← assert_eq (get_int (state e) (bs "x")) (Some 5);
  assert_eq (st_suppressed (stats e)) 1.

Definition idempotent_set_duplicate_is_suppressed : M World unit :=
  e ← create 100 false;
  '(out, e) ← with_engine e (deliver as_nanos (from_nanos 10) (op_set 7 1 (bs "k") 42));
  _ ← assert_eq out OutOk;
  '(out, e) ← with_engine e (deliver as_nanos (from_nanos 20) (op_set 7 1 (bs "k") 42));
  _ ← assert_eq out OutSuppressed;
  assert_eq (get_int (state e) (bs "k")) (Some 42).

Definition op_encode_decode_roundtrips : bool :=
  forallb (λ op, bool_decide (decode (encode op) = Some op))
    [op_set 3 9 (bs "hello") (-17); op_incr 0 1 [] I64_MIN; op_get U32_MAX U64_MAX (bs "a key with spaces")].

Definition transfer_ops : list Op :=
  map (λ i, op_incr 1 (i + 1) (bs "k" ++ to_string (i mod 4)) 1) (seqZ 0 20).

(** The two directories are two parts of the state. *)
Definition in_a {A} (m : M World A) : M (World * World) A := zoom fst (λ w s, (w, s.2)) m.
Definition in_b {A} (m : M World A) : M (World * World) A := zoom snd (λ w s, (s.1, w)) m.

Definition crash_recover_then_state_transfer_catches_up : M (World * World) unit :=
  a ← in_a (create 8 false);
  '(_, a) ← in_a (with_engine a (deliver_each 0 transfer_ops));
  b ← in_b (create 8 false);
  _ ← in_b (with_engine b (deliver_each 0 (take 12 transfer_ops)));
  b ← in_b (recover 8 false);
  prefix ← unwrap (reference_apply (take 12 transfer_ops));
  _ ← assert_eq (state b) prefix;
  '(_, b) ← in_b (with_engine b (import_state (export_state a)));
  _ ← assert_eq (state b) (state a);
  all ← unwrap (reference_apply transfer_ops);
  _ ← assert_eq (state b) all;
  b2 ← in_b (recover 8 false);
  assert_eq (state b2) (state a).

Definition window_ops : list Op := map (λ i, op_incr 1 i (bs "n") 1) [1; 2; 3].

(** [e.dur.append(ts((i as u64 + 1) * 10).as_nanos(), &op.encode())] *)
Fixpoint append_each (i : Z) (ops : list Op) : M (Engine KvStore * World) unit :=
  match ops with
  | [] => mret tt
  | op :: ops => _ ← on_dur (append (as_nanos (from_nanos ((i + 1) * 10))) (encode op)); append_each (i + 1) ops
  end.

Definition crash_between_snapshot_and_log_clear_is_idempotent : M World unit :=
  e ← create 100 false;
  _ ← with_engine e (_ ← deliver_each 0 window_ops; _ ← snapshot; append_each 0 window_ops);
  e ← recover 100 false;
  assert_eq (get_int (state e) (bs "n")) (Some 3).
End Engine.

Example engine_tests_pass am :
  passes (recovery_reconstructs_identical_state am id id) (calm ∅) &&
  passes (incr_not_double_applied_after_crash am id id) (calm ∅) &&
  passes (idempotent_set_duplicate_is_suppressed am id id) (calm ∅) &&
  op_encode_decode_roundtrips &&
  passes (crash_recover_then_state_transfer_catches_up am id id) (calm ∅, calm ∅) &&
  passes (crash_between_snapshot_and_log_clear_is_idempotent am id id) (calm ∅) = true.
Proof. destruct am; by vm_compute. Qed.

(** ** [resp.rs] *)

(** Lines, each with its line end. *)
Definition lines (l : list bytes) : bytes := concat (map (λ x, x ++ CRLF) l).

Section Parser.
Context (memory : Z).

(** [read_command(&mut c).unwrap().unwrap()] *)
Definition read_one : M Conn (list bytes) := c ← read_command memory; unwrap c.

Definition parses_resp_array_command : M Conn unit :=
  cmd ← read_one; assert_eq cmd [bs "SET"; bs "foo"; bs "bar"].
Definition array_command : bytes := lines [bs "*3"; bs "$3"; bs "SET"; bs "$3"; bs "foo"; bs "$3"; bs "bar"].

(** The value holds a NUL, a line end and a byte that is not UTF-8. *)
Definition parses_binary_safe_values : M Conn unit :=
  cmd ← read_one; v ← unwrap (cmd !! 2%nat); assert_eq v [Byte.x00; CR; LF; Byte.xff].
Definition binary_command : bytes :=
  lines [bs "*3"; bs "$3"; bs "SET"; bs "$1"; bs "k"; bs "$4"; [Byte.x00; CR; LF; Byte.xff]].

Definition inline_command_fallback : M Conn unit := cmd ← read_one; assert_eq cmd [bs "PING"].

Definition eof_returns_none : M Conn unit :=
  c ← read_command memory; assert_that (if c is None then true else false).
End Parser.

Definition reply_encodings : bool :=
  bool_decide (to_bytes reply_ok = lines [bs "+OK"]) && bool_decide (to_bytes (Int 42) = lines [bs ":42"]) &&
  bool_decide (to_bytes (Bulk None) = lines [bs "$-1"]) && bool_decide (to_bytes (Bulk (Some (bs "hi"))) = lines [bs "$2"; bs "hi"]) &&
  bool_decide (to_bytes (Array []) = lines [bs "*0"]).

Example resp_tests_pass :
  passes (parses_resp_array_command 4096) (conn_text array_command []) &&
  passes (parses_binary_safe_values 4096) (conn_text binary_command []) &&
  passes (inline_command_fallback 4096) (conn_text (lines [bs "PING"]) []) &&
  passes (eof_returns_none 4096) (conn_text [] []) && reply_encodings = true.
Proof. by vm_compute. Qed.

(** ** [linearizability.rs] *)

Definition sequential_write_then_read_is_linearizable : bool :=
  is_linearizable [mkLinOp 1 (Write 1) 0 2; mkLinOp 2 (Read 1) 3 4] 0.
Definition stale_read_after_write_returns_is_not_linearizable : bool :=
  negb (is_linearizable [mkLinOp 1 (Write 1) 0 1; mkLinOp 2 (Read 0) 2 3] 0).
Definition concurrent_read_during_write_is_linearizable : bool :=
  is_linearizable [mkLinOp 1 (Write 1) 0 3; mkLinOp 2 (Read 1) 1 2] 0 &&
  is_linearizable [mkLinOp 1 (Write 1) 0 3; mkLinOp 2 (Read 0) 1 2] 0.
Definition lost_update_counter_history_is_not_linearizable : bool :=
  negb (is_linearizable [mkLinOp 1 (Write 1) 0 1; mkLinOp 2 (Write 2) 2 3; mkLinOp 3 (Read 1) 4 5] 0).
Definition larger_concurrent_linearizable_history : bool :=
  is_linearizable [mkLinOp 1 (Write 1) 0 5; mkLinOp 2 (Read 1) 2 4; mkLinOp 3 (Write 2) 4 9;
                   mkLinOp 2 (Read 2) 6 8; mkLinOp 1 (Read 2) 10 11] 0.

Example linearizability_tests_pass :
  sequential_write_then_read_is_linearizable && stale_read_after_write_returns_is_not_linearizable &&
  concurrent_read_during_write_is_linearizable && lost_update_counter_history_is_not_linearizable &&
  larger_concurrent_linearizable_history = true.
Proof. by vm_compute. Qed.

(** ** [recovery.rs] *)

Definition is_some {A} (o : option A) : bool := if o is Some _ then true else false.

Definition converges_below_capacity_and_livelocks_above : bool :=
  let p := recovery_default in
  is_some (recovery_time_us p (f64_of_u64 2) false) && negb (is_some (recovery_time_us p (f64_of_u64 5) false)) &&
  is_some (recovery_time_us p (f64_of_u64 5) true).

Example recovery_tests_pass : converges_below_capacity_and_livelocks_above = true.
Proof. by vm_compute. Qed.
