(* ===== verification/FrontendTests.v ===== *)
(** * FrontendTests: the tests of the five servers

    The tests of [crates/onebarrier/src/server.rs], [memcache.rs], [http.rs], [txn.rs] and
    [streamlog.rs]: a server is started on an empty directory, a client asks it one thing after
    the other, the server is stopped and started again, and the client asks again. *)

From S2P Require Import Prelude Bytes Text Io State Durable Engine EngineFacts Net Service Server Resp Txn Streamlog Memcache Http.
Local Open Scope Z_scope.

(** [str::ends_with], [str::contains] *)
Definition ends_with (s b : bytes) : bool := bool_decide (drop (length b - length s) b = s).
Fixpoint contains (s b : bytes) : bool :=
  starts_with s b || match b with [] => false | _ :: b => contains s b end.

Definition req_line (s : string) : bytes := bs s ++ CRLF.
Definition reply_lines (l : list string) : bytes := concat (map req_line l).

(** A request and what is asserted of the reply. *)
Abbreviation Exchange := (bytes * (bytes → bool))%type.
Definition gets (reply : bytes) (b : bytes) : bool := bool_decide (b = reply).

Section Client.
Context {A : Type} (step : Z → A → M (Conn * Executor) (option A)) (start : A).

(** The client's helper ([cmd], [req], [http]): write a request, read into a buffer of [size]
    bytes. The handler of connection [cid] takes one turn of its loop; [None]: it is gone. *)
Definition exchange (size : nat) (cid : Z) (a : A) (request : bytes) (x : Executor) : option (bytes * A * Executor) :=
  match step cid a (conn_text request [], x) with
  | (Ok (Some a), (c, x)) => Some (take size (flushed c), a, x)
  | _ => None
  end.

Fixpoint client_run (size : nat) (cid : Z) (a : A) (script : list Exchange) (x : Executor) : option Executor :=
  match script with
  | [] => Some x
  | (request, check) :: script =>
      '(reply, a, x) ← exchange size cid a request x;
      if check reply then client_run size cid a script x else None
  end.

(** [start(cfg(&dir))], a connection, the exchanges, [h.stop()]: the executor it leaves. *)
Definition server_run (size : nat) (script : list Exchange) (tick : Z) (w : World) : option Executor :=
  srv ← server_start Wrapping 1000 false tick w [(false, InStream (conn_text [] []))];
  '(cid, _) ← head (srv_conns srv);
  client_run size cid start script (srv_exec srv).

(** Two servers on one directory, one after the other in the same process. *)
Definition server_test (size : nat) (first second : list Exchange) : bool :=
  match server_run size first 1 (calm ∅) with
  | Some x => if server_run size second (ex_tick x) (ex_world x) is Some _ then true else false
  | None => false
  end.
End Client.

#[local] Hint Extern 0 (KvService Executor) => exact (Executor_service Wrapping id id) : typeclass_instances.

(** ** [server.rs] *)

Definition cmd (parts : list string) : bytes := encode_command (map bs parts).

Definition resp_server_set_get_incr_and_recovers : bool :=
  server_test (resp_step (σ := Executor) Wrapping 4096) 0 256
    [(cmd ["PING"], gets (reply_lines ["+PONG"])); (cmd ["SET"; "foo"; "bar"], gets (reply_lines ["+OK"]));
     (cmd ["GET"; "foo"], gets (reply_lines ["$3"; "bar"])); (cmd ["INCR"; "ctr"], gets (reply_lines [":1"]));
     (cmd ["INCRBY"; "ctr"; "41"], gets (reply_lines [":42"])); (cmd ["GET"; "missing"], gets (reply_lines ["$-1"]));
     (cmd ["DEL"; "foo"], gets (reply_lines [":1"]))]
    [(cmd ["GET"; "foo"], gets (reply_lines ["$-1"])); (cmd ["GET"; "ctr"], gets (reply_lines ["$2"; "42"]))].

(** ** [memcache.rs] *)

Definition memcache_set_get_delete_and_recovers : bool :=
  server_test (mc_step (σ := Executor) Wrapping 4096) 0 256
    [(reply_lines ["set foo 0 0 3"; "bar"], gets (reply_lines ["STORED"]));
     (reply_lines ["get foo"], gets (reply_lines ["VALUE foo 0 3"; "bar"; "END"]));
     (reply_lines ["get missing"], gets (reply_lines ["END"]));
     (reply_lines ["set n 0 0 1"; "5"], gets (reply_lines ["STORED"]));
     (reply_lines ["incr n 10"], gets (reply_lines ["15"]));
     (reply_lines ["delete foo"], gets (reply_lines ["DELETED"]));
     (reply_lines ["delete foo"], gets (reply_lines ["NOT_FOUND"]))]
    [(reply_lines ["get foo"], gets (reply_lines ["END"]));
     (reply_lines ["get n"], gets (reply_lines ["VALUE n 0 2"; "15"; "END"]))].

(** ** [http.rs] *)

Definition http_get (path : string) : bytes := reply_lines ["GET " +:+ path +:+ " HTTP/1.1"; EmptyString].
Definition http_incr : bytes := reply_lines ["POST /incr/views HTTP/1.1"; EmptyString].

Definition http_rest_put_get_incr_and_recovers : bool :=
  server_test (http_step (σ := Executor) 4096) 0 1024
    [(reply_lines ["PUT /greeting HTTP/1.1"; "Content-Length: 5"; EmptyString] ++ bs "hello", λ r, starts_with (bs "HTTP/1.1 200") (from_utf8_lossy r));
     (http_get "/greeting", λ r, contains (bs "200") (from_utf8_lossy r) && ends_with (bs "hello") (from_utf8_lossy r));
     (http_incr, λ r, ends_with (bs "1") (from_utf8_lossy r));
     (http_incr, λ r, ends_with (bs "2") (from_utf8_lossy r));
     (http_get "/missing", λ r, starts_with (bs "HTTP/1.1 404") (from_utf8_lossy r))]
    [(http_get "/greeting", λ r, ends_with (bs "hello") (from_utf8_lossy r));
     (http_get "/views", λ r, ends_with (bs "2") (from_utf8_lossy r))].

(** ** [txn.rs] *)

Definition txn_ask (request : string) (reply : list string) : Exchange :=
  (req_line request, λ r, gets (reply_lines reply) (from_utf8_lossy r)).

Definition atomic_transaction_commits_and_recovers : bool :=
  server_test (txn_step (σ := Executor)) txn_start 256
    [txn_ask "BEGIN" ["BEGIN"]; txn_ask "SET acct_a 100" ["QUEUED"]; txn_ask "SET acct_b 0" ["QUEUED"];
     txn_ask "GET acct_a" ["NIL"]; txn_ask "COMMIT" ["COMMIT 2"]; txn_ask "GET acct_a" ["VALUE 3"; "100"];
     txn_ask "BEGIN" ["BEGIN"]; txn_ask "SET acct_a 999" ["QUEUED"]; txn_ask "ABORT" ["ABORT"];
     txn_ask "GET acct_a" ["VALUE 3"; "100"]]
    [txn_ask "GET acct_a" ["VALUE 3"; "100"]; txn_ask "GET acct_b" ["VALUE 1"; "0"]].

(** ** [streamlog.rs] *)

Definition streamlog_publish_consume_and_recovers : bool :=
  server_test (stream_step (σ := Executor)) 0 512
    [txn_ask "PUB events alpha" ["OFFSET 1"]; txn_ask "PUB events beta" ["OFFSET 2"];
     txn_ask "PUB events gamma" ["OFFSET 3"]; txn_ask "LEN events" ["LEN 3"];
     (req_line "SUB events 1", λ r, let sub := from_utf8_lossy r in
        contains (bs "MSG 1 5" ++ CRLF ++ bs "alpha") sub && contains (bs "MSG 3 5" ++ CRLF ++ bs "gamma") sub &&
        ends_with (req_line "END") sub)]
    [txn_ask "LEN events" ["LEN 3"];
     (req_line "SUB events 2", λ r, let sub := from_utf8_lossy r in
        contains (bs "MSG 2 4" ++ CRLF ++ bs "beta") sub && contains (bs "MSG 3 5" ++ CRLF ++ bs "gamma") sub)].

Example frontend_tests_pass :
  resp_server_set_get_incr_and_recovers && memcache_set_get_delete_and_recovers && http_rest_put_get_incr_and_recovers &&
  atomic_transaction_commits_and_recovers && streamlog_publish_consume_and_recovers = true.
Proof. by vm_compute. Qed.
