(* ===== verification/BenchTests.v ===== *)
(** * BenchTests: the tests of the cluster, the benchmarks and the simulation
    ([crates/onebarrier/src/cluster.rs], [bench.rs], [sim.rs], modules [tests])

    Each test is the function of what its environment gives it: the deliveries of the
    fabric, the elapsed times. It passes in every environment of the kind it is written
    for; a comparison of times is left as a condition. Temporary directories are fresh. *)

From S2P Require Import Prelude Bytes Text F64 Io State Durable Engine EngineFacts CrashSafety Lifetimes Transfer Cadence Workload Cluster ClusterGuarantees Bench Ordering Latency Sim Experiments.
Local Open Scope Z_scope.

Definition f64_lt : f64 → f64 → bool := SpecFloat.SFltb.
Definition f64_abs : f64 → f64 := SpecFloat.SFabs.

Section Tests.
Context (am : arith_mode) {Timestamp : Type} (as_nanos : Timestamp → Z) (from_nanos : Z → Timestamp).
#[local] Hint Extern 0 (StateMachine _) => exact (KvStore_StateMachine am) : typeclass_instances.

(** ** [cluster.rs] *)

Definition survivor_stays_correct_and_victim_recovers_after_a_replica_crash (reps : list ReplicaInput) : bool :=
  match run_cluster_with_crash am as_nanos (mkCfg 3 2 150 8 32) 1 60 reps with
  | Some r => survivor_correct r && victim_prefix_consistent r && recovered_ok r
  | None => false
  end.

Definition replicas_converge_to_exact_state_over_live_fabric (reps : list ReplicaInput) : bool :=
  match run_cluster am as_nanos (mkCfg 3 2 150 8 64) reps with
  | Some r => converged r && correct r && (foldr Z.add 0 (expected r).*2 =? 300)
  | None => false
  end.

(** ** [bench.rs] *)

(** The directories the two runs leave, and the bytes in their logs. *)
Definition onebarrier_writes_no_order_log_unlike_hycor (ops : Z) : bool :=
  match ft_onebarrier am as_nanos from_nanos ops (calm ∅), ft_hycor am as_nanos from_nanos ops (calm ∅, calm ∅) with
  | (Ok _, ob), (Ok _, (hy, ord)) =>
      let ob_bytes := len (logc (files ob)) in
      let hy_op := len (logc (files hy)) in
      let hy_ord := len (logc (files ord)) in
      (ob_bytes =? hy_op) && (0 <? hy_ord) && (ob_bytes <? hy_op + hy_ord)
  | _, _ => false
  end.

Definition fabric_ordering_scales_past_central_sequencer (sched : list Z) (secs : f64 * f64) : bool :=
  match bench_ordering am 8 200000 sched secs with
  | Some (seq, ts) => f64_lt (or_ops_per_sec seq) (or_ops_per_sec ts)
  | None => false
  end.

Definition passive_uses_less_execution_cpu_than_active_smr (active : nat → World * f64) (exec : World * f64)
    (backups : nat → World * f64) : bool :=
  match bench_cpu_passive_vs_active am as_nanos from_nanos 2000 4 active exec backups with
  | Some (a, p) => f64_lt (exec_cpu_ms p) (f64_mul (exec_cpu_ms a) (f64_lit 6 1))
  | None => false
  end.

Definition snapshot_interval_tradeoff_holds (env : nat → World * (Z * Z)) : bool :=
  match sweep_snapshot_interval am as_nanos from_nanos [64; 100000] 20000 32 env with
  | Some (small :: large :: _) => (sr_snapshots large <? sr_snapshots small) && (replay_records small <? replay_records large)
  | _ => false
  end.

Definition small_config (d : Durability) : BenchConfig := mkBenchConfig 2 400 (b_keys bench_default) 200000 d.
Definition in_fabric_durability_is_near_free_vs_fsync (mem_polls fs_polls : list (TimedPoll (Timestamp := Timestamp))) : bool :=
  match run_bench am as_nanos (small_config InFabricMem) mem_polls (calm ∅), run_bench am as_nanos (small_config Fsync) fs_polls (calm ∅) with
  | Some mem, Some fs => (700 <? br_n mem) && (700 <? br_n fs) && (durable_p50 mem <? durable_p50 fs)
  | _, _ => false
  end.
End Tests.

(** ** [sim.rs] *)

Definition test_params : SimParams :=
  let d := sim_default in mkSimParams (rtt_us d) (barrier_us d) (apply_us d) (fsync_us d) 50000 (f64_lit 7 1) (seed d).

(** [None]: the simulation panics. *)
Definition onebarrier_dominates_competitors_on_latency_and_cpu (ln : f64 → f64) : option bool :=
  let cs := competitors test_params in
  ob ← head (filter (λ c, c_name c = "OneBarrier"%string) cs);
  ob_lat ← simulate_explicit ln test_params (svc_us ob) (c_fixed_us ob);
  rs ← mapM (λ c,
    lat ← simulate_explicit ln test_params (svc_us c) (c_fixed_us c);
    Some (f64_le (p99_us ob_lat) (f64_add (p99_us lat) (f64_lit 1 9)) && f64_le (cpu_mult ob) (cpu_mult c))) cs;
  Some (forallb id rs).

Definition ft_overlap_matches_baseline_and_fsync_collapses (ln : f64 → f64) : option bool :=
  base ← simulate ln test_params ReliableBaseline;
  overlap ← simulate ln test_params FtOverlap;
  fsync ← simulate ln test_params FtFsync;
  Some (f64_lt (f64_abs (f64_sub (p99_us overlap) (p99_us base))) (f64_lit 1 2) &&
        f64_lt (f64_mul (p99_us base) (f64_of_u64 100)) (p99_us fsync)).

(** ** The tests pass *)

Section Pass.
Context (am : arith_mode) {Timestamp : Type} (as_nanos : Timestamp → Z) (from_nanos : Z → Timestamp).
Context (Hns : ∀ ts, is_u64 (as_nanos ts)).
#[local] Hint Extern 0 (StateMachine _) => exact (KvStore_StateMachine am) : typeclass_instances.

(** Over any total order of the clients' operations, in whatever batches it comes. *)
Theorem convergence_test_passes xs reps :
  len reps = 3 → total_order 150 8 (seqZ 3 2) xs.*2 → Forall (follows xs) reps →
  replicas_converge_to_exact_state_over_live_fabric am as_nanos reps = true.
Proof.
  intros Hl HT HF. unfold replicas_converge_to_exact_state_over_live_fabric.
  destruct (cluster_converges am as_nanos Hns 3 2 150 8 64 xs reps) as (r & E & _ & Hc & Hk & _);
    [lia|lia|by vm_compute|by vm_compute|lia|by vm_compute|done|exact HT|exact HF|]. rewrite E, Hc, Hk. cbn [andb].
  assert (Hx : expected r = expected_state 2 150 8).
  { unfold run_cluster in E. destruct (negb _); [done|]. destruct (usize_arith am _); [|done]. cbn in E.
    destruct (mapM _ reps); [|done]. cbn in E. by injection E as <-. }
  rewrite Hx. by vm_compute.
Qed.

Theorem crash_test_passes xs1 xs2 reps :
  len reps = 3 → total_order 150 8 (seqZ 3 2) (xs1 ++ xs2).*2 → 60 <= len xs1 →
  (∀ i r, reps !! i = Some r → if decide (i = 1%nat) then follows_victim xs1 r else follows (xs1 ++ xs2) r) →
  survivor_stays_correct_and_victim_recovers_after_a_replica_crash am as_nanos reps = true.
Proof.
  intros Hl HT H60 HF. unfold survivor_stays_correct_and_victim_recovers_after_a_replica_crash.
  destruct (crashed_replica_catches_up am as_nanos Hns 3 2 150 8 32 1 60 xs1 xs2 reps) as (r & -> & _ & _ & -> & -> & ->);
    [lia|lia|by vm_compute|by vm_compute|lia|by vm_compute|done|exact HT|lia|lia|exact HF|done].
Qed.

(** The order log of the other scheme costs 20 bytes for each operation. *)
Theorem order_log_test_passes ops e w :
  1 <= ops → ft_onebarrier am as_nanos from_nanos ops (calm ∅) = (Ok e, w) →
  onebarrier_writes_no_order_log_unlike_hycor am as_nanos from_nanos ops = true.
Proof.
  intros Hn E. unfold onebarrier_writes_no_order_log_unlike_hycor. rewrite E.
  destruct (hycor_writes_more am as_nanos from_nanos ops _ w e ∅ E ltac:(lia)) as (d2 & -> & Hl). cbn [files calm].
  rewrite Hl, Z.eqb_refl. cbn. lia.
Qed.

Theorem snapshot_test_passes env :
  (∀ k, (env k).1 = calm ∅) → snapshot_interval_tradeoff_holds am as_nanos from_nanos env = true.
Proof.
  intros Henv. unfold snapshot_interval_tradeoff_holds.
  destruct (sweep_rows am as_nanos from_nanos Hns [64; 100000] 20000 32 env) as (rows & -> & HF & _); [lia|by vm_compute|done|].
  apply Forall2_cons_inv_l in HF as (r1 & l & (_ & _ & S1 & R1 & _) & HF & ->).
  apply Forall2_cons_inv_l in HF as (r2 & l' & (_ & _ & S2 & R2 & _) & HF & ->).
  rewrite S1, S2, R1, R2. by vm_compute.
Qed.

(** When the fabric delivers everything, what is left of the test is its comparison of the
    median times. *)
Theorem durability_test_passes xs ys mem fs sent_at sent_at' :
  total_order 400 64 (seqZ 1 2) xs.*2 → timed as_nanos xs mem sent_at →
  total_order 400 64 (seqZ 1 2) ys.*2 → timed as_nanos ys fs sent_at' →
  ∃ m f, run_bench am as_nanos (small_config InFabricMem) mem (calm ∅) = Some m ∧ run_bench am as_nanos (small_config Fsync) fs (calm ∅) = Some f ∧
    in_fabric_durability_is_near_free_vs_fsync am as_nanos mem fs = (durable_p50 m <? durable_p50 f).
Proof.
  intros HT HR HT' HR'. unfold in_fabric_durability_is_near_free_vs_fsync, small_config. cbn [b_keys bench_default].
  destruct (bench_figures am as_nanos Hns 2 400 64 200000 InFabricMem xs mem sent_at) as (m & -> & Hm & _);
    [lia|by vm_compute|by vm_compute|lia|by vm_compute|exact HT|exact HR|].
  destruct (bench_figures am as_nanos Hns 2 400 64 200000 Fsync ys fs sent_at') as (f & -> & Hf & _);
    [lia|by vm_compute|by vm_compute|lia|by vm_compute|exact HT'|exact HR'|].
  exists m, f. rewrite Hm, Hf. done.
Qed.
End Pass.

(** The comparison of the simulated systems holds whenever it is evaluated, with every
    logarithm that is finite and not positive on (0, 1], if the latencies are not negative. *)
Theorem domination_test_passes ln b :
  ln_law ln →
  (∀ c lat, c ∈ competitors test_params → simulate_explicit ln test_params (svc_us c) (c_fixed_us c) = Some lat →
    fnonneg (p99_us lat) = true) →
  onebarrier_dominates_competitors_on_latency_and_cpu ln = Some b → b = true.
Proof.
  intros Hln Hnn. unfold onebarrier_dominates_competitors_on_latency_and_cpu.
  destruct (competitors_above ln test_params Hln) as (ob & rest & E & Hname & Habove); [by vm_compute..|].
  assert (Hh : head (filter (λ c, c_name c = "OneBarrier"%string) (competitors test_params)) = Some ob).
  { rewrite E, filter_cons_True by done. done. }
  cbv zeta. rewrite Hh. cbn [mbind option_bind].
  destruct (simulate_explicit ln test_params (svc_us ob) (c_fixed_us ob)) as [ol|] eqn:Eo; [|done]. cbn [mbind option_bind].
  destruct (mapM _ _) as [rs|] eqn:Em; [|done]. cbn. intros [= <-]. apply forallb_forall. intros r Hr%list_elem_of_In.
  apply mapM_Some in Em. apply list_elem_of_lookup in Hr as [i Hi]. destruct (Forall2_lookup_r _ _ _ _ _ Em Hi) as (c & Hc & Hcr).
  apply list_elem_of_lookup_2 in Hc. rewrite Forall_forall in Habove. destruct (Habove c Hc) as [Hcpu Hst].
  destruct (simulate_explicit ln test_params (svc_us c) (c_fixed_us c)) as [lat|] eqn:Ec; [|done]. cbn in Hcr. injection Hcr as <-.
  destruct (Hst lat Ec) as (st & Est & Hle). rewrite Eo in Est. injection Est as <-. unfold stats_le in Hle. rewrite !andb_true_iff in Hle.
  destruct Hle as [[[[[_ _] H99] _] _] _]. rewrite Hcpu, andb_true_r.
  assert (Hob : fnonneg (p99_us ol) = true) by (apply (Hnn ob); [rewrite E; left|done]).
  pose proof (Hnn c lat Hc Ec) as Hlat. apply below_le. eapply below_trans; [by apply below_intro|].
  apply below_add; [by apply below_refl|by vm_compute].
Qed.

(** The order-log test with fewer operations, evaluated. *)
Example order_log_test_evaluates : onebarrier_writes_no_order_log_unlike_hycor Checked ns48 id 20 = true.
Proof. vm_compute. reflexivity. Qed.
